(* ===== verification/_CoqProject ===== *)
-Q . S2P
Prelude.v
Accidentals.v
Chords3.v
NoteEvent.v
MinWidth.v
StaffVisibility.v
BarLineSpans.v
SystemHeader.v
Courtesy.v
LayoutContext.v
LyricsAlign.v
SearchNote.v
TopBeam.v
Divider.v
Fingering.v
SpannerLayout.v
Spacing.v
ChordLayout.v
Beams.v
SystemLayout.v
PageLayout.v
Driver.v
MMRest.v
MMRestContent.v
MeasureTicks.v
ConnectTies.v
SystemPasses.v
SystemTrailer.v
