(* ===== verification/Prelude.v ===== *)
(** * A verification library for MuseScore's layout core (libmscore/layout.cpp)

    HEADER (plan and map; kept up to date with the development).

    The program.  [src/libmscore/layout.cpp] computes the geometry of a
    score: chord and accidental placement inside a segment
    ([Score::layoutChords1/2/3], [resolveAccidentals], [layoutAccidental]),
    beam grouping ([Score::createBeams], [Score::beamGraceNotes]),
    horizontal spacing by a spring model ([sff2], [Score::respace],
    [Score::computeMinWidth]), multi-measure rests
    ([validMMRestMeasure], [breakMultiMeasureRest], [Score::createMMRest],
    the run detection in [Score::getNextMeasure]), greedy packing of
    measures into systems ([Score::collectSystem]) and of systems into
    pages ([Score::collectPage], [layoutPage]), driven by
    [Score::doLayout] through a [LayoutContext].  Data flows measure ->
    segment -> element; widths flow back up (element -> segment ->
    measure -> system -> page).  [src/libmscore/noteevent.cpp] holds the
    equality of playback note events.

    Numbers.  [qreal] is modelled by [Q] (exact rationals): the layout
    code only adds, subtracts, multiplies, divides and compares, so
    every theorem is about exact arithmetic (floating-point rounding is
    not modelled).  Equality of rationals is [Qeq] ([==]), coarser than
    [=]; the operations carry [Proper] instances so that setoid
    rewriting works.  Qt's [qMax]/[qMin] are modelled literally
    ([(a < b) ? b : a]) by [qMax]/[qMin] below.  [int] ticks and line
    numbers are [Z]; staff lines, dots, voices are [Z] or [nat].
    [log] (used by [respace] for the stretch coefficient) is not
    rational: [Spacing.v] takes it as a section variable with the one
    property the code relies on (non-negative at arguments >= 1).

    Files, in dependency order (see _CoqProject):
    - [Prelude.v] (this file): the [layout_scope] notations, Qt's
      [qMax]/[qMin], boolean comparisons with reflection lemmas, the
      [qcase] and [qlia] tactics, the hint database [layout], sums of
      lists of rationals, the insertion sorts that model [qSort] with a
      "line descending" comparator and [std::multimap::insert], and the
      [LayoutMode] enumeration shared by system and page layout.
    - [Accidentals.v], Module [Accidentals]: accidental placement:
      [resolveAccidentals] (clearing one neighbour, with the notch
      subsumption cases), [layoutAccidental] (column offset, ledger
      lines, left-mirrored noteheads, both neighbours) and the zig-zag
      of [Score::layoutChords3] for accidentals with no octave partner,
      written once over the step it repeats.  Theorems: no conflict
      exactly when the gap is [pd] or more or the two are an octave
      apart, [lx] only moves left, a real conflict keeps a full [pd],
      bounds on the right edge, and the zig-zag lays out every
      accidental once, each against its nearest laid-out neighbours.
    - [Chords3.v], Module [Chords3]: the rest of [Score::layoutChords3]:
      the loop over the notes (notehead x and y, the accidental records
      and their per-pitch-class lists linked by [next], the left-mirrored
      heads, the dot columns and the dot-conflict rule, which may write
      the neighbour's dot), the octave columns (column order, slotting
      unmatched accidentals into columns, column layout and alignment)
      and the final accidental positions; the zig-zag is the one of
      [Accidentals.v].  Theorems: the linked lists the note loop builds
      hold exactly each pitch class, bottom up, and end within [nAcc]
      steps; the dot of a line note with a second above goes down.
    - [NoteEvent.v], Module [NoteEvent]: [NoteEvent::read], [write],
      [operator==] ([src/libmscore/noteevent.cpp]); the property names
      and [get/setProperty] (outside src/) are section variables.
      Theorems: [operator==] decides equality; writing then reading
      gives the event back when [setProperty(P_PITCH)] stores the value
      written as [P_EVENT_PITCH], and loses the pitch when it does not.
    - [MinWidth.v], Module [MinWidth]: [Score::computeMinWidth]: the
      first segment's margin, the loop over the segments with the
      system header gap, the look-back that widens the chord-rest
      segments between a colliding pair, and the last segment's width.
      Theorem: segments lie edge to edge from the first one's margin,
      the returned width is where the last one ends, and every gap is
      at least the distance asked for.
    - [StaffVisibility.v], Module [StaffVisibility]:
      [Score::hideEmptyStaves]: which staves of a system are shown
      (hide modes, the style, measure rests, notes moved in from
      another staff of the part, and the two fallbacks for an empty
      system).  Theorem: a system always keeps a visible staff, and
      staves that may not be hidden or have music are shown.
    - [BarLineSpans.v], Module [BarLineSpans]:
      [Score::updateBarLineSpans]: the bar line ends of the staves when
      a staff's line count changes.  Theorem: ends in the top half stay
      linked to the top line, ends in the bottom half to the bottom
      line, other staves are unchanged; an Example shows an end leaving
      a staff that shrinks from five lines to two.
    - [SystemHeader.v], Module [SystemHeader]: [Score::addSystemHeader]
      over the header segments of a system's first measure (a segment
      identity stands for the [Segment*] the code keeps): the scan for
      each shown staff's key signature and clef, the courtesy key
      signature of the previous measure, the creation, change and
      removal of key signatures and clefs, and the begin bar line.  The
      invariant [wf] (one segment per type, in type order, one slot
      per staff, elements in segments of their type) is kept, and every
      shown staff ends with the clef and key signature the code means
      it to have; the staff loop is idempotent (a second layout of the
      header changes nothing); an Example shows a user's C major key
      signature removed when the previous measure shows a courtesy.
    - [Courtesy.v], Module [Courtesy]: [Score::cautionaryWidth].
      Theorem: the width is the courtesy time signature's plus the
      largest courtesy key signature's, and [hasCourtesy] says whether
      one of them is already announced.
    - [LayoutContext.v], Module [LayoutContext]: the system and page
      objects of the layout context: [getNextSystem] (reuse or create
      a system, one staff per score staff), [getEmptyPage] (reuse or
      add a page, number and place it) and [doLayoutRange]'s split of
      [_systems], page removal and splice, and [doLayout]'s removal of
      the systems and pages it did not use, over any sequence of the
      calls the layout loop makes.  Theorems: the old systems keep their
      order with new ones after them, none lost or doubled, the prefix
      untouched; the pages are numbered, sized and placed one after the
      other.  An Example shows old systems left on no page when the
      score ran out of measures.
    - [LyricsAlign.v], Module [Lyrics]: the vertical alignment of
      lyrics ([findLyricsMaxY], [findLyricsMinY], [applyLyricsMax],
      [applyLyricsMin] on segments and measures, and the [MEASURE],
      [SYSTEM] and [SEGMENT] modes of [collectSystem]); the lyrics'
      offsets and the segments' staff shapes are the state, a [Shape]
      a list of rectangles, [Shape::minVerticalDistance] a section
      variable.  The class [LyricsRel] states the laws of a relation
      "these lyrics were relabelled so" that the loops over the staves
      need, proved once for segments, lists and measures.  Theorems: in
      [SYSTEM] mode every staff's lyrics below (above) get one offset
      [>= 0] ([<= 0]) across the system; in [MEASURE] and [SEGMENT] mode
      one per measure or segment, and lyrics above are left alone.
    - [SearchNote.v], Module [SearchNote]: [Score::searchNote] over the
      track's chord-rest in each segment.  Theorem: on increasing ticks
      the loop equals a declarative reference (the chord-rest at the
      tick, else the last before it when one follows, else null).
    - [TopBeam.v], Module [TopBeam]: [isTopBeam] and [notTopBeam], which
      decide whether [collectSystem] or the spanner pass of
      [layoutSystem] lays out a beam.  Theorem: for a beam's first
      chord-rest exactly one holds, for any other neither.
    - [Divider.v], Module [Divider]: [checkDivider] and its two calls in
      [layoutPage], with the system's divider slots and the undo stack.
      Theorem: a side has a divider exactly when the style asks for one,
      placed below the middle of the gap; the two [checkDivider] calls
      remove a user divider only through the undo stack.  The early
      return of [layoutPage] for pages without stretch (layout.cpp
      1805-1816), which deletes every divider, user ones included,
      without the undo stack, is not modelled.
    - [Fingering.v], Module [Fingering]: [Score::layoutFingering].
      Theorem: on a one-note chord the fingering clears the head by at
      least 0.4 sp, below it exactly when [below] (stem up with voices,
      else the last staff of a part of several staves), above
      otherwise; it stops being autoplaced unless not moved sideways.
    - [MMRestContent.v], Module [MMRestContent]: the second half of
      [Score::createMMRest]: the end bar lines, elements, rests, clefs,
      time and key signatures, ambitus and annotations it copies into
      the replacement measure, each segment a map from staves to
      elements.  Theorems: every staff shows what the run shows (an
      existing clef excepted); the loop removing stale annotations
      erases from the vector it walks, so it is defined only when at
      most the last one goes.
    - [SpannerLayout.v], Module [SpannerLayout]: [Score::layoutSpanner]
      as the sequence of layout calls it makes.  Theorems: every
      annotation is laid out exactly once; a chord's stem before its
      ties and spanners; the annotations after the chords of all other
      tracks.
    - [Spacing.v], Module [Spacing]: [sff2] and [Score::respace] (the
      spring model of horizontal spacing).  The [SpringMap] is a list
      kept sorted by key as the multimap is; [sff2] is shown to compute
      the force of an abstract specification (the force at which the
      springs' total length equals the target width, and the only such
      force), a refinement of the sweep; [respace] conserves the width
      between its first and last element and places each middle
      element at the first one's x plus the gaps before it; when
      crowded, [sff2] returns force 0 and every gap keeps its own
      minimum.
    - [ChordLayout.v], Module [ChordLayout]: [Score::layoutChords2]
      (notehead mirroring, a loop over the notes with the conflict
      state) and [Score::layoutChords1] (gathering the voices of a
      segment, centering, the up/down conflict classification, the
      dot-hiding of shared heads and the offset cascade).  Notes are
      records with an identity [nid] so that the aliasing of the
      [Note*] lists is explicit.  Theorems: conflicting heads land on
      opposite sides of the stem, mirroring only on conflict, at most
      one stem group is displaced, displacement is positive in every
      unison/second case, and the spec's chord scenario (which the code
      contradicts) evaluated by [vm_compute].
    - [Beams.v], Module [Beams]: the per-track state machine of
      [Score::createBeams] and [Score::beamGraceNotes], written once
      over the candidate-replacement test; its runs are a reachability
      relation, and rule induction gives the invariants: every beam has
      two or more members shorter than a quarter, the beams are the
      runs of two or more of a partition of the track into consecutive
      groups, [BEGIN] only starts a beam, quarters are never beamed,
      [END] is ignored on the element that opens a beam, and an open
      beam takes any later short [AUTO] element whatever the gap.
    - [SystemLayout.v], Module [SystemLayout]: [Score::collectSystem]:
      the measure-collecting loop (a fixpoint over the stream of
      [MeasureBase]s, so it terminates) and the stretch pass.  Theorems:
      progress and partition of the stream, line mode takes everything,
      breaks end a system and boxes start one, a system of two or more
      items is not overfull, the stretch conserves the system width
      with shares proportional to [ticks * max(userStretch, 1)], and a
      "ragged" last system is still stretched.
    - [PageLayout.v], Module [PageLayout]: [Score::collectPage] (the
      system loop, a fixpoint over the systems handed out) and
      [layoutPage] (vertical stretch).  Theorems: progress and
      partition, page breaks end a page, systems after the first fit
      up to the first staff's [userDist], and the fit test leaves
      [userDist] out, so a system that fits only without it is still
      put on the page and ends below the bottom margin; gaps only grow and within [maxSystemDistance],
      and the gaps grow by at most (exactly, without caps) the rest
      height.
    - [Driver.v], Module [Driver]: [Score::doLayout].  The typeclass
      [Collector] with its laws [CollectorLaws] is the interface
      between the driver and a collecting step (take a non-empty prefix
      of a stream, leave the rest); the driver loop [run] is defined by
      well-founded recursion (Equations) and proved against the
      interface, and [collectSystem] and [collectPage] are its two
      instances.  Theorem: every measure is in exactly one system and
      every system on exactly one page, in order.
    - [MMRest.v], Module [MMRest]: multi-measure rests:
      [validMMRestMeasure] (a measure that may join a run, proved equal
      to a declarative specification over its segments and voices),
      [breakMultiMeasureRest] (what ends a run), the run detection of
      [Score::getNextMeasure] with its measure-number state, and the
      length [Score::createMMRest] writes.  Theorems: a run of at least
      [minEmptyMeasures] valid measures collapses into one rest covering
      exactly the run, a break starts a new run, the numbering after a
      collapsed run, and two defects of the code: the number of the
      rest's first measure gets the measure's [noOffset] twice, and a
      run of one measure is given the length of every later measure.
    - [MeasureTicks.v], Module [MeasureTicks]: the tick, time signature map and pause
      bookkeeping of [Score::getNextMeasure] (a box gets [lc.tick], a
      measure is moved there and advances it; the maps are reset on the
      first measure of a master score and an event is added where the
      length or the nominal time signature changes), the pauses, the
      staves' time signatures and the tempo changes of articulations
      with a time stretch, over a model of the tempo map (outside src/).
      Theorems: the ticks are the running sums of the measures'
      lengths, and the rebuilt map gives each measure an event with its
      length at its tick; a stretch divides the tempo at its segment and
      restores it at the element's last tick; Examples show stale events
      kept when the score starts with a frame and the restored tempo
      read from the cleared tempo map.
    - [ConnectTies.v], Module [ConnectTies]: [Score::connectTies] over an
      arena of notes, chords, ties, spanners and tremolos (stdpp
      [gmap]s from handles, so the aliasing of the code's pointers is
      that of the store).  The two loops that erase from the vector they
      iterate are one generic [erase_loop], by index with the end fixed
      at the start and fuel the initial length (the number of turns of
      the C++ loop), whose theory (Section [EraseLoop]) gives when it is
      defined and that it leaves no element it erases.  Theorems: the
      walk keeps the arena well formed ([wf]: every handle live and
      pointing back, a type invariant with an executable check
      [wf_check]); afterwards every walked note is clean (its tie
      connected unless [silent], no spanner without end, no glissando
      without start); the loop over [spannerFor] is undefined exactly
      when a spanner without end element is not the last; the tremolo
      step; Examples for a silent dangling tie, a tremolo before a rest
      and one across a bar line.
    - [SystemPasses.v], Module [SystemPasses]: the element layout passes
      of [collectSystem] (top beams, tempo texts, rehearsal marks, staff
      texts and dynamics, the staff shapes of the measures, the spanner
      segments of the system with the alignment of volta segments and
      their shapes, the context flags for the next system) and the
      final pass of [collectPage]
      (cross-staff and grace beams, ties, spanners, slurs, arpeggios,
      bar lines), each as the sequence of layout calls it makes.  It
      requires [TopBeam.v] and composes the two passes through
      [isTopBeam]/[notTopBeam]: a beam is laid out by exactly one of
      them, by its first chord-rest; the volta segments of a system get
      one height.
    - [SystemTrailer.v], Module [SystemTrailer]: the courtesy elements
      [collectSystem] gives the last measure of a system (lines
      3279-3386): courtesy time signatures per staff or the removal of
      the [TimeSigAnnounce] segment, courtesy key signatures per staff
      or their removal, the hiding of the clefs at the measure's end,
      the [hasSystemTrailer] flag and the repeated [computeMinWidth]
      call, with the undo commands in the order they are issued.  It
      requires [SystemHeader.v] for key signature events.  Theorems: the
      courtesy elements due are there and the others gone, the flag and
      the [computeMinWidth] call say exactly whether any is due, and a
      second run changes nothing and issues no command; an Example shows
      a stale courtesy time signature kept on a staff without one in the
      next measure.

    Inputs and services.  Glyph metrics, shapes and the widths other
    files compute are inputs: a record field or a section variable
    ([log], [Shape::minHorizontalDistance], [System::minDistance], the
    beam mode [Groups::endBeam] returns).  Every loop that walks a list
    is a structural recursion over it, so it terminates and needs no
    fuel; the driver's loops, whose recursion is on the rest of a
    stream, are well-founded on its length.  The one counting loop, the
    middle of the accidental zig-zag ([i] up and [n] down until they
    meet), gets [nAcc] rounds of fuel: it needs at most [(nAcc - 2) / 2],
    and [zigzag_schedule_spec] shows that every accidental is laid out,
    so the fuel never runs out.  The walks of [layoutChords3] along the
    [next] links of the accidentals get [nAcc] steps:
    [notes_pass_columns] shows that the lists the note loop builds end
    within that many; slotting an unmatched accidental into a column
    inserts a node that is in no column yet, so a column's list stays a
    path through distinct accidentals and the bound still holds.

    Not modelled: painting, file I/O and the undo stack itself (the
    change-log collaborator; [Divider.v] and [SystemTrailer.v] record
    the commands issued to it); glyph metrics (inputs: widths and boxes are given
    numbers); the style lookup (inputs); [Groups::endBeam] (the beam
    mode of each element is an input); [rebuildBspTree] (a spatial index
    for painting); the [qDebug] diagnostics; the element [layout()]
    calls of other classes (outside src/), whose results are inputs. *)

From Stdlib Require Import QArith Qminmax Lqa ZArith List Lia Sorted Permutation Bool.
From Stdlib Require Import Morphisms Setoid.
Import ListNotations.

Declare Scope layout_scope.
Delimit Scope layout_scope with layout.
Open Scope Q_scope.

(** ** Qt's [qMax], [qMin] and boolean comparisons on [qreal] *)

(** [a < b] as the C++ comparison computes it. *)
Definition qltb (a b : Q) : bool := negb (Qle_bool b a).
Definition qleb (a b : Q) : bool := Qle_bool a b.

Notation "a <?q b" := (qltb a b) (at level 70) : layout_scope.
Notation "a <=?q b" := (qleb a b) (at level 70) : layout_scope.
Open Scope layout_scope.

(** [qMax(a, b)] is [(a < b) ? b : a] in qglobal.h. *)
Definition qMax (a b : Q) : Q := if a <?q b then b else a.
(** [qMin(a, b)] is [(a < b) ? a : b]. *)
Definition qMin (a b : Q) : Q := if a <?q b then a else b.

(** Sum of a list of rationals. *)
Definition qsum (l : list Q) : Q := fold_right Qplus 0 l.

(** ** Reflection of the comparisons *)

Inductive qlt_spec (a b : Q) : bool -> Prop :=
| QltTrue : a < b -> qlt_spec a b true
| QltFalse : b <= a -> qlt_spec a b false.

Lemma qltb_spec a b : qlt_spec a b (a <?q b).
Proof.
  unfold qltb. destruct (Qle_bool b a) eqn:E; simpl.
  - apply QltFalse. now apply Qle_bool_iff.
  - apply QltTrue. apply Qnot_le_lt. intros H.
    apply Qle_bool_iff in H. congruence.
Qed.

Inductive qle_spec (a b : Q) : bool -> Prop :=
| QleTrue : a <= b -> qle_spec a b true
| QleFalse : b < a -> qle_spec a b false.

Lemma qleb_spec a b : qle_spec a b (a <=?q b).
Proof.
  unfold qleb. destruct (Qle_bool a b) eqn:E.
  - apply QleTrue. now apply Qle_bool_iff.
  - apply QleFalse. apply Qnot_le_lt. intros H.
    apply Qle_bool_iff in H. congruence.
Qed.

(** [qcase] splits on the first boolean comparison of the goal, [qlia]
    closes linear goals over [Q] after the splits. *)
Ltac qcase :=
  match goal with
  | |- context [?a <?q ?b] => destruct (qltb_spec a b)
  | |- context [?a <=?q ?b] => destruct (qleb_spec a b)
  | H : context [?a <?q ?b] |- _ => destruct (qltb_spec a b)
  | H : context [?a <=?q ?b] |- _ => destruct (qleb_spec a b)
  end.

Ltac qlia := unfold qMax, qMin in *; repeat qcase; simpl in *; lra.

Create HintDb layout.

(** [LayoutMode], shared by the system and page layout. *)
Inductive LayoutMode := PAGE | FLOAT | LINE | SYSTEM.

(** ** Lemmas on [qMax] and [qMin] *)

Lemma qMax_ge_l a b : a <= qMax a b.
Proof. qlia. Qed.

Lemma qMax_ge_r a b : b <= qMax a b.
Proof. qlia. Qed.

Lemma qMax_lub a b c : a <= c -> b <= c -> qMax a b <= c.
Proof. qlia. Qed.

Lemma qMin_le_l a b : qMin a b <= a.
Proof. qlia. Qed.

Lemma qMin_le_r a b : qMin a b <= b.
Proof. qlia. Qed.

Lemma qMin_glb a b c : c <= a -> c <= b -> c <= qMin a b.
Proof. qlia. Qed.

Lemma qMax_l a b : b <= a -> qMax a b == a.
Proof. qlia. Qed.

Lemma qMax_r a b : a <= b -> qMax a b == b.
Proof. qlia. Qed.

Lemma qMin_l a b : a <= b -> qMin a b == a.
Proof. qlia. Qed.

#[export] Hint Resolve qMax_ge_l qMax_ge_r qMax_lub qMin_le_l qMin_le_r qMin_glb : layout.

#[export] Instance qltb_Proper : Proper (Qeq ==> Qeq ==> eq) qltb.
Proof.
  intros a a' Ha b b' Hb.
  destruct (qltb_spec a b), (qltb_spec a' b'); auto; exfalso; lra.
Qed.

#[export] Instance qMax_Proper : Proper (Qeq ==> Qeq ==> Qeq) qMax.
Proof. intros a a' Ha b b' Hb. unfold qMax. rewrite Ha, Hb. now qcase. Qed.

#[export] Instance qMin_Proper : Proper (Qeq ==> Qeq ==> Qeq) qMin.
Proof. intros a a' Ha b b' Hb. unfold qMin. rewrite Ha, Hb. now qcase. Qed.

(** ** Sums *)

Lemma qsum_app l1 l2 : qsum (l1 ++ l2) == qsum l1 + qsum l2.
Proof. induction l1 as [|x l1 IH]; simpl; [lra | rewrite IH; lra]. Qed.

Lemma qsum_nonneg l : Forall (fun x => 0 <= x) l -> 0 <= qsum l.
Proof. induction 1; simpl; lra. Qed.

Lemma qsum_map_le {A} (f g : A -> Q) (l : list A) :
  (forall x, In x l -> f x <= g x) -> qsum (map f l) <= qsum (map g l).
Proof.
  induction l as [|x l IH]; simpl; intros H; [lra|].
  pose proof (H x (or_introl eq_refl)). pose proof (IH (fun y Hy => H y (or_intror Hy))). lra.
Qed.

Lemma qsum_map_eq {A} (f g : A -> Q) (l : list A) :
  (forall x, In x l -> f x == g x) -> qsum (map f l) == qsum (map g l).
Proof.
  induction l as [|x l IH]; simpl; intros H; [lra|].
  rewrite (H x (or_introl eq_refl)), (IH (fun y Hy => H y (or_intror Hy))). lra.
Qed.

Lemma qsum_Permutation l1 l2 : Permutation l1 l2 -> qsum l1 == qsum l2.
Proof. induction 1; simpl; lra. Qed.

(** ** Sorting models *)

(** [qSort(begin, end, [](a, b) { return key(a) > key(b); })]: the result
    is ordered by [key], greatest first.  [qSort] is not stable; the model
    places an element before the elements of equal key that follow it. *)
Fixpoint insert_desc {A} (key : A -> Z) (x : A) (l : list A) : list A :=
  match l with
  | [] => [x]
  | y :: l' => if (key y <=? key x)%Z then x :: l else y :: insert_desc key x l'
  end.

Definition sort_desc {A} (key : A -> Z) (l : list A) : list A :=
  fold_right (insert_desc key) [] l.

Definition desc_by {A} (key : A -> Z) (a b : A) : Prop := (key b <= key a)%Z.

Lemma insert_desc_perm {A} (key : A -> Z) x l : Permutation (insert_desc key x l) (x :: l).
Proof.
  induction l as [|y l IH]; simpl; [auto|].
  destruct (key y <=? key x)%Z; [auto|].
  rewrite IH. apply perm_swap.
Qed.

Lemma sort_desc_perm {A} (key : A -> Z) l : Permutation (sort_desc key l) l.
Proof.
  induction l as [|x l IH]; simpl; [auto|].
  rewrite insert_desc_perm. now apply perm_skip.
Qed.

Lemma insert_desc_sorted {A} (key : A -> Z) x l :
  Sorted (desc_by key) l -> Sorted (desc_by key) (insert_desc key x l).
Proof.
  unfold desc_by. induction 1 as [|y l Hs IH Hhd]; simpl; [auto|].
  destruct (Z.leb_spec (key y) (key x)).
  - constructor; [constructor; auto | constructor; lia].
  - constructor; [exact IH|].
    destruct l as [|z l]; simpl; [constructor; lia|].
    inversion Hhd; subst. destruct (key z <=? key x)%Z; constructor; lia.
Qed.

Lemma sort_desc_sorted {A} (key : A -> Z) l : Sorted (desc_by key) (sort_desc key l).
Proof. induction l; simpl; [constructor | now apply insert_desc_sorted]. Qed.

#[export] Hint Resolve sort_desc_sorted sort_desc_perm qsum_nonneg : layout.

(** ** Arrays written by index *)

(** [a[i] = x] on a C array of the list's length; out of range the model
    leaves the list unchanged (the code never writes out of range). *)
Fixpoint set_nth {A} (i : nat) (x : A) (l : list A) : list A :=
  match l, i with
  | [], _ => []
  | _ :: l', O => x :: l'
  | y :: l', S i' => y :: set_nth i' x l'
  end.

Lemma length_set_nth {A} i (x : A) l : length (set_nth i x l) = length l.
Proof. revert i; induction l; destruct i; simpl; auto. Qed.

Lemma nth_set_nth_eq {A} i (x d : A) l : (i < length l)%nat -> nth i (set_nth i x l) d = x.
Proof. revert i; induction l; destruct i; simpl; intros; try lia; auto. apply IHl; lia. Qed.

Lemma nth_set_nth_ne {A} i j (x d : A) l : i <> j -> nth j (set_nth i x l) d = nth j l d.
Proof. revert i j; induction l; destruct i, j; simpl; intros; auto; congruence. Qed.

Lemma qsum_set_nth i x l :
  (i < length l)%nat -> qsum (set_nth i x l) == qsum l - nth i l 0 + x.
Proof.
  revert i; induction l as [|y l IH]; destruct i; simpl; intros; try lia; [lra|].
  rewrite IH by lia. lra.
Qed.

Lemma Forall_removelast {A} (P : A -> Prop) l : Forall P l -> Forall P (removelast l).
Proof.
  induction l as [|a [|b l] IH]; intros H; simpl; auto.
  inversion H; subst. constructor; auto.
Qed.

Lemma removelast_map {A B} (f : A -> B) l : removelast (map f l) = map f (removelast l).
Proof. induction l as [|a [|b l] IH]; simpl; auto. simpl in IH. now rewrite IH. Qed.

Lemma Forall_tl_snoc {A} (P : A -> Prop) l x :
  Forall P (tl l) -> (l <> [] -> P x) -> Forall P (tl (l ++ [x])).
Proof.
  destruct l as [|a l]; simpl; [constructor|]. intros H Hx.
  apply Forall_app; split; [exact H | constructor; [apply Hx; discriminate | constructor]].
Qed.

Lemma Forall_snoc {A} (P : A -> Prop) l x : Forall P l -> P x -> Forall P (l ++ [x]).
Proof. intros H Hx. apply Forall_app; split; [exact H | constructor; [exact Hx | constructor]]. Qed.

Lemma qltb_false a b : (a <?q b) = false -> b <= a.
Proof. destruct (qltb_spec a b); [discriminate | auto]. Qed.

Lemma qltb_true a b : (a <?q b) = true -> a < b.
Proof. destruct (qltb_spec a b); [auto | discriminate]. Qed.

Lemma qsum_snoc l x : qsum (l ++ [x]) == qsum l + x.
Proof. rewrite qsum_app. simpl. lra. Qed.

Lemma qleb_false a b : (a <=?q b) = false -> b < a.
Proof. destruct (qleb_spec a b); [discriminate | auto]. Qed.

Lemma qleb_true a b : (a <=?q b) = true -> a <= b.
Proof. destruct (qleb_spec a b); [auto | discriminate]. Qed.

Lemma existsb_negb {A} (f : A -> bool) l : existsb (fun a => negb (f a)) l = negb (forallb f l).
Proof. induction l as [|a l IH]; simpl; [reflexivity|]. rewrite IH. destruct (f a); reflexivity. Qed.

Lemma qleb_lt a b : b < a -> (a <=?q b) = false.
Proof. destruct (qleb_spec a b); [lra | reflexivity]. Qed.

Lemma nth_set_nth {A} i j (x d : A) l :
  nth j (set_nth i x l) d = if Nat.eqb i j && Nat.ltb i (length l) then x else nth j l d.
Proof.
  revert i j; induction l as [|y l IH]; intros i j.
  - destruct i, j; simpl; rewrite ?andb_false_r; reflexivity.
  - destruct i as [|i], j as [|j]; simpl; try reflexivity. apply IH.
Qed.
