(* ===== verification/Accidentals.v ===== *)
(** * Accidental placement ([resolveAccidentals], [layoutAccidental],
      the zig-zag of [Score::layoutChords3])

    An accidental is an [AcEl] (layout.cpp 636-648): its vertical extent
    [top]/[bottom], its staff [line], its width and the notches of its
    glyph ([ascent], [descent], [rightClear], [leftClear]).  The fields
    the code reads through [me->note] (the accidental's [mag], its
    [bbox().x()], the staff's line count) are fields of the record.
    [resolveAccidentals] (655-716) moves the right edge [lx] of an
    accidental left of a neighbour, subsuming overlaps into the glyphs'
    notches where it can; [layoutAccidental] (722-769) starts from the
    column offset, clears ledger lines and the noteheads mirrored to the
    left, then both neighbours.  [layoutChords3] (1068-1098) lays the
    accidentals with no octave partner out in a zig-zag: the top one,
    the bottom one, then alternately the next highest and next lowest.
    The zig-zag is written once over the step it repeats, so that its
    schedule (which accidental, against which neighbours) and the real
    layout are the same loop.  The octave columns (lines 951-1063) and
    the rest of [layoutChords3] are in [Chords3.v]. *)

From Stdlib Require Import QArith Qabs Qminmax Lqa ZArith List Lia Bool Permutation.
From S2P Require Import Prelude.
Import ListNotations.
Open Scope Q_scope.
Open Scope layout_scope.

Module Accidentals.

Record AcEl := mkAcEl {
  x : Q;            (** actual x position relative to the origin *)
  top : Q;          (** top of the bounding box relative to the staff *)
  bottom : Q;
  line : Z;         (** line of the note *)
  width : Q;        (** [acc->width()] *)
  ascent : Q;       (** vertical strokes above the body *)
  descent : Q;      (** vertical strokes below the body *)
  rightClear : Q;   (** room right of the last stroke above the body *)
  leftClear : Q;    (** room left of the last stroke below the body *)
  mag : Q;          (** [me->note->accidental()->mag()] *)
  bbox_x : Q;       (** [acc->bbox().x()] *)
  staff_lines : Z   (** [me->note->staff()->lines()] *) }.

Definition set_x (a : AcEl) (v : Q) : AcEl :=
  mkAcEl v (top a) (bottom a) (line a) (width a) (ascent a) (descent a)
         (rightClear a) (leftClear a) (mag a) (bbox_x a) (staff_lines a).

(** A notehead mirrored to the left of the origin: its line and its
    segment-relative [ln->x() + ln->chord()->x()]. *)
Record LeftNote := mkLeftNote { ln_line : Z; ln_x : Q }.

(** [resolveAccidentals(left, right, lx, pd, sp)]: whether the two
    conflict, and the new [lx].  [left] is the accidental being placed
    and [right] an already placed neighbour, distinct objects, so
    [left == lower] holds exactly when the first branch chose [left] as
    the lower one. *)
Definition upper_lower (left right : AcEl) : AcEl * AcEl :=
  if Z.geb (line left) (line right) then (right, left) else (left, right).

Definition resolveAccidentals (left right : AcEl) (lx pd sp : Q) : bool * Q :=
  let left_lower := Z.geb (line left) (line right) in
  let '(upper, lower) := upper_lower left right in
  let gap := top lower - bottom upper in
  if (pd <=?q gap) || Z.leb 7 (line lower - line upper) then (false, lx)
  else
    let allowableOverlap := qMax (descent upper) (ascent lower) - pd in
    let overlapShift := pd * (141 # 100) in
    let real := (true, qMin lx (x right - pd)) in
    let even_more :=
      if left_lower && (- gap <=?q descent upper + ascent lower - pd) then
        let offset := qMin (rightClear left) (leftClear right) - overlapShift in
        if 0 <?q offset then (true, qMin lx (x right + offset)) else real
      else real in
    let significant :=
      if left_lower && (- gap <=?q allowableOverlap) then
        let offset := qMin (qMax (rightClear left) (leftClear right)) (width left) - overlapShift in
        (true, qMin lx (x right + offset))
      else even_more in
    if Qabs gap <=?q (33 # 100) * sp then
      if (- gap <=?q allowableOverlap) && (0 <?q qMin (descent upper) (ascent lower)) then
        let align := qMin (width left) (width right) in
        (true, qMin lx (x right + align - pd))
      else significant
    else significant.

(** The loop of [layoutAccidental] over the left notes, with its
    [break] once a note lies wholly below the accidental. *)
Fixpoint clear_left (me : AcEl) (pnd sp : Q) (lns : list LeftNote) (lx : Q) : Q :=
  match lns with
  | [] => lx
  | ln :: rest =>
      let lnTop := inject_Z (ln_line ln - 1) * (1 # 2) * sp in
      let lnBottom := lnTop + sp in
      if (top me - lnBottom <=?q pnd) && (lnTop - bottom me <=?q pnd) then
        let lx' := if lnBottom - top me <=?q ascent me - pnd
                   then qMin lx (ln_x ln + rightClear me) else qMin lx (ln_x ln) in
        clear_left me pnd sp rest lx'
      else if bottom me <?q lnTop then lx
      else clear_left me pnd sp rest lx
  end.

(** [layoutAccidental(me, above, below, colOffset, leftNotes, pnd, pd, sp)]:
    the accidental with its [x] set (the function also returns it). *)
Definition layoutAccidental (me : AcEl) (above below : option AcEl) (colOffset : Q)
    (leftNotes : list LeftNote) (pnd pd sp : Q) : AcEl :=
  let pnd := pnd * mag me in
  let pd := pd * mag me in
  let lx := if Z.leb (line me) (-2) || Z.leb (staff_lines me * 2) (line me)
            then qMin colOffset (- (2 # 10) * sp) else colOffset in
  let lx := clear_left me pnd sp leftNotes lx in
  let '(conflictAbove, lx) :=
    match above with Some a => resolveAccidentals me a lx pd sp | None => (false, lx) end in
  let '(conflictBelow, lx) :=
    match below with Some b => resolveAccidentals me b lx pd sp | None => (false, lx) end in
  if conflictAbove || conflictBelow then set_x me (lx - width me - bbox_x me)
  else if negb (Qeq_bool colOffset 0) then set_x me (lx - pd - width me - bbox_x me)
  else set_x me (lx - pnd - width me - bbox_x me).

(** ** The zig-zag of [layoutChords3]

    Positions are indices into [umi] (the unmatched accidentals, top to
    bottom); [lay p above below] is one call of [layoutAccidental] with
    [&aclist[umi[p]]] and the neighbours at positions [above], [below]. *)
Section ZigZag.

Context {St : Type}.
Local Open Scope nat_scope.
Variable lay : nat -> option nat -> option nat -> St -> St.

(** [for (int i = 1; i < n; ++i, --n)], its state [me], [above],
    [below]; the loop runs at most [fuel] times. *)
Fixpoint zz_mid (fuel i n me : nat) (above below : option nat) (s : St) : St :=
  match fuel with
  | O => s
  | S fuel' =>
      if Nat.ltb i n then
        let below := Some me in
        let me := i in
        let s := lay me above below s in
        if Nat.eqb i (n - 1) then s
        else
          let above := Some me in
          let me := n - 1 in
          let s := lay me above below s in
          zz_mid fuel' (S i) (n - 1) me above below s
      else s
  end.

(** [if (nAcc) { ... }]: the top accidental, the bottom one, the middle. *)
Definition zigzag (nAcc : nat) (s : St) : St :=
  if Nat.eqb nAcc 0 then s
  else
    let s := lay 0 None None s in
    let n := nAcc - 1 in
    if Nat.ltb 0 n then
      let s := lay n (Some 0) None s in
      if Nat.ltb 1 n then zz_mid nAcc 1 n n (Some 0) None s else s
    else s.

End ZigZag.

(** The schedule: the calls the zig-zag makes, in order. *)
Definition zz_trace (p : nat) (a b : option nat) (tr : list (nat * option nat * option nat)) :=
  tr ++ [(p, a, b)].

Definition zigzag_schedule (nAcc : nat) : list (nat * option nat * option nat) :=
  zigzag zz_trace nAcc [].

(** The real step: lay out [aclist[umi[p]]] against its neighbours'
    current positions and store it back. *)
Definition lay_acc (umi : list nat) (colOffset : Q) (leftNotes : list LeftNote) (pnd pd sp : Q)
    (p : nat) (above below : option nat) (acl : list AcEl) : list AcEl :=
  let get q := nth (nth q umi O) acl (mkAcEl 0 0 0 0 0 0 0 0 0 0 0 0) in
  set_nth (nth p umi O)
    (layoutAccidental (get p) (option_map get above) (option_map get below) colOffset leftNotes pnd pd sp)
    acl.

(** ** What the zig-zag promises

    [nearest_above placed p a]: [a] is the closest position above [p]
    (smaller) among those already laid out, [None] if there is none;
    [nearest_below] likewise below.  [zz_good placed steps]: each step
    is checked against its nearest laid-out neighbours, [placed] being
    the positions laid out before the first of [steps]. *)
Definition nearest_above (placed : list nat) (p : nat) (a : option nat) : Prop :=
  match a with
  | None => forall q, In q placed -> (p <= q)%nat
  | Some q => In q placed /\ (q < p)%nat /\ forall r, In r placed -> (r < p)%nat -> (r <= q)%nat
  end.

Definition nearest_below (placed : list nat) (p : nat) (b : option nat) : Prop :=
  match b with
  | None => forall q, In q placed -> (q <= p)%nat
  | Some q => In q placed /\ (p < q)%nat /\ forall r, In r placed -> (p < r)%nat -> (q <= r)%nat
  end.

Fixpoint zz_good (placed : list nat) (steps : list (nat * option nat * option nat)) : Prop :=
  match steps with
  | [] => True
  | (p, a, b) :: rest => nearest_above placed p a /\ nearest_below placed p b /\ zz_good (placed ++ [p]) rest
  end.

Definition zz_pos (st : nat * option nat * option nat) : nat := let '(p, _, _) := st in p.

(** ** Lemmas *)

Lemma resolve_le l r lx pd sp : snd (resolveAccidentals l r lx pd sp) <= lx.
Proof.
  unfold resolveAccidentals. destruct (upper_lower l r) as [u lo]. cbv zeta.
  repeat match goal with |- context [if ?b then _ else _] => destruct b end;
    simpl; auto using qMin_le_l, Qle_refl.
Qed.

Lemma resolve_conflict l r lx pd sp :
  let '(upper, lower) := upper_lower l r in
  fst (resolveAccidentals l r lx pd sp)
  = negb ((pd <=?q top lower - bottom upper) || Z.leb 7 (line lower - line upper)).
Proof.
  unfold resolveAccidentals. destruct (upper_lower l r) as [u lo]. cbv zeta.
  destruct (_ || _); [reflexivity|].
  repeat match goal with |- context [if ?b then _ else _] => destruct b end; reflexivity.
Qed.

Lemma resolve_no_conflict l r lx pd sp :
  fst (resolveAccidentals l r lx pd sp) = false -> snd (resolveAccidentals l r lx pd sp) = lx.
Proof.
  unfold resolveAccidentals. destruct (upper_lower l r) as [u lo]. cbv zeta.
  destruct (_ || _); [reflexivity|].
  repeat match goal with |- context [if ?b then _ else _] => destruct b end; discriminate.
Qed.

Lemma clear_left_le me pnd sp lns lx : clear_left me pnd sp lns lx <= lx.
Proof.
  revert lx; induction lns as [|ln lns IH]; intros lx; simpl; [apply Qle_refl|].
  repeat match goal with |- context [if ?b then _ else _] => destruct b end;
    try apply Qle_refl; try apply IH; eapply Qle_trans; eauto using qMin_le_l.
Qed.

(** The two neighbour tests of [layoutAccidental] only move [lx] left. *)
Lemma resolve_opt_le me n lx pd sp :
  snd (match n with Some a => resolveAccidentals me a lx pd sp | None => (false, lx) end) <= lx.
Proof. destruct n; [apply resolve_le | apply Qle_refl]. Qed.

(** *** The zig-zag loop *)

Section ZigZagProofs.
Local Open Scope nat_scope.

Lemma zz_mid_trace fuel i n me a b tr :
  zz_mid zz_trace fuel i n me a b tr = tr ++ zz_mid zz_trace fuel i n me a b [].
Proof.
  revert i n me a b tr; induction fuel as [|fuel IH]; intros i n me a b tr; simpl;
    [rewrite app_nil_r; reflexivity|].
  destruct (Nat.ltb i n); [|rewrite app_nil_r; reflexivity].
  destruct (Nat.eqb i (n - 1)); unfold zz_trace; [reflexivity|].
  rewrite (IH _ _ _ _ _ ((tr ++ _) ++ _)), (IH _ _ _ _ _ (([] ++ _) ++ _)).
  simpl. rewrite <- !app_assoc. reflexivity.
Qed.

Lemma zz_mid_fold {St} (lay : nat -> option nat -> option nat -> St -> St) fuel i n me a b s :
  zz_mid lay fuel i n me a b s
  = fold_left (fun s '(p, a, b) => lay p a b s) (zz_mid zz_trace fuel i n me a b []) s.
Proof.
  revert i n me a b s; induction fuel as [|fuel IH]; intros i n me a b s; simpl; [reflexivity|].
  destruct (Nat.ltb i n); [|reflexivity].
  destruct (Nat.eqb i (n - 1)); [reflexivity|].
  rewrite zz_mid_trace, fold_left_app, IH. reflexivity.
Qed.

Lemma zz_good_app placed s1 s2 :
  zz_good placed (s1 ++ s2) <-> zz_good placed s1 /\ zz_good (placed ++ map zz_pos s1) s2.
Proof.
  revert placed; induction s1 as [|[[p a] b] s1 IH]; intros placed; simpl.
  - rewrite app_nil_r. tauto.
  - rewrite IH, <- app_assoc. tauto.
Qed.

(** One pass of the loop: with [1..i-1] and [n..N-1] laid out (and
    [0]), [me = n] and [above = i - 1], the loop lays out exactly
    [i..n-1], each against its nearest laid-out neighbours. *)
Lemma seq_ends i k : seq i (S (S k)) = i :: seq (S i) k ++ [i + S k].
Proof. rewrite seq_S. reflexivity. Qed.

Lemma zz_mid_spec N fuel i n (b : option nat) tr :
  (n - i <= fuel)%nat -> (1 <= i <= n)%nat -> (n < N)%nat ->
  (forall q, In q (map zz_pos tr) <-> (q < i \/ n <= q < N)%nat) ->
  let ext := zz_mid zz_trace fuel i n n (Some (i - 1)) b [] in
  Permutation (map zz_pos ext) (seq i (n - i)) /\ zz_good (map zz_pos tr) ext.
Proof.
  revert i n b tr; induction fuel as [|fuel IH]; intros i n b tr Hf Hi HN Hp; simpl.
  - replace (n - i)%nat with O by lia. split; constructor.
  - destruct (Nat.ltb_spec i n) as [Hlt|Hge]; [|replace (n - i)%nat with O by lia; split; constructor].
    assert (Hab : nearest_above (map zz_pos tr) i (Some (i - 1))
                  /\ nearest_below (map zz_pos tr) i (Some n)).
    { split; (split; [apply Hp; lia | split; [lia | intros r Hr; apply Hp in Hr; lia]]). }
    destruct (Nat.eqb_spec i (n - 1)) as [Heq|Hne]; unfold zz_trace; simpl.
    + replace (n - i)%nat with 1%nat by lia. simpl. destruct Hab as [Ha Hb]. split; [reflexivity | exact (conj Ha (conj Hb I))].
    + rewrite zz_mid_trace. simpl.
      set (tr' := tr ++ [(i, Some (i - 1), Some n); (n - 1, Some i, Some n)]%nat).
      destruct (IH (S i) (n - 1)%nat (Some n) tr') as [IHp IHg]; [lia | lia | lia | |].
      { intros q. subst tr'. rewrite map_app, in_app_iff, Hp. simpl. split; intros; lia. }
      replace (S i - 1)%nat with i in IHp, IHg by lia.
      split.
      * assert (Hs : seq i (n - i) = i :: seq (S i) (n - 1 - S i) ++ [n - 1]).
        { replace (n - i) with (S (S (n - 1 - S i))) by lia. rewrite seq_ends. do 3 f_equal. lia. }
        rewrite Hs. constructor.
        transitivity ((n - 1) :: seq (S i) (n - 1 - S i)); [constructor; exact IHp | apply Permutation_cons_append].
      * destruct Hab as [Ha Hb]. refine (conj Ha (conj Hb (conj _ (conj _ _)))).
        -- split; [apply in_or_app; right; left; reflexivity|]. split; [lia|].
           intros r Hr Hr'. apply in_app_or in Hr. destruct Hr as [Hr|[<-|[]]]; [apply Hp in Hr|]; lia.
        -- split; [apply in_or_app; left; apply Hp; lia|]. split; [lia|].
           intros r Hr Hr'. apply in_app_or in Hr. destruct Hr as [Hr|[<-|[]]]; [apply Hp in Hr|]; lia.
        -- subst tr'. rewrite map_app in IHg. cbn [map zz_pos] in IHg. rewrite <- app_assoc. exact IHg.
Qed.

End ZigZagProofs.

(** The zig-zag of [layoutChords3] is one [layoutAccidental] per
    step of its schedule, in order; the schedule lays out every
    unmatched accidental exactly once, and each one against the nearest
    accidentals already laid out above and below it (none where there
    is none), whatever the number of accidentals. *)
Theorem zigzag_schedule_spec {St} (lay : nat -> option nat -> option nat -> St -> St) nAcc s :
  zigzag lay nAcc s = fold_left (fun s '(p, a, b) => lay p a b s) (zigzag_schedule nAcc) s
  /\ Permutation (map zz_pos (zigzag_schedule nAcc)) (seq 0 nAcc)
  /\ zz_good [] (zigzag_schedule nAcc).
Proof.
  unfold zigzag_schedule. destruct nAcc as [|[|[|k]]].
  - split; [reflexivity | split; constructor].
  - split; [reflexivity | split; [reflexivity|]]. cbn. repeat split; intros ? [].
  - split; [reflexivity | split; [reflexivity|]]. cbn.
    repeat split; try (intros ? []); auto; lia.
  - unfold zigzag. cbn -[zz_mid seq]. rewrite zz_mid_fold, (zz_mid_trace _ _ _ _ _ _ [_; _]).
    destruct (zz_mid_spec (S (S (S k))) (S (S (S k))) 1 (S (S k)) None
                [(0, None, None); (S (S k), Some 0, None)]%nat) as [P G]; [lia | lia | lia | |].
    { intros q. cbn. split; intros; lia. }
    change (1 - 1)%nat with 0%nat in P, G. change (S (S k) - 1)%nat with (S k) in P.
    split; [rewrite fold_left_app; reflexivity|]. split.
    + rewrite map_app. cbn [map zz_pos app]. rewrite seq_ends.
      constructor. transitivity (S (S k) :: seq 1 (S k)); [constructor; exact P|].
      apply Permutation_cons_append.
    + apply zz_good_app. split; [|exact G].
      cbn. repeat split; try (intros ? []); auto; lia.
Qed.

(** [resolveAccidentals] reports no conflict exactly when the
    lower accidental's top clears the upper one's bottom by [pd] or the
    two are an octave or more apart; then [lx] is unchanged, and in
    every case [lx] only moves left. *)
Theorem resolveAccidentals_spec l r lx pd sp :
  let '(upper, lower) := upper_lower l r in
  let '(c, lx') := resolveAccidentals l r lx pd sp in
  (c = false <-> pd <= top lower - bottom upper \/ (7 <= line lower - line upper)%Z)
  /\ (c = false -> lx' = lx) /\ lx' <= lx.
Proof.
  pose proof (resolve_conflict l r lx pd sp) as Hc.
  pose proof (resolve_no_conflict l r lx pd sp) as Hn.
  pose proof (resolve_le l r lx pd sp) as Hl.
  destruct (upper_lower l r) as [u lo].
  destruct (resolveAccidentals l r lx pd sp) as [c lx']. simpl in *. subst c.
  split; [|split; assumption].
  destruct (qleb_spec pd (top lo - bottom u)), (Z.leb_spec 7 (line lo - line u)); simpl;
    split; intros Hf; auto; try discriminate; destruct Hf; lia || lra.
Qed.

(** When two accidentals conflict and neither the one glyph's
    notch nor the two notches together can take the overlap, the
    accidental is placed a full [pd] left of its neighbour. *)
Theorem resolveAccidentals_real_conflict l r lx pd sp :
  let '(upper, lower) := upper_lower l r in
  top lower - bottom upper < pd -> (line lower - line upper < 7)%Z ->
  qMax (descent upper) (ascent lower) - pd < - (top lower - bottom upper) ->
  descent upper + ascent lower - pd < - (top lower - bottom upper) ->
  resolveAccidentals l r lx pd sp = (true, qMin lx (x r - pd)).
Proof.
  unfold resolveAccidentals. destruct (upper_lower l r) as [u lo]. cbv zeta.
  intros H1 H2 H3 H4.
  rewrite (qleb_lt _ _ H1), (proj2 (Z.leb_gt _ _) H2), (qleb_lt _ _ H3),
          (qleb_lt _ _ H4).
  destruct (_ <=?q _), (Z.geb _ _); reflexivity.
Qed.

(** [layoutAccidental] puts the accidental's right edge at or left
    of the column offset, at or left of [-0.2 sp] on ledger lines, and
    with no neighbour to clear a full [pd] (in a later column) or [pnd]
    (in the first) left of it. *)
Theorem layoutAccidental_right_edge me above below colOffset lns pnd pd sp :
  0 <= pd * mag me -> 0 <= pnd * mag me ->
  let me' := layoutAccidental me above below colOffset lns pnd pd sp in
  x me' + width me + bbox_x me <= colOffset
  /\ ((line me <= -2 \/ staff_lines me * 2 <= line me)%Z ->
      x me' + width me + bbox_x me <= - (2 # 10) * sp)
  /\ (above = None -> below = None ->
      x me' + width me + bbox_x me
      <= colOffset - (if Qeq_bool colOffset 0 then pnd else pd) * mag me).
Proof.
  intros Hpd Hpnd. unfold layoutAccidental.
  set (lx0 := if _ || _ then _ else _).
  assert (H0 : lx0 <= colOffset /\ ((line me <= -2 \/ staff_lines me * 2 <= line me)%Z ->
                                    lx0 <= - (2 # 10) * sp)).
  { subst lx0. destruct (Z.leb_spec (line me) (-2)), (Z.leb_spec (staff_lines me * 2) (line me));
      simpl; (split; [auto using qMin_le_l, Qle_refl | intros [|]; auto using qMin_le_r; lia]). }
  pose proof (clear_left_le me (pnd * mag me) sp lns lx0) as H1.
  set (lx1 := clear_left _ _ _ _ _) in *.
  pose proof (resolve_opt_le me above lx1 (pd * mag me) sp) as H2.
  destruct (match above with Some a => _ | None => _ end) as [ca lxa] eqn:Ea. simpl in H2.
  pose proof (resolve_opt_le me below lxa (pd * mag me) sp) as H3.
  destruct (match below with Some b => _ | None => _ end) as [cb lxb] eqn:Eb. simpl in H3.
  destruct H0 as [H0 H0'].
  split; [|split].
  - destruct (ca || cb), (negb (Qeq_bool colOffset 0)); simpl; lra.
  - intros HL. specialize (H0' HL). destruct (ca || cb), (negb (Qeq_bool colOffset 0)); simpl; lra.
  - intros -> ->. injection Ea as <- <-. injection Eb as <- <-. simpl.
    destruct (Qeq_bool colOffset 0); simpl; lra.
Qed.

End Accidentals.

Import Accidentals.

(** A flat on line 4 whose top overlaps the bottom of a flat on line 2
    by a whole space; neither glyph has notches. *)
Definition wit_lower : AcEl := mkAcEl 0 0 (3 # 2) 4 1 0 0 0 0 1 0 5.
Definition wit_upper : AcEl := mkAcEl (-1) (-1 # 2) 1 2 1 0 0 0 0 1 0 5.
(** An accidental on a ledger line above the staff. *)
Definition wit_ledger : AcEl := mkAcEl 0 (-3) (-1 # 2) (-3) 1 0 0 0 0 1 0 5.

Lemma resolveAccidentals_real_conflict_witness :
  resolveAccidentals wit_lower wit_upper 0 (1 # 4) 1 = (true, qMin 0 (x wit_upper - (1 # 4))).
Proof.
  refine (resolveAccidentals_real_conflict wit_lower wit_upper 0 (1 # 4) 1 _ _ _ _);
    vm_compute; reflexivity.
Defined.

Lemma layoutAccidental_right_edge_witness :
  let me' := layoutAccidental wit_ledger None None 0 [] (1 # 4) (1 # 4) 1 in
  x me' + width wit_ledger + bbox_x wit_ledger <= 0
  /\ ((line wit_ledger <= -2 \/ staff_lines wit_ledger * 2 <= line wit_ledger)%Z ->
      x me' + width wit_ledger + bbox_x wit_ledger <= - (2 # 10) * 1)
  /\ (@None AcEl = None -> @None AcEl = None ->
      x me' + width wit_ledger + bbox_x wit_ledger
      <= 0 - (if Qeq_bool 0 0 then 1 # 4 else 1 # 4) * mag wit_ledger).
Proof.
  refine (layoutAccidental_right_edge wit_ledger None None 0 [] (1 # 4) (1 # 4) 1 _ _);
    vm_compute; discriminate.
Defined.
