(* ===== verification/Chords3.v ===== *)
(** * The final chord pass ([Score::layoutChords3])

    [layoutChords3] (layout.cpp 775-1111) receives the notes of one
    staff of a segment sorted by line, bottom note first ([notes[0]] has
    the largest line), and walks them from the top note down
    ([for (i = nNotes-1; i >= 0; --i)]).  For each note it builds the
    [AcEl] of its accidental and threads it into the list of its pitch
    class ([columnBottom], [next]), places the notehead left or right of
    the stem ([rxpos], [rypos]), records the noteheads mirrored to the
    left of the origin ([leftNotes]) and the leftmost head ([lx]), and
    resolves conflicts between augmentation dots (a dot moves up or down
    out of a neighbour's way, and may move the neighbour's dot: the loop
    writes another note's state).  The accidentals are then laid out: in
    octave columns where the chord spans an octave, else in the zig-zag
    of [Accidentals.v]; finally each accidental's position is stored
    relative to its note.

    What the loop reads of a note, its chord and its accidental glyph is
    a record; the glyph's bounding boxes and cut-outs come from the font
    (inputs).  A note's [x()] after [adjustReadPos] is its [rxpos] (no
    user offset). *)

From Stdlib Require Import QArith Qminmax Lqa ZArith List Lia Bool Permutation.
From S2P Require Import Prelude Accidentals.
Import ListNotations.
Open Scope Q_scope.
Open Scope layout_scope.

Module Chords3.

Import Accidentals.

(** [Direction] of a dot: [AUTO], [UP], [DOWN]. *)
Inductive Direction := AUTO | UP | DOWN.

Definition Direction_eqb (a b : Direction) : bool :=
  match a, b with AUTO, AUTO | UP, UP | DOWN, DOWN => true | _, _ => false end.

(** What the loop reads of a chord. *)
Record Chord3 := mkChord3 {
  up : bool;
  stemPosX : Q;             (** [chord->stemPosX()] *)
  stemLineWidth : option Q; (** [chord->stem()->lineWidth()], [None] without a stem *)
  headWhole : bool;         (** [durationType().headType() == HEAD_WHOLE] *)
  chord_mag : Q;
  chord_x : Q;              (** [chord->x()] (= [chord->pos().x()]) *)
  dots : Z }.

(** An accidental's glyph: [bbox()], [symBbox(symbol())] corners and the
    cut-outs ([None] for a null point). *)
Record Glyph := mkGlyph {
  bbox_top : Q; bbox_bottom : Q; bbox_left : Q; acc_width : Q; acc_mag : Q;
  neX : Q; neY : Q; swX : Q; swY : Q;
  cutNE : option (Q * Q); cutSW : option (Q * Q) }.

(** What the loop reads of a note. *)
Record Note3 := mkNote3 {
  nline : Z;
  accidental : option Glyph;
  fixed : bool;
  headWidth : Q;
  mirror : bool;
  userDotPosition : Direction;
  visible : bool;
  dotsHidden : bool;
  voice : Z;
  chord : Chord3 }.

(** The staff and style values. *)
Record Env3 := mkEnv3 {
  sp : Q;                  (** [staff->spatium()] *)
  logicalLineDistance : Q;
  stepOffset : Z;
  staffLines : Z;
  stemWidth : Q;           (** [styleP(StyleIdx::stemWidth)] *)
  accidentalDistance : Q;  (** [pd] *)
  accidentalNoteDistance : Q (** [pnd] *) }.

(** ** One note *)

(** [overlapMirror]: the stem's line width, for a stemless whole note
    the style's stem width scaled by the chord, else 0. *)
Definition overlapMirror (e : Env3) (c : Chord3) : Q :=
  match stemLineWidth c with
  | Some w => w
  | None => if headWhole c then stemWidth e * chord_mag c else 0
  end.

(** The notehead's [x] relative to its chord. *)
Definition note_x (e : Env3) (n : Note3) : Q :=
  let c := chord n in
  let hw := headWidth n in
  if mirror n then
    if up c then stemPosX c - overlapMirror e c else stemPosX c - hw + overlapMirror e c
  else if up c then stemPosX c - hw else 0.

(** [note->rypos() = (line + stepOffset) * stepDistance]. *)
Definition note_y (e : Env3) (n : Note3) : Q :=
  inject_Z (nline n + stepOffset e) * (sp e * logicalLineDistance e * (5 # 10)).

(** The [AcEl] of an accidental (lines 804-833). *)
Definition mkAcEl_of (e : Env3) (line : Z) (g : Glyph) : AcEl :=
  let y := inject_Z line * (5 # 10) * sp e in
  let '(asc, rc) := match cutNE g with
                    | Some (cx, cy) => (cy - neY g, neX g - cx)
                    | None => (0, 0) end in
  let '(desc, lc) := match cutSW g with
                     | Some (cx, cy) => (swY g - cy, cx - swX g)
                     | None => (0, 0) end in
  mkAcEl 0 (y + bbox_top g) (y + bbox_bottom g) line (acc_width g) asc desc rc lc
         (acc_mag g) (bbox_left g) (staffLines e).

(** [int pitchClass = (line + 700) % 7] (C++ [%] truncates: [Z.rem]). *)
Definition pitchClass (line : Z) : Z := Z.rem (line + 700) 7.

(** ** Dot conflicts (lines 893-925)

    [dot_resolve]: the dot direction of note [i] and the direction the
    code forces on the note above ([notes[i+1]]), if any. *)
Definition dot_neighbour (notes : list Note3) (j : option nat) : option Note3 :=
  match j with
  | Some j => match nth_error notes j with
              | Some m => if negb (visible m) || dotsHidden m then None else Some m
              | None => None end
  | None => None
  end.

Definition dot_resolve (notes : list Note3) (i : nat) (n : Note3) : Direction * option Direction :=
  let nNotes := length notes in
  let line := nline n in
  let above := dot_neighbour notes (if Nat.ltb i (nNotes - 1)%nat then Some (S i) else None) in
  let intervalAbove := match above with Some a => (line - nline a)%Z | None => 1000%Z end in
  let below := dot_neighbour notes (match i with O => None | S i' => Some i' end) in
  let intervalBelow := match below with Some b => (nline b - line)%Z | None => 1000%Z end in
  let above_dots := match above with Some a => negb (Z.eqb (dots (chord a)) 0) | None => false end in
  let above_voice := match above with Some a => voice a | None => 0%Z end in
  if Z.eqb (Z.land line 1) 0 then
    if Z.eqb intervalAbove 1 && negb (Z.eqb intervalBelow 1) then (DOWN, None)
    else if Z.eqb intervalBelow 1 && negb (Z.eqb intervalAbove 1) then (UP, None)
    else if Z.eqb intervalAbove 0 && above_dots then
      if Z.eqb (Z.land above_voice 1) (Z.land (voice n) 1) then (DOWN, Some UP)
      else (AUTO, None)
    else (AUTO, None)
  else
    if Z.eqb intervalAbove 0 && above_dots then
      if Z.eqb (Z.land (voice n) 1) 0 then (UP, None)
      else if Z.eqb (Z.land above_voice 1) 0 then (AUTO, Some UP)
      else (DOWN, None)
    else (AUTO, None).

(** ** The loop over the notes *)

(** The loop's state: the accidentals with their notes and [next]
    links, [columnBottom], [leftNotes], [lx], the dot columns, and per
    note its [rxpos], [rypos] and last [setDotY] ([None] before it). *)
Record L3State := mkL3 {
  aclist : list AcEl;
  acnote : list nat;
  nexts : list Z;
  columnBottom : list Z;
  leftNotes : list LeftNote;
  lx : Q;
  upDotPosX : Q;
  downDotPosX : Q;
  nx : list Q;
  ny : list Q;
  dotY : list (option Direction) }.

Definition l3_init (nNotes : nat) : L3State :=
  mkL3 [] [] [] (repeat (-1)%Z 7) [] 10000 0 0 (repeat 0 nNotes) (repeat 0 nNotes) (repeat None nNotes).

(** The accidental part of the body (lines 802-834). *)
Definition l3_acc (e : Env3) (i : nat) (n : Note3) (st : L3State) : L3State :=
  match accidental n with
  | Some g =>
      if fixed n then st
      else
        let pc := Z.to_nat (pitchClass (nline n)) in
        let nAcc := length (aclist st) in
        mkL3 (aclist st ++ [mkAcEl_of e (nline n) g]) (acnote st ++ [i])
             (nexts st ++ [nth pc (columnBottom st) (-1)%Z])
             (set_nth pc (Z.of_nat nAcc) (columnBottom st))
             (leftNotes st) (lx st) (upDotPosX st) (downDotPosX st) (nx st) (ny st) (dotY st)
  | None => st
  end.

(** The rest of the body (lines 836-927). *)
Definition l3_note (e : Env3) (notes : list Note3) (i : nat) (n : Note3) (st : L3State) : L3State :=
  let c := chord n in
  let x := note_x e n in
  let sx := x + chord_x c in
  let '(lns, lx') :=
    if mirror n && negb (up c) && (sx <?q 0) then (leftNotes st ++ [mkLeftNote (nline n) sx], lx st)
    else if sx <?q lx st then (leftNotes st, sx) else (leftNotes st, lx st) in
  let xx := x + headWidth n + chord_x c in
  let has_dots := negb (Z.eqb (dots c) 0) in
  let '(ud, dd) :=
    if has_dots then
      if up c then (qMax (upDotPosX st) xx, downDotPosX st) else (upDotPosX st, qMax (downDotPosX st) xx)
    else (upDotPosX st, downDotPosX st) in
  let '(dir, above_dir) :=
    if has_dots && Direction_eqb (userDotPosition n) AUTO && Nat.ltb 1 (length notes)
       && visible n && negb (dotsHidden n)
    then dot_resolve notes i n else (userDotPosition n, None) in
  let dY := match above_dir with Some d => set_nth (S i) (Some d) (dotY st) | None => dotY st end in
  mkL3 (aclist st) (acnote st) (nexts st) (columnBottom st) lns lx' ud dd
       (set_nth i x (nx st)) (set_nth i (note_y e n) (ny st)) (set_nth i (Some dir) dY).

Definition l3_step (e : Env3) (notes : list Note3) (st : L3State) (i : nat) : L3State :=
  match nth_error notes i with
  | Some n => l3_note e notes i n (l3_acc e i n st)
  | None => st
  end.

(** [for (int i = nNotes-1; i >= 0; --i)]. *)
Definition notes_pass (e : Env3) (notes : list Note3) : L3State :=
  fold_left (l3_step e notes) (rev (seq 0 (length notes))) (l3_init (length notes)).

(** ** Laying the accidentals out (lines 937-1110) *)

Definition acc0 : AcEl := mkAcEl 0 0 0 0 0 0 0 0 0 0 0 0.
Definition acc_at (acl : list AcEl) (j : nat) : AcEl := nth j acl acc0.

(** [for (j = start; j != -1; j = aclist[j].next)]: the indices visited,
    in at most [fuel] steps. *)
Fixpoint chain (fuel : nat) (nexts : list Z) (j : Z) : list nat :=
  match fuel with
  | O => []
  | S f => if Z.eqb j (-1) then [] else Z.to_nat j :: chain f nexts (nth (Z.to_nat j) nexts (-1)%Z)
  end.

(** [columnTop[pc]]: the last accidental of the column (lines 959-964). *)
Definition column_tops (fuel : nat) (nexts colBottom : list Z) : list Z :=
  map (fun b => if Z.eqb b (-1) then (-1)%Z
                else match rev (chain fuel nexts b) with k :: _ => Z.of_nat k | [] => (-1)%Z end)
      colBottom.

(** Whether the column of pitch class [pc] spans more than one line. *)
Definition matched (acl : list AcEl) (colTop colBottom : list Z) (pc : nat) : bool :=
  negb (Z.eqb (line (acc_at acl (Z.to_nat (nth pc colTop (-1)%Z))))
              (line (acc_at acl (Z.to_nat (nth pc colBottom (-1)%Z))))).

Definition classify (acl : list AcEl) (colTop colBottom : list Z) (j : nat)
    (cu : list nat * list nat) : list nat * list nat :=
  let pc := Z.to_nat (pitchClass (line (acc_at acl j))) in
  if matched acl colTop colBottom pc then
    (if existsb (Nat.eqb pc) (fst cu) then fst cu else fst cu ++ [pc], snd cu)
  else (fst cu, snd cu ++ [j]).

(** [for (int i = 0; i <= n; ++i, --n)] (lines 970-990): the column
    order and the unmatched accidentals, top and bottom alternately. *)
Fixpoint column_order (acl : list AcEl) (colTop colBottom : list Z) (fuel i n : nat)
    (cu : list nat * list nat) : list nat * list nat :=
  match fuel with
  | O => cu
  | S f =>
      if Nat.leb i n then
        let cu := classify acl colTop colBottom i cu in
        if Nat.eqb i n then cu
        else
          let cu := classify acl colTop colBottom n cu in
          match n with O => cu | S n' => column_order acl colTop colBottom f (S i) n' cu end
      else cu
  end.

(** The slot of [me] in a column: the first accidental above it
    ([line < me->line]) and the last one visited below it. *)
Fixpoint find_slot (acl : list AcEl) (me : AcEl) (ks : list nat) (below : Z) : Z * Z :=
  match ks with
  | [] => ((-1)%Z, below)
  | k :: ks' =>
      if Z.ltb (line (acc_at acl k)) (line me) then (Z.of_nat k, below)
      else find_slot acl me ks' (Z.of_nat k)
  end.

(** The state of the slotting loop: [next] links, [columnTop],
    [columnBottom] and [umi]. *)
Record Slots := mkSlots { s_nexts : list Z; s_top : list Z; s_bottom : list Z; s_umi : list nat }.

(** Lines 1003-1036 for one column: [None] on a conflict. *)
Definition try_column (fuel : nat) (pd : Q) (acl : list AcEl) (u : nat) (st : Slots) (pc : nat)
    : option Slots :=
  let me := acc_at acl u in
  let '(above, below) := find_slot acl me (chain fuel (s_nexts st) (nth pc (s_bottom st) (-1)%Z)) (-1)%Z in
  let myPd := pd * mag me in
  let conflict :=
    if negb (Z.eqb above (-1)) && (top me - bottom (acc_at acl (Z.to_nat above)) <?q myPd) then true
    else if negb (Z.eqb below (-1)) && (top (acc_at acl (Z.to_nat below)) - bottom me <?q myPd) then true
    else false in
  if conflict then None
  else
    let nx := set_nth u above (s_nexts st) in
    let tp := if Z.eqb above (-1) then set_nth pc (Z.of_nat u) (s_top st) else s_top st in
    let '(nx, bt) := if negb (Z.eqb below (-1)) then (set_nth (Z.to_nat below) (Z.of_nat u) nx, s_bottom st)
                     else (nx, set_nth pc (Z.of_nat u) (s_bottom st)) in
    Some (mkSlots nx tp bt (s_umi st)).

(** [for (j = 0; j < nColumns; ++j)] with its [break] on the first fit;
    no fit appends [u] to [umi]. *)
Fixpoint slot_into (fuel : nat) (pd : Q) (acl : list AcEl) (u : nat) (cols : list nat) (st : Slots) : Slots :=
  match cols with
  | [] => mkSlots (s_nexts st) (s_top st) (s_bottom st) (s_umi st ++ [u])
  | pc :: cols' =>
      match try_column fuel pd acl u st pc with
      | Some st' => st'
      | None => slot_into fuel pd acl u cols' st
      end
  end.

(** [qSort(umi)]: ascending (the indices are distinct). *)
Definition sort_umi (umi : list nat) : list nat := sort_desc (fun k => (- Z.of_nat k)%Z) umi.

(** One column laid out bottom up (lines 1045-1051): each accidental
    against the one below it; [minX] accumulates over all columns. *)
Fixpoint lay_column (colOffset : Q) (lns : list LeftNote) (pnd pd sp : Q)
    (ks : list nat) (below : option AcEl) (acl : list AcEl) (minX : Q) : list AcEl * Q :=
  match ks with
  | [] => (acl, minX)
  | j :: ks' =>
      let a := layoutAccidental (acc_at acl j) None below colOffset lns pnd pd sp in
      lay_column colOffset lns pnd pd sp ks' (Some a) (set_nth j a acl) (qMin minX (x a))
  end.

(** Align within the column (lines 1053-1059): every accidental whose
    next is not on its line moves to [minX]. *)
Definition align_column (nexts : list Z) (ks : list nat) (minX : Q) (acl : list AcEl) : list AcEl :=
  fold_left (fun acl j =>
    let nxt := nth j nexts (-1)%Z in
    if negb (Z.eqb nxt (-1)) && Z.eqb (line (acc_at acl j)) (line (acc_at acl (Z.to_nat nxt))) then acl
    else set_nth j (set_x (acc_at acl j) minX) acl) ks acl.

Fixpoint lay_columns (fuel : nat) (nexts colBottom : list Z) (lns : list LeftNote) (pnd pd sp : Q)
    (cols : list nat) (acl : list AcEl) (colOffset minX : Q) : list AcEl * Q :=
  match cols with
  | [] => (acl, colOffset)
  | pc :: cols' =>
      let ks := chain fuel nexts (nth pc colBottom (-1)%Z) in
      let '(acl, minX) := lay_column colOffset lns pnd pd sp ks None acl minX in
      let acl := align_column nexts ks minX acl in
      lay_columns fuel nexts colBottom lns pnd pd sp cols' acl minX minX
  end.

(** The accidental layout after the note loop: the octave columns when
    two or more accidentals span an octave, then the zig-zag of the rest
    from the column offset.  Returns the accidentals with their [x]. *)
Definition layout_accidentals (e : Env3) (st : L3State) : list AcEl :=
  let acl := aclist st in
  let nAcc := length acl in
  let pd := accidentalDistance e in
  let pnd := accidentalNoteDistance e in
  let fuel := nAcc in
  if Nat.eqb nAcc 0 then acl
  else
    let '(umi, acl, colOffset) :=
      if Nat.leb 2 nAcc && Z.leb 7 (line (acc_at acl (nAcc - 1)) - line (acc_at acl 0)) then
        let colTop := column_tops fuel (nexts st) (columnBottom st) in
        let '(column, unmatched) :=
          column_order acl colTop (columnBottom st) fuel 0 (nAcc - 1) ([], []) in
        let sl := fold_left (fun sl u => slot_into fuel pd acl u column sl) unmatched
                            (mkSlots (nexts st) colTop (columnBottom st) []) in
        let umi := if Nat.ltb 1 (length (s_umi sl)) then sort_umi (s_umi sl) else s_umi sl in
        let '(acl, colOffset) :=
          lay_columns fuel (s_nexts sl) (s_bottom sl) (leftNotes st) pnd pd (sp e) column acl 0 0 in
        (umi, acl, colOffset)
      else (seq 0 nAcc, acl, 0) in
    zigzag (lay_acc umi colOffset (leftNotes st) pnd pd (sp e)) (length umi) acl.

(** Lines 1111-1119: each accidental's x relative to its note
    ([e.x + lx - (note->x() + note->chord()->x())]), [note->x()] being
    the x the note loop gave the [i]-th note. *)
Definition accidental_pos (notes : list Note3) (st : L3State) (acl : list AcEl) : list Q :=
  map (fun '(a, i) =>
         let n := nth i notes (mkNote3 0 None false 0 false AUTO false false 0
                                        (mkChord3 false 0 None false 0 0 0)) in
         x a + lx st - (nth i (nx st) 0 + chord_x (chord n)))
      (combine acl (acnote st)).

(** [Score::layoutChords3]: the note loop's state, the segment's dot
    column [qMax(upDotPosX, downDotPosX)] and the accidentals' x. *)
Definition layoutChords3 (e : Env3) (notes : list Note3) : L3State * Q * list Q :=
  let st := notes_pass e notes in
  let acl := layout_accidentals e st in
  (st, qMax (upDotPosX st) (downDotPosX st), accidental_pos notes st acl).

(** ** The pitch-class lists built by the note loop *)

(** The pitch class of accidental [j], as an index of [columnBottom]. *)
Definition pc_of (acl : list AcEl) (j : nat) : nat := Z.to_nat (pitchClass (line (acc_at acl j))).

(** The last accidental of pitch class [pc] before index [k], or -1. *)
Fixpoint last_pc (acl : list AcEl) (pc k : nat) : Z :=
  match k with
  | O => (-1)%Z
  | S k' => if Nat.eqb (pc_of acl k') pc then Z.of_nat k' else last_pc acl pc k'
  end.

(** What the loop keeps: [next] of each accidental is the previous one
    of its pitch class, [columnBottom[pc]] the last one. *)
Definition lists_ok (acl : list AcEl) (nexts colBottom : list Z) : Prop :=
  length nexts = length acl /\ length colBottom = 7%nat /\
  (forall j, (j < length acl)%nat -> nth j nexts (-1)%Z = last_pc acl (pc_of acl j) j) /\
  (forall pc, (pc < 7)%nat -> nth pc colBottom (-1)%Z = last_pc acl pc (length acl)).

Lemma pc_of_lt acl j : (pc_of acl j < 7)%nat.
Proof.
  unfold pc_of, pitchClass. pose proof (Z.rem_bound_abs (line (acc_at acl j) + 700) 7 ltac:(lia)). lia.
Qed.

Lemma acc_at_app_l acl a j : (j < length acl)%nat -> acc_at (acl ++ [a]) j = acc_at acl j.
Proof. intros. unfold acc_at. rewrite app_nth1 by lia. reflexivity. Qed.

Lemma pc_of_app_l acl a j : (j < length acl)%nat -> pc_of (acl ++ [a]) j = pc_of acl j.
Proof. intros. unfold pc_of. rewrite acc_at_app_l by lia. reflexivity. Qed.

Lemma line_mkAcEl_of e l g : line (mkAcEl_of e l g) = l.
Proof. unfold mkAcEl_of. destruct (cutNE g) as [[]|], (cutSW g) as [[]|]; reflexivity. Qed.

Lemma pc_of_last acl a : pc_of (acl ++ [a]) (length acl) = Z.to_nat (pitchClass (line a)).
Proof. unfold pc_of, acc_at. rewrite nth_middle. reflexivity. Qed.

Lemma last_pc_app acl a pc k : (k <= length acl)%nat -> last_pc (acl ++ [a]) pc k = last_pc acl pc k.
Proof.
  induction k as [|k IH]; intros Hk; simpl; [reflexivity|].
  rewrite pc_of_app_l by lia. rewrite IH by lia. reflexivity.
Qed.

Lemma lists_ok_init : lists_ok [] [] (repeat (-1)%Z 7).
Proof.
  repeat split; [intros j Hj; simpl in Hj; lia|].
  intros pc Hpc. simpl. do 7 (destruct pc as [|pc]; [reflexivity|]). lia.
Qed.

Lemma lists_ok_snoc acl a nexts colBottom :
  lists_ok acl nexts colBottom ->
  let pc := pc_of (acl ++ [a]) (length acl) in
  lists_ok (acl ++ [a]) (nexts ++ [nth pc colBottom (-1)%Z])
           (set_nth pc (Z.of_nat (length acl)) colBottom).
Proof.
  intros (Hn & Hc & Hj & Hb) pc.
  assert (Hpc : (pc < 7)%nat) by apply pc_of_lt.
  unfold lists_ok. rewrite !length_app. simpl.
  split; [lia|]. split; [rewrite length_set_nth; exact Hc|].
  split.
  - intros j Hjl. destruct (Nat.lt_ge_cases j (length acl)) as [Hlt|Hge].
    + rewrite app_nth1 by lia. rewrite pc_of_app_l, last_pc_app by lia. apply Hj, Hlt.
    + assert (j = length acl) as -> by lia. rewrite app_nth2 by lia. rewrite Hn, Nat.sub_diag. simpl.
      rewrite Hb by exact Hpc. rewrite last_pc_app by lia. reflexivity.
  - intros pc' Hpc'. rewrite Nat.add_1_r. simpl. rewrite last_pc_app by lia.
    destruct (Nat.eqb_spec pc pc') as [<-|Hne].
    + rewrite Nat.eqb_refl. apply nth_set_nth_eq. lia.
    + replace (Nat.eqb (pc_of (acl ++ [a]) (length acl)) pc') with false
        by (symmetry; apply Nat.eqb_neq; exact Hne).
      rewrite nth_set_nth_ne by exact Hne. apply Hb, Hpc'.
Qed.

(** The note part of the body leaves the accidental lists alone. *)
Lemma l3_note_lists e notes i n st :
  aclist (l3_note e notes i n st) = aclist st /\ nexts (l3_note e notes i n st) = nexts st
  /\ columnBottom (l3_note e notes i n st) = columnBottom st.
Proof.
  unfold l3_note.
  repeat match goal with |- context [match ?p with pair _ _ => _ end] => destruct p end.
  repeat split.
Qed.

Lemma l3_step_lists e notes st i :
  lists_ok (aclist st) (nexts st) (columnBottom st) ->
  lists_ok (aclist (l3_step e notes st i)) (nexts (l3_step e notes st i)) (columnBottom (l3_step e notes st i)).
Proof.
  unfold l3_step. destruct (nth_error notes i) as [n|]; [|auto].
  destruct (l3_note_lists e notes i n (l3_acc e i n st)) as (-> & -> & ->).
  unfold l3_acc. destruct (accidental n) as [g|]; [|auto]. destruct (fixed n); [auto|].
  cbn [aclist nexts columnBottom]. intros H.
  pose proof (lists_ok_snoc _ (mkAcEl_of e (nline n) g) _ _ H) as H'. cbv zeta in H'.
  rewrite pc_of_last, line_mkAcEl_of in H'. exact H'.
Qed.

Lemma notes_pass_lists e notes :
  let st := notes_pass e notes in lists_ok (aclist st) (nexts st) (columnBottom st).
Proof.
  unfold notes_pass. generalize (rev (seq 0 (length notes))).
  assert (H0 : lists_ok (aclist (l3_init (length notes))) (nexts (l3_init (length notes)))
                        (columnBottom (l3_init (length notes)))) by exact lists_ok_init.
  revert H0. generalize (l3_init (length notes)). intros st Hst l. revert st Hst.
  induction l as [|i l IH]; intros st Hst; simpl; [exact Hst|]. apply IH, l3_step_lists, Hst.
Qed.

(** Walking from [last_pc pc k] lists the accidentals of [pc] before [k],
    bottom up, within [k] steps. *)
Lemma chain_last_pc acl nexts colBottom pc : lists_ok acl nexts colBottom ->
  forall k fuel, (k <= length acl)%nat -> (k <= fuel)%nat ->
  chain fuel nexts (last_pc acl pc k) = rev (filter (fun j => Nat.eqb (pc_of acl j) pc) (seq 0 k)).
Proof.
  intros (Hn & _ & Hj & _). induction k as [|k IH]; intros fuel Hk Hf.
  - destruct fuel; reflexivity.
  - rewrite seq_S, filter_app. simpl. destruct (Nat.eqb_spec (pc_of acl k) pc) as [Heq|Hne].
    + destruct fuel as [|fuel]; [lia|]. simpl. rewrite Nat2Z.id.
      replace (Z.eqb (Z.of_nat k) (-1)) with false by (symmetry; apply Z.eqb_neq; lia).
      rewrite rev_app_distr. simpl. f_equal.
      rewrite Hj by lia. rewrite Heq. apply IH; lia.
    + rewrite app_nil_r. apply IH; lia.
Qed.

(** C27. After the note loop, walking a pitch class's list from
    [columnBottom[pc]] along the [next] links, within the [nAcc] steps
    the model allows, visits exactly the accidentals of that pitch
    class, from the bottom one up: the lists the octave columns are
    built from are complete, ordered and end in -1. *)
Theorem notes_pass_columns e notes pc : (pc < 7)%nat ->
  let st := notes_pass e notes in
  chain (length (aclist st)) (nexts st) (nth pc (columnBottom st) (-1)%Z)
  = rev (filter (fun j => Nat.eqb (pc_of (aclist st) j) pc) (seq 0 (length (aclist st)))).
Proof.
  intros Hpc st. pose proof (notes_pass_lists e notes) as H. fold st in H.
  pose proof H as (_ & _ & _ & Hb). rewrite Hb by exact Hpc.
  apply (chain_last_pc _ _ _ pc H); lia.
Qed.

(** Dot conflicts: a dotted note on a staff line with a visible
    dotted-or-not neighbour one step above it and none one step below
    puts its dot in the space below (the space above is the upper
    note's), and leaves the upper note's dot alone. *)
Theorem dot_resolve_second_above notes i n a :
  Z.land (nline n) 1 = 0%Z -> nth_error notes (S i) = Some a ->
  visible a = true -> dotsHidden a = false -> nline a = (nline n - 1)%Z ->
  (forall b, dot_neighbour notes (match i with O => None | S i' => Some i' end) = Some b ->
             (nline b - nline n <> 1)%Z) ->
  dot_resolve notes i n = (DOWN, None).
Proof.
  intros Hl Ha Hv Hd Hline Hb. unfold dot_resolve.
  assert (Hlt : Nat.ltb i (length notes - 1) = true).
  { apply Nat.ltb_lt. assert (S i < length notes)%nat by (apply nth_error_Some; congruence). lia. }
  rewrite Hlt. cbn [dot_neighbour]. rewrite Ha, Hv, Hd. cbn [negb orb].
  rewrite Hl, Hline. replace (nline n - (nline n - 1))%Z with 1%Z by lia. cbn [Z.eqb Pos.eqb andb].
  destruct (dot_neighbour notes _) as [b|] eqn:Eb.
  - specialize (Hb b eq_refl). replace (Z.eqb (nline b - nline n) 1) with false
      by (symmetry; apply Z.eqb_neq; exact Hb). reflexivity.
  - reflexivity.
Qed.

End Chords3.

Import Chords3.

(** A chord of four sharps on lines 0, 3, 5 and 7 (lines 0 and 7 an
    octave apart) and a note on line 4 below a note on line 3. *)
Definition wit_env : Env3 := mkEnv3 1 1 0 5 (1 # 10) (1 # 4) (1 # 4).
Definition wit_sharp : Glyph :=
  mkGlyph (-3 # 2) (3 # 2) 0 1 1 1 (-3 # 2) 0 (3 # 2) (Some (1 # 2, -1)) (Some (1 # 2, 1)).
Definition wit_chord : Chord3 := mkChord3 true (13 # 10) (Some (1 # 10)) false 1 0 1.
Definition wit_note (l : Z) : Note3 := mkNote3 l (Some wit_sharp) false (13 # 10) false AUTO true false 0 wit_chord.
Definition wit_notes : list Note3 := [wit_note 7; wit_note 5; wit_note 3; wit_note 0].

Lemma notes_pass_columns_witness :
  chain (length (aclist (notes_pass wit_env wit_notes))) (nexts (notes_pass wit_env wit_notes))
        (nth 0 (columnBottom (notes_pass wit_env wit_notes)) (-1)%Z)
  = rev (filter (fun j => Nat.eqb (pc_of (aclist (notes_pass wit_env wit_notes)) j) 0)
                (seq 0 (length (aclist (notes_pass wit_env wit_notes))))).
Proof. exact (notes_pass_columns wit_env wit_notes 0 ltac:(lia)). Defined.

Lemma dot_resolve_second_above_witness :
  dot_resolve [wit_note 4; wit_note 3] 0 (wit_note 4) = (DOWN, None).
Proof.
  apply (dot_resolve_second_above [wit_note 4; wit_note 3] 0 (wit_note 4) (wit_note 3));
    try reflexivity. intros b Hb. discriminate Hb.
Defined.
