(* ===== verification/NoteEvent.v ===== *)
(** * Playback note events ([src/libmscore/noteevent.cpp])

    A [NoteEvent] is a pitch offset, an on-time and a length (in 1/1000
    of the note).  [NoteEvent::read] (lines 22-44) walks the children of
    an [<Event>] element: [noteeventPitch], [ontime] and [len] set a
    property through [setProperty], anything else goes to
    [XmlReader::unknown] (reported and skipped).  [NoteEvent::write]
    (lines 50-62) writes the [<Event>] element with the three properties
    [P_EVENT_PITCH], [P_ONTIME], [P_LEN] under their property names.
    [operator==] (lines 75-78) compares the three fields.

    [propertyName] (property.cpp), [NoteEvent::getProperty] and
    [NoteEvent::setProperty] (noteevent.h) are outside src/: they are
    section variables.  The element's text is taken as already parsed
    by [Ms::getProperty] into an integer. *)

From Stdlib Require Import ZArith String List Bool.
Import ListNotations.
Open Scope Z_scope.

Module NoteEvent.

Record NoteEvent := mkNoteEvent { pitch : Z; ontime : Z; len : Z }.

(** [NoteEvent::operator==]. *)
Definition eqb (self e : NoteEvent) : bool :=
  Z.eqb (pitch e) (pitch self) && Z.eqb (ontime e) (ontime self) && Z.eqb (len e) (len self).

(** [NoteEventList], a [QList<NoteEvent>]; its constructor makes an
    empty list. *)
Definition NoteEventList := list NoteEvent.
Definition NoteEventList_new : NoteEventList := [].

(** The property identifiers the file names. *)
Inductive P_ID := P_PITCH | P_EVENT_PITCH | P_ONTIME | P_LEN.

(** An XML element as the writer emits it and the reader sees it. *)
Inductive XmlItem := Stag (tag : string) | Tag (tag : string) (value : Z) | Etag.

Section IO.

Variable propertyName : P_ID -> string.
Variable getProperty : P_ID -> NoteEvent -> Z.
Variable setProperty : P_ID -> Z -> NoteEvent -> NoteEvent.

(** One child element of [<Event>]: the event after it, or the tag
    handed to [e.unknown()]. *)
Definition read_one (tag : string) (v : Z) (ev : NoteEvent) : NoteEvent + string :=
  if String.eqb tag "noteeventPitch" then inl (setProperty P_PITCH v ev)
  else if String.eqb tag "ontime" then inl (setProperty P_ONTIME v ev)
  else if String.eqb tag "len" then inl (setProperty P_LEN v ev)
  else inr tag.

(** [while (e.readNextStartElement())]: the event and the unknown tags,
    in order. *)
Fixpoint read (children : list (string * Z)) (ev : NoteEvent) : NoteEvent * list string :=
  match children with
  | [] => (ev, [])
  | (tag, v) :: rest =>
      match read_one tag v ev with
      | inl ev' => read rest ev'
      | inr t => let '(ev', us) := read rest ev in (ev', t :: us)
      end
  end.

(** [NoteEvent::write]. *)
Definition write (ev : NoteEvent) : list XmlItem :=
  [Stag "Event";
   Tag (propertyName P_EVENT_PITCH) (getProperty P_EVENT_PITCH ev);
   Tag (propertyName P_ONTIME) (getProperty P_ONTIME ev);
   Tag (propertyName P_LEN) (getProperty P_LEN ev);
   Etag].

(** The children of the written [<Event>] element. *)
Fixpoint children (xs : list XmlItem) : list (string * Z) :=
  match xs with
  | Tag t v :: rest => (t, v) :: children rest
  | _ :: rest => children rest
  | [] => []
  end.

End IO.

(** ** [operator==] *)

Lemma eqb_spec a b : reflect (a = b) (eqb a b).
Proof.
  destruct a as [p o l], b as [p' o' l']. unfold eqb; simpl.
  destruct (Z.eqb_spec p' p), (Z.eqb_spec o' o), (Z.eqb_spec l' l); simpl; constructor;
    subst; congruence.
Qed.

(** ** Writing then reading an event *)

Section RoundTrip.

Variable propertyName : P_ID -> string.
Variable getProperty : P_ID -> NoteEvent -> Z.
Variable setProperty : P_ID -> Z -> NoteEvent -> NoteEvent.

(** The tags [write] emits are the ones [read] recognises. *)
Hypothesis name_pitch : propertyName P_EVENT_PITCH = "noteeventPitch"%string.
Hypothesis name_ontime : propertyName P_ONTIME = "ontime"%string.
Hypothesis name_len : propertyName P_LEN = "len"%string.
(** [getProperty] reads the three fields. *)
Hypothesis get_pitch : forall ev, getProperty P_EVENT_PITCH ev = pitch ev.
Hypothesis get_ontime : forall ev, getProperty P_ONTIME ev = ontime ev.
Hypothesis get_len : forall ev, getProperty P_LEN ev = len ev.
(** [setProperty] writes the on-time and the length. *)
Hypothesis set_ontime : forall v ev, setProperty P_ONTIME v ev = mkNoteEvent (pitch ev) v (len ev).
Hypothesis set_len : forall v ev, setProperty P_LEN v ev = mkNoteEvent (pitch ev) (ontime ev) v.

Lemma read_written ev ev0 :
  read setProperty (children (write propertyName getProperty ev)) ev0
  = (setProperty P_LEN (len ev) (setProperty P_ONTIME (ontime ev)
       (setProperty P_PITCH (pitch ev) ev0)), []).
Proof.
  unfold write. simpl. rewrite name_pitch, name_ontime, name_len, get_pitch, get_ontime, get_len.
  reflexivity.
Qed.

(** C28. Round trip of [write] and [read]: when [setProperty(P_PITCH)]
    stores the pitch that [write] emitted as [P_EVENT_PITCH], reading
    what [write] wrote gives back the event, whatever event the reader
    starts from, and reports no unknown tag. *)
Theorem read_write ev ev0 :
  (forall v e, setProperty P_PITCH v e = mkNoteEvent v (ontime e) (len e)) ->
  read setProperty (children (write propertyName getProperty ev)) ev0 = (ev, []).
Proof.
  intros Hp. rewrite read_written, Hp, set_ontime, set_len. destruct ev; reflexivity.
Qed.

(** When [setProperty] ignores [P_PITCH] (the writer's id is
    [P_EVENT_PITCH]), the pitch read back is the reader's initial one. *)
Lemma read_write_pitch_lost ev ev0 :
  (forall v e, setProperty P_PITCH v e = e) ->
  pitch (fst (read setProperty (children (write propertyName getProperty ev)) ev0)) = pitch ev0.
Proof. intros Hp. rewrite read_written, Hp, set_ontime, set_len. reflexivity. Qed.

End RoundTrip.

End NoteEvent.

Import NoteEvent.

(** Property services that store the pitch on [P_PITCH]. *)
Definition wit_name (p : P_ID) : string :=
  match p with
  | P_PITCH | P_EVENT_PITCH => "noteeventPitch" | P_ONTIME => "ontime" | P_LEN => "len"
  end.
Definition wit_get (p : P_ID) (ev : NoteEvent) : Z :=
  match p with P_PITCH | P_EVENT_PITCH => pitch ev | P_ONTIME => ontime ev | P_LEN => len ev end.
Definition wit_set (p : P_ID) (v : Z) (ev : NoteEvent) : NoteEvent :=
  match p with
  | P_PITCH | P_EVENT_PITCH => mkNoteEvent v (ontime ev) (len ev)
  | P_ONTIME => mkNoteEvent (pitch ev) v (len ev)
  | P_LEN => mkNoteEvent (pitch ev) (ontime ev) v
  end.

Lemma read_write_witness :
  read wit_set (children (write wit_name wit_get (mkNoteEvent 7 0 1000))) (mkNoteEvent 0 0 0)
  = (mkNoteEvent 7 0 1000, []).
Proof.
  apply (read_write wit_name wit_get wit_set); try reflexivity; intros; reflexivity.
Defined.
