(* ===== verification/MinWidth.v ===== *)
(** * The minimum width of a measure's segments ([Score::computeMinWidth])

    [computeMinWidth(s, isFirstMeasureInSystem)] (layout.cpp 1954-2043)
    places the segments of a measure from [s] on, left to right: the
    first one after its left margin, each next one at least
    [minHorizontalDistance] to the right of the current one (the system
    header gap when it is the first chord-rest segment of the first
    measure of a system).  Before moving on it looks back over the
    earlier segments for one that would collide with the next segment,
    and on the first collision spreads the extra room over the
    chord-rest segments in between (and the current gap).  It sets every
    segment's [x] and width and returns the measure's width.

    Segments are a list addressed by position; their [x] and width are
    two arrays written by index.  The shape queries
    ([Segment::minHorizontalDistance], [Segment::minLeft] with a given
    left shape, [minRight]) are inputs: a section variable and record
    fields. *)

From Stdlib Require Import QArith Qminmax Lqa ZArith List Lia Bool.
From S2P Require Import Prelude.
Import ListNotations.
Open Scope Q_scope.
Open Scope layout_scope.

Module MinWidth.

Inductive SegType := SChordRest | SClef | SKeySig | STimeSig | SEndBarLine | SOther.

(** The left shape [ls]: empty (the first segment is a chord-rest
    segment), the system's left margin, or a simulated bar line. *)
Inductive LeftShape := LsEmpty | LsMargin | LsBarLine.

Record Seg := mkSeg {
  stype : SegType;
  minLeft : Q;                    (** [s->minLeft()] *)
  minLeftWith : LeftShape -> Q;   (** [s->minLeft(ls)] *)
  extraLeadingSpace : Q;          (** [s->extraLeadingSpace().val()] *)
  minRight : Q }.

Record MWStyle := mkMWStyle {
  spatium : Q; barNoteDistance : Q; clefLeftMargin : Q; keysigLeftMargin : Q; timesigLeftMargin : Q }.

Definition is_cr (s : Seg) : bool := match stype s with SChordRest => true | _ => false end.

Section ComputeMinWidth.

Variable st : MWStyle.
Variable segs : list Seg.
(** [segs[a]->minHorizontalDistance(segs[b], systemHeaderGap)]. *)
Variable mhd : nat -> nat -> bool -> Q.

Definition seg0 : Seg := mkSeg SOther 0 (fun _ => 0) 0 0.
Definition seg (i : nat) : Seg := nth i segs seg0.

(** The left shape and the first segment's [x] (lines 1958-1978). *)
Definition left_shape (first : bool) : LeftShape :=
  if is_cr (seg 0) then LsEmpty else if first then LsMargin else LsBarLine.

Definition first_x (first : bool) : Q :=
  let s := seg 0 in
  let x :=
    if is_cr s then minLeft s + barNoteDistance st
    else
      let x := minLeftWith s (left_shape first) in
      match stype s with
      | SClef => x + clefLeftMargin st
      | SKeySig => qMax x (keysigLeftMargin st)
      | STimeSig => qMax x (timesigLeftMargin st)
      | _ => x
      end in
  x + extraLeadingSpace s * spatium st.

(** The look-back for the gap after segment [i] of width [w]: the first
    earlier segment [ps] (going left) that the next segment would come
    closer to than [minHorizontalDistance], with the count [n] of the
    gap itself and the chord-rest segments from [ps] to [i - 1], and the
    distance [ww] needed.  For [i = 0] the check is against the left
    shape (lines 1996-2004). *)
Fixpoint search (i ps n : nat) (w : Q) (xs : list Q) : option (nat * nat * Q) :=
  match ps with
  | O => None
  | S p =>
      let n := if is_cr (seg p) then S n else n in
      let ww := mhd p (S i) false - (nth i xs 0 - nth p xs 0) in
      if w <?q ww then Some (p, n, ww) else search i p n w xs
  end.

Definition look_back (first : bool) (i : nat) (w : Q) (xs : list Q) : option (nat * nat * Q) :=
  match i with
  | O =>
      let ww := minLeftWith (seg 1) (left_shape first) - nth 0 xs 0 in
      if w <?q ww then Some (O, 1%nat, ww) else None
  | _ => search i i 1 w xs
  end.

(** [for (Segment* s = ps; s != ss;)] (lines 2013-2023): the chord-rest
    segments from [j] on get [d] more, and the positions after [j] are
    recomputed from the widths; [count] segments. *)
Fixpoint distribute (count j : nat) (d xx : Q) (xs ws : list Q) : Q * list Q * list Q :=
  match count with
  | O => (xx, xs, ws)
  | S c =>
      let ww := nth j ws 0 in
      let ww := if is_cr (seg j) then ww + d else ww in
      let ws := if is_cr (seg j) then set_nth j ww ws else ws in
      let xx := xx + ww in
      distribute c (S j) d xx (set_nth (S j) xx xs) ws
  end.

(** On the first collision found, [d = (ww - w) / n] more for the gap
    and for each chord-rest segment from [ps] on (lines 2005-2027). *)
Definition fix_overlap (first : bool) (i : nat) (w x : Q) (xs ws : list Q) : Q * Q * list Q * list Q :=
  match look_back first i w xs with
  | Some (ps, n, ww) =>
      let d := (ww - w) / inject_Z (Z.of_nat n) in
      let '(xx, xs, ws) := distribute (i - ps) ps d (nth ps xs 0) xs ws in
      (w + d, xx, xs, ws)
  | None => (w, x, xs, ws)
  end.

(** The loop [for (Segment* ss = s; ss;)] from segment [i], with [k]
    segments left, the running [x] and [isSystemHeader]. *)
Fixpoint mw_loop (first : bool) (k i : nat) (x : Q) (hdr : bool) (xs ws : list Q) : Q * list Q * list Q :=
  match k with
  | O => (x, xs, ws)
  | S k' =>
      let xs := set_nth i x xs in
      if Nat.ltb (S i) (length segs) then
        let '(w, hdr) :=
          if hdr && is_cr (seg (S i)) then (mhd i (S i) true, false) else (mhd i (S i) false, hdr) in
        let '(w, x, xs, ws) := fix_overlap first i w x xs ws in
        mw_loop first k' (S i) (x + w) hdr xs (set_nth i w ws)
      else
        let w := match stype (seg i) with SEndBarLine => 0 | _ => minRight (seg i) end in
        (x + w, xs, set_nth i w ws)
  end.

(** [Score::computeMinWidth(s, isFirstMeasureInSystem)]: the width it
    returns and every segment's [x] and width. *)
Definition computeMinWidth (first : bool) : Q * list Q * list Q :=
  let n := length segs in
  mw_loop first n 0 (first_x first) first (repeat 0 n) (repeat 0 n).

End ComputeMinWidth.

(** ** The positions follow the widths *)

Section Proofs.

Variable st : MWStyle.
Variable segs : list Seg.
Variable mhd : nat -> nat -> bool -> Q.
Let N := length segs.

(** Positions [0 .. i] are each the previous one plus its width. *)
Definition consistent (xs ws : list Q) (i : nat) : Prop :=
  forall j, (S j <= i)%nat -> nth (S j) xs 0 == nth j xs 0 + nth j ws 0.

Lemma distribute_spec d : 0 <= d -> forall count j xx xs ws,
  (j + count < length xs)%nat -> length ws = length xs -> xx == nth j xs 0 ->
  let '(xx', xs', ws') := distribute segs count j d xx xs ws in
  length xs' = length xs /\ length ws' = length ws
  /\ (forall m, (m <= j \/ j + count < m)%nat -> nth m xs' 0 = nth m xs 0)
  /\ (forall m, (m < j \/ j + count <= m)%nat -> nth m ws' 0 = nth m ws 0)
  /\ (forall m, nth m ws 0 <= nth m ws' 0)
  /\ (forall m, (j <= m < j + count)%nat -> nth (S m) xs' 0 == nth m xs' 0 + nth m ws' 0)
  /\ xx' == nth (j + count) xs' 0.
Proof.
  intros Hd. induction count as [|c IH]; intros j xx xs ws Hlen Hlw Hxx; cbn [distribute].
  { rewrite Nat.add_0_r. repeat split; intros; try lia; try reflexivity; try apply Qle_refl. exact Hxx. }
  set (ww := if is_cr (seg segs j) then nth j ws 0 + d else nth j ws 0).
  set (ws1 := if is_cr (seg segs j) then set_nth j ww ws else ws).
  assert (Hws1 : length ws1 = length ws /\ nth j ws1 0 = ww
                 /\ (forall m, m <> j -> nth m ws1 0 = nth m ws 0) /\ (forall m, nth m ws 0 <= nth m ws1 0)).
  { subst ws1 ww. destruct (is_cr (seg segs j)).
    - rewrite length_set_nth. split; [reflexivity|]. split; [apply nth_set_nth_eq; lia|].
      split; [intros m Hm; apply nth_set_nth_ne; congruence|].
      intros m. rewrite nth_set_nth. destruct (Nat.eqb_spec j m) as [<-|]; simpl;
        [replace (Nat.ltb j (length ws)) with true by (symmetry; apply Nat.ltb_lt; lia); lra | apply Qle_refl].
    - repeat split; auto; intros; apply Qle_refl. }
  destruct Hws1 as (Hl1 & Hj1 & Hne1 & Hm1).
  set (xs1 := set_nth (S j) (xx + ww) xs).
  assert (Hx1 : nth (S j) xs1 0 = xx + ww) by (apply nth_set_nth_eq; lia).
  assert (Hxn1 : forall m, m <> S j -> nth m xs1 0 = nth m xs 0) by (intros; apply nth_set_nth_ne; congruence).
  pose proof (IH (S j) (xx + ww) xs1 ws1) as IH'.
  destruct (distribute segs c (S j) d (xx + ww) xs1 ws1) as [[xx' xs'] ws'].
  destruct IH' as (L1 & L2 & Hx & Hw & Hmono & Hcons & Hxx');
    [unfold xs1; rewrite length_set_nth; lia | unfold xs1; rewrite length_set_nth; lia | rewrite Hx1; reflexivity |].
  unfold xs1 in L1. rewrite length_set_nth in L1.
  split; [exact L1|]. split; [congruence|]. split; [|split; [|split; [|split]]].
  - intros m Hm. rewrite Hx by lia. apply Hxn1. lia.
  - intros m Hm. rewrite Hw by lia. apply Hne1. lia.
  - intros m. eapply Qle_trans; [apply Hm1 | apply Hmono].
  - intros m Hm. destruct (Nat.eq_dec m j) as [->|Hmj]; [|apply Hcons; lia].
    rewrite (Hx (S j)), (Hx j), (Hw j) by lia. rewrite Hx1, Hxn1, Hj1 by lia. rewrite Hxx. reflexivity.
  - rewrite Nat.add_succ_r. exact Hxx'.
Qed.

Lemma search_spec i : forall ps n w xs p n' ww,
  search segs mhd i ps n w xs = Some (p, n', ww) -> (p < ps)%nat /\ (n <= n')%nat /\ w < ww.
Proof.
  induction ps as [|ps IH]; intros n w xs p n' ww E; simpl in E; [discriminate|].
  destruct (qltb_spec w (mhd ps (S i) false - (nth i xs 0 - nth ps xs 0))) as [Hlt|Hge].
  - injection E as <- <- <-. split; [lia|]. split; [destruct (is_cr _); lia | exact Hlt].
  - apply IH in E. destruct E as (Hp & Hn & Hw). split; [lia|]. split; [destruct (is_cr _); lia | exact Hw].
Qed.

Lemma look_back_spec first i w xs ps n ww :
  look_back segs mhd first i w xs = Some (ps, n, ww) -> (ps <= i)%nat /\ (1 <= n)%nat /\ w < ww.
Proof.
  unfold look_back. destruct i as [|i]; cbv beta iota zeta.
  - destruct (qltb_spec w (minLeftWith (seg segs 1) (left_shape segs first) - nth 0 xs 0)); [|discriminate].
    intros E. injection E as <- <- <-. split; [lia|]. split; [lia|]. assumption.
  - intros E. apply search_spec in E. destruct E as (Hp & Hn & Hw). split; [lia|]. split; [lia | exact Hw].
Qed.

(** The flag of the gap after segment [j]: the system header gap is
    the first gap before a chord-rest segment, in the first measure of
    a system. *)
Definition hdr_before (first : bool) (i : nat) : bool :=
  first && forallb (fun k => negb (is_cr (seg segs (S k)))) (seq 0 i).

Definition header_gap (first : bool) (j : nat) : bool := hdr_before first j && is_cr (seg segs (S j)).

Lemma hdr_before_S first i :
  hdr_before first (S i) = hdr_before first i && negb (is_cr (seg segs (S i))).
Proof. unfold hdr_before. rewrite seq_S, forallb_app. simpl. rewrite andb_true_r, andb_assoc. reflexivity. Qed.

(** Every width at least the distance the code asked for. *)
Definition widths_ok (first : bool) (ws : list Q) (i : nat) : Prop :=
  forall j, (j < i)%nat -> (S j < N)%nat -> mhd j (S j) (header_gap first j) <= nth j ws 0.

(** The loop's invariant, before segment [i]: the positions before [i]
    follow the widths, [x] is where segment [i] starts, segment 0 is at
    [x0], the widths are large enough and [isSystemHeader] says whether
    the header gap is still to come. *)
Definition mw_inv (first : bool) (x0 : Q) (i : nat) (x : Q) (hdr : bool) (xs ws : list Q) : Prop :=
  length xs = N /\ length ws = N /\ consistent xs ws (i - 1)
  /\ (forall j, S j = i -> x == nth j xs 0 + nth j ws 0)
  /\ ((0 < i)%nat -> nth 0 xs 0 = x0)
  /\ widths_ok first ws i /\ hdr = hdr_before first i.

Lemma consistent_set_x xs ws i x :
  length xs = N -> (i < N)%nat -> consistent xs ws (i - 1) ->
  (forall j, S j = i -> x == nth j xs 0 + nth j ws 0) -> consistent (set_nth i x xs) ws i.
Proof.
  intros Hl Hi Hc Hx j Hj. rewrite !nth_set_nth.
  destruct (Nat.eqb_spec i (S j)) as [E|E]; simpl.
  - replace (Nat.ltb i (length xs)) with true by (symmetry; apply Nat.ltb_lt; lia).
    replace (Nat.eqb i j) with false by (symmetry; apply Nat.eqb_neq; lia). simpl. apply Hx. lia.
  - replace (Nat.eqb i j) with false by (symmetry; apply Nat.eqb_neq; lia). simpl. apply Hc. lia.
Qed.

Lemma fix_overlap_spec first i w x xs ws :
  length xs = N -> length ws = N -> (i < N)%nat -> consistent xs ws i -> x = nth i xs 0 ->
  let '(w', x', xs', ws') := fix_overlap segs mhd first i w x xs ws in
  length xs' = N /\ length ws' = N /\ consistent xs' ws' i /\ x' == nth i xs' 0
  /\ nth 0 xs' 0 = nth 0 xs 0 /\ w <= w'
  /\ (forall j, nth j ws 0 <= nth j ws' 0) /\ (forall j, (i <= j)%nat -> nth j ws' 0 = nth j ws 0).
Proof.
  intros Hlx Hlw Hi Hc Hx. unfold fix_overlap.
  destruct (look_back segs mhd first i w xs) as [[[ps n] ww]|] eqn:E.
  - destruct (look_back_spec first i w xs ps n ww E) as (Hps & Hn & Hww).
    set (d := (ww - w) / inject_Z (Z.of_nat n)).
    assert (Hd : 0 < d).
    { unfold d. apply Qlt_shift_div_l; [|lra].
      change 0 with (inject_Z 0). rewrite <- Zlt_Qlt. lia. }
    pose proof (distribute_spec d ltac:(lra) (i - ps) ps (nth ps xs 0) xs ws) as H.
    destruct (distribute segs (i - ps) ps d (nth ps xs 0) xs ws) as [[xx xs'] ws'].
    destruct H as (L1 & L2 & Hx' & Hw' & Hm & Hcons & Hxx); [lia | lia | reflexivity |].
    replace (ps + (i - ps))%nat with i in * by lia.
    split; [lia|]. split; [lia|]. split; [|split; [exact Hxx|split; [apply Hx'; lia|split; [lra|split; [exact Hm|]]]]].
    + intros j Hj. destruct (Nat.lt_ge_cases j ps) as [Hlt|Hge]; [|apply Hcons; lia].
      rewrite (Hx' (S j)), (Hx' j), (Hw' j) by lia. apply Hc. lia.
    + intros j Hj. apply Hw'. lia.
  - repeat split; auto; try lia; try (rewrite Hx; reflexivity); intros; apply Qle_refl.
Qed.

Lemma set_x_inv first x0 i x hdr xs ws :
  (i < N)%nat -> mw_inv first x0 i x hdr xs ws -> (i = 0%nat -> x = x0) ->
  length (set_nth i x xs) = N /\ nth i (set_nth i x xs) 0 = x
  /\ consistent (set_nth i x xs) ws i /\ nth 0 (set_nth i x xs) 0 = x0.
Proof.
  intros Hi (Hlx & Hlw & Hc & Hx & H0 & _) Hx0.
  split; [rewrite length_set_nth; exact Hlx|]. split; [apply nth_set_nth_eq; lia|].
  split; [apply consistent_set_x; auto|].
  rewrite nth_set_nth. destruct i as [|i']; simpl.
  - replace (Nat.ltb 0 (length xs)) with true by (symmetry; apply Nat.ltb_lt; lia). apply Hx0. reflexivity.
  - apply H0. lia.
Qed.

(** One pass of the loop body for a segment with a successor. *)
Lemma mw_step first x0 i x xs ws b w' x' xs' ws' :
  (S i < N)%nat -> mw_inv first x0 i x (hdr_before first i) xs ws -> (i = 0%nat -> x = x0) ->
  mhd i (S i) (header_gap first i) <= mhd i (S i) b ->
  fix_overlap segs mhd first i (mhd i (S i) b) x (set_nth i x xs) ws = (w', x', xs', ws') ->
  mw_inv first x0 (S i) (x' + w') (hdr_before first (S i)) xs' (set_nth i w' ws').
Proof.
  intros Hi Hinv Hx0 Hb E.
  destruct (set_x_inv first x0 i x _ xs ws ltac:(lia) Hinv Hx0) as (L1 & Hxi & Hc1 & H01).
  pose proof Hinv as (_ & Hlw & _ & _ & _ & Hws & _).
  pose proof (fix_overlap_spec first i (mhd i (S i) b) x (set_nth i x xs) ws L1 Hlw ltac:(lia) Hc1 (eq_sym Hxi)) as F.
  rewrite E in F. destruct F as (F1 & F2 & F3 & F4 & F5 & F6 & F7 & F8).
  assert (Hwi : nth i (set_nth i w' ws') 0 = w') by (apply nth_set_nth_eq; lia).
  assert (Hwj : forall j, j <> i -> nth j (set_nth i w' ws') 0 = nth j ws' 0)
    by (intros; apply nth_set_nth_ne; congruence).
  split; [exact F1|]. split; [rewrite length_set_nth; exact F2|]. split; [|split; [|split; [|split]]].
  - intros j Hj. rewrite Hwj by lia. apply F3. lia.
  - intros j Hj. injection Hj as ->. rewrite Hwi, F4. reflexivity.
  - intros _. rewrite F5. exact H01.
  - intros j Hj HjN. destruct (Nat.eq_dec j i) as [->|Hne]; [rewrite Hwi; lra|].
    rewrite Hwj by exact Hne. eapply Qle_trans; [apply Hws; lia | apply F7].
  - reflexivity.
Qed.

(** The last segment: its width is [minRight] (0 for an end bar line). *)
Lemma mw_last first x0 i x hdr xs ws w :
  S i = N -> mw_inv first x0 i x hdr xs ws -> (i = 0%nat -> x = x0) ->
  mw_inv first x0 N (x + w) (hdr_before first N) (set_nth i x xs) (set_nth i w ws).
Proof.
  intros HiN Hinv Hx0. unfold mw_inv, consistent, widths_ok in *. unfold N in *.
  destruct (set_x_inv first x0 i x hdr xs ws ltac:(lia) Hinv Hx0) as (L1 & Hxi & Hc1 & H01).
  destruct Hinv as (_ & Hlw & _ & _ & _ & Hws & Hh).
  split; [exact L1|]. split; [rewrite length_set_nth; exact Hlw|].
  replace (length segs - 1)%nat with i by lia.
  split; [|split; [|split; [|split]]].
  - intros j Hj. rewrite (nth_set_nth_ne i j w 0 ws) by lia. apply Hc1. lia.
  - intros j Hj. assert (j = i) as -> by lia. rewrite Hxi, (nth_set_nth_eq i w 0 ws) by lia. reflexivity.
  - intros _. exact H01.
  - intros j Hj HjN. rewrite (nth_set_nth_ne i j w 0 ws) by lia. apply Hws; lia.
  - reflexivity.
Qed.

Lemma mw_loop_spec first x0 : forall k i x xs ws,
  (i + k = N)%nat -> mw_inv first x0 i x (hdr_before first i) xs ws -> (i = 0%nat -> x = x0) ->
  let '(x', xs', ws') := mw_loop segs mhd first k i x (hdr_before first i) xs ws in
  mw_inv first x0 N x' (hdr_before first N) xs' ws'.
Proof.
  induction k as [|k IH]; intros i x xs ws Hk Hinv Hx0; cbn [mw_loop].
  { replace i with N in Hinv by lia. exact Hinv. }
  destruct (Nat.ltb_spec (S i) (length segs)) as [Hlt|Hge].
  - remember (hdr_before first i) as h eqn:Eh.
    set (b := h && is_cr (seg segs (S i))).
    assert (Hg : header_gap first i = b) by (unfold header_gap, b; rewrite Eh; reflexivity).
    assert (Hn : hdr_before first (S i) = if b then false else h)
      by (rewrite hdr_before_S, <- Eh; unfold b; destruct h, (is_cr (seg segs (S i))); reflexivity).
    replace (if b then (mhd i (S i) true, false) else (mhd i (S i) false, h))
      with (mhd i (S i) b, if b then false else h) by (destruct b; reflexivity).
    cbv beta iota.
    destruct (fix_overlap segs mhd first i (mhd i (S i) b) x (set_nth i x xs) ws) as [[[w' x'] xs'] ws'] eqn:E.
    rewrite <- Hn. apply IH; [lia | | discriminate].
    subst h. apply (mw_step first x0 i x xs ws b w' x' xs' ws'); auto. rewrite Hg. apply Qle_refl.
  - eapply mw_last; [unfold N; lia | exact Hinv | exact Hx0].
Qed.

(** C8. [computeMinWidth] lays the segments out edge to edge: segment
    0 sits where its left margin puts it, every next segment starts
    where the previous one ends, the returned width is where the last
    one ends, and every gap is at least the [minHorizontalDistance] the
    code asks for between the two segments (the system header gap
    before the first chord-rest segment of a system's first measure):
    the look-back corrections only ever widen gaps. *)
Theorem computeMinWidth_layout first :
  (0 < N)%nat ->
  let '(x, xs, ws) := computeMinWidth st segs mhd first in
  length xs = N /\ length ws = N /\ nth 0 xs 0 = first_x st segs first
  /\ (forall j, (S j < N)%nat -> nth (S j) xs 0 == nth j xs 0 + nth j ws 0)
  /\ x == nth (N - 1) xs 0 + nth (N - 1) ws 0
  /\ (forall j, (S j < N)%nat -> mhd j (S j) (header_gap first j) <= nth (S j) xs 0 - nth j xs 0).
Proof.
  intros HN. unfold computeMinWidth.
  pose proof (mw_loop_spec first (first_x st segs first) (length segs) 0 (first_x st segs first)
                (repeat 0 (length segs)) (repeat 0 (length segs))) as H.
  assert (E0 : hdr_before first 0 = first) by (unfold hdr_before; simpl; apply andb_true_r).
  rewrite E0 in H.
  destruct (mw_loop segs mhd first (length segs) 0 (first_x st segs first) first
              (repeat 0 (length segs)) (repeat 0 (length segs))) as [[x xs] ws].
  destruct H as (L1 & L2 & Hc & Hx & H0 & Hws & _);
    [reflexivity | unfold mw_inv, consistent, widths_ok; rewrite !repeat_length;
       repeat split; intros; try lia; rewrite E0; reflexivity | intros; reflexivity |].
  split; [exact L1|]. split; [exact L2|]. split; [apply H0; exact HN|].
  split; [intros j Hj; apply Hc; unfold N in *; lia|].
  split; [apply Hx; unfold N in *; lia|].
  intros j Hj. rewrite (Hc j) by (unfold N in *; lia).
  specialize (Hws j ltac:(lia) Hj). lra.
Qed.

End Proofs.

End MinWidth.

Import MinWidth.

(** A clef and three chord-rest segments; the clef needs 5 to the second
    chord-rest segment, more than the two gaps give, so the look-back
    widens the gap after the first chord-rest segment. *)
Definition wit_style : MWStyle := mkMWStyle 1 (1 # 2) 0 0 0.
Definition wit_cr : Seg := mkSeg SChordRest 0 (fun _ => 0) 0 1.
Definition wit_clef : Seg := mkSeg SClef 0 (fun _ => 1) 0 1.
Definition wit_segs : list Seg := [wit_clef; wit_cr; wit_cr; wit_cr].
Definition wit_mhd (a b : nat) (h : bool) : Q :=
  if Nat.eqb a 0 then (if Nat.eqb b 2 then 5 else 2) else 1.

Lemma computeMinWidth_layout_witness :
  let '(x, xs, ws) := computeMinWidth wit_style wit_segs wit_mhd true in
  length xs = length wit_segs /\ length ws = length wit_segs
  /\ nth 0 xs 0 = first_x wit_style wit_segs true
  /\ (forall j, (S j < length wit_segs)%nat -> nth (S j) xs 0 == nth j xs 0 + nth j ws 0)
  /\ x == nth (length wit_segs - 1) xs 0 + nth (length wit_segs - 1) ws 0
  /\ (forall j, (S j < length wit_segs)%nat ->
        wit_mhd j (S j) (header_gap wit_segs true j) <= nth (S j) xs 0 - nth j xs 0).
Proof. exact (computeMinWidth_layout wit_style wit_segs wit_mhd true ltac:(simpl; lia)). Defined.
