(* ===== verification/StaffVisibility.v ===== *)
(** * Hiding empty staves ([Score::hideEmptyStaves])

    [hideEmptyStaves(system, isFirstSystem)] (layout.cpp 1483-1575)
    decides which staves of a system are shown.  A staff may be hidden
    when its hide mode is [ALWAYS], or when the style hides empty staves,
    the score has more than one staff, the first-system exception does
    not apply and its mode is not [NEVER].  Such a staff is hidden when
    every measure of the system is a measure rest on it and no note of
    another staff of its part is moved onto it; otherwise it takes the
    staff's own [show()].  If no staff is shown, the staves marked
    "show if empty" are shown, and failing those the first staff.

    What the function reads of staves, parts, measures and chord-rests
    is given as data: a staff's mode, [show()], [showIfEmpty()], its
    part's first staff index and staff count; a measure's
    [isMeasureRest] per staff and its chord-rest segments, each a list
    of the [ChordRest]s per track. *)

From Stdlib Require Import ZArith List Lia Bool.
Import ListNotations.
Open Scope nat_scope.

Module StaffVisibility.

(** [Staff::HideMode]. *)
Inductive HideMode := AUTO | ALWAYS | INSTRUMENT | NEVER.

Definition HideMode_eqb (a b : HideMode) : bool :=
  match a, b with
  | AUTO, AUTO | ALWAYS, ALWAYS | INSTRUMENT, INSTRUMENT | NEVER, NEVER => true
  | _, _ => false
  end.

Record StaffH := mkStaffH {
  hideWhenEmpty : HideMode;
  staff_show : bool;      (** [staff->show()] *)
  showIfEmpty : bool;
  part_first : nat;       (** [part->staves()->front()->idx()] *)
  part_nstaves : nat }.

(** A [ChordRest] as the moved-note check reads it. *)
Record CRd := mkCRd { cr_isRest : bool; staffMove : Z }.

(** A chord-rest segment: [s->cr(track)] for each track. *)
Definition CRSeg := list (option CRd).

(** The [MeasureBase]s of the system. *)
Inductive MBH := NotMeasure | Measure (measureRest : list bool) (crsegs : list CRSeg).

Definition VOICES := 4.

Record HStyle := mkHStyle { hideEmptyStavesStyle : bool; dontHideStavesInFirstSystem : bool }.

Section Hide.

Variable sty : HStyle.
Variable staves : list StaffH.
Variable measures : list MBH.
Variable isFirstSystem : bool.

(** The test of line 1495. *)
Definition may_hide (staff : StaffH) : bool :=
  HideMode_eqb (hideWhenEmpty staff) ALWAYS
  || (hideEmptyStavesStyle sty && Nat.ltb 1 (length staves)
      && negb (isFirstSystem && dontHideStavesInFirstSystem sty)
      && negb (HideMode_eqb (hideWhenEmpty staff) NEVER)).

(** Lines 1500-1508: every measure of the system is a measure rest on
    staff [staffIdx]. *)
Definition all_rests (staffIdx : nat) : bool :=
  forallb (fun m => match m with
                    | NotMeasure => true
                    | Measure rests _ => nth staffIdx rests false
                    end) measures.

(** Lines 1510-1537: a note of staff [st] of the part moved onto
    [staffIdx]. *)
Definition moved_onto (staffIdx st : nat) (seg : CRSeg) : bool :=
  existsb (fun voice =>
             match nth_error seg (st * VOICES + voice) with
             | Some (Some cr) =>
                 negb (cr_isRest cr) && Z.eqb (Z.of_nat staffIdx) (Z.of_nat st + staffMove cr)
             | _ => false
             end) (seq 0 VOICES).

Definition notes_moved_in (staffIdx : nat) (staff : StaffH) : bool :=
  existsb (fun i =>
             let st := part_first staff + i in
             existsb (fun m => match m with
                               | NotMeasure => false
                               | Measure _ segs => existsb (moved_onto staffIdx st) segs
                               end) measures)
          (seq 0 (part_nstaves staff)).

(** [ss->setShow(...)] for staff [staffIdx] in the first loop. *)
Definition first_pass_show (staffIdx : nat) (staff : StaffH) : bool :=
  if may_hide staff then
    let hideStaff := all_rests staffIdx
                     && negb (Nat.ltb 1 (part_nstaves staff) && notes_moved_in staffIdx staff) in
    if hideStaff then false else staff_show staff
  else true.

(** [_staves.front()]'s [ss->setShow(true)]. *)
Definition show_first (shows : list bool) : list bool :=
  match shows with [] => [] | _ :: t => true :: t end.

(** The first loop (lines 1489-1556): [show()] per staff. *)
Definition first_pass : list bool :=
  map (fun '(i, staff) => first_pass_show i staff) (combine (seq 0 (length staves)) staves).

(** Lines 1557-1565: the staves to show in an empty system. *)
Definition show_if_empty (shows : list bool) : list bool :=
  map (fun '(sh, staff) => if showIfEmpty staff && negb sh then true else sh) (combine shows staves).

(** [Score::hideEmptyStaves]: [show()] of each staff of the system. *)
Definition hideEmptyStaves : list bool :=
  let shows := first_pass in
  if negb (existsb id shows) then
    let shows := show_if_empty shows in
    if negb (existsb id shows) then show_first shows else shows
  else shows.

Lemma length_first_pass : length first_pass = length staves.
Proof. unfold first_pass. rewrite length_map, length_combine, length_seq. lia. Qed.

Lemma nth_first_pass i staff :
  nth_error staves i = Some staff -> nth i first_pass false = first_pass_show i staff.
Proof.
  intros H. unfold first_pass.
  assert (Hi : i < length staves) by (apply nth_error_Some; congruence).
  rewrite (nth_indep _ false (first_pass_show 0 staff)) by (rewrite length_map, length_combine, length_seq; lia).
  rewrite (map_nth (fun '(i0, staff0) => first_pass_show i0 staff0) _ (0, staff)).
  rewrite combine_nth by (rewrite length_seq; reflexivity).
  rewrite seq_nth by exact Hi. rewrite (nth_error_nth _ _ _ H). reflexivity.
Qed.

(** When the first pass shows a staff, the fallbacks do nothing. *)
Lemma hideEmptyStaves_first_pass :
  existsb id first_pass = true -> hideEmptyStaves = first_pass.
Proof. unfold hideEmptyStaves. intros ->. reflexivity. Qed.

Lemma existsb_nth_true l i : nth i l false = true -> existsb id l = true.
Proof.
  intros H. apply existsb_exists. exists true. split; [|reflexivity].
  rewrite <- H. apply nth_In. destruct (Nat.lt_ge_cases i (length l)); [assumption|].
  rewrite nth_overflow in H by assumption. discriminate.
Qed.

Lemma length_show_if_empty shows :
  length shows = length staves -> length (show_if_empty shows) = length staves.
Proof. intros H. unfold show_if_empty. rewrite length_map, length_combine, H. lia. Qed.

Lemma length_show_first l : length (show_first l) = length l.
Proof. destruct l; reflexivity. Qed.

(** [hideEmptyStaves] decides one [show()] per staff. *)
Lemma hideEmptyStaves_length : length hideEmptyStaves = length staves.
Proof.
  pose proof (length_show_if_empty first_pass length_first_pass) as Hf.
  unfold hideEmptyStaves. destruct (existsb id first_pass); simpl; [apply length_first_pass|].
  destruct (existsb id (show_if_empty first_pass)); simpl; [exact Hf|]. rewrite length_show_first. exact Hf.
Qed.

(** C9. [hideEmptyStaves] never leaves a system without a visible
    staff, and a staff that the rules may not hide, or that has music
    in the system and is itself visible, is shown. *)
Theorem hideEmptyStaves_visible :
  staves <> [] ->
  existsb id hideEmptyStaves = true
  /\ (forall i staff, nth_error staves i = Some staff ->
        may_hide staff = false \/ (all_rests i = false /\ staff_show staff = true) ->
        nth i hideEmptyStaves false = true).
Proof.
  intros Hne. split.
  - pose proof (length_show_if_empty first_pass length_first_pass) as Hf.
    unfold hideEmptyStaves. destruct (existsb id first_pass) eqn:E1; simpl; [exact E1|].
    destruct (existsb id (show_if_empty first_pass)) eqn:E2; simpl; [exact E2|].
    destruct (show_if_empty first_pass) as [|b t]; simpl in *; [destruct staves; simpl in Hf; congruence | reflexivity].
  - intros i staff Hs Hc.
    assert (Hfp : first_pass_show i staff = true).
    { unfold first_pass_show. destruct Hc as [-> | [Ha ->]]; [reflexivity|].
      destruct (may_hide staff); [|reflexivity]. rewrite Ha. reflexivity. }
    rewrite hideEmptyStaves_first_pass.
    + rewrite (nth_first_pass i staff Hs). exact Hfp.
    + apply (existsb_nth_true _ i). rewrite (nth_first_pass i staff Hs). exact Hfp.
Qed.

End Hide.

End StaffVisibility.

Import StaffVisibility.

(** A piano part (staves 0 and 1) with hiding on: staff 1 has only
    measure rests, staff 0 has music. *)
Definition wit_piano (show : bool) : StaffH := mkStaffH AUTO show false 0 2.
Definition wit_measures : list MBH :=
  [Measure [false; true] [[Some (mkCRd false 0); None; None; None; None; None; None; None]]].

Lemma hideEmptyStaves_visible_witness :
  existsb id (hideEmptyStaves (mkHStyle true false) [wit_piano true; wit_piano true] wit_measures false) = true
  /\ (forall i staff, nth_error [wit_piano true; wit_piano true] i = Some staff ->
        may_hide (mkHStyle true false) [wit_piano true; wit_piano true] false staff = false
        \/ (all_rests wit_measures i = false /\ staff_show staff = true) ->
        nth i (hideEmptyStaves (mkHStyle true false) [wit_piano true; wit_piano true] wit_measures false) false
        = true).
Proof. apply hideEmptyStaves_visible. discriminate. Defined.
