(* ===== verification/BarLineSpans.v ===== *)
(** * Bar line spans after a change of line count ([Score::updateBarLineSpans])

    [updateBarLineSpans(idx, linesOld, linesNew)] (layout.cpp 2051-2094)
    runs when staff [idx] changes from [linesOld] to [linesNew] lines.
    Each staff's bar line spans [barLineSpan] staves, from staff line
    position [barLineFrom] of the first to [barLineTo] of the last (in
    half spaces from the top line).  An end in the top half of its staff
    stays linked to the top line (unchanged); an end in the bottom half
    is linked to the bottom line and moves by [2 * (linesNew -
    linesOld)]; one-line staves have their own defaults
    ([BARLINE_SPAN_1LINESTAFF_FROM/TO], staff.h, inputs here). *)

From Stdlib Require Import ZArith List Lia Bool.
Import ListNotations.
Open Scope Z_scope.

Module BarLineSpans.

(** What the function reads and writes of a [Staff]. *)
Record StaffB := mkStaffB { barLineSpan : Z; barLineFrom : Z; barLineTo : Z }.

(** [BARLINE_SPAN_1LINESTAFF_FROM] and [_TO] (staff.h). *)
Record OneLine := mkOneLine { from1 : Z; to1 : Z }.

Section Update.

Variable c : OneLine.
Variables idx linesOld linesNew : Z.

(** The modified staff's own [barLineFrom] (or, without a bar line, its
    [barLineTo]), lines 2066-2080. *)
Definition update_own (s : StaffB) : StaffB :=
  if Z.eqb (barLineSpan s) 0 then mkStaffB (barLineSpan s) (barLineFrom s) ((linesNew - 1) * 2)
  else if Z.eqb linesNew 1 then mkStaffB (barLineSpan s) (from1 c) (barLineTo s)
  else if Z.eqb linesOld 1 then mkStaffB (barLineSpan s) 0 (barLineTo s)
  else if Z.ltb (linesOld - 1) (barLineFrom s)
  then mkStaffB (barLineSpan s) (barLineFrom s + (linesNew - linesOld) * 2) (barLineTo s)
  else s.

(** The [barLineTo] of a staff whose span ends on the modified staff,
    lines 2083-2092. *)
Definition update_dest (s : StaffB) : StaffB :=
  if Z.eqb linesNew 1 then mkStaffB (barLineSpan s) (barLineFrom s) (to1 c)
  else if Z.eqb linesOld 1 then mkStaffB (barLineSpan s) (barLineFrom s) ((linesNew - 1) * 2)
  else if Z.ltb (linesOld - 1) (barLineTo s)
  then mkStaffB (barLineSpan s) (barLineFrom s) (barLineTo s + (linesNew - linesOld) * 2)
  else s.

(** The loop body for staff [sIdx]. *)
Definition update_staff (sIdx : Z) (s : StaffB) : StaffB :=
  let s := if Z.eqb sIdx idx then update_own s else s in
  if Z.eqb (sIdx + barLineSpan s - 1) idx then update_dest s else s.

Fixpoint update_from (sIdx : Z) (staves : list StaffB) : list StaffB :=
  match staves with
  | [] => []
  | s :: rest => update_staff sIdx s :: update_from (sIdx + 1) rest
  end.

(** [Score::updateBarLineSpans(idx, linesOld, linesNew)]. *)
Definition updateBarLineSpans (staves : list StaffB) : list StaffB := update_from 0 staves.

(** ** What the update does to each staff *)

Lemma nth_error_update_from staves : forall k sIdx,
  nth_error (update_from sIdx staves) k = option_map (update_staff (sIdx + Z.of_nat k)) (nth_error staves k).
Proof.
  induction staves as [|s rest IH]; intros [|k] sIdx; simpl; auto.
  - rewrite Z.add_0_r. reflexivity.
  - rewrite IH. do 2 f_equal. lia.
Qed.

(** The staff line position of the bottom line of a staff of [l]
    lines, in half spaces from the top line. *)
Definition bottom_line (l : Z) : Z := (l - 1) * 2.

Section Anchor.

Hypothesis old_not_1 : linesOld <> 1.
Hypothesis new_not_1 : linesNew <> 1.

(** An end of a bar line in the bottom half of the old staff keeps its
    distance to the bottom line; one in the top half (or on the middle
    line) keeps its position, that is its distance to the top line. *)
Definition anchored (before after : Z) : Prop :=
  if Z.ltb (linesOld - 1) before then bottom_line linesNew - after = bottom_line linesOld - before
  else after = before.

Lemma update_own_from s :
  barLineSpan s <> 0 -> anchored (barLineFrom s) (barLineFrom (update_own s))
  /\ barLineTo (update_own s) = barLineTo s /\ barLineSpan (update_own s) = barLineSpan s.
Proof.
  intros Hs. unfold update_own, anchored, bottom_line.
  rewrite (proj2 (Z.eqb_neq _ _) Hs), (proj2 (Z.eqb_neq _ _) new_not_1), (proj2 (Z.eqb_neq _ _) old_not_1).
  destruct (Z.ltb_spec (linesOld - 1) (barLineFrom s)); simpl; repeat split; lia.
Qed.

Lemma update_dest_to s :
  anchored (barLineTo s) (barLineTo (update_dest s))
  /\ barLineFrom (update_dest s) = barLineFrom s /\ barLineSpan (update_dest s) = barLineSpan s.
Proof.
  unfold update_dest, anchored, bottom_line.
  rewrite (proj2 (Z.eqb_neq _ _) new_not_1), (proj2 (Z.eqb_neq _ _) old_not_1).
  destruct (Z.ltb_spec (linesOld - 1) (barLineTo s)); simpl; repeat split; lia.
Qed.

End Anchor.

End Update.

(** C10. After [updateBarLineSpans] (neither line count being 1), the
    modified staff's [barLineFrom] and the [barLineTo] of every staff
    whose span ends on it stay linked to the top line if they were in
    the top half of the old staff and to the bottom line if they were in
    its bottom half; every other staff is unchanged. *)
Theorem updateBarLineSpans_anchor c idx linesOld linesNew staves k s :
  linesOld <> 1 -> linesNew <> 1 -> nth_error staves k = Some s ->
  exists s', nth_error (updateBarLineSpans c idx linesOld linesNew staves) k = Some s'
  /\ barLineSpan s' = barLineSpan s
  /\ (Z.of_nat k = idx -> barLineSpan s <> 0 -> anchored linesOld linesNew (barLineFrom s) (barLineFrom s'))
  /\ (Z.of_nat k + barLineSpan s - 1 = idx -> anchored linesOld linesNew (barLineTo s) (barLineTo s'))
  /\ (Z.of_nat k <> idx -> Z.of_nat k + barLineSpan s - 1 <> idx -> s' = s).
Proof.
  intros Ho Hn Hk. unfold updateBarLineSpans. rewrite nth_error_update_from, Hk. simpl.
  eexists; split; [reflexivity|]. unfold update_staff.
  destruct (Z.eqb_spec (Z.of_nat k) idx) as [Hi|Hi].
  - destruct (Z.eqb_spec (barLineSpan s) 0) as [H0|H0].
    + assert (Hu : update_own c linesOld linesNew s = mkStaffB (barLineSpan s) (barLineFrom s) ((linesNew - 1) * 2))
        by (unfold update_own; rewrite H0; reflexivity).
      rewrite Hu. simpl. rewrite H0. replace (Z.eqb (Z.of_nat k + 0 - 1) idx) with false by (symmetry; apply Z.eqb_neq; lia).
      simpl. repeat split; intros; lia.
    + destruct (update_own_from c linesOld linesNew Ho Hn s H0) as (Hf & Ht & Hs).
      destruct (Z.eqb_spec (Z.of_nat k + barLineSpan (update_own c linesOld linesNew s) - 1) idx) as [Hd|Hd].
      * destruct (update_dest_to c linesOld linesNew Ho Hn (update_own c linesOld linesNew s)) as (Ht' & Hf' & Hs').
        rewrite Hs', Hs, Hf'. rewrite Ht in Ht'. repeat split; auto. intros; lia.
      * rewrite Hs in Hd |- *. repeat split; auto; intros; lia.
  - destruct (Z.eqb_spec (Z.of_nat k + barLineSpan s - 1) idx) as [Hd|Hd].
    + destruct (update_dest_to c linesOld linesNew Ho Hn s) as (Ht & Hf & Hs).
      repeat split; auto; intros; lia.
    + repeat split; auto; intros; lia.
Qed.

End BarLineSpans.

Import BarLineSpans.

Definition wit_one_line : OneLine := mkOneLine (-2) 2.

(** A five-line staff with its bar line from the top line to the bottom
    line, changed to three lines: the bottom end follows the bottom
    line. *)
Lemma updateBarLineSpans_anchor_witness :
  exists s', nth_error (updateBarLineSpans wit_one_line 0 5 3 [mkStaffB 1 0 8]) 0 = Some s'
  /\ barLineSpan s' = barLineSpan (mkStaffB 1 0 8)
  /\ (Z.of_nat 0 = 0 -> barLineSpan (mkStaffB 1 0 8) <> 0 ->
      anchored 5 3 (barLineFrom (mkStaffB 1 0 8)) (barLineFrom s'))
  /\ (Z.of_nat 0 + barLineSpan (mkStaffB 1 0 8) - 1 = 0 ->
      anchored 5 3 (barLineTo (mkStaffB 1 0 8)) (barLineTo s'))
  /\ (Z.of_nat 0 <> 0 -> Z.of_nat 0 + barLineSpan (mkStaffB 1 0 8) - 1 <> 0 -> s' = mkStaffB 1 0 8).
Proof. apply updateBarLineSpans_anchor; [lia | lia | reflexivity]. Defined.

(** Shrinking a five-line staff to two lines moves a bar line end just
    below the middle line (position 5) by the full difference, to
    position -1: above the new staff's top line. *)
Example updateBarLineSpans_leaves_staff :
  updateBarLineSpans wit_one_line 0 5 2 [mkStaffB 1 0 5] = [mkStaffB 1 0 (-1)].
Proof. reflexivity. Qed.
