(* ===== verification/SystemHeader.v ===== *)
(** * System header ([Score::addSystemHeader])

    [addSystemHeader(m, isFirstSystem)] (layout.cpp 1233-1399) makes the
    first measure [m] of a system carry its header.  For each staff the
    system shows, it scans the segments of [m] up to the first
    chord-rest or start-repeat segment for the key signature and clef of
    the staff's first track.  It then creates, updates or removes the key
    signature (lines 1280-1331, with the courtesy key signature of the
    previous measure taking over a C major one) and the clef (lines
    1333-1367).  Last it creates, respans or removes the system's begin
    bar line (lines 1377-1398).

    A segment is modelled with an identity [sid] standing for the
    [Segment*] the code keeps ([keysig->segment()]), its type and per
    staff the element of the staff's first track (the code reads no
    other track).  [segs] are the segments of [m] at its tick, in
    order; the first chord-rest segment of a measure lies at its tick,
    so the scan never reaches later ones.  [Measure::undoGetSegment]
    and [Measure::findSegment] are in measure.cpp: [findSegment] returns
    the first segment of the type, [undoGetSegment] adds a missing one
    before the first segment of a later type, the order of
    [Segment::Type] (segment.h).  Element layout ([layout()],
    [createShape()]) changes no state modelled here.

    The invariant [wf] says what a measure's header looks like (one
    segment per type, in type order, distinct identities, one slot per
    staff, key signatures and clefs in segments of their type); the
    theorems show that [addSystemHeader] keeps it and leaves each shown
    staff with the clef and key signature the code means it to have.
    [cautionaryWidth], which sizes the courtesy signatures at the other
    end of a system, is in Courtesy.v. *)

From Stdlib Require Import QArith Lqa ZArith List Lia Bool Sorted Permutation.
From S2P Require Import Prelude.
Import ListNotations.
Open Scope nat_scope.

Module SystemHeader.

(** [Segment::Type], in its order. *)
Inductive SegType :=
  SBeginBarLine | SClef | SKeySig | SAmbitus | STimeSig | SStartRepeatBarLine
| SBarLine | SBreath | SChordRest | SEndBarLine | SKeySigAnnounce | STimeSigAnnounce.

Definition rank (t : SegType) : nat :=
  match t with
  | SBeginBarLine => 0 | SClef => 1 | SKeySig => 2 | SAmbitus => 3 | STimeSig => 4
  | SStartRepeatBarLine => 5 | SBarLine => 6 | SBreath => 7 | SChordRest => 8
  | SEndBarLine => 9 | SKeySigAnnounce => 10 | STimeSigAnnounce => 11
  end.

Definition SegType_eqb (a b : SegType) : bool := Nat.eqb (rank a) (rank b).

(** [seg->isType(Segment::Type::ChordRest | Segment::Type::StartRepeatBarLine)]. *)
Definition is_stop (t : SegType) : bool :=
  match t with SChordRest | SStartRepeatBarLine => true | _ => false end.

(** [KeySigEvent]: the key ([Key::C] is 0), custom and atonal flags. *)
Record KeySigEvent := mkKSE { key : Z; custom : bool; isAtonal : bool }.

Definition Key_C : Z := 0.

Definition KeySigEvent_eqb (a b : KeySigEvent) : bool :=
  Z.eqb (key a) (key b) && Bool.eqb (custom a) (custom b) && Bool.eqb (isAtonal a) (isAtonal b).

Record KeySig := mkKeySig { keySigEvent : KeySigEvent; ks_generated : bool; showCourtesy : bool }.

Record ClefTypeList := mkCTL { concertClef : Z; transposingClef : Z }.

Definition ClefTypeList_eqb (a b : ClefTypeList) : bool :=
  Z.eqb (concertClef a) (concertClef b) && Z.eqb (transposingClef a) (transposingClef b).

Record Clef := mkClef { clefTypeList : ClefTypeList; small : bool; cl_generated : bool }.

Record BarLine := mkBarLine { span : Z; bl_generated : bool }.

Inductive Elem := EKeySig (k : KeySig) | EClef (c : Clef) | EBarLine (b : BarLine) | EOther.

Record Seg := mkSeg { sid : nat; stype : SegType; elems : list (option Elem) }.

(** The previous measure as the courtesy test reads it:
    [hasCourtesyKeySig()] and its [KeySigAnnounce] segment's key
    signatures per staff. *)
Record Prev := mkPrev { hasCourtesyKeySig : bool; announce : option (list (option KeySig)) }.

(** The measure's segments, the next segment identity, the previous
    measure, [hasSystemHeader]. *)
Record HState := mkHState { segs : list Seg; fresh : nat; prev : option Prev; hasSystemHeader : bool }.

(** What the loop reads of a [Staff] at the tick: [keySigEvent(tick)],
    [staffType()->genClef()], [clefType(tick)]. *)
Record StaffD := mkStaffD { keySigAt : KeySigEvent; genClefST : bool; clefTypeAt : ClefTypeList }.

Record HStyle := mkHStyle {
  genKeysig : bool; genClef : bool; startBarlineMultiple : bool; startBarlineSingle : bool }.

Definition with_segs (st : HState) (ss : list Seg) : HState :=
  mkHState ss (fresh st) (prev st) (hasSystemHeader st).

Definition set_slot (i : nat) (e : option Elem) (s : Seg) : Seg :=
  mkSeg (sid s) (stype s) (set_nth i e (elems s)).

(** A change to the segment [d] points to. *)
Definition upd_seg (d : nat) (f : Seg -> Seg) (ss : list Seg) : list Seg :=
  map (fun s => if Nat.eqb (sid s) d then f s else s) ss.

(** [Measure::findSegment(t, tick)]. *)
Fixpoint find_seg (t : SegType) (ss : list Seg) : option Seg :=
  match ss with
  | [] => None
  | s :: rest => if SegType_eqb (stype s) t then Some s else find_seg t rest
  end.

(** The new segment goes before the first segment of a later type. *)
Fixpoint insert_seg (s : Seg) (ss : list Seg) : list Seg :=
  match ss with
  | [] => [s]
  | s' :: rest => if Nat.ltb (rank (stype s)) (rank (stype s')) then s :: ss else s' :: insert_seg s rest
  end.

Definition set_small (b : bool) (c : Clef) : Clef := mkClef (clefTypeList c) b (cl_generated c).
Definition set_ks_generated (b : bool) (k : KeySig) : KeySig := mkKeySig (keySigEvent k) b (showCourtesy k).

(** Lines 1261-1279: the key signature and clef of staff [i] before the
    first chord-rest, with their segments; each clef met is made
    normal-sized ([clef->setSmall(false)]). *)
Fixpoint scan (i : nat) (ss : list Seg) (ks : option (nat * KeySig)) (cl : option (nat * Clef))
  : list Seg * option (nat * KeySig) * option (nat * Clef) :=
  match ss with
  | [] => ([], ks, cl)
  | s :: rest =>
      if is_stop (stype s) then (ss, ks, cl)
      else match nth i (elems s) None with
           | Some (EKeySig k) =>
               let '(rest', ks', cl') := scan i rest (Some (sid s, k)) cl in (s :: rest', ks', cl')
           | Some (EClef c) =>
               let c' := set_small false c in
               let '(rest', ks', cl') := scan i rest ks (Some (sid s, c')) in
               (set_slot i (Some (EClef c')) s :: rest', ks', cl')
           | _ => let '(rest', ks', cl') := scan i rest ks cl in (s :: rest', ks', cl')
           end
  end.

Section Header.

Variable sty : HStyle.
Variable isFirstSystem : bool.
(** [m->system()->staff(staffIdx)->show()]. *)
Variable sysShow : list bool.
(** The score's staves, [_staves]. *)
Variable staves : list StaffD.

Definition nstaves : nat := length staves.

(** [m->undoGetSegment(t, tick)]: the segment's identity. *)
Definition undoGetSegment (t : SegType) (st : HState) : HState * nat :=
  match find_seg t (segs st) with
  | Some s => (st, sid s)
  | None => (mkHState (insert_seg (mkSeg (fresh st) t (repeat None nstaves)) (segs st))
                      (S (fresh st)) (prev st) (hasSystemHeader st), fresh st)
  end.

(** Setting the element of staff [i] in the segment [d]: [undo(new
    AddElement(e))], a change command, or removing it ([None]). *)
Definition set_elem (d i : nat) (e : option Elem) (st : HState) : HState :=
  with_segs st (upd_seg d (set_slot i e) (segs st)).

(** A new element in the segment of type [t] ([undoGetSegment],
    [setParent], [AddElement]). *)
Definition add_elem (t : SegType) (i : nat) (e : Elem) (st : HState) : HState :=
  let '(st', d) := undoGetSegment t st in set_elem d i (Some e) st'.

(** Lines 1281-1303: a courtesy key signature in the previous measure
    replaces a C major one. *)
Definition courtesy (i : nat) (keyIdx : KeySigEvent) (ks : option (nat * KeySig)) (need : bool)
  (st : HState) : HState * option (nat * KeySig) * bool :=
  if need && Z.eqb (key keyIdx) Key_C then
    match prev st with
    | Some pm =>
        if hasCourtesyKeySig pm then
          match announce pm with
          | Some ann =>
              match nth i ann None with
              | Some ka =>
                  match ks with
                  | Some (d, k) =>
                      let k' := set_ks_generated true k in
                      let pm' := mkPrev (hasCourtesyKeySig pm)
                                        (Some (set_nth i (Some (set_ks_generated false ka)) ann)) in
                      (mkHState (upd_seg d (set_slot i (Some (EKeySig k'))) (segs st)) (fresh st)
                                (Some pm') (hasSystemHeader st), Some (d, k'), false)
                  | None => (st, None, false)
                  end
              | None => (st, ks, need)
              end
          | None => (st, ks, need)
          end
        else (st, ks, need)
    | None => (st, ks, need)
    end
  else (st, ks, need).

(** Lines 1305-1306: [needKeysig] after the courtesy test; a key
    signature the user changed is kept. *)
Definition need_keysig (keyIdx : KeySigEvent) (ks : option (nat * KeySig)) (need : bool) : bool :=
  let need := need && (negb (Z.eqb (key keyIdx) Key_C) || custom keyIdx || isAtonal keyIdx) in
  need || match ks with Some (_, k) => negb (ks_generated k) | None => false end.

(** Lines 1308-1331: create, update or remove the key signature. *)
Definition key_part (i : nat) (keyIdx : KeySigEvent) (ks : option (nat * KeySig)) (need : bool)
  (st : HState) : HState :=
  if need_keysig keyIdx ks need then
    match ks with
    | None => add_elem SKeySig i (EKeySig (mkKeySig keyIdx true true)) st
    | Some (d, k) =>
        if KeySigEvent_eqb (keySigEvent k) keyIdx then st
        else set_elem d i (Some (EKeySig (mkKeySig keyIdx (ks_generated k) (showCourtesy k)))) st
    end
  else match ks with Some (d, _) => set_elem d i None st | None => st end.

(** [showClef], line 1334. *)
Definition showClef (staff : StaffD) : bool := genClefST staff && (isFirstSystem || genClef sty).

(** Lines 1333-1367: create, change or remove the clef. *)
Definition clef_part (i : nat) (staff : StaffD) (cl : option (nat * Clef)) (st : HState) : HState :=
  if showClef staff then
    match cl with
    | None => add_elem SClef i (EClef (mkClef (clefTypeAt staff) false true)) st
    | Some (d, c) =>
        if ClefTypeList_eqb (clefTypeAt staff) (clefTypeList c) then st
        else set_elem d i (Some (EClef (mkClef (clefTypeAt staff) (small c) (cl_generated c)))) st
    end
  else match cl with Some (d, _) => set_elem d i None st | None => st end.

(** The loop body for staff [i] (lines 1241-1369). *)
Definition staff_step (i : nat) (staff : StaffD) (st : HState) : HState :=
  if negb (nth i sysShow false) then st
  else
    let '(ss, ks, cl) := scan i (segs st) None None in
    let keyIdx := keySigAt staff in
    let '(st1, ks1, need) := courtesy i keyIdx ks (isFirstSystem || genKeysig sty) (with_segs st ss) in
    clef_part i staff cl (key_part i keyIdx ks1 need st1).

Fixpoint header_staves (i : nat) (l : list StaffD) (st : HState) : HState :=
  match l with
  | [] => st
  | staff :: rest => header_staves (S i) rest (staff_step i staff st)
  end.

(** Lines 1377-1380: the begin bar line, element 0 of the
    [BeginBarLine] segment. *)
Definition begin_barline (ss : list Seg) : option (nat * BarLine) :=
  match find_seg SBeginBarLine ss with
  | Some s => match nth 0 (elems s) None with Some (EBarLine b) => Some (sid s, b) | _ => None end
  | None => None
  end.

(** The style test of lines 1382-1383. *)
Definition wants_barline : bool :=
  (Nat.ltb 1 nstaves && startBarlineMultiple sty) || (Nat.eqb nstaves 1 && startBarlineSingle sty).

(** Lines 1383-1398: create the bar line or set its span, or remove it. *)
Definition barline_part (st : HState) : HState :=
  let n := nstaves in
  if wants_barline then
    match begin_barline (segs st) with
    | None => add_elem SBeginBarLine 0 (EBarLine (mkBarLine (Z.of_nat n) true)) st
    | Some (d, b) => set_elem d 0 (Some (EBarLine (mkBarLine (Z.of_nat n) (bl_generated b)))) st
    end
  else match begin_barline (segs st) with Some (d, _) => set_elem d 0 None st | None => st end.

(** ** Well-formed segment lists *)

(** A key signature or a clef sits in a segment of its own type (bar
    lines sit in the begin and start-repeat bar line segments). *)
Definition fits (t : SegType) (e : option Elem) : Prop :=
  match e with
  | Some (EKeySig _) => t = SKeySig
  | Some (EClef _) => t = SClef
  | _ => True
  end.

Definition rank_lt (a b : Seg) : Prop := rank (stype a) < rank (stype b).

(** The segments of [m] at its tick: ordered by type, one per type,
    distinct identities below [fresh], one slot per staff, each element
    in a segment of its type. *)
Record wf (n fr : nat) (ss : list Seg) : Prop := {
  wf_sorted : Sorted rank_lt ss;
  wf_ids : NoDup (map sid ss);
  wf_fresh : Forall (fun s => sid s < fr) ss;
  wf_len : Forall (fun s => length (elems s) = n) ss;
  wf_typed : Forall (fun s => Forall (fits (stype s)) (elems s)) ss }.

(** The key signature and the clef of staff [i] in the header: the
    element of the staff in the segment of the type. *)
Definition ks_in (i : nat) (ss : list Seg) : option (nat * KeySig) :=
  match find_seg SKeySig ss with
  | Some s => match nth i (elems s) None with Some (EKeySig k) => Some (sid s, k) | _ => None end
  | None => None
  end.

Definition clef_in (i : nat) (ss : list Seg) : option (nat * Clef) :=
  match find_seg SClef ss with
  | Some s => match nth i (elems s) None with Some (EClef c) => Some (sid s, c) | _ => None end
  | None => None
  end.

Lemma rank_inj a b : rank a = rank b -> a = b.
Proof. destruct a, b; simpl; congruence. Qed.

Lemma SegType_eqb_spec a b : reflect (a = b) (SegType_eqb a b).
Proof.
  unfold SegType_eqb. destruct (Nat.eqb_spec (rank a) (rank b)) as [H|H]; constructor.
  - apply rank_inj, H.
  - intros ->. apply H; reflexivity.
Qed.

Lemma find_seg_in t ss s : find_seg t ss = Some s -> In s ss /\ stype s = t.
Proof.
  induction ss as [|s' rest IH]; simpl; [discriminate|].
  destruct (SegType_eqb_spec (stype s') t); intros H; [injection H as <-; auto|].
  destruct (IH H); auto.
Qed.

(** No segment of a type ranked at most [rank t] follows [s]. *)
Lemma find_seg_after t s rest :
  Sorted rank_lt (s :: rest) -> rank t <= rank (stype s) -> find_seg t rest = None.
Proof.
  intros Hs Ht. apply Sorted_StronglySorted in Hs; [|intros a b c; unfold rank_lt; lia].
  inversion Hs as [|? ? _ Hf]; subst. induction rest as [|s' rest' IH]; simpl; [reflexivity|].
  inversion Hf as [|? ? Hs' Hf']; subst. unfold rank_lt in Hs'.
  destruct (SegType_eqb_spec (stype s') t) as [<-|]; [lia|].
  apply IH; [inversion Hs; subst; inversion H1; subst; constructor; auto|auto].
Qed.

Lemma find_seg_upd t d f ss :
  (forall s, stype (f s) = stype s) ->
  find_seg t (upd_seg d f ss) = option_map (fun s => if Nat.eqb (sid s) d then f s else s) (find_seg t ss).
Proof.
  intros Hf. induction ss as [|s rest IH]; simpl; [reflexivity|].
  destruct (Nat.eqb (sid s) d) eqn:E; rewrite ?Hf; destruct (SegType_eqb (stype s) t); simpl; rewrite ?E; auto.
Qed.

Lemma find_seg_insert_other t s ss :
  stype s <> t -> find_seg t (insert_seg s ss) = find_seg t ss.
Proof.
  intros Ht. induction ss as [|s' rest IH]; simpl.
  - destruct (SegType_eqb_spec (stype s) t); congruence.
  - destruct (Nat.ltb _ _); simpl; [destruct (SegType_eqb_spec (stype s) t); [congruence|]|];
      destruct (SegType_eqb (stype s') t); auto.
Qed.

Lemma find_seg_insert_same s ss :
  find_seg (stype s) ss = None -> find_seg (stype s) (insert_seg s ss) = Some s.
Proof.
  induction ss as [|s' rest IH]; simpl.
  - destruct (SegType_eqb_spec (stype s) (stype s)); congruence.
  - destruct (SegType_eqb (stype s') (stype s)) eqn:E; [discriminate|]. intros H.
    destruct (Nat.ltb _ _); simpl; rewrite ?E; auto.
    destruct (SegType_eqb_spec (stype s) (stype s)); congruence.
Qed.

Lemma upd_seg_notin d f ss : ~ In d (map sid ss) -> upd_seg d f ss = ss.
Proof.
  induction ss as [|s rest IH]; simpl; intros H; [reflexivity|].
  destruct (Nat.eqb_spec (sid s) d); [tauto|]. f_equal. auto.
Qed.

Lemma fits_nth t l i : Forall (fits t) l -> fits t (nth i l None).
Proof.
  intros H. destruct (Nat.lt_ge_cases i (length l)).
  - rewrite Forall_forall in H. apply H, nth_In; assumption.
  - rewrite nth_overflow by assumption. exact I.
Qed.

Lemma find_seg_sid t ss s : find_seg t ss = Some s -> In (sid s) (map sid ss).
Proof. intros H. apply in_map, (find_seg_in t), H. Qed.

Lemma ks_in_in i ss d k : ks_in i ss = Some (d, k) -> In d (map sid ss).
Proof.
  unfold ks_in. destruct (find_seg SKeySig ss) as [s|] eqn:E; [|discriminate].
  destruct (nth i (elems s) None) as [[]|]; try discriminate. intros H; injection H as <- _.
  exact (find_seg_sid _ _ _ E).
Qed.

Lemma clef_in_in i ss d c : clef_in i ss = Some (d, c) -> In d (map sid ss).
Proof.
  unfold clef_in. destruct (find_seg SClef ss) as [s|] eqn:E; [|discriminate].
  destruct (nth i (elems s) None) as [[]|]; try discriminate. intros H; injection H as <- _.
  exact (find_seg_sid _ _ _ E).
Qed.

(** A segment that holds no key signature (clef) of staff [i] does not
    change what the header holds for [i]. *)
Lemma ks_in_cons_other i s rest :
  Sorted rank_lt (s :: rest) -> (forall k, nth i (elems s) None <> Some (EKeySig k)) ->
  ks_in i (s :: rest) = ks_in i rest.
Proof.
  intros Hs Hk. unfold ks_in at 1. simpl. destruct (SegType_eqb_spec (stype s) SKeySig) as [E|]; [|reflexivity].
  unfold ks_in. rewrite (find_seg_after SKeySig s rest Hs) by (rewrite E; reflexivity).
  destruct (nth i (elems s) None) as [[]|]; auto. exfalso; eapply Hk; reflexivity.
Qed.

Lemma clef_in_cons_other i s rest :
  Sorted rank_lt (s :: rest) -> (forall c, nth i (elems s) None <> Some (EClef c)) ->
  clef_in i (s :: rest) = clef_in i rest.
Proof.
  intros Hs Hc. unfold clef_in at 1. simpl. destruct (SegType_eqb_spec (stype s) SClef) as [E|]; [|reflexivity].
  unfold clef_in. rewrite (find_seg_after SClef s rest Hs) by (rewrite E; reflexivity).
  destruct (nth i (elems s) None) as [[]|]; auto. exfalso; eapply Hc; reflexivity.
Qed.

Lemma ks_in_stop i s rest : Sorted rank_lt (s :: rest) -> is_stop (stype s) = true -> ks_in i (s :: rest) = None.
Proof.
  intros Hs Hst. unfold ks_in. simpl. destruct (stype s) eqn:E; try discriminate; simpl;
    rewrite (find_seg_after SKeySig s rest Hs) by (rewrite E; simpl; lia); reflexivity.
Qed.

Lemma clef_in_stop i s rest : Sorted rank_lt (s :: rest) -> is_stop (stype s) = true -> clef_in i (s :: rest) = None.
Proof.
  intros Hs Hst. unfold clef_in. simpl. destruct (stype s) eqn:E; try discriminate; simpl;
    rewrite (find_seg_after SClef s rest Hs) by (rewrite E; simpl; lia); reflexivity.
Qed.

Lemma upd_seg_cons_ne d f s rest : sid s <> d -> upd_seg d f (s :: rest) = s :: upd_seg d f rest.
Proof. intros H. simpl. destruct (Nat.eqb_spec (sid s) d); [congruence|reflexivity]. Qed.

Lemma upd_seg_cons_eq f s rest : upd_seg (sid s) f (s :: rest) = f s :: upd_seg (sid s) f rest.
Proof. simpl. rewrite Nat.eqb_refl. reflexivity. Qed.

(** The segments after the scan of staff [i]: the clef it found made
    normal-sized. *)
Definition scan_segs (i : nat) (ss : list Seg) : list Seg :=
  match clef_in i ss with
  | Some (d, c) => upd_seg d (set_slot i (Some (EClef (set_small false c)))) ss
  | None => ss
  end.

(** On a well-formed header, the scan finds the element of staff [i] in
    the key signature segment and in the clef segment. *)
Lemma scan_eq i ss ks cl :
  Sorted rank_lt ss -> NoDup (map sid ss) -> Forall (fun s => Forall (fits (stype s)) (elems s)) ss ->
  scan i ss ks cl = (scan_segs i ss, match ks_in i ss with Some x => Some x | None => ks end,
                     match clef_in i ss with Some (d, c) => Some (d, set_small false c) | None => cl end).
Proof.
  revert ks cl. induction ss as [|s rest IH]; intros ks cl Hs Hn Ht; [reflexivity|].
  pose proof (Sorted_inv Hs) as [Hs' _]. inversion Hn as [|? ? Hnin Hn']; subst.
  inversion Ht as [|? ? Hts Ht']; subst.
  simpl scan. destruct (is_stop (stype s)) eqn:Est.
  { unfold scan_segs. rewrite ks_in_stop, clef_in_stop by assumption. reflexivity. }
  pose proof (fits_nth _ _ i Hts) as Hf.
  destruct (nth i (elems s) None) as [[k|c|b|]|] eqn:He; simpl in Hf; rewrite IH by assumption.
  { assert (Hk : ks_in i (s :: rest) = Some (sid s, k))
      by (unfold ks_in; simpl; rewrite Hf; simpl; rewrite He; reflexivity).
    assert (Hk' : ks_in i rest = None)
      by (unfold ks_in; rewrite (find_seg_after SKeySig s rest Hs) by (rewrite Hf; reflexivity); reflexivity).
    unfold scan_segs. rewrite Hk, Hk', (clef_in_cons_other i s rest Hs) by (intros c; rewrite He; discriminate).
    destruct (clef_in i rest) as [[d c]|] eqn:Ec; [|reflexivity].
    rewrite upd_seg_cons_ne; [reflexivity|]. intros <-. exact (Hnin (clef_in_in _ _ _ _ Ec)). }
  { assert (Hc : clef_in i (s :: rest) = Some (sid s, c))
      by (unfold clef_in; simpl; rewrite Hf; simpl; rewrite He; reflexivity).
    assert (Hc' : clef_in i rest = None)
      by (unfold clef_in; rewrite (find_seg_after SClef s rest Hs) by (rewrite Hf; reflexivity); reflexivity).
    unfold scan_segs. rewrite Hc, Hc', (ks_in_cons_other i s rest Hs) by (intros k; rewrite He; discriminate).
    rewrite upd_seg_cons_eq, upd_seg_notin by assumption. reflexivity. }
  all: unfold scan_segs; rewrite (ks_in_cons_other i s rest Hs), (clef_in_cons_other i s rest Hs)
         by (intros ?; rewrite He; discriminate);
       destruct (clef_in i rest) as [[d c]|] eqn:Ec; try reflexivity;
       rewrite upd_seg_cons_ne; [reflexivity|]; intros <-; exact (Hnin (clef_in_in _ _ _ _ Ec)).
Qed.

(** ** What a change does to the header of a staff *)

Lemma find_seg_upd_slot t d i e ss :
  find_seg t (upd_seg d (set_slot i e) ss)
  = option_map (fun s => if Nat.eqb (sid s) d then set_slot i e s else s) (find_seg t ss).
Proof. apply find_seg_upd. reflexivity. Qed.

(** Setting the slot of staff [i] leaves the header of every other staff. *)
Lemma ks_in_upd_other j d i e ss : i <> j -> ks_in j (upd_seg d (set_slot i e) ss) = ks_in j ss.
Proof.
  intros Hij. unfold ks_in. rewrite find_seg_upd_slot. destruct (find_seg SKeySig ss) as [s|]; simpl; [|reflexivity].
  destruct (Nat.eqb (sid s) d); simpl; [rewrite nth_set_nth_ne by exact Hij|]; reflexivity.
Qed.

Lemma clef_in_upd_other j d i e ss : i <> j -> clef_in j (upd_seg d (set_slot i e) ss) = clef_in j ss.
Proof.
  intros Hij. unfold clef_in. rewrite find_seg_upd_slot. destruct (find_seg SClef ss) as [s|]; simpl; [|reflexivity].
  destruct (Nat.eqb (sid s) d); simpl; [rewrite nth_set_nth_ne by exact Hij|]; reflexivity.
Qed.

(** A new segment with no element for staff [j] leaves its header. *)
Lemma ks_in_insert j s ss :
  find_seg (stype s) ss = None -> nth j (elems s) None = None -> ks_in j (insert_seg s ss) = ks_in j ss.
Proof.
  intros Hf Hj. unfold ks_in. destruct (SegType_eqb_spec (stype s) SKeySig) as [E|E].
  - rewrite <- E, (find_seg_insert_same s ss Hf), Hf, Hj. reflexivity.
  - rewrite find_seg_insert_other by exact E. reflexivity.
Qed.

Lemma clef_in_insert j s ss :
  find_seg (stype s) ss = None -> nth j (elems s) None = None -> clef_in j (insert_seg s ss) = clef_in j ss.
Proof.
  intros Hf Hj. unfold clef_in. destruct (SegType_eqb_spec (stype s) SClef) as [E|E].
  - rewrite <- E, (find_seg_insert_same s ss Hf), Hf, Hj. reflexivity.
  - rewrite find_seg_insert_other by exact E. reflexivity.
Qed.

Lemma nth_repeat_None {A} j n : nth j (repeat (@None A) n) None = None.
Proof. revert j; induction n; intros [|j]; simpl; auto. Qed.

(** ** Preservation of well-formedness *)

Lemma sid_unique a b ss : NoDup (map sid ss) -> In a ss -> In b ss -> sid a = sid b -> a = b.
Proof.
  induction ss as [|s rest IH]; simpl; [tauto|]. intros Hn Ha Hb E. inversion Hn; subst.
  destruct Ha as [<-|Ha], Hb as [<-|Hb]; auto.
  - exfalso. apply H1. rewrite E. apply in_map, Hb.
  - exfalso. apply H1. rewrite <- E. apply in_map, Ha.
Qed.

Lemma Sorted_map_rank (g : Seg -> Seg) ss :
  (forall s, stype (g s) = stype s) -> Sorted rank_lt ss -> Sorted rank_lt (map g ss).
Proof.
  intros Hg Hs. induction Hs as [|s rest Hs IH Hd]; simpl; constructor; auto.
  destruct Hd; simpl; constructor. unfold rank_lt in *. rewrite !Hg. assumption.
Qed.

Lemma map_sid_upd d f ss : (forall s, sid (f s) = sid s) -> map sid (upd_seg d f ss) = map sid ss.
Proof.
  intros Hf. unfold upd_seg. rewrite map_map. apply map_ext. intros s. destruct (Nat.eqb (sid s) d); auto.
Qed.

Lemma Forall_upd_seg (P : Seg -> Prop) d f ss :
  Forall P ss -> (forall s, In s ss -> sid s = d -> P (f s)) -> Forall P (upd_seg d f ss).
Proof.
  intros H Hf. unfold upd_seg. apply Forall_map. rewrite Forall_forall in H |- *. intros s Hs.
  destruct (Nat.eqb_spec (sid s) d); auto.
Qed.

Lemma Forall_set_nth {A} (P : A -> Prop) i x l : Forall P l -> P x -> Forall P (set_nth i x l).
Proof. revert i; induction l as [|a l IH]; intros [|i] H Hx; simpl; inversion H; subst; auto. Qed.

(** Setting a slot to an element that fits the segment keeps the header
    well-formed. *)
Lemma wf_upd n fr d i e ss :
  wf n fr ss -> (forall s, In s ss -> sid s = d -> fits (stype s) e) -> wf n fr (upd_seg d (set_slot i e) ss).
Proof.
  intros [Hs Hn Hf Hl Ht] He. constructor.
  - apply Sorted_map_rank; [intros s; destruct (Nat.eqb (sid s) d); reflexivity|exact Hs].
  - rewrite map_sid_upd by reflexivity. exact Hn.
  - apply Forall_upd_seg; [exact Hf|]. intros s Hi _. rewrite Forall_forall in Hf. exact (Hf s Hi).
  - apply Forall_upd_seg; [exact Hl|]. intros s Hi _. simpl. rewrite length_set_nth.
    rewrite Forall_forall in Hl. exact (Hl s Hi).
  - apply Forall_upd_seg; [exact Ht|]. intros s Hi Hd. simpl. apply Forall_set_nth; [|exact (He s Hi Hd)].
    rewrite Forall_forall in Ht. exact (Ht s Hi).
Qed.

Lemma find_seg_none t ss s : find_seg t ss = None -> In s ss -> stype s <> t.
Proof.
  induction ss as [|s' rest IH]; simpl; [tauto|].
  destruct (SegType_eqb_spec (stype s') t); [discriminate|]. intros H [<-|Hi]; auto.
Qed.

Lemma HdRel_insert x s ss : HdRel rank_lt x ss -> rank_lt x s -> HdRel rank_lt x (insert_seg s ss).
Proof. intros H Hx. destruct ss as [|s' rest]; simpl; [constructor; auto|]. destruct (Nat.ltb _ _); constructor; auto. inversion H; auto. Qed.

Lemma insert_seg_sorted s ss :
  Sorted rank_lt ss -> (forall s', In s' ss -> stype s' <> stype s) -> Sorted rank_lt (insert_seg s ss).
Proof.
  induction ss as [|s' rest IH]; simpl; intros Hs Hne; [repeat constructor|].
  destruct (Nat.ltb_spec (rank (stype s)) (rank (stype s'))) as [Hlt|Hge].
  - constructor; [exact Hs|constructor; exact Hlt].
  - inversion Hs as [|? ? Hs' Hd]; subst. constructor.
    + apply IH; auto.
    + apply HdRel_insert; [exact Hd|]. unfold rank_lt.
      assert (rank (stype s') <> rank (stype s)) by (intros E; apply (Hne s'); [left; reflexivity|apply rank_inj, E]).
      lia.
Qed.

Lemma Forall_insert_seg (P : Seg -> Prop) s ss : P s -> Forall P ss -> Forall P (insert_seg s ss).
Proof.
  intros Hs H. induction H as [|s' rest Hs' H IH]; simpl; [auto|]. destruct (Nat.ltb _ _); auto.
Qed.

Lemma map_sid_insert s ss : Permutation (map sid (insert_seg s ss)) (sid s :: map sid ss).
Proof.
  induction ss as [|s' rest IH]; simpl; [auto|]. destruct (Nat.ltb _ _); simpl; [auto|].
  rewrite IH. apply perm_swap.
Qed.

(** A new segment of a type the header lacks, with identity [fr] and an
    empty slot per staff, keeps it well-formed. *)
Lemma wf_insert n fr t ss :
  wf n fr ss -> find_seg t ss = None -> wf n (S fr) (insert_seg (mkSeg fr t (repeat None n)) ss).
Proof.
  intros [Hs Hn Hf Hl Ht] Hnone. constructor.
  - apply insert_seg_sorted; [exact Hs|]. intros s' Hi. exact (find_seg_none _ _ _ Hnone Hi).
  - eapply Permutation_NoDup; [symmetry; apply map_sid_insert|]. constructor; [|exact Hn].
    simpl. intros Hi. apply in_map_iff in Hi as (s' & E & Hi). rewrite Forall_forall in Hf.
    specialize (Hf s' Hi). lia.
  - apply Forall_insert_seg; [simpl; lia|]. eapply Forall_impl; [|exact Hf]. intros s' H; simpl in *; lia.
  - apply Forall_insert_seg; [simpl; apply repeat_length|exact Hl].
  - apply Forall_insert_seg; [|exact Ht]. simpl. apply Forall_forall. intros x Hx.
    apply repeat_spec in Hx. subst. exact I.
Qed.

(** The segment of type [t] that [undoGetSegment] returns. *)
Definition base (t : SegType) (st : HState) : Seg :=
  match find_seg t (segs st) with Some s => s | None => mkSeg (fresh st) t (repeat None nstaves) end.

Lemma sid_ne_other t t' ss s s' :
  NoDup (map sid ss) -> find_seg t ss = Some s -> find_seg t' ss = Some s' -> t' <> t -> sid s' <> sid s.
Proof.
  intros Hn H H' Ht E. apply find_seg_in in H as [Hi <-]. apply find_seg_in in H' as [Hi' <-].
  apply Ht. rewrite (sid_unique s' s ss Hn Hi' Hi E). reflexivity.
Qed.

Lemma fresh_ne t ss s fr : Forall (fun s => sid s < fr) ss -> find_seg t ss = Some s -> sid s <> fr.
Proof.
  intros Hf H. apply find_seg_in in H as [Hi _]. rewrite Forall_forall in Hf. specialize (Hf s Hi). lia.
Qed.

(** [add_elem] puts the element in the segment of its type and leaves
    the segments of the other types. *)
Lemma add_elem_find t i e st t' :
  wf nstaves (fresh st) (segs st) ->
  find_seg t' (segs (add_elem t i e st))
  = if SegType_eqb t' t then Some (set_slot i (Some e) (base t st)) else find_seg t' (segs st).
Proof.
  intros Hw. unfold add_elem, undoGetSegment, base, set_elem. destruct (find_seg t (segs st)) as [s|] eqn:Ef; simpl.
  - rewrite find_seg_upd_slot. destruct (SegType_eqb_spec t' t) as [->|Hne].
    + rewrite Ef. simpl. rewrite Nat.eqb_refl. reflexivity.
    + destruct (find_seg t' (segs st)) as [s'|] eqn:Ef'; simpl; [|reflexivity].
      destruct (Nat.eqb_spec (sid s') (sid s)); [|reflexivity].
      exfalso. exact (sid_ne_other t t' _ s s' (wf_ids _ _ _ Hw) Ef Ef' Hne e0).
  - rewrite find_seg_upd_slot. destruct (SegType_eqb_spec t' t) as [->|Hne].
    + rewrite (find_seg_insert_same (mkSeg (fresh st) t (repeat None nstaves))) by exact Ef.
      simpl. rewrite Nat.eqb_refl. reflexivity.
    + rewrite find_seg_insert_other by (simpl; congruence).
      destruct (find_seg t' (segs st)) as [s'|] eqn:Ef'; simpl; [|reflexivity].
      rewrite (proj2 (Nat.eqb_neq _ _) (fresh_ne _ _ _ _ (wf_fresh _ _ _ Hw) Ef')). reflexivity.
Qed.

(** A change to the segment of type [t] found in the header. *)
Lemma find_seg_upd_at t t' ss s f :
  NoDup (map sid ss) -> find_seg t ss = Some s -> (forall x, stype (f x) = stype x) ->
  find_seg t' (upd_seg (sid s) f ss) = if SegType_eqb t' t then Some (f s) else find_seg t' ss.
Proof.
  intros Hn Ef Hf. rewrite find_seg_upd by exact Hf. destruct (SegType_eqb_spec t' t) as [->|Hne].
  - rewrite Ef. simpl. rewrite Nat.eqb_refl. reflexivity.
  - destruct (find_seg t' ss) as [s'|] eqn:Ef'; simpl; [|reflexivity].
    destruct (Nat.eqb_spec (sid s') (sid s)) as [E|]; [|reflexivity].
    exfalso. exact (sid_ne_other t t' _ s s' Hn Ef Ef' Hne E).
Qed.

Lemma nth_elems_set n fr ss s t i x :
  wf n fr ss -> find_seg t ss = Some s -> i < n -> nth i (elems (set_slot i x s)) None = x.
Proof.
  intros Hw Ef Hi. apply find_seg_in in Ef as [Hin _]. simpl. apply nth_set_nth_eq.
  pose proof (wf_len _ _ _ Hw) as Hl. rewrite Forall_forall in Hl. rewrite (Hl s Hin). exact Hi.
Qed.

Lemma ks_in_set_key n fr ss s i x :
  wf n fr ss -> find_seg SKeySig ss = Some s -> i < n ->
  ks_in i (upd_seg (sid s) (set_slot i x) ss) = match x with Some (EKeySig k) => Some (sid s, k) | _ => None end.
Proof.
  intros Hw Ef Hi. unfold ks_in. rewrite (find_seg_upd_at SKeySig) by (try apply (wf_ids _ _ _ Hw); auto).
  cbv [SegType_eqb rank Nat.eqb]. rewrite (nth_elems_set n fr ss s SKeySig i x Hw Ef Hi). reflexivity.
Qed.

Lemma clef_in_set_clef n fr ss s i x :
  wf n fr ss -> find_seg SClef ss = Some s -> i < n ->
  clef_in i (upd_seg (sid s) (set_slot i x) ss) = match x with Some (EClef c) => Some (sid s, c) | _ => None end.
Proof.
  intros Hw Ef Hi. unfold clef_in. rewrite (find_seg_upd_at SClef) by (try apply (wf_ids _ _ _ Hw); auto).
  cbv [SegType_eqb rank Nat.eqb]. rewrite (nth_elems_set n fr ss s SClef i x Hw Ef Hi). reflexivity.
Qed.

Lemma ks_in_set_clef n fr ss s i f :
  wf n fr ss -> find_seg SClef ss = Some s -> (forall x, stype (f x) = stype x) ->
  ks_in i (upd_seg (sid s) f ss) = ks_in i ss.
Proof.
  intros Hw Ef Hf. unfold ks_in. rewrite (find_seg_upd_at SClef) by (try apply (wf_ids _ _ _ Hw); auto).
  reflexivity.
Qed.

Lemma clef_in_set_key n fr ss s i f :
  wf n fr ss -> find_seg SKeySig ss = Some s -> (forall x, stype (f x) = stype x) ->
  clef_in i (upd_seg (sid s) f ss) = clef_in i ss.
Proof.
  intros Hw Ef Hf. unfold clef_in. rewrite (find_seg_upd_at SKeySig) by (try apply (wf_ids _ _ _ Hw); auto).
  reflexivity.
Qed.

(** The segment a found key signature or clef sits in. *)
Lemma ks_in_seg i ss d k :
  ks_in i ss = Some (d, k) -> exists s, find_seg SKeySig ss = Some s /\ sid s = d /\ nth i (elems s) None = Some (EKeySig k).
Proof.
  unfold ks_in. destruct (find_seg SKeySig ss) as [s|]; [|discriminate].
  destruct (nth i (elems s) None) as [[]|] eqn:E; try discriminate. intros H; injection H as <- <-. eauto.
Qed.

Lemma clef_in_seg i ss d c :
  clef_in i ss = Some (d, c) -> exists s, find_seg SClef ss = Some s /\ sid s = d /\ nth i (elems s) None = Some (EClef c).
Proof.
  unfold clef_in. destruct (find_seg SClef ss) as [s|]; [|discriminate].
  destruct (nth i (elems s) None) as [[]|] eqn:E; try discriminate. intros H; injection H as <- <-. eauto.
Qed.

(** Only the segment found for type [t] has its identity. *)
Lemma wf_upd_found n fr ss s t i e :
  wf n fr ss -> find_seg t ss = Some s -> fits t e -> wf n fr (upd_seg (sid s) (set_slot i e) ss).
Proof.
  intros Hw Ef He. apply wf_upd; [exact Hw|]. intros s' Hi E.
  apply find_seg_in in Ef as [Hin <-]. rewrite (sid_unique s' s _ (wf_ids _ _ _ Hw) Hi Hin E). exact He.
Qed.

Lemma in_insert_seg x s ss : In x (insert_seg s ss) -> x = s \/ In x ss.
Proof.
  induction ss as [|s' rest IH]; simpl; [intros [<-|[]]; auto|].
  destruct (Nat.ltb _ _); simpl; intros [<-|Hi]; auto. destruct (IH Hi); auto.
Qed.

Lemma wf_add_elem t i e st :
  wf nstaves (fresh st) (segs st) -> fits t (Some e) ->
  wf nstaves (fresh (add_elem t i e st)) (segs (add_elem t i e st)).
Proof.
  intros Hw He. unfold add_elem, undoGetSegment, set_elem. destruct (find_seg t (segs st)) as [s|] eqn:Ef; simpl.
  - exact (wf_upd_found _ _ _ _ _ _ _ Hw Ef He).
  - apply wf_upd; [apply wf_insert; assumption|]. intros s' Hi E.
    destruct (in_insert_seg _ _ _ Hi) as [->|Hin]; [exact He|].
    pose proof (wf_fresh _ _ _ Hw) as Hf. rewrite Forall_forall in Hf. specialize (Hf s' Hin). lia.
Qed.

Lemma length_base t st :
  wf nstaves (fresh st) (segs st) -> length (elems (base t st)) = nstaves.
Proof.
  intros Hw. unfold base. destruct (find_seg t (segs st)) as [s|] eqn:Ef; [|apply repeat_length].
  apply find_seg_in in Ef as [Hin _]. pose proof (wf_len _ _ _ Hw) as Hl. rewrite Forall_forall in Hl. exact (Hl s Hin).
Qed.

Create HintDb header.

(** The header of every staff but [i] is the same in [ss] and [ss']. *)
Definition others_same (i : nat) (ss ss' : list Seg) : Prop :=
  forall j, j <> i -> ks_in j ss' = ks_in j ss /\ clef_in j ss' = clef_in j ss.

Lemma others_same_refl i ss : others_same i ss ss.
Proof. intros j _. split; reflexivity. Qed.

Lemma others_same_trans i a b c : others_same i a b -> others_same i b c -> others_same i a c.
Proof. intros H1 H2 j Hj. destruct (H1 j Hj), (H2 j Hj). split; congruence. Qed.

Lemma others_same_upd i d e ss : others_same i ss (upd_seg d (set_slot i e) ss).
Proof. intros j Hj. split; [apply ks_in_upd_other|apply clef_in_upd_other]; congruence. Qed.

Lemma others_same_add t i e st :
  wf nstaves (fresh st) (segs st) -> others_same i (segs st) (segs (add_elem t i e st)).
Proof.
  intros Hw j Hj. unfold ks_in, clef_in. rewrite !add_elem_find by exact Hw. unfold base.
  split; [destruct (SegType_eqb_spec SKeySig t) as [<-|]|destruct (SegType_eqb_spec SClef t) as [<-|]];
    try reflexivity; destruct (find_seg _ (segs st)) as [s|]; simpl;
    rewrite nth_set_nth_ne by congruence; rewrite ?nth_repeat_None; reflexivity.
Qed.

#[local] Hint Resolve others_same_refl others_same_upd others_same_add : header.

(** What [add_elem] leaves as the header of staff [i]. *)
Lemma ks_in_add_key i k st :
  wf nstaves (fresh st) (segs st) -> i < nstaves ->
  exists d, ks_in i (segs (add_elem SKeySig i (EKeySig k) st)) = Some (d, k).
Proof.
  intros Hw Hi. unfold ks_in. rewrite add_elem_find by exact Hw. simpl.
  rewrite nth_set_nth_eq by (rewrite length_base by exact Hw; exact Hi). eauto.
Qed.

Lemma clef_in_add_key i k st :
  wf nstaves (fresh st) (segs st) -> clef_in i (segs (add_elem SKeySig i (EKeySig k) st)) = clef_in i (segs st).
Proof. intros Hw. unfold clef_in. rewrite add_elem_find by exact Hw. reflexivity. Qed.

Lemma clef_in_add_clef i c st :
  wf nstaves (fresh st) (segs st) -> i < nstaves ->
  exists d, clef_in i (segs (add_elem SClef i (EClef c) st)) = Some (d, c).
Proof.
  intros Hw Hi. unfold clef_in. rewrite add_elem_find by exact Hw. simpl.
  rewrite nth_set_nth_eq by (rewrite length_base by exact Hw; exact Hi). eauto.
Qed.

(** ** The scan *)

Definition clef_small (i : nat) (ss : list Seg) : option (nat * Clef) :=
  match clef_in i ss with Some (d, c) => Some (d, set_small false c) | None => None end.


Lemma scan_step i st :
  wf nstaves (fresh st) (segs st) -> i < nstaves ->
  wf nstaves (fresh st) (scan_segs i (segs st)) /\ ks_in i (scan_segs i (segs st)) = ks_in i (segs st)
  /\ clef_in i (scan_segs i (segs st)) = clef_small i (segs st) /\ others_same i (segs st) (scan_segs i (segs st)).
Proof.
  intros Hw Hi. unfold scan_segs, clef_small. destruct (clef_in i (segs st)) as [[d c]|] eqn:Ec;
    [|refine (conj _ (conj _ (conj _ _))); auto with header].
  destruct (clef_in_seg _ _ _ _ Ec) as (s & Ef & <- & _). refine (conj _ (conj _ (conj _ _))); auto with header.
  - eapply (wf_upd_found _ _ _ _ SClef); [exact Hw|exact Ef|reflexivity].
  - eapply (ks_in_set_clef _ _ _ _ i _ Hw Ef). reflexivity.
  - rewrite (clef_in_set_clef _ _ _ _ _ _ Hw Ef Hi). reflexivity.
Qed.

(** ** The courtesy key signature *)

(** The previous measure announces a key signature on staff [i]. *)
Definition announces (i : nat) (p : option Prev) : bool :=
  match p with
  | Some pm =>
      hasCourtesyKeySig pm
      && match announce pm with
         | Some ann => match nth i ann None with Some _ => true | None => false end
         | None => false
         end
  | None => false
  end.

(** The test of lines 1288-1294. *)
Definition courtesy_fires (i : nat) (keyIdx : KeySigEvent) (need : bool) (st : HState) : bool :=
  need && Z.eqb (key keyIdx) Key_C && announces i (prev st).

(** [ksAnnounce->setGenerated(false)]. *)
Definition take_announce (i : nat) (p : option Prev) : option Prev :=
  match p with
  | Some pm =>
      Some (mkPrev (hasCourtesyKeySig pm)
              match announce pm with
              | Some ann => Some match nth i ann None with
                                 | Some ka => set_nth i (Some (set_ks_generated false ka)) ann
                                 | None => ann
                                 end
              | None => None
              end)
  | None => None
  end.

Lemma courtesy_eq i keyIdx ks need st :
  courtesy i keyIdx ks need st =
  if courtesy_fires i keyIdx need st then
    match ks with
    | Some (d, k) =>
        (mkHState (upd_seg d (set_slot i (Some (EKeySig (set_ks_generated true k)))) (segs st)) (fresh st)
                  (take_announce i (prev st)) (hasSystemHeader st), Some (d, set_ks_generated true k), false)
    | None => (st, None, false)
    end
  else (st, ks, need).
Proof.
  unfold courtesy, courtesy_fires, announces, take_announce. destruct (need && _); simpl; [|reflexivity].
  destruct (prev st) as [pm|]; simpl; [|reflexivity]. destruct (hasCourtesyKeySig pm); simpl; [|reflexivity].
  destruct (announce pm) as [ann|]; [|reflexivity]. destruct (nth i ann None) as [ka|]; [|reflexivity].
  destruct ks as [[d k]|]; reflexivity.
Qed.

Lemma announces_take i j p : announces i p = true -> announces j (take_announce i p) = announces j p.
Proof.
  destruct p as [pm|]; simpl; [|discriminate]. destruct (hasCourtesyKeySig pm); simpl; [|discriminate].
  destruct (announce pm) as [ann|]; [|discriminate]. destruct (nth i ann None) as [ka|] eqn:E; [|discriminate].
  intros _. rewrite nth_set_nth. destruct (Nat.eqb_spec i j) as [<-|]; simpl; [|reflexivity].
  rewrite E. destruct (Nat.ltb i (length ann)); reflexivity.
Qed.

Lemma courtesy_step i keyIdx need st :
  wf nstaves (fresh st) (segs st) -> i < nstaves ->
  let '(st', ks', need') := courtesy i keyIdx (ks_in i (segs st)) need st in
  wf nstaves (fresh st') (segs st') /\ ks' = ks_in i (segs st') /\ clef_in i (segs st') = clef_in i (segs st)
  /\ others_same i (segs st) (segs st')
  /\ need' = (if courtesy_fires i keyIdx need st then false else need)
  /\ (courtesy_fires i keyIdx need st = true ->
      match ks' with Some (_, k) => ks_generated k = true | None => True end)
  /\ (forall j, announces j (prev st') = announces j (prev st)).
Proof.
  intros Hw Hi. rewrite courtesy_eq. destruct (courtesy_fires i keyIdx need st) eqn:Ef.
  - destruct (ks_in i (segs st)) as [[d k]|] eqn:Ek.
    + destruct (ks_in_seg _ _ _ _ Ek) as (s & Ef' & <- & _). cbn [segs fresh prev].
      refine (conj _ (conj _ (conj _ (conj (others_same_upd _ _ _ _) (conj eq_refl (conj (fun _ => eq_refl) _)))))).
      * eapply wf_upd_found; [exact Hw|exact Ef'|reflexivity].
      * rewrite (ks_in_set_key _ _ _ _ _ _ Hw Ef' Hi). reflexivity.
      * eapply clef_in_set_key; [exact Hw|exact Ef'|reflexivity].
      * intros j. apply announces_take. unfold courtesy_fires in Ef. apply andb_true_iff in Ef. tauto.
    + exact (conj Hw (conj (eq_sym Ek) (conj eq_refl (conj (others_same_refl _ _)
               (conj eq_refl (conj (fun _ => I) (fun _ => eq_refl))))))).
  - exact (conj Hw (conj eq_refl (conj eq_refl (conj (others_same_refl _ _)
             (conj eq_refl (conj (fun H => False_ind _ (diff_false_true H)) (fun _ => eq_refl))))))).
Qed.

Lemma courtesy_fires_key i keyIdx need st : key keyIdx <> Key_C -> courtesy_fires i keyIdx need st = false.
Proof. intros H. unfold courtesy_fires. rewrite (proj2 (Z.eqb_neq _ _) H), andb_false_r. reflexivity. Qed.

(** ** The key signature *)

Lemma KeySigEvent_eqb_spec a b : reflect (a = b) (KeySigEvent_eqb a b).
Proof.
  destruct a as [k c t], b as [k' c' t']. unfold KeySigEvent_eqb; simpl.
  destruct (Z.eqb_spec k k'), c, c', t, t'; simpl; constructor; congruence.
Qed.

Lemma need_keysig_key keyIdx ks :
  key keyIdx <> Key_C -> need_keysig keyIdx ks true = true.
Proof. intros H. unfold need_keysig. rewrite (proj2 (Z.eqb_neq _ _) H). reflexivity. Qed.

Lemma key_part_step i keyIdx need st :
  wf nstaves (fresh st) (segs st) -> i < nstaves ->
  let st' := key_part i keyIdx (ks_in i (segs st)) need st in
  wf nstaves (fresh st') (segs st') /\ clef_in i (segs st') = clef_in i (segs st)
  /\ others_same i (segs st) (segs st')
  /\ (if need_keysig keyIdx (ks_in i (segs st)) need
      then exists d k, ks_in i (segs st') = Some (d, k) /\ keySigEvent k = keyIdx
                       /\ need_keysig keyIdx (Some (d, k)) need = true
      else ks_in i (segs st') = None).
Proof.
  intros Hw Hi. unfold key_part. destruct (ks_in i (segs st)) as [[d k]|] eqn:Ek.
  - destruct (ks_in_seg _ _ _ _ Ek) as (s & Ef & <- & _).
    destruct (need_keysig keyIdx (Some (sid s, k)) need) eqn:En.
    + destruct (KeySigEvent_eqb_spec (keySigEvent k) keyIdx) as [E|E].
      * refine (conj Hw (conj eq_refl (conj (others_same_refl _ _) _))). eauto.
      * unfold set_elem, with_segs; cbn [segs fresh].
        refine (conj _ (conj _ (conj (others_same_upd _ _ _ _) _))).
        -- eapply wf_upd_found; [exact Hw|exact Ef|reflexivity].
        -- eapply clef_in_set_key; [exact Hw|exact Ef|reflexivity].
        -- rewrite (ks_in_set_key _ _ _ _ _ _ Hw Ef Hi). do 2 eexists. split; [reflexivity|].
           split; [reflexivity|]. unfold need_keysig in *. simpl in *. exact En.
    + unfold set_elem, with_segs; cbn [segs fresh].
      refine (conj _ (conj _ (conj (others_same_upd _ _ _ _) _))).
      * eapply wf_upd_found; [exact Hw|exact Ef|exact I].
      * eapply clef_in_set_key; [exact Hw|exact Ef|reflexivity].
      * rewrite (ks_in_set_key _ _ _ _ _ _ Hw Ef Hi). reflexivity.
  - destruct (need_keysig keyIdx None need) eqn:En.
    + refine (conj (wf_add_elem SKeySig i (EKeySig (mkKeySig keyIdx true true)) st Hw eq_refl)
                (conj (clef_in_add_key _ _ _ Hw)
                (conj (others_same_add _ _ _ _ Hw) _))).
      destruct (ks_in_add_key i (mkKeySig keyIdx true true) st Hw Hi) as [d Hd]. rewrite Hd.
      do 2 eexists. split; [reflexivity|]. split; [reflexivity|].
      unfold need_keysig in *. simpl in *. rewrite orb_false_r in *. exact En.
    + exact (conj Hw (conj eq_refl (conj (others_same_refl _ _) Ek))).
Qed.

(** ** The clef *)

Lemma ClefTypeList_eqb_spec a b : reflect (a = b) (ClefTypeList_eqb a b).
Proof.
  destruct a as [c t], b as [c' t']. unfold ClefTypeList_eqb; simpl.
  destruct (Z.eqb_spec c c'), (Z.eqb_spec t t'); simpl; constructor; congruence.
Qed.

Lemma ks_in_add_clef i c st :
  wf nstaves (fresh st) (segs st) -> ks_in i (segs (add_elem SClef i (EClef c) st)) = ks_in i (segs st).
Proof. intros Hw. unfold ks_in. rewrite add_elem_find by exact Hw. reflexivity. Qed.

(** The clef the header of staff [i] should hold. *)
Definition clef_ok (staff : StaffD) (cl : option (nat * Clef)) : Prop :=
  match cl with
  | Some (_, c) => showClef staff = true /\ clefTypeList c = clefTypeAt staff /\ small c = false
  | None => showClef staff = false
  end.

Lemma clef_part_step i staff st :
  wf nstaves (fresh st) (segs st) -> i < nstaves ->
  match clef_in i (segs st) with Some (_, c) => small c = false | None => True end ->
  let st' := clef_part i staff (clef_in i (segs st)) st in
  wf nstaves (fresh st') (segs st') /\ ks_in i (segs st') = ks_in i (segs st)
  /\ others_same i (segs st) (segs st') /\ clef_ok staff (clef_in i (segs st')).
Proof.
  intros Hw Hi Hs. unfold clef_part, clef_ok. destruct (clef_in i (segs st)) as [[d c]|] eqn:Ec.
  - destruct (clef_in_seg _ _ _ _ Ec) as (s & Ef & <- & _).
    destruct (showClef staff) eqn:Esh.
    + destruct (ClefTypeList_eqb_spec (clefTypeAt staff) (clefTypeList c)) as [E|E].
      * rewrite Ec. exact (conj Hw (conj eq_refl (conj (others_same_refl _ _) (conj eq_refl (conj (eq_sym E) Hs))))).
      * unfold set_elem, with_segs; cbn [segs fresh].
        refine (conj _ (conj _ (conj (others_same_upd _ _ _ _) _))).
        -- eapply wf_upd_found; [exact Hw|exact Ef|reflexivity].
        -- eapply ks_in_set_clef; [exact Hw|exact Ef|reflexivity].
        -- rewrite (clef_in_set_clef _ _ _ _ _ _ Hw Ef Hi). simpl. auto.
    + unfold set_elem, with_segs; cbn [segs fresh].
      refine (conj _ (conj _ (conj (others_same_upd _ _ _ _) _))).
      * eapply wf_upd_found; [exact Hw|exact Ef|exact I].
      * eapply ks_in_set_clef; [exact Hw|exact Ef|reflexivity].
      * rewrite (clef_in_set_clef _ _ _ _ _ _ Hw Ef Hi). reflexivity.
  - destruct (showClef staff) eqn:Esh.
    + refine (conj (wf_add_elem SClef i (EClef (mkClef (clefTypeAt staff) false true)) st Hw eq_refl)
                (conj (ks_in_add_clef _ _ _ Hw) (conj (others_same_add _ _ _ _ Hw) _))).
      destruct (clef_in_add_clef i (mkClef (clefTypeAt staff) false true) st Hw Hi) as [d Hd].
      rewrite Hd. auto.
    + rewrite Ec. exact (conj Hw (conj eq_refl (conj (others_same_refl _ _) eq_refl))).
Qed.

(** ** One staff *)


(** What the header of staff [i] holds after its turn of the loop: the
    clef of the staff at the tick, normal-sized, when the staff type
    and the style show clefs (and none otherwise); a key signature with
    the staff's key, present whenever the style asks for one and the
    key is not C major. *)
Definition staff_header_ok (i : nat) (staff : StaffD) (ss : list Seg) : Prop :=
  clef_ok staff (clef_in i ss)
  /\ (forall d k, ks_in i ss = Some (d, k) -> keySigEvent k = keySigAt staff)
  /\ ((isFirstSystem || genKeysig sty) = true -> key (keySigAt staff) <> Key_C -> ks_in i ss <> None).

Lemma staff_header_ok_same i staff ss ss' :
  ks_in i ss' = ks_in i ss -> clef_in i ss' = clef_in i ss -> staff_header_ok i staff ss -> staff_header_ok i staff ss'.
Proof. unfold staff_header_ok. intros -> ->. exact (fun H => H). Qed.

Lemma scan_none n fr i ss : wf n fr ss -> scan i ss None None = (scan_segs i ss, ks_in i ss, clef_small i ss).
Proof.
  intros [Hs Hn _ _ Ht]. rewrite (scan_eq i ss None None Hs Hn Ht). unfold clef_small.
  destruct (ks_in i ss) as [x|]; reflexivity.
Qed.

Lemma clef_small_small i ss : match clef_small i ss with Some (_, c) => small c = false | None => True end.
Proof. unfold clef_small. destruct (clef_in i ss) as [[d c]|]; reflexivity. Qed.

(** The turn of staff [i] sets its header as [staff_header_ok] says
    and leaves the other staves' headers. *)
Lemma prev_add_elem t i e st : prev (add_elem t i e st) = prev st.
Proof. unfold add_elem, undoGetSegment. destruct (find_seg t (segs st)); reflexivity. Qed.

Lemma prev_key_part i keyIdx ks need st : prev (key_part i keyIdx ks need st) = prev st.
Proof.
  unfold key_part. destruct (need_keysig _ _ _), ks as [[d k]|]; try destruct (KeySigEvent_eqb _ _);
    try apply prev_add_elem; reflexivity.
Qed.

Lemma prev_clef_part i staff cl st : prev (clef_part i staff cl st) = prev st.
Proof.
  unfold clef_part. destruct (showClef staff), cl as [[d c]|]; try destruct (ClefTypeList_eqb _ _);
    try apply prev_add_elem; reflexivity.
Qed.

Lemma need_keysig_none keyIdx ks need :
  need_keysig keyIdx ks need = false -> need_keysig keyIdx None need = false.
Proof. unfold need_keysig. destruct (need && _); [discriminate|reflexivity]. Qed.

(** Staff [i]'s header is one its turn of the loop leaves as it is: no
    key signature when the courtesy takes over, the key signature
    [needKeysig] asks for (of the staff's key) or none, and the clef of
    [clef_ok]. *)
Definition stable (i : nat) (staff : StaffD) (st : HState) : Prop :=
  let keyIdx := keySigAt staff in
  let need0 := isFirstSystem || genKeysig sty in
  let fires := courtesy_fires i keyIdx need0 st in
  (fires = true -> ks_in i (segs st) = None)
  /\ (if need_keysig keyIdx (ks_in i (segs st)) (if fires then false else need0)
      then exists d k, ks_in i (segs st) = Some (d, k) /\ keySigEvent k = keyIdx
      else ks_in i (segs st) = None)
  /\ clef_ok staff (clef_in i (segs st)).

Lemma stable_same i staff a b :
  ks_in i (segs b) = ks_in i (segs a) -> clef_in i (segs b) = clef_in i (segs a) ->
  announces i (prev b) = announces i (prev a) -> stable i staff a -> stable i staff b.
Proof. unfold stable, courtesy_fires. intros -> -> ->. exact (fun H => H). Qed.

(** The turn of staff [i] sets its header as [staff_header_ok] says,
    leaves it [stable], and leaves the other staves' headers and what
    the previous measure announces. *)
Lemma staff_step_spec i staff st :
  wf nstaves (fresh st) (segs st) -> i < nstaves ->
  wf nstaves (fresh (staff_step i staff st)) (segs (staff_step i staff st))
  /\ others_same i (segs st) (segs (staff_step i staff st))
  /\ (forall j, announces j (prev (staff_step i staff st)) = announces j (prev st))
  /\ (nth i sysShow false = true ->
      staff_header_ok i staff (segs (staff_step i staff st)) /\ stable i staff (staff_step i staff st)).
Proof.
  intros Hw Hi. unfold staff_step. destruct (nth i sysShow false) eqn:Eshow; cbn [negb];
    [|refine (conj Hw (conj (others_same_refl _ _) (conj (fun _ => eq_refl) _))); discriminate].
  rewrite (scan_none _ _ i (segs st) Hw). cbn beta iota zeta.
  destruct (scan_step i st Hw Hi) as (Hw1 & Hks1 & Hcl1 & Ho1).
  set (st1 := with_segs st (scan_segs i (segs st))).
  replace (ks_in i (segs st)) with (ks_in i (segs st1)) by exact Hks1.
  pose proof (courtesy_step i (keySigAt staff) (isFirstSystem || genKeysig sty) st1 Hw1 Hi) as Hc.
  destruct (courtesy i (keySigAt staff) (ks_in i (segs st1)) (isFirstSystem || genKeysig sty) st1)
    as [[st2 ks2] need2] eqn:Ec.
  destruct Hc as (Hw2 & -> & Hcl2 & Ho2 & Hneed & Hgen & Hann). cbn beta iota.
  destruct (key_part_step i (keySigAt staff) need2 st2 Hw2 Hi) as (Hw3 & Hcl3 & Ho3 & Hk3).
  set (st3 := key_part i (keySigAt staff) (ks_in i (segs st2)) need2 st2) in *.
  assert (Hcl : clef_small i (segs st) = clef_in i (segs st3)) by (rewrite Hcl3, Hcl2; exact (eq_sym Hcl1)).
  pose proof (clef_small_small i (segs st)) as Hsm. rewrite Hcl in Hsm |- *.
  destruct (clef_part_step i staff st3 Hw3 Hi Hsm) as (Hw4 & Hks4 & Ho4 & Hok).
  set (st4 := clef_part i staff (clef_in i (segs st3)) st3) in *.
  assert (Hp : forall j, announces j (prev st4) = announces j (prev st)).
  { intros j. unfold st4, st3. rewrite prev_clef_part, prev_key_part. exact (Hann j). }
  refine (conj Hw4 (conj _ (conj Hp (fun _ => conj (conj Hok (conj _ _)) _)))).
  - exact (others_same_trans _ _ _ _ Ho1 (others_same_trans _ _ _ _ Ho2 (others_same_trans _ _ _ _ Ho3 Ho4))).
  - intros d k Hd. rewrite Hks4 in Hd. destruct (need_keysig _ _ _) in Hk3.
    + destruct Hk3 as (d' & k' & E & Hk & _). rewrite Hd in E. congruence.
    + congruence.
  - intros H0 HC. rewrite Hks4. rewrite Hneed, courtesy_fires_key, H0, (need_keysig_key _ _ HC) in Hk3 by exact HC.
    destruct Hk3 as (d' & k' & -> & _). discriminate.
  - assert (Hf : courtesy_fires i (keySigAt staff) (isFirstSystem || genKeysig sty) st4
                 = courtesy_fires i (keySigAt staff) (isFirstSystem || genKeysig sty) st1)
      by (unfold courtesy_fires; rewrite (Hp i); reflexivity).
    unfold stable. cbv zeta. rewrite Hf, <- Hneed, Hks4. split.
    + intros Hfire. specialize (Hgen Hfire). rewrite Hfire in Hneed.
      assert (En : need_keysig (keySigAt staff) (ks_in i (segs st2)) need2 = false)
        by (rewrite Hneed; revert Hgen; destruct (ks_in i (segs st2)) as [[d k]|]; unfold need_keysig; simpl;
            [intros ->|intros _]; reflexivity).
      rewrite En in Hk3. exact Hk3.
    + split; [|exact Hok]. destruct (need_keysig (keySigAt staff) (ks_in i (segs st2)) need2) eqn:En.
      * destruct Hk3 as (d & k & E & Hk & En'). rewrite E, En'. eauto.
      * rewrite Hk3, (need_keysig_none _ _ _ En). reflexivity.
Qed.

(** ** The loop over the staves *)

Lemma header_staves_wf l : forall i0 st,
  wf nstaves (fresh st) (segs st) -> i0 + length l <= nstaves ->
  wf nstaves (fresh (header_staves i0 l st)) (segs (header_staves i0 l st)).
Proof.
  induction l as [|staff rest IH]; intros i0 st Hw Hn; simpl in *; [exact Hw|].
  apply IH; [apply (staff_step_spec i0 staff st Hw); lia|lia].
Qed.

Section Post.

(** A property of staff [i]'s header that its turn establishes and the
    other staves' turns keep. *)
Variable P : nat -> StaffD -> HState -> Prop.
Hypothesis P_step : forall i staff st, wf nstaves (fresh st) (segs st) -> i < nstaves ->
  nth i sysShow false = true -> P i staff (staff_step i staff st).
Hypothesis P_other : forall i j staff staff' st, wf nstaves (fresh st) (segs st) -> j < nstaves -> j <> i ->
  P i staff st -> P i staff (staff_step j staff' st).

Lemma header_staves_keep i staff l : forall i0 st,
  wf nstaves (fresh st) (segs st) -> i0 + length l <= nstaves -> i < i0 ->
  P i staff st -> P i staff (header_staves i0 l st).
Proof.
  induction l as [|staff' rest IH]; intros i0 st Hw Hn Hi Hp; simpl in *; [exact Hp|].
  apply IH; [apply (staff_step_spec i0 staff' st Hw); lia|lia|lia|]. apply P_other; auto; lia.
Qed.

Lemma header_staves_post l : forall i0 st,
  wf nstaves (fresh st) (segs st) -> i0 + length l <= nstaves ->
  forall k staff, nth_error l k = Some staff -> nth (i0 + k) sysShow false = true ->
  P (i0 + k) staff (header_staves i0 l st).
Proof.
  induction l as [|staff' rest IH]; intros i0 st Hw Hn [|k] staff Hk Hs; simpl in *; try discriminate.
  - injection Hk as ->. rewrite Nat.add_0_r in Hs |- *.
    apply header_staves_keep; [apply (staff_step_spec i0 staff st Hw); lia|lia|lia|]. apply P_step; auto; lia.
  - rewrite Nat.add_succ_r in Hs |- *. change (S (i0 + k)) with (S i0 + k) in Hs |- *.
    apply IH; [apply (staff_step_spec i0 staff' st Hw); lia|lia|exact Hk|exact Hs].
Qed.

End Post.

Lemma header_staves_ok st :
  wf nstaves (fresh st) (segs st) ->
  forall i staff, nth_error staves i = Some staff -> nth i sysShow false = true ->
  staff_header_ok i staff (segs (header_staves 0 staves st)).
Proof.
  intros Hw i staff Hi Hs. change i with (0 + i) in Hs |- *.
  apply (header_staves_post (fun i staff st => staff_header_ok i staff (segs st))) with (l := staves);
    [| |exact Hw|unfold nstaves; lia|exact Hi|exact Hs].
  - intros i' staff' st' Hw' Hi' Hs'. apply (staff_step_spec i' staff' st' Hw' Hi'). exact Hs'.
  - intros i' j staff' staff'' st' Hw' Hj Hne Hp. destruct (staff_step_spec j staff'' st' Hw' Hj) as (_ & Ho & _).
    destruct (Ho i' (not_eq_sym Hne)) as [E1 E2]. exact (staff_header_ok_same _ _ _ _ E1 E2 Hp).
Qed.

(** ** The begin bar line *)

Lemma ks_in_upd_type n fr ss s t i f :
  wf n fr ss -> find_seg t ss = Some s -> t <> SKeySig -> (forall x, stype (f x) = stype x) ->
  ks_in i (upd_seg (sid s) f ss) = ks_in i ss.
Proof.
  intros Hw Ef Ht Hf. unfold ks_in. rewrite (find_seg_upd_at t) by (try apply (wf_ids _ _ _ Hw); auto).
  destruct (SegType_eqb_spec SKeySig t); [congruence|reflexivity].
Qed.

Lemma clef_in_upd_type n fr ss s t i f :
  wf n fr ss -> find_seg t ss = Some s -> t <> SClef -> (forall x, stype (f x) = stype x) ->
  clef_in i (upd_seg (sid s) f ss) = clef_in i ss.
Proof.
  intros Hw Ef Ht Hf. unfold clef_in. rewrite (find_seg_upd_at t) by (try apply (wf_ids _ _ _ Hw); auto).
  destruct (SegType_eqb_spec SClef t); [congruence|reflexivity].
Qed.

Lemma begin_barline_seg ss d b :
  begin_barline ss = Some (d, b) ->
  exists s, find_seg SBeginBarLine ss = Some s /\ sid s = d /\ nth 0 (elems s) None = Some (EBarLine b).
Proof.
  unfold begin_barline. destruct (find_seg SBeginBarLine ss) as [s|]; [|discriminate].
  destruct (nth 0 (elems s) None) as [[]|] eqn:E; try discriminate. intros H; injection H as <- <-. eauto.
Qed.

Lemma begin_barline_set n fr ss s x :
  wf n fr ss -> find_seg SBeginBarLine ss = Some s -> 0 < n ->
  begin_barline (upd_seg (sid s) (set_slot 0 x) ss)
  = match x with Some (EBarLine b) => Some (sid s, b) | _ => None end.
Proof.
  intros Hw Ef Hi. unfold begin_barline. rewrite (find_seg_upd_at SBeginBarLine) by (try apply (wf_ids _ _ _ Hw); auto).
  cbv [SegType_eqb rank Nat.eqb]. rewrite (nth_elems_set n fr ss s SBeginBarLine 0 x Hw Ef Hi). reflexivity.
Qed.

Lemma wants_barline_pos : wants_barline = true -> 0 < nstaves.
Proof.
  unfold wants_barline. destruct (Nat.ltb_spec 1 nstaves), (Nat.eqb_spec nstaves 1); simpl; intros; try lia; discriminate.
Qed.

(** Every staff's header is what it was; the begin bar line is there,
    spanning all staves, exactly when the style asks for it. *)
Lemma barline_part_spec st :
  wf nstaves (fresh st) (segs st) ->
  wf nstaves (fresh (barline_part st)) (segs (barline_part st))
  /\ (forall j, ks_in j (segs (barline_part st)) = ks_in j (segs st)
                /\ clef_in j (segs (barline_part st)) = clef_in j (segs st))
  /\ (if wants_barline then exists d b, begin_barline (segs (barline_part st)) = Some (d, b)
                                       /\ span b = Z.of_nat nstaves
      else begin_barline (segs (barline_part st)) = None).
Proof.
  intros Hw. unfold barline_part. destruct wants_barline eqn:Ewb.
  - pose proof (wants_barline_pos Ewb) as Hpos. destruct (begin_barline (segs st)) as [[d b]|] eqn:Eb.
    + destruct (begin_barline_seg _ _ _ Eb) as (s & Ef & <- & _). unfold set_elem, with_segs; cbn [segs fresh].
      refine (conj _ (conj _ _)); [eapply wf_upd_found; [exact Hw|exact Ef|exact I]| |].
      * intros j. split; [eapply ks_in_upd_type|eapply clef_in_upd_type]; eauto; discriminate.
      * rewrite (begin_barline_set _ _ _ _ _ Hw Ef Hpos). eauto.
    + refine (conj (wf_add_elem SBeginBarLine 0 (EBarLine (mkBarLine (Z.of_nat nstaves) true)) _ Hw I) (conj _ _)).
      * intros j. unfold ks_in, clef_in. rewrite !add_elem_find by exact Hw. split; reflexivity.
      * unfold begin_barline. rewrite add_elem_find by exact Hw. cbv [SegType_eqb rank Nat.eqb].
        unfold set_slot; cbn [elems sid].
        rewrite nth_set_nth_eq by (rewrite length_base by exact Hw; exact Hpos). eauto.
  - destruct (begin_barline (segs st)) as [[d b]|] eqn:Eb; [|exact (conj Hw (conj (fun j => conj eq_refl eq_refl) Eb))].
    destruct (begin_barline_seg _ _ _ Eb) as (s & Ef & <- & _). unfold set_elem, with_segs; cbn [segs fresh].
    refine (conj _ (conj _ _)); [eapply wf_upd_found; [exact Hw|exact Ef|exact I]| |].
    + intros j. split; [eapply ks_in_upd_type|eapply clef_in_upd_type]; eauto; discriminate.
    + destruct (nstaves) eqn:En.
      * unfold begin_barline. rewrite (find_seg_upd_at SBeginBarLine) by (try apply (wf_ids _ _ _ Hw); auto).
        simpl. destruct (elems s) as [|e l] eqn:El; [reflexivity|].
        pose proof (wf_len _ _ _ Hw) as Hl. rewrite Forall_forall in Hl.
        specialize (Hl s (proj1 (find_seg_in _ _ _ Ef))). rewrite El in Hl. simpl in Hl. lia.
      * rewrite (begin_barline_set _ _ _ _ _ Hw Ef ltac:(lia)). reflexivity.
Qed.

(** ** Idempotence of the staff loop *)

Lemma set_nth_nth_same {A} i (l : list A) d : set_nth i (nth i l d) l = l.
Proof. revert i; induction l as [|a l IH]; intros [|i]; simpl; f_equal; auto. Qed.

Lemma upd_seg_id d f ss : (forall s, In s ss -> sid s = d -> f s = s) -> upd_seg d f ss = ss.
Proof.
  intros H. unfold upd_seg. rewrite <- (map_id ss) at 2. apply map_ext_in. intros s Hs.
  destruct (Nat.eqb_spec (sid s) d); auto.
Qed.

Lemma clef_ok_small staff cl :
  clef_ok staff cl -> match cl with Some (_, c) => small c = false | None => True end.
Proof. destruct cl as [[d c]|]; simpl; tauto. Qed.

Lemma scan_segs_id i st :
  wf nstaves (fresh st) (segs st) ->
  match clef_in i (segs st) with Some (_, c) => small c = false | None => True end ->
  scan_segs i (segs st) = segs st.
Proof.
  intros Hw Hs. unfold scan_segs. destruct (clef_in i (segs st)) as [[d c]|] eqn:Ec; [|reflexivity].
  destruct (clef_in_seg _ _ _ _ Ec) as (s & Ef & <- & Hn). apply upd_seg_id. intros s' Hi E.
  apply find_seg_in in Ef as [Hin _]. rewrite (sid_unique s' s _ (wf_ids _ _ _ Hw) Hi Hin E).
  destruct c as [t sm g]; simpl in Hs; subst sm. unfold set_slot, set_small; simpl. rewrite <- Hn, set_nth_nth_same.
  destruct s; reflexivity.
Qed.

Lemma clef_part_id i staff st :
  clef_ok staff (clef_in i (segs st)) -> clef_part i staff (clef_in i (segs st)) st = st.
Proof.
  unfold clef_part, clef_ok. destruct (clef_in i (segs st)) as [[d c]|].
  - intros (-> & E & _). rewrite E. destruct (ClefTypeList_eqb_spec (clefTypeAt staff) (clefTypeAt staff)); congruence.
  - intros ->. reflexivity.
Qed.

Lemma key_part_id i keyIdx ks need st :
  (if need_keysig keyIdx ks need then exists d k, ks = Some (d, k) /\ keySigEvent k = keyIdx else ks = None) ->
  key_part i keyIdx ks need st = st.
Proof.
  unfold key_part. destruct (need_keysig keyIdx ks need).
  - intros (d & k & -> & E). destruct (KeySigEvent_eqb_spec (keySigEvent k) keyIdx); congruence.
  - intros ->. reflexivity.
Qed.

(** A stable staff's turn changes nothing. *)
Lemma stable_fixed i staff st :
  wf nstaves (fresh st) (segs st) -> stable i staff st -> staff_step i staff st = st.
Proof.
  intros Hw Hst. unfold stable in Hst; cbv zeta in Hst. destruct Hst as (Hf & Hk & Hc).
  unfold staff_step. destruct (nth i sysShow false); cbn [negb]; [|reflexivity].
  rewrite (scan_none _ _ i (segs st) Hw). cbn beta iota zeta.
  pose proof (clef_ok_small _ _ Hc) as Hsm.
  assert (Hcs : clef_small i (segs st) = clef_in i (segs st))
    by (unfold clef_small; destruct (clef_in i (segs st)) as [[d c]|]; [destruct c; simpl in *; subst|]; reflexivity).
  rewrite (scan_segs_id i st Hw Hsm), Hcs.
  replace (with_segs st (segs st)) with st by (destruct st; reflexivity).
  rewrite courtesy_eq. destruct (courtesy_fires i (keySigAt staff) (isFirstSystem || genKeysig sty) st) eqn:Ef.
  - rewrite (Hf eq_refl). cbn iota. rewrite key_part_id by reflexivity. exact (clef_part_id _ _ _ Hc).
  - cbn iota. rewrite (key_part_id _ _ _ _ _ Hk). exact (clef_part_id _ _ _ Hc).
Qed.

Lemma header_staves_fix l : forall i0 X,
  (forall k staff, nth_error l k = Some staff -> staff_step (i0 + k) staff X = X) -> header_staves i0 l X = X.
Proof.
  induction l as [|staff rest IH]; intros i0 X H; simpl; [reflexivity|].
  pose proof (H 0 staff eq_refl) as H0. rewrite Nat.add_0_r in H0. rewrite H0. apply IH.
  intros k staff' Hk. replace (S i0 + k) with (i0 + S k) by lia. exact (H (S k) staff' Hk).
Qed.

(** C12. Laying out the header of a well-formed measure a second time
    changes nothing: the staff loop of [addSystemHeader] is idempotent,
    whatever key signatures, clefs, courtesy signatures and style it
    starts from. *)
Theorem header_staves_idempotent st :
  wf nstaves (fresh st) (segs st) ->
  header_staves 0 staves (header_staves 0 staves st) = header_staves 0 staves st.
Proof.
  intros Hw. pose proof (header_staves_wf staves 0 st Hw ltac:(unfold nstaves; lia)) as HwF.
  apply header_staves_fix. intros k staff Hk. simpl.
  destruct (nth k sysShow false) eqn:Es; [|unfold staff_step; rewrite Es; reflexivity].
  apply stable_fixed; [exact HwF|]. change k with (0 + k) in Es |- *.
  apply (header_staves_post stable) with (l := staves); [| |exact Hw|unfold nstaves; lia|exact Hk|exact Es].
  - intros i staff' st' Hw' Hi Hs. apply (staff_step_spec i staff' st' Hw' Hi). exact Hs.
  - intros i j staff' staff'' st' Hw' Hj Hne Hp. destruct (staff_step_spec j staff'' st' Hw' Hj) as (_ & Ho & Ha & _).
    destruct (Ho i (not_eq_sym Hne)) as [E1 E2]. exact (stable_same _ _ _ _ E1 E2 (Ha i) Hp).
Qed.

(** ** [addSystemHeader] *)

(** [Measure::setStartRepeatBarLine] (measure.cpp). *)
Variable setStartRepeatBarLine : HState -> HState.

(** [Score::addSystemHeader(m, isFirstSystem)]. *)
Definition addSystemHeader (st : HState) : HState :=
  let st := mkHState (segs st) (fresh st) (prev st) true in
  barline_part (setStartRepeatBarLine (header_staves 0 staves st)).


(** [Measure::setStartRepeatBarLine] adds or removes the start-repeat
    bar line segment only: the header stays well-formed and no staff's
    key signature or clef changes. *)
Hypothesis setStartRepeatBarLine_frame : forall st,
  wf nstaves (fresh st) (segs st) ->
  wf nstaves (fresh (setStartRepeatBarLine st)) (segs (setStartRepeatBarLine st))
  /\ forall j, ks_in j (segs (setStartRepeatBarLine st)) = ks_in j (segs st)
               /\ clef_in j (segs (setStartRepeatBarLine st)) = clef_in j (segs st).

(** C11. After [addSystemHeader] on a well-formed measure, the header is
    still well-formed; every staff the system shows has the clef of the
    staff at the tick, normal-sized, exactly when the staff type and
    the style generate clefs; its key signature, if any, has the
    staff's key, and there is one whenever the style generates key
    signatures and the key is not C major; and the begin bar line spans
    all staves exactly when the style asks for one. *)
Theorem addSystemHeader_headers st :
  wf nstaves (fresh st) (segs st) ->
  wf nstaves (fresh (addSystemHeader st)) (segs (addSystemHeader st))
  /\ (forall i staff, nth_error staves i = Some staff -> nth i sysShow false = true ->
        staff_header_ok i staff (segs (addSystemHeader st)))
  /\ (if wants_barline then exists d b, begin_barline (segs (addSystemHeader st)) = Some (d, b)
                                       /\ span b = Z.of_nat nstaves
      else begin_barline (segs (addSystemHeader st)) = None).
Proof.
  intros Hw. unfold addSystemHeader.
  pose proof (header_staves_wf staves 0 (mkHState (segs st) (fresh st) (prev st) true) Hw ltac:(unfold nstaves; lia))
    as Hw1.
  pose proof (header_staves_ok (mkHState (segs st) (fresh st) (prev st) true) Hw) as Hp1.
  destruct (setStartRepeatBarLine_frame _ Hw1) as (Hw2 & Hs2).
  destruct (barline_part_spec _ Hw2) as (Hw3 & Hs3 & Hb3).
  refine (conj Hw3 (conj _ Hb3)). intros i staff Hi Hv.
  destruct (Hs2 i) as [E1 E2]. destruct (Hs3 i) as [E3 E4].
  apply (staff_header_ok_same i staff _ _ (eq_trans E3 E1) (eq_trans E4 E2)). exact (Hp1 i staff Hi Hv).
Qed.

End Header.

End SystemHeader.

Import SystemHeader.

(** A piano system: staff 0 in D major with a small clef left from a
    clef change, staff 1 in C major without a clef; the style generates
    clefs on the first system and a begin bar line for several
    staves. *)
Definition wit_style : HStyle := mkHStyle false false true false.
Definition wit_staves : list StaffD :=
  [mkStaffD (mkKSE 2 false false) true (mkCTL 0 0); mkStaffD (mkKSE 0 false false) true (mkCTL 20 20)].
Definition wit_measure : HState :=
  mkHState [mkSeg 0 SClef [Some (EClef (mkClef (mkCTL 0 0) true false)); None]; mkSeg 1 SChordRest [None; None]]
           2 None false.

Lemma wit_measure_wf : wf (nstaves wit_staves) (fresh wit_measure) (segs wit_measure).
Proof.
  constructor; simpl; repeat constructor; simpl; try lia; unfold rank_lt; simpl; try lia;
    intros [H|H]; try lia; easy.
Qed.

Lemma addSystemHeader_headers_witness :
  let st' := addSystemHeader wit_style true [true; true] wit_staves (fun st => st) wit_measure in
  wf (nstaves wit_staves) (fresh st') (segs st')
  /\ (forall i staff, nth_error wit_staves i = Some staff -> nth i [true; true] false = true ->
        staff_header_ok wit_style true i staff (segs st'))
  /\ (if wants_barline wit_style wit_staves
      then exists d b, begin_barline (segs st') = Some (d, b) /\ span b = Z.of_nat (nstaves wit_staves)
      else begin_barline (segs st') = None).
Proof.
  apply (addSystemHeader_headers wit_style true [true; true] wit_staves (fun st => st)).
  - intros st H. exact (conj H (fun j => conj eq_refl eq_refl)).
  - exact wit_measure_wf.
Defined.

Lemma header_staves_idempotent_witness :
  header_staves wit_style true [true; true] wit_staves 0 wit_staves
    (header_staves wit_style true [true; true] wit_staves 0 wit_staves wit_measure)
  = header_staves wit_style true [true; true] wit_staves 0 wit_staves wit_measure.
Proof. apply header_staves_idempotent. exact wit_measure_wf. Defined.

(** A key signature the user placed in C major (not generated) on a
    system's first measure is removed when the previous measure shows a
    courtesy key signature: lines 1294-1298 mark it generated before the
    test of line 1306 that keeps user key signatures. *)
Example addSystemHeader_user_keysig_removed :
  let user := mkKeySig (mkKSE 0 false false) false true in
  let st := mkHState [mkSeg 0 SKeySig [Some (EKeySig user)]; mkSeg 1 SChordRest [None]] 2
              (Some (mkPrev true (Some [Some (mkKeySig (mkKSE 0 false false) true true)]))) false in
  ks_in 0 (segs st) = Some (0%nat, user)
  /\ ks_in 0 (segs (addSystemHeader (mkHStyle true false true false) false [true]
                      [mkStaffD (mkKSE 0 false false) true (mkCTL 0 0)] (fun s => s) st)) = None.
Proof. split; reflexivity. Qed.
