(* ===== verification/Courtesy.v ===== *)
(** * Width of the courtesy signatures ([Score::cautionaryWidth])

    [cautionaryWidth(m, hasCourtesy)] (layout.cpp 1411-1477) is the
    width the courtesy time and key signatures take at the end of [m]
    when [m] ends a system: nothing without a next measure or at a
    section break (outside float mode); else the width of the next
    measure's time signature if it shows a courtesy, plus the widest of
    the next measure's user key signatures that show a courtesy, each
    with its left margin.  An announce element already in [m] gives
    its own width and sets [hasCourtesy].

    The next measure's [TimeSig] and [KeySig] segments at the end tick
    and [m]'s [TimeSigAnnounce] and [KeySigAnnounce] segments are given
    as data: [None] for a missing segment, [Some] of the element (or of
    the elements per staff).  An element's width is its width after
    [layout()] (outside src/). *)

From Stdlib Require Import QArith Lqa List Lia Bool.
From S2P Require Import Prelude.
Import ListNotations.

Module Courtesy.

(** What the function reads of the next measure's time signature. *)
Record CTimeSig := mkCTimeSig { showCourtesySig : bool; ts_width : Q }.

(** ... and of a key signature of the next measure. *)
Record CKeySig := mkCKeySig { ks_showCourtesy : bool; ks_generated : bool; ks_width : Q }.

Record NextM := mkNextM {
  timeSigSeg : option (option CTimeSig);           (** [findSegment(TimeSig, tick)], element 0 *)
  keySigSeg : option (list (option CKeySig)) }.    (** [findSegment(KeySig, tick)], per staff *)

Record CurM := mkCurM {
  sectionBreak : bool;
  nextMeasure : option NextM;
  timeSigAnnounce : option (option Q);              (** the announce element's width *)
  keySigAnnounce : option (list (option Q)) }.

Record CStyle := mkCStyle {
  genCourtesyTimesig : bool; genCourtesyKeysig : bool;
  timesigLeftMargin : Q; keysigLeftMargin : Q }.

Section Width.

Variable sty : CStyle.
(** [_layoutMode == LayoutMode::FLOAT]. *)
Variable layoutFloat : bool.
(** [_staves.size()]. *)
Variable nstaves : nat.

(** Lines 1425-1443: the courtesy time signature. *)
Definition time_courtesy (m : CurM) (nm : NextM) : Q * bool :=
  match timeSigSeg nm with
  | Some el =>
      if genCourtesyTimesig sty then
        match el with
        | Some ts =>
            if showCourtesySig ts then
              match timeSigAnnounce m with
              | Some (Some w) => (w + timesigLeftMargin sty, true)
              | _ => (ts_width ts + timesigLeftMargin sty, false)
              end
            else (0, false)
        | None => (0, false)
        end
      else (0, false)
  | None => (0, false)
  end.

(** The announce key signature of staff [i] in [m], if any. *)
Definition key_announce (m : CurM) (i : nat) : option Q :=
  match keySigAnnounce m with Some l => nth i l None | None => None end.

(** The loop body for staff [i] (lines 1457-1471): [wwMax] and
    [hasCourtesy] after it. *)
Definition key_step (m : CurM) (nks : list (option CKeySig)) (acc : Q * bool) (i : nat) : Q * bool :=
  let '(wwMax, hc) := acc in
  match nth i nks None with
  | Some k =>
      if ks_showCourtesy k && negb (ks_generated k) then
        match key_announce m i with
        | Some w => (qMax wwMax (w + keysigLeftMargin sty), true)
        | None => (qMax wwMax (ks_width k + keysigLeftMargin sty), hc)
        end
      else acc
  | None => acc
  end.

(** Lines 1448-1473: the courtesy key signatures. *)
Definition key_courtesy (m : CurM) (nm : NextM) (hc : bool) : Q * bool :=
  match keySigSeg nm with
  | Some nks =>
      if genCourtesyKeysig sty then fold_left (key_step m nks) (seq 0 nstaves) (0, hc) else (0, hc)
  | None => (0, hc)
  end.

(** [Score::cautionaryWidth(m, hasCourtesy)]: the width and
    [hasCourtesy]. *)
Definition cautionaryWidth (m : option CurM) : Q * bool :=
  match m with
  | None => (0, false)
  | Some m =>
      match nextMeasure m with
      | None => (0, false)
      | Some nm =>
          if sectionBreak m && negb layoutFloat then (0, false)
          else
            let '(w, hc) := time_courtesy m nm in
            let '(wwMax, hc) := key_courtesy m nm hc in
            (w + wwMax, hc)
      end
  end.

(** ** The loop over the staves computes a maximum *)

(** The courtesy key signature staff [i] needs, with its width and
    whether it is already announced in [m]. *)
Definition staff_courtesy (m : CurM) (nks : list (option CKeySig)) (i : nat) : option (Q * bool) :=
  match nth i nks None with
  | Some k =>
      if ks_showCourtesy k && negb (ks_generated k) then
        match key_announce m i with
        | Some w => Some (w + keysigLeftMargin sty, true)
        | None => Some (ks_width k + keysigLeftMargin sty, false)
        end
      else None
  | None => None
  end.

Definition announced (m : CurM) (nks : list (option CKeySig)) (i : nat) : bool :=
  match staff_courtesy m nks i with Some (_, b) => b | None => false end.

Lemma key_step_eq m nks ww hc i :
  key_step m nks (ww, hc) i
  = match staff_courtesy m nks i with
    | Some (x, b) => (qMax ww x, b || hc)
    | None => (ww, hc)
    end.
Proof.
  unfold key_step, staff_courtesy. destruct (nth i nks None) as [k|]; [|reflexivity].
  destruct (ks_showCourtesy k && negb (ks_generated k)); [|reflexivity].
  destruct (key_announce m i); reflexivity.
Qed.

Lemma key_loop_spec m nks l : forall ww0 hc0,
  let '(ww, hc) := fold_left (key_step m nks) l (ww0, hc0) in
  ww0 <= ww
  /\ (forall i x b, In i l -> staff_courtesy m nks i = Some (x, b) -> x <= ww)
  /\ (ww == ww0 \/ exists i x b, In i l /\ staff_courtesy m nks i = Some (x, b) /\ ww == x)
  /\ hc = hc0 || existsb (announced m nks) l.
Proof.
  induction l as [|i l IH]; intros ww0 hc0; cbn [fold_left In existsb].
  - refine (conj (Qle_refl _) (conj (fun _ _ _ H _ => False_ind _ H) (conj (or_introl (Qeq_refl _)) _))).
    rewrite orb_false_r. reflexivity.
  - rewrite key_step_eq. unfold announced at 1. destruct (staff_courtesy m nks i) as [[x b]|] eqn:Ei.
    + specialize (IH (qMax ww0 x) (b || hc0)). destruct (fold_left _ l _) as [ww hc].
      destruct IH as (H1 & H2 & H3 & H4). refine (conj _ (conj _ (conj _ _))).
      * pose proof (qMax_ge_l ww0 x). lra.
      * intros j y c [<-|Hj] Hc; [rewrite Ei in Hc; injection Hc as <- _; pose proof (qMax_ge_r ww0 x); lra|].
        exact (H2 j y c Hj Hc).
      * destruct H3 as [E|(j & y & c & Hj & Hc & E)]; [|right; exists j, y, c; auto].
        unfold qMax in E. destruct (qltb_spec ww0 x); [right; exists i, x, b; auto|left; exact E].
      * rewrite H4. destruct b, hc0; reflexivity.
    + specialize (IH ww0 hc0). destruct (fold_left _ l _) as [ww hc].
      destruct IH as (H1 & H2 & H3 & H4). refine (conj H1 (conj _ (conj _ H4))).
      * intros j y c [<-|Hj] Hc; [congruence|exact (H2 j y c Hj Hc)].
      * destruct H3 as [E|(j & y & c & Hj & Hc & E)]; [left; exact E|right; exists j, y, c; auto].
Qed.

(** ** [cautionaryWidth] *)

(** When [m] has a next measure, no section break applies and the
    style generates courtesy key signatures, [cautionaryWidth] is the
    courtesy time signature's width plus the largest width among the
    courtesy key signatures the staves need (or nothing when none
    does), and [hasCourtesy] is set when the time signature or one of
    those key signatures is already announced in [m]. *)
Theorem cautionaryWidth_max m nm nks :
  nextMeasure m = Some nm -> sectionBreak m && negb layoutFloat = false ->
  keySigSeg nm = Some nks -> genCourtesyKeysig sty = true ->
  let '(w, hc) := cautionaryWidth (Some m) in
  let '(tw, thc) := time_courtesy m nm in
  tw <= w
  /\ (forall i x b, (i < nstaves)%nat -> staff_courtesy m nks i = Some (x, b) -> tw + x <= w)
  /\ (w == tw \/ exists i x b, (i < nstaves)%nat /\ staff_courtesy m nks i = Some (x, b) /\ w == tw + x)
  /\ hc = thc || existsb (announced m nks) (seq 0 nstaves).
Proof.
  intros Hn Hs Hk Hg. unfold cautionaryWidth. rewrite Hn, Hs.
  destruct (time_courtesy m nm) as [tw thc]. unfold key_courtesy. rewrite Hk, Hg.
  pose proof (key_loop_spec m nks (seq 0 nstaves) 0 thc) as Hl.
  destruct (fold_left _ _ _) as [ww hc]. destruct Hl as (H1 & H2 & H3 & H4).
  refine (conj _ (conj _ (conj _ H4))).
  - lra.
  - intros i x b Hi Hc. pose proof (H2 i x b (proj2 (in_seq _ _ _) (conj (Peano.le_0_n i) Hi)) Hc). lra.
  - destruct H3 as [E|(i & x & b & Hi & Hc & E)]; [left; rewrite E; ring|].
    right. exists i, x, b. apply in_seq in Hi. refine (conj (proj2 Hi) (conj Hc _)). rewrite E. ring.
Qed.

End Width.

End Courtesy.

Import Courtesy.

(** Two staves: the next measure changes both key signatures (user
    key signatures showing courtesies, 3 and 5 wide), the first already
    announced in [m] (4 wide); the time signature (2 wide) also
    changes.  Margins are 1. *)
Definition wit_cstyle : CStyle := mkCStyle true true 1 1.
Definition wit_next : NextM :=
  mkNextM (Some (Some (mkCTimeSig true 2))) (Some [Some (mkCKeySig true false 3); Some (mkCKeySig true false 5)]).
Definition wit_cur : CurM := mkCurM false (Some wit_next) None (Some [Some 4; None]).

Lemma cautionaryWidth_max_witness :
  let '(w, hc) := cautionaryWidth wit_cstyle false 2 (Some wit_cur) in
  let '(tw, thc) := time_courtesy wit_cstyle wit_cur wit_next in
  tw <= w
  /\ (forall i x b, (i < 2)%nat -> staff_courtesy wit_cstyle wit_cur [Some (mkCKeySig true false 3); Some (mkCKeySig true false 5)] i = Some (x, b) -> tw + x <= w)
  /\ (w == tw \/ exists i x b, (i < 2)%nat /\ staff_courtesy wit_cstyle wit_cur [Some (mkCKeySig true false 3); Some (mkCKeySig true false 5)] i = Some (x, b) /\ w == tw + x)
  /\ hc = thc || existsb (announced wit_cstyle wit_cur [Some (mkCKeySig true false 3); Some (mkCKeySig true false 5)]) (seq 0 2).
Proof. apply cautionaryWidth_max; reflexivity. Defined.

(** The example evaluates to a width of 3 + 6 = 9 (the second staff's
    key signature is the wider one), with [hasCourtesy] set by the
    announced first one. *)
Example cautionaryWidth_example :
  cautionaryWidth wit_cstyle false 2 (Some wit_cur) = (9 # 1, true).
Proof. vm_compute. reflexivity. Qed.
