(* ===== verification/LayoutContext.v ===== *)
(** * System and page objects of the layout context ([getNextSystem],
      [getEmptyPage], [doLayoutRange])

    The layout keeps the systems ([Score::_systems]) and pages
    ([Score::_pages]) of the previous layout and reuses them.
    [getNextSystem] (layout.cpp 2137-2161) takes the first system of
    [lc.systemList] (or makes a new one), clears it, appends it to
    [_systems] and, unless it is for a vertical box, gives it one staff
    per staff of the score.  [getEmptyPage] (2101-2130) takes page
    [lc.curPage] (or adds one), numbers it, places it after the previous
    page and clears its systems.  [collectPage] appends each system to
    its page (3680) and, once the range is done, takes the next old
    system unchanged (3699-3705); [collectSystem] ends the systems when
    the measures run out (3144-3147).

    [doLayoutRange] (3876-3962) splits [_systems] at the first system of
    the page holding the first changed measure: the prefix stays, the
    rest becomes [lc.systemList]; after the layout loop, unused pages go
    when no system was laid out and the old systems the loop did not
    take are appended again.  [doLayout] (3800-3852) starts from all
    the old systems, and afterwards drops the old systems the loop did
    not take (detaching their spanner segments) and the pages after the
    last one used; an empty score gets one new page.

    Objects are modelled by identities (a [System*] or [Page*]), new
    ones taking [next_obj].  The loop's decisions (how many systems and
    pages, which are boxes) belong to [collectSystem] and
    [collectPage] (SystemLayout.v, PageLayout.v): here they are a list
    of [Event]s, the calls the loop makes, and the theorems hold for
    every such list.  A page's size after [Page::layout] is the style's
    page size; the page gaps and orientation are [MScore] settings,
    inputs. *)

From Stdlib Require Import QArith Lqa ZArith List Lia Bool.
From S2P Require Import Prelude.
Import ListNotations.
Open Scope nat_scope.

Module LayoutContext.

Record SystemO := mkSystemO {
  sys_id : nat;
  sys_staves : nat;             (** [system->staves()->size()] *)
  sys_measures : list nat }.    (** [system->measures()] *)

Record PageO := mkPageO {
  pg_id : nat; pg_no : nat; pg_width : Q; pg_height : Q; pg_x : Q; pg_y : Q;
  pg_systems : list nat }.      (** [page->systems()] *)

(** [_systems], [_pages], and the next object identity. *)
Record ScoreL := mkScoreL { systems : list SystemO; pages : list PageO; next_obj : nat }.

(** The fields of [LayoutContext] these functions use. *)
Record LC := mkLC {
  systemList : list SystemO; curSystem : option nat; systemOldMeasure : option nat;
  curPage : nat; pageOldSystem : option nat }.

(** [MScore::verticalOrientation()], the page size of the style, the
    [MScore] page gaps and [_pageNumberOffset]. *)
Record PStyle := mkPStyle {
  verticalOrientation : bool; pageWidth : Q; pageHeight : Q;
  verticalPageGap : Q; horizontalPageGapOdd : Q; horizontalPageGapEven : Q;
  pageNumberOffset : Z }.

Definition last_opt (l : list nat) : option nat :=
  match rev l with [] => None | x :: _ => Some x end.

(** [for (int i = system->staves()->size(); i < nstaves; ++i)
    system->insertStaff(i)]. *)
Fixpoint insert_staves (k : nat) (s : SystemO) : SystemO :=
  match k with
  | 0 => s
  | S k' => insert_staves k' (mkSystemO (sys_id s) (S (sys_staves s)) (sys_measures s))
  end.

(** [for (int i = 0; i < dn; ++i) system->removeStaff(...)]. *)
Fixpoint remove_staves (k : nat) (s : SystemO) : SystemO :=
  match k with
  | 0 => s
  | S k' => remove_staves k' (mkSystemO (sys_id s) (pred (sys_staves s)) (sys_measures s))
  end.

Section Context.

Variable sty : PStyle.
(** [Score::nstaves()]. *)
Variable nstaves : nat.

(** Lines 2151-2157: one staff per staff of the score. *)
Definition fit_staves (s : SystemO) : SystemO :=
  let s := insert_staves (nstaves - sys_staves s) s in
  remove_staves (sys_staves s - nstaves) s.

(** [Score::getNextSystem(lc)]: the system's identity. *)
Definition getNextSystem (isVBox : bool) (sc : ScoreL) (lc : LC) : ScoreL * LC :=
  let '(system, lc, n) :=
    match systemList lc with
    | [] => (mkSystemO (next_obj sc) 0 [], mkLC [] (curSystem lc) None (curPage lc) (pageOldSystem lc),
             S (next_obj sc))
    | s :: rest => (s, mkLC rest (curSystem lc) (last_opt (sys_measures s)) (curPage lc) (pageOldSystem lc),
                    next_obj sc)
    end in
  let system := mkSystemO (sys_id system) (sys_staves system) [] in
  let system := if isVBox then system else fit_staves system in
  (mkScoreL (systems sc ++ [system]) (pages sc) n,
   mkLC (systemList lc) (Some (sys_id system)) (systemOldMeasure lc) (curPage lc) (pageOldSystem lc)).

(** The gap before page [k] in horizontal orientation (line 2124). *)
Definition hgap (k : nat) : Q :=
  if Z.eqb (Z.land (Z.of_nat k + pageNumberOffset sty) 1) 1 then horizontalPageGapOdd sty
  else horizontalPageGapEven sty.

Definition page0 : PageO := mkPageO 0 0 0 0 0 0 [].

(** Lines 2115-2125: the position of page [k] of size [w] x [h]. *)
Definition page_pos (pgs : list PageO) (k : nat) (w h : Q) : Q * Q :=
  if verticalOrientation sty then
    (0%Q, if Nat.eqb k 0 then 0%Q else (pg_y (nth (k - 1) pgs page0) + h + verticalPageGap sty)%Q)
  else
    (if Nat.eqb k 0 then 0%Q else (pg_x (nth (k - 1) pgs page0) + w + hgap k)%Q, 0%Q).

(** [Score::getEmptyPage(lc)]. *)
Definition getEmptyPage (sc : ScoreL) (lc : LC) : ScoreL * LC :=
  let k := curPage lc in
  let '(pgs, idx, page, old, n) :=
    match nth_error (pages sc) k with
    | None => (pages sc ++ [mkPageO (next_obj sc) 0 0 0 0 0 []], length (pages sc),
               mkPageO (next_obj sc) 0 0 0 0 0 [], None, S (next_obj sc))
    | Some pg => (pages sc, k, pg, last_opt (pg_systems pg), next_obj sc)
    end in
  let '(x, y) := page_pos pgs k (pageWidth sty) (pageHeight sty) in
  let page := mkPageO (pg_id page) k (pageWidth sty) (pageHeight sty) x y [] in
  (mkScoreL (systems sc) (set_nth idx page pgs) n,
   mkLC (systemList lc) (curSystem lc) (systemOldMeasure lc) (S k) old).

(** The calls the layout loop makes. *)
Inductive Event :=
| NextSystem (isVBox : bool)   (** [collectSystem] -> [getNextSystem] *)
| NoMeasure                    (** [collectSystem] without a measure, lines 3144-3147 *)
| TakeUnchanged                (** [collectPage] after the range, lines 3699-3705 *)
| EmptyPage                    (** [collectPage] -> [getEmptyPage] *)
| AppendSystem.                (** [page->appendSystem(s2)], line 3680 *)

Definition step (st : ScoreL * LC) (e : Event) : ScoreL * LC :=
  let '(sc, lc) := st in
  match e with
  | NextSystem b => getNextSystem b sc lc
  | NoMeasure => (sc, mkLC (systemList lc) None (systemOldMeasure lc) (curPage lc) (pageOldSystem lc))
  | TakeUnchanged =>
      match systemList lc with
      | [] => (sc, mkLC [] None (systemOldMeasure lc) (curPage lc) (pageOldSystem lc))
      | s :: rest => (mkScoreL (systems sc ++ [s]) (pages sc) (next_obj sc),
                      mkLC rest (Some (sys_id s)) (systemOldMeasure lc) (curPage lc) (pageOldSystem lc))
      end
  | EmptyPage => getEmptyPage sc lc
  | AppendSystem =>
      match curSystem lc with
      | Some d =>
          let k := curPage lc - 1 in
          let pg := nth k (pages sc) page0 in
          (mkScoreL (systems sc)
             (set_nth k (mkPageO (pg_id pg) (pg_no pg) (pg_width pg) (pg_height pg) (pg_x pg) (pg_y pg)
                           (pg_systems pg ++ [d])) (pages sc)) (next_obj sc), lc)
      | None => st
      end
  end.

(** Lines 3926-3933: the context [doLayoutRange] starts from, given
    the index of the first system of the page and of the page. *)
Definition range_start (systemIndex pageIndex : nat) (sc : ScoreL) : ScoreL * LC :=
  (mkScoreL (firstn systemIndex (systems sc)) (pages sc) (next_obj sc),
   mkLC (skipn systemIndex (systems sc))
        (if Nat.ltb 0 systemIndex then option_map sys_id (nth_error (systems sc) (systemIndex - 1)) else None)
        None pageIndex None).

(** Lines 3954-3959. *)
Definition range_end (st : ScoreL * LC) : ScoreL :=
  let '(sc, lc) := st in
  let pgs := match curSystem lc with None => firstn (curPage lc) (pages sc) | Some _ => pages sc end in
  mkScoreL (systems sc ++ systemList lc) pgs (next_obj sc).

(** [Score::doLayoutRange] as far as the system and page objects go:
    the loop's calls are [events]. *)
Definition doLayoutRange (systemIndex pageIndex : nat) (events : list Event) (sc : ScoreL) : ScoreL :=
  range_end (fold_left step events (range_start systemIndex pageIndex sc)).

(** ** System objects *)

Definition sys_ids (st : ScoreL * LC) : list nat := map sys_id (systems (fst st) ++ systemList (snd st)).

(** The systems of the context: the old ones, in order, followed by
    distinct new ones from [n0] on. *)
Definition sys_inv (old : list nat) (n0 : nat) (st : ScoreL * LC) : Prop :=
  exists news, sys_ids st = old ++ news /\ NoDup news
  /\ Forall (fun d => n0 <= d < next_obj (fst st)) news /\ n0 <= next_obj (fst st).

Lemma insert_staves_id k s : sys_id (insert_staves k s) = sys_id s.
Proof. revert s; induction k; intros s; simpl; [|rewrite IHk]; reflexivity. Qed.

Lemma remove_staves_id k s : sys_id (remove_staves k s) = sys_id s.
Proof. revert s; induction k; intros s; simpl; [|rewrite IHk]; reflexivity. Qed.

Lemma fit_staves_id s : sys_id (fit_staves s) = sys_id s.
Proof. unfold fit_staves. rewrite remove_staves_id, insert_staves_id. reflexivity. Qed.

Ltac ids_norm :=
  simpl; rewrite ?map_app; simpl; rewrite ?fit_staves_id, ?app_nil_r; rewrite <- ?app_assoc; simpl; reflexivity.

Lemma Forall_bound_mono n0 m m' news :
  m <= m' -> Forall (fun d => n0 <= d < m) news -> Forall (fun d => n0 <= d < m') news.
Proof. intros H. apply Forall_impl. intros d Hd. lia. Qed.

Lemma getNextSystem_ids b sc lc :
  sys_ids (getNextSystem b sc lc)
  = sys_ids (sc, lc) ++ match systemList lc with [] => [next_obj sc] | _ => [] end.
Proof.
  unfold getNextSystem, sys_ids. cbn [fst snd]. destruct (systemList lc) as [|s rest];
    destruct b; simpl; rewrite ?fit_staves_id; ids_norm.
Qed.

Lemma step_ids st e :
  sys_ids (step st e) = sys_ids st ++
    match e, systemList (snd st) with NextSystem _, [] => [next_obj (fst st)] | _, _ => [] end.
Proof.
  destruct st as [sc lc]. destruct e; simpl.
  - apply getNextSystem_ids.
  - rewrite app_nil_r. reflexivity.
  - unfold sys_ids; simpl. destruct (systemList lc) as [|s rest]; ids_norm.
  - unfold getEmptyPage. destruct (nth_error (pages sc) (curPage lc)); simpl;
      destruct (page_pos _ _ _ _); rewrite app_nil_r; reflexivity.
  - destruct (curSystem lc); rewrite app_nil_r; reflexivity.
Qed.

Lemma step_next_obj st e : next_obj (fst st) <= next_obj (fst (step st e))
  /\ (forall b, e = NextSystem b -> systemList (snd st) = [] -> next_obj (fst (step st e)) = S (next_obj (fst st))).
Proof.
  destruct st as [sc lc]. split.
  - destruct e; simpl; try lia.
    + unfold getNextSystem. destruct (systemList lc); simpl; lia.
    + destruct (systemList lc); simpl; lia.
    + unfold getEmptyPage. destruct (nth_error (pages sc) (curPage lc)); simpl; destruct (page_pos _ _ _ _); simpl; lia.
    + destruct (curSystem lc); simpl; lia.
  - intros b -> E. simpl in E |- *. unfold getNextSystem. rewrite E. reflexivity.
Qed.

Lemma step_sys_inv old n0 st e : sys_inv old n0 st -> sys_inv old n0 (step st e).
Proof.
  intros (news & E & Hn & Hb & H0). destruct (step_next_obj st e) as [Hm Hs].
  unfold sys_inv. rewrite step_ids, E, <- app_assoc.
  assert (Hkeep : exists news', (old ++ news ++ []) = old ++ news' /\ NoDup news'
            /\ Forall (fun d => n0 <= d < next_obj (fst (step st e))) news' /\ n0 <= next_obj (fst (step st e)))
    by (exists news; rewrite app_nil_r; repeat split; auto; [eapply Forall_bound_mono; eauto|lia]).
  destruct e as [b| | | |]; try exact Hkeep. destruct (systemList (snd st)) eqn:El; [|exact Hkeep].
  rewrite (Hs b eq_refl eq_refl). exists (news ++ [next_obj (fst st)]). repeat split.
  - apply NoDup_app; auto; [constructor; [intros []|constructor]|].
    intros x Hx [<-|[]]. rewrite Forall_forall in Hb. specialize (Hb _ Hx). lia.
  - apply Forall_app. split; [eapply Forall_bound_mono; [|exact Hb]; lia|]. constructor; [lia|constructor].
  - lia.
Qed.

Lemma fold_sys_inv old n0 events : forall st, sys_inv old n0 st -> sys_inv old n0 (fold_left step events st).
Proof. induction events as [|e rest IH]; intros st H; simpl; auto. apply IH, step_sys_inv, H. Qed.

(** The systems [step] keeps: the ones before it, with more appended. *)
Lemma step_systems_prefix st e : exists ext, systems (fst (step st e)) = systems (fst st) ++ ext.
Proof.
  destruct st as [sc lc]. destruct e; simpl.
  - unfold getNextSystem. destruct (systemList lc); simpl; eauto.
  - exists []. rewrite app_nil_r. reflexivity.
  - destruct (systemList lc); simpl; [exists []; rewrite app_nil_r|]; eauto.
  - unfold getEmptyPage. destruct (nth_error (pages sc) (curPage lc)); simpl; destruct (page_pos _ _ _ _); simpl;
      exists []; rewrite app_nil_r; reflexivity.
  - destruct (curSystem lc); simpl; exists []; rewrite app_nil_r; reflexivity.
Qed.

Lemma fold_systems_prefix events : forall st, exists ext, systems (fst (fold_left step events st)) = systems (fst st) ++ ext.
Proof.
  induction events as [|e rest IH]; intros st; simpl; [exists []; rewrite app_nil_r; reflexivity|].
  destruct (step_systems_prefix st e) as [e1 E1]. destruct (IH (step st e)) as [e2 E2].
  exists (e1 ++ e2). rewrite E2, E1, app_assoc. reflexivity.
Qed.

Lemma range_start_inv systemIndex pageIndex sc :
  sys_inv (map sys_id (systems sc)) (next_obj sc) (range_start systemIndex pageIndex sc).
Proof.
  exists []. unfold sys_ids, range_start. simpl. rewrite firstn_skipn, app_nil_r.
  repeat split; auto; constructor.
Qed.

(** C25. [doLayoutRange] keeps its bookkeeping of system objects exact:
    the systems before the re-laid-out page are kept as they were, and
    the systems afterwards are the old ones, in their order, followed
    by new ones; no system is lost or listed twice, whatever calls the
    layout loop makes. *)
Theorem doLayoutRange_systems systemIndex pageIndex events sc :
  systemIndex <= length (systems sc) -> NoDup (map sys_id (systems sc)) ->
  Forall (fun s => sys_id s < next_obj sc) (systems sc) ->
  firstn systemIndex (systems (doLayoutRange systemIndex pageIndex events sc)) = firstn systemIndex (systems sc)
  /\ (exists news, map sys_id (systems (doLayoutRange systemIndex pageIndex events sc)) = map sys_id (systems sc) ++ news
                   /\ Forall (fun d => next_obj sc <= d) news)
  /\ NoDup (map sys_id (systems (doLayoutRange systemIndex pageIndex events sc))).
Proof.
  intros Hi Hn Hb. unfold doLayoutRange.
  pose proof (fold_sys_inv _ _ events _ (range_start_inv systemIndex pageIndex sc)) as (news & E & Hnn & Hnb & _).
  destruct (fold_systems_prefix events (range_start systemIndex pageIndex sc)) as [ext Hext].
  destruct (fold_left step events (range_start systemIndex pageIndex sc)) as [sc1 lc1].
  unfold sys_ids in E. simpl in E, Hext |- *. rewrite E. refine (conj _ (conj _ _)).
  - rewrite Hext, <- app_assoc, firstn_app, firstn_firstn, Nat.min_id, length_firstn.
    rewrite (Nat.min_l _ _ Hi), Nat.sub_diag, firstn_O, app_nil_r. reflexivity.
  - exists news. split; [reflexivity|]. eapply Forall_impl; [|exact Hnb]. intros d [Hd _]. exact Hd.
  - apply NoDup_app; auto. intros x Hx Hy. rewrite Forall_forall in Hnb. specialize (Hnb x Hy).
    apply in_map_iff in Hx as (s & <- & Hs). rewrite Forall_forall in Hb. specialize (Hb s Hs). lia.
Qed.

(** ** Page objects *)

(** Where page [k] goes: the pages one after another, from the origin,
    with the style's page size and the gaps between them. *)
Fixpoint page_origin (k : nat) : Q * Q :=
  match k with
  | 0 => (0%Q, 0%Q)
  | S j => if verticalOrientation sty then (0%Q, (snd (page_origin j) + pageHeight sty + verticalPageGap sty)%Q)
           else ((fst (page_origin j) + pageWidth sty + hgap (S j))%Q, 0%Q)
  end.

(** Pages [0 .. n-1] are numbered, sized and placed. *)
Definition placed (pgs : list PageO) (n : nat) : Prop :=
  forall k, k < n -> exists pg, nth_error pgs k = Some pg /\ pg_no pg = k
    /\ pg_width pg = pageWidth sty /\ pg_height pg = pageHeight sty /\ (pg_x pg, pg_y pg) = page_origin k.

Definition page_inv (st : ScoreL * LC) : Prop :=
  curPage (snd st) <= length (pages (fst st)) /\ placed (pages (fst st)) (curPage (snd st)).

Lemma nth_error_set_nth {A} i j (x : A) l :
  nth_error (set_nth i x l) j = if Nat.eqb i j then (if Nat.ltb i (length l) then Some x else None) else nth_error l j.
Proof.
  revert i j; induction l as [|a l IH]; intros [|i] [|j]; simpl; auto;
    try (destruct (Nat.eqb _ _); reflexivity).
Qed.

Lemma length_set_nth' {A} i (x : A) l : length (set_nth i x l) = length l.
Proof. apply length_set_nth. Qed.

(** A change to page [j] that keeps its number, size and place. *)
Lemma placed_set pgs n j pg' :
  placed pgs n ->
  (forall pg, nth_error pgs j = Some pg -> pg_no pg' = pg_no pg /\ pg_width pg' = pg_width pg
              /\ pg_height pg' = pg_height pg /\ pg_x pg' = pg_x pg /\ pg_y pg' = pg_y pg) ->
  placed (set_nth j pg' pgs) n.
Proof.
  intros Hp Hj k Hk. destruct (Hp k Hk) as (pg & E & H1 & H2 & H3 & H4). rewrite nth_error_set_nth.
  destruct (Nat.eqb_spec j k) as [<-|]; [|eauto].
  assert (Hl : Nat.ltb j (length pgs) = true) by (apply Nat.ltb_lt, nth_error_Some; congruence). rewrite Hl.
  destruct (Hj pg E) as (J1 & J2 & J3 & J4 & J5). exists pg'. rewrite J1, J2, J3, J4, J5. auto.
Qed.

Lemma page_pos_origin pgs k :
  placed pgs k -> page_pos pgs k (pageWidth sty) (pageHeight sty) = page_origin k.
Proof.
  intros Hp. unfold page_pos. destruct k as [|j]; [destruct (verticalOrientation sty); reflexivity|].
  destruct (Hp j ltac:(lia)) as (pg & E & _ & _ & _ & Ho). simpl. rewrite Nat.sub_0_r.
  rewrite (nth_error_nth _ _ _ E). rewrite <- Ho. reflexivity.
Qed.

Lemma placed_mono pgs n m : m <= n -> placed pgs n -> placed pgs m.
Proof. intros H Hp k Hk. apply Hp. lia. Qed.

Lemma placed_app pgs extra n : placed pgs n -> placed (pgs ++ extra) n.
Proof.
  intros Hp k Hk. destruct (Hp k Hk) as (pg & E & R). exists pg. split; [|exact R].
  rewrite nth_error_app1; [exact E|apply nth_error_Some; congruence].
Qed.

Lemma getEmptyPage_inv sc lc : page_inv (sc, lc) -> page_inv (getEmptyPage sc lc).
Proof.
  intros [Hl Hp]. simpl in Hl, Hp. unfold getEmptyPage. set (k := curPage lc) in *.
  destruct (nth_error (pages sc) k) as [pg|] eqn:Ek.
  - rewrite page_pos_origin by exact Hp. destruct (page_origin k) as [x y] eqn:Eo. split; simpl.
    + rewrite length_set_nth. assert (k < length (pages sc)) by (apply nth_error_Some; congruence). lia.
    + intros k' Hk'. destruct (Nat.eq_dec k' k) as [->|Hne].
      * exists (mkPageO (pg_id pg) k (pageWidth sty) (pageHeight sty) x y []).
        rewrite nth_error_set_nth, Nat.eqb_refl. replace (Nat.ltb k (length (pages sc))) with true
          by (symmetry; apply Nat.ltb_lt, nth_error_Some; congruence). simpl. auto.
      * rewrite nth_error_set_nth. replace (Nat.eqb k k') with false by (symmetry; apply Nat.eqb_neq; lia).
        apply Hp. lia.
  - assert (Hk : k = length (pages sc)) by (apply nth_error_None in Ek; lia).
    rewrite page_pos_origin by (apply placed_app; exact Hp). destruct (page_origin k) as [x y] eqn:Eo. split; simpl.
    + rewrite length_set_nth, length_app. simpl. lia.
    + intros k' Hk'. rewrite nth_error_set_nth. destruct (Nat.eqb_spec (length (pages sc)) k') as [<-|Hne].
      * rewrite length_app. simpl. replace (Nat.ltb _ _) with true by (symmetry; apply Nat.ltb_lt; lia).
        eexists; split; [reflexivity|]. simpl. rewrite <- Hk. auto.
      * apply (placed_app _ [mkPageO (next_obj sc) 0 0 0 0 0 []] k); [exact Hp|lia].
Qed.

Lemma step_page_inv st e : page_inv st -> page_inv (step st e) /\ curPage (snd st) <= curPage (snd (step st e)).
Proof.
  destruct st as [sc lc]. intros Hinv. destruct e; simpl.
  - unfold getNextSystem. destruct (systemList lc); unfold page_inv in *; simpl in *; (split; [exact Hinv|lia]).
  - split; [exact Hinv|simpl; lia].
  - destruct (systemList lc); unfold page_inv in *; simpl in *; (split; [exact Hinv|lia]).
  - split; [exact (getEmptyPage_inv sc lc Hinv)|].
    unfold getEmptyPage. destruct (nth_error (pages sc) (curPage lc)); simpl; destruct (page_pos _ _ _ _); simpl; lia.
  - destruct (curSystem lc) as [d|]; [|split; [exact Hinv|simpl; lia]]. destruct Hinv as [Hl Hp]. simpl in Hl, Hp.
    split; [split; simpl; [rewrite length_set_nth; exact Hl|]|simpl; lia].
    apply placed_set; [exact Hp|]. intros pg E. rewrite (nth_error_nth _ _ _ E). simpl. auto.
Qed.

Lemma fold_page_inv events : forall st, page_inv st ->
  page_inv (fold_left step events st) /\ curPage (snd st) <= curPage (snd (fold_left step events st)).
Proof.
  induction events as [|e rest IH]; intros st H; simpl; [split; [exact H|lia]|].
  destruct (step_page_inv st e H) as [H1 L1]. destruct (IH _ H1) as [H2 L2]. split; [exact H2|lia].
Qed.

(** The pages of a range layout are numbered and placed as a full
    layout places them: when the pages before the re-laid-out one were,
    every page up to the last one the loop used has its index as
    number, the style's page size, and the place [page_origin] gives
    (one after the other with the page gaps); when the loop laid out no
    system, exactly those pages remain. *)
Theorem doLayoutRange_pages systemIndex pageIndex events sc :
  pageIndex <= length (pages sc) -> placed (pages sc) pageIndex ->
  pageIndex <= curPage (snd (fold_left step events (range_start systemIndex pageIndex sc)))
  /\ placed (pages (doLayoutRange systemIndex pageIndex events sc))
            (curPage (snd (fold_left step events (range_start systemIndex pageIndex sc))))
  /\ (curSystem (snd (fold_left step events (range_start systemIndex pageIndex sc))) = None ->
      length (pages (doLayoutRange systemIndex pageIndex events sc))
      = curPage (snd (fold_left step events (range_start systemIndex pageIndex sc)))).
Proof.
  intros Hl Hp. unfold doLayoutRange.
  assert (H0 : page_inv (range_start systemIndex pageIndex sc)) by (split; simpl; assumption).
  destruct (fold_page_inv events _ H0) as [[Hl1 Hp1] Hm].
  destruct (fold_left step events (range_start systemIndex pageIndex sc)) as [sc1 lc1]. simpl in *.
  refine (conj Hm (conj _ _)).
  - destruct (curSystem lc1); [exact Hp1|]. intros k Hk. destruct (Hp1 k Hk) as (pg & E & R).
    exists pg. split; [|exact R]. rewrite nth_error_firstn. replace (Nat.ltb k (curPage lc1)) with true
      by (symmetry; apply Nat.ltb_lt; exact Hk). exact E.
  - intros ->. rewrite length_firstn. lia.
Qed.

(** ** Staves of a new or reused system *)

Lemma insert_staves_count k s : sys_staves (insert_staves k s) = sys_staves s + k /\ sys_measures (insert_staves k s) = sys_measures s.
Proof. revert s; induction k; intros s; simpl; [split; [lia|reflexivity]|rewrite (proj1 (IHk _)), (proj2 (IHk _)); simpl; split; [lia|reflexivity]]. Qed.

Lemma remove_staves_count k s : sys_staves (remove_staves k s) = sys_staves s - k /\ sys_measures (remove_staves k s) = sys_measures s.
Proof. revert s; induction k; intros s; simpl; [split; [lia|reflexivity]|rewrite (proj1 (IHk _)), (proj2 (IHk _)); simpl; split; [lia|reflexivity]]. Qed.

(** The system [getNextSystem] hands out for measures is empty and has
    exactly one staff per staff of the score, whatever it had before. *)
Lemma getNextSystem_staves sc lc :
  exists s, systems (fst (getNextSystem false sc lc)) = systems sc ++ [s] /\ sys_staves s = nstaves
            /\ sys_measures s = [].
Proof.
  unfold getNextSystem. destruct (systemList lc) as [|s0 rest]; simpl; eexists; (split; [reflexivity|]);
    unfold fit_staves; rewrite (proj1 (remove_staves_count _ _)), (proj2 (remove_staves_count _ _)),
      (proj1 (insert_staves_count _ _)), (proj2 (insert_staves_count _ _)); simpl; split; auto; lia.
Qed.

(** ** [Score::doLayout]'s system and page objects (3803-3815, 3823-3852) *)

(** Lines 3823-3825: a fresh context takes all systems of the previous
    layout ([_systems.swap(lc.systemList)]). *)
Definition layout_start (sc : ScoreL) : ScoreL * LC :=
  (mkScoreL [] (pages sc) (next_obj sc), mkLC (systems sc) None None 0 None).

(** Lines 3830-3852: in line mode the first page takes the width of its
    first system ([sysWidth] of its identity; [_pages[0]] and
    [page->system(0)] must exist, [None] otherwise); the old systems the
    loop did not take leave [_systems] and are returned, their spanner
    segments being detached; the pages after the last one used go. *)
Definition layout_end (sysWidth : nat -> Q) (lineMode : bool) (st : ScoreL * LC) : option (ScoreL * list nat) :=
  let '(sc, lc) := st in
  let pgs := if lineMode then
               match pages sc with
               | pg :: rest =>
                   match pg_systems pg with
                   | s0 :: _ => Some (mkPageO (pg_id pg) (pg_no pg) (sysWidth s0) (pg_height pg) (pg_x pg) (pg_y pg)
                                              (pg_systems pg) :: rest)
                   | [] => None
                   end
               | [] => None
               end
             else Some (pages sc) in
  match pgs with
  | Some pgs => Some (mkScoreL (systems sc) (firstn (curPage lc) pgs) (next_obj sc), map sys_id (systemList lc))
  | None => None
  end.

(** [Score::doLayout] as far as the system and page objects go, the
    layout loop's calls being [events]: an empty score (no staff or no
    measure) gets one new page, numbered 0 and placed at the origin. *)
Definition doLayout (emptyScore : bool) (sysWidth : nat -> Q) (lineMode : bool) (events : list Event) (sc : ScoreL)
    : option (ScoreL * list nat) :=
  if emptyScore then
    Some (mkScoreL (systems sc) [mkPageO (next_obj sc) 0 (pageWidth sty) (pageHeight sty) 0 0 []] (S (next_obj sc)), [])
  else layout_end sysWidth lineMode (fold_left step events (layout_start sc)).

(** Outside line mode a layout accounts for every system object: the
    systems it keeps followed by those it detaches are the old ones, in
    order, then new ones, none twice; and the pages kept are exactly the
    pages the loop used, numbered, sized and placed one after the other. *)
Lemma doLayout_objects sysWidth events sc :
  NoDup (map sys_id (systems sc)) -> Forall (fun s => sys_id s < next_obj sc) (systems sc) ->
  exists sc' removed, doLayout false sysWidth false events sc = Some (sc', removed) /\
    (exists news, map sys_id (systems sc') ++ removed = map sys_id (systems sc) ++ news /\
                  Forall (fun d => next_obj sc <= d) news) /\
    NoDup (map sys_id (systems sc') ++ removed) /\
    placed (pages sc') (length (pages sc')).
Proof.
  intros Hn Hb. unfold doLayout.
  assert (Hs0 : sys_inv (map sys_id (systems sc)) (next_obj sc) (layout_start sc))
    by (exists []; unfold sys_ids; simpl; rewrite app_nil_r; repeat split; auto; constructor).
  assert (Hp0 : page_inv (layout_start sc)) by (split; simpl; [lia | intros k Hk; lia]).
  pose proof (fold_sys_inv _ _ events _ Hs0) as (news & E & Hnn & Hnb & _).
  destruct (fold_page_inv events _ Hp0) as [[Hl1 Hp1] _].
  destruct (fold_left step events (layout_start sc)) as [sc1 lc1]. unfold sys_ids in E. simpl in *.
  do 2 eexists. split; [reflexivity|]. simpl. rewrite map_app in E. rewrite E. split; [|split].
  - exists news. split; [reflexivity|]. eapply Forall_impl; [|exact Hnb]. intros d [Hd _]. exact Hd.
  - apply NoDup_app; auto. intros x Hx Hy. rewrite Forall_forall in Hnb. specialize (Hnb x Hy).
    apply in_map_iff in Hx as (s & <- & Hs). rewrite Forall_forall in Hb. specialize (Hb s Hs). lia.
  - rewrite length_firstn, Nat.min_l by exact Hl1. intros k Hk. destruct (Hp1 k Hk) as (pg & Epg & R).
    exists pg. split; [|exact R]. rewrite nth_error_firstn, (proj2 (Nat.ltb_lt _ _) Hk). exact Epg.
Qed.

End Context.

End LayoutContext.

Import LayoutContext.

(** A two-staff score laid out on one page with two systems; a range
    layout from the start makes three systems: it reuses the two old
    ones and adds one. *)
Definition wit_pstyle : PStyle := mkPStyle true 210 297 10 5 5 0.
Definition wit_score : ScoreL :=
  mkScoreL [mkSystemO 0 2 [10; 11]; mkSystemO 1 2 [12]] [mkPageO 2 0 210 297 0 0 [0; 1]] 3.
Definition wit_events : list Event :=
  [EmptyPage; NextSystem false; AppendSystem; NextSystem false; AppendSystem; NextSystem false; AppendSystem].

Lemma doLayoutRange_systems_witness :
  firstn 0 (systems (doLayoutRange wit_pstyle 2 0 0 wit_events wit_score)) = firstn 0 (systems wit_score)
  /\ (exists news, map sys_id (systems (doLayoutRange wit_pstyle 2 0 0 wit_events wit_score))
                   = map sys_id (systems wit_score) ++ news /\ Forall (fun d => next_obj wit_score <= d) news)
  /\ NoDup (map sys_id (systems (doLayoutRange wit_pstyle 2 0 0 wit_events wit_score))).
Proof.
  apply doLayoutRange_systems.
  - simpl. lia.
  - simpl. repeat constructor; simpl; intuition discriminate.
  - simpl. repeat constructor; simpl; lia.
Defined.

Lemma doLayoutRange_pages_witness :
  0 <= curPage (snd (fold_left (step wit_pstyle 2) wit_events (range_start 0 0 wit_score)))
  /\ placed wit_pstyle (pages (doLayoutRange wit_pstyle 2 0 0 wit_events wit_score))
            (curPage (snd (fold_left (step wit_pstyle 2) wit_events (range_start 0 0 wit_score))))
  /\ (curSystem (snd (fold_left (step wit_pstyle 2) wit_events (range_start 0 0 wit_score))) = None ->
      length (pages (doLayoutRange wit_pstyle 2 0 0 wit_events wit_score))
      = curPage (snd (fold_left (step wit_pstyle 2) wit_events (range_start 0 0 wit_score)))).
Proof.
  apply doLayoutRange_pages.
  - simpl. lia.
  - intros k Hk. lia.
Defined.

(** The range layout of the example: systems 0 and 1 reused, system 3
    (the next identity) added, all three on the one page. *)
Example doLayoutRange_example :
  map sys_id (systems (doLayoutRange wit_pstyle 2 0 0 wit_events wit_score)) = [0; 1; 3]
  /\ map pg_systems (pages (doLayoutRange wit_pstyle 2 0 0 wit_events wit_score)) = [[0; 1; 3]].
Proof. split; reflexivity. Qed.

(** When the measures run out before the old systems do (the score
    became shorter), the range layout still appends the old systems it
    did not take (line 3959): system 1 stays in [_systems] with its old
    measure although no page holds it; [doLayout] drops such systems
    (lines 3839-3847). *)
Example doLayoutRange_stale_system :
  let sc' := doLayoutRange wit_pstyle 2 0 0 [EmptyPage; NextSystem false; AppendSystem; NoMeasure] wit_score in
  map sys_id (systems sc') = [0; 1] /\ map pg_systems (pages sc') = [[0]]
  /\ sys_measures (nth 1 (systems sc') (mkSystemO 0 0 [])) = [12].
Proof. repeat split; reflexivity. Qed.

(** The same calls in a full layout: system 1, which the loop did not
    take, leaves [_systems] and has its spanner segments detached. *)
Example doLayout_drops_stale_system :
  match doLayout wit_pstyle 2 false (fun _ => 0%Q) false [EmptyPage; NextSystem false; AppendSystem; NoMeasure] wit_score with
  | Some (sc', removed) => map sys_id (systems sc') = [0] /\ removed = [1] /\ map pg_systems (pages sc') = [[0]]
  | None => False
  end.
Proof. repeat split; reflexivity. Qed.
