(* ===== verification/LyricsAlign.v ===== *)
(** * Vertical alignment of lyrics ([findLyricsMaxY], [findLyricsMinY],
      [applyLyricsMax], [applyLyricsMin] and the alignment modes of
      [collectSystem])

    After the horizontal layout of a system, [collectSystem]
    (layout.cpp 3525-3570) aligns the lyrics of each staff vertically,
    per measure, per system or per segment
    ([StyleIdx::autoplaceVerticalAlignRange]).  [findLyricsMaxY]
    (3003-3038) resets the offset of each autoplaced lyric placed below
    the staff, takes their shapes out of the segment's staff shape and
    returns how far they must move down to keep
    [lyricsMinTopDistance] from the rest; [applyLyricsMax] (3085-3108)
    moves them by that amount and puts their shapes back, grown by
    [lyricsMinBottomDistance].  [findLyricsMinY] and [applyLyricsMin]
    (3044-3137) do the same upwards for lyrics placed above.

    Only the chord-rest of a staff's first track ([s.cr(staffIdx *
    VOICES)]) is looked at.  A [Shape] is a list of rectangles as in
    the code (shape.h); [Shape::add] appends and [Shape::remove] erases
    one equal rectangle per rectangle of its argument (shape.cpp, from
    the spec); [Shape::minVerticalDistance] is a section variable.
    [Element::pos()] includes the user offset, so a lyric's rectangle
    is its box moved by its position and its [userY]. *)

From Stdlib Require Import QArith Lqa List Lia Bool Arith.
From S2P Require Import Prelude.
Import ListNotations.

Module Lyrics.

(** [QRectF]: x, y, width, height. *)
Record Rect := mkRect { rx : Q; ry : Q; rw : Q; rh : Q }.

Definition translated (r : Rect) (dx dy : Q) : Rect := mkRect (rx r + dx) (ry r + dy) (rw r) (rh r).

(** [QRectF::adjusted(dx1, dy1, dx2, dy2)]. *)
Definition adjusted (r : Rect) (dx1 dy1 dx2 dy2 : Q) : Rect :=
  mkRect (rx r + dx1) (ry r + dy1) (rw r + dx2 - dx1) (rh r + dy2 - dy1).

Definition Rect_eqb (a b : Rect) : bool :=
  Qeq_bool (rx a) (rx b) && Qeq_bool (ry a) (ry b) && Qeq_bool (rw a) (rw b) && Qeq_bool (rh a) (rh b).

Definition Shape := list Rect.

(** [Shape::remove(const QRectF&)]: erase the first equal rectangle. *)
Fixpoint remove_rect (r : Rect) (s : Shape) : Shape :=
  match s with
  | [] => []
  | x :: t => if Rect_eqb x r then t else x :: remove_rect r t
  end.

(** [Shape::remove(const Shape&)]. *)
Definition shape_remove (s t : Shape) : Shape := fold_left (fun s r => remove_rect r s) t s.

Inductive Placement := ABOVE | BELOW.

Definition Placement_eqb (a b : Placement) : bool :=
  match a, b with ABOVE, ABOVE | BELOW, BELOW => true | _, _ => false end.

(** What the alignment reads and writes of a [Lyrics]: [autoplace()],
    [placement()], [bbox()], the position without user offset, and
    the vertical user offset [rUserYoffset()]. *)
Record Lyric := mkLyric { autoplace : bool; placement : Placement; bbox : Rect; lx : Q; ly : Q; userY : Q }.

Definition set_userY (y : Q) (l : Lyric) : Lyric :=
  mkLyric (autoplace l) (placement l) (bbox l) (lx l) (ly l) y.

(** [l->bbox().translated(l->pos())]. *)
Definition lyric_rect (l : Lyric) : Rect := translated (bbox l) (lx l) (ly l + userY l).

(** [l->autoplace() && l->placement() == p]. *)
Definition placed_at (p : Placement) (l : Lyric) : bool := autoplace l && Placement_eqb (placement l) p.

(** A segment: whether it is a chord-rest segment, per staff the lyrics
    of the chord-rest of the staff's first track (if any), per staff
    its shape [staffShape(staffIdx)]. *)
Record SegL := mkSegL { isChordRest : bool; lyrics_of : list (option (list Lyric)); staffShape : list Shape }.

(** A [MeasureBase] of the system: a box or a measure's segments. *)
Inductive MBL := MBox | MMeasure (segs : list SegL).

(** [VerticalAlignRange]. *)
Inductive VerticalAlignRange := SEGMENT | MEASURE | SYSTEM.

Record LStyle := mkLStyle {
  lyricsMinTopDistance : Q; lyricsMinBottomDistance : Q; autoplaceVerticalAlignRange : VerticalAlignRange }.

Section Align.

Variable sty : LStyle.
(** [Shape::minVerticalDistance] (shape.cpp). *)
Variable minVerticalDistance : Shape -> Shape -> Q.
(** [Score::nstaves()]. *)
Variable nstaves : nat.

(** The first loop of [findLyricsMaxY] / [findLyricsMinY] (lines
    3011-3016, 3052-3057): reset the offset of each lyric placed at [p]
    and collect its shape. *)
Fixpoint reset_collect (p : Placement) (lys : list Lyric) : list Lyric * Shape :=
  match lys with
  | [] => ([], [])
  | l :: rest =>
      let '(rest', sh) := reset_collect p rest in
      if placed_at p l then let l' := set_userY 0 l in (l' :: rest', lyric_rect l' :: sh)
      else (l :: rest', sh)
  end.

(** The staff [staffIdx] of [s] with new lyrics and a new shape. *)
Definition set_staff (staffIdx : nat) (lys : list Lyric) (sh : Shape) (s : SegL) : SegL :=
  mkSegL (isChordRest s) (set_nth staffIdx (Some lys) (lyrics_of s)) (set_nth staffIdx sh (staffShape s)).

(** [findLyricsMaxY(Segment&, staffIdx)] (lines 3003-3030): the segment
    after it and [yMax]. *)
Definition findLyricsMaxY_seg (staffIdx : nat) (s : SegL) : SegL * Q :=
  if negb (isChordRest s) then (s, 0)
  else match nth staffIdx (lyrics_of s) None with
       | None => (s, 0)
       | Some lys =>
           let '(lys', sh) := reset_collect BELOW lys in
           let ss := shape_remove (nth staffIdx (staffShape s) []) sh in
           let lmtd := lyricsMinTopDistance sty in
           (set_staff staffIdx lys' ss s,
            fold_left (fun yMax l =>
                         if placed_at BELOW l then
                           let y := minVerticalDistance ss sh in
                           if (- lmtd <?q y) then qMax yMax (y + lmtd) else yMax
                         else yMax) lys' 0)
       end.

(** [findLyricsMinY(Segment&, staffIdx)] (lines 3044-3071). *)
Definition findLyricsMinY_seg (staffIdx : nat) (s : SegL) : SegL * Q :=
  if negb (isChordRest s) then (s, 0)
  else match nth staffIdx (lyrics_of s) None with
       | None => (s, 0)
       | Some lys =>
           let '(lys', sh) := reset_collect ABOVE lys in
           let ss := shape_remove (nth staffIdx (staffShape s) []) sh in
           let lmtd := lyricsMinTopDistance sty in
           (set_staff staffIdx lys' ss s,
            fold_left (fun yMin l =>
                         if placed_at ABOVE l then
                           let y := minVerticalDistance sh ss in
                           if (- lmtd <?q y) then qMin yMin (- y - lmtd) else yMin
                         else yMin) lys' 0)
       end.

(** [findLyricsMaxY(Measure*, staffIdx)] and [findLyricsMinY(Measure*,
    staffIdx)] (lines 3032-3038, 3073-3079): over the segments, with
    [qMax] / [qMin]. *)
Fixpoint find_segs (f : SegL -> SegL * Q) (comb : Q -> Q -> Q) (segs : list SegL) (acc : Q) : list SegL * Q :=
  match segs with
  | [] => ([], acc)
  | s :: rest =>
      let '(s', y) := f s in
      let '(rest', acc') := find_segs f comb rest (comb acc y) in
      (s' :: rest', acc')
  end.

Definition findLyricsMaxY (staffIdx : nat) (segs : list SegL) : list SegL * Q :=
  find_segs (findLyricsMaxY_seg staffIdx) qMax segs 0.

Definition findLyricsMinY (staffIdx : nat) (segs : list SegL) : list SegL * Q :=
  find_segs (findLyricsMinY_seg staffIdx) qMin segs 0.

(** The loop of [applyLyricsMax] / [applyLyricsMin] (lines 3093-3099,
    3122-3128): set the offset of each lyric placed at [p] and collect
    its shape, adjusted by [adj]. *)
Fixpoint set_collect (p : Placement) (y : Q) (adj : Rect -> Rect) (lys : list Lyric) : list Lyric * Shape :=
  match lys with
  | [] => ([], [])
  | l :: rest =>
      let '(rest', sh) := set_collect p y adj rest in
      if placed_at p l then let l' := set_userY y l in (l' :: rest', adj (lyric_rect l') :: sh)
      else (l :: rest', sh)
  end.

Definition apply_seg (p : Placement) (adj : Rect -> Rect) (staffIdx : nat) (y : Q) (s : SegL) : SegL :=
  if negb (isChordRest s) then s
  else match nth staffIdx (lyrics_of s) None with
       | None => s
       | Some lys =>
           let '(lys', sh) := set_collect p y adj lys in
           set_staff staffIdx lys' (nth staffIdx (staffShape s) [] ++ sh) s
       end.

(** [applyLyricsMax(Segment&, staffIdx, yMax)] (lines 3085-3102). *)
Definition applyLyricsMax_seg (staffIdx : nat) (yMax : Q) (s : SegL) : SegL :=
  apply_seg BELOW (fun r => adjusted r 0 0 0 (lyricsMinBottomDistance sty)) staffIdx yMax s.

(** [applyLyricsMin(Segment&, staffIdx, yMin)] (lines 3114-3131). *)
Definition applyLyricsMin_seg (staffIdx : nat) (yMin : Q) (s : SegL) : SegL :=
  apply_seg ABOVE (fun r => adjusted r 0 (- lyricsMinBottomDistance sty) 0 0) staffIdx yMin s.

(** [applyLyricsMax(Measure*, ...)], [applyLyricsMin(Measure*, ...)]. *)
Definition applyLyricsMax (staffIdx : nat) (yMax : Q) (segs : list SegL) : list SegL :=
  map (applyLyricsMax_seg staffIdx yMax) segs.

Definition applyLyricsMin (staffIdx : nat) (yMin : Q) (segs : list SegL) : list SegL :=
  map (applyLyricsMin_seg staffIdx yMin) segs.

(** [VerticalAlignRange::MEASURE] (lines 3528-3538). *)
Definition align_measure (segs : list SegL) : list SegL :=
  fold_left (fun segs staffIdx => let '(segs', yMax) := findLyricsMaxY staffIdx segs in
                                  applyLyricsMax staffIdx yMax segs') (seq 0 nstaves) segs.

(** [VerticalAlignRange::SYSTEM], first loop (lines 3543-3548). *)
Fixpoint system_find (staffIdx : nat) (mbs : list MBL) (yMax yMin : Q) : list MBL * Q * Q :=
  match mbs with
  | [] => ([], yMax, yMin)
  | MBox :: rest => let '(rest', a, b) := system_find staffIdx rest yMax yMin in (MBox :: rest', a, b)
  | MMeasure segs :: rest =>
      let '(segs1, y1) := findLyricsMaxY staffIdx segs in
      let '(segs2, y2) := findLyricsMinY staffIdx segs1 in
      let '(rest', a, b) := system_find staffIdx rest (qMax yMax y1) (qMin yMin y2) in
      (MMeasure segs2 :: rest', a, b)
  end.

(** Second loop (lines 3549-3554). *)
Definition system_apply (staffIdx : nat) (yMax yMin : Q) (mbs : list MBL) : list MBL :=
  map (fun mb => match mb with
                 | MBox => MBox
                 | MMeasure segs => MMeasure (applyLyricsMin staffIdx yMin (applyLyricsMax staffIdx yMax segs))
                 end) mbs.

Definition align_system (mbs : list MBL) : list MBL :=
  fold_left (fun mbs staffIdx => let '(mbs', yMax, yMin) := system_find staffIdx mbs 0 0 in
                                 system_apply staffIdx yMax yMin mbs') (seq 0 nstaves) mbs.

(** [VerticalAlignRange::SEGMENT] (lines 3557-3569). *)
Definition align_segment (segs : list SegL) : list SegL :=
  fold_left (fun segs staffIdx =>
               map (fun s => let '(s', yMax) := findLyricsMaxY_seg staffIdx s in
                             applyLyricsMax_seg staffIdx yMax s') segs) (seq 0 nstaves) segs.

(** Lines 3525-3570: the system's measures after the alignment. *)
Definition alignLyrics (mbs : list MBL) : list MBL :=
  match autoplaceVerticalAlignRange sty with
  | MEASURE => map (fun mb => match mb with MBox => MBox | MMeasure segs => MMeasure (align_measure segs) end) mbs
  | SYSTEM => align_system mbs
  | SEGMENT => map (fun mb => match mb with MBox => MBox | MMeasure segs => MMeasure (align_segment segs) end) mbs
  end.

End Align.

(** ** What the alignment does to the lyrics *)

(** Every lyric placed at [p] gets the offset [y]; the others are kept. *)
Definition relabel (p : Placement) (y : Q) (lys : list Lyric) : list Lyric :=
  map (fun l => if placed_at p l then set_userY y l else l) lys.

(** [f] on the lyrics of staff [i], nothing on the others. *)
Definition at_staff (i : nat) (f : list Lyric -> list Lyric) (j : nat) : list Lyric -> list Lyric :=
  if Nat.eqb j i then f else fun lys => lys.

(** [s'] is [s] with the lyrics of each staff [j] of a chord-rest
    segment transformed by [F j]; a segment of another type keeps its
    lyrics. *)
Definition seg_rel (F : nat -> list Lyric -> list Lyric) (s s' : SegL) : Prop :=
  isChordRest s' = isChordRest s /\
  forall j, nth j (lyrics_of s') None
            = if isChordRest s then option_map (F j) (nth j (lyrics_of s) None) else nth j (lyrics_of s) None.

Definition segs_rel (F : nat -> list Lyric -> list Lyric) : list SegL -> list SegL -> Prop :=
  Forall2 (seg_rel F).

Definition mb_rel (F : nat -> list Lyric -> list Lyric) (mb mb' : MBL) : Prop :=
  match mb, mb' with
  | MBox, MBox => True
  | MMeasure segs, MMeasure segs' => segs_rel F segs segs'
  | _, _ => False
  end.

(** The laws the staff loops need of such a relation: it composes, it
    depends on [F] only pointwise, and the identity relates a value to
    itself. *)
Class LyricsRel {T : Type} (R : (nat -> list Lyric -> list Lyric) -> T -> T -> Prop) := {
  rel_trans : forall F G a b c, R F a b -> R G b c -> R (fun j l => G j (F j l)) a c;
  rel_ext : forall F G a b, (forall j l, F j l = G j l) -> R F a b -> R G a b;
  rel_refl : forall a, R (fun _ l => l) a a }.

Lemma Forall2_compose {A B C} (R : A -> B -> Prop) (S : B -> C -> Prop) (U : A -> C -> Prop) :
  (forall x y z, R x y -> S y z -> U x z) ->
  forall l1 l2 l3, Forall2 R l1 l2 -> Forall2 S l2 l3 -> Forall2 U l1 l3.
Proof.
  intros HU l1 l2 l3 H12; revert l3. induction H12 as [|x y l1 l2 Hxy _ IH]; intros l3 H23; inversion H23; subst; constructor; eauto.
Qed.

Lemma Forall2_map_r {A} (R : A -> A -> Prop) (f : A -> A) l : (forall x, R x (f x)) -> Forall2 R l (map f l).
Proof. intros H. induction l; constructor; auto. Qed.

#[export] Instance Forall2_rel {T} (R : (nat -> list Lyric -> list Lyric) -> T -> T -> Prop) `{!LyricsRel R}
  : LyricsRel (fun F => Forall2 (R F)).
Proof.
  split.
  - intros F G a b c. apply Forall2_compose. intros x y z. apply rel_trans.
  - intros F G a b HFG. apply Forall2_impl. intros x y. apply rel_ext; exact HFG.
  - intros a. induction a; constructor; [apply rel_refl | assumption].
Qed.

#[export] Instance seg_rel_laws : LyricsRel seg_rel.
Proof.
  split.
  - intros F G a b c [Ec Hb] [Ec' Hc]. split; [congruence|]. intros j. rewrite Hc, Ec, Hb.
    destruct (isChordRest a); [destruct (nth j (lyrics_of a) None)|]; reflexivity.
  - intros F G a b HFG [Ec Hb]. split; [exact Ec|]. intros j. rewrite Hb.
    destruct (isChordRest a); [destruct (nth j (lyrics_of a) None); simpl; rewrite ?HFG|]; reflexivity.
  - intros a. split; [reflexivity|]. intros j. destruct (isChordRest a); [destruct (nth j (lyrics_of a) None)|]; reflexivity.
Qed.

#[export] Instance segs_rel_laws : LyricsRel segs_rel := Forall2_rel seg_rel.

#[export] Instance mb_rel_laws : LyricsRel mb_rel.
Proof.
  split.
  - intros F G [|a] [|b] [|c]; simpl; try tauto. apply rel_trans.
  - intros F G [|a] [|b]; simpl; try tauto. apply rel_ext.
  - intros [|a]; simpl; [exact I | apply rel_refl].
Qed.

Definition mbs_rel (F : nat -> list Lyric -> list Lyric) : list MBL -> list MBL -> Prop :=
  Forall2 (mb_rel F).

#[export] Instance mbs_rel_laws : LyricsRel mbs_rel := Forall2_rel mb_rel.

(** *** A loop over the staves *)

(** A loop over staves whose body, for staff [i], applies [op v] to
    the lyrics of staff [i] for some [good v], applies [op (Y j)] to the
    lyrics of each staff [j] it visits, for [good (Y j)] (the last body
    wins, [op] being idempotent in that sense). *)
Section Staves.

Context {T V : Type} (R : (nat -> list Lyric -> list Lyric) -> T -> T -> Prop) `{!LyricsRel R}.
Variables (good : V -> Prop) (op : V -> list Lyric -> list Lyric) (v0 : V).
Hypothesis good_v0 : good v0.
Hypothesis op_op : forall v w l, op v (op w l) = op v l.
Variable step : T -> nat -> T.
Hypothesis step_spec : forall t i, exists v, good v /\ R (at_staff i (op v)) t (step t i).

Lemma staves_fold L : forall t, exists Y : nat -> V, (forall j, good (Y j)) /\
  R (fun j => if existsb (Nat.eqb j) L then op (Y j) else fun l => l) t (fold_left step L t).
Proof.
  induction L as [|i L IH]; intros t; simpl.
  - exists (fun _ => v0). split; [auto | apply rel_refl].
  - destruct (step_spec t i) as (v & Hv & H1). destruct (IH (step t i)) as (Y & HY & H2).
    exists (fun j => if existsb (Nat.eqb j) L then Y j else v). split; [intros j; destruct existsb; auto|].
    eapply rel_ext, rel_trans; [|exact H1|exact H2]. intros j l. unfold at_staff.
    destruct (Nat.eqb_spec j i), (existsb (Nat.eqb j) L); simpl; rewrite ?op_op; reflexivity.
Qed.

End Staves.

Lemma existsb_seq j n : existsb (Nat.eqb j) (seq 0 n) = Nat.ltb j n.
Proof.
  apply eq_true_iff_eq. rewrite existsb_exists, Nat.ltb_lt. split.
  - intros (x & Hx & E). apply Nat.eqb_eq in E. subst. apply in_seq in Hx. lia.
  - intros H. exists j. rewrite in_seq, Nat.eqb_refl. split; [lia | reflexivity].
Qed.

(** *** The operations *)

Lemma relabel_relabel p y y' lys : relabel p y (relabel p y' lys) = relabel p y lys.
Proof.
  unfold relabel. rewrite map_map. apply map_ext. intros l.
  destruct (placed_at p l) eqn:E; [change (placed_at p (set_userY y' l)) with (placed_at p l)|]; rewrite E; reflexivity.
Qed.

Lemma relabel_swap y z lys : relabel BELOW y (relabel ABOVE z lys) = relabel ABOVE z (relabel BELOW y lys).
Proof.
  unfold relabel. rewrite !map_map. apply map_ext. intros [[] [] b x0 y0 u]; reflexivity.
Qed.

Lemma reset_collect_fst p lys : fst (reset_collect p lys) = relabel p 0 lys.
Proof.
  induction lys as [|l rest IH]; [reflexivity|]. simpl.
  destruct (reset_collect p rest) as [rest' sh]. simpl in IH. subst.
  destruct (placed_at p l); reflexivity.
Qed.

Lemma set_collect_fst p y adj lys : fst (set_collect p y adj lys) = relabel p y lys.
Proof.
  induction lys as [|l rest IH]; [reflexivity|]. simpl.
  destruct (set_collect p y adj rest) as [rest' sh]. simpl in IH. subst.
  destruct (placed_at p l); reflexivity.
Qed.

Lemma find_segs_fst f comb segs acc : fst (find_segs f comb segs acc) = map (fun s => fst (f s)) segs.
Proof.
  revert acc; induction segs as [|s rest IH]; intros acc; [reflexivity|]. simpl.
  destruct (f s) as [s' y]. specialize (IH (comb acc y)).
  destruct (find_segs f comb rest (comb acc y)) as [rest' a]. simpl in *. congruence.
Qed.

Lemma find_segs_max f segs acc : acc <= snd (find_segs f qMax segs acc).
Proof.
  revert acc; induction segs as [|s rest IH]; intros acc; simpl; [apply Qle_refl|].
  destruct (f s) as [s' y]. specialize (IH (qMax acc y)).
  destruct (find_segs f qMax rest (qMax acc y)) as [rest' a]. simpl in *. pose proof (qMax_ge_l acc y). lra.
Qed.

Lemma find_segs_min f segs acc : snd (find_segs f qMin segs acc) <= acc.
Proof.
  revert acc; induction segs as [|s rest IH]; intros acc; simpl; [apply Qle_refl|].
  destruct (f s) as [s' y]. specialize (IH (qMin acc y)).
  destruct (find_segs f qMin rest (qMin acc y)) as [rest' a]. simpl in *. pose proof (qMin_le_l acc y). lra.
Qed.

(** Changing the lyrics of staff [i] of a chord-rest segment to [f]
    of them. *)
Lemma seg_rel_set_staff i f s lys sh :
  isChordRest s = true -> nth i (lyrics_of s) None = Some lys ->
  seg_rel (at_staff i f) s (set_staff i (f lys) sh s).
Proof.
  intros Ec En. split; [reflexivity|]. intros j. unfold set_staff, at_staff; simpl. rewrite nth_set_nth, Ec.
  assert (Hi : Nat.ltb i (length (lyrics_of s)) = true).
  { apply Nat.ltb_lt. destruct (Nat.lt_ge_cases i (length (lyrics_of s))) as [|Hge]; [assumption|].
    rewrite nth_overflow in En by exact Hge. discriminate. }
  rewrite Hi, andb_true_r. destruct (Nat.eqb_spec i j), (Nat.eqb_spec j i); subst; try congruence.
  - rewrite En. reflexivity.
  - destruct (nth j (lyrics_of s) None); reflexivity.
Qed.

Lemma seg_rel_keep i f s :
  isChordRest s = false \/ nth i (lyrics_of s) None = None -> seg_rel (at_staff i f) s s.
Proof.
  intros H. split; [reflexivity|]. intros j. unfold at_staff.
  destruct (isChordRest s) eqn:Ec; [|reflexivity]. destruct H as [H|H]; [discriminate|].
  destruct (Nat.eqb_spec j i); [subst; rewrite H|destruct (nth j (lyrics_of s) None)]; reflexivity.
Qed.

Section Ops.

Variable sty : LStyle.
Variable minVerticalDistance : Shape -> Shape -> Q.

Lemma findLyricsMaxY_seg_rel i s :
  seg_rel (at_staff i (relabel BELOW 0)) s (fst (findLyricsMaxY_seg sty minVerticalDistance i s)).
Proof.
  unfold findLyricsMaxY_seg. destruct (isChordRest s) eqn:Ec; [|apply seg_rel_keep; auto].
  destruct (nth i (lyrics_of s) None) as [lys|] eqn:En; [|apply seg_rel_keep; auto].
  pose proof (reset_collect_fst BELOW lys) as H. destruct (reset_collect BELOW lys) as [lys' sh].
  simpl in H. subst. apply seg_rel_set_staff; assumption.
Qed.

Lemma findLyricsMinY_seg_rel i s :
  seg_rel (at_staff i (relabel ABOVE 0)) s (fst (findLyricsMinY_seg sty minVerticalDistance i s)).
Proof.
  unfold findLyricsMinY_seg. destruct (isChordRest s) eqn:Ec; [|apply seg_rel_keep; auto].
  destruct (nth i (lyrics_of s) None) as [lys|] eqn:En; [|apply seg_rel_keep; auto].
  pose proof (reset_collect_fst ABOVE lys) as H. destruct (reset_collect ABOVE lys) as [lys' sh].
  simpl in H. subst. apply seg_rel_set_staff; assumption.
Qed.

Lemma apply_seg_rel p adj i y s : seg_rel (at_staff i (relabel p y)) s (apply_seg p adj i y s).
Proof.
  unfold apply_seg. destruct (isChordRest s) eqn:Ec; [|apply seg_rel_keep; auto].
  destruct (nth i (lyrics_of s) None) as [lys|] eqn:En; [|apply seg_rel_keep; auto].
  pose proof (set_collect_fst p y adj lys) as H. destruct (set_collect p y adj lys) as [lys' sh].
  simpl in H. subst. apply seg_rel_set_staff; assumption.
Qed.

Lemma at_staff_comp i f g h : (forall l, f (g l) = h l) ->
  forall j l, at_staff i f j (at_staff i g j l) = at_staff i h j l.
Proof. intros H j l. unfold at_staff. destruct (Nat.eqb j i); auto. Qed.

Lemma findLyricsMaxY_spec i segs :
  let '(segs', y) := findLyricsMaxY sty minVerticalDistance i segs in
  0 <= y /\ segs_rel (at_staff i (relabel BELOW 0)) segs segs'.
Proof.
  unfold findLyricsMaxY. pose proof (find_segs_fst (findLyricsMaxY_seg sty minVerticalDistance i) qMax segs 0) as Hf.
  pose proof (find_segs_max (findLyricsMaxY_seg sty minVerticalDistance i) segs 0) as Hm.
  destruct (find_segs _ qMax segs 0) as [segs' y]. simpl in Hf, Hm. subst segs'.
  split; [exact Hm | apply Forall2_map_r, findLyricsMaxY_seg_rel].
Qed.

Lemma findLyricsMinY_spec i segs :
  let '(segs', y) := findLyricsMinY sty minVerticalDistance i segs in
  y <= 0 /\ segs_rel (at_staff i (relabel ABOVE 0)) segs segs'.
Proof.
  unfold findLyricsMinY. pose proof (find_segs_fst (findLyricsMinY_seg sty minVerticalDistance i) qMin segs 0) as Hf.
  pose proof (find_segs_min (findLyricsMinY_seg sty minVerticalDistance i) segs 0) as Hm.
  destruct (find_segs _ qMin segs 0) as [segs' y]. simpl in Hf, Hm. subst segs'.
  split; [exact Hm | apply Forall2_map_r, findLyricsMinY_seg_rel].
Qed.

Lemma applyLyricsMax_rel i y segs : segs_rel (at_staff i (relabel BELOW y)) segs (applyLyricsMax sty i y segs).
Proof. apply Forall2_map_r. intros s. apply apply_seg_rel. Qed.

Lemma applyLyricsMin_rel i y segs : segs_rel (at_staff i (relabel ABOVE y)) segs (applyLyricsMin sty i y segs).
Proof. apply Forall2_map_r. intros s. apply apply_seg_rel. Qed.

(** [findLyricsMaxY] then [applyLyricsMax] on a measure. *)
Lemma measure_staff_rel segs i : exists y, 0 <= y /\
  segs_rel (at_staff i (relabel BELOW y)) segs
    (let '(segs', yMax) := findLyricsMaxY sty minVerticalDistance i segs in applyLyricsMax sty i yMax segs').
Proof.
  pose proof (findLyricsMaxY_spec i segs) as H. destruct (findLyricsMaxY _ _ i segs) as [segs' y].
  destruct H as [Hy H1]. exists y. split; [exact Hy|].
  eapply rel_ext, rel_trans; [apply at_staff_comp, relabel_relabel | exact H1 | apply applyLyricsMax_rel].
Qed.

(** The lyrics part of [system_find]: each measure's lyrics of staff
    [i] are reset, [yMax] only grows and [yMin] only shrinks. *)
Lemma system_find_spec i mbs : forall a b, 0 <= a -> b <= 0 ->
  let '(mbs', A, B) := system_find sty minVerticalDistance i mbs a b in
  0 <= A /\ B <= 0 /\ mbs_rel (at_staff i (fun l => relabel ABOVE 0 (relabel BELOW 0 l))) mbs mbs'.
Proof.
  induction mbs as [|[|segs] rest IH]; intros a b Ha Hb; simpl.
  - split; [exact Ha|]. split; [exact Hb | constructor].
  - specialize (IH a b Ha Hb). destruct (system_find _ _ i rest a b) as [[rest' A] B].
    destruct IH as (H1 & H2 & H3). split; [exact H1|]. split; [exact H2 | constructor; [exact I | exact H3]].
  - pose proof (findLyricsMaxY_spec i segs) as Hx. destruct (findLyricsMaxY _ _ i segs) as [segs1 y1].
    pose proof (findLyricsMinY_spec i segs1) as Hn. destruct (findLyricsMinY _ _ i segs1) as [segs2 y2].
    destruct Hx as [Hy1 Hx], Hn as [Hy2 Hn].
    assert (Ha' : 0 <= qMax a y1) by (pose proof (qMax_ge_l a y1); lra).
    assert (Hb' : qMin b y2 <= 0) by (pose proof (qMin_le_l b y2); lra).
    specialize (IH _ _ Ha' Hb'). destruct (system_find _ _ i rest _ _) as [[rest' A] B].
    destruct IH as (H1 & H2 & H3). split; [exact H1|]. split; [exact H2|]. constructor; [cbn [mb_rel]|exact H3].
    eapply rel_ext, rel_trans; [apply at_staff_comp; reflexivity | exact Hx | exact Hn].
Qed.

Lemma system_apply_rel i y z mbs :
  mbs_rel (at_staff i (fun l => relabel ABOVE z (relabel BELOW y l))) mbs (system_apply sty i y z mbs).
Proof.
  apply Forall2_map_r. intros [|segs]; [exact I|cbn [mb_rel]].
  eapply rel_ext, rel_trans; [apply at_staff_comp; reflexivity | apply applyLyricsMax_rel | apply applyLyricsMin_rel].
Qed.

Lemma system_staff_rel mbs i : exists v, (0 <= fst v /\ snd v <= 0) /\
  mbs_rel (at_staff i (fun l => relabel ABOVE (snd v) (relabel BELOW (fst v) l))) mbs
    (let '(mbs', yMax, yMin) := system_find sty minVerticalDistance i mbs 0 0 in system_apply sty i yMax yMin mbs').
Proof.
  pose proof (system_find_spec i mbs 0 0 (Qle_refl 0) (Qle_refl 0)) as H.
  destruct (system_find _ _ i mbs 0 0) as [[mbs' y] z]. destruct H as (Hy & Hz & H1).
  exists (y, z). split; [split; assumption|]. simpl.
  eapply rel_ext, rel_trans; [|exact H1|apply system_apply_rel].
  apply at_staff_comp. intros l. rewrite relabel_swap, !relabel_relabel. reflexivity.
Qed.

Lemma fold_qmax_ge {A} (f : Q -> A -> Q) l a : (forall y x, y <= f y x) -> a <= fold_left f l a.
Proof.
  intros Hf. revert a; induction l as [|x l IH]; intros a; simpl; [apply Qle_refl|].
  specialize (IH (f a x)). specialize (Hf a x). lra.
Qed.

Lemma findLyricsMaxY_seg_nonneg i s : 0 <= snd (findLyricsMaxY_seg sty minVerticalDistance i s).
Proof.
  unfold findLyricsMaxY_seg. destruct (negb (isChordRest s)); [apply Qle_refl|].
  destruct (nth i (lyrics_of s) None) as [lys|]; [|apply Qle_refl].
  destruct (reset_collect BELOW lys) as [lys' sh]. apply fold_qmax_ge.
  intros y l. destruct (placed_at BELOW l); [|apply Qle_refl]. destruct (_ <?q _); [apply qMax_ge_l | apply Qle_refl].
Qed.

(** [findLyricsMaxY] then [applyLyricsMax] on a segment. *)
Lemma segment_staff_rel s i : exists y, 0 <= y /\
  seg_rel (at_staff i (relabel BELOW y)) s
    (let '(s', yMax) := findLyricsMaxY_seg sty minVerticalDistance i s in applyLyricsMax_seg sty i yMax s').
Proof.
  pose proof (findLyricsMaxY_seg_rel i s) as H1. pose proof (findLyricsMaxY_seg_nonneg i s) as Hy.
  destruct (findLyricsMaxY_seg _ _ i s) as [s' y]. exists y. split; [exact Hy|].
  eapply rel_ext, rel_trans; [apply at_staff_comp, relabel_relabel | exact H1 | apply apply_seg_rel].
Qed.

Variable nstaves : nat.

Lemma fold_map_staves (g : nat -> SegL -> SegL) L segs :
  fold_left (fun segs i => map (g i) segs) L segs = map (fun s => fold_left (fun s i => g i s) L s) segs.
Proof. revert segs; induction L as [|i L IH]; intros segs; simpl; [symmetry; apply map_id|]. rewrite IH, map_map. reflexivity. Qed.

(** The lyrics of staff [j] (a staff of the score) with [relabel]. *)
Definition staves_below (Y : nat -> Q) (j : nat) (lys : list Lyric) : list Lyric :=
  if Nat.ltb j nstaves then relabel BELOW (Y j) lys else lys.

(** C16. In [VerticalAlignRange::SYSTEM] mode, the alignment gives all
    autoplaced lyrics below a staff, in every measure of the system,
    one and the same offset [Y j >= 0], and all autoplaced lyrics above
    it one offset [Z j <= 0]; nothing else of the lyrics changes, and
    boxes stay boxes. *)
Theorem alignLyrics_system mbs :
  autoplaceVerticalAlignRange sty = SYSTEM ->
  exists Y Z : nat -> Q, (forall j, 0 <= Y j /\ Z j <= 0) /\
  mbs_rel (fun j lys => if Nat.ltb j nstaves then relabel ABOVE (Z j) (relabel BELOW (Y j) lys) else lys)
          mbs (alignLyrics sty minVerticalDistance nstaves mbs).
Proof.
  intros Hm. unfold alignLyrics, align_system. rewrite Hm.
  destruct (staves_fold mbs_rel (fun v => 0 <= fst v /\ snd v <= 0)
              (fun v l => relabel ABOVE (snd v) (relabel BELOW (fst v) l)) (0, 0)
              (conj (Qle_refl 0) (Qle_refl 0))
              ltac:(intros; cbv beta; rewrite relabel_swap, !relabel_relabel; reflexivity)
              _ system_staff_rel (seq 0 nstaves) mbs) as (YZ & HYZ & HR).
  exists (fun j => fst (YZ j)), (fun j => snd (YZ j)). split; [exact HYZ|].
  eapply rel_ext; [|exact HR]. intros j l. cbv beta. try unfold staves_below. rewrite existsb_seq. destruct (Nat.ltb j nstaves); reflexivity.
Qed.

(** C17. In [VerticalAlignRange::MEASURE] mode, each measure gives all
    autoplaced lyrics below a staff one offset [Y j >= 0]; lyrics above
    the staff keep their offsets (only [SYSTEM] mode moves them), and
    nothing else of the lyrics changes. *)
Theorem alignLyrics_measure mbs :
  autoplaceVerticalAlignRange sty = MEASURE ->
  Forall2 (fun mb mb' => exists Y : nat -> Q, (forall j, 0 <= Y j) /\ mb_rel (staves_below Y) mb mb')
          mbs (alignLyrics sty minVerticalDistance nstaves mbs).
Proof.
  intros Hm. unfold alignLyrics. rewrite Hm. apply Forall2_map_r. intros [|segs].
  - exists (fun _ => 0). split; [intros; apply Qle_refl | exact I].
  - destruct (staves_fold segs_rel (fun y => 0 <= y) (relabel BELOW) 0 (Qle_refl 0) (relabel_relabel BELOW)
                _ measure_staff_rel (seq 0 nstaves) segs) as (Y & HY & HR).
    exists Y. split; [exact HY|]. eapply rel_ext; [|exact HR]. intros j l. cbv beta. try unfold staves_below. rewrite existsb_seq. destruct (Nat.ltb j nstaves); reflexivity.
Qed.

(** In [VerticalAlignRange::SEGMENT] mode each chord-rest segment gives
    all autoplaced lyrics below a staff one offset [Y j >= 0]. *)
Theorem alignLyrics_segment mbs :
  autoplaceVerticalAlignRange sty = SEGMENT ->
  Forall2 (fun mb mb' => match mb, mb' with
                         | MBox, MBox => True
                         | MMeasure segs, MMeasure segs' =>
                             Forall2 (fun s s' => exists Y : nat -> Q, (forall j, 0 <= Y j) /\ seg_rel (staves_below Y) s s')
                                     segs segs'
                         | _, _ => False
                         end)
          mbs (alignLyrics sty minVerticalDistance nstaves mbs).
Proof.
  intros Hm. unfold alignLyrics. rewrite Hm. apply Forall2_map_r. intros [|segs]; [exact I|].
  unfold align_segment. rewrite fold_map_staves. apply Forall2_map_r. intros s.
  destruct (staves_fold seg_rel (fun y => 0 <= y) (relabel BELOW) 0 (Qle_refl 0) (relabel_relabel BELOW)
              _ segment_staff_rel (seq 0 nstaves) s) as (Y & HY & HR).
  exists Y. split; [exact HY|]. eapply rel_ext; [|exact HR]. intros j l. cbv beta. try unfold staves_below. rewrite existsb_seq. destruct (Nat.ltb j nstaves); reflexivity.
Qed.

End Ops.

End Lyrics.

Import Lyrics.

(** A vertical distance for the examples: the largest overlap of a
    rectangle of [a] over one of [b] it shares a horizontal extent with. *)
Definition wit_mvd (a b : Shape) : Q :=
  fold_left (fun d r1 => fold_left (fun d r2 =>
    if (rx r1 <?q rx r2 + rw r2) && (rx r2 <?q rx r1 + rw r1) then qMax d (ry r1 + rh r1 - ry r2) else d) b d) a (-1000).

Definition wit_lstyle (ar : VerticalAlignRange) : LStyle := mkLStyle 1 1 ar.

(** One staff, two measures of one chord-rest segment each, one lyric
    below the staff (10 below the top line, 2 high) in each: in the
    first a note reaches down to 12, in the second only to 4. *)
Definition wit_lyric : Lyric := mkLyric true BELOW (mkRect 0 0 5 2) 0 10 0.
Definition wit_seg (bottom : Q) : SegL := mkSegL true [Some [wit_lyric]] [[mkRect 0 0 5 bottom; lyric_rect wit_lyric]].
Definition wit_mbs : list MBL := [MMeasure [wit_seg 12]; MBox; MMeasure [wit_seg 4]].

Definition wit_offsets (mbs : list MBL) : list Q :=
  flat_map (fun mb => match mb with
                      | MBox => []
                      | MMeasure segs => flat_map (fun s => match nth 0 (lyrics_of s) None with
                                                            | Some lys => map userY lys
                                                            | None => [] end) segs
                      end) mbs.

Lemma alignLyrics_system_witness :
  exists Y Z : nat -> Q, (forall j, 0 <= Y j /\ Z j <= 0) /\
  mbs_rel (fun j lys => if Nat.ltb j 1 then relabel ABOVE (Z j) (relabel BELOW (Y j) lys) else lys)
          wit_mbs (alignLyrics (wit_lstyle SYSTEM) wit_mvd 1 wit_mbs).
Proof. apply alignLyrics_system. reflexivity. Defined.

Lemma alignLyrics_measure_witness :
  Forall2 (fun mb mb' => exists Y : nat -> Q, (forall j, 0 <= Y j) /\ mb_rel (staves_below 1 Y) mb mb')
          wit_mbs (alignLyrics (wit_lstyle MEASURE) wit_mvd 1 wit_mbs).
Proof. apply alignLyrics_measure. reflexivity. Defined.

(** The first lyric must move down by 12 - 10 + 1 = 3; in [SYSTEM]
    mode the second one follows it, in [MEASURE] and [SEGMENT] mode it
    stays. *)
Example alignLyrics_example :
  wit_offsets (alignLyrics (wit_lstyle SYSTEM) wit_mvd 1 wit_mbs) = [3; 3]
  /\ wit_offsets (alignLyrics (wit_lstyle MEASURE) wit_mvd 1 wit_mbs) = [3; 0]
  /\ wit_offsets (alignLyrics (wit_lstyle SEGMENT) wit_mvd 1 wit_mbs) = [3; 0].
Proof. vm_compute. repeat split. Qed.
