(* ===== verification/SearchNote.v ===== *)
(** * Searching a chord-rest by tick ([Score::searchNote])

    [searchNote(tick, track)] (layout.cpp 87-102) walks the chord-rest
    segments of the score and returns the chord-rest of [track] at
    [tick], or else the last one before [tick] when a later one exists
    (the first later one when none is before), and null when every
    chord-rest of the track lies before [tick].  The segments are given
    in score order as what [segment->cr(track)] returns for each of
    them; a chord-rest is its identity and its tick.  [searchNote_equiv]
    shows the loop equal to a declarative reference [searchNote_ref] on
    the track's chord-rests, whose ticks increase. *)

From Stdlib Require Import ZArith List Lia Bool Sorted.
From S2P Require Import Prelude.
Import ListNotations.
Open Scope Z_scope.

Module SearchNote.

(** What the search reads of a [ChordRest]. *)
Record CR := mkCR { cr_id : nat; tick : Z }.

(** The loop (lines 89-101) with [ipe], the last chord-rest seen. *)
Fixpoint search (t : Z) (ipe : option CR) (segs : list (option CR)) : option CR :=
  match segs with
  | [] => None
  | None :: rest => search t ipe rest
  | Some cr :: rest =>
      if tick cr =? t then Some cr
      else if t <? tick cr then match ipe with Some p => Some p | None => Some cr end
      else search t (Some cr) rest
  end.

(** [Score::searchNote(tick, track)]. *)
Definition searchNote (segs : list (option CR)) (t : Z) : option CR := search t None segs.

(** ** Reference *)

(** The track's chord-rests. *)
Fixpoint crs (segs : list (option CR)) : list CR :=
  match segs with
  | [] => []
  | None :: rest => crs rest
  | Some cr :: rest => cr :: crs rest
  end.

Fixpoint last_opt {A} (l : list A) : option A :=
  match l with
  | [] => None
  | [x] => Some x
  | _ :: t => last_opt t
  end.

(** The chord-rest at [t]; else, when one lies after [t], the last one
    before [t] (or the first after it when none is before); else none. *)
Definition searchNote_ref (t : Z) (l : list CR) : option CR :=
  match find (fun c => tick c =? t) l with
  | Some c => Some c
  | None =>
      match find (fun c => t <? tick c) l with
      | None => None
      | Some c => match last_opt (filter (fun c => tick c <? t) l) with
                  | Some p => Some p
                  | None => Some c
                  end
      end
  end.

Definition tick_lt (a b : CR) : Prop := tick a < tick b.

Definition option_list {A} (o : option A) : list A := match o with Some x => [x] | None => [] end.

(** ** The loop computes the reference *)

Lemma find_none {A} (f : A -> bool) l : (forall x, In x l -> f x = false) -> find f l = None.
Proof. induction l as [|x l IH]; intros H; simpl; [reflexivity|]. rewrite H by (left; reflexivity). apply IH. intros y Hy. apply H. right. exact Hy. Qed.

Lemma find_skip {A} (f : A -> bool) l1 l2 : (forall x, In x l1 -> f x = false) -> find f (l1 ++ l2) = find f l2.
Proof. induction l1 as [|x l IH]; intros H; simpl; [reflexivity|]. rewrite H by (left; reflexivity). apply IH. intros y Hy. apply H. right. exact Hy. Qed.

Lemma filter_none {A} (f : A -> bool) l : (forall x, In x l -> f x = false) -> filter f l = [].
Proof. induction l as [|x l IH]; intros H; simpl; [reflexivity|]. rewrite H by (left; reflexivity). apply IH. intros y Hy. apply H. right. exact Hy. Qed.

Lemma last_opt_app {A} (l1 l2 : list A) x : last_opt (l1 ++ x :: l2) = last_opt (x :: l2).
Proof.
  induction l1 as [|a l1 IH]; [reflexivity|]. rewrite <- app_comm_cons, <- IH.
  destruct l1; reflexivity.
Qed.

Lemma StronglySorted_app_inv {A} (R : A -> A -> Prop) l1 l2 : StronglySorted R (l1 ++ l2) ->
  StronglySorted R l1 /\ StronglySorted R l2 /\ (forall x y, In x l1 -> In y l2 -> R x y).
Proof.
  induction l1 as [|a l1 IH]; simpl; intros H; [split; [constructor | split; [exact H | intros _ _ []]]|].
  apply StronglySorted_inv in H as [H Hf]. destruct (IH H) as (H1 & H2 & H3). rewrite Forall_forall in Hf.
  split; [constructor; [exact H1 | apply Forall_forall; intros x Hx; apply Hf, in_or_app; left; exact Hx]|].
  split; [exact H2|]. intros x y [<-|Hx] Hy; [apply Hf, in_or_app; right; exact Hy | exact (H3 x y Hx Hy)].
Qed.

Lemma sorted_after c l : StronglySorted tick_lt (c :: l) -> forall x, In x l -> tick c < tick x.
Proof. intros H x Hx. inversion H as [|? ? _ Hf]; subst. rewrite Forall_forall in Hf. exact (Hf x Hx). Qed.

Lemma ipe_list_before t ipe : (forall p, ipe = Some p -> tick p < t) ->
  forall x, In x (option_list ipe) -> tick x < t.
Proof. intros H x Hx. destruct ipe as [p|]; [destruct Hx as [<-|[]]; auto | destruct Hx]. Qed.

Lemma search_ref t segs : forall ipe,
  StronglySorted tick_lt (option_list ipe ++ crs segs) ->
  (forall p, ipe = Some p -> tick p < t) ->
  search t ipe segs = searchNote_ref t (option_list ipe ++ crs segs).
Proof.
  induction segs as [|[cr|] rest IH]; intros ipe Hs Hp; simpl.
  - rewrite app_nil_r. pose proof (ipe_list_before t ipe Hp) as Hb. unfold searchNote_ref.
    rewrite find_none by (intros x Hx; apply Z.eqb_neq; specialize (Hb x Hx); lia).
    rewrite find_none by (intros x Hx; apply Z.ltb_ge; specialize (Hb x Hx); lia). reflexivity.
  - pose proof (ipe_list_before t ipe Hp) as Hb.
    assert (Hcr : forall x, In x (option_list ipe) -> tick x < tick cr).
    { intros x Hx. apply StronglySorted_app_inv in Hs as (_ & _ & H). apply H; [exact Hx | left; reflexivity]. }
    assert (Hrest : forall x, In x (crs rest) -> tick cr < tick x).
    { apply sorted_after. apply StronglySorted_app_inv in Hs as (_ & H & _). exact H. }
    unfold searchNote_ref. rewrite !(find_skip _ (option_list ipe)) by
      (intros x Hx; specialize (Hb x Hx); first [apply Z.eqb_neq | apply Z.ltb_ge]; lia).
    simpl. destruct (Z.eqb_spec (tick cr) t); [reflexivity|]. destruct (Z.ltb_spec t (tick cr)).
    + rewrite find_none by (intros x Hx; specialize (Hrest x Hx); apply Z.eqb_neq; lia).
      rewrite filter_app. simpl. destruct (Z.ltb_spec (tick cr) t); [lia|].
      rewrite (filter_none _ (crs rest)) by (intros x Hx; specialize (Hrest x Hx); apply Z.ltb_ge; lia). rewrite app_nil_r.
      destruct ipe as [p|]; simpl; [rewrite (proj2 (Z.ltb_lt (tick p) t)) by (apply Hp; reflexivity)|]; reflexivity.
    + rewrite IH; [| |intros p [= <-]; lia].
      * unfold searchNote_ref. simpl. destruct (Z.eqb_spec (tick cr) t); [contradiction|].
        destruct (Z.ltb_spec t (tick cr)); [lia|]. rewrite filter_app. simpl.
        destruct (Z.ltb_spec (tick cr) t); [|lia]. rewrite last_opt_app. reflexivity.
      * apply StronglySorted_app_inv in Hs as (_ & Hs2 & _). exact Hs2.
  - apply IH; assumption.
Qed.

(** C19. On a track whose chord-rests have increasing ticks,
    [searchNote] returns the chord-rest at [tick]; failing that, when a
    chord-rest lies after [tick], the last one before it, or the first
    one after it if none is before; and null when all lie before
    [tick]. *)
Theorem searchNote_equiv segs t :
  StronglySorted tick_lt (crs segs) -> searchNote segs t = searchNote_ref t (crs segs).
Proof. intros Hs. apply (search_ref t segs None Hs). discriminate. Qed.

End SearchNote.

Import SearchNote.

(** Chord-rests at ticks 0, 480 and 960, with a segment of another
    voice (no chord-rest on the track) between the first two. *)
Definition wit_track : list (option CR) := [Some (mkCR 1 0); None; Some (mkCR 2 480); Some (mkCR 3 960)].

Lemma searchNote_equiv_witness :
  StronglySorted tick_lt (crs wit_track) /\ searchNote wit_track 700 = searchNote_ref 700 (crs wit_track).
Proof.
  assert (H : StronglySorted tick_lt (crs wit_track)).
  { repeat constructor; unfold tick_lt; simpl; lia. }
  split; [exact H | apply searchNote_equiv; exact H].
Defined.

(** The comment says "before or at [tick]", but past the last
    chord-rest the search gives null: at 1000 there is no answer,
    at 700 it is the chord-rest at 480, at 480 that one, before 0 the
    first one (after [tick]). *)
Example searchNote_past_end :
  searchNote wit_track 1000 = None /\ searchNote wit_track 700 = Some (mkCR 2 480)
  /\ searchNote wit_track 480 = Some (mkCR 2 480) /\ searchNote wit_track (-5) = Some (mkCR 1 0).
Proof. repeat split. Qed.
