(* ===== verification/TopBeam.v ===== *)
(** * Which pass lays out a beam ([isTopBeam], [notTopBeam])

    A beam is laid out by its first chord-rest, in one of two places:
    [collectSystem] lays out the beams [isTopBeam] accepts (layout.cpp
    3472) before the segment shapes are computed, and [layoutSystem]'s
    spanner pass the beams [notTopBeam] accepts (line 3751), the cross
    staff beams, once all staves are placed.  [isTopBeam] (2959-2974)
    and [notTopBeam] (2980-2997) are modelled over what they read: the
    chord-rest's identity and beam, the beam's elements (identity and
    [staffMove()]) and [cross()].  Theorem [top_beam_exclusive]: for
    the first chord-rest of a beam exactly one of them holds, and for
    any other chord-rest neither, so every beam is laid out exactly
    once, by its first chord-rest. *)

From Stdlib Require Import ZArith List Bool.
From S2P Require Import Prelude.
Import ListNotations.
Open Scope Z_scope.

Module TopBeam.

(** An element of a beam: its identity and [staffMove()]. *)
Record BElem := mkBElem { be_id : nat; staffMove : Z }.

(** What the tests read of a [Beam]. *)
Record Beam := mkBeam { elements : list BElem; cross : bool }.

(** ... and of a [ChordRest]. *)
Record ChordRest := mkChordRest { cr_id : nat; beam : option Beam }.

(** [cr->beam()->elements().front() == cr]. *)
Definition is_front (cr : ChordRest) (b : Beam) : bool :=
  match elements b with
  | e :: _ => Nat.eqb (be_id e) (cr_id cr)
  | [] => false
  end.

(** The [movedUp] loop: true until an element with [staffMove() >= 0]
    is met, then false and [break]. *)
Fixpoint movedUp (es : list BElem) : bool :=
  match es with
  | [] => true
  | e :: rest => if 0 <=? staffMove e then false else movedUp rest
  end.

(** [isTopBeam] (lines 2959-2974). *)
Definition isTopBeam (cr : ChordRest) : bool :=
  match beam cr with
  | Some b =>
      if is_front cr b then
        let mu := movedUp (elements b) in
        if negb (cross b) && negb mu then true else false
      else false
  | None => false
  end.

(** [notTopBeam] (lines 2980-2997). *)
Definition notTopBeam (cr : ChordRest) : bool :=
  match beam cr with
  | Some b =>
      if is_front cr b then
        if cross b then true
        else let mu := movedUp (elements b) in if mu then true else false
      else false
  | None => false
  end.

(** The chord-rest that lays out its beam. *)
Definition beam_start (cr : ChordRest) : bool :=
  match beam cr with Some b => is_front cr b | None => false end.

(** Every beam is laid out by exactly one of the two passes: for
    the first chord-rest of a beam exactly one of [isTopBeam] and
    [notTopBeam] holds, and for every other chord-rest neither. *)
Theorem top_beam_exclusive cr :
  isTopBeam cr = beam_start cr && negb (notTopBeam cr)
  /\ (notTopBeam cr = true -> beam_start cr = true).
Proof.
  unfold isTopBeam, notTopBeam, beam_start. destruct (beam cr) as [b|]; [|split; [reflexivity | discriminate]].
  destruct (is_front cr b); [|split; [reflexivity | discriminate]].
  split; [|reflexivity]. destruct (cross b), (movedUp (elements b)); reflexivity.
Qed.

(** [movedUp] holds exactly when every element of the beam was moved
    to the staff above. *)
Lemma movedUp_forallb es : movedUp es = forallb (fun e => staffMove e <? 0) es.
Proof.
  induction es as [|e rest IH]; [reflexivity|]. simpl. rewrite IH.
  destruct (Z.leb_spec 0 (staffMove e)), (Z.ltb_spec (staffMove e) 0); simpl; try reflexivity; exfalso; Lia.lia.
Qed.

End TopBeam.

Import TopBeam.

(** A beam over two chord-rests of which only the second moved to the
    staff above: laid out by [collectSystem] through its first
    chord-rest; a beam whose chord-rests all moved up: laid out by the
    spanner pass. *)
Example top_beam_example :
  let b1 := mkBeam [mkBElem 1 0; mkBElem 2 (-1)] false in
  let b2 := mkBeam [mkBElem 3 (-1); mkBElem 4 (-1)] false in
  (isTopBeam (mkChordRest 1 (Some b1)), notTopBeam (mkChordRest 1 (Some b1)),
   isTopBeam (mkChordRest 2 (Some b1)), notTopBeam (mkChordRest 2 (Some b1)),
   isTopBeam (mkChordRest 3 (Some b2)), notTopBeam (mkChordRest 3 (Some b2)))
  = (true, false, false, false, false, true).
Proof. reflexivity. Qed.
