(* ===== verification/Divider.v ===== *)
(** * System dividers ([checkDivider])

    [layoutPage] (layout.cpp 1841-1843) calls [checkDivider] for both
    sides of each system but the last on a page, with [sdd], the
    distance from the system's top to the middle of the gap below it.
    [checkDivider(left, s, sdd)] (1756-1778): when the style asks for a
    divider on that side, the system's divider (a new generated one if
    it has none) is laid out and placed [height / 2 + sdd] down; else
    a generated divider is deleted and a user one removed through the
    undo stack ([undoRemoveElement]).

    A system is its two divider slots; the undo stack is the list of
    elements [undoRemoveElement] has removed.  A divider's height after
    [layout()] (its side's symbol, outside src/) is a section variable;
    [adjustReadPos] (user offsets) is not modelled. *)

From Stdlib Require Import QArith Lqa List Bool.
From S2P Require Import Prelude.
Import ListNotations.

Module Divider.

(** [SystemDivider]: its side ([Type::LEFT] or [RIGHT]), [generated()]
    and [rypos()]. *)
Record Divider := mkDivider { isLeft : bool; dv_generated : bool; dv_y : Q }.

(** A [System]'s dividers. *)
Record SysD := mkSysD { systemDividerLeft : option Divider; systemDividerRight : option Divider }.

Record DStyle := mkDStyle { dividerLeft : bool; dividerRight : bool }.

Section Check.

Variable sty : DStyle.
(** [divider->height()] after [divider->layout()]: the height of the
    symbol the style gives the divider's side. *)
Variable height : bool -> Q.

Definition divider_at (left : bool) (s : SysD) : option Divider :=
  if left then systemDividerLeft s else systemDividerRight s.

(** [s->add(divider)] / [s->remove(divider)] on one side. *)
Definition set_divider (left : bool) (d : option Divider) (s : SysD) : SysD :=
  if left then mkSysD d (systemDividerRight s) else mkSysD (systemDividerLeft s) d.

(** [checkDivider(left, s, sdd)] (lines 1756-1778), with the undo
    stack. *)
Definition checkDivider (left : bool) (s : SysD) (undo : list Divider) (sdd : Q) : SysD * list Divider :=
  if (if left then dividerLeft sty else dividerRight sty) then
    let d := match divider_at left s with
             | Some d => d
             | None => mkDivider left true 0
             end in
    (set_divider left (Some (mkDivider (isLeft d) (dv_generated d) (height (isLeft d) * (1 # 2) + sdd))) s, undo)
  else
    match divider_at left s with
    | Some d => if dv_generated d then (set_divider left None s, undo)
                else (set_divider left None s, undo ++ [d])
    | None => (s, undo)
    end.

(** Line 1841: [sdd] for system [s1] above [s2], [s2] about to move
    down by [yoff]. *)
Definition sdd_of (y1 h1 y2 yoff : Q) : Q := (y2 + yoff - y1 - h1) * (1 # 2) + h1.

(** Lines 1841-1843. *)
Definition add_dividers (s : SysD) (undo : list Divider) (y1 h1 y2 yoff : Q) : SysD * list Divider :=
  let sdd := sdd_of y1 h1 y2 yoff in
  let '(s, undo) := checkDivider true s undo sdd in
  checkDivider false s undo sdd.

Definition side_on (left : bool) : bool := if left then dividerLeft sty else dividerRight sty.

(** What a side ends as: a divider placed [height / 2 + sdd] down when
    the style asks for one (the old one, or a new generated one of that
    side), none otherwise. *)
Definition side_ok (left : bool) (s0 s : SysD) (sdd : Q) : Prop :=
  if side_on left then
    exists d, divider_at left s = Some d /\ dv_y d == height (isLeft d) * (1 # 2) + sdd
              /\ match divider_at left s0 with
                 | Some d0 => isLeft d = isLeft d0 /\ dv_generated d = dv_generated d0
                 | None => isLeft d = left /\ dv_generated d = true
                 end
  else divider_at left s = None.

(** The user divider a side loses (it goes to the undo stack). *)
Definition removed (left : bool) (s0 : SysD) : list Divider :=
  if side_on left then []
  else match divider_at left s0 with
       | Some d => if dv_generated d then [] else [d]
       | None => []
       end.

Lemma divider_at_set left left' d s :
  divider_at left (set_divider left' d s) = if Bool.eqb left left' then d else divider_at left s.
Proof. destruct left, left'; reflexivity. Qed.

Lemma side_ok_at left s0 s0' s s' sdd :
  divider_at left s0 = divider_at left s0' -> divider_at left s = divider_at left s' ->
  side_ok left s0 s sdd -> side_ok left s0' s' sdd.
Proof. intros E0 E. unfold side_ok. rewrite E0, E. tauto. Qed.

Lemma removed_at left s s' : divider_at left s = divider_at left s' -> removed left s = removed left s'.
Proof. intros E. unfold removed. rewrite E. reflexivity. Qed.

Lemma checkDivider_side left s undo sdd :
  let '(s', undo') := checkDivider left s undo sdd in
  side_ok left s s' sdd /\ divider_at (negb left) s' = divider_at (negb left) s /\ undo' = undo ++ removed left s.
Proof.
  unfold checkDivider, side_ok, removed, side_on.
  assert (Hn : Bool.eqb (negb left) left = false) by (destruct left; reflexivity).
  destruct (if left then dividerLeft sty else dividerRight sty).
  - rewrite !divider_at_set, eqb_reflx, Hn, app_nil_r. split; [|split; reflexivity].
    eexists. split; [reflexivity|]. split; [apply Qeq_refl|]. destruct (divider_at left s); simpl; auto.
  - destruct (divider_at left s) as [d0|] eqn:E; [destruct (dv_generated d0)|];
      rewrite ?divider_at_set, ?eqb_reflx, ?Hn, ?app_nil_r; auto.
Qed.

(** C18. [layoutPage]'s two calls give each side of the system a divider
    exactly when the style asks for one, placed half its height below
    the middle of the gap under the system ([sdd]), keeping an existing
    divider's side and user flag; a divider the style no longer wants
    is deleted when generated, and a user divider goes to the undo
    stack, left before right, so that it can be restored. *)
Theorem add_dividers_spec s undo y1 h1 y2 yoff :
  let sdd := sdd_of y1 h1 y2 yoff in
  let '(s', undo') := add_dividers s undo y1 h1 y2 yoff in
  side_ok true s s' sdd /\ side_ok false s s' sdd /\ undo' = undo ++ removed true s ++ removed false s.
Proof.
  cbv zeta. unfold add_dividers.
  pose proof (checkDivider_side true s undo (sdd_of y1 h1 y2 yoff)) as H1.
  destruct (checkDivider true s undo _) as [s1 u1]. destruct H1 as (L1 & R1 & U1).
  pose proof (checkDivider_side false s1 u1 (sdd_of y1 h1 y2 yoff)) as H2.
  destruct (checkDivider false s1 u1 _) as [s2 u2]. destruct H2 as (L2 & R2 & U2).
  split; [|split].
  - exact (side_ok_at true s s s1 s2 _ eq_refl (eq_sym R2) L1).
  - exact (side_ok_at false s1 s s2 s2 _ R1 eq_refl L2).
  - rewrite U2, U1, (removed_at false s1 s R1), app_assoc. reflexivity.
Qed.

End Check.

End Divider.

Import Divider.

(** Left dividers on, right ones off; the system has a user divider on
    the right and none on the left.  Between a system at 0 (40 high)
    and one at 60, the gap's middle is 50 down, so a new generated left
    divider 4 high goes to 52; the user divider leaves for the undo
    stack. *)
Example add_dividers_example :
  add_dividers (mkDStyle true false) (fun _ => 4) (mkSysD None (Some (mkDivider false false 7))) [] 0 40 60 0
  = (mkSysD (Some (mkDivider true true (4 * (1 # 2) + ((60 + 0 - 0 - 40) * (1 # 2) + 40)))) None,
     [mkDivider false false 7]).
Proof. reflexivity. Qed.
