(* ===== verification/Fingering.v ===== *)
(** * Placing a fingering ([Score::layoutFingering])

    [layoutFingering(f)] (layout.cpp 1689-1750) offsets a fingering
    (or string number) from its note: for a chord of one note, half a
    head to the right, above the head or, when [below], under it, by
    the head's height and 0.4 sp, further out when the measure has
    voices and the chord no beam ([tight]) or when the stem is on that
    side; for a chord of several notes one space to the left.  A
    fingering moved both ways stops being autoplaced.

    What the function reads is given as data: the fingering's text
    style, user offset and autoplace flag; the chord's direction, beam,
    stem (its height), number of notes and whether its measure has
    voices on the staff; the part's number of staves and the staff's
    index in it; the head's size and the spatium.  [f->layout()] (the
    text layout, outside src/) does not change these. *)

From Stdlib Require Import QArith Lqa Bool.
From S2P Require Import Prelude.

Module Fingering.

(** [TextStyleType], with the values the function tests. *)
Inductive TextStyleType := FINGERING | RH_GUITAR_FINGERING | STRING_NUMBER | OTHER_TEXT_STYLE.

Record Fingering := mkFingering { textStyleType : TextStyleType; userOff : Q * Q; autoplace : bool }.

Record FChord := mkFChord {
  up : bool; hasBeam : bool; stem : option Q; nnotes : nat; hasVoices : bool }.

Record FContext := mkFContext {
  partStaves : nat; rstaff : nat; headWidth : Q; headHeight : Q; spatium : Q }.

(** Line 1694. *)
Definition fingering_style (t : TextStyleType) : bool :=
  match t with FINGERING | RH_GUITAR_FINGERING | STRING_NUMBER => true | OTHER_TEXT_STYLE => false end.

(** Line 1702. *)
Definition below (c : FChord) (k : FContext) : bool :=
  if hasVoices c then negb (up c) else Nat.ltb 1 (partStaves k) && Nat.eqb (rstaff k) (partStaves k - 1).

(** Line 1703. *)
Definition tight (c : FChord) : bool := hasVoices c && negb (hasBeam c).

(** Lines 1706-1746: the offset. *)
Definition offset (c : FChord) (k : FContext) : Q * Q :=
  let sp := spatium k in
  let fh := headHeight k in
  if Nat.eqb (nnotes c) 1 then
    let x := headWidth k * (1 # 2) in
    if below c k then
      let y := fh + sp * (4 # 10) in
      if tight c then
        let y := y + (1 # 2) * sp in
        let x := match stem c with Some _ => x + (1 # 2) * sp | None => x end in
        (x, y)
      else match stem c with
           | Some h => if negb (up c) then (x - sp * (4 # 10), y + h) else (x, y)
           | None => (x, y)
           end
    else
      let y := - headHeight k - sp * (4 # 10) in
      if tight c then
        let y := y - (1 # 2) * sp in
        let x := match stem c with Some _ => x - (1 # 2) * sp | None => x end in
        (x, y)
      else match stem c with
           | Some h => if up c then (x + sp * (4 # 10), y - h) else (x, y)
           | None => (x, y)
           end
  else (0 - sp, 0).

(** [Score::layoutFingering(f)]: the fingering after it, [None] for a
    null [f]. *)
Definition layoutFingering (f : option Fingering) (c : FChord) (k : FContext) : option Fingering :=
  match f with
  | None => None
  | Some f =>
      if negb (fingering_style (textStyleType f)) then Some f
      else
        let '(x, y) := offset c k in
        Some (mkFingering (textStyleType f) (x, y)
                (if negb (Qeq_bool x 0) && negb (Qeq_bool y 0) then false else autoplace f))
  end.

(** ** The fingering clears the head on the side [below] chooses *)

Lemma offset_single c k :
  nnotes c = 1%nat -> 0 <= headHeight k -> 0 < spatium k ->
  (forall h, stem c = Some h -> 0 <= h) ->
  let '(x, y) := offset c k in
  if below c k then headHeight k + spatium k * (4 # 10) <= y else y <= - headHeight k - spatium k * (4 # 10).
Proof.
  intros Hn Hh Hs Hst. unfold offset. rewrite Hn. simpl Nat.eqb. cbv zeta.
  destruct (stem c) as [h|]; [pose proof (Hst h eq_refl)|];
    destruct (below c k), (tight c), (up c); simpl; lra.
Qed.

(** For a fingering, right-hand guitar fingering or string number
    on a one-note chord (head height >= 0, spatium > 0, stem height >= 0),
    [layoutFingering] puts it at least the head's height and 0.4 sp
    below the note when [below] (voices: stem up; else the last staff of
    a part of several staves) and as far above it otherwise; it stops
    autoplacing it unless its horizontal offset is 0.  Any other text
    style is left unchanged. *)
Theorem layoutFingering_side f c k :
  nnotes c = 1%nat -> 0 <= headHeight k -> 0 < spatium k -> (forall h, stem c = Some h -> 0 <= h) ->
  match layoutFingering (Some f) c k with
  | Some f' =>
      if fingering_style (textStyleType f) then
        textStyleType f' = textStyleType f
        /\ (if below c k then headHeight k + spatium k * (4 # 10) <= snd (userOff f')
            else snd (userOff f') <= - headHeight k - spatium k * (4 # 10))
        /\ autoplace f' = autoplace f && Qeq_bool (fst (userOff f')) 0
      else f' = f
  | None => False
  end.
Proof.
  intros Hn Hh Hs Hst. pose proof (offset_single c k Hn Hh Hs Hst) as H. unfold layoutFingering.
  destruct (fingering_style (textStyleType f)); simpl; [|reflexivity].
  destruct (offset c k) as [x y]. simpl. split; [reflexivity|]. split; [exact H|].
  assert (Hy : Qeq_bool y 0 = false).
  { apply Bool.not_true_iff_false. intros E. apply Qeq_bool_eq in E. destruct (below c k); lra. }
  rewrite Hy. destruct (Qeq_bool x 0), (autoplace f); reflexivity.
Qed.

End Fingering.

Import Fingering.

(** One-note chord, stem up (height 3.5), no voices, top staff of a
    piano part: the fingering goes above, 1 + 0.4 + 3.5 up and 0.4
    right of the head's middle; on the lower staff with the stem down
    it goes below, on the stem side. *)
Definition wit_chord (u : bool) : FChord := mkFChord u false (Some (7 # 2)) 1 false.
Definition wit_ctx (r : nat) : FContext := mkFContext 2 r (3 # 2) 1 1.
Definition wit_fingering : Fingering := mkFingering FINGERING (0, 0) true.

Lemma layoutFingering_side_witness :
  match layoutFingering (Some wit_fingering) (wit_chord true) (wit_ctx 0) with
  | Some f' =>
      if fingering_style (textStyleType wit_fingering) then
        textStyleType f' = textStyleType wit_fingering
        /\ (if below (wit_chord true) (wit_ctx 0) then headHeight (wit_ctx 0) + spatium (wit_ctx 0) * (4 # 10) <= snd (userOff f')
            else snd (userOff f') <= - headHeight (wit_ctx 0) - spatium (wit_ctx 0) * (4 # 10))
        /\ autoplace f' = autoplace wit_fingering && Qeq_bool (fst (userOff f')) 0
      else f' = wit_fingering
  | None => False
  end.
Proof.
  apply layoutFingering_side; [reflexivity | simpl; lra | simpl; lra | intros h E; injection E as <-; lra].
Defined.

Example layoutFingering_example :
  option_map userOff (layoutFingering (Some wit_fingering) (wit_chord true) (wit_ctx 0))
    = Some ((3 # 2) * (1 # 2) + 1 * (4 # 10), - 1 - 1 * (4 # 10) - (7 # 2))
  /\ option_map userOff (layoutFingering (Some wit_fingering) (wit_chord false) (wit_ctx 1))
    = Some ((3 # 2) * (1 # 2) - 1 * (4 # 10), 1 + 1 * (4 # 10) + (7 # 2)).
Proof. split; reflexivity. Qed.
