(* ===== verification/SpannerLayout.v ===== *)
(** * Re-layout after dragging a staff ([Score::layoutSpanner])

    [layoutSpanner()] (layout.cpp 1198-1223) walks every track and, for
    each track, every segment: on the last track it lays out the
    segment's annotations, and for a chord on the track its stem
    ([layoutStem]) and then, note by note, the note's tie and the
    spanners it starts; at the end it rebuilds the BSP tree.  The
    layout functions it calls are outside src/, so the model is the
    sequence of calls it makes ([Ev]).  Theorems: each annotation is
    laid out exactly once; a chord's stem is laid out before its ties
    and spanners; the annotations come after every chord of the other
    tracks. *)

From Stdlib Require Import List Lia Arith Bool.
From S2P Require Import Prelude.
Import ListNotations.
Open Scope nat_scope.

Module SpannerLayout.

(** A note: its [tieFor()] and [spannerFor()], by identity. *)
Record NoteS := mkNoteS { tieFor : option nat; spannerFor : list nat }.

(** [segment->element(track)]: a chord (identity, notes) or another
    element. *)
Inductive ElemS := EChord (c : nat) (notes : list NoteS) | EOther.

(** A segment: its identity, its number of annotations and its
    element per track. *)
Record SegS := mkSegS { seg_id : nat; nannotations : nat; elements : list (option ElemS) }.

(** The calls [layoutSpanner] makes. *)
Inductive Ev :=
  | LayoutAnnotation (s i : nat)   (** [segment->annotations().at(i)->layout()] *)
  | LayoutStem (c : nat)           (** [c->layoutStem()] *)
  | LayoutTie (t : nat)            (** [tie->layout()] *)
  | LayoutSpannerEv (sp : nat)     (** [sp->layout()] *)
  | RebuildBspTree.

Definition Ev_eq_dec (a b : Ev) : {a = b} + {a <> b}.
Proof. decide equality; apply Nat.eq_dec. Defined.

(** Lines 1213-1217: a note's tie, then its spanners. *)
Definition note_events (n : NoteS) : list Ev :=
  match tieFor n with Some t => [LayoutTie t] | None => [] end ++ map LayoutSpannerEv (spannerFor n).

(** Lines 1208-1219: a chord on the track. *)
Definition chord_events (e : option ElemS) : list Ev :=
  match e with
  | Some (EChord c notes) => LayoutStem c :: flat_map note_events notes
  | _ => []
  end.

(** Lines 1203-1219: one segment on [track]. *)
Definition seg_events (tracks track : nat) (s : SegS) : list Ev :=
  (if Nat.eqb track (tracks - 1) then map (LayoutAnnotation (seg_id s)) (seq 0 (nannotations s)) else [])
  ++ chord_events (nth track (elements s) None).

(** [Score::layoutSpanner()] (lines 1198-1223): the calls in order. *)
Definition layoutSpanner (tracks : nat) (segs : list SegS) : list Ev :=
  flat_map (fun track => flat_map (seg_events tracks track) segs) (seq 0 tracks) ++ [RebuildBspTree].

(** [e1] is called before [e2]. *)
Definition before (e1 e2 : Ev) (tr : list Ev) : Prop :=
  exists l1 l2 l3, tr = l1 ++ e1 :: l2 ++ e2 :: l3.

(** ** Counting the annotation calls *)

Definition is_annotation (s i : nat) (e : Ev) : bool :=
  match e with LayoutAnnotation s' i' => Nat.eqb s s' && Nat.eqb i i' | _ => false end.

Lemma count_flat_map {A} (f : A -> list Ev) (p : Ev -> bool) l :
  length (filter p (flat_map f l)) = list_sum (map (fun a => length (filter p (f a))) l).
Proof. induction l as [|a l IH]; simpl; [reflexivity|]. rewrite filter_app, length_app, IH. reflexivity. Qed.

Lemma list_sum_last (f : nat -> nat) n :
  0 < n -> (forall t, t < n - 1 -> f t = 0) -> list_sum (map f (seq 0 n)) = f (n - 1).
Proof.
  intros Hn H. replace n with (S (n - 1)) at 1 by lia. rewrite seq_S, map_app, list_sum_app. simpl.
  assert (list_sum (map f (seq 0 (n - 1))) = 0) as ->; [|lia].
  induction (seq 0 (n - 1)) as [|t l IH] eqn:E; [reflexivity|].
  assert (Hl : forall t', In t' (t :: l) -> t' < n - 1) by (rewrite <- E; intros t' Ht'; apply in_seq in Ht'; lia).
  simpl. rewrite H by (apply Hl; left; reflexivity).
  clear E IH. induction l as [|u l IHl]; [reflexivity|]. simpl. rewrite H by (apply Hl; right; left; reflexivity).
  apply IHl. intros t' [<-|Ht']; apply Hl; [left | right; right]; auto.
Qed.

Lemma chord_events_no_annotation k i e : filter (is_annotation k i) (chord_events e) = [].
Proof.
  destruct e as [[c notes|]|]; [|reflexivity|reflexivity]. simpl. induction notes as [|n notes IH]; [reflexivity|].
  simpl. rewrite filter_app, IH, app_nil_r. unfold note_events.
  rewrite filter_app. destruct (tieFor n); simpl; induction (spannerFor n); simpl; auto.
Qed.

Lemma annotations_count k i s n :
  length (filter (is_annotation k i) (map (LayoutAnnotation s) (seq 0 n))) = if Nat.eqb k s && Nat.ltb i n then 1 else 0.
Proof.
  induction n as [|n IH]; [destruct (Nat.eqb k s); reflexivity|].
  rewrite seq_S, map_app, filter_app, length_app, IH. simpl.
  destruct (Nat.eqb_spec k s); simpl; [|reflexivity].
  destruct (Nat.eqb_spec i n), (Nat.ltb_spec i n), (Nat.ltb_spec i (S n)); simpl; lia.
Qed.

Lemma pass_count tracks track segs k i :
  length (filter (is_annotation k i) (flat_map (seg_events tracks track) segs))
  = if Nat.eqb track (tracks - 1) then length (filter (fun s => Nat.eqb k (seg_id s) && Nat.ltb i (nannotations s)) segs) else 0.
Proof.
  induction segs as [|s segs IH]; [destruct (Nat.eqb track (tracks - 1)); reflexivity|].
  simpl. rewrite filter_app, length_app, IH. unfold seg_events. rewrite filter_app, length_app, chord_events_no_annotation.
  destruct (Nat.eqb track (tracks - 1)); [|reflexivity]. rewrite annotations_count.
  destruct (Nat.eqb k (seg_id s) && Nat.ltb i (nannotations s)); simpl; lia.
Qed.

Lemma filter_unique segs s i :
  NoDup (map seg_id segs) -> In s segs -> i < nannotations s ->
  length (filter (fun s' => Nat.eqb (seg_id s) (seg_id s') && Nat.ltb i (nannotations s')) segs) = 1.
Proof.
  intros Hn Hs Hi. induction segs as [|s' segs IH]; [destruct Hs|]. simpl in Hn. inversion Hn as [|? ? Hnot Hn']; subst.
  destruct Hs as [->|Hs].
  - simpl. rewrite Nat.eqb_refl, (proj2 (Nat.ltb_lt _ _) Hi). simpl. f_equal.
    assert (H0 : forall s'', In s'' segs -> seg_id s'' <> seg_id s) by (intros s'' H E; apply Hnot; rewrite <- E; apply in_map; exact H).
    clear IH Hn Hn' Hnot. induction segs as [|u segs IHs]; [reflexivity|]. simpl.
    destruct (Nat.eqb_spec (seg_id s) (seg_id u)) as [E|]; [exfalso; apply (H0 u); [left|]; auto|]. simpl.
    apply IHs. intros s'' H. apply H0. right. exact H.
  - simpl. destruct (Nat.eqb_spec (seg_id s) (seg_id s')) as [E|]; [exfalso; apply Hnot; rewrite <- E; apply in_map; exact Hs|].
    simpl. apply IH; assumption.
Qed.

(** C20. In a score with at least one track whose segments are
    distinct, [layoutSpanner] lays out every annotation of every
    segment, and exactly once. *)
Theorem layoutSpanner_annotations_once tracks segs s i :
  0 < tracks -> NoDup (map seg_id segs) -> In s segs -> i < nannotations s ->
  count_occ Ev_eq_dec (layoutSpanner tracks segs) (LayoutAnnotation (seg_id s) i) = 1.
Proof.
  intros Ht Hn Hs Hi.
  assert (E : forall tr, count_occ Ev_eq_dec tr (LayoutAnnotation (seg_id s) i) = length (filter (is_annotation (seg_id s) i) tr)).
  { induction tr as [|e tr IH]; [reflexivity|]. simpl. rewrite IH.
    destruct (Ev_eq_dec e (LayoutAnnotation (seg_id s) i)) as [->|Hne]; simpl; [rewrite !Nat.eqb_refl; reflexivity|].
    destruct e; simpl; try reflexivity.
    destruct (Nat.eqb_spec (seg_id s) s0), (Nat.eqb_spec i i0); subst; simpl; [contradiction | reflexivity..]. }
  rewrite E. unfold layoutSpanner. rewrite filter_app, length_app. simpl. rewrite Nat.add_0_r.
  rewrite count_flat_map. erewrite map_ext by (intros t; apply pass_count).
  rewrite (list_sum_last _ tracks Ht) by (intros t Hlt; destruct (Nat.eqb_spec t (tracks - 1)); [lia | reflexivity]).
  rewrite Nat.eqb_refl. apply filter_unique; assumption.
Qed.

(** ** The order of the calls *)

Lemma flat_map_infix {A B} (f : A -> list B) l x : In x l -> exists p q, flat_map f l = p ++ f x ++ q.
Proof.
  intros H. apply in_split in H as (l1 & l2 & ->). rewrite flat_map_app. simpl.
  exists (flat_map f l1), (flat_map f l2). reflexivity.
Qed.

Lemma before_infix e1 e2 p m q : before e1 e2 m -> before e1 e2 (p ++ m ++ q).
Proof.
  intros (l1 & l2 & l3 & ->). exists (p ++ l1), l2, (l3 ++ q).
  rewrite <- !app_assoc. simpl. rewrite <- !app_assoc. reflexivity.
Qed.

Lemma before_app e1 e2 X Y : In e1 X -> In e2 Y -> before e1 e2 (X ++ Y).
Proof.
  intros H1 H2. apply in_split in H1 as (a & b & ->). apply in_split in H2 as (c & d & ->).
  exists a, (b ++ c), d. rewrite <- app_assoc. simpl. rewrite <- app_assoc. reflexivity.
Qed.

(** The calls for [s] on [track] are a block of the trace. *)
Lemma seg_events_infix tracks segs s track :
  In s segs -> track < tracks ->
  exists p q, layoutSpanner tracks segs = p ++ seg_events tracks track s ++ q.
Proof.
  intros Hs Ht. unfold layoutSpanner.
  destruct (flat_map_infix (fun track => flat_map (seg_events tracks track) segs) (seq 0 tracks) track)
    as (p & q & E); [apply in_seq; lia|].
  destruct (flat_map_infix (seg_events tracks track) segs s Hs) as (p' & q' & E').
  rewrite E, E'. exists (p ++ p'), (q' ++ q ++ [RebuildBspTree]). rewrite <- !app_assoc. reflexivity.
Qed.

(** A chord's stem is laid out before each of its notes' ties and the
    spanners they start. *)
Theorem layoutSpanner_stem_first tracks segs s track c notes n e :
  In s segs -> track < tracks -> nth track (elements s) None = Some (EChord c notes) ->
  In n notes -> In e (note_events n) ->
  before (LayoutStem c) e (layoutSpanner tracks segs).
Proof.
  intros Hs Ht Hc Hn He. destruct (seg_events_infix tracks segs s track Hs Ht) as (p & q & ->).
  assert (Hin : In e (flat_map note_events notes)) by (apply in_flat_map; exists n; auto).
  apply in_split in Hin as (l2 & l3 & E).
  apply before_infix. unfold seg_events. rewrite Hc. unfold chord_events. rewrite E.
  eexists _, l2, l3. reflexivity.
Qed.

(** [layoutSpanner] lays out the annotations only in its pass over
    the last track, after the stems of the chords of every other track
    of the score, in every segment. *)
Theorem layoutSpanner_annotations_last tracks segs s s' track c notes i :
  In s segs -> In s' segs -> track < tracks - 1 -> nth track (elements s) None = Some (EChord c notes) ->
  i < nannotations s' -> before (LayoutStem c) (LayoutAnnotation (seg_id s') i) (layoutSpanner tracks segs).
Proof.
  intros Hs Hs' Ht Hc Hi. unfold layoutSpanner.
  assert (E : seq 0 tracks = seq 0 (tracks - 1) ++ [tracks - 1])
    by (replace tracks with (S (tracks - 1)) at 1 by lia; rewrite seq_S; reflexivity).
  rewrite E, flat_map_app. simpl. rewrite app_nil_r, <- app_assoc. apply before_app.
  - apply in_flat_map. exists track. split; [apply in_seq; lia|]. apply in_flat_map. exists s. split; [exact Hs|].
    unfold seg_events. apply in_or_app. right. rewrite Hc. left. reflexivity.
  - apply in_or_app. left. apply in_flat_map. exists s'. split; [exact Hs'|].
    unfold seg_events. rewrite Nat.eqb_refl. apply in_or_app. left. apply in_map, in_seq. lia.
Qed.

End SpannerLayout.

Import SpannerLayout.

(** Two tracks, two segments: a chord (7) with a tied note and a
    spanner on track 0 of the first segment, a chord (8) on track 1 of
    the second, which has one annotation. *)
Definition wit_segs : list SegS :=
  [mkSegS 1 0 [Some (EChord 7 [mkNoteS (Some 70) [71]]); None];
   mkSegS 2 1 [None; Some (EChord 8 [mkNoteS None []])]].

Lemma layoutSpanner_stem_first_witness :
  before (LayoutStem 7) (LayoutTie 70) (layoutSpanner 2 wit_segs).
Proof.
  apply (layoutSpanner_stem_first 2 wit_segs (mkSegS 1 0 [Some (EChord 7 [mkNoteS (Some 70) [71]]); None]) 0 7
           [mkNoteS (Some 70) [71]] (mkNoteS (Some 70) [71])); simpl; auto.
Defined.

Lemma layoutSpanner_annotations_last_witness :
  before (LayoutStem 7) (LayoutAnnotation 2 0) (layoutSpanner 2 wit_segs).
Proof.
  apply (layoutSpanner_annotations_last 2 wit_segs (mkSegS 1 0 [Some (EChord 7 [mkNoteS (Some 70) [71]]); None])
           (mkSegS 2 1 [None; Some (EChord 8 [mkNoteS None []])]) 0 7 [mkNoteS (Some 70) [71]] 0); simpl; auto.
Defined.

Lemma layoutSpanner_annotations_once_witness :
  count_occ Ev_eq_dec (layoutSpanner 2 wit_segs) (LayoutAnnotation 2 0) = 1.
Proof.
  apply (layoutSpanner_annotations_once 2 wit_segs (mkSegS 2 1 [None; Some (EChord 8 [mkNoteS None []])]) 0);
    simpl; auto. repeat constructor; simpl; intuition discriminate.
Defined.

(** The trace: the last track's chord of a segment comes after that
    segment's annotations. *)
Example layoutSpanner_example :
  layoutSpanner 2 wit_segs
  = [LayoutStem 7; LayoutTie 70; LayoutSpannerEv 71; LayoutAnnotation 2 0; LayoutStem 8; RebuildBspTree].
Proof. reflexivity. Qed.
