(* ===== verification/Spacing.v ===== *)
(** * The spring model of horizontal spacing ([sff2], [Score::respace])

    Models [struct Spring], [SpringMap] (a [std::multimap<qreal, Spring>]
    kept ordered by key), the closed-form sweep [sff2] (layout.cpp
    1853-1885) and [Score::respace] (1891-1945).  The reference
    specification of a spring system is [total]: at force [f] a spring
    is [max(f * stretch, fix)] long; [sff2] is proved to return the force
    at which the total length is the requested width. *)

From Stdlib Require Import QArith Lqa ZArith List Lia Sorted Permutation Bool.
From Stdlib Require Import Morphisms Setoid.
From S2P Require Import Prelude.
Import ListNotations.
Open Scope Q_scope.
Open Scope layout_scope.

Module Spacing.

(** [struct Spring { int seg; qreal stretch; qreal fix; }] *)
Record Spring := mkSpring { seg : nat; stretch : Q; fix' : Q }.

(** [std::multimap<qreal, Spring>]: pairs (key, spring) in key order. *)
Definition SpringMap := list (Q * Spring).

(** [springs.insert(pair(d, spring))]: a multimap inserts after the
    elements of equal key. *)
Fixpoint springs_insert (k : Q) (sp : Spring) (m : SpringMap) : SpringMap :=
  match m with
  | [] => [(k, sp)]
  | (k', sp') :: m' =>
      if k <?q k' then (k, sp) :: m else (k', sp') :: springs_insert k sp m'
  end.

(** Length of one spring at force [f]: [stretch = force * str; if (stretch
    < fix) stretch = fix;] in [respace]. *)
Definition spring_len (f : Q) (sp : Spring) : Q := qMax (f * stretch sp) (fix' sp).

(** Reference specification: the total length of a spring system at force [f]. *)
Definition total (f : Q) (m : SpringMap) : Q := qsum (map (fun p => spring_len f (snd p)) m).

(** The loop of [sff2] from the iterator [i] on: [c] already holds the
    stretch of the spring at [i], [xMin] the fixes of [i] and after. *)
Fixpoint sff2_loop (width xMin c : Q) (m : SpringMap) : Q :=
  match m with
  | [] => 0
  | (_, sp) :: rest =>
      let xMin' := xMin - fix' sp in
      let f := (width - xMin') / c in
      match rest with
      | [] => f
      | (k, sp') :: _ =>
          if f <=?q k then f else sff2_loop width xMin' (c + stretch sp') rest
      end
  end.

(** [sff2(width, xMin, springs)].  With [width > xMin] and an empty map
    the code dereferences [springs.begin()] of an empty map: undefined
    behaviour, [None] here. *)
Definition sff2 (width xMin : Q) (springs : SpringMap) : option Q :=
  if width <=?q xMin then Some 0
  else match springs with
       | [] => None
       | (_, sp) :: _ =>
           let c := if Qeq_bool (stretch sp) 0 then 11 # 10 else stretch sp in
           Some (sff2_loop width xMin c springs)
       end.

(** Well-formed springs: positive stretch and key [fix / stretch]. *)
Definition wf_spring (p : Q * Spring) : Prop :=
  0 < stretch (snd p) /\ fst p * stretch (snd p) == fix' (snd p).

Definition key_le (p q : Q * Spring) : Prop := fst p <= fst q.

Definition fixes (m : SpringMap) : Q := qsum (map (fun p => fix' (snd p)) m).


(** ** Lemmas on one spring *)

Lemma spring_len_active f k s :
  wf_spring (k, s) -> k <= f -> spring_len f s == f * stretch s.
Proof.
  unfold wf_spring, spring_len; simpl; intros [Hs Hk] Hf.
  apply qMax_l. rewrite <- Hk. apply Qmult_le_compat_r; lra.
Qed.

Lemma spring_len_inactive f k s :
  wf_spring (k, s) -> f <= k -> spring_len f s == fix' s.
Proof.
  unfold wf_spring, spring_len; simpl; intros [Hs Hk] Hf.
  apply qMax_r. rewrite <- Hk. apply Qmult_le_compat_r; lra.
Qed.

Lemma total_inactive f m :
  Forall wf_spring m -> Forall (fun p => f <= fst p) m -> total f m == fixes m.
Proof.
  unfold total, fixes. induction 1 as [|[k s] m Hwf Hm IH]; simpl; intros Hle; [lra|].
  inversion Hle; subst. rewrite (spring_len_inactive f k s) by auto. rewrite IH by auto. lra.
Qed.

Lemma sorted_keys_above k s m :
  Sorted key_le ((k, s) :: m) -> Forall (fun p => k <= fst p) m.
Proof.
  intros Hs. apply Sorted_StronglySorted in Hs.
  - inversion Hs; subst. eapply Forall_impl; [|eassumption]. unfold key_le; auto.
  - intros [a ?] [b ?] [c ?]; unfold key_le; simpl; apply Qle_trans.
Qed.

Lemma Forall_key_weaken f k (m : SpringMap) :
  f <= k -> Forall (fun p => k <= fst p) m -> Forall (fun p => f <= fst p) m.
Proof. intros H. apply Forall_impl. intros; lra. Qed.

Lemma div_mul_cancel a c : 0 < c -> a / c * c == a.
Proof. intros. field. lra. Qed.

#[export] Hint Resolve total_inactive sorted_keys_above : layout.

(** The sweep: if [c] is the processed stretch [Cp] plus the current
    spring's, [xMin] the fixes from the current spring on, and the force
    for the springs up to the current one reaches the current key, then
    the force returned makes the springs from the current one on, plus
    [Cp] at that force, exactly [width] long. *)
Lemma sff2_loop_spec rest : forall k s Cp c width xMin,
  Sorted key_le ((k, s) :: rest) -> Forall wf_spring ((k, s) :: rest) ->
  0 <= Cp -> c == Cp + stretch s -> xMin == fixes ((k, s) :: rest) ->
  c * k <= width - fixes rest ->
  Cp * sff2_loop width xMin c ((k, s) :: rest)
    + total (sff2_loop width xMin c ((k, s) :: rest)) ((k, s) :: rest) == width
  /\ k <= sff2_loop width xMin c ((k, s) :: rest).
Proof.
  induction rest as [|[k' s'] rest IH]; intros k s Cp c width xMin Hsort Hwf HCp Hc HxMin Hreach;
    inversion Hwf as [|? ? Hw Hwfs]; subst; pose proof Hw as [Hstr _]; simpl in Hstr;
    assert (Hcpos : 0 < c) by lra; unfold fixes in HxMin, Hreach; simpl in HxMin, Hreach.
  - simpl. set (f := (width - (xMin - fix' s)) / c).
    assert (Hfc : f * c == width) by (unfold f; rewrite div_mul_cancel by lra; lra).
    assert (Hkf : k <= f) by (apply Qle_shift_div_l; [lra | unfold f; nra]).
    unfold total; simpl. rewrite (spring_len_active f k s Hw Hkf). split; [nra | exact Hkf].
  - set (f := (width - (xMin - fix' s)) / c).
    assert (Hfc : f * c == width - fixes ((k', s') :: rest))
      by (unfold f, fixes; rewrite div_mul_cancel by lra; simpl; lra).
    assert (Hkf : k <= f).
    { apply Qle_shift_div_l; [lra|]. unfold fixes in Hfc. simpl in Hfc. nra. }
    pose proof (sorted_keys_above _ _ _ Hsort) as Habove.
    inversion Habove as [|? ? Hkk' _]; subst; simpl in Hkk'.
    change (sff2_loop width xMin c ((k, s) :: (k', s') :: rest))
      with (if f <=?q k' then f else sff2_loop width (xMin - fix' s) (c + stretch s') ((k', s') :: rest)).
    qcase.
    + unfold total; simpl. rewrite (spring_len_active f k s Hw Hkf).
      pose proof (total_inactive f ((k', s') :: rest) Hwfs) as Hin.
      unfold total in Hin; simpl in Hin. rewrite Hin.
      2:{ constructor; [simpl; lra|]. apply (Forall_key_weaken f k'); [lra|].
          apply (sorted_keys_above k' s'). now inversion Hsort. }
      unfold fixes in Hfc |- *; simpl in Hfc |- *. split; [nra | exact Hkf].
    + inversion Hwfs as [|? ? [Hs' Hk's'] _]; subst; simpl in Hs', Hk's'.
      destruct (IH k' s' c (c + stretch s') width (xMin - fix' s)) as [Hsum Hk'f'].
      * now inversion Hsort.
      * exact Hwfs.
      * lra.
      * reflexivity.
      * unfold fixes; simpl; lra.
      * unfold fixes in Hfc |- *; simpl in Hfc. nra.
      * set (f' := sff2_loop width (xMin - fix' s) (c + stretch s') ((k', s') :: rest)) in *.
        unfold total in Hsum |- *; simpl in Hsum |- *.
        rewrite (spring_len_active f' k s Hw) by lra. split; [nra | lra].
Qed.

(** The force [sff2] returns on a well-formed, key-ordered map solves
    the spring system for [width]. *)
Lemma sff2_force width xMin m :
  m <> [] -> Sorted key_le m -> Forall wf_spring m -> xMin == fixes m -> xMin < width ->
  exists f, sff2 width xMin m = Some f /\ total f m == width.
Proof.
  intros Hne Hsort Hwf Hx Hw. unfold sff2. qcase; [lra|].
  destruct m as [|[k s] rest]; [congruence|].
  inversion Hwf as [|? ? [Hs Hk] _]; subst; simpl in Hs, Hk.
  replace (Qeq_bool (stretch s) 0) with false
    by (symmetry; apply not_true_iff_false; rewrite Qeq_bool_iff; lra).
  eexists; split; [reflexivity|].
  destruct (sff2_loop_spec rest k s 0 (stretch s) width xMin) as [Htot _]; auto; try lra.
  unfold fixes in Hx; simpl in Hx. unfold fixes. lra.
Qed.

(** ** The spring system has one solution above the fixes *)

Lemma spring_len_ge_fix f s : fix' s <= spring_len f s.
Proof. apply qMax_ge_r. Qed.

Lemma spring_len_mono f g s : 0 <= stretch s -> f <= g -> spring_len f s <= spring_len g s.
Proof. unfold spring_len. intros. pose proof (Qmult_le_compat_r f g (stretch s)). qlia. Qed.

(** A spring whose key lies below [g] is strictly longer at [g] than at
    any smaller force. *)
Lemma spring_len_strict f g k s :
  wf_spring (k, s) -> k < g -> f < g -> spring_len f s < spring_len g s.
Proof.
  unfold wf_spring; simpl; intros [Hs Hk] Hkg Hfg.
  assert (f * stretch s < g * stretch s) by (apply Qmult_lt_compat_r; auto).
  assert (k * stretch s < g * stretch s) by (apply Qmult_lt_compat_r; auto).
  unfold spring_len. qlia.
Qed.

Lemma total_mono f g m : Forall wf_spring m -> f <= g -> total f m <= total g m.
Proof.
  unfold total. induction 1 as [|[k s] m [Hs _] Hm IH]; simpl in *; intros Hfg; [lra|].
  pose proof (spring_len_mono f g s ltac:(lra) Hfg). specialize (IH Hfg). lra.
Qed.

Lemma total_strict f g k s m :
  Forall wf_spring ((k, s) :: m) -> k < g -> f < g -> total f ((k, s) :: m) < total g ((k, s) :: m).
Proof.
  intros Hwf Hkg Hfg. inversion Hwf; subst. unfold total; simpl.
  pose proof (spring_len_strict f g k s ltac:(assumption) Hkg Hfg).
  pose proof (total_mono f g m ltac:(assumption) ltac:(lra)). unfold total in *. lra.
Qed.

(** Above the sum of the fixes, at most one force gives [width]: below
    the smallest key every spring is at its fix, and above it the total
    length grows strictly. *)
Lemma total_unique f g width m :
  m <> [] -> Sorted key_le m -> Forall wf_spring m -> fixes m < width ->
  total f m == width -> total g m == width -> f == g.
Proof.
  intros Hne Hsort Hwf Hfx Hf Hg. destruct m as [|[k s] rest]; [congruence|].
  assert (Hlow : forall h, h <= k -> total h ((k, s) :: rest) == fixes ((k, s) :: rest)).
  { intros h Hh. apply total_inactive; [exact Hwf|].
    constructor; [simpl; lra|]. apply (Forall_key_weaken h k); [lra|]. eapply sorted_keys_above; eauto. }
  destruct (Qlt_le_dec f g) as [Hlt|Hge].
  - destruct (Qlt_le_dec k g) as [Hkg|Hgk]; [|specialize (Hlow g Hgk); lra].
    pose proof (total_strict f g k s rest Hwf Hkg Hlt). lra.
  - destruct (Qeq_dec f g) as [|Hneq]; [assumption|].
    assert (g < f) by (apply Qle_lteq in Hge; destruct Hge; [assumption | symmetry in H; contradiction]).
    destruct (Qlt_le_dec k f) as [Hkf|Hfk]; [|specialize (Hlow f Hfk); lra].
    pose proof (total_strict g f k s rest Hwf Hkf H). lra.
Qed.

(** C2. Refinement of the sweep to the reference specification: on a
    well-formed, key-ordered spring map and a width above the sum of the
    fixes, [sff2] returns (no undefined behaviour) the force at which the
    springs are exactly [width] long in total, and it is the only force
    with that total. *)
Theorem sff2_total width xMin m :
  m <> [] -> Sorted key_le m -> Forall wf_spring m -> xMin == fixes m -> xMin < width ->
  exists f, sff2 width xMin m = Some f /\ total f m == width /\
    (forall g, total g m == width -> g == f).
Proof.
  intros Hne Hs Hwf Hx Hw. destruct (sff2_force width xMin m Hne Hs Hwf Hx Hw) as [f [Hf Ht]].
  exists f. split; [exact Hf|]. split; [exact Ht|].
  intros g Hg. apply (total_unique g f width m); auto; lra.
Qed.


(** ** The multimap stays ordered *)

Lemma springs_insert_perm k sp m : Permutation (springs_insert k sp m) ((k, sp) :: m).
Proof.
  induction m as [|[k' sp'] m IH]; simpl; [auto|].
  destruct (k <?q k'); [auto|]. rewrite IH. apply perm_swap.
Qed.

Lemma springs_insert_sorted k sp m : Sorted key_le m -> Sorted key_le (springs_insert k sp m).
Proof.
  unfold key_le. induction 1 as [|[k' sp'] m Hs IH Hhd]; simpl; [auto|].
  qcase.
  - constructor; [constructor; auto | constructor; simpl; lra].
  - constructor; [exact IH|].
    destruct m as [|[k'' sp''] m]; simpl; [constructor; simpl; lra|].
    inversion Hhd; subst. simpl in *. qcase; constructor; simpl; lra.
Qed.

(** ** [Score::respace] *)

(** The part of a [ChordRest] that [respace] reads and writes: the x
    position of its segment, its duration in ticks and its own x offset
    [rxpos()] inside the segment. *)
Record ChordRest := mkCR { cr_segx : Q; cr_ticks : Z; cr_rxpos : Q }.

Definition set_rxpos (cr : ChordRest) (v : Q) : ChordRest := mkCR (cr_segx cr) (cr_ticks cr) v.

(** [qreal d = w / str; springs.insert(...); minimum += w;] for each gap,
    in index order. *)
Fixpoint build_springs (i : nat) (str_of : Z -> Q) (ws : list Q) (ts : list Z)
    (m : SpringMap) (minimum : Q) : SpringMap * Q :=
  match ws, ts with
  | w :: ws', t :: ts' =>
      let str := str_of t in
      build_springs (S i) str_of ws' ts' (springs_insert (w / str) (mkSpring i str w) m) (minimum + w)
  | _, _ => (m, minimum)
  end.

(** The springs of [build_springs] in index order. *)
Fixpoint spring_list (i : nat) (str_of : Z -> Q) (ws : list Q) (ts : list Z) : SpringMap :=
  match ws, ts with
  | w :: ws', t :: ts' => (w / str_of t, mkSpring i (str_of t) w) :: spring_list (S i) str_of ws' ts'
  | _, _ => []
  end.

(** [width[i->second.seg] = max(force * stretch, fix)] for every spring. *)
Definition apply_widths (force : Q) (springs : SpringMap) (width : list Q) : list Q :=
  fold_left (fun acc p => set_nth (seg (snd p)) (spring_len force (snd p)) acc) springs width.

(** [for (i = 1; i < n-1; ++i) { x += width[i-1]; cr->rxpos() += x -
    cr->segment()->pos().x(); }] over the elements strictly between the
    first and the last. *)
Fixpoint shift_middle (x : Q) (ws : list Q) (mid : list ChordRest) : list ChordRest :=
  match ws, mid with
  | w :: ws', cr :: mid' =>
      let x' := x + w in
      set_rxpos cr (cr_rxpos cr + (x' - cr_segx cr)) :: shift_middle x' ws' mid'
  | _, _ => mid
  end.

(** [minTick = qMin(ticksList[i], minTick)] from 100000. *)
Definition min_tick (ts : list Z) : Z :=
  fold_left (fun m t => if (t <? m)%Z then t else m) ts 100000%Z.

Section Respace.

(** [log] of the C library, and [Shape::minHorizontalDistance] of the two
    elements' shapes (the geometry service). *)
Variable log : Q -> Q.
Variable minHorizontalDistance : ChordRest -> ChordRest -> Q.

(** [width[i] = cr->shape().minHorizontalDistance(ncr->shape())]. *)
Fixpoint gap_widths (l : list ChordRest) : list Q :=
  match l with
  | a :: ((b :: _) as t) => minHorizontalDistance a b :: gap_widths t
  | _ => []
  end.

(** [str = 1.0 + 0.865617 * log(qreal(t) / qreal(minTick))]. *)
Definition str_of (minTick t : Z) : Q :=
  1 + (865617 # 1000000) * log (inject_Z t / inject_Z minTick).

(** [Score::respace(elements)]: the final gap widths and the elements
    after the update (the first and the last are not moved).  [None]
    where the code has undefined behaviour (no element, or [sff2] on an
    empty map). *)
Definition respace (l : list ChordRest) : option (list Q * list ChordRest) :=
  match l with
  | [] => None
  | cr1 :: _ =>
      let x1 := cr_segx cr1 in
      let x2 := cr_segx (last l cr1) in
      let ws := gap_widths l in
      let ts := map cr_ticks (removelast l) in
      let '(springs, minimum) := build_springs 0 (str_of (min_tick ts)) ws ts [] 0 in
      match sff2 (x2 - x1) minimum springs with
      | None => None
      | Some force =>
          let ws' := apply_widths force springs ws in
          let elements' :=
            match l with
            | _ :: (_ :: _) as rest => cr1 :: shift_middle x1 ws' (removelast rest) ++ [last rest cr1]
            | _ => l
            end in
          Some (ws', elements')
      end
  end.

End Respace.

(** ** Lemmas on the construction of the springs *)

Lemma build_springs_perm str_of ws : forall i ts m acc,
  Permutation (fst (build_springs i str_of ws ts m acc)) (spring_list i str_of ws ts ++ m).
Proof.
  induction ws as [|w ws IH]; intros i [|t ts] m acc; simpl; auto.
  rewrite IH, springs_insert_perm. symmetry. apply Permutation_middle.
Qed.

Lemma build_springs_sorted str_of ws : forall i ts m acc,
  Sorted key_le m -> Sorted key_le (fst (build_springs i str_of ws ts m acc)).
Proof.
  induction ws as [|w ws IH]; intros i [|t ts] m acc Hm; simpl; auto.
  apply IH, springs_insert_sorted, Hm.
Qed.

Lemma build_springs_minimum str_of ws : forall i ts m acc,
  length ws = length ts -> snd (build_springs i str_of ws ts m acc) == acc + qsum ws.
Proof.
  induction ws as [|w ws IH]; intros i [|t ts] m acc Hl; simpl in *; try lia; [lra|].
  rewrite IH by lia. lra.
Qed.

Lemma spring_list_fixes str_of ws : forall i ts,
  length ws = length ts -> fixes (spring_list i str_of ws ts) == qsum ws.
Proof.
  unfold fixes. induction ws as [|w ws IH]; intros i [|t ts] Hl; simpl in *; try lia; [lra|].
  rewrite IH by lia. lra.
Qed.

Lemma spring_list_segs str_of ws : forall i ts,
  length ws = length ts -> map (fun p => seg (snd p)) (spring_list i str_of ws ts) = seq i (length ws).
Proof.
  induction ws as [|w ws IH]; intros i [|t ts] Hl; simpl in *; try lia; auto.
  f_equal. apply IH. lia.
Qed.

Lemma spring_list_in str_of ws : forall i ts p, In p (spring_list i str_of ws ts) ->
  (i <= seg (snd p) < i + length ws)%nat /\ nth (seg (snd p) - i) ws 0 = fix' (snd p).
Proof.
  induction ws as [|w ws IH]; intros i [|t ts] p Hin; simpl in *; try tauto.
  destruct Hin as [<-|Hin]; simpl.
  - rewrite Nat.sub_diag. split; [lia | reflexivity].
  - destruct (IH (S i) ts p Hin) as [Hr Hn]. split; [lia|].
    destruct (seg (snd p) - i)%nat as [|j] eqn:E; [lia|].
    replace j with (seg (snd p) - S i)%nat by lia. exact Hn.
Qed.

Lemma spring_list_wf str_of ws : forall i ts,
  Forall (fun t => 0 < str_of t) ts -> Forall wf_spring (spring_list i str_of ws ts).
Proof.
  unfold wf_spring. induction ws as [|w ws IH]; intros i [|t ts] Hpos; simpl; auto.
  inversion Hpos; subst. constructor; [simpl; split; [lra | field; lra] | auto].
Qed.

(** Writing the springs' lengths into the width array changes its sum by
    the springs' lengths minus their fixes, provided every spring writes
    its own slot, which holds its fix. *)
Lemma apply_widths_sum f S : forall acc,
  NoDup (map (fun p => seg (snd p)) S) ->
  (forall p, In p S -> (seg (snd p) < length acc)%nat /\ nth (seg (snd p)) acc 0 = fix' (snd p)) ->
  qsum (apply_widths f S acc) == qsum acc - fixes S + total f S.
Proof.
  unfold apply_widths, fixes, total.
  induction S as [|[k sp] S IH]; intros acc Hnd Hslot; simpl; [lra|].
  inversion Hnd as [|? ? Hnin Hnd']; subst.
  destruct (Hslot (k, sp) (or_introl eq_refl)) as [Hlt Hnth]; simpl in Hlt, Hnth.
  rewrite IH; auto.
  - rewrite qsum_set_nth by exact Hlt. rewrite Hnth. lra.
  - intros p Hp. destruct (Hslot p (or_intror Hp)) as [Hl Hn].
    rewrite length_set_nth, nth_set_nth_ne; [auto|].
    intros E. apply Hnin. rewrite E. apply (in_map (fun p => seg (snd p))), Hp.
Qed.

Lemma min_tick_bounds ts : forall m, (0 < m)%Z -> Forall (fun t => 0 < t)%Z ts ->
  (0 < fold_left (fun m t => if (t <? m)%Z then t else m) ts m)%Z /\
  (fold_left (fun m t => if (t <? m)%Z then t else m) ts m <= m)%Z /\
  Forall (fun t => fold_left (fun m t => if (t <? m)%Z then t else m) ts m <= t)%Z ts.
Proof.
  induction ts as [|t ts IH]; intros m Hm Hts; simpl; [split; [lia | split; [lia | constructor]]|].
  inversion Hts; subst.
  destruct (IH (if (t <? m)%Z then t else m)) as [Hp1 [Hp2 Hp3]]; [destruct (Z.ltb_spec t m); lia | auto |].
  split; [lia|]. split; [destruct (Z.ltb_spec t m); lia|]. constructor; [destruct (Z.ltb_spec t m); lia | exact Hp3].
Qed.

Lemma gap_widths_length dist l : length (gap_widths dist l) = length (map cr_ticks (removelast l)).
Proof.
  rewrite length_map. induction l as [|a [|b l] IH]; simpl in *; auto.
Qed.

Lemma str_of_pos log mt t : (forall x, 1 <= x -> 0 <= log x) -> (0 < mt <= t)%Z -> 0 < str_of log mt t.
Proof.
  intros Hlog Ht. unfold str_of.
  assert (1 <= inject_Z t / inject_Z mt).
  { apply Qle_shift_div_l; [change 0 with (inject_Z 0); rewrite <- Zlt_Qlt; lia|]. rewrite Qmult_1_l, <- Zle_Qle. lia. }
  specialize (Hlog _ H). lra.
Qed.

(** The springs of [respace] form a well-formed, ordered map whose
    fixes are the gaps' minimum distances and whose segment numbers are
    the slots 0 .. n-2, each once. *)
Lemma respace_springs log ws ts S mn :
  (forall x, 1 <= x -> 0 <= log x) -> length ws = length ts -> Forall (fun t => 0 < t)%Z ts ->
  build_springs 0 (str_of log (min_tick ts)) ws ts [] 0 = (S, mn) ->
  Sorted key_le S /\ Forall wf_spring S /\ mn == fixes S /\ qsum ws == fixes S /\
  NoDup (map (fun p => seg (snd p)) S) /\
  (forall p, In p S -> (seg (snd p) < length ws)%nat /\ nth (seg (snd p)) ws 0 = fix' (snd p)).
Proof.
  intros Hlog Hlen Hts EB.
  pose proof (build_springs_perm (str_of log (min_tick ts)) ws 0 ts [] 0) as HP.
  pose proof (build_springs_sorted (str_of log (min_tick ts)) ws 0 ts [] 0 (Sorted_nil _)) as HS.
  pose proof (build_springs_minimum (str_of log (min_tick ts)) ws 0 ts [] 0 Hlen) as HM.
  rewrite EB in HP, HS, HM; simpl in HP, HS, HM. rewrite app_nil_r in HP.
  assert (Hfix : fixes S == qsum ws).
  { rewrite <- (spring_list_fixes (str_of log (min_tick ts)) ws 0 ts Hlen).
    unfold fixes. apply qsum_Permutation, Permutation_map, HP. }
  destruct (min_tick_bounds ts 100000 ltac:(lia) Hts) as [Hm0 [_ Hmt]].
  assert (Hwf : Forall wf_spring (spring_list 0 (str_of log (min_tick ts)) ws ts)).
  { apply spring_list_wf. rewrite Forall_forall in Hts, Hmt |- *.
    intros t Ht. apply str_of_pos; [exact Hlog|]. specialize (Hmt t Ht). unfold min_tick. lia. }
  split; [exact HS|]. split.
  { rewrite Forall_forall in Hwf |- *. intros p Hp. apply Hwf. eapply Permutation_in; eauto. }
  split; [lra|]. split; [lra|]. split.
  { apply (Permutation_NoDup (Permutation_map _ (Permutation_sym HP))).
    rewrite spring_list_segs by exact Hlen. apply seq_NoDup. }
  intros p Hp. apply (Permutation_in _ HP), spring_list_in in Hp.
  rewrite Nat.sub_0_r in Hp. split; [lia | apply Hp].
Qed.

(** The update of the middle elements: the [i]-th one is moved by the
    distance from its segment to [x1] plus the first [i + 1] gaps. *)
Lemma shift_middle_spec ws : forall x mid i d,
  (i < length ws)%nat -> (i < length mid)%nat ->
  cr_rxpos (nth i (shift_middle x ws mid) d)
  == cr_rxpos (nth i mid d) + (x + qsum (firstn (S i) ws) - cr_segx (nth i mid d)).
Proof.
  induction ws as [|w ws IH]; intros x [|cr mid] i d Hw Hm; simpl in *; try lia.
  destruct i as [|i]; simpl.
  - unfold qsum. simpl. lra.
  - rewrite IH by lia. unfold qsum. simpl. fold (qsum (firstn i ws)). destruct ws; simpl; lra.
Qed.

Lemma length_shift_middle x ws mid : length (shift_middle x ws mid) = length mid.
Proof. revert x mid; induction ws as [|w ws IH]; intros x [|cr mid]; simpl; auto. Qed.

Lemma gap_widths_nonempty dist (cr1 : ChordRest) rest : rest <> [] -> gap_widths dist (cr1 :: rest) <> [].
Proof. destruct rest; simpl; congruence. Qed.

Lemma length_removelast' {A} (l : list A) : length (removelast l) = pred (length l).
Proof. induction l as [|a [|b l] IH]; [reflexivity | reflexivity |]. simpl in *. rewrite IH. reflexivity. Qed.

Lemma length_apply_widths f S ws : length (apply_widths f S ws) = length ws.
Proof.
  unfold apply_widths. revert ws. induction S as [|p S IH]; intros ws; simpl; [reflexivity|].
  rewrite IH. apply length_set_nth.
Qed.

(** A spring system whose springs each already have their slot's length
    leaves the width array as it is, slot by slot. *)
Lemma apply_widths_keep f S : forall acc,
  (forall p, In p S -> spring_len f (snd p) == nth (seg (snd p)) acc 0) ->
  forall i, nth i (apply_widths f S acc) 0 == nth i acc 0.
Proof.
  unfold apply_widths. induction S as [|[k sp] S IH]; intros acc Hkeep i; simpl; [reflexivity|].
  assert (Hset : forall j, nth j (set_nth (seg sp) (spring_len f sp) acc) 0 == nth j acc 0).
  { intros j. rewrite nth_set_nth.
    destruct (Nat.eqb (seg sp) j) eqn:E; destruct (Nat.ltb (seg sp) (length acc)); simpl; try reflexivity.
    apply Nat.eqb_eq in E. subst j. apply (Hkeep (k, sp)). left. reflexivity. }
  etransitivity; [apply IH | apply Hset].
  intros p Hp. rewrite Hset. apply Hkeep. right. exact Hp.
Qed.

(** Whatever force [sff2] returns, [respace] gives one width per gap and
    moves the [i]-th middle element to [x1] plus the first [i + 1]
    widths (its offset grows by that position minus its segment's). *)
Lemma respace_elements log dist cr1 rest ws ps :
  rest <> [] -> respace log dist (cr1 :: rest) = Some (ws, ps) ->
  length ws = length rest /\
  (forall i d, (i < length rest - 1)%nat ->
     cr_rxpos (nth (S i) ps d) == cr_rxpos (nth i (removelast rest) d)
       + (cr_segx cr1 + qsum (firstn (S i) ws) - cr_segx (nth i (removelast rest) d))).
Proof.
  intros Hne. destruct rest as [|c r]; [congruence|]. unfold respace.
  destruct (build_springs _ _ _ _ _ _) as [Sp mn].
  destruct (sff2 _ mn Sp) as [f|]; [|discriminate]. intros E. injection E as Ews Eps.
  assert (Hl : length ws = length (c :: r)).
  { rewrite <- Ews, length_apply_widths.
    transitivity (length (gap_widths dist (cr1 :: c :: r))); [reflexivity|].
    rewrite gap_widths_length, length_map, length_removelast'. reflexivity. }
  split; [exact Hl|]. intros i d Hi. subst ps. rewrite <- Ews.
  change (nth (S i) (cr1 :: ?l) d) with (nth i l d). rewrite Ews.
  rewrite app_nth1 by (rewrite length_shift_middle; change (i < length (removelast (c :: r)))%nat;
                       rewrite length_removelast'; simpl in *; lia).
  apply shift_middle_spec; [rewrite Hl; simpl in *; lia|].
  change (i < length (removelast (c :: r)))%nat. rewrite length_removelast'. simpl in *. lia.
Qed.

(** C1. Conservation of width: when the space between the first and the
    last element exceeds the sum of the minimum gaps, [respace] is
    defined and its gaps add up exactly to that space, so the element
    before the last one ends where the last one starts; each middle
    element is moved to the first element's x plus the gaps before it. *)
Theorem respace_conserves log dist cr1 rest :
  (forall x, 1 <= x -> 0 <= log x) -> rest <> [] ->
  Forall (fun t => 0 < t)%Z (map cr_ticks (cr1 :: rest)) ->
  qsum (gap_widths dist (cr1 :: rest)) < cr_segx (last (cr1 :: rest) cr1) - cr_segx cr1 ->
  exists ws ps, respace log dist (cr1 :: rest) = Some (ws, ps) /\
    cr_segx cr1 + qsum ws == cr_segx (last (cr1 :: rest) cr1) /\
    (forall i d, (i < length rest - 1)%nat ->
       cr_rxpos (nth (S i) ps d) == cr_rxpos (nth i (removelast rest) d)
         + (cr_segx cr1 + qsum (firstn (S i) ws) - cr_segx (nth i (removelast rest) d))).
Proof.
  intros Hlog Hne Hticks Hroom.
  enough (H : exists ws ps, respace log dist (cr1 :: rest) = Some (ws, ps) /\
                cr_segx cr1 + qsum ws == cr_segx (last (cr1 :: rest) cr1)).
  { destruct H as (ws & ps & E & Hw). exists ws, ps. split; [exact E|]. split; [exact Hw|].
    apply (respace_elements log dist cr1 rest ws ps Hne E). }
  unfold respace.
  remember (gap_widths dist (cr1 :: rest)) as ws eqn:Hws.
  remember (map cr_ticks (removelast (cr1 :: rest))) as ts eqn:Hts_def.
  assert (Hlen : length ws = length ts) by (subst; apply gap_widths_length).
  assert (Hts : Forall (fun t => 0 < t)%Z ts).
  { subst ts. rewrite <- removelast_map. now apply Forall_removelast. }
  destruct (build_springs 0 (str_of log (min_tick ts)) ws ts [] 0) as [S mn] eqn:EB.
  destruct (respace_springs log ws ts S mn Hlog Hlen Hts EB) as (Hs & Hwf & Hmn & Hfx & Hnd & Hslot).
  assert (HSne : S <> []).
  { pose proof (build_springs_perm (str_of log (min_tick ts)) ws 0 ts [] 0) as HP.
    rewrite EB in HP. simpl in HP.
    destruct ws as [|w ws']; [exfalso; exact (gap_widths_nonempty dist cr1 rest Hne (eq_sym Hws))|].
    destruct ts as [|t ts']; [simpl in Hlen; lia|].
    intros ->. apply Permutation_nil in HP. discriminate. }
  destruct (sff2_force (cr_segx (last (cr1 :: rest) cr1) - cr_segx cr1) mn S) as [f [Hf Htot]];
    auto; try lra.
  rewrite Hf. do 2 eexists; split; [reflexivity|].
  rewrite apply_widths_sum by auto. lra.
Qed.

Lemma total_at_zero S :
  Forall wf_spring S -> Forall (fun p => 0 <= fix' (snd p)) S -> total 0 S == fixes S.
Proof.
  intros Hwf Hfix. apply total_inactive; [exact Hwf|].
  rewrite Forall_forall in Hwf, Hfix |- *. intros [k sp] Hp.
  destruct (Hwf _ Hp) as [Hs Hk]. specialize (Hfix _ Hp). simpl in *. nra.
Qed.

(** C3. Not enough room: when the space [x2 - x1] between the first and
    the last element is at most the sum of the minimum gaps (all
    non-negative), [sff2] returns force 0 on the springs [respace]
    builds, and every gap keeps its own minimum distance: the [i]-th
    final width is the [i]-th minimum, so the widths add up to the
    minimum and the last element (which [respace] never moves) is
    reached late by [minimum - (x2 - x1)]. *)
Theorem respace_crowded log dist cr1 rest :
  (forall x, 1 <= x -> 0 <= log x) -> rest <> [] ->
  Forall (fun t => 0 < t)%Z (map cr_ticks (cr1 :: rest)) ->
  Forall (fun w => 0 <= w) (gap_widths dist (cr1 :: rest)) ->
  cr_segx (last (cr1 :: rest) cr1) - cr_segx cr1 <= qsum (gap_widths dist (cr1 :: rest)) ->
  let ts := map cr_ticks (removelast (cr1 :: rest)) in
  let '(springs, minimum) :=
    build_springs 0 (str_of log (min_tick ts)) (gap_widths dist (cr1 :: rest)) ts [] 0 in
  sff2 (cr_segx (last (cr1 :: rest) cr1) - cr_segx cr1) minimum springs = Some 0 /\
  exists ws ps, respace log dist (cr1 :: rest) = Some (ws, ps) /\
    length ws = length (gap_widths dist (cr1 :: rest)) /\
    (forall i, nth i ws 0 == nth i (gap_widths dist (cr1 :: rest)) 0) /\
    qsum ws == qsum (gap_widths dist (cr1 :: rest)).
Proof.
  intros Hlog Hne Hticks Hpos Hroom ts. unfold respace. fold ts.
  remember (gap_widths dist (cr1 :: rest)) as ws eqn:Hws.
  assert (Hlen : length ws = length ts) by (subst; apply gap_widths_length).
  assert (Hts : Forall (fun t => 0 < t)%Z ts).
  { unfold ts. rewrite <- removelast_map. now apply Forall_removelast. }
  destruct (build_springs 0 (str_of log (min_tick ts)) ws ts [] 0) as [Sp mn] eqn:EB.
  destruct (respace_springs log ws ts Sp mn Hlog Hlen Hts EB) as (Hs & Hwf & Hmn & Hfx & Hnd & Hslot).
  assert (Hsff : sff2 (cr_segx (last (cr1 :: rest) cr1) - cr_segx cr1) mn Sp = Some 0)
    by (unfold sff2; qcase; [reflexivity | lra]).
  rewrite Hsff. split; [reflexivity|].
  assert (Hfix : forall p, In p Sp -> spring_len 0 (snd p) == nth (seg (snd p)) ws 0).
  { intros [k sp] Hp. destruct (Hslot _ Hp) as [Hlt Heq]. simpl in *. rewrite Heq.
    rewrite Forall_forall in Hwf, Hpos. pose proof (Hwf _ Hp) as Hw. destruct Hw as [Hst Hk]. simpl in *.
    assert (0 <= fix' sp) by (rewrite <- Heq; apply Hpos, nth_In, Hlt).
    apply (spring_len_inactive 0 k sp (Hwf _ Hp)). nra. }
  do 2 eexists; split; [reflexivity|].
  split; [apply length_apply_widths|]. split; [apply apply_widths_keep, Hfix|].
  rewrite apply_widths_sum by auto. rewrite total_at_zero; [lra | exact Hwf|].
  rewrite Forall_forall in Hpos |- *. intros p Hp. destruct (Hslot p Hp) as [Hlt <-].
  apply Hpos, nth_In, Hlt.
Qed.

End Spacing.

(** Witnesses: four chords at x = 0, 1, 2, 10 (a sixteenth between two
    eighths), minimum gap 1 each, [log] replaced by its tangent at 1,
    [x - 1], which is non-negative from 1 on: the eighths' springs get
    stretch [1.865617], the sixteenth's [1]. *)
Definition wit_log (x : Q) : Q := x - 1.
Definition wit_dist (_ _ : Spacing.ChordRest) : Q := 1.

Lemma respace_conserves_witness :
  exists ws ps, Spacing.respace wit_log wit_dist (Spacing.mkCR 0 480 0
      :: [Spacing.mkCR 1 240 0; Spacing.mkCR 2 480 0; Spacing.mkCR 10 480 0]) = Some (ws, ps) /\
    0 + qsum ws == 10 /\
    (forall i d, (i < 2)%nat ->
       Spacing.cr_rxpos (nth (S i) ps d) == Spacing.cr_rxpos (nth i [Spacing.mkCR 1 240 0; Spacing.mkCR 2 480 0] d)
         + (0 + qsum (firstn (S i) ws) - Spacing.cr_segx (nth i [Spacing.mkCR 1 240 0; Spacing.mkCR 2 480 0] d))).
Proof.
  apply (Spacing.respace_conserves wit_log wit_dist (Spacing.mkCR 0 480 0)
           [Spacing.mkCR 1 240 0; Spacing.mkCR 2 480 0; Spacing.mkCR 10 480 0]).
  - intros x Hx. unfold wit_log. lra.
  - discriminate.
  - repeat constructor.
  - vm_compute. reflexivity.
Defined.

Lemma respace_crowded_witness :
  let l := Spacing.mkCR 0 480 0
           :: [Spacing.mkCR 1 240 0; Spacing.mkCR 2 480 0; Spacing.mkCR 2 480 0] in
  let ts := map Spacing.cr_ticks (removelast l) in
  let '(springs, minimum) :=
    Spacing.build_springs 0 (Spacing.str_of wit_log (Spacing.min_tick ts))
      (Spacing.gap_widths wit_dist l) ts [] 0 in
  Spacing.sff2 (2 - 0) minimum springs = Some 0 /\
  exists ws ps, Spacing.respace wit_log wit_dist l = Some (ws, ps) /\
    length ws = 3%nat /\ (forall i, nth i ws 0 == nth i [1; 1; 1] 0) /\ qsum ws == 3.
Proof.
  apply (Spacing.respace_crowded wit_log wit_dist (Spacing.mkCR 0 480 0)
           [Spacing.mkCR 1 240 0; Spacing.mkCR 2 480 0; Spacing.mkCR 2 480 0]).
  - intros x Hx. unfold wit_log. lra.
  - discriminate.
  - repeat constructor.
  - repeat constructor; unfold wit_dist; lra.
  - vm_compute. discriminate.
Defined.

(** Two springs of stretch 1 with fixes 1 and 2 stretched to width 5:
    the force is 2.5 and both springs are active. *)
Lemma sff2_total_witness :
  exists f, Spacing.sff2 5 3 [(1, Spacing.mkSpring 0 1 1); (2, Spacing.mkSpring 1 1 2)] = Some f /\
    Spacing.total f [(1, Spacing.mkSpring 0 1 1); (2, Spacing.mkSpring 1 1 2)] == 5 /\
    (forall g, Spacing.total g [(1, Spacing.mkSpring 0 1 1); (2, Spacing.mkSpring 1 1 2)] == 5 -> g == f).
Proof.
  apply Spacing.sff2_total.
  - discriminate.
  - repeat constructor; unfold Spacing.key_le; simpl; lra.
  - repeat constructor; simpl; lra.
  - vm_compute. reflexivity.
  - vm_compute. reflexivity.
Defined.
