(* ===== verification/ChordLayout.v ===== *)
(** * Chord layout: notehead mirroring and voice conflicts

    Models [Score::layoutChords2] (layout.cpp 547-626: which noteheads are
    mirrored to the other side of the stem) and the part of
    [Score::layoutChords1] (110-536) that groups the chords of one staff
    in a segment by stem direction, resolves the conflict between the
    up-stem and the down-stem group, and computes each chord's x offset.
    Notes are addressed by an identity [nid] (the C++ pointer), so that a
    write through one list (the overlap list hides dots) is seen through
    the others. *)

From Stdlib Require Import QArith Lqa ZArith List Lia Sorted Permutation Bool.
From Stdlib Require Import Morphisms Setoid.
From S2P Require Import Prelude.
Import ListNotations.
Open Scope Q_scope.
Open Scope layout_scope.

Module ChordLayout.

(** [NoteHead::Type] *)
Inductive HeadType := HEAD_AUTO | HEAD_WHOLE | HEAD_HALF | HEAD_QUARTER | HEAD_BREVIS.

Definition HeadType_eqb (a b : HeadType) : bool :=
  match a, b with
  | HEAD_AUTO, HEAD_AUTO | HEAD_WHOLE, HEAD_WHOLE | HEAD_HALF, HEAD_HALF
  | HEAD_QUARTER, HEAD_QUARTER | HEAD_BREVIS, HEAD_BREVIS => true
  | _, _ => false
  end.

(** [MScore::DirectionH] *)
Inductive DirectionH := DH_AUTO | DH_LEFT | DH_RIGHT.

(** What the layout reads of a [Chord]: stem direction, cross-staff
    move, dots, hook, stem (with its line width), magnification, size,
    nudge, the notehead type of its duration, and whether it has grace
    notes before it. *)
Record Chord := mkChord {
  up : bool; staffMove : Z; dots : Z; hook : bool; stem : option Q;
  mag : Q; small : bool; isNudged : bool; durHeadType : HeadType; graceBefore : bool }.

(** A [Note] with its chord ([note->chord()]); [mirror], [hidden] and
    [dotsHidden] are the fields layout writes. *)
Record Note := mkNote {
  nid : nat; chord : Chord; line : Z; tpc : Z; headGroup : Z; headType : HeadType;
  visible : bool; note_small : bool; userMirror : DirectionH; headWidth : Q; voice : Z;
  mirror : bool; hidden : bool; dotsHidden : bool }.

Definition set_mirror (m : bool) (n : Note) : Note :=
  mkNote (nid n) (chord n) (line n) (tpc n) (headGroup n) (headType n) (visible n)
    (note_small n) (userMirror n) (headWidth n) (voice n) m false false.

Definition set_dotsHidden (n : Note) : Note :=
  mkNote (nid n) (chord n) (line n) (tpc n) (headGroup n) (headType n) (visible n)
    (note_small n) (userMirror n) (headWidth n) (voice n) (mirror n) (hidden n) true.

(** ** [layoutChords2] *)

(** Loop state: line, visibility and staff move of the previous note, the
    side ([isLeft]) and the running maximum width. *)
Record L2State := mkL2 { ll : Z; lvisible : bool; isLeft : bool; lmove : Z; maxWidth : Q }.

(** [bool conflict = (qAbs(ll - line) < 2) && (lmove == move) && note->visible() && lvisible;] *)
Definition l2_conflict (st : L2State) (n : Note) : bool :=
  (Z.abs (ll st - line n) <? 2)%Z && (lmove st =? staffMove (chord n))%Z && visible n && lvisible st.

(** One iteration of the loop of [layoutChords2] (lines 575-622). *)
Definition l2_step (st : L2State) (n : Note) : L2State * Note :=
  let conflict := l2_conflict st n in
  let isLeft' := if conflict || negb (Bool.eqb (up (chord n)) (isLeft st))
                 then negb (isLeft st) else isLeft st in
  let nmirror := negb (Bool.eqb (up (chord n)) isLeft') in
  let m := match userMirror n with
           | DH_AUTO => nmirror
           | DH_LEFT => negb (up (chord n))
           | DH_RIGHT => up (chord n)
           end in
  let mw := if m then maxWidth st else qMax (maxWidth st) (headWidth n) in
  (mkL2 (line n) (visible n) isLeft' (staffMove (chord n)) mw, set_mirror m n).

Fixpoint l2_run (st : L2State) (ns : list Note) : L2State * list Note :=
  match ns with
  | [] => (st, [])
  | n :: ns' =>
      let '(st1, n') := l2_step st n in
      let '(st2, ns'') := l2_run st1 ns' in
      (st2, n' :: ns'')
  end.

(** [Score::layoutChords2(notes, up)]: [notes] is sorted by line,
    greatest first (lowest pitch first); up-stem groups are processed
    bottom up, down-stem groups top down.  The notes come back in their
    order with their mirror flags, and the maximum width of the
    unmirrored heads.  [None]: an empty list, where the code reads
    [notes[startIdx]] out of range. *)
Definition layoutChords2 (notes : list Note) (isUp : bool) : option (list Note * Q) :=
  let order := if isUp then notes else rev notes in
  match order with
  | [] => None
  | first :: _ =>
      let st0 := mkL2 1000 false (up (chord first)) (staffMove (chord first)) 0 in
      let '(st, ns) := l2_run st0 order in
      Some (if isUp then ns else rev ns, maxWidth st)
  end.

(** Which side of the stem a head ends on: an unmirrored head of an
    up-stem chord is left of the stem, a mirrored one right; the other
    way round for down-stem chords. *)
Definition on_left (n : Note) : bool := xorb (up (chord n)) (mirror n).

(** Two heads conflict when they are a second or a unison apart on the
    same staff and both are visible. *)
Definition conflicting (a b : Note) : Prop :=
  (Z.abs (line a - line b) < 2)%Z /\ staffMove (chord a) = staffMove (chord b) /\
  visible a = true /\ visible b = true.

(** A property of every pair of neighbours of a list. *)
Fixpoint adjacent (P : Note -> Note -> Prop) (l : list Note) : Prop :=
  match l with
  | a :: ((b :: _) as t) => P a b /\ adjacent P t
  | _ => True
  end.

(** ** Lemmas on one step of [layoutChords2] *)

Lemma l2_step_state st n :
  ll (fst (l2_step st n)) = line n /\ lvisible (fst (l2_step st n)) = visible n /\
  lmove (fst (l2_step st n)) = staffMove (chord n).
Proof. repeat split. Qed.

Lemma l2_step_note st n : snd (l2_step st n) = set_mirror (mirror (snd (l2_step st n))) n.
Proof. reflexivity. Qed.

Lemma l2_step_isLeft st n :
  isLeft (fst (l2_step st n)) = if l2_conflict st n then negb (isLeft st) else up (chord n).
Proof. unfold l2_step; simpl. destruct (l2_conflict st n), (up (chord n)), (isLeft st); reflexivity. Qed.

Lemma l2_step_on_left st n :
  userMirror n = DH_AUTO -> on_left (snd (l2_step st n)) = isLeft (fst (l2_step st n)).
Proof.
  intros H. unfold l2_step, on_left, set_mirror; simpl. rewrite H.
  destruct (l2_conflict st n), (up (chord n)), (isLeft st); reflexivity.
Qed.

(** An automatically placed head is mirrored exactly when it conflicts
    with the previous head and that head took this chord's natural side. *)
Lemma l2_step_mirror st n :
  userMirror n = DH_AUTO ->
  mirror (snd (l2_step st n)) = l2_conflict st n && Bool.eqb (up (chord n)) (isLeft st).
Proof.
  intros H. unfold l2_step, set_mirror; simpl. rewrite H.
  destruct (l2_conflict st n), (up (chord n)), (isLeft st); reflexivity.
Qed.

Lemma l2_conflict_after st a b :
  l2_conflict (fst (l2_step st a)) b = true <-> conflicting a b.
Proof.
  unfold l2_conflict, conflicting. simpl.
  rewrite !andb_true_iff, Z.ltb_lt, Z.eqb_eq. tauto.
Qed.

Lemma conflicting_set_mirror m m' a b : conflicting (set_mirror m a) (set_mirror m' b) <-> conflicting a b.
Proof. reflexivity. Qed.

Lemma l2_run_cons st n ns :
  l2_run st (n :: ns) = (fst (l2_run (fst (l2_step st n)) ns),
                         snd (l2_step st n) :: snd (l2_run (fst (l2_step st n)) ns)).
Proof. simpl. destruct (l2_step st n), (l2_run _ ns); reflexivity. Qed.

(** Each output note is its input note with only the mirror flag set
    (and [hidden], [dotsHidden] reset). *)
Lemma l2_run_notes ns : forall st,
  Forall2 (fun n n' => n' = set_mirror (mirror n') n) ns (snd (l2_run st ns)).
Proof.
  induction ns as [|n ns IH]; intros st; [constructor|].
  rewrite l2_run_cons. constructor; [apply l2_step_note | apply IH].
Qed.

Definition opposite_sides (a b : Note) : Prop :=
  userMirror a = DH_AUTO -> userMirror b = DH_AUTO -> conflicting a b -> on_left a <> on_left b.

Definition mirrored_by_conflict (a b : Note) : Prop :=
  userMirror b = DH_AUTO -> mirror b = true -> conflicting a b.

Lemma conflicting_steps st a st' b :
  conflicting (snd (l2_step st a)) (snd (l2_step st' b)) <-> conflicting a b.
Proof. reflexivity. Qed.

Lemma userMirror_step st a : userMirror (snd (l2_step st a)) = userMirror a.
Proof. reflexivity. Qed.

Lemma l2_run_adjacent ns : forall st,
  adjacent opposite_sides (snd (l2_run st ns)) /\ adjacent mirrored_by_conflict (snd (l2_run st ns)).
Proof.
  induction ns as [|a ns IH]; intros st; [simpl; auto|].
  rewrite l2_run_cons. destruct ns as [|b ns]; [cbn; auto|].
  set (st1 := fst (l2_step st a)).
  destruct (IH st1) as [IH1 IH2]. rewrite l2_run_cons in IH1, IH2 |- *.
  cbn [snd adjacent] in IH1, IH2 |- *.
  unfold opposite_sides, mirrored_by_conflict in *.
  rewrite !userMirror_step, conflicting_steps.
  split; split; [| exact IH1 | | exact IH2].
  - intros Ha Hb Hc. rewrite (l2_step_on_left st a Ha), (l2_step_on_left st1 b Hb).
    apply (l2_conflict_after st) in Hc.
    unfold st1 in *. rewrite (l2_step_isLeft (fst (l2_step st a)) b), Hc.
    destruct (isLeft (fst (l2_step st a))); discriminate.
  - intros Hb Hm. rewrite (l2_step_mirror st1 b Hb) in Hm.
    apply andb_true_iff in Hm as [Hm _]. exact (proj1 (l2_conflict_after st a b) Hm).
Qed.

Lemma l2_run_snd st a ns :
  snd (l2_run st (a :: ns)) = snd (l2_step st a) :: snd (l2_run (fst (l2_step st a)) ns).
Proof. now rewrite l2_run_cons. Qed.

Lemma l2_run_maxWidth ns : forall st,
  let r := l2_run st ns in
  maxWidth st <= maxWidth (fst r) /\
  (forall n, In n (snd r) -> mirror n = false -> headWidth n <= maxWidth (fst r)) /\
  (maxWidth (fst r) == maxWidth st \/
   exists n, In n (snd r) /\ mirror n = false /\ maxWidth (fst r) == headWidth n).
Proof.
  induction ns as [|a ns IH]; intros st; cbv zeta; [simpl; split; [lra | split; [tauto | left; lra]]|].
  rewrite l2_run_cons. cbn [fst snd].
  set (st1 := fst (l2_step st a)). destruct (IH st1) as (H1 & H2 & H3).
  assert (Hmw : maxWidth st1 == if mirror (snd (l2_step st a)) then maxWidth st
                                else qMax (maxWidth st) (headWidth a)) by reflexivity.
  assert (Hw : headWidth (snd (l2_step st a)) = headWidth a) by reflexivity.
  split; [|split].
  - destruct (mirror (snd (l2_step st a))); rewrite Hmw in H1; [lra|].
    pose proof (qMax_ge_l (maxWidth st) (headWidth a)). lra.
  - intros n [<-|Hin] Hm; [|auto]. rewrite Hw. rewrite Hm in Hmw.
    pose proof (qMax_ge_r (maxWidth st) (headWidth a)). lra.
  - destruct H3 as [H3|H3]; [|right; destruct H3 as (n & Hn1 & Hn2 & Hn3); exists n; split; [right; exact Hn1 | split; assumption]].
    destruct (mirror (snd (l2_step st a))) eqn:Em; [left; lra|].
    unfold qMax in Hmw. destruct (qltb_spec (maxWidth st) (headWidth a)).
    + right. exists (snd (l2_step st a)). split; [left; reflexivity|]. split; [exact Em|].
      rewrite Hw. lra.
    + left. lra.
Qed.

Lemma layoutChords2_run notes isUp out w :
  layoutChords2 notes isUp = Some (out, w) ->
  exists first rest, (if isUp then notes else rev notes) = first :: rest /\
    (if isUp then out else rev out) =
      snd (l2_run (mkL2 1000 false (up (chord first)) (staffMove (chord first)) 0) (first :: rest)) /\
    w = maxWidth (fst (l2_run (mkL2 1000 false (up (chord first)) (staffMove (chord first)) 0) (first :: rest))).
Proof.
  unfold layoutChords2. destruct (if isUp then notes else rev notes) as [|first rest] eqn:E; [discriminate|].
  destruct (l2_run _ (first :: rest)) as [st ns] eqn:Er. intros H. inversion H; subst.
  exists first, rest. split; [reflexivity|]. rewrite Er. split; [|reflexivity].
  destruct isUp; [reflexivity|]. apply rev_involutive.
Qed.

(** C26. Mirroring resolves seconds: in the result of [layoutChords2],
    two neighbouring heads (in the order the loop visits them) that are
    a second or unison apart on the same staff, both visible and both
    placed automatically, end on opposite sides of the stem. *)
Theorem layoutChords2_opposite notes isUp out w :
  layoutChords2 notes isUp = Some (out, w) ->
  adjacent opposite_sides (if isUp then out else rev out).
Proof.
  intros H. destruct (layoutChords2_run notes isUp out w H) as (first & rest & _ & -> & _).
  apply l2_run_adjacent.
Qed.

(** Mirroring only for conflicts: an automatically placed head is
    mirrored only when it conflicts with the head visited just before it;
    the first head visited is never mirrored automatically. *)
Theorem layoutChords2_mirror_conflict notes isUp out w :
  layoutChords2 notes isUp = Some (out, w) ->
  adjacent mirrored_by_conflict (if isUp then out else rev out) /\
  (forall n rest, (if isUp then out else rev out) = n :: rest ->
     userMirror n = DH_AUTO -> mirror n = false).
Proof.
  intros H. destruct (layoutChords2_run notes isUp out w H) as (first & rest & _ & Hout & _).
  rewrite Hout. split; [apply l2_run_adjacent|].
  intros n rest' Hn Ha. rewrite l2_run_snd in Hn.
  assert (E : hd n (snd (l2_step (mkL2 1000 false (up (chord first)) (staffMove (chord first)) 0) first)
                    :: snd (l2_run (fst (l2_step (mkL2 1000 false (up (chord first))
                                                      (staffMove (chord first)) 0) first)) rest))
              = hd n (n :: rest')) by (rewrite Hn; reflexivity).
  cbn [hd] in E. rewrite <- E in Ha |- *. rewrite userMirror_step in Ha.
  rewrite l2_step_mirror by exact Ha. unfold l2_conflict. simpl. now rewrite !andb_false_r.
Qed.

(** [layoutChords2] returns the widest unmirrored head: at least the
    width of every unmirrored head of the result, and either 0 (all heads
    mirrored) or the width of one of them. *)
Theorem layoutChords2_maxWidth notes isUp out w :
  layoutChords2 notes isUp = Some (out, w) ->
  (forall n, In n out -> mirror n = false -> headWidth n <= w) /\
  (w == 0 \/ exists n, In n out /\ mirror n = false /\ w == headWidth n).
Proof.
  intros H. destruct (layoutChords2_run notes isUp out w H) as (first & rest & _ & Hout & ->).
  destruct (l2_run_maxWidth (first :: rest) (mkL2 1000 false (up (chord first)) (staffMove (chord first)) 0))
    as (_ & H2 & H3).
  rewrite <- Hout in H2, H3. simpl in H3.
  assert (Hin : forall n, In n (if isUp then out else rev out) <-> In n out)
    by (destruct isUp; [tauto | intros; split; [apply in_rev | rewrite <- in_rev; auto]]).
  split.
  - intros n Hn Hm. apply H2; [apply Hin, Hn | exact Hm].
  - destruct H3 as [H3|(n & Hn & Hm & Heq)]; [left; exact H3|right].
    exists n. split; [apply Hin, Hn | auto].
Qed.

(** ** [layoutChords1]: grouping, centering, conflict resolution *)

(** Staff and style values read by [layoutChords1]. *)
Record Env := mkEnv {
  nominalWidth : Q;    (* noteHeadWidth() * staff->mag() *)
  staffMag : Q;        (* staff->mag() *)
  sp : Q;              (* staff->spatium() *)
  dotWidth : Q;        (* segment->symWidth(SymId::augmentationDot) *)
  dotNoteDistance : Q; (* styleP(StyleIdx::dotNoteDistance) *)
  dotDotDistance : Q   (* styleP(StyleIdx::dotDotDistance) *)
}.

(** What [segment->element(track)] holds for one track of the staff. *)
Inductive Slot := SChord (c : Chord) (ns : list Note) | SOther.

(** The accumulators of the first loop of [layoutChords1] (139-177). *)
Record Groups := mkGroups {
  upStemNotes : list Note; downStemNotes : list Note; upVoices : nat; downVoices : nat;
  upDots : Z; downDots : Z; maxUpMag : Q; maxDownMag : Q;
  upHooks : bool; downHooks : bool; upGrace : bool; downGrace : bool }.

(** One track; Qt's [qMax] on [int] is [Z.max]. *)
Definition gather_step (g : Groups) (sl : Slot) : Groups :=
  match sl with
  | SOther => g
  | SChord c ns =>
      if up c then
        mkGroups (upStemNotes g ++ ns) (downStemNotes g) (S (upVoices g)) (downVoices g)
          (Z.max (upDots g) (dots c)) (downDots g) (qMax (maxUpMag g) (mag c)) (maxDownMag g)
          (upHooks g || hook c) (downHooks g) (upGrace g || graceBefore c) (downGrace g)
      else
        mkGroups (upStemNotes g) (downStemNotes g ++ ns) (upVoices g) (S (downVoices g))
          (upDots g) (Z.max (downDots g) (dots c)) (maxUpMag g) (qMax (maxDownMag g) (mag c))
          (upHooks g) (downHooks g || hook c) (upGrace g) (downGrace g || graceBefore c)
  end.

Definition gather (slots : list Slot) : Groups :=
  fold_left gather_step slots (mkGroups [] [] 0 0 0 0 0 0 false false false false).

(** [if (upVoices > 1) qSort(...)]: several voices are merged by line. *)
Definition sort_voices (v : nat) (ns : list Note) : list Note :=
  if (1 <? v)%nat then sort_desc line ns else ns.

(** Centering of heads wider or narrower than nominal (208-262). *)
Record Centering := mkCentering {
  maxUpWidth : Q; maxDownWidth : Q; centerUp : Q; oversizeUp : Q;
  centerDown : Q; centerAdjustUp : Q; centerAdjustDown : Q }.

Definition centering (e : Env) (g : Groups) (mUp mDown : Q) : Centering :=
  let thr := (1 # 100) * sp e in
  let headDiff := mUp - nominalWidth e in
  let headDiff2 := mUp - nominalWidth e * (maxUpMag g / staffMag e) in
  let '(mUp', cUp, oUp, cAdjDown) :=
    if thr <?q headDiff then
      let cUp := headDiff * (-1 # 2) in
      if thr <?q headDiff2 then (mUp + cUp, cUp + headDiff2, headDiff2, 0)
      else (mUp + cUp, cUp, 0, 0)
    else if thr <?q - headDiff then
      let cUp := - headDiff * (1 # 2) in
      if thr <?q headDiff2 then (mUp, cUp + headDiff2, headDiff2, cUp + headDiff2)
      else (mUp, cUp, 0, cUp)
    else (mUp, 0, 0, 0) in
  let headDiffD := mDown - nominalWidth e in
  let '(mDown', cDown, cAdjUp) :=
    if thr <?q headDiffD then
      let cDown := headDiffD * (-1 # 2) in (nominalWidth e - cDown, cDown, 0)
    else if thr <?q - headDiffD then
      let cDown := - headDiffD * (1 # 2) in (mDown, cDown, cDown)
    else (mDown, 0, 0) in
  mkCentering mUp' mDown' cUp oUp cDown cAdjUp cAdjDown.

Fixpoint take_while {A} (p : A -> bool) (l : list A) : list A :=
  match l with
  | [] => []
  | x :: l' => if p x then x :: take_while p l' else []
  end.

(** The overlapping notes (283-298): up-stem notes from the bottom while
    they reach the top down-stem note, down-stem notes from the top while
    they reach the bottom up-stem note, merged by line. *)
Definition overlap_notes (ups downs : list Note) (topDown bottomUp : Note) : list Note :=
  sort_desc line
    (take_while (fun n => (line topDown - 1 <=? line n)%Z) ups ++
     take_while (fun n => (line n <=? line bottomUp + 1)%Z) (rev downs)).

Definition has_stem (c : Chord) : bool := match stem c with Some _ => true | None => false end.

(** [nHeadType]: an automatic head takes the type of the chord's duration. *)
Definition effHeadType (n : Note) : HeadType :=
  match headType n with HEAD_AUTO => durHeadType (chord n) | t => t end.

(** The unison test of lines 317-341: [true] when the two heads cannot
    be shared. *)
Definition unison_unshareable (n p : Note) : bool :=
  let nc := chord n in let pc := chord p in
  if negb (headGroup n =? headGroup p)%Z || negb (tpc n =? tpc p)%Z || mirror n || mirror p
     || negb (Bool.eqb (small nc) (small pc))
  then true
  else (negb (dots nc =? dots pc)%Z || negb (has_stem nc) || negb (has_stem pc)
        || negb (HeadType_eqb (effHeadType n) (effHeadType p)) || note_small n || note_small p)
       && ((HeadType_eqb (headType n) HEAD_AUTO && HeadType_eqb (headType p) HEAD_AUTO)
           || negb (HeadType_eqb (effHeadType n) (effHeadType p)))
       && Bool.eqb (visible n) (visible p).

(** Classification of the overlap (299-373). *)
Record Overlap := mkOverlap {
  shareHeads : bool; matchPending : bool; conflictUnison : bool;
  conflictSecondUpHigher : bool; conflictSecondDownHigher : bool; lastLine : Z; prev : Note }.

Definition classify_step (separation : Z) (o : Overlap) (n : Note) : Overlap :=
  if mirror n && (separation <? 0)%Z then
    mkOverlap false (matchPending o) (conflictUnison o) (conflictSecondUpHigher o)
      (conflictSecondDownHigher o) (lastLine o) (prev o)
  else
    let d := (lastLine o - line n)%Z in
    if (d =? 0)%Z then
      mkOverlap (shareHeads o && negb (unison_unshareable n (prev o))) false true
        (conflictSecondUpHigher o) (conflictSecondDownHigher o) (line n) n
    else if (d =? 1)%Z then
      if (separation <? 0)%Z then
        mkOverlap false (matchPending o) (conflictUnison o)
          (conflictSecondUpHigher o || up (chord n)) (conflictSecondDownHigher o || negb (up (chord n)))
          (line n) n
      else
        mkOverlap (shareHeads o) (matchPending o) (conflictUnison o)
          (conflictSecondUpHigher o) (conflictSecondDownHigher o) (line n) n
    else
      mkOverlap (shareHeads o && negb (matchPending o)) true (conflictUnison o)
        (conflictSecondUpHigher o) (conflictSecondDownHigher o) (line n) n.

(** The loop over the overlap list, starting from [p = overlapNotes[0]],
    and the final [if (matchPending) shareHeads = false]. *)
Definition classify (separation : Z) (ov : list Note) : option Overlap :=
  match ov with
  | [] => None
  | p0 :: _ =>
      let o := fold_left (classify_step separation) ov (mkOverlap true false false false false 1000 p0) in
      Some (mkOverlap (shareHeads o && negb (matchPending o)) (matchPending o) (conflictUnison o)
              (conflictSecondUpHigher o) (conflictSecondDownHigher o) (lastLine o) (prev o))
  end.

(** Shared heads (377-398): pairs from the end of the overlap list; of two
    un-nudged heads with the same number of dots, one set of dots is
    hidden, chosen by line/space and voice parity.  Returns the [nid]s
    whose dots are hidden. *)
Fixpoint hide_shared_dots (rov : list Note) : list nat :=
  match rov with
  | n :: p :: rest =>
      let here :=
        if negb (isNudged (chord p) || isNudged (chord n)) && (dots (chord p) =? dots (chord n))%Z then
          let onLine := negb (Z.odd (line p)) in
          if onLine then (if Z.odd (voice p) then [nid p] else [nid n])
          else (if negb (Z.odd (voice p)) then [nid p] else [nid n])
        else [] in
      here ++ hide_shared_dots rest
  | _ => []
  end.

(** The outcome of the conflict handling. *)
Record Offsets := mkOffsets {
  upOffset : Q; downOffset : Q; dotAdjustThreshold : Q;
  centerDown' : Q; centerAdjustUp' : Q; downDots' : Z; hiddenDots : list nat }.

(** The offset cascade for overlapping groups (375-427), in the order of
    the source. *)
Definition overlap_offsets (e : Env) (g : Groups) (c : Centering) (topDown bottomUp : Note)
    (separation : Z) (o : Overlap) (ov : list Note) : Offsets :=
  let s := sp e in
  let mUp := maxUpWidth c in let mDown := maxDownWidth c in
  let hasUpDots := negb (upDots g =? 0)%Z in let hasDownDots := negb (downDots g =? 0)%Z in
  let keep u d := mkOffsets u d 0 (centerDown c) (centerAdjustUp c) (downDots g) [] in
  if shareHeads o then
    mkOffsets 0 0 0 (centerDown c) (centerAdjustUp c) (downDots g) (hide_shared_dots (rev ov))
  else if conflictUnison o && (separation =? 0)%Z && (negb (downGrace g) || upGrace g) then
    keep 0 (mUp + (3 # 10) * s)
  else if conflictUnison o then keep (mDown + (3 # 10) * s) 0
  else if conflictSecondUpHigher o then keep (mDown + (2 # 10) * s) 0
  else if (downHooks g && negb (upHooks g)) && negb (hasUpDots && negb hasDownDots) then
    keep 0 (mUp + (3 # 10) * s)
  else if conflictSecondDownHigher o then
    if hasDownDots && negb hasUpDots then keep 0 (mUp + (3 # 10) * s)
    else keep (mDown - (2 # 10) * s + (if downHooks g then (3 # 10) * s else 0)) 0
  else
    (* no direct conflict: parts can overlap, downstem on the left *)
    let clearLeft := match stem (chord topDown) with Some lw => lw + (3 # 10) * s | None => 0 end in
    let '(clearRight, dDots) :=
      match stem (chord bottomUp) with
      | Some lw => (lw + qMax (mDown - mUp) 0 + (3 # 10) * s, downDots g)
      | None => (0, 0%Z)
      end in
    let u0 := qMax clearLeft clearRight in
    let '(u1, thr1) := if downHooks g then (qMax u0 (mDown + (1 # 10) * s), mUp - (3 # 10) * s)
                       else (u0, 0) in
    if 0 <?q centerDown c then
      mkOffsets u1 0 ((u1 - mDown) + mUp - (3 # 10) * s) 0 0 dDots []
    else mkOffsets u1 0 thr1 (centerDown c) (centerAdjustUp c) dDots [].

(** Conflict between the groups (264-447): [separation] of the innermost
    heads, then the second, overlap or no-conflict case. *)
Definition conflict_offsets (e : Env) (g : Groups) (c : Centering) (ups downs : list Note)
    : option (Z * Offsets) :=
  match ups, rev downs with
  | bottomUp :: _, topDown :: _ =>
      let separation :=
        if (staffMove (chord bottomUp) =? staffMove (chord topDown))%Z
        then (line topDown - line bottomUp)%Z else 2%Z in
      let none := mkOffsets 0 0 0 (centerDown c) (centerAdjustUp c) (downDots g) [] in
      if (separation =? 1)%Z then
        let d := match stem (chord topDown), stem (chord bottomUp) with
                 | Some lw, Some _ => maxUpWidth c - lw
                 | _, _ => maxUpWidth c + (1 # 10) * sp e
                 end in
        Some (separation, mkOffsets 0 d 0 (centerDown c) (centerAdjustUp c) (downDots g) [])
      else if (separation <? 1)%Z then
        let ov := overlap_notes ups downs topDown bottomUp in
        match classify separation ov with
        | None => None
        | Some o => Some (separation, overlap_offsets e g c topDown bottomUp separation o ov)
        end
      else Some (separation, none)
  | _, _ => None
  end.

(** Dot adjustment (430-446): only one group has dots. *)
Definition dot_adjust (e : Env) (g : Groups) (separation : Z) (o : Offsets) : Q :=
  let hasUp := negb (upDots g =? 0)%Z in let hasDown := negb (downDots' o =? 0)%Z in
  let base :=
    if (hasUp && negb hasDown) || (hasDown && negb hasUp) then
      let '(nd, m) := if hasUp then (upDots g, maxUpMag g) else (downDots' o, maxDownMag g) in
      let a := dotNoteDistance e + dotWidth e in
      let a := if (1 <? nd)%Z then a + dotDotDistance e * inject_Z (nd - 1) else a in
      qMax (a * m - dotAdjustThreshold o) 0
    else 0 in
  if (separation =? 1)%Z then base + (1 # 10) * sp e else base.

(** The x offset given to a chord (449-474); [rxpos] was reset to 0 by
    [layoutChords2]. *)
Definition chord_x (g : Groups) (c : Centering) (o : Offsets) (dotAdjust : Q) (ch : Chord) : Q :=
  let hasUp := negb (upDots g =? 0)%Z in let hasDown := negb (downDots' o =? 0)%Z in
  if up ch then
    if negb (Qeq_bool (upOffset o) 0) then
      upOffset o + centerAdjustUp' o + oversizeUp c + (if hasDown && negb hasUp then dotAdjust else 0)
    else centerUp c
  else
    if negb (Qeq_bool (downOffset o) 0) then
      downOffset o + centerAdjustDown c + (if hasUp && negb hasDown then dotAdjust else 0)
    else centerDown' o.

Definition mark_hidden (ids : list nat) (n : Note) : Note :=
  if existsb (Nat.eqb (nid n)) ids then set_dotsHidden n else n.

(** [layoutChords2] on a group that may be empty (no voice of that stem
    direction: the call is skipped). *)
Definition layout_group (v : nat) (ns : list Note) (isUp : bool) : option (list Note * Q) :=
  if (v =? 0)%nat then Some (ns, 0) else layoutChords2 ns isUp.

(** The result of [layoutChords1] for one staff of a segment: the x
    offset of the chord of each track, and the combined notes (sorted
    by line) handed to [layoutChords3]. *)
Record L1Result := mkL1 { chordXs : list (option Q); l1notes : list Note;
                          l1separation : option Z; l1offsets : Offsets; l1dotAdjust : Q;
                          l1centering : Centering }.

(** [Score::layoutChords1(segment, staffIdx)] without the grace-note
    layout and the calls to [layoutChords3] and [Element::layout]. *)
Definition layoutChords1 (e : Env) (slots : list Slot) : option L1Result :=
  let g := gather slots in
  if (upVoices g + downVoices g =? 0)%nat then
    Some (mkL1 (map (fun _ => None) slots) [] None (mkOffsets 0 0 0 0 0 0 []) 0
            (mkCentering 0 0 0 0 0 0 0))
  else
  match layout_group (upVoices g) (sort_voices (upVoices g) (upStemNotes g)) true,
        layout_group (downVoices g) (sort_voices (downVoices g) (downStemNotes g)) false with
  | Some (ups, hwUp), Some (downs, hwDown) =>
      let mUp := if (upVoices g =? 0)%nat then nominalWidth e * maxUpMag g
                 else qMax (nominalWidth e * maxUpMag g) hwUp in
      let mDown := if (downVoices g =? 0)%nat then nominalWidth e * maxDownMag g
                   else qMax (nominalWidth e * maxDownMag g) hwDown in
      let c := centering e g mUp mDown in
      let none := mkOffsets 0 0 0 (centerDown c) (centerAdjustUp c) (downDots g) [] in
      let conflict :=
        if negb (upVoices g =? 0)%nat && negb (downVoices g =? 0)%nat
        then option_map (fun '(sep, o) => (Some sep, o)) (conflict_offsets e g c ups downs)
        else Some (None, none) in
      match conflict with
      | None => None
      | Some (sep, o) =>
          let da := match sep with Some s => dot_adjust e g s o | None => 0 end in
          let xs := map (fun sl => match sl with
                                   | SChord ch _ => Some (chord_x g c o da ch)
                                   | SOther => None
                                   end) slots in
          let ns := map (mark_hidden (hiddenDots o)) (ups ++ downs) in
          let ns := if (1 <? upVoices g + downVoices g)%nat then sort_desc line ns else ns in
          Some (mkL1 xs ns sep o da c)
      end
  | _, _ => None
  end.

(** ** Lemmas on the conflict resolution *)

Ltac split_ifs :=
  repeat match goal with
         | |- context [if ?b then _ else _] => destruct b
         | |- context [let '(_, _) := ?p in _] => destruct p
         end.

Lemma overlap_offsets_one_side e g c topDown bottomUp sep o ov :
  upOffset (overlap_offsets e g c topDown bottomUp sep o ov) = 0 \/
  downOffset (overlap_offsets e g c topDown bottomUp sep o ov) = 0.
Proof.
  unfold overlap_offsets.
  destruct (stem (chord bottomUp)); split_ifs; simpl; auto.
Qed.

Lemma conflict_offsets_one_side e g c ups downs sep o :
  conflict_offsets e g c ups downs = Some (sep, o) -> upOffset o = 0 \/ downOffset o = 0.
Proof.
  unfold conflict_offsets. destruct ups as [|bu ups]; [discriminate|].
  destruct (rev downs) as [|td downs']; [discriminate|].
  cbv zeta. intros H.
  destruct (_ =? 1)%Z; [inversion H; subst; simpl; auto|].
  destruct (_ <? 1)%Z; [|inversion H; subst; simpl; auto].
  destruct (classify _ _); [|discriminate]. inversion H; subst. apply overlap_offsets_one_side.
Qed.

Lemma layoutChords1_inv e slots r :
  layoutChords1 e slots = Some r ->
  (l1separation r = None /\ upOffset (l1offsets r) = 0 /\ downOffset (l1offsets r) = 0 /\
   centerDown' (l1offsets r) = centerDown (l1centering r)) \/
  (exists sep, l1separation r = Some sep /\
     conflict_offsets e (gather slots) (l1centering r)
       (fst (match layout_group (upVoices (gather slots)) (sort_voices (upVoices (gather slots))
                 (upStemNotes (gather slots))) true with Some p => p | None => ([], 0) end))
       (fst (match layout_group (downVoices (gather slots)) (sort_voices (downVoices (gather slots))
                 (downStemNotes (gather slots))) false with Some p => p | None => ([], 0) end))
     = Some (sep, l1offsets r)).
Proof.
  unfold layoutChords1.
  destruct (upVoices (gather slots) + downVoices (gather slots) =? 0)%nat.
  { intros H; inversion H; subst; simpl. left; auto. }
  destruct (layout_group _ _ true) as [[ups hu]|]; [|discriminate].
  destruct (layout_group _ _ false) as [[downs hd]|]; [|discriminate].
  destruct (negb (upVoices (gather slots) =? 0)%nat && negb (downVoices (gather slots) =? 0)%nat).
  - destruct (conflict_offsets _ _ _ ups downs) as [[sep o]|] eqn:E; simpl; [|discriminate].
    intros H; inversion H; subst; simpl. right. exists sep. split; auto.
  - intros H; inversion H; subst; simpl. left; auto.
Qed.

(** One group stays put: in every outcome of [layoutChords1] at most
    one of the two stem groups receives a collision offset (the other
    keeps only its centering). *)
Theorem layoutChords1_one_side e slots r :
  layoutChords1 e slots = Some r -> upOffset (l1offsets r) = 0 \/ downOffset (l1offsets r) = 0.
Proof.
  intros H. destruct (layoutChords1_inv e slots r H) as [(_ & Hu & _)|(sep & _ & Hc)]; [auto|].
  eapply conflict_offsets_one_side; eauto.
Qed.

Definition is_chord (sl : Slot) : bool := match sl with SChord _ _ => true | SOther => false end.

Lemma gather_voices slots : forall g,
  (upVoices (fold_left gather_step slots g) + downVoices (fold_left gather_step slots g) =
   upVoices g + downVoices g + length (filter is_chord slots))%nat.
Proof.
  induction slots as [|sl slots IH]; intros g; simpl; [lia|].
  rewrite IH. destruct sl as [ch ns|]; simpl; [destruct (up ch); simpl; lia | lia].
Qed.

(** The x offsets [layoutChords1] gives: the chord of every track gets
    [chord_x] of the computed offsets, other tracks nothing. *)
Lemma layoutChords1_xs e slots r :
  layoutChords1 e slots = Some r ->
  chordXs r = map (fun sl => match sl with
                             | SChord ch _ => Some (chord_x (gather slots) (l1centering r) (l1offsets r)
                                                           (l1dotAdjust r) ch)
                             | SOther => None end) slots.
Proof.
  unfold layoutChords1.
  destruct (upVoices (gather slots) + downVoices (gather slots) =? 0)%nat eqn:E0.
  { intros H; inversion H; subst; simpl. apply Nat.eqb_eq in E0. unfold gather in E0.
    rewrite gather_voices in E0. simpl in E0. apply map_ext_in. intros [ch ns|] Hin; [|reflexivity].
    exfalso. assert (In (SChord ch ns) (filter is_chord slots)) by (apply filter_In; auto).
    destruct (filter is_chord slots); simpl in *; [contradiction | lia]. }
  destruct (layout_group _ _ true) as [[ups hu]|]; [|discriminate].
  destruct (layout_group _ _ false) as [[downs hd]|]; [|discriminate].
  destruct (negb _ && negb _).
  - destruct (conflict_offsets _ _ _ ups downs) as [[sep o]|]; simpl; [|discriminate].
    intros H; inversion H; subst; reflexivity.
  - intros H; inversion H; subst; reflexivity.
Qed.

Lemma conflict_offsets_far e g c ups downs sep o :
  conflict_offsets e g c ups downs = Some (sep, o) -> (2 <= sep)%Z ->
  o = mkOffsets 0 0 0 (centerDown c) (centerAdjustUp c) (downDots g) [].
Proof.
  unfold conflict_offsets. destruct ups as [|bu ups]; [discriminate|].
  destruct (rev downs) as [|td downs']; [discriminate|].
  cbv zeta. intros H Hs.
  destruct (_ =? 1)%Z eqn:E1; [inversion H; subst; apply Z.eqb_eq in E1; lia|].
  destruct (_ <? 1)%Z eqn:E2; [|inversion H; reflexivity].
  destruct (classify _ _); [|discriminate]. inversion H; subst. apply Z.ltb_lt in E2. lia.
Qed.

(** No conflict, no offset: when the innermost heads of the two stem
    groups are at least a third apart (or on different staves), every
    chord keeps just its centering offset. *)
Theorem layoutChords1_far_apart e slots r sep :
  layoutChords1 e slots = Some r -> l1separation r = Some sep -> (2 <= sep)%Z ->
  chordXs r = map (fun sl => match sl with
                             | SChord ch _ => Some (if up ch then centerUp (l1centering r)
                                                   else centerDown (l1centering r))
                             | SOther => None end) slots.
Proof.
  intros H Hs Hsep. rewrite (layoutChords1_xs e slots r H).
  destruct (layoutChords1_inv e slots r H) as [(Hn & _)|(sep' & Hs' & Hc)]; [congruence|].
  rewrite Hs in Hs'. injection Hs' as <-.
  rewrite (conflict_offsets_far _ _ _ _ _ _ _ Hc Hsep).
  apply map_ext. intros [ch ns|]; [|reflexivity]. unfold chord_x; simpl.
  destruct (up ch); reflexivity.
Qed.

(** Colliding heads are displaced: when the overlap of the two groups
    contains a unison or a second and the heads cannot be shared, one of
    the groups is moved right by a positive amount (for a positive staff
    space, non-negative up-stem head width and down-stem heads wider than
    0.2 sp). *)
Theorem overlap_offsets_displace e g c td bu sep o ov :
  0 < sp e -> 0 <= maxUpWidth c -> (2 # 10) * sp e < maxDownWidth c ->
  shareHeads o = false ->
  conflictUnison o || conflictSecondUpHigher o || conflictSecondDownHigher o = true ->
  0 < upOffset (overlap_offsets e g c td bu sep o ov) \/
  0 < downOffset (overlap_offsets e g c td bu sep o ov).
Proof.
  intros Hsp Hup Hdown Hsh Hc. unfold overlap_offsets. rewrite Hsh.
  destruct (conflictUnison o), (conflictSecondUpHigher o), (conflictSecondDownHigher o);
    simpl in Hc; try discriminate; simpl; split_ifs; simpl; first [left; lra | right; lra].
Qed.

(** Dots of shared heads: of a shared unison pair of two voices of
    different parity, un-nudged and with the same number of dots, exactly
    one head loses its dots: on a staff line the odd voice's, in a space
    the even voice's. *)
Theorem hide_shared_dots_parity n p :
  isNudged (chord p) = false -> isNudged (chord n) = false -> dots (chord p) = dots (chord n) ->
  Z.odd (voice p) <> Z.odd (voice n) ->
  exists h, hide_shared_dots [n; p] = [nid h] /\ (h = n \/ h = p) /\
    Z.odd (voice h) = Z.even (line p).
Proof.
  intros Hp Hn Hd Hv. simpl. rewrite Hp, Hn, Hd, Z.eqb_refl. simpl.
  rewrite <- Z.negb_odd.
  destruct (Z.odd (line p)), (Z.odd (voice p)) eqn:Ep, (Z.odd (voice n)) eqn:En;
    simpl; try congruence;
    first [ exists p; split; [reflexivity | split; [auto | congruence]]
          | exists n; split; [reflexivity | split; [auto | congruence]] ].
Qed.

End ChordLayout.

(** Witnesses: an up-stem chord with a second (lines 5 and 4) and a
    third note on line 0. *)
Definition wit_chord : ChordLayout.Chord :=
  ChordLayout.mkChord true 0 0 false (Some (1 # 10)) 1 false false ChordLayout.HEAD_QUARTER false.

Definition wit_note (i : nat) (l : Z) : ChordLayout.Note :=
  ChordLayout.mkNote i wit_chord l 0 0 ChordLayout.HEAD_AUTO true false ChordLayout.DH_AUTO 1 0
    false false false.

Definition wit_notes : list ChordLayout.Note := [wit_note 0 5; wit_note 1 4; wit_note 2 0].

Lemma layoutChords2_opposite_witness :
  match ChordLayout.layoutChords2 wit_notes true with
  | Some (out, _) => ChordLayout.adjacent ChordLayout.opposite_sides out
  | None => False
  end.
Proof.
  destruct (ChordLayout.layoutChords2 wit_notes true) as [[out w]|] eqn:E;
    [| vm_compute in E; discriminate].
  exact (ChordLayout.layoutChords2_opposite wit_notes true out w E).
Defined.

Lemma layoutChords2_mirror_conflict_witness :
  match ChordLayout.layoutChords2 wit_notes true with
  | Some (out, _) => ChordLayout.adjacent ChordLayout.mirrored_by_conflict out
  | None => False
  end.
Proof.
  destruct (ChordLayout.layoutChords2 wit_notes true) as [[out w]|] eqn:E;
    [| vm_compute in E; discriminate].
  exact (proj1 (ChordLayout.layoutChords2_mirror_conflict wit_notes true out w E)).
Defined.

Lemma layoutChords2_maxWidth_witness :
  match ChordLayout.layoutChords2 wit_notes true with
  | Some (out, w) => forall n, In n out -> ChordLayout.mirror n = false -> ChordLayout.headWidth n <= w
  | None => False
  end.
Proof.
  destruct (ChordLayout.layoutChords2 wit_notes true) as [[out w]|] eqn:E;
    [| vm_compute in E; discriminate].
  exact (proj1 (ChordLayout.layoutChords2_maxWidth wit_notes true out w E)).
Defined.

(** The computed mirror flags of the example: only the upper note of the
    second is mirrored. *)
Example layoutChords2_example :
  option_map (fun r => map ChordLayout.mirror (fst r)) (ChordLayout.layoutChords2 wit_notes true)
  = Some [false; true; false].
Proof. vm_compute. reflexivity. Qed.

(** The scenario of section 8 of the spec: an up-stem chord on lines 0
    and 2 and a down-stem chord on line 1, quarter notes with stems, no
    dots, nominal head width 1.18 sp, stem width 0.13 sp. *)
Definition scen_env : ChordLayout.Env := ChordLayout.mkEnv (118 # 100) 1 1 (4 # 10) (2 # 10) (1 # 2).
Definition scen_up : ChordLayout.Chord :=
  ChordLayout.mkChord true 0 0 false (Some (13 # 100)) 1 false false ChordLayout.HEAD_QUARTER false.
Definition scen_down : ChordLayout.Chord :=
  ChordLayout.mkChord false 0 0 false (Some (13 # 100)) 1 false false ChordLayout.HEAD_QUARTER false.
Definition scen_note (i : nat) (c : ChordLayout.Chord) (l v : Z) : ChordLayout.Note :=
  ChordLayout.mkNote i c l 0 0 ChordLayout.HEAD_AUTO true false ChordLayout.DH_AUTO (118 # 100) v
    false false false.
Definition scen_slots : list ChordLayout.Slot :=
  [ChordLayout.SChord scen_up [scen_note 0 scen_up 2 0; scen_note 1 scen_up 0 0];
   ChordLayout.SChord scen_down [scen_note 2 scen_down 1 1];
   ChordLayout.SOther; ChordLayout.SOther].

(** The spec's scenario, as the code lays it out: separation -1, the
    overlap holds two seconds, the "second with the up-stem note higher"
    branch applies, and the up-stem chord moves right by the down-stem
    head width plus 0.2 sp while the down-stem chord stays in place (the
    spec expects the down-stem chord moved by the up-stem width plus
    0.3 sp). *)
Theorem layoutChords1_spec_scenario :
  match ChordLayout.layoutChords1 scen_env scen_slots with
  | Some r =>
      ChordLayout.l1separation r = Some (-1)%Z /\
      ChordLayout.upOffset (ChordLayout.l1offsets r)
        == ChordLayout.maxDownWidth (ChordLayout.l1centering r) + (2 # 10) * ChordLayout.sp scen_env /\
      ChordLayout.downOffset (ChordLayout.l1offsets r) == 0 /\
      match ChordLayout.chordXs r with
      | [Some xu; Some xd; None; None] => xu == ChordLayout.upOffset (ChordLayout.l1offsets r) /\ xd == 0
      | _ => False
      end
  | None => False
  end.
Proof. vm_compute. repeat split; reflexivity. Qed.

Lemma layoutChords1_one_side_witness :
  match ChordLayout.layoutChords1 scen_env scen_slots with
  | Some r => ChordLayout.upOffset (ChordLayout.l1offsets r) = 0 \/
              ChordLayout.downOffset (ChordLayout.l1offsets r) = 0
  | None => False
  end.
Proof.
  destruct (ChordLayout.layoutChords1 scen_env scen_slots) as [r|] eqn:E; [| vm_compute in E; discriminate].
  exact (ChordLayout.layoutChords1_one_side scen_env scen_slots r E).
Defined.

Definition far_slots : list ChordLayout.Slot :=
  [ChordLayout.SChord scen_up [scen_note 0 scen_up 0 0];
   ChordLayout.SChord scen_down [scen_note 1 scen_down 5 1]; ChordLayout.SOther; ChordLayout.SOther].

Lemma layoutChords1_far_apart_witness :
  match ChordLayout.layoutChords1 scen_env far_slots with
  | Some r => ChordLayout.chordXs r =
      [Some (ChordLayout.centerUp (ChordLayout.l1centering r));
       Some (ChordLayout.centerDown (ChordLayout.l1centering r)); None; None]
  | None => False
  end.
Proof.
  destruct (ChordLayout.layoutChords1 scen_env far_slots) as [r|] eqn:E; [| vm_compute in E; discriminate].
  assert (Hs : ChordLayout.l1separation r = Some 5%Z) by (vm_compute in E; injection E as <-; reflexivity).
  exact (ChordLayout.layoutChords1_far_apart scen_env far_slots r 5 E Hs ltac:(lia)).
Defined.

Lemma overlap_offsets_displace_witness :
  0 < ChordLayout.upOffset (ChordLayout.overlap_offsets scen_env
        (ChordLayout.gather scen_slots) (ChordLayout.mkCentering (118 # 100) (118 # 100) 0 0 0 0 0)
        (scen_note 2 scen_down 1 1) (scen_note 0 scen_up 2 0) 0
        (ChordLayout.mkOverlap false false true false false 1 (scen_note 2 scen_down 1 1)) []) \/
  0 < ChordLayout.downOffset (ChordLayout.overlap_offsets scen_env
        (ChordLayout.gather scen_slots) (ChordLayout.mkCentering (118 # 100) (118 # 100) 0 0 0 0 0)
        (scen_note 2 scen_down 1 1) (scen_note 0 scen_up 2 0) 0
        (ChordLayout.mkOverlap false false true false false 1 (scen_note 2 scen_down 1 1)) []).
Proof.
  apply ChordLayout.overlap_offsets_displace; simpl; try reflexivity; lra.
Defined.

Lemma hide_shared_dots_parity_witness :
  exists h, ChordLayout.hide_shared_dots [scen_note 2 scen_down 3 1; scen_note 0 scen_up 3 0] = [ChordLayout.nid h] /\
    (h = scen_note 2 scen_down 3 1 \/ h = scen_note 0 scen_up 3 0) /\
    Z.odd (ChordLayout.voice h) = Z.even (ChordLayout.line (scen_note 0 scen_up 3 0)).
Proof.
  apply ChordLayout.hide_shared_dots_parity; try reflexivity. discriminate.
Defined.
