(* ===== verification/Beams.v ===== *)
(** * Beam grouping ([Score::createBeams], [Score::beamGraceNotes])

    The per-track state machine of [createBeams] (layout.cpp 2574-2733)
    and its grace-note variant [beamGraceNotes] (1129-1190): a pending
    start candidate [a1] and an open [beam], fed one chord/rest at a time.
    The two loops differ only in when a candidate is replaced (the
    [restart] test) and in the cross-measure rule of [createBeams]; the
    machine is written once, in a Section over the restart test.
    [Groups::endBeam] (the time-signature grouping table and the user's
    beam mode) is outside src/: the mode it returns for each element is
    part of the input.  Beams are modelled by their member lists; the
    reuse of an existing [Beam] object ([a1->beam()]) does not change
    the grouping. *)

From Stdlib Require Import ZArith List Lia Bool.
From S2P Require Import Prelude.
Import ListNotations.
Open Scope Z_scope.

Module Beams.

(** [Beam::Mode] *)
Inductive BeamMode := AUTO | BEGIN | MID | END | NONE | BEGIN32 | BEGIN64 | INVALID.

Definition mode_eqb (a b : BeamMode) : bool :=
  match a, b with
  | AUTO, AUTO | BEGIN, BEGIN | MID, MID | END, END | NONE, NONE
  | BEGIN32, BEGIN32 | BEGIN64, BEGIN64 | INVALID, INVALID => true
  | _, _ => false
  end.

(** [#define beamModeMid(a) (a == MID || a == BEGIN32 || a == BEGIN64)] *)
Definition beamModeMid (m : BeamMode) : bool :=
  match m with MID | BEGIN32 | BEGIN64 => true | _ => false end.

(** [TDuration::DurationType], in declaration order. *)
Inductive DurationType :=
  V_LONG | V_BREVE | V_WHOLE | V_HALF | V_QUARTER | V_EIGHTH | V_16TH | V_32ND | V_64TH
| V_128TH | V_256TH | V_512TH | V_1024TH | V_ZERO | V_MEASURE | V_INVALID.

Definition dur_index (d : DurationType) : nat :=
  match d with
  | V_LONG => 0 | V_BREVE => 1 | V_WHOLE => 2 | V_HALF => 3 | V_QUARTER => 4 | V_EIGHTH => 5
  | V_16TH => 6 | V_32ND => 7 | V_64TH => 8 | V_128TH => 9 | V_256TH => 10 | V_512TH => 11
  | V_1024TH => 12 | V_ZERO => 13 | V_MEASURE => 14 | V_INVALID => 15
  end.

(** [cr->durationType().type() <= TDuration::DurationType::V_QUARTER] *)
Definition quarter_or_longer (d : DurationType) : bool := (dur_index d <=? 4)%nat.

(** What the loops read of a [ChordRest]: its identity, duration type,
    number of hooks, whether it is the second part of a cross-measure
    value, its segment type, tick, actual length in ticks, and the mode
    [Groups::endBeam] returns for it. *)
Record CR := mkCR {
  crid : nat; durType : DurationType; hooks : nat; crossSecond : bool;
  segType : nat; tick : Z; actualTicks : Z; endBeam : BeamMode }.

(** The machine: pending candidate [a1], open beam (its members), and
    the beams closed so far ([beam->layout1()] closes a beam). *)
Record BState := mkBState { a1 : option CR; beam : option (list CR); beams : list (list CR) }.

Definition init : BState := mkBState None None [].

Definition close (b : option (list CR)) (done : list (list CR)) : list (list CR) :=
  match b with Some l => done ++ [l] | None => done end.

Section Machine.

(** [restart a1 cr bm]: the candidate [a1] is dropped and [cr] becomes
    the new candidate. *)
Variable restart : CR -> CR -> BeamMode -> bool.

(** One element with effective mode [bm] (the body of both loops). *)
Definition beam_step (s : BState) (cr : CR) (bm : BeamMode) : BState :=
  if quarter_or_longer (durType cr) || mode_eqb bm NONE then
    mkBState None None (close (beam s) (beams s))
  else
    let '(b, done, added) :=
      match beam s with
      | Some l =>
          if mode_eqb bm BEGIN then (None, beams s ++ [l], false)
          else if mode_eqb bm END then (None, beams s ++ [l ++ [cr]], true)
          else (Some (l ++ [cr]), beams s, true)
      | None => (None, beams s, false)
      end in
    if added then mkBState (a1 s) b done
    else match a1 s with
         | None => mkBState (Some cr) b done
         | Some x =>
             if negb (beamModeMid bm) && restart x cr bm then mkBState (Some cr) b done
             else mkBState None (Some [x; cr]) done
         end.

(** After the loop: [if (beam) beam->layout1(); else if (a1) ...]. *)
Definition finish (s : BState) : list (list CR) := close (beam s) (beams s).

End Machine.

(** [createBeams]: the candidate is replaced on [BEGIN], on a change of
    segment type, or when there is a gap after it. *)
Definition restart_measure (x cr : CR) (bm : BeamMode) : bool :=
  mode_eqb bm BEGIN || negb (Nat.eqb (segType x) (segType cr)) || (tick x + actualTicks x <? tick cr).

(** [if (cr->durationType().hooks() > 0 && cr->crossMeasure() == SECOND) bm = NONE]. *)
Definition effective_mode (cr : CR) : BeamMode :=
  if (0 <? hooks cr)%nat && crossSecond cr then NONE else endBeam cr.

Definition createBeams_step (s : BState) (cr : CR) : BState :=
  beam_step restart_measure s cr (effective_mode cr).

(** [Score::createBeams] for one track of a measure: the beams formed
    from its chords and rests in segment order. *)
Definition createBeams_track (crs : list CR) : list (list CR) :=
  finish (fold_left createBeams_step crs init).

(** What [createBeams] reads of a staff: [show()] and whether it is a
    tablature staff without stems ([isTabStaff() &&
    staffType()->slashStyle()]). *)
Record StaffB := mkStaffB { st_show : bool; tabSlash : bool }.

(** [Score::createBeams(measure)] (lines 2573-2583): the beams of each
    track, [staffOf] giving the staff of [track2staff(track)]; a track of
    a hidden staff or of a tablature staff without stems gets none. *)
Definition createBeams (staffOf : nat -> StaffB) (tracks : list (list CR)) : list (list (list CR)) :=
  map (fun '(k, crs) => let stf := staffOf (k / 4)%nat in
                        if st_show stf && negb (tabSlash stf) then createBeams_track crs else [])
      (combine (seq 0 (length tracks)) tracks).

(** [beamGraceNotes]: only [BEGIN] replaces the candidate. *)
Definition restart_grace (x cr : CR) (bm : BeamMode) : bool := mode_eqb bm BEGIN.

Definition beamGraceNotes (graces : list CR) : list (list CR) :=
  finish (fold_left (fun s cr => beam_step restart_grace s cr (endBeam cr)) graces init).

(** ** Invariants of the machine, by induction on its runs *)

Definition short (cr : CR) : Prop := quarter_or_longer (durType cr) = false.

Section Invariants.

Variable restart : CR -> CR -> BeamMode -> bool.

(** The states the machine reaches from [init]. *)
Inductive reachable : BState -> Prop :=
| reach_init : reachable init
| reach_step s cr bm : reachable s -> reachable (beam_step restart s cr bm).

(** Every beam, closed or open, has two members at least, none of them a
    quarter or longer; while a beam is open there is no candidate; a
    candidate is always shorter than a quarter. *)
Definition beam_inv (s : BState) : Prop :=
  Forall (fun b => (2 <= length b)%nat /\ Forall short b) (beams s) /\
  (forall b, beam s = Some b -> (2 <= length b)%nat /\ Forall short b /\ a1 s = None) /\
  (forall x, a1 s = Some x -> short x).

Lemma close_inv b done :
  Forall (fun b => (2 <= length b)%nat /\ Forall short b) done ->
  (forall l, b = Some l -> (2 <= length l)%nat /\ Forall short l) ->
  Forall (fun b => (2 <= length b)%nat /\ Forall short b) (close b done).
Proof.
  intros Hd Hb. destruct b as [l|]; simpl; [|exact Hd].
  apply Forall_app; split; [exact Hd|]. constructor; [apply Hb; reflexivity | constructor].
Qed.

Lemma beam_step_inv s cr bm : beam_inv s -> beam_inv (beam_step restart s cr bm).
Proof.
  intros (Hd & Hb & Ha). unfold beam_step.
  destruct (quarter_or_longer (durType cr)) eqn:Eq; simpl.
  { split; [|split; [discriminate|discriminate]].
    apply close_inv; [exact Hd|]. intros l Hl. destruct (Hb l Hl) as (H1 & H2 & _). auto. }
  destruct (mode_eqb bm NONE); simpl.
  { split; [|split; [discriminate|discriminate]].
    apply close_inv; [exact Hd|]. intros l Hl. destruct (Hb l Hl) as (H1 & H2 & _). auto. }
  assert (Hcr : short cr) by exact Eq.
  destruct (beam s) as [l|] eqn:Ebs.
  - destruct (Hb l eq_refl) as (Hl & Hls & Ha1).
    destruct (mode_eqb bm BEGIN); [|destruct (mode_eqb bm END)]; simpl; rewrite ?Ha1.
    + split; [apply Forall_app; split; [exact Hd | constructor; auto]|].
      split; [discriminate|]. intros x [=<-]. exact Hcr.
    + split; [apply Forall_app; split; [exact Hd|]|split; [discriminate|intros x Hx; discriminate]].
      constructor; [|constructor]. split; [rewrite length_app; lia | apply Forall_app; auto].
    + split; [exact Hd|]. split; [|intros x Hx; discriminate].
      intros b [=<-]. split; [rewrite length_app; lia|]. split; [apply Forall_app; auto | reflexivity].
  - simpl. destruct (a1 s) as [x|] eqn:Ea.
    + destruct (negb (beamModeMid bm) && restart x cr bm); simpl.
      * split; [exact Hd|]. split; [discriminate|]. intros y [=<-]. exact Hcr.
      * split; [exact Hd|]. split; [|discriminate].
        intros b [=<-]. split; [simpl; lia|]. split; [|reflexivity].
        constructor; [apply Ha; reflexivity | constructor; [exact Hcr | constructor]].
    + split; [exact Hd|]. split; [discriminate|]. intros y [=<-]. exact Hcr.
Qed.

Lemma reachable_inv s : reachable s -> beam_inv s.
Proof.
  induction 1 as [|s cr bm Hr IH].
  - repeat split; try constructor; discriminate.
  - apply beam_step_inv, IH.
Qed.

Lemma finish_inv s :
  beam_inv s -> Forall (fun b => (2 <= length b)%nat /\ Forall short b) (finish s).
Proof.
  intros (Hd & Hb & _). unfold finish. apply close_inv; [exact Hd|].
  intros l Hl. destruct (Hb l Hl) as (H1 & H2 & _). auto.
Qed.

Lemma fold_reachable (f : CR -> BeamMode) crs : forall s,
  reachable s -> reachable (fold_left (fun s cr => beam_step restart s cr (f cr)) crs s).
Proof.
  induction crs as [|cr crs IH]; intros s Hs; simpl; [exact Hs|].
  apply IH. constructor. exact Hs.
Qed.

End Invariants.

(** The beams of a track are well formed (the invariant at the end of
    the fold). *)
Lemma createBeams_wf crs :
  Forall (fun b => (2 <= length b)%nat /\ Forall short b) (createBeams_track crs).
Proof.
  apply finish_inv, (reachable_inv restart_measure).
  apply (fold_reachable restart_measure effective_mode), reach_init.
Qed.

(** Every beam [createBeams] forms for a track has at least two
    members, and none of them is a quarter note or longer. *)
Theorem createBeams_well_formed crs :
  Forall (fun b => (2 <= length b)%nat /\ Forall short b) (createBeams_track crs).
Proof. exact (createBeams_wf crs). Qed.

(** The same for the beams of the grace notes of a chord. *)
Lemma beamGraceNotes_well_formed graces :
  Forall (fun b => (2 <= length b)%nat /\ Forall short b) (beamGraceNotes graces).
Proof.
  apply finish_inv, (reachable_inv restart_grace).
  apply (fold_reachable restart_grace endBeam), reach_init.
Qed.

(** ** The beams are consecutive groups of the input *)

(** The elements not yet settled: the open beam, or the candidate. *)
Definition pending (s : BState) : list CR :=
  match beam s with
  | Some b => b
  | None => match a1 s with Some x => [x] | None => [] end
  end.

Definition long_enough (c : list CR) : bool := (2 <=? length c)%nat.

(** After the prefix [P], the input splits into settled groups followed by
    the pending elements, and the closed beams are the settled groups of
    two or more. *)
Definition chunked (P : list CR) (s : BState) : Prop :=
  exists chunks, Forall (fun c => c <> []) chunks /\ concat chunks ++ pending s = P /\
    beams s = filter long_enough chunks /\
    (forall b, beam s = Some b -> (2 <= length b)%nat /\ a1 s = None).

(** Settling the pending elements as one more group. *)
Definition settle (chunks : list (list CR)) (p : list CR) : list (list CR) :=
  match p with [] => chunks | _ => chunks ++ [p] end.

Lemma settle_concat chunks p : concat (settle chunks p) = concat chunks ++ p.
Proof. destruct p; simpl; [now rewrite app_nil_r | now rewrite concat_app; simpl; rewrite app_nil_r]. Qed.

Lemma settle_nonempty chunks p :
  Forall (fun c => c <> []) chunks -> Forall (fun c => c <> []) (settle chunks p).
Proof. intros H. destruct p; simpl; [exact H | apply Forall_app; split; [exact H | constructor; [discriminate | constructor]]]. Qed.

Lemma filter_settle chunks p :
  filter long_enough (settle chunks p) =
  filter long_enough chunks ++ (if long_enough p then [p] else []).
Proof.
  destruct p as [|x p]; simpl; [now rewrite app_nil_r|].
  rewrite filter_app. simpl. destruct (long_enough (x :: p)); reflexivity.
Qed.

Section Chunks.

Variable restart : CR -> CR -> BeamMode -> bool.

Lemma beam_step_chunked P s cr bm : chunked P s -> chunked (P ++ [cr]) (beam_step restart s cr bm).
Proof.
  intros (chunks & Hne & Hcat & Hbeams & Hopen). unfold beam_step.
  assert (Hclose : close (beam s) (beams s) = filter long_enough (settle chunks (pending s))).
  { rewrite filter_settle, Hbeams. unfold pending, close.
    destruct (beam s) as [b|] eqn:Eb.
    - destruct (Hopen b eq_refl) as [Hl _]. unfold long_enough.
      destruct (Nat.leb_spec 2 (length b)); [reflexivity | lia].
    - destruct (a1 s); simpl; now rewrite ?app_nil_r. }
  destruct (quarter_or_longer (durType cr) || mode_eqb bm NONE).
  { exists (settle chunks (pending s) ++ [[cr]]). unfold pending at 2; simpl.
    split; [apply Forall_app; split; [now apply settle_nonempty | constructor; [discriminate | constructor]]|].
    split; [rewrite concat_app, settle_concat; simpl; rewrite <- Hcat; now rewrite !app_nil_r|].
    split; [rewrite filter_app, <- Hclose; simpl; now rewrite app_nil_r | discriminate]. }
  destruct (beam s) as [l|] eqn:Eb.
  - destruct (Hopen l eq_refl) as [Hl Ha1]. unfold pending in Hcat; rewrite Eb in Hcat.
    destruct (mode_eqb bm BEGIN); [|destruct (mode_eqb bm END)]; simpl; rewrite ?Ha1.
    + exists (chunks ++ [l]). unfold pending; simpl.
      split; [apply Forall_app; split; [exact Hne | constructor; [destruct l; simpl in Hl; [lia | discriminate] | constructor]]|].
      split; [rewrite concat_app; simpl; rewrite app_nil_r, <- Hcat; reflexivity|].
      split; [rewrite filter_app, Hbeams; simpl; unfold long_enough; destruct (Nat.leb_spec 2 (length l)); [reflexivity | lia] | discriminate].
    + exists (chunks ++ [l ++ [cr]]). unfold pending; simpl.
      split; [apply Forall_app; split; [exact Hne | constructor; [destruct l; discriminate | constructor]]|].
      split; [rewrite concat_app; simpl; rewrite !app_nil_r, <- Hcat, app_assoc; reflexivity|].
      split; [rewrite filter_app, Hbeams; simpl; unfold long_enough; rewrite length_app;
              destruct (Nat.leb_spec 2 (length l + length [cr])); [reflexivity | simpl in *; lia] | discriminate].
    + exists chunks. unfold pending; simpl.
      split; [exact Hne|]. split; [rewrite app_assoc, Hcat; reflexivity|].
      split; [exact Hbeams|]. intros b [=<-]. rewrite length_app. split; [lia | reflexivity].
  - simpl. unfold pending in Hcat; rewrite Eb in Hcat.
    destruct (a1 s) as [x|] eqn:Ea.
    + destruct (negb (beamModeMid bm) && restart x cr bm); simpl.
      * exists (chunks ++ [[x]]). unfold pending; simpl.
        split; [apply Forall_app; split; [exact Hne | constructor; [discriminate | constructor]]|].
        split; [rewrite concat_app; simpl; rewrite <- Hcat; rewrite <- app_assoc; reflexivity|].
        split; [rewrite filter_app, Hbeams; simpl; now rewrite app_nil_r | discriminate].
      * exists chunks. unfold pending; simpl.
        split; [exact Hne|]. split; [rewrite <- Hcat, <- app_assoc; reflexivity|].
        split; [exact Hbeams|]. intros b [=<-]. simpl. split; [lia | reflexivity].
    + exists chunks. unfold pending; simpl.
      split; [exact Hne|]. split; [rewrite <- Hcat, app_nil_r; reflexivity|].
      split; [exact Hbeams | discriminate].
Qed.

Lemma fold_chunked (f : CR -> BeamMode) crs : forall P s,
  chunked P s -> chunked (P ++ crs) (fold_left (fun s cr => beam_step restart s cr (f cr)) crs s).
Proof.
  induction crs as [|cr crs IH]; intros P s H; simpl; [now rewrite app_nil_r|].
  replace (P ++ cr :: crs) with ((P ++ [cr]) ++ crs) by (rewrite <- app_assoc; reflexivity).
  apply IH, beam_step_chunked, H.
Qed.

Lemma finish_chunked P s :
  chunked P s -> exists chunks, Forall (fun c => c <> []) chunks /\ concat chunks = P /\
                   finish s = filter long_enough chunks.
Proof.
  intros (chunks & Hne & Hcat & Hbeams & Hopen).
  exists (settle chunks (pending s)). split; [now apply settle_nonempty|].
  split; [now rewrite settle_concat|].
  rewrite filter_settle, <- Hbeams. unfold finish, close, pending.
  destruct (beam s) as [b|] eqn:Eb.
  - destruct (Hopen b eq_refl) as [Hl _]. unfold long_enough.
    destruct (Nat.leb_spec 2 (length b)); [reflexivity | lia].
  - destruct (a1 s); simpl; now rewrite app_nil_r.
Qed.

End Chunks.

(** The chunks of a track after the fold (the invariant of
    [fold_chunked] at its end). *)
Lemma createBeams_chunks crs :
  exists chunks, Forall (fun c => c <> []) chunks /\ concat chunks = crs /\
    createBeams_track crs = filter long_enough chunks.
Proof.
  apply finish_chunked.
  change crs with ([] ++ crs). apply (fold_chunked restart_measure effective_mode).
  exists []. repeat split; try constructor. discriminate.
Qed.

(** C29. Beams are runs of consecutive elements: the chords and rests of
    a track split into consecutive non-empty groups, in order and
    covering them all, and the beams [createBeams] forms are exactly the
    groups of two or more (so no element is in two beams and every beam
    is contiguous in the track). *)
Theorem createBeams_partition crs :
  exists chunks, Forall (fun c => c <> []) chunks /\ concat chunks = crs /\
    createBeams_track crs = filter long_enough chunks.
Proof. exact (createBeams_chunks crs). Qed.

(** ** [BEGIN] starts a beam *)

Section Begin.

Variable restart : CR -> CR -> BeamMode -> bool.
Hypothesis restart_begin : forall x cr, restart x cr BEGIN = true.
Variable f : CR -> BeamMode.

Definition no_begin_inside (b : list CR) : Prop := Forall (fun x => f x <> BEGIN) (tl b).

Definition begin_inv (s : BState) : Prop :=
  Forall no_begin_inside (beams s) /\ (forall b, beam s = Some b -> b <> [] /\ no_begin_inside b).

Lemma no_begin_snoc b x : b <> [] -> no_begin_inside b -> f x <> BEGIN -> no_begin_inside (b ++ [x]).
Proof.
  unfold no_begin_inside. destruct b as [|y b]; [congruence|]. simpl.
  intros _ H Hx. apply Forall_app. split; [exact H | constructor; [exact Hx | constructor]].
Qed.

Lemma begin_step s cr : begin_inv s -> begin_inv (beam_step restart s cr (f cr)).
Proof.
  intros [Hd Hb]. unfold beam_step.
  assert (Hcl : Forall no_begin_inside (close (beam s) (beams s))).
  { unfold close. destruct (beam s) as [l|]; [|exact Hd].
    apply Forall_app; split; [exact Hd | constructor; [apply (Hb l eq_refl) | constructor]]. }
  destruct (quarter_or_longer (durType cr) || mode_eqb (f cr) NONE); [split; [exact Hcl | (intros ? ?; discriminate)]|].
  destruct (mode_eqb (f cr) BEGIN) eqn:EB.
  - assert (Hf : f cr = BEGIN) by (destruct (f cr); try discriminate; reflexivity).
    destruct (beam s) as [l|] eqn:Eb; destruct (a1 s) as [x|]; simpl; rewrite ?Hf, ?restart_begin; simpl;
      (split; [first [exact Hd | apply Forall_app; split; [exact Hd | constructor; [apply (Hb l eq_refl) | constructor]]]
              | intros ? ?; discriminate]).
  - assert (Hnb : f cr <> BEGIN) by (intros E; rewrite E in EB; discriminate).
    destruct (beam s) as [l|] eqn:Eb; simpl.
    + destruct (Hb l eq_refl) as [Hl Hi]. destruct (mode_eqb (f cr) END); simpl.
      * split; [|(intros ? ?; discriminate)]. apply Forall_app; split; [exact Hd|].
        constructor; [apply no_begin_snoc; auto | constructor].
      * split; [exact Hd|]. intros b [=<-]. split; [destruct l; discriminate | apply no_begin_snoc; auto].
    + destruct (a1 s) as [x|]; [destruct (negb (beamModeMid (f cr)) && restart x cr (f cr))|]; simpl.
      * split; [exact Hd | (intros ? ?; discriminate)].
      * split; [exact Hd|]. intros b [=<-]. split; [discriminate|]. constructor; [exact Hnb | constructor].
      * split; [exact Hd | (intros ? ?; discriminate)].
Qed.

Lemma begin_fold crs : forall s,
  begin_inv s -> begin_inv (fold_left (fun s cr => beam_step restart s cr (f cr)) crs s).
Proof. induction crs; intros s H; simpl; [exact H | apply IHcrs, begin_step, H]. Qed.

Lemma begin_finish s : begin_inv s -> Forall no_begin_inside (finish s).
Proof.
  intros [Hd Hb]. unfold finish, close. destruct (beam s) as [l|]; [|exact Hd].
  apply Forall_app; split; [exact Hd | constructor; [apply (Hb l eq_refl) | constructor]].
Qed.

End Begin.

Lemma restart_measure_begin x cr : restart_measure x cr BEGIN = true.
Proof. reflexivity. Qed.

(** A [BEGIN] element starts its beam: in every beam [createBeams]
    forms, no element after the first has the effective mode [BEGIN]. *)
Theorem createBeams_begin_first crs :
  Forall (fun b => Forall (fun x => effective_mode x <> BEGIN) (tl b)) (createBeams_track crs).
Proof.
  apply (begin_finish effective_mode).
  apply (begin_fold restart_measure restart_measure_begin effective_mode).
  split; [constructor | discriminate].
Qed.

(** Quarter notes are never beamed: a track whose chords and rests
    are all quarters or longer gets no beam, whatever the beam modes. *)
Theorem createBeams_no_long crs :
  Forall (fun cr => quarter_or_longer (durType cr) = true) crs -> createBeams_track crs = [].
Proof.
  intros Hlong. destruct (createBeams_chunks crs) as (chunks & Hne & Hcat & Hb). subst crs.
  pose proof (createBeams_wf (concat chunks)) as Hwf.
  destruct (createBeams_track (concat chunks)) as [|b bs] eqn:E; [reflexivity|].
  exfalso. inversion Hwf as [|? ? [Hlen Hshort] _]; subst.
  destruct b as [|x b]; [simpl in Hlen; lia|].
  inversion Hshort as [|? ? Hx _]; subst.
  assert (Hin : In (x :: b) chunks).
  { assert (In (x :: b) (filter long_enough chunks)) by (rewrite <- Hb; left; reflexivity).
    apply filter_In in H. tauto. }
  assert (In x (concat chunks)).
  { apply in_concat. exists (x :: b). split; [exact Hin | left; reflexivity]. }
  rewrite Forall_forall in Hlong. specialize (Hlong x H). unfold short in Hx. congruence.
Qed.

(** [END] is honoured only inside an open beam: an [END] on the
    element that opens a beam (the second one) is ignored and the beam
    goes on, while an [END] on a later element closes the beam. *)
Theorem createBeams_end_asymmetry x y z w :
  Forall short [x; y; z; w] -> effective_mode x = AUTO -> effective_mode w = AUTO ->
  segType x = segType y -> (tick y <= tick x + actualTicks x)%Z ->
  (effective_mode y = END -> effective_mode z = AUTO -> createBeams_track [x; y; z; w] = [[x; y; z; w]]) /\
  (effective_mode y = AUTO -> effective_mode z = END -> createBeams_track [x; y; z; w] = [[x; y; z]]).
Proof.
  intros Hs Hx Hw Hseg Htick.
  inversion Hs as [|? ? Sx Hs1]; inversion Hs1 as [|? ? Sy Hs2];
    inversion Hs2 as [|? ? Sz Hs3]; inversion Hs3 as [|? ? Sw _]; subst.
  unfold short in Sx, Sy, Sz, Sw.
  assert (Hr : forall m, m <> BEGIN -> restart_measure x y m = false).
  { intros m Hm. unfold restart_measure. rewrite Hseg, Nat.eqb_refl, (proj2 (Z.ltb_ge _ _) Htick).
    destruct m; try reflexivity; congruence. }
  split; intros Hy Hz; unfold createBeams_track; cbn [fold_left]; unfold createBeams_step;
    rewrite Hx, Hy, Hz, Hw; unfold beam_step; rewrite Sx, Sy, Sz, Sw; simpl; rewrite Hr by discriminate; reflexivity.
Qed.

(** ** An open beam takes every short [AUTO] element *)

Lemma beam_open_auto restart rest : forall l done,
  Forall (fun cr => short cr /\ effective_mode cr = AUTO) rest ->
  fold_left (fun s cr => beam_step restart s cr (effective_mode cr)) rest (mkBState None (Some l) done)
  = mkBState None (Some (l ++ rest)) done.
Proof.
  induction rest as [|cr rest IH]; intros l done H; simpl; [rewrite app_nil_r; reflexivity|].
  inversion H as [|? ? [Hs Hm] Hr]; subst. unfold short in Hs.
  unfold beam_step at 2. rewrite Hm, Hs. simpl. rewrite IH by exact Hr. rewrite <- app_assoc. reflexivity.
Qed.

(** Once a beam is open, only the beam modes and note values close
    it: two short [AUTO] elements that start a beam (same segment type,
    no gap between them) carry every following short [AUTO] element of
    the track into the same beam, whatever its segment type and however
    far its tick lies after the previous element's end. *)
Theorem createBeams_auto_run x y rest :
  Forall (fun cr => short cr /\ effective_mode cr = AUTO) (x :: y :: rest) ->
  segType x = segType y -> (tick y <= tick x + actualTicks x)%Z ->
  createBeams_track (x :: y :: rest) = [x :: y :: rest].
Proof.
  intros H Hseg Htick.
  inversion H as [|? ? [Sx Mx] Ha]; inversion Ha as [|? ? [Sy My] Hb]; subst. unfold short in Sx, Sy.
  unfold createBeams_track, createBeams_step. simpl fold_left.
  unfold beam_step at 2 3. rewrite Mx, My, Sx, Sy. simpl.
  assert (Hr : restart_measure x y AUTO = false).
  { unfold restart_measure. rewrite Hseg, Nat.eqb_refl, (proj2 (Z.ltb_ge _ _) Htick). reflexivity. }
  rewrite Hr. simpl. rewrite (beam_open_auto restart_measure rest [x; y] [] Hb). reflexivity.
Qed.

End Beams.

Import Beams.

(** Four eighths of a 4/4 measure, one per eighth (tick 240 apart), all
    with [AUTO] as [Groups::endBeam]'s answer. *)
Definition wit_eighth (i : nat) (bm : BeamMode) : CR :=
  mkCR i V_EIGHTH 1 false 1 (240 * Z.of_nat i) 240 bm.

Definition wit_quarter (i : nat) : CR := mkCR i V_QUARTER 0 false 1 (480 * Z.of_nat i) 480 AUTO.

Lemma createBeams_no_long_witness :
  Forall (fun cr => quarter_or_longer (durType cr) = true) (map wit_quarter [0; 1; 2; 3]%nat) /\
  createBeams_track (map wit_quarter [0; 1; 2; 3]%nat) = [].
Proof.
  assert (H : Forall (fun cr => quarter_or_longer (durType cr) = true) (map wit_quarter [0; 1; 2; 3]%nat))
    by (repeat constructor).
  split; [exact H | exact (createBeams_no_long _ H)].
Defined.

Lemma createBeams_end_asymmetry_witness :
  createBeams_track [wit_eighth 0 AUTO; wit_eighth 1 END; wit_eighth 2 AUTO; wit_eighth 3 AUTO]
    = [[wit_eighth 0 AUTO; wit_eighth 1 END; wit_eighth 2 AUTO; wit_eighth 3 AUTO]] /\
  createBeams_track [wit_eighth 0 AUTO; wit_eighth 1 AUTO; wit_eighth 2 END; wit_eighth 3 AUTO]
    = [[wit_eighth 0 AUTO; wit_eighth 1 AUTO; wit_eighth 2 END]].
Proof.
  split.
  - refine (proj1 (createBeams_end_asymmetry (wit_eighth 0 AUTO) (wit_eighth 1 END) (wit_eighth 2 AUTO)
      (wit_eighth 3 AUTO) _ eq_refl eq_refl eq_refl _) eq_refl eq_refl);
      [repeat constructor | vm_compute; discriminate].
  - refine (proj2 (createBeams_end_asymmetry (wit_eighth 0 AUTO) (wit_eighth 1 AUTO) (wit_eighth 2 END)
      (wit_eighth 3 AUTO) _ eq_refl eq_refl eq_refl _) eq_refl eq_refl);
      [repeat constructor | vm_compute; discriminate].
Defined.

Lemma createBeams_auto_run_witness :
  createBeams_track [wit_eighth 0 AUTO; wit_eighth 1 AUTO; mkCR 7 V_16TH 2 false 2 5000 120 AUTO]
    = [[wit_eighth 0 AUTO; wit_eighth 1 AUTO; mkCR 7 V_16TH 2 false 2 5000 120 AUTO]].
Proof.
  apply createBeams_auto_run; [repeat constructor | reflexivity | vm_compute; discriminate].
Defined.
