(* ===== verification/SystemLayout.v ===== *)
(** * Packing measures into a system ([Score::collectSystem])

    [collectSystem] (layout.cpp 3143-3446) pulls measures and boxes from
    the layout stream into a new system until one does not fit, a break
    or a box ends the row, or the stream is exhausted; it then shares
    the leftover width among the measures in proportion to
    [ticks * max(userStretch, 1)].  The stream is the list of
    [MeasureBase]s that [getNextMeasure] hands out; what the loop reads
    of a measure (the widths [computeMinWidth], [createEndBarLines] and
    [cautionaryWidth] return, its stretch, ticks and breaks) is part of
    the input.  The style values the function reads are a [Style]
    record; the range-layout stop ([lc.rangeLayout && lc.endTick <
    tick && curMeasure == systemOldMeasure]) is a predicate on items.
    Courtesy time and key signatures, [hideEmptyStaves] and the
    annotation layout that follow the stretch are not modelled. *)

From Stdlib Require Import QArith Qminmax Lqa List Lia Bool Setoid Morphisms PeanoNat.
From S2P Require Import Prelude.
Import ListNotations.
Open Scope Q_scope.
Open Scope layout_scope.

Module SystemLayout.

(** What [collectSystem] reads of a [Measure]. *)
Record Meas := mkMeas {
  minWidthFirst : Q;      (** [computeMinWidth(m->first(), true)] after [addSystemHeader] *)
  hasSystemHeader : bool;
  minWidth1 : Q;          (** [m->minWidth1()] *)
  minWidthPlain : Q;      (** [computeMinWidth(m->first(), false)] *)
  endBarLinesTrue : Q;    (** [m->createEndBarLines(true)] *)
  endBarLinesFalse : Q;   (** [m->createEndBarLines(false)] *)
  userStretch : Q;
  cautionary : Q;         (** [cautionaryWidth(m, hasCourtesy)] *)
  hasCourtesy : bool;
  mticks : Q }.

(** The variants of [MeasureBase] in the layout stream. *)
Inductive Kind := KMeasure (m : Meas) | KHBox (boxWidth : Q) | KVBox | KTBox | KFBox.

Record MB := mkMB { kind : Kind; pageBreak : bool; lineBreak : bool; sectionBreak : bool }.

(** The style and page values [collectSystem] reads. *)
Record Style := mkStyle {
  minMeasureWidth : Q; measureSpacing : Q; systemWidth : Q; leftMargin : Q;
  lastSystemFillLimit : Q; noHorizontalStretch : bool; layoutMode : LayoutMode }.

Definition is_line (md : LayoutMode) : bool := match md with LINE => true | _ => false end.

(** [if (stretch < 1.0) stretch = 1.0] *)
Definition clamp1 (x : Q) : Q := qMax x 1.

(** A collected item with the width [setWidth] gave it (for a measure)
    or its box width (for an [HBox]). *)
Definition Item : Type := (MB * Q)%type.

(** The loop's locals: the system's items so far, [minWidth],
    [firstMeasure], and [lc.prevMeasure] when it is a measure of this
    system. *)
Record CState := mkCState { sys : list Item; minW : Q; firstMeasure : bool; prevM : option Meas }.

(** How the loop ended. *)
Record Collected := mkCollected {
  items : list Item;         (** [system->measures()] with their widths *)
  remaining : list MB;       (** the stream from [lc.curMeasure] on *)
  accW : Q;                  (** [minWidth] after the loop *)
  rangeDone : bool }.

Section Collect.

Variable sty : Style.
Variable range_stop : MB -> bool.

Definition stretch_of (m : Meas) : Q := clamp1 (userStretch m * measureSpacing sty).

(** Width computed for a measure: [(ww, cautionaryW, m->width())]. *)
Definition measure_ww (first : bool) (m : Meas) : Q * Q * Q :=
  let base := if first then minWidthFirst m
              else if hasSystemHeader m then minWidth1 m else minWidthPlain m in
  let w := qMax ((base + endBarLinesTrue m) * stretch_of m) (minMeasureWidth sty) in
  let caut := cautionary m * stretch_of m in
  (if hasCourtesy m then w else w + caut, caut, w).

(** [(ww, cautionaryW, width, firstMeasure)] for any item. *)
Definition item_ww (first : bool) (mb : MB) : Q * Q * Q * bool :=
  match kind mb with
  | KMeasure m => let '(ww, caut, w) := measure_ww first m in (ww, caut, w, false)
  | KHBox bw => (bw, 0, bw, first)
  | _ => (0, 0, 0, first)
  end.

Definition pbreak_of (mb : MB) : bool :=
  match layoutMode sty with
  | PAGE | SYSTEM =>
      pageBreak mb || lineBreak mb || sectionBreak mb
      || match kind mb with KVBox | KTBox => true | _ => false end
  | _ => false
  end.

Definition is_box (mb : MB) : bool :=
  match kind mb with KVBox | KTBox | KFBox => true | _ => false end.

(** [nt == VBOX || nt == TBOX || nt == FBOX] for the next item. *)
Definition next_is_box (rest : list MB) : bool :=
  match rest with mb :: _ => is_box mb | [] => false end.

Definition prev_of (mb : MB) : option Meas :=
  match kind mb with KMeasure m => Some m | _ => None end.

(** The measure-collecting loop, one iteration per stream item. *)
Fixpoint collect (s : CState) (stream : list MB) : Collected :=
  match stream with
  | [] => mkCollected (sys s) [] (minW s) false
  | mb :: rest =>
      let '(ww, caut, w, first') := item_ww (firstMeasure s) mb in
      let sys' := sys s ++ [(mb, w)] in
      if negb (is_line (layoutMode sty)) && Nat.ltb 1 (length sys')
         && (systemWidth sty <?q minW s + ww)
      then mkCollected (sys s) stream (minW s) false
      else
        let ww2 := match prevM s with
                   | Some pm => ww + endBarLinesFalse pm * stretch_of pm
                   | None => ww end in
        if range_stop mb then mkCollected sys' stream (minW s) true
        else
          let mw := minW s + ww2 in
          if negb (is_line (layoutMode sty))
             && (pbreak_of mb || next_is_box rest || (systemWidth sty <?q mw + minMeasureWidth sty))
          then mkCollected sys' rest mw false
          else collect (mkCState sys' (mw - caut) first' (prev_of mb)) rest
  end.

Definition collect_start : CState := mkCState [] (leftMargin sty) true None.

(** The collecting half of [collectSystem]: [None] when
    [lc.curMeasure] is null on entry. *)
Definition collectMeasures (stream : list MB) : option Collected :=
  match stream with [] => None | _ => Some (collect collect_start stream) end.

(** ** The stretch pass *)

(** [minWidth += point(boxWidth)] / [m->width()] in the second pass. *)
Definition item_min (it : Item) : Q :=
  match kind (fst it) with KMeasure _ => snd it | KHBox bw => bw | _ => 0 end.

(** [m->ticks() * stretch] with [stretch = max(userStretch, 1)]. *)
Definition weight (it : Item) : Q :=
  match kind (fst it) with KMeasure m => mticks m * clamp1 (userStretch m) | _ => 0 end.

Definition total_min (its : list Item) : Q := leftMargin sty + qsum (map item_min its).
Definition total_weight (its : list Item) : Q := qsum (map weight its).

(** [raggedRight]: [MScore::noHorizontalStretch], or the stream is
    exhausted and the loop's [minWidth / systemWidth] is at most
    [lastSystemFillLimit]. *)
Definition raggedRight (c : Collected) : bool :=
  noHorizontalStretch sty
  || (match remaining c with [] => true | _ => false end
      && (accW c / systemWidth sty <=?q lastSystemFillLimit sty)).

(** [rest], already divided by [totalWeight]. *)
Definition stretch_rest (its : list Item) (ragged : bool) : Q :=
  if is_line (layoutMode sty) || noHorizontalStretch sty then 0
  else
    let mw := total_min its in
    let r := systemWidth sty - mw in
    let r' := if ragged then (if r <?q mw then r * (1#2) else mw) else r in
    r' / total_weight its.

(** The placing loop: each item's position ([None] when the code sets
    none) and final width, and the final [pos.x()]. *)
Fixpoint place_items (rest x : Q) (its : list Item) : list (option Q * Q) * Q :=
  match its with
  | [] => ([], x)
  | (mb, w) :: tl =>
      let pw := match kind mb with
                | KMeasure m =>
                    (Some x, if is_line (layoutMode sty) then w
                             else w + rest * mticks m * clamp1 (userStretch m))
                | KHBox bw => (Some x, bw)
                | KVBox => (Some x, 0)
                | _ => (None, 0)
                end in
      let '(l, xe) := place_items rest (x + snd pw) tl in (pw :: l, xe)
  end.

(** [Score::collectSystem] as far as the measures' geometry goes: the
    collected items, their positions and final widths, and the system
    width ([systemWidth], or the final [pos.x()] in line mode). *)
Record SystemResult := mkSystemResult {
  collected : Collected; placed : list (option Q * Q); sysWidth : Q }.

Definition collectSystem (stream : list MB) : option SystemResult :=
  match collectMeasures stream with
  | None => None
  | Some c =>
      let its := items c in
      let '(pl, xe) := place_items (stretch_rest its (raggedRight c)) (leftMargin sty) its in
      Some (mkSystemResult c pl (if is_line (layoutMode sty) then xe else systemWidth sty))
  end.

(** ** The collecting loop *)

Ltac collect_cases :=
  repeat match goal with
  | |- context [if ?b then _ else _] =>
      lazymatch b with
      | rangeDone _ => fail
      | _ => let E := fresh "E" in destruct b eqn:E
      end
  end.

(** What [collect] consumed: the items it adds after [sys s] are the
    stream's first items, up to [remaining] (which on a range stop
    still starts with the last item collected). *)
Lemma collect_extends stream : forall s,
  let c := collect s stream in
  exists extra, items c = sys s ++ extra /\
    map fst extra ++ (if rangeDone c then tl (remaining c) else remaining c) = stream.
Proof.
  induction stream as [|mb rest IH]; intros s; simpl.
  - exists []. rewrite app_nil_r. split; reflexivity.
  - destruct (item_ww (firstMeasure s) mb) as [[[ww caut] w] f']. collect_cases; simpl;
      try (exists []; rewrite app_nil_r; split; reflexivity);
      try (exists [(mb, w)]; split; reflexivity).
    match goal with |- context [collect ?s' rest] => destruct (IH s') as (extra & H1 & H2) end.
    exists ((mb, w) :: extra). simpl in H1. rewrite H1, <- app_assoc. split; [reflexivity|]. simpl. f_equal. exact H2.
Qed.

Lemma collect_first s mb rest :
  sys s = [] -> items (collect s (mb :: rest)) <> [].
Proof.
  intros E0. simpl. destruct (item_ww (firstMeasure s) mb) as [[[ww caut] w] f']. rewrite E0. simpl.
  collect_cases; simpl; try discriminate.
  - rewrite andb_false_r, andb_false_l in E. discriminate.
  - match goal with |- context [collect ?s' rest] => destruct (collect_extends rest s') as (extra & H1 & _) end.
  rewrite H1. discriminate.
Qed.

(** C30. Every system takes at least one item, and the items it takes
    are the first items of the stream, in order: the stream is the
    system's items followed by what is left for the next system (the
    item a range stop ends on is in both). *)
Theorem collectMeasures_partition stream :
  stream <> [] ->
  exists c, collectMeasures stream = Some c /\ items c <> [] /\
    map fst (items c) ++ (if rangeDone c then tl (remaining c) else remaining c) = stream.
Proof.
  intros Hne. destruct stream as [|mb rest]; [congruence|].
  exists (collect collect_start (mb :: rest)). split; [reflexivity|].
  split; [apply collect_first; reflexivity|].
  destruct (collect_extends (mb :: rest) collect_start) as (extra & H1 & H2).
  change (sys collect_start) with (@nil Item) in H1. rewrite H1. exact H2.
Qed.

Lemma collect_line stream : forall s,
  is_line (layoutMode sty) = true -> Forall (fun mb => range_stop mb = false) stream ->
  remaining (collect s stream) = [] /\ rangeDone (collect s stream) = false.
Proof.
  induction stream as [|mb rest IH]; intros s Hl Hr; [split; reflexivity|].
  inversion Hr as [|? ? Hmb Hrest]; subst. simpl.
  destruct (item_ww (firstMeasure s) mb) as [[[ww caut] w] f']. rewrite Hl, Hmb. simpl.
  apply IH; assumption.
Qed.

(** In line mode nothing breaks the row: unless the range stop
    fires, one system takes the whole stream. *)
Theorem collectMeasures_line stream :
  is_line (layoutMode sty) = true -> stream <> [] -> Forall (fun mb => range_stop mb = false) stream ->
  exists c, collectMeasures stream = Some c /\ map fst (items c) = stream /\ remaining c = [].
Proof.
  intros Hl Hne Hr. destruct stream as [|mb rest]; [congruence|].
  exists (collect collect_start (mb :: rest)). split; [reflexivity|].
  destruct (collect_line (mb :: rest) collect_start Hl Hr) as [Hrem Hdone].
  destruct (collect_extends (mb :: rest) collect_start) as (extra & H1 & H2).
  rewrite Hdone, Hrem, app_nil_r in H2. change (sys collect_start) with (@nil Item) in H1. rewrite H1. split; [exact H2 | exact Hrem].
Qed.

Definition break_inv (s : CState) (stream : list MB) : Prop :=
  Forall (fun it => pbreak_of (fst it) = false) (sys s)
  /\ Forall (fun it => is_box (fst it) = false) (tl (sys s))
  /\ (sys s <> [] -> next_is_box stream = false).

Lemma break_inv_snoc s mb rest w :
  break_inv s (mb :: rest) ->
  Forall (fun it => pbreak_of (fst it) = false) (removelast (sys s ++ [(mb, w)]))
  /\ Forall (fun it => is_box (fst it) = false) (tl (sys s ++ [(mb, w)])).
Proof.
  intros (H1 & H2 & H3). rewrite removelast_last. split; [exact H1|].
  apply Forall_tl_snoc; [exact H2 | exact H3].
Qed.

Lemma collect_breaks stream : forall s,
  is_line (layoutMode sty) = false -> break_inv s stream ->
  Forall (fun it => pbreak_of (fst it) = false) (removelast (items (collect s stream)))
  /\ Forall (fun it => is_box (fst it) = false) (tl (items (collect s stream))).
Proof.
  induction stream as [|mb rest IH]; intros s Hl Hinv.
  - destruct Hinv as (H1 & H2 & _). split; [apply Forall_removelast, H1 | exact H2].
  - pose proof (break_inv_snoc s mb rest) as Hs. destruct Hinv as (H1 & H2 & H3). simpl.
    destruct (item_ww (firstMeasure s) mb) as [[[ww caut] w] f']. rewrite Hl. simpl.
    collect_cases; simpl;
      try (apply Hs; repeat split; assumption);
      try (split; [apply Forall_removelast, H1 | exact H2]).
    apply IH; [exact Hl|]. apply orb_false_elim in E1 as [E1 E3]. apply orb_false_elim in E1 as [E1 E2].
    destruct (Hs w) as [_ Hb]; [repeat split; assumption|].
    repeat split; [apply Forall_snoc; [exact H1 | exact E1] | exact Hb | intros _; exact E2].
Qed.

(** Outside line mode, a break ends its system and a vertical,
    text or frame box starts one: every item of a system but the last
    has no page, line or section break (nor, in page and system mode,
    is a vertical or text box), and every item but the first is not a
    vertical, text or frame box. *)
Theorem collectMeasures_breaks stream c :
  is_line (layoutMode sty) = false -> collectMeasures stream = Some c ->
  Forall (fun it => pbreak_of (fst it) = false) (removelast (items c))
  /\ Forall (fun it => is_box (fst it) = false) (tl (items c)).
Proof.
  intros Hl Hc. destruct stream as [|mb rest]; [discriminate|].
  replace c with (collect collect_start (mb :: rest)) by (injection Hc; auto).
  apply collect_breaks; [exact Hl|]. repeat split; [constructor | constructor | intros []; reflexivity].
Qed.

(** ** Fit: a system of two or more items is not overfull *)

(** The inputs the fit argument needs: measures whose courtesy
    elements are not already in their width and whose end bar line
    adjustments and courtesy widths are non-negative. *)
Definition meas_ok (mb : MB) : Prop :=
  match kind mb with
  | KMeasure m => hasCourtesy m = false /\ 0 <= cautionary m /\ 0 <= endBarLinesFalse m
  | _ => True
  end.

Definition natural (its : list Item) : Q := leftMargin sty + qsum (map snd its).

Definition fit_inv (s : CState) : Prop :=
  natural (sys s) <= minW s
  /\ ((2 <= length (sys s))%nat -> natural (sys s) <= systemWidth sty)
  /\ (forall pm, prevM s = Some pm -> 0 <= endBarLinesFalse pm).

Lemma stretch_of_ge1 m : 1 <= stretch_of m.
Proof. apply qMax_ge_r. Qed.

Lemma item_ww_fit first mb ww caut w f :
  item_ww first mb = (ww, caut, w, f) -> meas_ok mb ->
  ww == w + caut /\ 0 <= caut /\ (forall pm, prev_of mb = Some pm -> 0 <= endBarLinesFalse pm).
Proof.
  unfold item_ww, prev_of, meas_ok, measure_ww. destruct (kind mb) as [m| bw | | |]; intros E Hok;
    injection E as <- <- <- <-; try (split; [lra | split; [lra | intros ? [=]]]).
  destruct Hok as (Hc & Hca & Hv). rewrite Hc. pose proof (stretch_of_ge1 m).
  split; [reflexivity | split; [apply Qmult_le_0_compat; lra | intros pm [=<-]; exact Hv]].
Qed.

Lemma natural_snoc its mb w : natural (its ++ [(mb, w)]) == natural its + w.
Proof. unfold natural. rewrite map_app, qsum_app. simpl. lra. Qed.

Lemma fit_snoc s mb w ww caut :
  fit_inv s -> ww == w + caut -> 0 <= caut ->
  (Nat.ltb 1 (length (sys s ++ [(mb, w)])) && (systemWidth sty <?q minW s + ww)) = false ->
  (2 <= length (sys s ++ [(mb, w)]))%nat -> natural (sys s ++ [(mb, w)]) <= systemWidth sty.
Proof.
  intros (H1 & _ & _) Hww Hc E Hlen. rewrite (proj2 (Nat.ltb_lt _ _)) in E by lia.
  apply qltb_false in E. rewrite natural_snoc. lra.
Qed.

Lemma collect_fit stream : forall s,
  is_line (layoutMode sty) = false -> Forall meas_ok stream -> fit_inv s ->
  (2 <= length (items (collect s stream)))%nat -> natural (items (collect s stream)) <= systemWidth sty.
Proof.
  induction stream as [|mb rest IH]; intros s Hl Hok Hinv; [apply Hinv|].
  inversion Hok as [|? ? Hmb Hrest]; subst. simpl.
  destruct (item_ww (firstMeasure s) mb) as [[[ww caut] w] f'] eqn:Eiw.
  destruct (item_ww_fit _ _ _ _ _ _ Eiw Hmb) as (Hww & Hc & Hp).
  rewrite Hl. simpl. collect_cases; simpl; try apply Hinv;
    try (apply (fit_snoc s mb w ww caut Hinv Hww Hc E)).
  apply IH; [exact Hl | exact Hrest |]. destruct Hinv as (H1 & H2 & H3). repeat split; simpl.
  - rewrite natural_snoc. destruct (prevM s) as [pm|] eqn:Ep; [|lra].
    assert (0 <= endBarLinesFalse pm * stretch_of pm)
      by (apply Qmult_le_0_compat; [apply (H3 pm eq_refl) | pose proof (stretch_of_ge1 pm); lra]).
    lra.
  - apply (fit_snoc s mb w ww caut); [repeat split; assumption | assumption | assumption | exact E].
  - exact Hp.
Qed.

(** C6. A system never overflows unless it holds a single item: when
    [collectSystem] (outside line mode) collects two or more items
    from measures whose courtesy width is not already in their width and
    whose end bar line and courtesy widths are non-negative, the left
    margin plus the items' widths is at most the system width. *)
Theorem collectMeasures_fit stream c :
  is_line (layoutMode sty) = false -> Forall meas_ok stream -> collectMeasures stream = Some c ->
  (2 <= length (items c))%nat -> natural (items c) <= systemWidth sty.
Proof.
  intros Hl Hok Hc. destruct stream as [|mb rest]; [discriminate|].
  replace c with (collect collect_start (mb :: rest)) by (injection Hc; auto).
  apply collect_fit; [exact Hl | exact Hok |]. repeat split; simpl; [unfold natural; simpl; lra | lia | discriminate].
Qed.

(** ** The stretch: conservation and proportional shares *)

Lemma place_widths rest its : forall x,
  is_line (layoutMode sty) = false ->
  Forall2 (fun p it => snd p == item_min it + rest * weight it) (fst (place_items rest x its)) its
  /\ qsum (map snd (fst (place_items rest x its))) == qsum (map item_min its) + rest * total_weight its.
Proof.
  unfold total_weight. induction its as [|[mb w] tl IH]; intros x Hl; simpl; [split; [constructor | lra]|].
  rewrite Hl. destruct (kind mb) as [m|bw| | |] eqn:K; simpl;
    match goal with |- context [place_items rest ?x' tl] =>
      destruct (IH x' Hl) as [IH1 IH2]; destruct (place_items rest x' tl) as [l xe] end;
    simpl; (split; [constructor; [|exact IH1] | rewrite IH2]);
    unfold item_min, weight; simpl fst; rewrite ?K; simpl; lra.
Qed.

Lemma stretch_share its r :
  ~ total_weight its == 0 -> r / total_weight its * total_weight its == r.
Proof. intros H. unfold Qdiv. rewrite <- Qmult_assoc, (Qmult_comm (/ _)), Qmult_inv_r by exact H. lra. Qed.

(** C5. Conservation of the system width: outside line mode, with
    stretching on and the row not ragged, the left margin plus the final
    widths of a system's items is exactly the system width, and each
    item's final width is its minimum plus its share of the leftover,
    in proportion to [ticks * max(userStretch, 1)]. *)
Theorem collectSystem_conserves stream r :
  collectSystem stream = Some r ->
  is_line (layoutMode sty) = false -> noHorizontalStretch sty = false ->
  raggedRight (collected r) = false -> ~ total_weight (items (collected r)) == 0 ->
  leftMargin sty + qsum (map snd (placed r)) == systemWidth sty
  /\ Forall2 (fun p it => snd p == item_min it +
        (systemWidth sty - total_min (items (collected r))) / total_weight (items (collected r)) * weight it)
      (placed r) (items (collected r)).
Proof.
  unfold collectSystem. destruct (collectMeasures stream) as [c|]; [|discriminate].
  destruct (place_items _ _ _) as [pl xe] eqn:P. intros [=<-] Hl Hn Hr Hw. simpl in Hr, Hw |- *.
  destruct (place_widths (stretch_rest (items c) (raggedRight c)) (items c) (leftMargin sty) Hl) as [H1 H2].
  rewrite P in H1, H2. simpl in H1, H2. unfold stretch_rest in *. rewrite Hl, Hn, Hr in *. simpl in *.
  split; [|exact H1]. rewrite H2, stretch_share by exact Hw. unfold total_min. lra.
Qed.

(** C31. The last system is not left ragged: when it is short enough
    for [raggedRight] (and stretching is on), its measures are still
    stretched, to twice their natural width when that fits in the
    system, else half way to the system width. *)
Theorem collectSystem_ragged stream r :
  collectSystem stream = Some r ->
  is_line (layoutMode sty) = false -> noHorizontalStretch sty = false ->
  raggedRight (collected r) = true -> ~ total_weight (items (collected r)) == 0 ->
  let tm := total_min (items (collected r)) in
  (tm <= systemWidth sty - tm -> leftMargin sty + qsum (map snd (placed r)) == 2 * tm)
  /\ (systemWidth sty - tm < tm -> leftMargin sty + qsum (map snd (placed r)) == (systemWidth sty + tm) * (1#2)).
Proof.
  unfold collectSystem. destruct (collectMeasures stream) as [c|]; [|discriminate].
  destruct (place_items _ _ _) as [pl xe] eqn:P. intros [=<-] Hl Hn Hr Hw. simpl in Hr, Hw |- *.
  destruct (place_widths (stretch_rest (items c) (raggedRight c)) (items c) (leftMargin sty) Hl) as [_ H2].
  rewrite P in H2. simpl in H2. unfold stretch_rest in *. rewrite Hl, Hn, Hr in *. simpl in *.
  rewrite H2, stretch_share by exact Hw. unfold total_min in *.
  split; intros H; qcase; lra.
Qed.

(** Without the range stop (a full [doLayout]) the loop never reports
    [rangeDone]. *)
Lemma collect_no_stop stream : forall s,
  (forall mb, range_stop mb = false) -> rangeDone (collect s stream) = false.
Proof.
  induction stream as [|mb rest IH]; intros s Hr; simpl; [reflexivity|].
  destruct (item_ww (firstMeasure s) mb) as [[[ww caut] w] f']. rewrite Hr.
  collect_cases; simpl; try reflexivity. apply IH, Hr.
Qed.

End Collect.

End SystemLayout.

Import SystemLayout.

(** A page 100 wide with a left margin of 10 and a minimum measure
    width of 5; measures of natural width 19 (26 when first, with the
    system header) and courtesy width 2, four quarters long. *)
Definition wit_style (md : LayoutMode) (fill : Q) : Style := mkStyle 5 1 100 10 fill false md.
Definition wit_meas (first : Q) : Meas := mkMeas first false 18 18 1 0 1 2 false 4.
Definition wit_mb (m : Meas) : MB := mkMB (KMeasure m) false false false.
Definition wit_stream (n : nat) : list MB := repeat (wit_mb (wit_meas 25)) n.
Definition no_stop (mb : MB) : bool := false.

Lemma wit_stream_ok n : Forall meas_ok (wit_stream n).
Proof.
  apply Forall_forall. intros x Hx. apply repeat_spec in Hx. subst x.
  unfold meas_ok. simpl. split; [reflexivity | split; lra].
Qed.

Lemma collectMeasures_partition_witness :
  exists c, collectMeasures (wit_style PAGE (3#10)) no_stop (wit_stream 6) = Some c /\ items c <> [] /\
    map fst (items c) ++ (if rangeDone c then tl (remaining c) else remaining c) = wit_stream 6.
Proof. apply collectMeasures_partition. discriminate. Defined.

Lemma collectMeasures_line_witness :
  exists c, collectMeasures (wit_style LINE (3#10)) no_stop (wit_stream 6) = Some c /\
    map fst (items c) = wit_stream 6 /\ remaining c = [].
Proof. apply collectMeasures_line; [reflexivity | discriminate | apply Forall_forall; reflexivity]. Defined.

Lemma collectMeasures_breaks_witness :
  let stream := wit_stream 1 ++ [mkMB (KMeasure (wit_meas 25)) false true false] ++ wit_stream 3 in
  exists c, collectMeasures (wit_style PAGE (3#10)) no_stop stream = Some c /\
    Forall (fun it => pbreak_of (wit_style PAGE (3#10)) (fst it) = false) (removelast (items c))
    /\ Forall (fun it => is_box (fst it) = false) (tl (items c)).
Proof.
  intros stream. eexists. split; [reflexivity|].
  apply (collectMeasures_breaks (wit_style PAGE (3#10)) no_stop stream); reflexivity.
Defined.

Lemma collectMeasures_fit_witness :
  exists c, collectMeasures (wit_style PAGE (3#10)) no_stop (wit_stream 6) = Some c /\
    (2 <= length (items c))%nat /\ natural (wit_style PAGE (3#10)) (items c) <= 100.
Proof.
  eexists. split; [reflexivity|].
  assert (H2 : (2 <= length (items (collect (wit_style PAGE (3#10)) no_stop
                  (collect_start (wit_style PAGE (3#10))) (wit_stream 6))))%nat)
    by (apply Nat.leb_le; vm_compute; reflexivity).
  split; [exact H2|].
  exact (collectMeasures_fit (wit_style PAGE (3#10)) no_stop (wit_stream 6) _ eq_refl (wit_stream_ok 6) eq_refl H2).
Defined.

Lemma collectSystem_conserves_witness :
  exists r, collectSystem (wit_style PAGE (3#10)) no_stop (wit_stream 2) = Some r /\
    raggedRight (wit_style PAGE (3#10)) (collected r) = false /\
    10 + qsum (map snd (placed r)) == 100.
Proof.
  eexists. split; [reflexivity|]. split; [reflexivity|].
  refine (proj1 (collectSystem_conserves (wit_style PAGE (3#10)) no_stop (wit_stream 2) _ eq_refl eq_refl eq_refl eq_refl _)).
  vm_compute. discriminate.
Defined.

Lemma collectSystem_ragged_witness :
  exists r, collectSystem (wit_style PAGE (3#10)) no_stop [wit_mb (wit_meas 15)] = Some r /\
    raggedRight (wit_style PAGE (3#10)) (collected r) = true /\
    10 + qsum (map snd (placed r)) == 52.
Proof.
  eexists. split; [reflexivity|]. split; [reflexivity|].
  refine (proj1 (collectSystem_ragged (wit_style PAGE (3#10)) no_stop [wit_mb (wit_meas 15)] _ eq_refl eq_refl eq_refl eq_refl _) _).
  - vm_compute. discriminate.
  - vm_compute. discriminate.
Defined.
