(* ===== verification/PageLayout.v ===== *)
(** * Filling pages with systems ([Score::collectPage], [layoutPage])

    [collectPage] (layout.cpp 3659-3784) stacks systems on a page from
    the top margin down, each one below the previous at the distance
    [System::minDistance] gives (the first one at the top gap of its
    vertical box, or [staffUpperBorder], but at least [-minTop]), plus
    the first staff's user distance; before taking the next system it
    checks that it would end (with its bottom gap) above the bottom
    margin, and it stops at a page break outside system mode.  It then
    hands the height left over to [layoutPage] (1786-1845), which
    shares it among the gaps between systems that are not vertical
    boxes, capping each gap at [maxSystemDistance].

    The systems that [collectSystem] (or the range-layout shortcut)
    hands out are a list; the page takes a prefix of it and the rest
    starts with the system [lc.curSystem] holds for the next page.
    [System::minDistance] is a section variable (system.cpp is outside
    src/); a system is what the two functions read of it.  The system
    dividers [checkDivider] adds and removes and the layout of ties,
    spanners and beams after the loop are not modelled. *)

From Stdlib Require Import QArith Qminmax Lqa ZArith List Lia Bool Setoid Morphisms PeanoNat.
From S2P Require Import Prelude.
Import ListNotations.
Open Scope Q_scope.
Open Scope layout_scope.

Module PageLayout.

(** What the page functions read of a [System]: its height,
    [minTop]/[minBottom], the top and bottom gaps of its vertical box
    if it is one, and its page break. *)
Record Sys := mkSys {
  sid : nat; sheight : Q; minTop : Q; minBottom : Q;
  svbox : option (Q * Q); spageBreak : bool }.

(** The page and style values [collectPage] and [layoutPage] read. *)
Record PageStyle := mkPageStyle {
  tm : Q; bm : Q; pheight : Q;                  (** [page->tm()], [page->bm()], [page->height()] *)
  staffLowerBorder : Q; staffUpperBorder : Q;
  userDist : Q;                                 (** [_staves.front()->userDist()] *)
  maxSystemDistance : Q; noVerticalStretch : bool; layoutMode : LayoutMode }.

Definition is_vbox (s : Sys) : bool := match svbox s with Some _ => true | None => false end.

Section Page.

Variable ps : PageStyle.
Variable minDistance : Sys -> Sys -> Q.

(** [ey = page->height() - page->bm()] *)
Definition ey : Q := pheight ps - bm ps.

Definition breakPages : bool := match layoutMode ps with SYSTEM => false | _ => true end.

(** Distance of a system to the one above it (or to the top margin). *)
Definition distance_above (s1 : option Sys) (s2 : Sys) : Q :=
  match s1 with
  | Some p => minDistance p s2
  | None => qMax (match svbox s2 with Some (tg, _) => tg | None => staffUpperBorder ps end) (- minTop s2)
  end + userDist ps.

(** [vbox ? vbox->bottomGap() : qMax(s->minBottom(), slb)] *)
Definition bottom_gap (s : Sys) : Q :=
  match svbox s with Some (_, bg) => bg | None => qMax (minBottom s) (staffLowerBorder ps) end.

(** The [for (;;)] loop: the systems put on the page with their [y],
    the systems left, and the [restHeight] passed to [layoutPage]. *)
Fixpoint page_loop (y : Q) (s1 : option Sys) (s2 : Sys) (rest : list Sys)
  : list (Sys * Q) * list Sys * Q :=
  let y1 := y + distance_above s1 s2 in
  let y2 := y1 + sheight s2 in
  let restHeight := ey - (y2 + bottom_gap s2) in
  match rest with
  | [] => ([(s2, y1)], [], restHeight)
  | s3 :: tl =>
      if (breakPages && spageBreak s2)
         || (ey <=?q y2 + (minDistance s2 s3 + sheight s3 + bottom_gap s3))
      then ([(s2, y1)], rest, restHeight)
      else let '(pl, rem, rh) := page_loop y2 (Some s2) s3 tl in ((s2, y1) :: pl, rem, rh)
  end.

(** [layoutPage]: the number of gaps between systems neither of which
    is a vertical box. *)
Fixpoint count_gaps (l : list (Sys * Q)) : nat :=
  match l with
  | (s1, _) :: (((s2, _) :: _) as tl) =>
      (if is_vbox s1 || is_vbox s2 then 0 else 1) + count_gaps tl
  | _ => 0
  end.

(** [offset = stretch; if (dist + stretch > maxDistance) offset = max(maxDistance - dist, 0)] *)
Definition gap_offset (stretch dist : Q) : Q :=
  if maxSystemDistance ps <?q dist + stretch then
    (let o := maxSystemDistance ps - dist in if o <?q 0 then 0 else o)
  else stretch.

(** The distributing loop; [prev] is the system above, already moved. *)
Fixpoint stretch_loop (stretch yoff : Q) (prev : Sys * Q) (l : list (Sys * Q)) : list (Sys * Q) :=
  match l with
  | [] => []
  | (s2, y2) :: tl =>
      let yoff' :=
        if is_vbox (fst prev) || is_vbox s2 then yoff
        else yoff + gap_offset stretch ((y2 + yoff) - (snd prev + sheight (fst prev))) in
      let s2' := (s2, y2 + yoff') in
      s2' :: stretch_loop stretch yoff' s2' tl
  end.

Definition layoutPage (l : list (Sys * Q)) (restHeight : Q) : list (Sys * Q) :=
  let gaps := count_gaps l in
  if Nat.eqb gaps 0 || noVerticalStretch ps || match layoutMode ps with SYSTEM => true | _ => false end
  then match layoutMode ps with
       | FLOAT => map (fun p => (fst p, snd p + restHeight * (1#2))) l
       | _ => l
       end
  else match l with
       | [] => []
       | first :: tl => first :: stretch_loop (restHeight / inject_Z (Z.of_nat gaps)) 0 first tl
       end.

(** [Score::collectPage]: [None] when [lc.curSystem] is null;
    otherwise the page's systems with their final [y] and the systems
    left for the next page. *)
Definition collectPage (systems : list Sys) : option (list (Sys * Q) * list Sys) :=
  match systems with
  | [] => None
  | s :: rest =>
      let '(pl, rem, rh) := page_loop (tm ps) None s rest in Some (layoutPage pl rh, rem)
  end.

(** ** The page loop *)

Ltac page_cases :=
  repeat match goal with
  | |- context [if ?b then _ else _] => let E := fresh "E" in destruct b eqn:E
  | |- context [let '(_, _) := ?p in _] => let E := fresh "P" in destruct p as [[? ?] ?] eqn:E
  end.

Lemma page_loop_head rest : forall y s1 s2,
  exists tl, fst (fst (page_loop y s1 s2 rest)) = (s2, y + distance_above s1 s2) :: tl.
Proof.
  destruct rest as [|s3 rest]; intros y s1 s2; simpl; [eexists; reflexivity|].
  page_cases; simpl; eexists; reflexivity.
Qed.

(** The page takes a non-empty prefix of the systems. *)
Lemma page_loop_partition rest : forall y s1 s2,
  map fst (fst (fst (page_loop y s1 s2 rest))) ++ snd (fst (page_loop y s1 s2 rest)) = s2 :: rest.
Proof.
  induction rest as [|s3 rest IH]; intros y s1 s2; simpl; [reflexivity|].
  page_cases; simpl; [reflexivity|]. specialize (IH (y + distance_above s1 s2 + sheight s2) (Some s2) s3).
  rewrite P in IH. simpl in IH. rewrite IH. reflexivity.
Qed.

(** The page loop keeps every system after the first on the page
    up to the first staff's user distance: its bottom plus its bottom
    gap ends less than [userDist] below the bottom margin [ey] (the
    check that admits a system leaves out the [userDist] that its
    placement adds). *)
Theorem page_loop_fit rest : forall y s1 s2,
  Forall (fun p => snd p + sheight (fst p) + bottom_gap (fst p) < ey + userDist ps)
    (tl (fst (fst (page_loop y s1 s2 rest)))).
Proof.
  induction rest as [|s3 rest IH]; intros y s1 s2; simpl; [constructor|].
  page_cases; simpl; [constructor|].
  apply orb_false_elim in E as [_ E]. apply qleb_false in E.
  specialize (IH (y + distance_above s1 s2 + sheight s2) (Some s2) s3).
  destruct (page_loop_head rest (y + distance_above s1 s2 + sheight s2) (Some s2) s3) as [tl' Hh].
  rewrite P in IH, Hh. simpl in IH, Hh. subst l. constructor; [|exact IH].
  simpl. set (d := distance_above s1 s2) in *. unfold distance_above. lra.
Qed.

(** Outside system mode a page break ends the page. *)
Lemma page_loop_breaks rest : forall y s1 s2,
  breakPages = true ->
  Forall (fun p => spageBreak (fst p) = false) (removelast (fst (fst (page_loop y s1 s2 rest)))).
Proof.
  induction rest as [|s3 rest IH]; intros y s1 s2 Hb; simpl; [constructor|].
  page_cases; simpl; [constructor|].
  rewrite Hb in E. apply orb_false_elim in E as [E _].
  specialize (IH (y + distance_above s1 s2 + sheight s2) (Some s2) s3 Hb).
  destruct (page_loop_head rest (y + distance_above s1 s2 + sheight s2) (Some s2) s3) as [tl' Hh].
  rewrite P in IH, Hh. simpl in IH, Hh. subst l. constructor; [exact E | exact IH].
Qed.

(** C33. The fit test of the page loop leaves out the first staff's user
    distance that the placement adds (layout.cpp 3689 against 3711-3718):
    when the next system [s3] fits below [s2] by the distances without
    [userDist] but not once [userDist] is added, and no page break
    intervenes, [s3] is still put on the page, at [userDist] below
    [s2]'s bottom plus [minDistance], and it ends (with its bottom gap)
    at or below the bottom margin [ey]. *)
Theorem page_loop_userDist_overflow y s1 s2 s3 tl :
  (breakPages && spageBreak s2) = false ->
  let y2 := y + distance_above s1 s2 + sheight s2 in
  y2 + (minDistance s2 s3 + sheight s3 + bottom_gap s3) < ey <=
    y2 + (minDistance s2 s3 + sheight s3 + bottom_gap s3) + userDist ps ->
  exists pl, fst (fst (page_loop y s1 s2 (s3 :: tl)))
             = (s2, y + distance_above s1 s2) :: (s3, y2 + distance_above (Some s2) s3) :: pl /\
    ey <= y2 + distance_above (Some s2) s3 + sheight s3 + bottom_gap s3.
Proof.
  intros Hb y2 [Hfit Hover]. simpl. fold y2. rewrite Hb, (qleb_lt _ _ Hfit). simpl.
  destruct (page_loop_head tl y2 (Some s2) s3) as [pl Hh].
  destruct (page_loop y2 (Some s2) s3 tl) as [[l rem] rh]. simpl in Hh |- *. subst l.
  exists pl. split; [reflexivity|]. unfold distance_above. lra.
Qed.

(** ** Sharing the rest height *)

(** The gaps between consecutive systems: whether one of the two is a
    vertical box, and the distance from the first's bottom to the
    second's top. *)
Fixpoint gaps (l : list (Sys * Q)) : list (bool * Q) :=
  match l with
  | (s1, y1) :: (((s2, y2) :: _) as tl) => (is_vbox s1 || is_vbox s2, y2 - (y1 + sheight s1)) :: gaps tl
  | _ => []
  end.

(** A gap is kept if it lies next to a vertical box, and otherwise
    grows by at most the stretch and not beyond [maxSystemDistance]
    (a gap that is already wider is kept). *)
Definition gap_ok (g g' : bool * Q) : Prop :=
  fst g' = fst g /\
  (fst g = true -> snd g' == snd g) /\
  (fst g = false -> snd g <= snd g' /\ snd g' <= qMax (snd g) (maxSystemDistance ps)).

Lemma gap_offset_bounds st d :
  0 <= st -> 0 <= gap_offset st d /\ gap_offset st d <= st /\ d + gap_offset st d <= qMax d (maxSystemDistance ps).
Proof. intros H. unfold gap_offset. repeat qcase; qlia. Qed.

Lemma gap_offset_free st d : d + st <= maxSystemDistance ps -> gap_offset st d == st.
Proof. intros H. unfold gap_offset. qcase; [lra | reflexivity]. Qed.

Lemma stretch_loop_fst st yoff prev l : map fst (stretch_loop st yoff prev l) = map fst l.
Proof.
  revert yoff prev. induction l as [|[s2 y2] tl IH]; intros yoff prev; simpl; [reflexivity|].
  f_equal. apply IH.
Qed.

Lemma stretch_loop_gaps st : 0 <= st -> forall l yoff sp yp yq, yq == yp + yoff ->
  Forall2 gap_ok (gaps ((sp, yp) :: l)) (gaps ((sp, yq) :: stretch_loop st yoff (sp, yq) l)).
Proof.
  intros Hst. induction l as [|[s2 y2] tl IH]; intros yoff sp yp yq Hq; simpl; [constructor|].
  destruct (is_vbox sp || is_vbox s2) eqn:Eb; constructor.
  - unfold gap_ok; simpl. split; [reflexivity | split; [intros _; lra | intros Hf; discriminate Hf]].
  - apply IH. reflexivity.
  - set (d := y2 + yoff - (yq + sheight sp)).
    destruct (gap_offset_bounds st d Hst) as (H0 & H1 & H2).
    assert (Hd : d == y2 - (yp + sheight sp)) by (unfold d; lra).
    rewrite Hd in H2 at 1. assert (Hm : qMax d (maxSystemDistance ps) == qMax (y2 - (yp + sheight sp)) (maxSystemDistance ps))
      by (rewrite Hd; reflexivity).
    unfold gap_ok; simpl. split; [reflexivity | split; [intros Hf; discriminate Hf | intros _; split; lra]].
  - apply IH. reflexivity.
Qed.

Lemma gaps_refl l : Forall2 gap_ok (gaps l) (gaps l).
Proof.
  induction l as [|[s1 y1] [|[s2 y2] tl] IH]; simpl; constructor; [|exact IH].
  unfold gap_ok. split; [reflexivity | split; [intros _; lra | intros _; split; [lra | apply qMax_ge_l]]].
Qed.

Lemma gaps_shift c l : Forall2 gap_ok (gaps l) (gaps (map (fun p => (fst p, snd p + c)) l)).
Proof.
  induction l as [|[s1 y1] [|[s2 y2] tl] IH]; simpl; constructor; [|exact IH].
  unfold gap_ok; simpl. split; [reflexivity | split; [intros _; lra | intros _; split; [lra|]]].
  apply (Qle_trans _ (y2 - (y1 + sheight s1))); [lra | apply qMax_ge_l].
Qed.

Lemma div_nonneg a b : 0 <= a -> 0 < b -> 0 <= a / b.
Proof. intros Ha Hb. apply Qmult_le_0_compat; [exact Ha | apply Qinv_le_0_compat; lra]. Qed.

Lemma count_gaps_pos l : Nat.eqb (count_gaps l) 0 = false -> 0 < inject_Z (Z.of_nat (count_gaps l)).
Proof.
  intros H. apply Nat.eqb_neq in H. change 0 with (inject_Z 0). rewrite <- Zlt_Qlt. lia.
Qed.

Definition gap_sum (l : list (Sys * Q)) : Q := qsum (map snd (gaps l)).

Definition nQ (n : nat) : Q := inject_Z (Z.of_nat n).

Lemma nQ_step (b : bool) n : nQ ((if b then 0 else 1) + n)%nat == (if b then 0 else 1) + nQ n.
Proof. unfold nQ. rewrite Nat2Z.inj_add, inject_Z_plus. destruct b; [change (inject_Z 0) with 0 | change (inject_Z 1) with 1]; reflexivity. Qed.

Lemma gap_sum_cons s1 y1 s2 y2 tl :
  gap_sum ((s1, y1) :: (s2, y2) :: tl) = (y2 - (y1 + sheight s1)) + gap_sum ((s2, y2) :: tl).
Proof. reflexivity. Qed.

Lemma gaps_cons s1 y1 s2 y2 tl :
  gaps ((s1, y1) :: (s2, y2) :: tl) = (is_vbox s1 || is_vbox s2, y2 - (y1 + sheight s1)) :: gaps ((s2, y2) :: tl).
Proof. reflexivity. Qed.

Lemma stretch_loop_sum st : 0 <= st -> forall l yoff sp yp yq, yq == yp + yoff ->
  gap_sum ((sp, yq) :: stretch_loop st yoff (sp, yq) l) <= gap_sum ((sp, yp) :: l) + st * nQ (count_gaps ((sp, yp) :: l))
  /\ (Forall (fun g => fst g = false -> snd g + st <= maxSystemDistance ps) (gaps ((sp, yp) :: l)) ->
      gap_sum ((sp, yq) :: stretch_loop st yoff (sp, yq) l) == gap_sum ((sp, yp) :: l) + st * nQ (count_gaps ((sp, yp) :: l))).
Proof.
  intros Hst. induction l as [|[s2 y2] tl IH]; intros yoff sp yp yq Hq.
  - assert (H0 : nQ 0 == 0) by reflexivity. simpl count_gaps. rewrite H0.
    unfold gap_sum. simpl. split; [|intros _]; lra.
  - change (count_gaps ((sp, yp) :: (s2, y2) :: tl))
      with ((if is_vbox sp || is_vbox s2 then 0 else 1) + count_gaps ((s2, y2) :: tl))%nat.
    rewrite nQ_step. cbn [stretch_loop fst snd]. rewrite !gap_sum_cons, gaps_cons.
    destruct (is_vbox sp || is_vbox s2) eqn:Eb; cbv beta iota.
    + destruct (IH yoff s2 y2 (y2 + yoff) ltac:(reflexivity)) as [I1 I2].
      split; [lra|]. intros Hf. inversion Hf as [|? ? _ Hr]; subst. rewrite I2 by exact Hr. lra.
    + set (d := y2 + yoff - (yq + sheight sp)).
      destruct (gap_offset_bounds st d Hst) as (H0 & H1 & _).
      destruct (IH (yoff + gap_offset st d) s2 y2 (y2 + (yoff + gap_offset st d)) ltac:(reflexivity)) as [I1 I2].
      split; [lra|]. intros Hf. inversion Hf as [|? ? Hg Hr]; subst.
      rewrite I2 by exact Hr.
      assert (Hd : d + st <= maxSystemDistance ps) by (simpl in Hg; specialize (Hg eq_refl); unfold d; lra).
      rewrite (gap_offset_free st d Hd). lra.
Qed.

Lemma layoutPage_fst l rh : map fst (layoutPage l rh) = map fst l.
Proof.
  unfold layoutPage. destruct (_ || _ || _).
  - destruct (layoutMode ps); try reflexivity. rewrite map_map. reflexivity.
  - destruct l as [|first tl]; [reflexivity|]. simpl. f_equal. apply stretch_loop_fst.
Qed.

(** C32. [layoutPage] only opens gaps up, within the caps: it keeps
    the systems and their order, keeps every gap next to a vertical box,
    and (for a non-negative rest height) widens every other gap by a
    non-negative amount, never beyond [maxSystemDistance] unless the gap
    was already wider, in which case it is kept. *)
Theorem layoutPage_gaps l rh :
  0 <= rh ->
  map fst (layoutPage l rh) = map fst l /\ Forall2 gap_ok (gaps l) (gaps (layoutPage l rh)).
Proof.
  intros Hrh. split; [apply layoutPage_fst|]. unfold layoutPage.
  destruct (Nat.eqb (count_gaps l) 0) eqn:Ec; destruct (noVerticalStretch ps); simpl;
    destruct (layoutMode ps); try apply gaps_refl; try apply gaps_shift;
    destruct l as [|[sp yp] tl]; try (simpl in Ec; discriminate);
    (apply stretch_loop_gaps; [apply div_nonneg; [exact Hrh | apply count_gaps_pos, Ec] | lra]).
Qed.

(** [layoutPage] shares out at most the rest height: when it
    stretches (some gap between non-box systems, vertical stretch on,
    not in system mode), the gaps together grow by at most [restHeight],
    so the last system stays on the page, and by exactly [restHeight]
    when no gap reaches [maxSystemDistance] with its share. *)
Theorem layoutPage_fill l rh :
  0 <= rh -> Nat.eqb (count_gaps l) 0 = false -> noVerticalStretch ps = false -> layoutMode ps <> SYSTEM ->
  gap_sum (layoutPage l rh) <= gap_sum l + rh
  /\ (Forall (fun g => fst g = false -> snd g + rh / nQ (count_gaps l) <= maxSystemDistance ps) (gaps l) ->
      gap_sum (layoutPage l rh) == gap_sum l + rh).
Proof.
  intros Hrh Ec Hn Hm. unfold layoutPage. rewrite Ec, Hn. simpl.
  destruct (layoutMode ps); try congruence; destruct l as [|[sp yp] tl]; try (simpl in Ec; discriminate);
  (assert (Hd : rh / nQ (count_gaps ((sp, yp) :: tl)) * nQ (count_gaps ((sp, yp) :: tl)) == rh)
     by (unfold Qdiv; rewrite <- Qmult_assoc, (Qmult_comm (/ _)), Qmult_inv_r;
         [lra | pose proof (count_gaps_pos _ Ec); unfold nQ; lra]);
   destruct (stretch_loop_sum _ (div_nonneg _ _ Hrh (count_gaps_pos _ Ec)) tl 0 sp yp yp ltac:(lra)) as [S1 S2];
   fold (nQ (count_gaps ((sp, yp) :: tl))) in *; rewrite Hd in S1, S2;
   split; [exact S1 | exact S2]).
Qed.

(** Every page takes at least one system, and the systems it
    takes are the first ones handed to it, in order, the rest being
    left for the next page; [layoutPage] keeps them. *)
Theorem collectPage_partition systems :
  systems <> [] ->
  exists pl rem, collectPage systems = Some (pl, rem) /\ pl <> [] /\ map fst pl ++ rem = systems.
Proof.
  intros Hne. destruct systems as [|s rest]; [congruence|]. unfold collectPage.
  pose proof (page_loop_partition rest (tm ps) None s) as Hp.
  destruct (page_loop_head rest (tm ps) None s) as [tl Hh].
  destruct (page_loop (tm ps) None s rest) as [[pl rem] rh]. simpl in Hp, Hh.
  exists (layoutPage pl rh), rem. split; [reflexivity|]. split.
  - intros E. apply (f_equal (map fst)) in E. rewrite layoutPage_fst, Hh in E. discriminate.
  - rewrite layoutPage_fst. exact Hp.
Qed.

(** Outside system mode a system with a page break is the last
    one on its page. *)
Theorem collectPage_breaks systems pl rem :
  breakPages = true -> collectPage systems = Some (pl, rem) ->
  Forall (fun s => spageBreak s = false) (removelast (map fst pl)).
Proof.
  intros Hb. destruct systems as [|s rest]; [discriminate|]. unfold collectPage.
  pose proof (page_loop_breaks rest (tm ps) None s Hb) as H.
  destruct (page_loop (tm ps) None s rest) as [[pl0 rem0] rh]. intros [=<- <-].
  rewrite layoutPage_fst, removelast_map. apply Forall_map. exact H.
Qed.

End Page.

End PageLayout.

Import PageLayout.

(** A page 100 high without margins or borders, systems 40 high at a
    minimum distance of 5, and a user distance of 10 above the first
    staff. *)
Definition wit_page (ud : Q) : PageStyle := mkPageStyle 0 0 100 0 0 ud 15 false PAGE.
Definition wit_sys (i : nat) (pb : bool) : Sys := mkSys i 40 0 0 None pb.
Definition wit_dist (s1 s2 : Sys) : Q := 5.

(** Two 40-high systems on a 100-high page, 5 apart, with a user
    distance of 10: the second is admitted and ends at 105. *)
Lemma page_loop_userDist_overflow_witness :
  exists pl, fst (fst (page_loop (wit_page 10) wit_dist 0 None (wit_sys 0 false) (wit_sys 1 false :: [])))
             = (wit_sys 0 false, 0 + distance_above (wit_page 10) wit_dist None (wit_sys 0 false))
               :: (wit_sys 1 false, 0 + distance_above (wit_page 10) wit_dist None (wit_sys 0 false)
                     + sheight (wit_sys 0 false)
                     + distance_above (wit_page 10) wit_dist (Some (wit_sys 0 false)) (wit_sys 1 false)) :: pl /\
    ey (wit_page 10) <= 0 + distance_above (wit_page 10) wit_dist None (wit_sys 0 false)
                     + sheight (wit_sys 0 false)
                     + distance_above (wit_page 10) wit_dist (Some (wit_sys 0 false)) (wit_sys 1 false)
                     + sheight (wit_sys 1 false) + bottom_gap (wit_page 10) (wit_sys 1 false).
Proof.
  apply (page_loop_userDist_overflow (wit_page 10) wit_dist 0 None (wit_sys 0 false) (wit_sys 1 false) []).
  - reflexivity.
  - split; [vm_compute; reflexivity | vm_compute; discriminate].
Defined.

Lemma collectPage_partition_witness :
  exists pl rem, collectPage (wit_page 0) wit_dist [wit_sys 0 false; wit_sys 1 false; wit_sys 2 false] = Some (pl, rem)
    /\ pl <> [] /\ map fst pl ++ rem = [wit_sys 0 false; wit_sys 1 false; wit_sys 2 false].
Proof. apply collectPage_partition. discriminate. Defined.

Lemma collectPage_breaks_witness :
  exists pl rem, collectPage (wit_page 0) wit_dist [wit_sys 0 true; wit_sys 1 false] = Some (pl, rem)
    /\ Forall (fun s => spageBreak s = false) (removelast (map fst pl)).
Proof.
  do 2 eexists. split; [reflexivity|].
  exact (collectPage_breaks (wit_page 0) wit_dist [wit_sys 0 true; wit_sys 1 false] _ _ eq_refl eq_refl).
Defined.

Definition wit_placed : list (Sys * Q) := [(wit_sys 0 false, 0); (wit_sys 1 false, 45); (wit_sys 2 false, 90)].

Lemma layoutPage_gaps_witness :
  map fst (layoutPage (wit_page 0) wit_placed 10) = map fst wit_placed
  /\ Forall2 (gap_ok (wit_page 0)) (gaps wit_placed) (gaps (layoutPage (wit_page 0) wit_placed 10)).
Proof. apply layoutPage_gaps. lra. Defined.

Lemma layoutPage_fill_witness :
  gap_sum (layoutPage (wit_page 0) wit_placed 10) == gap_sum wit_placed + 10.
Proof.
  refine (proj2 (layoutPage_fill (wit_page 0) wit_placed 10 _ eq_refl eq_refl _) _).
  - lra.
  - discriminate.
  - repeat constructor; intros _; vm_compute; discriminate.
Defined.
