(* ===== verification/Driver.v ===== *)
(** * The layout driver ([Score::doLayout])

    [doLayout] (layout.cpp 3800-3870) lays out the whole score: it
    primes the measure stream ([getNextMeasure] twice), collects the
    first system and then calls [collectPage] until it returns false;
    [collectPage] itself calls [collectSystem] each time it needs the
    next system.  Both steps have the same shape: they take a non-empty
    prefix of a stream and leave the rest for the next call.  The
    interface [Collector] (with its laws [CollectorLaws]) states that
    promise; the driver loop [run] is written and proved once against
    it (by well-founded recursion on the stream's length, with
    Equations), and [SystemLayout] and [PageLayout] discharge the laws.

    A system's vertical metrics (height, [minTop], [minBottom], whether
    it is a vertical box, its page break) come from [System::layout2]
    and [System::pageBreak] (system.cpp, outside src/): [to_sys] is a
    section variable.  The systems [collectSystem] produces do not
    depend on the pages, so collecting all systems and then all pages
    gives the same systems and pages as the interleaved calls of the
    code.  Page objects ([getEmptyPage]) and the deletion of unused
    systems and pages are modelled over object identities in
    [LayoutContext.v]; the slur layout at the end is not modelled. *)

From Equations Require Import Equations.
From Stdlib Require Import QArith List Lia.
From S2P Require Import Prelude SystemLayout PageLayout.
Import ListNotations.
Open Scope nat_scope.

Module Driver.

(** ** The interface between the driver and a collecting step *)

(** A collecting step: [take] consumes a prefix of a stream of [A]s
    and returns what it made of it, each [B] made from one [A]
    ([origin]), with the rest of the stream. *)
Class Collector (A B : Type) := {
  take : list A -> option (list B * list A);
  origin : B -> A }.

(** What the driver needs: an empty stream gives nothing and a
    non-empty one gives a non-empty prefix. *)
Class CollectorLaws (A B : Type) `{Collector A B} := {
  take_nil : take [] = None;
  take_cons : forall a l, exists bs rest,
    take (a :: l) = Some (bs, rest) /\ bs <> [] /\ map origin bs ++ rest = a :: l }.

Definition inspect {A} (a : A) : {b | a = b} := exist _ a eq_refl.

Section Run.

Context {A B : Type} `{CollectorLaws A B}.

Lemma take_shorter l bs rest : take l = Some (bs, rest) -> length rest < length l.
Proof.
  destruct l as [|a l]; intros E; [rewrite take_nil in E; discriminate|].
  destruct (take_cons a l) as (bs' & rest' & E' & Hne & Hp). rewrite E in E'. injection E' as -> ->.
  rewrite <- Hp, length_app, length_map. destruct bs'; [congruence | simpl; lia].
Qed.

(** The driver loop: [while (collect...(lc)) ;]. *)
Equations? run (l : list A) : list (list B) by wf (length l) lt :=
  run l with inspect (take l) => {
    | exist _ (Some (bs, rest)) E => bs :: run rest ;
    | exist _ None _ => [] }.
Proof. exact (take_shorter l bs rest E). Qed.

Lemma run_partition l :
  concat (map (map origin) (run l)) = l /\ Forall (fun bs => bs <> []) (run l).
Proof.
  funelim (run l).
  - destruct H1 as [Hc Hf]. simpl. rewrite Hc. clear H2 Heqcall.
    destruct l as [|a l']; [rewrite take_nil in E; discriminate|].
    destruct (take_cons a l') as (bs' & rest' & E' & Hne & Hp). rewrite E in E'. injection E' as <- <-.
    split; [exact Hp | constructor; assumption].
  - destruct l as [|a l']; [split; [reflexivity | constructor]|].
    destruct (take_cons a l') as (bs' & rest' & E' & _).
    match goal with H : take _ = None |- _ => congruence end.
Qed.

End Run.

(** ** The two collecting steps *)

Definition no_stop (mb : SystemLayout.MB) : bool := false.

#[export] Instance system_collector (sty : SystemLayout.Style) : Collector SystemLayout.MB SystemLayout.Item := {
  take l := option_map (fun c => (SystemLayout.items c, SystemLayout.remaining c))
              (SystemLayout.collectMeasures sty no_stop l);
  origin := fst }.

#[export] Instance system_laws sty : @CollectorLaws SystemLayout.MB SystemLayout.Item (system_collector sty).
Proof.
  split; [reflexivity|]. intros a l.
  set (c := SystemLayout.collect sty no_stop (SystemLayout.collect_start sty) (a :: l)).
  exists (SystemLayout.items c), (SystemLayout.remaining c). split; [reflexivity|].
  split; [apply SystemLayout.collect_first; reflexivity|].
  destruct (SystemLayout.collect_extends sty no_stop (a :: l) (SystemLayout.collect_start sty)) as (extra & H1 & H2).
  rewrite (SystemLayout.collect_no_stop sty no_stop) in H2 by reflexivity.
  change (SystemLayout.sys (SystemLayout.collect_start sty)) with (@nil SystemLayout.Item) in H1.
  subst c. rewrite H1. exact H2.
Qed.

#[export] Instance page_collector (ps : PageLayout.PageStyle) (md : PageLayout.Sys -> PageLayout.Sys -> Q)
  : Collector PageLayout.Sys (PageLayout.Sys * Q) := {
  take := PageLayout.collectPage ps md;
  origin := fst }.

#[export] Instance page_laws ps md : @CollectorLaws PageLayout.Sys (PageLayout.Sys * Q) (page_collector ps md).
Proof.
  split; [reflexivity|]. intros a l. simpl. unfold PageLayout.collectPage.
  pose proof (PageLayout.page_loop_partition ps md l (PageLayout.tm ps) None a) as Hp.
  destruct (PageLayout.page_loop_head ps md l (PageLayout.tm ps) None a) as [tl Hh].
  destruct (PageLayout.page_loop ps md (PageLayout.tm ps) None a l) as [[pl rem] rh]. simpl in Hp, Hh.
  do 2 eexists. split; [reflexivity|]. split.
  - intros E. apply (f_equal (map fst)) in E. rewrite PageLayout.layoutPage_fst, Hh in E. discriminate.
  - rewrite PageLayout.layoutPage_fst. exact Hp.
Qed.

(** ** [Score::doLayout] *)

Section Layout.

Variable sty : SystemLayout.Style.
Variable ps : PageLayout.PageStyle.
Variable minDistance : PageLayout.Sys -> PageLayout.Sys -> Q.
(** [System::layout2] and [System::pageBreak]: a system's page metrics. *)
Variable to_sys : list SystemLayout.Item -> PageLayout.Sys.

(** The systems (their items) and the pages (their systems and [y]).
    An empty score gets one empty page. *)
Definition doLayout (stream : list SystemLayout.MB)
  : list (list SystemLayout.Item) * list (list (PageLayout.Sys * Q)) :=
  match stream with
  | [] => ([], [[]])
  | _ =>
      let systems := @run _ _ (system_collector sty) (system_laws sty) stream in
      (systems, @run _ _ (page_collector ps minDistance) (page_laws ps minDistance) (map to_sys systems))
  end.

(** C4. [doLayout] puts every measure of the score in exactly one
    system and every system on exactly one page, in order: the systems'
    items, read back, are the measure stream, the pages' systems, read
    back, are the systems, and no system or page is empty. *)
Theorem doLayout_partition stream :
  stream <> [] ->
  let '(systems, pages) := doLayout stream in
  concat (map (map fst) systems) = stream /\ Forall (fun s => s <> []) systems
  /\ concat (map (map fst) pages) = map to_sys systems /\ Forall (fun p => p <> []) pages.
Proof.
  intros Hne. unfold doLayout. destruct stream as [|mb rest]; [congruence|].
  destruct (@run_partition _ _ _ (system_laws sty) (mb :: rest)) as [S1 S2].
  destruct (@run_partition _ _ _ (page_laws ps minDistance)
              (map to_sys (@run _ _ _ (system_laws sty) (mb :: rest)))) as [P1 P2].
  repeat split; assumption.
Qed.

End Layout.

End Driver.

Import Driver.

Definition wit_to_sys (its : list SystemLayout.Item) : PageLayout.Sys :=
  PageLayout.mkSys (length its) 40 0 0 None false.

Lemma doLayout_partition_witness :
  let '(systems, pages) := doLayout (wit_style PAGE (3#10)) (wit_page 0) wit_dist wit_to_sys (wit_stream 9) in
  concat (map (map fst) systems) = wit_stream 9 /\ Forall (fun s => s <> []) systems
  /\ concat (map (map fst) pages) = map wit_to_sys systems /\ Forall (fun p => p <> []) pages.
Proof. apply doLayout_partition. discriminate. Defined.
