(* ===== verification/MMRest.v ===== *)
(** * Multi-measure rests ([validMMRestMeasure], [breakMultiMeasureRest],
      the run detection of [Score::getNextMeasure], [Score::createMMRest],
      [LayoutContext::adjustMeasureNo])

    When the style asks for multi-measure rests, [getNextMeasure]
    (layout.cpp 2739-2796) scans forward from the current measure while
    the measures may be part of a multi-measure rest
    ([validMMRestMeasure], 2419-2454) and do not force a new one
    ([breakMultiMeasureRest], 2462-2552, ignored for the first
    measure), numbering each one ([adjustMeasureNo], 2558-2568).  If the
    run reaches [minEmptyMeasures], [createMMRest] (2168-2411) makes or
    updates the replacement measure and the stream continues after the
    run; otherwise the counter is restored.  Here [createMMRest] is its
    first part (count, length, number, repeat flags); the content it
    copies into the replacement measure is in [MMRestContent.v].

    A measure is what the three functions read of it: its flags,
    ticks and length, its segments (type, tick, annotations and the
    element of each voice of each staff), its measure elements
    (markers, jumps) and the voltas of the spanner map.  Staff
    visibility ([staff(i)->show()]) is a section variable.  Lengths
    ([Fraction]) are [Q]. *)

From Stdlib Require Import QArith ZArith List Lia Bool PeanoNat.
From S2P Require Import Prelude.
Import ListNotations.
Open Scope nat_scope.

Module MMRest.

Inductive EType := ERest | EChord | EOther.

(** An element in a voice: its type, number of articulations and
    whether layout generated it. *)
Record Elem := mkElem { etype : EType; nartic : nat; egenerated : bool }.

Inductive AnnKind := RehearsalMark | TempoText | Harmony | StaffText | OtherAnn.

Record Ann := mkAnn { akind : AnnKind; systemFlag : bool; astaff : nat; atrack : nat }.

Inductive SegType := SChordRest | SStartRepeatBarLine | SKeySig | STimeSig | SClef | SEndBarLine | SOther.

Inductive BarLineType := NORMAL | BROKEN | DOTTED | DOUBLE | START_REPEAT | END_REPEAT | END | OTHER_BL.

(** A segment: its type and tick, its annotations, and per staff the
    elements of its [VOICES] tracks. *)
Record Seg := mkSeg {
  stype : SegType; stick : Z; anns : list Ann; elems : list (list (option Elem)) }.

Inductive MElem := Marker (rightAligned : bool) | Jump | OtherEl.

(** What the run detection reads of a measure. *)
Record Measure := mkMeasure {
  mid : nat; irregular : bool; noOffset : Z; sectionBreak : bool;
  breakMMR : bool; repeatStart : bool; repeatEnd : bool;
  mtick : Z; mendTick : Z; mlen : Q;
  segs : list Seg; el : list MElem;
  (** [findSegment(EndBarLine, endTick())]: per staff, the bar line
      type and whether it is generated *)
  endBarLines : option (list (option (BarLineType * bool))) }.

Definition allowed_ann (a : Ann) : bool :=
  match akind a with RehearsalMark | TempoText | Harmony | StaffText => true | OtherAnn => false end.

Definition is_rest (e : Elem) : bool := match etype e with ERest => true | _ => false end.

Section Valid.

Variable show : nat -> bool.

(** The track loop of [validMMRestMeasure] over one chord-rest segment:
    [None] for [return false], else [Some restFound]. *)
Fixpoint vm_voices (vs : list (option Elem)) (found : bool) : option bool :=
  match vs with
  | [] => Some found
  | None :: vs' => vm_voices vs' found
  | Some e :: vs' =>
      if negb (is_rest e) then None
      else if Nat.ltb 0 (nartic e) then None
      else vm_voices vs' true
  end.

Fixpoint vm_staves (i : nat) (st : list (list (option Elem))) (found : bool) : option bool :=
  match st with
  | [] => Some found
  | vs :: st' =>
      if negb (show i) then vm_staves (S i) st' found
      else match vm_voices vs found with
           | None => None
           | Some f => vm_staves (S i) st' f
           end
  end.

(** The segment loop, with the count [n] of segments holding a rest. *)
Fixpoint vm_segs (ss : list Seg) (n : nat) : bool :=
  match ss with
  | [] => true
  | s :: ss' =>
      if existsb (fun a => negb (allowed_ann a)) (anns s) then false
      else match stype s with
           | SChordRest =>
               match vm_staves 0 (elems s) false with
               | None => false
               | Some found =>
                   let n' := if found then S n else n in
                   if Nat.ltb 1 n' then false else vm_segs ss' n'
               end
           | _ => vm_segs ss' n
           end
  end.

Definition validMMRestMeasure (m : Measure) : bool :=
  if irregular m then false else vm_segs (segs m) 0.

(** The property the loop decides, stated without its early returns:
    a regular measure whose annotations are all rehearsal marks, tempo
    texts, harmonies or staff texts, whose visible voices hold only
    rests without articulations, in at most one chord-rest segment. *)
Definition elems_of (vs : list (option Elem)) : list Elem :=
  flat_map (fun o => match o with Some e => [e] | None => [] end) vs.

Fixpoint visible_from (i : nat) (st : list (list (option Elem))) : list Elem :=
  match st with
  | [] => []
  | vs :: st' => (if show i then elems_of vs else []) ++ visible_from (S i) st'
  end.

Definition ok_elem (e : Elem) : bool := is_rest e && Nat.eqb (nartic e) 0.

Definition seg_ok (s : Seg) : bool :=
  forallb allowed_ann (anns s)
  && match stype s with
     | SChordRest => forallb ok_elem (visible_from 0 (elems s))
     | _ => true
     end.

Definition seg_has_rest (s : Seg) : bool :=
  match stype s with SChordRest => negb (Nat.eqb (length (visible_from 0 (elems s))) 0) | _ => false end.

Definition valid_spec (m : Measure) : bool :=
  negb (irregular m) && forallb seg_ok (segs m) && (length (filter seg_has_rest (segs m)) <=? 1).

(** ** The loop decides the property *)

Lemma vm_voices_spec vs : forall found,
  vm_voices vs found =
  if forallb ok_elem (elems_of vs) then Some (found || negb (Nat.eqb (length (elems_of vs)) 0)) else None.
Proof.
  induction vs as [|[e|] vs IH]; intros found.
  - simpl. rewrite orb_false_r. reflexivity.
  - change (elems_of (Some e :: vs)) with (e :: elems_of vs). cbn [forallb length vm_voices].
    unfold ok_elem at 1. destruct (is_rest e); simpl; [|reflexivity].
    destruct (nartic e) as [|k]; simpl; [|reflexivity].
    rewrite IH. destruct (forallb ok_elem (elems_of vs)); [rewrite orb_true_r|]; reflexivity.
  - apply IH.
Qed.

Lemma vm_staves_spec st : forall i found,
  vm_staves i st found =
  if forallb ok_elem (visible_from i st) then Some (found || negb (Nat.eqb (length (visible_from i st)) 0)) else None.
Proof.
  induction st as [|vs st IH]; intros i found; simpl; [rewrite orb_false_r; reflexivity|].
  destruct (show i); simpl.
  - rewrite vm_voices_spec, forallb_app, length_app.
    destruct (forallb ok_elem (elems_of vs)); simpl; [|reflexivity].
    rewrite IH. destruct (forallb ok_elem (visible_from (S i) st)); [|reflexivity].
    f_equal. destruct found, (length (elems_of vs)), (length (visible_from (S i) st)); reflexivity.
  - apply IH.
Qed.

Lemma vm_segs_spec ss : forall n, n <= 1 ->
  vm_segs ss n = forallb seg_ok ss && (n + length (filter seg_has_rest ss) <=? 1).
Proof.
  induction ss as [|s ss IH]; intros n Hn; cbn [vm_segs forallb filter].
  - symmetry. apply Nat.leb_le. simpl. lia.
  - rewrite existsb_negb. unfold seg_ok at 1, seg_has_rest at 1.
    destruct (forallb allowed_ann (anns s)); simpl; [|reflexivity].
    destruct (stype s); try (apply IH; exact Hn).
    rewrite vm_staves_spec. destruct (forallb ok_elem (visible_from 0 (elems s))); simpl; [|reflexivity].
    destruct (Nat.eqb (length (visible_from 0 (elems s))) 0); simpl.
    + replace (Nat.ltb 1 n) with false by (symmetry; apply Nat.ltb_ge; exact Hn). apply IH. exact Hn.
    + destruct n as [|[|n]]; simpl; [| rewrite andb_false_r; reflexivity | lia].
      apply IH. lia.
Qed.

(** [validMMRestMeasure]'s loops, with their early returns and
    the running count of segments holding a rest, decide exactly the
    declarative property [valid_spec]. *)
Theorem validMMRestMeasure_spec m : validMMRestMeasure m = valid_spec m.
Proof.
  unfold validMMRestMeasure, valid_spec. destruct (irregular m); [reflexivity|].
  rewrite vm_segs_spec by lia. reflexivity.
Qed.

End Valid.

(** ** [breakMultiMeasureRest] *)

Section Break.

Variable show : nat -> bool.
(** The voltas of the spanner map, as [(tick, tick2)]. *)
Variable voltas : list (Z * Z).

(** [spannerMap().findOverlapping(a, b)] *)
Definition overlapping (a b : Z) (v : Z * Z) : bool := (fst v <=? b)%Z && (a <=? snd v)%Z.

Definition bmr_volta_start (m : Measure) : bool :=
  existsb (fun v => overlapping (mtick m) (mendTick m) v && ((fst v =? mtick m)%Z || (snd v =? mtick m)%Z)) voltas.

Definition bmr_volta_end (m : Measure) : bool :=
  existsb (fun v => overlapping (mtick m) (mendTick m) v && (snd v =? mendTick m)%Z) voltas.

(** A marker in this measure that is not right-aligned. *)
Definition bmr_marker (m : Measure) : bool :=
  existsb (fun e => match e with Marker r => negb r | _ => false end) (el m).

(** A jump, or a right-aligned marker, in the previous measure. *)
Definition bmr_prev_el (pm : Measure) : bool :=
  existsb (fun e => match e with Jump => true | Marker r => r | OtherEl => false end) (el pm).

Definition bmr_ann (a : Ann) : bool :=
  match akind a with
  | RehearsalMark | TempoText => true
  | Harmony | StaffText => systemFlag a || show (astaff a)
  | OtherAnn => false
  end.

(** The staff loop over one segment: the first-voice element of each
    visible staff, if present and not generated, makes a start repeat,
    a key or time signature (not at tick 0), or a clef (not at the end
    or at tick 0) break the rest. *)
Fixpoint bmr_staves (m : Measure) (s : Seg) (i : nat) (st : list (list (option Elem))) : bool :=
  match st with
  | [] => false
  | vs :: st' =>
      let here :=
        show i &&
        match hd None vs with
        | Some e =>
            negb (egenerated e) &&
            match stype s with
            | SStartRepeatBarLine => true
            | SKeySig | STimeSig => negb (mtick m =? 0)%Z
            | SClef => negb (stick s =? mendTick m)%Z && negb (mtick m =? 0)%Z
            | _ => false
            end
        | None => false
        end in
      here || bmr_staves m s (S i) st'
  end.

Definition bmr_segs (m : Measure) : bool :=
  existsb (fun s => existsb bmr_ann (anns s) || bmr_staves m s 0 (elems s)) (segs m).

Definition normal_barline (t : BarLineType) : bool :=
  match t with NORMAL | BROKEN | DOTTED => true | _ => false end.

(** The first bar line of the previous measure's end bar line segment
    decides. *)
Fixpoint first_barline_breaks (l : list (option (BarLineType * bool))) : bool :=
  match l with
  | [] => false
  | None :: l' => first_barline_breaks l'
  | Some (t, g) :: _ => negb (normal_barline t) && negb g
  end.

Definition bmr_prev_end (pm m : Measure) : bool :=
  match endBarLines pm with Some l => first_barline_breaks l | None => false end
  || existsb (fun s => match stype s with SClef => (stick s =? mtick m)%Z | _ => false end) (segs pm).

(** [breakMultiMeasureRest(m)], with [m->prevMeasure()] as [pm]. *)
Definition breakMultiMeasureRest (pm : option Measure) (m : Measure) : bool :=
  breakMMR m || repeatStart m
  || match pm with Some p => repeatEnd p || sectionBreak p | None => false end
  || bmr_volta_start m || bmr_marker m
  || match pm with Some p => bmr_prev_el p | None => false end
  || bmr_volta_end m || bmr_segs m
  || match pm with Some p => bmr_prev_end p m | None => false end.

End Break.

(** ** Measure numbering and the run detection of [getNextMeasure] *)

(** The layout stream: measures and boxes (a box carries what
    [adjustMeasureNo] reads of a [MeasureBase]). *)
Inductive Item :=
| IMeasure (m : Measure)
| IBox (bid : nat) (bnoOffset : Z) (birregular bsectionBreak : bool).

(** [lc.measureNo] and the numbers [setNo] gave, latest first. *)
Record Num := mkNum { measureNo : Z; nos : list (nat * Z) }.

Definition no_of (id : nat) (l : list (nat * Z)) : option Z :=
  option_map snd (find (fun p => Nat.eqb (fst p) id) l).

(** [LayoutContext::adjustMeasureNo] *)
Definition adjust (st : Num) (id : nat) (off : Z) (irr sb : bool) : Num :=
  let mn := (measureNo st + off)%Z in
  let mn' := if irr then mn else (mn + 1)%Z in
  mkNum (if sb then 0%Z else mn') ((id, mn) :: nos st).

Definition adjustMeasureNo (st : Num) (m : Measure) : Num :=
  adjust st (mid m) (noOffset m) (irregular m) (sectionBreak m).

Definition adjustItem (st : Num) (it : Item) : Num :=
  match it with
  | IMeasure m => adjustMeasureNo st m
  | IBox id off irr sb => adjust st id off irr sb
  end.

Section Scan.

Variable show : nat -> bool.
Variable voltas : list (Z * Z).

(** The [while (validMMRestMeasure(nm))] loop: the number [n] of
    measures in the run, their length [len], the stream after the last
    one ([lm]), and the numbering. *)
Fixpoint scan (pm : option Measure) (nm : Measure) (rest : list Item)
  (n : nat) (len : Q) (after : list Item) (st : Num) : nat * Q * list Item * Num :=
  if validMMRestMeasure show nm then
    if breakMultiMeasureRest show voltas pm nm && Nat.ltb 0 n then (n, len, after, st)
    else
      let st' := adjustMeasureNo st nm in
      match rest with
      | IMeasure nm' :: rest' => scan (Some nm) nm' rest' (S n) (len + mlen nm)%Q rest st'
      | _ => (S n, (len + mlen nm)%Q, rest, st')
      end
  else (n, len, after, st).

(** What [getNextMeasure] hands to the system collector. *)
Inductive Out := OPlain (it : Item) | OMMRest (first : Measure) (count : nat) (len : Q).

(** The part of [getNextMeasure] after the stream advances (page and
    system modes): number the current item and, for a measure with
    multi-measure rests on, detect the run.  [pm] is the measure before
    the current one ([m->prevMeasure()]). *)
Definition getNextMeasure (createMMR : bool) (minEmpty : nat) (st : Num)
  (pm : option Measure) (cur : Item) (rest : list Item) : Num * Out * list Item :=
  let st1 := adjustItem st cur in
  match cur with
  | IMeasure m =>
      if createMMR then
        (* [lc.measureNo = m->no()] *)
        let st2 := mkNum (measureNo st + noOffset m)%Z (nos st1) in
        let '(n, len, after, st3) := scan pm m rest 0 0%Q rest st2 in
        if Nat.leb minEmpty n then (st3, OMMRest m n len, after)
        else (mkNum (measureNo st1) (nos st3), OPlain cur, rest)
      else (st1, OPlain cur, rest)
  | IBox _ _ _ _ => (st1, OPlain cur, rest)
  end.

End Scan.

(** ** [createMMRest]'s measure count *)

(** [int n = 1; for (mm = m->nextMeasure(); mm; mm = mm->nextMeasure())
    { ++n; mm->setMMRestCount(-1); ...; if (mm == lm) break; }]: the
    count given to the replacement measure and the measures marked as
    replaced, over the measures [next] that follow [m] in the score. *)
Fixpoint mmrest_count (lm : nat) (next : list Measure) (n : nat) : nat * list nat :=
  match next with
  | [] => (n, [])
  | mm :: next' =>
      if Nat.eqb (mid mm) lm then (S n, [mid mm])
      else let '(k, marked) := mmrest_count lm next' (S n) in (k, mid mm :: marked)
  end.

(** What [createMMRest(m, lm, len)] sets on the replacement measure:
    [setMMRestCount(n)], [setLen(len)] and the repeat flags
    merged from [m] and [lm]; with the ids of the measures it marks. *)
Record MMR := mkMMR { mmrCount : nat; mmrLen : Q; mmrRepeatStart : bool; mmrRepeatEnd : bool }.

Definition createMMRest (m lm : Measure) (len : Q) (next : list Measure) : MMR * list nat :=
  let '(n, marked) := mmrest_count (mid lm) next 1 in
  (mkMMR n len (repeatStart m || repeatStart lm) (repeatEnd m || repeatEnd lm), marked).

(** ** Properties of the run detection *)

Section RunProps.

Variable show : nat -> bool.
Variable voltas : list (Z * Z).

(** The measures after the first of a run: each one may be in a
    multi-measure rest and does not force a new one. *)
Fixpoint continues (prev : Measure) (ms : list Measure) : Prop :=
  match ms with
  | [] => True
  | m' :: ms' =>
      validMMRestMeasure show m' = true /\ breakMultiMeasureRest show voltas (Some prev) m' = false
      /\ continues m' ms'
  end.

(** Where a run whose last measure is [lst] ends: at the end of the
    stream, at a box, or at a measure that may not be in a
    multi-measure rest or that forces a new one. *)
Definition stops_run (lst : Measure) (tail : list Item) : Prop :=
  match tail with
  | IMeasure nm :: _ =>
      validMMRestMeasure show nm = false \/ breakMultiMeasureRest show voltas (Some lst) nm = true
  | _ => True
  end.

Lemma last_cons_default {A} (a : A) l d : last (a :: l) d = last l a.
Proof.
  revert a d. induction l as [|b l IH]; intros a d; [reflexivity|].
  change (last (a :: b :: l) d) with (last (b :: l) d). rewrite !IH. reflexivity.
Qed.

Definition run_len (len : Q) (ms : list Measure) : Q := fold_left (fun a m => (a + mlen m)%Q) ms len.

Definition number_run (st : Num) (ms : list Measure) : Num := fold_left adjustMeasureNo ms st.

(** The scan returns what it holds at a measure where the run ends. *)
Lemma scan_stop lst nm rest n len after st :
  validMMRestMeasure show nm = false \/ breakMultiMeasureRest show voltas (Some lst) nm = true ->
  scan show voltas (Some lst) nm rest (S n) len after st = (S n, len, after, st).
Proof.
  intros [Hnv | Hnb]; destruct rest; cbn [scan]; rewrite ?Hnv; try reflexivity;
    destruct (validMMRestMeasure show nm); rewrite ?Hnb; reflexivity.
Qed.

Lemma scan_run ms : forall pm m n len after st tail,
  validMMRestMeasure show m = true -> (n = 0 \/ breakMultiMeasureRest show voltas pm m = false) ->
  continues m ms -> stops_run (last ms m) tail ->
  scan show voltas pm m (map IMeasure ms ++ tail) n len after st
  = (n + S (length ms), run_len len (m :: ms), tail, number_run st (m :: ms)).
Proof.
  induction ms as [|m' ms IH]; intros pm m n len after st tail Hv Hb Hc Ht.
  - destruct tail as [|[m2 | ? ? ? ?] tail]; cbn [scan map app]; rewrite Hv;
    (replace (breakMultiMeasureRest show voltas pm m && Nat.ltb 0 n) with false
      by (destruct Hb as [-> | ->]; [simpl; rewrite andb_false_r | ]; reflexivity));
    rewrite ?Nat.add_1_r; try reflexivity.
    rewrite (scan_stop m m2 tail n) by exact Ht. reflexivity.
  - cbn [scan map app]. rewrite Hv.
    replace (breakMultiMeasureRest show voltas pm m && Nat.ltb 0 n) with false
      by (destruct Hb as [-> | ->]; [simpl; rewrite andb_false_r | ]; reflexivity).
    destruct Hc as (Hv' & Hb' & Hc').
    rewrite last_cons_default in Ht.
    rewrite (IH (Some m) m' (S n) (len + mlen m)%Q _ (adjustMeasureNo st m) tail Hv' (or_intror Hb') Hc' Ht).
    replace (S n + S (length ms)) with (n + S (length (m' :: ms))) by (simpl; lia). reflexivity.
Qed.

(** C36. The run detection of [getNextMeasure]: a first measure that
    may be in a multi-measure rest, followed by measures that may be too
    and force no new rest, up to where the run ends (the end of the
    stream, a box, or a measure that may not be in a multi-measure rest
    or that forces a new one, which is not counted), is replaced by one
    multi-measure rest counting all of them, with their total length,
    and the stream continues after the run, when the run reaches
    [minEmptyMeasures]; below it, the first measure is laid out alone,
    the stream goes on after it and [lc.measureNo] is restored. *)
Theorem getNextMeasure_collapse minEmpty st pm m ms tail :
  validMMRestMeasure show m = true -> continues m ms -> stops_run (last ms m) tail ->
  (minEmpty <= S (length ms) ->
     exists st', getNextMeasure show voltas true minEmpty st pm (IMeasure m) (map IMeasure ms ++ tail)
                 = (st', OMMRest m (S (length ms)) (run_len 0%Q (m :: ms)), tail))
  /\ (S (length ms) < minEmpty ->
     exists l, getNextMeasure show voltas true minEmpty st pm (IMeasure m) (map IMeasure ms ++ tail)
               = (mkNum (measureNo (adjustMeasureNo st m)) l, OPlain (IMeasure m), map IMeasure ms ++ tail)).
Proof.
  intros Hv Hc Ht. unfold getNextMeasure. cbn [adjustItem].
  rewrite (scan_run ms pm m 0 0%Q _ _ tail Hv (or_introl eq_refl) Hc Ht). simpl Nat.add.
  split; intros Hle.
  - rewrite (proj2 (Nat.leb_le _ _) Hle). eexists. reflexivity.
  - rewrite (proj2 (Nat.leb_gt _ _) Hle). eexists. reflexivity.
Qed.

Definition item_id (it : Item) : nat := match it with IMeasure m => mid m | IBox id _ _ _ => id end.

Lemma scan_keeps id rest : forall pm nm n len after st,
  mid nm <> id -> Forall (fun it => item_id it <> id) rest ->
  no_of id (nos (snd (scan show voltas pm nm rest n len after st))) = no_of id (nos st).
Proof.
  induction rest as [|it rest IH]; intros pm nm n len after st Hn Hr.
  - cbn [scan]. destruct (validMMRestMeasure show nm); [destruct (_ && _)|]; simpl; try reflexivity.
    unfold no_of. simpl. rewrite (proj2 (Nat.eqb_neq _ _) Hn). reflexivity.
  - inversion Hr as [|? ? Hit Hrest]; subst. cbn [scan].
    destruct (validMMRestMeasure show nm); [destruct (_ && _)|]; try reflexivity.
    destruct it as [nm'|]; simpl.
    + rewrite (IH _ nm' _ _ _ _ Hit Hrest). unfold no_of. simpl. rewrite (proj2 (Nat.eqb_neq _ _) Hn). reflexivity.
    + unfold no_of. simpl. rewrite (proj2 (Nat.eqb_neq _ _) Hn). reflexivity.
Qed.

(** C37. With multi-measure rests on, the first measure of every
    candidate run has its number offset ([noOffset]) applied twice:
    [getNextMeasure] numbers it once, sets [lc.measureNo = m->no()],
    which already includes the offset, and numbers it again in the
    scan, so [m->no()] ends up [measureNo + 2 * noOffset] whether or
    not the rest is created. *)
Theorem getNextMeasure_double_offset minEmpty st pm m rest :
  validMMRestMeasure show m = true -> Forall (fun it => item_id it <> mid m) rest ->
  no_of (mid m) (nos (fst (fst (getNextMeasure show voltas true minEmpty st pm (IMeasure m) rest))))
  = Some (measureNo st + 2 * noOffset m)%Z.
Proof.
  intros Hv Hr. unfold getNextMeasure. cbn [adjustItem].
  assert (Hs : no_of (mid m) (nos (snd (scan show voltas pm m rest 0 0%Q rest
                 (mkNum (measureNo st + noOffset m) (nos (adjustMeasureNo st m))))))
               = Some (measureNo st + noOffset m + noOffset m)%Z).
  { destruct rest as [|it rest]; cbn [scan]; rewrite Hv;
      replace (Nat.ltb 0 0) with false by reflexivity; rewrite andb_false_r; simpl.
    - unfold no_of. simpl. rewrite Nat.eqb_refl. reflexivity.
    - inversion Hr as [|? ? Hit Hrest]; subst. destruct it as [nm'|]; simpl.
      + rewrite scan_keeps by assumption. unfold no_of. simpl. rewrite Nat.eqb_refl. reflexivity.
      + unfold no_of. simpl. rewrite Nat.eqb_refl. reflexivity. }
  destruct (scan show voltas pm m rest 0 0%Q rest _) as [[[n len] after] st3]. simpl in Hs.
  destruct (Nat.leb minEmpty n); cbn [fst snd nos]; rewrite Hs; f_equal; lia.
Qed.

Lemma number_run_measureNo ms : forall st st',
  measureNo st = measureNo st' -> measureNo (number_run st ms) = measureNo (number_run st' ms).
Proof.
  induction ms as [|m ms IH]; intros st st' E; simpl; [exact E|].
  apply IH. unfold adjustMeasureNo, adjust. simpl. rewrite E. reflexivity.
Qed.

(** Collapsing a run keeps the measure count going as if its
    measures were laid out one by one (when the first one has no number
    offset): after the multi-measure rest, [lc.measureNo] is the number
    [adjustMeasureNo] reaches over the run's measures. *)
Theorem getNextMeasure_numbering minEmpty st pm m ms tail :
  validMMRestMeasure show m = true -> continues m ms -> stops_run (last ms m) tail ->
  noOffset m = 0%Z -> minEmpty <= S (length ms) ->
  measureNo (fst (fst (getNextMeasure show voltas true minEmpty st pm (IMeasure m) (map IMeasure ms ++ tail))))
  = measureNo (number_run st (m :: ms)).
Proof.
  intros Hv Hc Ht Ho Hle. unfold getNextMeasure. cbn [adjustItem].
  rewrite (scan_run ms pm m 0 0%Q _ _ tail Hv (or_introl eq_refl) Hc Ht). simpl Nat.add.
  rewrite (proj2 (Nat.leb_le _ _) Hle). cbn [fst].
  apply number_run_measureNo. simpl. rewrite Ho. apply Z.add_0_r.
Qed.

End RunProps.

Lemma mmrest_count_found pre lm later : forall n,
  ~ In (mid lm) (map mid pre) ->
  mmrest_count (mid lm) (pre ++ lm :: later) n = (n + S (length pre), map mid pre ++ [mid lm]).
Proof.
  induction pre as [|mm pre IH]; intros n Hn; simpl.
  - rewrite Nat.eqb_refl, Nat.add_1_r. reflexivity.
  - simpl in Hn. destruct (Nat.eqb_spec (mid mm) (mid lm)) as [E|E]; [exfalso; apply Hn; left; exact E|].
    rewrite IH by tauto. f_equal. lia.
Qed.

Lemma mmrest_count_absent id next : forall n,
  ~ In id (map mid next) -> mmrest_count id next n = (n + length next, map mid next).
Proof.
  induction next as [|mm next IH]; intros n Hn; simpl; [rewrite Nat.add_0_r; reflexivity|].
  simpl in Hn. destruct (Nat.eqb_spec (mid mm) id) as [E|E]; [exfalso; apply Hn; left; exact E|].
  rewrite IH by tauto. f_equal. lia.
Qed.

(** [createMMRest(m, lm, len)] for a run of two or more measures
    ends its counting loop at [lm]: the replacement measure counts the
    run's measures (as many as the scan found) and only the measures
    after [m] up to [lm] are marked as replaced. *)
Theorem createMMRest_count m pre lm later len :
  ~ In (mid lm) (map mid pre) ->
  createMMRest m lm len (pre ++ lm :: later)
  = (mkMMR (S (S (length pre))) len (repeatStart m || repeatStart lm) (repeatEnd m || repeatEnd lm),
     map mid pre ++ [mid lm]).
Proof.
  intros Hn. unfold createMMRest. rewrite mmrest_count_found by exact Hn. reflexivity.
Qed.

(** C38. For a run of a single measure ([lm == m], which
    [getNextMeasure] collapses when [minEmptyMeasures] is at most 1),
    [createMMRest]'s loop starts after [m] and never meets [lm]: the
    replacement measure counts every measure to the end of the score
    and all of them are marked as replaced. *)
Theorem createMMRest_single_run m len next :
  ~ In (mid m) (map mid next) ->
  createMMRest m m len next
  = (mkMMR (S (length next)) len (repeatStart m || repeatStart m) (repeatEnd m || repeatEnd m), map mid next).
Proof.
  intros Hn. unfold createMMRest. rewrite mmrest_count_absent by exact Hn. reflexivity.
Qed.

End MMRest.

Import MMRest.

(** Empty 4/4 measures of 1920 ticks: one chord-rest segment holding a
    rest in the first voice of the only staff. *)
Definition wit_show (i : nat) : bool := true.
Definition wit_rest : Elem := mkElem ERest 0 false.
Definition wit_measure (off : Z) (i : nat) : Measure :=
  let t := (Z.of_nat i * 1920)%Z in
  mkMeasure i false off false false false false t (t + 1920)%Z 1
    [mkSeg SChordRest t [] [[Some wit_rest; None; None; None]]] [] None.
Definition wit_run : list Measure := map (wit_measure 0) (seq 1 7).
Definition wit_num : Num := mkNum 1 [].

Lemma wit_run_continues : continues wit_show [] (wit_measure 0 0) wit_run.
Proof. simpl. repeat split; vm_compute; reflexivity. Qed.

(** Measure 8 holds a chord: the run of measures 0 to 7 ends there. *)
Definition wit_chord_measure : Measure :=
  mkMeasure 8 false 0 false false false false 15360 17280 1
    [mkSeg SChordRest 15360 [] [[Some (mkElem EChord 0 false); None; None; None]]] [] None.

Lemma getNextMeasure_collapse_witness :
  exists st', getNextMeasure wit_show [] true 2 wit_num None (IMeasure (wit_measure 0 0))
                (map IMeasure wit_run ++ [IMeasure wit_chord_measure])
              = (st', OMMRest (wit_measure 0 0) 8 (run_len 0%Q (wit_measure 0 0 :: wit_run)),
                 [IMeasure wit_chord_measure]).
Proof.
  refine (proj1 (getNextMeasure_collapse wit_show [] 2 wit_num None (wit_measure 0 0) wit_run
                   [IMeasure wit_chord_measure] eq_refl wit_run_continues (or_introl eq_refl)) _).
  simpl. lia.
Defined.

Lemma getNextMeasure_double_offset_witness :
  no_of 0 (nos (fst (fst (getNextMeasure wit_show [] true 2 wit_num None (IMeasure (wit_measure 5 0))
                              (map IMeasure wit_run)))))
  = Some (1 + 2 * 5)%Z.
Proof.
  apply (getNextMeasure_double_offset wit_show [] 2 wit_num None (wit_measure 5 0) (map IMeasure wit_run)).
  - reflexivity.
  - simpl. repeat constructor; discriminate.
Defined.

Lemma getNextMeasure_numbering_witness :
  measureNo (fst (fst (getNextMeasure wit_show [] true 2 wit_num None (IMeasure (wit_measure 0 0))
                         (map IMeasure wit_run ++ []))))
  = measureNo (number_run wit_num (wit_measure 0 0 :: wit_run)).
Proof.
  apply getNextMeasure_numbering; [reflexivity | exact wit_run_continues | exact I | reflexivity | simpl; lia].
Defined.

Lemma createMMRest_count_witness :
  createMMRest (wit_measure 0 0) (wit_measure 0 3) 4 ([wit_measure 0 1; wit_measure 0 2] ++ wit_measure 0 3 :: [])
  = (mkMMR 4 4 false false, [1; 2; 3]).
Proof. apply createMMRest_count. simpl. lia. Defined.

Lemma createMMRest_single_run_witness :
  createMMRest (wit_measure 0 0) (wit_measure 0 0) 1 wit_run = (mkMMR 8 1 false false, seq 1 7).
Proof. apply createMMRest_single_run. simpl. lia. Defined.
