(* ===== verification/MMRestContent.v ===== *)
(** * The content of a multi-measure rest ([Score::createMMRest], second part)

    After counting the run and sizing the replacement measure [mmr]
    (modelled in [MMRest.v]), [createMMRest(m, lm, len)] (layout.cpp
    2199-2406) makes [mmr] show what the run shows: the end bar lines of
    [lm], the repeat flags of both ends, the measure elements of [lm]
    and the markers of [m], a full-measure rest on every staff, the
    clefs at the end of [lm], the time signatures, ambitus and key
    signatures at the start of [m], and the rehearsal marks, tempo
    texts, chord symbols and staff texts at the start of [m].

    A segment is [None] when absent, else its element per staff (the
    staff's first track, [staffIdx * VOICES], the only one the code
    reads); [undoGetSegment] makes an empty one.  Cloning an element
    copies its value.  The undo stack is not kept: [undo(new ...)] and
    [undoAddElement] do what they record.  [Segment::annotations()]
    returns the segment's own vector (segment.h), which
    [undo(new RemoveElement(e))] erases from while the last loop walks
    it: the loop is modelled as the range-for it is, over the live
    vector with its end fixed when the loop starts; reading past the
    live end is [None]. *)

From Stdlib Require Import QArith ZArith List Lia Bool Arith.
From S2P Require Import Prelude.
Import ListNotations.
Open Scope nat_scope.

Module MMRestContent.

Record BarLine := mkBarLine { barLineType : nat; bl_generated : bool }.
Record TimeSig := mkTimeSig { sig : nat * nat; timeSigType : nat }.
Record KeySigEvent := mkKeySigEvent { key : Z; custom : bool; isAtonal : bool }.
Record KeySig := mkKeySig { keySigEvent : KeySigEvent; showCourtesy : bool }.

(** [KeySigEvent::operator==]. *)
Definition kse_eqb (a b : KeySigEvent) : bool :=
  Z.eqb (key a) (key b) && Bool.eqb (custom a) (custom b) && Bool.eqb (isAtonal a) (isAtonal b).

(** What a chord-rest segment holds on a staff: a rest of a duration
    or another chord-rest. *)
Inductive CRElem := CRRest (dur : Q) | COther.

Inductive AnnType := RehearsalMark | TempoText | Harmony | StaffText | OtherAnn (n : nat).
Record Ann := mkAnn { atype : AnnType; atrack : nat; acontent : nat }.

Inductive ElemType := EMarker | EJump | ELayoutBreak | EOtherElem (n : nat).
Record Elem := mkElem { etype : ElemType; econtent : nat }.

Definition AnnType_eqb (a b : AnnType) : bool :=
  match a, b with
  | RehearsalMark, RehearsalMark | TempoText, TempoText | Harmony, Harmony | StaffText, StaffText => true
  | OtherAnn x, OtherAnn y => Nat.eqb x y
  | _, _ => false
  end.

Definition ElemType_eqb (a b : ElemType) : bool :=
  match a, b with
  | EMarker, EMarker | EJump, EJump | ELayoutBreak, ELayoutBreak => true
  | EOtherElem x, EOtherElem y => Nat.eqb x y
  | _, _ => false
  end.

(** A segment's elements, per staff. *)
Definition Slots (X : Type) := nat -> option X.

Definition empty_slots {X} : Slots X := fun _ => None.

Definition upd {X} (sl : Slots X) (i : nat) (x : X) : Slots X :=
  fun j => if Nat.eqb j i then Some x else sl j.

(** What [createMMRest] reads of [m] and [lm]. *)
Record Run := mkRun {
  m_timeSig : option (Slots TimeSig);       (** [m->findSegment(TimeSig, m->tick())] *)
  m_ambitus : option (Slots nat);           (** [m->findSegment(Ambitus, m->tick())] *)
  m_keySig : option (Slots KeySig);         (** [m->findSegment(KeySig, m->tick())] *)
  m_crAnns : option (list Ann);             (** [m->findSegment(ChordRest, m->tick())]'s annotations *)
  m_el : list Elem;
  m_repeatStart : bool; m_repeatEnd : bool;
  lm_endBarLine : option (Slots BarLine);   (** [lm->findSegment(EndBarLine, lm->endTick())] *)
  lm_clef : option (Slots nat);             (** [lm->findSegment(Clef, lm->endTick())] *)
  lm_el : list Elem;
  lm_repeatStart : bool; lm_repeatEnd : bool }.

(** The replacement measure. *)
Record MMR := mkMMR {
  endBarLine : option (Slots BarLine);
  crElems : option (Slots CRElem);          (** the chord-rest segment at [mmr->tick()] ... *)
  crAnns : list Ann;                        (** ... and its annotations *)
  clefSeg : option (Slots nat);
  timeSigSeg : option (Slots TimeSig);
  ambitusSeg : option (Slots nat);
  keySigSeg : option (Slots KeySig);
  elems : list Elem;
  repeatStart : bool; repeatEnd : bool;
  mlen : Q }.

Section Content.

(** [nstaves()] and [_staves.size()]. *)
Variable nstaves : nat.

(** A loop over the staves that updates one segment's slots. *)
Definition staff_loop {X} (body : Slots X -> nat -> Slots X) (sl : Slots X) : Slots X :=
  fold_left body (seq 0 nstaves) sl.

(** Lines 2199-2220: the end bar lines of [lm]. *)
Definition barline_body (ss : Slots BarLine) (ds : Slots BarLine) (i : nat) : Slots BarLine :=
  match ss i with
  | Some bs =>
      match ds i with
      | None => upd ds i bs
      | Some bd => if Nat.eqb (barLineType bd) (barLineType bs) then ds
                   else upd ds i (mkBarLine (barLineType bs) true)
      end
  | None => ds
  end.

Definition sync_barlines (r : Run) (ebl : option (Slots BarLine)) : option (Slots BarLine) :=
  match lm_endBarLine r with
  | Some ss => Some (staff_loop (barline_body ss) (match ebl with Some ds => ds | None => empty_slots end))
  | None => ebl
  end.

(** Lines 2225-2248: [newList] is [lm]'s elements and [m]'s markers; each
    takes the first old element of its type if any, else is cloned. *)
Fixpoint take_type (t : ElemType) (old : list Elem) : option (Elem * list Elem) :=
  match old with
  | [] => None
  | ee :: rest => if ElemType_eqb (etype ee) t then Some (ee, rest)
                  else option_map (fun '(x, r) => (x, ee :: r)) (take_type t rest)
  end.

Fixpoint sync_elems (newList old : list Elem) : list Elem :=
  match newList with
  | [] => []
  | e :: rest =>
      match take_type (etype e) old with
      | Some (ee, old') => ee :: sync_elems rest old'
      | None => e :: sync_elems rest old
      end
  end.

Definition is_marker (e : Elem) : bool := match etype e with EMarker => true | _ => false end.

Definition newList (r : Run) : list Elem := lm_el r ++ filter is_marker (m_el r).

(** Lines 2249-2260: a measure rest on every staff without an element. *)
Definition rest_body (len : Q) (s : Slots CRElem) (i : nat) : Slots CRElem :=
  match s i with Some _ => s | None => upd s i (CRRest len) end.

(** Lines 2265-2283: the clefs at the end of [lm]; a clef already there
    is kept ("TODO: check if same clef"). *)
Definition clef_body (cs : Slots nat) (ns : Slots nat) (i : nat) : Slots nat :=
  match cs i with
  | Some c => match ns i with None => upd ns i c | Some _ => ns end
  | None => ns
  end.

Definition sync_clefs (r : Run) (ns : option (Slots nat)) : option (Slots nat) :=
  match lm_clef r with
  | Some cs => Some (staff_loop (clef_body cs) (match ns with Some n => n | None => empty_slots end))
  | None => None
  end.

(** Lines 2288-2311: the time signatures ([setSig] on an existing one). *)
Definition timesig_body (cs : Slots TimeSig) (ns : Slots TimeSig) (i : nat) : Slots TimeSig :=
  match cs i with
  | Some ts => match ns i with
               | None => upd ns i ts
               | Some _ => upd ns i (mkTimeSig (sig ts) (timeSigType ts))
               end
  | None => ns
  end.

Definition sync_timesigs (r : Run) (ns : option (Slots TimeSig)) : option (Slots TimeSig) :=
  match m_timeSig r with
  | Some cs => Some (staff_loop (timesig_body cs) (match ns with Some n => n | None => empty_slots end))
  | None => None
  end.

(** Lines 2316-2339: the ambitus ([initFrom] on an existing one). *)
Definition ambitus_body (cs : Slots nat) (ns : Slots nat) (i : nat) : Slots nat :=
  match cs i with Some a => upd ns i a | None => ns end.

Definition sync_ambitus (r : Run) (ns : option (Slots nat)) : option (Slots nat) :=
  match m_ambitus r with
  | Some cs => Some (staff_loop (ambitus_body cs) (match ns with Some n => n | None => empty_slots end))
  | None => None
  end.

(** Lines 2344-2368: the key signatures ([ChangeKeySig] keeps the
    existing one's [showCourtesy]); without key signatures in [m] the
    segment is removed only when it is empty. *)
Definition keysig_body (cs : Slots KeySig) (ns : Slots KeySig) (i : nat) : Slots KeySig :=
  match cs i with
  | Some ts => match ns i with
               | None => upd ns i ts
               | Some nts => if kse_eqb (keySigEvent nts) (keySigEvent ts) then ns
                             else upd ns i (mkKeySig (keySigEvent ts) (showCourtesy nts))
               end
  | None => ns
  end.

Definition slots_empty {X} (sl : Slots X) : bool :=
  forallb (fun i => match sl i with Some _ => false | None => true end) (seq 0 nstaves).

Definition sync_keysigs (r : Run) (ns : option (Slots KeySig)) : option (Slots KeySig) :=
  match m_keySig r with
  | Some cs => Some (staff_loop (keysig_body cs) (match ns with Some n => n | None => empty_slots end))
  | None => match ns with Some n => if slots_empty n then None else Some n | None => None end
  end.

(** Lines 2373-2392: the rehearsal marks, tempo texts, chord symbols
    and staff texts of [m]'s first chord-rest segment missing from
    [mmr]'s (same type and track) are added to it. *)
Definition kind_ok (a : Ann) : bool :=
  match atype a with RehearsalMark | TempoText | Harmony | StaffText => true | OtherAnn _ => false end.

Definition same_slot (a b : Ann) : bool := AnnType_eqb (atype a) (atype b) && Nat.eqb (atrack a) (atrack b).

Definition add_anns (cs : list Ann) (sa : list Ann) : list Ann :=
  fold_left (fun sa e => if kind_ok e then if existsb (same_slot e) sa then sa else sa ++ [e] else sa) cs sa.

Fixpoint remove_at {A} (i : nat) (l : list A) : list A :=
  match l, i with
  | [], _ => []
  | _ :: t, O => t
  | x :: t, S i => x :: remove_at i t
  end.

(** Lines 2394-2406: the range-for over [s->annotations()], [i] the
    iterator's index into the live vector, [fuel] the iterations left
    before the end fixed at the start; [RemoveElement] erases from that
    vector.  [None]: the loop reads past the live end, or dereferences a
    null [cs]. *)
Fixpoint remove_loop (fuel i : nat) (cs : option (list Ann)) (v : list Ann) : option (list Ann) :=
  match fuel with
  | O => Some v
  | S fuel =>
      match nth_error v i with
      | None => None
      | Some e =>
          if kind_ok e then
            match cs with
            | None => None
            | Some csl => if existsb (same_slot e) csl then remove_loop fuel (S i) cs v
                          else remove_loop fuel (S i) cs (remove_at i v)
            end
          else remove_loop fuel (S i) cs v
      end
  end.

Definition remove_anns (cs : option (list Ann)) (v : list Ann) : option (list Ann) :=
  remove_loop (length v) O cs v.

(** Lines 2199-2406: [mmr] after [createMMRest] has filled it, or
    [None] where the code's behaviour is undefined. *)
Definition createMMRest_content (r : Run) (mm : MMR) : option MMR :=
  let ebl := sync_barlines r (endBarLine mm) in
  let els := sync_elems (newList r) (elems mm) in
  let cr := staff_loop (rest_body (mlen mm)) (match crElems mm with Some s => s | None => empty_slots end) in
  let clefs := sync_clefs r (clefSeg mm) in
  let tss := sync_timesigs r (timeSigSeg mm) in
  let ambs := sync_ambitus r (ambitusSeg mm) in
  let kss := sync_keysigs r (keySigSeg mm) in
  let anns1 := match m_crAnns r with Some csl => add_anns csl (crAnns mm) | None => crAnns mm end in
  match remove_anns (m_crAnns r) anns1 with
  | None => None
  | Some anns => Some (mkMMR ebl (Some cr) anns clefs tss ambs kss els
                             (m_repeatStart r || lm_repeatStart r) (m_repeatEnd r || lm_repeatEnd r) (mlen mm))
  end.

(** ** Loops over the staves *)

(** A body that only writes the slot of its staff. *)
Definition local {X} (body : Slots X -> nat -> Slots X) : Prop :=
  forall sl i j, j <> i -> body sl i j = sl j.

Lemma fold_frame {X} (body : Slots X -> nat -> Slots X) L sl j :
  local body -> ~ In j L -> fold_left body L sl j = sl j.
Proof.
  intros Hl. revert sl; induction L as [|i L IH]; intros sl Hj; [reflexivity|]. simpl.
  rewrite IH by (intros H; apply Hj; right; exact H). apply Hl. intros <-. apply Hj. left. reflexivity.
Qed.

Lemma fold_slot {X} (body : Slots X -> nat -> Slots X) (P : nat -> option X -> Prop) L sl i :
  local body -> (forall sl', sl' i = sl i -> P i (body sl' i i)) -> NoDup L -> In i L ->
  P i (fold_left body L sl i).
Proof.
  intros Hl. revert sl; induction L as [|a L IH]; intros sl HP Hn Hi; [destruct Hi|]. simpl.
  inversion Hn as [|? ? Ha Hn']; subst. destruct Hi as [<-|Hi].
  - rewrite fold_frame by assumption. apply HP. reflexivity.
  - apply IH; [|assumption|assumption]. intros sl' E. apply HP. rewrite E. apply Hl.
    intros <-. contradiction.
Qed.

(** After the loop, staff [i] holds what the body makes of its slot as
    it was before the loop. *)
Lemma staff_loop_slot {X} (body : Slots X -> nat -> Slots X) (P : nat -> option X -> Prop) sl i :
  local body -> (forall sl', sl' i = sl i -> P i (body sl' i i)) -> i < nstaves -> P i (staff_loop body sl i).
Proof. intros Hl HP Hi. unfold staff_loop. apply fold_slot; [assumption | assumption | apply seq_NoDup | apply in_seq; lia]. Qed.

Lemma upd_same {X} (sl : Slots X) i x : upd sl i x i = Some x.
Proof. unfold upd. rewrite Nat.eqb_refl. reflexivity. Qed.

Lemma upd_other {X} (sl : Slots X) i j x : j <> i -> upd sl i x j = sl j.
Proof. intros H. unfold upd. destruct (Nat.eqb_spec j i); [contradiction | reflexivity]. Qed.

Ltac local_tac :=
  let sl := fresh "sl" in let i := fresh "i" in let j := fresh "j" in let H := fresh "H" in
  intros sl i j H; cbv beta delta [barline_body rest_body clef_body timesig_body ambitus_body keysig_body];
  repeat match goal with
         | |- context [match ?x with _ => _ end] => destruct x
         | _ => rewrite upd_other by exact H
         end; reflexivity.

Lemma barline_local ss : local (barline_body ss). Proof. local_tac. Qed.
Lemma rest_local len : local (rest_body len). Proof. local_tac. Qed.
Lemma clef_local cs : local (clef_body cs). Proof. local_tac. Qed.
Lemma timesig_local cs : local (timesig_body cs). Proof. local_tac. Qed.
Lemma ambitus_local cs : local (ambitus_body cs). Proof. local_tac. Qed.
Lemma keysig_local cs : local (keysig_body cs). Proof. local_tac. Qed.

Lemma kse_eqb_eq a b : kse_eqb a b = true -> a = b.
Proof.
  destruct a as [k1 c1 a1], b as [k2 c2 a2]. unfold kse_eqb. simpl.
  intros H. apply andb_prop in H as [H H3]. apply andb_prop in H as [H1 H2].
  apply Z.eqb_eq in H1. apply Bool.eqb_prop in H2. apply Bool.eqb_prop in H3. subst. reflexivity.
Qed.

(** What each body leaves on its staff. *)
Lemma barline_slot ss ds i bs : ss i = Some bs ->
  exists bd, barline_body ss ds i i = Some bd /\ barLineType bd = barLineType bs.
Proof.
  intros E. unfold barline_body. rewrite E. destruct (ds i) as [bd|] eqn:D.
  - destruct (Nat.eqb_spec (barLineType bd) (barLineType bs)); [exists bd; auto|].
    rewrite upd_same. eexists; split; reflexivity.
  - rewrite upd_same. exists bs. auto.
Qed.

Lemma rest_slot len s i : rest_body len s i i <> None.
Proof. unfold rest_body. destruct (s i) eqn:E; [rewrite E | rewrite upd_same]; discriminate. Qed.

Lemma clef_slot cs ns i c : cs i = Some c ->
  clef_body cs ns i i = Some (match ns i with Some c0 => c0 | None => c end).
Proof. intros E. unfold clef_body. rewrite E. destruct (ns i) eqn:N; [exact N | apply upd_same]. Qed.

Lemma timesig_slot cs ns i ts : cs i = Some ts -> timesig_body cs ns i i = Some ts.
Proof. intros E. unfold timesig_body. rewrite E. destruct (ns i); rewrite upd_same; [destruct ts|]; reflexivity. Qed.

Lemma ambitus_slot cs ns i a : cs i = Some a -> ambitus_body cs ns i i = Some a.
Proof. intros E. unfold ambitus_body. rewrite E. apply upd_same. Qed.

Lemma keysig_slot cs ns i ks : cs i = Some ks ->
  exists k, keysig_body cs ns i i = Some k /\ keySigEvent k = keySigEvent ks.
Proof.
  intros E. unfold keysig_body. rewrite E. destruct (ns i) as [nts|] eqn:N.
  - destruct (kse_eqb (keySigEvent nts) (keySigEvent ks)) eqn:K; [exists nts; split; [exact N | apply kse_eqb_eq; exact K]|].
    rewrite upd_same. eexists; split; reflexivity.
  - rewrite upd_same. exists ks. auto.
Qed.

(** What staff [i] of [mm'] shows of the run, [mm] being the measure
    before. *)
Definition shows_run (r : Run) (mm mm' : MMR) (i : nat) : Prop :=
  (forall ss bs, lm_endBarLine r = Some ss -> ss i = Some bs ->
     exists ds, endBarLine mm' = Some ds /\ exists bd, ds i = Some bd /\ barLineType bd = barLineType bs)
  /\ (exists s, crElems mm' = Some s /\ s i <> None)
  /\ (forall cs ts, m_timeSig r = Some cs -> cs i = Some ts -> exists ns, timeSigSeg mm' = Some ns /\ ns i = Some ts)
  /\ (forall cs a, m_ambitus r = Some cs -> cs i = Some a -> exists ns, ambitusSeg mm' = Some ns /\ ns i = Some a)
  /\ (forall cs ks, m_keySig r = Some cs -> cs i = Some ks ->
        exists ns, keySigSeg mm' = Some ns /\ exists k, ns i = Some k /\ keySigEvent k = keySigEvent ks)
  /\ (forall cs c, lm_clef r = Some cs -> cs i = Some c ->
        exists ns, clefSeg mm' = Some ns
          /\ ns i = Some (match clefSeg mm with Some o => match o i with Some c0 => c0 | None => c end | None => c end))
  /\ (m_timeSig r = None -> timeSigSeg mm' = None) /\ (m_ambitus r = None -> ambitusSeg mm' = None)
  /\ (lm_clef r = None -> clefSeg mm' = None)
  /\ repeatStart mm' = m_repeatStart r || lm_repeatStart r /\ repeatEnd mm' = m_repeatEnd r || lm_repeatEnd r.

(** C23. After [createMMRest] has filled the replacement measure, every
    staff of it shows what the run shows: the end bar line type of
    [lm], a rest or chord-rest, the time signature and ambitus of [m],
    its key (with the existing key signature's courtesy flag), and the
    clef at the end of [lm] unless the measure already had a clef there
    (which is kept); without time signatures, ambitus or clefs in the
    run, the measure has none; its repeat flags are those of either
    end. *)
Theorem createMMRest_content_staves r mm mm' i :
  createMMRest_content r mm = Some mm' -> i < nstaves -> shows_run r mm mm' i.
Proof.
  unfold createMMRest_content. destruct (remove_anns _ _) as [anns|]; [|discriminate].
  intros E Hi. injection E as <-. unfold shows_run. cbn [endBarLine crElems timeSigSeg ambitusSeg keySigSeg clefSeg repeatStart repeatEnd].
  unfold sync_barlines, sync_timesigs, sync_ambitus, sync_keysigs, sync_clefs.
  refine (conj _ (conj _ (conj _ (conj _ (conj _ (conj _ (conj _ (conj _ (conj _ (conj eq_refl eq_refl)))))))))).
  - intros ss bs -> Hs. eexists. split; [reflexivity|].
    apply (staff_loop_slot _ (fun i o => exists bd, o = Some bd /\ barLineType bd = barLineType bs));
      [apply barline_local | intros sl _; apply barline_slot, Hs | exact Hi].
  - eexists. split; [reflexivity|].
    apply (staff_loop_slot _ (fun i o => o <> None)); [apply rest_local | intros sl _; apply rest_slot | exact Hi].
  - intros cs ts -> Hc. eexists. split; [reflexivity|].
    apply (staff_loop_slot _ (fun i o => o = Some ts)); [apply timesig_local | intros sl _; apply timesig_slot, Hc | exact Hi].
  - intros cs a -> Hc. eexists. split; [reflexivity|].
    apply (staff_loop_slot _ (fun i o => o = Some a)); [apply ambitus_local | intros sl _; apply ambitus_slot, Hc | exact Hi].
  - intros cs ks -> Hc. eexists. split; [reflexivity|].
    apply (staff_loop_slot _ (fun i o => exists k, o = Some k /\ keySigEvent k = keySigEvent ks));
      [apply keysig_local | intros sl _; apply keysig_slot, Hc | exact Hi].
  - intros cs c -> Hc. eexists. split; [reflexivity|].
    apply (staff_loop_slot _ (fun i o => o = Some (match clefSeg mm with
                                                     | Some o => match o i with Some c0 => c0 | None => c end
                                                     | None => c end)));
      [apply clef_local | | exact Hi].
    intros sl E. rewrite (clef_slot cs sl i c Hc), E. destruct (clefSeg mm); reflexivity.
  - intros ->. reflexivity.
  - intros ->. reflexivity.
  - intros ->. reflexivity.
Qed.

(** ** The annotation loop erases from the vector it walks *)

(** An annotation the second loop removes. *)
Definition stale (cs : list Ann) (e : Ann) : bool := kind_ok e && negb (existsb (same_slot e) cs).

Fixpoint first_stale (cs : list Ann) (l : list Ann) : option nat :=
  match l with
  | [] => None
  | e :: t => if stale cs e then Some O else option_map S (first_stale cs t)
  end.

Lemma length_remove_at {A} i (l : list A) : i < length l -> length (remove_at i l) = length l - 1.
Proof. revert i; induction l as [|x l IH]; intros [|i] H; simpl in *; try lia. rewrite IH by lia. lia. Qed.

Lemma skipn_nth_error {A} i (l : list A) e : nth_error l i = Some e -> skipn i l = e :: skipn (S i) l.
Proof. revert i; induction l as [|x l IH]; intros [|i] H; simpl in *; try discriminate; [congruence | apply IH, H]. Qed.

Lemma remove_loop_overrun cs f : forall j v, 0 < f -> length v < j + f -> remove_loop f j (Some cs) v = None.
Proof.
  induction f as [|f IH]; intros j v Hf Hl; [lia|]. simpl.
  destruct (nth_error v j) as [e|] eqn:E; [|reflexivity].
  assert (Hj : j < length v) by (apply nth_error_Some; congruence).
  destruct f as [|f]; [lia|].
  destruct (kind_ok e); [destruct (existsb (same_slot e) cs)|]; apply IH; try lia.
  rewrite length_remove_at by exact Hj. lia.
Qed.

Lemma remove_loop_spec cs f : forall i v, i + f = length v ->
  remove_loop f i (Some cs) v
  = match first_stale cs (skipn i v) with
    | None => Some v
    | Some k => if Nat.eqb (S (i + k)) (length v) then Some (remove_at (i + k) v) else None
    end.
Proof.
  induction f as [|f IH]; intros i v Hl.
  - rewrite Nat.add_0_r in Hl. subst i. rewrite skipn_all. reflexivity.
  - destruct (nth_error v i) as [e|] eqn:E; [|apply nth_error_None in E; lia].
    simpl remove_loop. rewrite E, (skipn_nth_error i v e E). cbn [first_stale]. unfold stale.
    assert (Hi : i < length v) by (apply nth_error_Some; congruence).
    destruct (kind_ok e) eqn:K; [destruct (existsb (same_slot e) cs) eqn:X|]; cbn [andb negb].
    + rewrite IH by lia. destruct (first_stale cs (skipn (S i) v)) as [n|]; cbn [option_map]; [|reflexivity].
      replace (i + S n) with (S i + n) by lia. reflexivity.
    + rewrite Nat.add_0_r. destruct f as [|f].
      * cbn [remove_loop]. rewrite (proj2 (Nat.eqb_eq _ _)) by lia. reflexivity.
      * rewrite remove_loop_overrun by (rewrite ?length_remove_at; lia).
        rewrite (proj2 (Nat.eqb_neq _ _)) by lia. reflexivity.
    + rewrite IH by lia. destruct (first_stale cs (skipn (S i) v)) as [n|]; cbn [option_map]; [|reflexivity].
      replace (i + S n) with (S i + n) by lia. reflexivity.
Qed.

(** C24. The loop that removes [mmr]'s stale annotations (lines
    2394-2406) is defined only when no annotation is stale or the only
    stale one is the last: removing any other erases from the vector
    the range-for walks, which then runs past its end. *)
Theorem remove_anns_spec cs v :
  remove_anns (Some cs) v
  = match first_stale cs v with
    | None => Some v
    | Some k => if Nat.eqb (S k) (length v) then Some (remove_at k v) else None
    end.
Proof. unfold remove_anns. rewrite remove_loop_spec by reflexivity. reflexivity. Qed.

(** ** The measure elements *)

Lemma take_type_spec t old ee old' :
  take_type t old = Some (ee, old') ->
  ElemType_eqb (etype ee) t = true /\ In ee old /\ (forall x, In x old' -> In x old).
Proof.
  revert old'; induction old as [|x old IH]; intros old' H; simpl in H; [discriminate|].
  destruct (ElemType_eqb (etype x) t) eqn:E.
  { injection H as <- <-. split; [exact E|]. split; [left; reflexivity | intros y Hy; right; exact Hy]. }
  destruct (take_type t old) as [[y r]|] eqn:T; simpl in H; [|discriminate]. injection H as <- <-.
  destruct (IH r eq_refl) as (H1 & H2 & H3). split; [exact H1|]. split; [right; exact H2|].
  intros z [<-|Hz]; [left; reflexivity | right; apply H3, Hz].
Qed.

Lemma ElemType_eqb_eq a b : ElemType_eqb a b = true -> a = b.
Proof. destruct a, b; simpl; try discriminate; auto. intros H. apply Nat.eqb_eq in H. subst. reflexivity. Qed.

(** [mmr]'s elements have the types of [newList], in order, each one an
    old element of [mmr] (reused, with its old content) or the new one. *)
Theorem sync_elems_types nl old :
  map etype (sync_elems nl old) = map etype nl
  /\ Forall (fun e => In e old \/ In e nl) (sync_elems nl old).
Proof.
  revert old; induction nl as [|e nl IH]; intros old; simpl; [split; [reflexivity | constructor]|].
  destruct (take_type (etype e) old) as [[ee old']|] eqn:T.
  - destruct (take_type_spec _ _ _ _ T) as (H1 & H2 & H5). destruct (IH old') as [H3 H4]. simpl.
    rewrite H3, (ElemType_eqb_eq _ _ H1). split; [reflexivity|]. constructor; [left; exact H2|].
    eapply Forall_impl; [|exact H4]. intros x [Hx|Hx]; [left; apply H5, Hx | right; right; exact Hx].
  - destruct (IH old) as [H3 H4]. simpl. rewrite H3. split; [reflexivity|]. constructor; [right; left; reflexivity|].
    eapply Forall_impl; [|exact H4]. intros x [Hx|Hx]; [left; exact Hx | right; right; exact Hx].
Qed.

End Content.

End MMRestContent.

Import MMRestContent.

(** A run over two staves: [m] starts with a 3/4 time signature on both
    staves and a key of two sharps on the first, [lm] ends with a final
    bar line (type 4) and a bass clef (2) on the second staff, and [m]
    has a staff text on track 0 and a Coda marker (content 2).  The old
    replacement measure has a treble clef (0) on the second staff, a
    Segno marker (content 1), and a rehearsal mark on track 0 that [m]
    no longer has. *)
Definition wit_ts : TimeSig := mkTimeSig (3, 4) 0.
Definition wit_ks : KeySig := mkKeySig (mkKeySigEvent 2 false false) true.
Definition wit_run (anns : list Ann) : Run :=
  mkRun (Some (fun i => if Nat.ltb i 2 then Some wit_ts else None)) None
        (Some (fun i => if Nat.eqb i 0 then Some wit_ks else None)) (Some anns)
        [mkElem EMarker 2] false false
        (Some (fun i => if Nat.ltb i 2 then Some (mkBarLine 4 false) else None))
        (Some (fun i => if Nat.eqb i 1 then Some 2 else None)) [] false true.
Definition wit_mmr (anns : list Ann) : MMR :=
  mkMMR None None anns (Some (fun i => if Nat.eqb i 1 then Some 0 else None)) None None None
        [mkElem EMarker 1] false false 4.

Lemma createMMRest_content_staves_witness :
  exists mm', createMMRest_content 2 (wit_run [mkAnn StaffText 0 7]) (wit_mmr [mkAnn StaffText 0 7]) = Some mm'
              /\ shows_run (wit_run [mkAnn StaffText 0 7]) (wit_mmr [mkAnn StaffText 0 7]) mm' 1.
Proof.
  eexists. split; [reflexivity|]. apply (createMMRest_content_staves 2); [reflexivity | auto].
Defined.

(** The second staff keeps its old treble clef although the run ends
    in a bass clef, and the replacement measure keeps its old Segno
    marker where the run has a Coda: an element of the same type is
    reused with its content. *)
Example createMMRest_stale_clef_marker :
  option_map (fun mm => (match clefSeg mm with Some c => c 1 | None => None end, elems mm))
    (createMMRest_content 2 (wit_run [mkAnn StaffText 0 7]) (wit_mmr [mkAnn StaffText 0 7]))
  = Some (Some 0, [mkElem EMarker 1]).
Proof. reflexivity. Qed.

(** The old rehearsal mark comes before the staff text in the
    replacement measure's chord-rest segment: removing it makes the loop
    run past the end of the vector. *)
Example createMMRest_annotation_overrun :
  createMMRest_content 2 (wit_run [mkAnn StaffText 0 7]) (wit_mmr [mkAnn RehearsalMark 0 5; mkAnn StaffText 0 7]) = None.
Proof. reflexivity. Qed.
