(* ===== verification/MeasureTicks.v ===== *)
(** * Ticks, time signature map and pauses of the measures
      ([Score::getNextMeasure], lines 2800-2953)

    Each call of [getNextMeasure] processes one [MeasureBase]: a box only
    gets the current tick ([setTick(lc.tick)]); a measure is moved to
    start at [lc.tick] ([moveTicks]) and advances it by its length.  On
    the first measure of the score ([isMaster() && !lc.prevMeasure]) the
    tempo and time signature maps are cleared and restarted from the
    measure; afterwards a time signature event is added at a measure
    whose length is not [identical] to [lc.sig] or whose nominal time
    signature differs from the previous measure's.  Pauses are added
    for a section break with a pause; the last loop over the segments
    adds a pause for the longest breath of a breath segment, passes the
    time signatures to their staves ([Staff::addTimeSig]) and, in a
    master score, changes the tempo for the first element of a
    chord-rest segment whose articulations stretch time, reading the
    tempo map that is being rebuilt.

    The element layout calls of the same function (accidentals, stems,
    [createBeams], [layoutChords1], shapes) are modelled in their own
    files, the [layout()] of annotations and breaths not at all.  The
    time signature map is an association list with one event per tick
    ([TimeSigMap::add] replaces the event at its tick); the tempo map is
    the list of calls made on it, and [tm_interp] the map they build
    ([TempoMap] is outside src/: one event per tick, [tempo(t)] the
    tempo of the last event at or before [t], 2.0 when none).
    Theorems: the time signature map describes every measure; the
    stretch divides the tempo at the segment's tick and restores it at
    the element's last tick; an Example shows the restored tempo read
    from the cleared map. *)

From Stdlib Require Import QArith ZArith List Lia Bool Arith.
From S2P Require Import Prelude.
Import ListNotations.
Open Scope nat_scope.

Module MeasureTicks.

Record Fraction := mkFraction { numerator : Z; denominator : Z }.

(** [Fraction::identical]: same numerator and denominator (4/4 is not
    identical to 2/2). *)
Definition identical (a b : Fraction) : bool :=
  Z.eqb (numerator a) (numerator b) && Z.eqb (denominator a) (denominator b).

(** A chord-rest of a segment as the stretch loop reads it: its
    [actualTicks()] and the [timeStretch()] of its articulations. *)
Record CR := mkCR { actualTicks : nat; timeStretches : list Q }.

(** The segments the last loop over the measure's segments reads: a
    breath segment (its offset in the measure and the pauses of its
    breaths), a time signature segment (whether each staff has one), a
    chord-rest segment (its offset and [elist()], one slot per track)
    and the others. *)
Inductive Seg :=
  | SBreath (rt : nat) (pauses : list Q)
  | STimeSig (rt : nat) (staves : list bool)
  | SChordRest (rt : nat) (elist : list (option CR))
  | SOther.

(** What the bookkeeping reads of a [Measure]: its length, nominal time
    signature, ticks, number, section break and pause, and its
    segments. *)
Record Measure := mkMeasure {
  len : Fraction; timesig : Fraction; ticks : nat; no : nat;
  sectionBreak : bool; pause : Q; segs : list Seg }.

Inductive MB := Box | Meas (m : Measure).

Record SigEvent := mkSigEvent { se_len : Fraction; se_timesig : Fraction; se_no : nat }.

(** The calls on the tempo map. *)
Inductive TempoCall := SetTempo (t : nat) (v : Q) | SetPause (t : nat) (p : Q).

(** The context: [lc.tick] and [lc.sig], the score's time signature map,
    the calls on its tempo map since it was last cleared, and the
    [Staff::addTimeSig] calls (staff index and tick). *)
Record LC := mkLC { tick : nat; sig : Fraction; sigmap : list (nat * SigEvent); tempomap : list TempoCall;
                    staffSigs : list (nat * nat) }.

(** [TimeSigMap::add(tick, ev)]. *)
Definition sig_add (t : nat) (ev : SigEvent) (smap : list (nat * SigEvent)) : list (nat * SigEvent) :=
  filter (fun p => negb (Nat.eqb (fst p) t)) smap ++ [(t, ev)].

(** ** The tempo map ([TempoMap], outside src/)

    The map the calls build: one event per tick with its tempo.
    [setTempo] sets the tempo of the event at its tick or adds one;
    [setPause] on a tick without event adds one with the tempo in force
    there; [tempo(tick)] is the tempo of the last event at or before
    [tick], 2.0 (120 quarter notes a minute) when there is none. *)
Definition tm_has (t : nat) (m : list (nat * Q)) : bool := existsb (fun p => Nat.eqb (fst p) t) m.

Definition tm_tempo (m : list (nat * Q)) (u : nat) : Q :=
  snd (fold_left (fun acc p => if (fst p <=? u) && (fst acc <=? fst p) then p else acc) m (0, 2%Q)).

Definition tm_set (t : nat) (v : Q) (m : list (nat * Q)) : list (nat * Q) :=
  if tm_has t m then map (fun p => if Nat.eqb (fst p) t then (t, v) else p) m else m ++ [(t, v)].

Definition tm_apply (m : list (nat * Q)) (c : TempoCall) : list (nat * Q) :=
  match c with
  | SetTempo t v => tm_set t v m
  | SetPause t _ => if tm_has t m then m else m ++ [(t, tm_tempo m t)]
  end.

Definition tm_interp (calls : list TempoCall) : list (nat * Q) := fold_left tm_apply calls [].

Section Process.

(** [isMaster()]. *)
Variable isMaster : bool.

(** Lines 2874-2884: the longest pause of a breath segment. *)
Definition breath_pause (pauses : list Q) : Q := fold_left (fun l p => qMax l p) pauses 0%Q.

(** Lines 2905-2919, the stretch loop over [elist()] from one element
    on, [stretch] the maximum so far ([qMax(a->timeStretch(), stretch)]
    over the articulations): at the first element where it is neither 0
    nor 1, the tempo at the segment's tick [tk] is divided by it and
    restored at the element's last tick unless an event is there. *)
Fixpoint stretch_loop (tk : nat) (els : list (option CR)) (stretch : Q) (tmap : list TempoCall) : list TempoCall :=
  match els with
  | [] => tmap
  | None :: rest => stretch_loop tk rest stretch tmap
  | Some cr :: rest =>
      let stretch := fold_left (fun s a => qMax a s) (timeStretches cr) stretch in
      if negb (Qeq_bool stretch 0) && negb (Qeq_bool stretch 1) then
        let otempo := tm_tempo (tm_interp tmap) tk in
        let tmap' := tmap ++ [SetTempo tk (otempo / stretch)] in
        let etick := tk + actualTicks cr - 1 in
        if tm_has etick (tm_interp tmap') then tmap' else tmap' ++ [SetTempo etick otempo]
      else stretch_loop tk rest stretch tmap
  end.

(** [staff(staffIdx)->addTimeSig(ts)] for the staves from [i] on. *)
Fixpoint timesig_calls (i tk : nat) (staves : list bool) : list (nat * nat) :=
  match staves with
  | [] => []
  | b :: rest => (if b then [(i, tk)] else []) ++ timesig_calls (S i) tk rest
  end.

(** Lines 2870-2922: the loop over the measure's segments at tick [t0]. *)
Fixpoint seg_loop (t0 : nat) (ss : list Seg) (tmap : list TempoCall) (tsigs : list (nat * nat))
    : list TempoCall * list (nat * nat) :=
  match ss with
  | [] => (tmap, tsigs)
  | SBreath rt ps :: rest =>
      let length := breath_pause ps in
      seg_loop t0 rest (if negb (Qeq_bool length 0) then tmap ++ [SetPause (t0 + rt) length] else tmap) tsigs
  | STimeSig rt sts :: rest => seg_loop t0 rest tmap (tsigs ++ timesig_calls 0 (t0 + rt) sts)
  | SChordRest rt els :: rest =>
      seg_loop t0 rest (if isMaster then stretch_loop (t0 + rt) els 0 tmap else tmap) tsigs
  | SOther :: rest => seg_loop t0 rest tmap tsigs
  end.

(** Lines 2809-2952 for a measure, [prev] the [MeasureBase] before it
    ([lc.prevMeasure]). *)
Definition processMeasure (prev : option MB) (m : Measure) (lc : LC) : LC :=
  let t := tick lc in
  let '(sig0, smap0, tmap0) :=
    if isMaster && match prev with None => true | Some _ => false end
    then (len m, [(0, mkSigEvent (len m) (timesig m) 0)], [SetTempo 0 2])
    else (sig lc, sigmap lc, tempomap lc) in
  let tmap1 := if sectionBreak m && negb (Qeq_bool (pause m) 0) then tmap0 ++ [SetPause (t + ticks m) (pause m)] else tmap0 in
  let '(tmap2, tsigs) := seg_loop t (segs m) tmap1 (staffSigs lc) in
  let changed := negb (identical (len m) sig0)
                 || match prev with Some (Meas pm) => negb (identical (timesig m) (timesig pm)) | _ => false end in
  if isMaster && changed
  then mkLC (t + ticks m) (len m) (sig_add t (mkSigEvent (len m) (timesig m) (no m)) smap0) tmap2 tsigs
  else mkLC (t + ticks m) sig0 smap0 tmap2 tsigs.

(** The successive calls over a stream of [MeasureBase]s: the context
    after them and the tick each one was given. *)
Fixpoint layoutTicks (prev : option MB) (mbs : list MB) (lc : LC) : LC * list nat :=
  match mbs with
  | [] => (lc, [])
  | Box :: rest => let '(lc', ts) := layoutTicks (Some Box) rest lc in (lc', tick lc :: ts)
  | Meas m :: rest =>
      let '(lc', ts) := layoutTicks (Some (Meas m)) rest (processMeasure prev m lc) in (lc', tick lc :: ts)
  end.

End Process.

(** ** The time signature map describes every measure *)

(** [TimeSigMap::timesig(tick)]: the event with the greatest tick at or
    before [u]. *)
Definition sig_step (u : nat) (acc : option (nat * SigEvent)) (p : nat * SigEvent) : option (nat * SigEvent) :=
  if fst p <=? u then match acc with
                      | Some (k, _) => if k <=? fst p then Some p else acc
                      | None => Some p
                      end
  else acc.

Definition sig_at (smap : list (nat * SigEvent)) (u : nat) : option (nat * SigEvent) :=
  fold_left (sig_step u) smap None.

(** The event in force at [u] has length [l]. *)
Definition sig_ok (smap : list (nat * SigEvent)) (u : nat) (l : Fraction) : Prop :=
  exists k ev, sig_at smap u = Some (k, ev) /\ se_len ev = l.

Lemma identical_eq a b : identical a b = true -> a = b.
Proof.
  destruct a as [n1 d1], b as [n2 d2]. unfold identical. simpl. intros H.
  apply andb_prop in H as [H1 H2]. apply Z.eqb_eq in H1. apply Z.eqb_eq in H2. subst. reflexivity.
Qed.

Lemma sig_at_snoc smap t ev u :
  (forall k, In k (map fst smap) -> k < t) ->
  sig_at (smap ++ [(t, ev)]) u = if t <=? u then Some (t, ev) else sig_at smap u.
Proof.
  intros Hk. unfold sig_at. rewrite fold_left_app. simpl.
  assert (Hin : forall l acc, (forall k e, acc = Some (k, e) -> k < t) ->
            (forall k, In k (map fst l) -> k < t) ->
            forall k e, fold_left (sig_step u) l acc = Some (k, e) -> k < t).
  { induction l as [|[k0 e0] l IH]; intros acc Hacc Hl k e; simpl; [apply Hacc|].
    apply IH; [|intros k1 Hk1; apply Hl; right; exact Hk1].
    intros k1 e1 E. unfold sig_step in E. simpl in E.
    destruct (k0 <=? u); [destruct acc as [[k2 e2]|]; [destruct (k2 <=? k0)|]|]; try (apply (Hacc _ _ E));
      injection E as <- _; apply Hl; left; reflexivity. }
  unfold sig_step at 1. simpl.
  destruct (fold_left (sig_step u) smap None) as [[k e]|] eqn:E; destruct (Nat.leb_spec t u); try reflexivity.
  assert (k < t) by (apply (Hin smap None) with (e := e); [discriminate | exact Hk | exact E]).
  rewrite (proj2 (Nat.leb_le k t)) by lia. reflexivity.
Qed.

Lemma sig_add_fresh smap t ev :
  (forall k, In k (map fst smap) -> k < t) -> sig_add t ev smap = smap ++ [(t, ev)].
Proof.
  intros Hk. unfold sig_add. f_equal. induction smap as [|[k e] smap IH]; [reflexivity|]. simpl.
  rewrite (proj2 (Nat.eqb_neq k t)) by (specialize (Hk k (or_introl eq_refl)); lia). simpl.
  f_equal. apply IH. intros k' H. apply Hk. right. exact H.
Qed.

(** What holds of the context between two measures: the map's ticks
    lie before [lc.tick] and from there on the event in force has
    length [lc.sig]. *)
Definition ctx_ok (lc : LC) : Prop :=
  (forall k, In k (map fst (sigmap lc)) -> k < tick lc)
  /\ (forall u, tick lc <= u -> sig_ok (sigmap lc) u (sig lc)).

Lemma process_ok prev m lc :
  0 < ticks m -> (prev = None \/ ctx_ok lc) ->
  let lc' := processMeasure true prev m lc in
  ctx_ok lc' /\ sig_ok (sigmap lc') (tick lc) (len m)
  /\ (prev <> None -> forall u l, u < tick lc -> sig_ok (sigmap lc) u l -> sig_ok (sigmap lc') u l).
Proof.
  intros Ht Hpre. unfold processMeasure. cbv zeta.
  assert (Hsnoc : forall smap k ev u, (forall k', In k' (map fst smap) -> k' < k) -> k <= u ->
            sig_ok (smap ++ [(k, ev)]) u (se_len ev)).
  { intros smap k ev u Hk Hu. exists k, ev. rewrite sig_at_snoc by exact Hk.
    rewrite (proj2 (Nat.leb_le k u)) by exact Hu. split; reflexivity. }
  destruct prev as [p|].
  - destruct Hpre as [Hpre|[Hk Hs]]; [discriminate|]. cbn [andb negb].
    destruct (seg_loop _ _ _ _ _) as [tmap2 tsigs].
    destruct (negb (identical (len m) (sig lc)) || _) eqn:Ec; cbn [tick sig sigmap].
    + rewrite sig_add_fresh by exact Hk. split; [split|split]; cbn [tick sig sigmap].
      * intros k Hk'. rewrite map_app, in_app_iff in Hk'. destruct Hk' as [Hk'|[<-|[]]]; [specialize (Hk k Hk')|]; simpl in *; lia.
      * intros u Hu. apply (Hsnoc _ _ (mkSigEvent (len m) (timesig m) (no m))); [exact Hk | lia].
      * apply (Hsnoc _ _ (mkSigEvent (len m) (timesig m) (no m))); [exact Hk | lia].
      * intros _ u l Hu (k & ev & E & El). exists k, ev. rewrite sig_at_snoc by exact Hk.
        rewrite (proj2 (Nat.leb_gt _ _)) by exact Hu. split; assumption.
    + apply orb_false_iff in Ec as [Ec _]. apply negb_false_iff, identical_eq in Ec.
      split; [split|split]; cbn [tick sig sigmap].
      * intros k Hk'. specialize (Hk k Hk'). lia.
      * intros u Hu. apply Hs. lia.
      * rewrite Ec. apply Hs. lia.
      * intros _ u l _ H. exact H.
  - cbn [andb negb]. destruct (seg_loop _ _ _ _ _) as [tmap2 tsigs]. assert (Hid : identical (len m) (len m) = true)
      by (unfold identical; rewrite !Z.eqb_refl; reflexivity).
    rewrite Hid. cbn [orb negb]. split; [split|split]; cbn [tick sig sigmap].
    + intros k [<-|[]]. simpl. lia.
    + intros u _. exists 0, (mkSigEvent (len m) (timesig m) 0). split; [reflexivity | reflexivity].
    + exists 0, (mkSigEvent (len m) (timesig m) 0). split; [reflexivity | reflexivity].
    + intros H. contradiction H. reflexivity.
Qed.


Lemma processMeasure_tick b prev m lc : tick (processMeasure b prev m lc) = tick lc + ticks m.
Proof.
  unfold processMeasure. cbv zeta.
  destruct (b && match prev with None => true | Some _ => false end); destruct (seg_loop _ _ _ _ _);
    destruct (b && _); reflexivity.
Qed.

Lemma layoutTicks_ok mbs : forall prev lc,
  prev <> None -> ctx_ok lc -> (forall m, In (Meas m) mbs -> 0 < ticks m) ->
  let '(lc', ts) := layoutTicks true prev mbs lc in
  (forall k m t, nth_error mbs k = Some (Meas m) -> nth_error ts k = Some t -> sig_ok (sigmap lc') t (len m))
  /\ (forall u l, u < tick lc -> sig_ok (sigmap lc) u l -> sig_ok (sigmap lc') u l).
Proof.
  induction mbs as [|[|m] rest IH]; intros prev lc Hp Hc Ht; simpl.
  - split; [intros [|k]; discriminate | auto].
  - specialize (IH (Some Box) lc ltac:(discriminate) Hc (fun m H => Ht m (or_intror H))).
    destruct (layoutTicks true (Some Box) rest lc) as [lc' ts]. destruct IH as [H1 H2].
    split; [intros [|k] m' t E; [discriminate | apply H1; exact E] | exact H2].
  - assert (Htm : 0 < ticks m) by (apply Ht; left; reflexivity).
    destruct (process_ok prev m lc Htm (or_intror Hc)) as (Hc1 & Hs1 & Hp1).
    pose proof (processMeasure_tick true prev m lc) as Htk.
    specialize (IH (Some (Meas m)) (processMeasure true prev m lc) ltac:(discriminate) Hc1 (fun m H => Ht m (or_intror H))).
    destruct (layoutTicks true (Some (Meas m)) rest _) as [lc' ts]. destruct IH as [H1 H2].
    split.
    + intros [|k] m' t E Et.
      * injection E as <-. injection Et as <-. apply H2; [lia | exact Hs1].
      * exact (H1 k m' t E Et).
    + intros u l Hu H. apply H2; [lia | exact (Hp1 Hp u l Hu H)].
Qed.

(** C34. On a full layout of a master score that starts with a measure
    (every measure at least one tick long), the time signature map
    [getNextMeasure] rebuilds gives every measure, at the tick it was
    moved to, an event with the measure's length. *)
Theorem layoutTicks_sigmap m0 mbs lc0 :
  (forall m, In (Meas m) (Meas m0 :: mbs) -> 0 < ticks m) ->
  let '(lc', ts) := layoutTicks true None (Meas m0 :: mbs) lc0 in
  forall k m t, nth_error (Meas m0 :: mbs) k = Some (Meas m) -> nth_error ts k = Some t ->
  sig_ok (sigmap lc') t (len m).
Proof.
  intros Ht. simpl. assert (Htm : 0 < ticks m0) by (apply Ht; left; reflexivity).
  destruct (process_ok None m0 lc0 Htm (or_introl eq_refl)) as (Hc1 & Hs1 & _).
  pose proof (processMeasure_tick true None m0 lc0) as Htk.
  pose proof (layoutTicks_ok mbs (Some (Meas m0)) (processMeasure true None m0 lc0) ltac:(discriminate) Hc1
                (fun m H => Ht m (or_intror H))) as H.
  destruct (layoutTicks true (Some (Meas m0)) mbs _) as [lc' ts]. destruct H as [H1 H2].
  intros [|k] m t E Et.
  - injection E as <-. injection Et as <-. apply H2; [lia | exact Hs1].
  - exact (H1 k m t E Et).
Qed.

(** The ticks the measures and boxes get: each starts where the one
    before ends. *)
Fixpoint starts (t : nat) (mbs : list MB) : list nat :=
  match mbs with
  | [] => []
  | Box :: rest => t :: starts t rest
  | Meas m :: rest => t :: starts (t + ticks m) rest
  end.

Lemma layoutTicks_starts b mbs : forall prev lc,
  snd (layoutTicks b prev mbs lc) = starts (tick lc) mbs.
Proof.
  induction mbs as [|[|m] rest IH]; intros prev lc; simpl; [reflexivity| |].
  - specialize (IH (Some Box) lc). destruct (layoutTicks b (Some Box) rest lc). simpl in *. congruence.
  - specialize (IH (Some (Meas m)) (processMeasure b prev m lc)).
    destruct (layoutTicks b (Some (Meas m)) rest _). simpl in *. rewrite processMeasure_tick in IH. congruence.
Qed.

(** ** The tempo map and the stretch of articulations *)

Lemma tm_interp_snoc calls c : tm_interp (calls ++ [c]) = tm_apply (tm_interp calls) c.
Proof. unfold tm_interp. rewrite fold_left_app. reflexivity. Qed.

(** The step of [tempo(u)]'s search. *)
Definition tm_step (u : nat) (acc p : nat * Q) : nat * Q := if (fst p <=? u) && (fst acc <=? fst p) then p else acc.

Lemma tm_tempo_step m u : tm_tempo m u = snd (fold_left (tm_step u) m (0, 2%Q)).
Proof. reflexivity. Qed.

(** [tempo(u)] only looks at the events at or before [u]. *)
Lemma tm_fold_skip (u : nat) (l1 l2 : list (nat * Q)) (acc : nat * Q) :
  Forall2 (fun p q => p = q \/ (u < fst p /\ u < fst q)) l1 l2 ->
  fold_left (tm_step u) l1 acc = fold_left (tm_step u) l2 acc.
Proof.
  intros H. revert acc. induction H as [|p q l1 l2 Hpq _ IH]; intros acc; simpl; [reflexivity|].
  destruct Hpq as [<-|[Hp Hq]]; [apply IH|].
  assert (E1 : tm_step u acc p = acc) by (unfold tm_step; rewrite (proj2 (Nat.leb_gt _ _) Hp); reflexivity).
  assert (E2 : tm_step u acc q = acc) by (unfold tm_step; rewrite (proj2 (Nat.leb_gt _ _) Hq); reflexivity).
  rewrite E1, E2. apply IH.
Qed.

(** The search finds the event at [u] when there is one. *)
Lemma tm_fold_hit u v (l : list (nat * Q)) : forall acc, NoDup (map fst l) -> fst acc <= u ->
  (acc = (u, v) /\ ~ In u (map fst l)) \/ In (u, v) l -> snd (fold_left (tm_step u) l acc) = v.
Proof.
  induction l as [|[k w] l IH]; intros acc Hnd Ha H; simpl.
  - destruct H as [[-> _]|[]]. reflexivity.
  - inversion Hnd as [|? ? Hnin Hnd']; subst.
    destruct H as [[-> Hn]|[E|Hin]]; unfold tm_step at 2; simpl.
    + assert (k <> u) by (intros ->; apply Hn; left; reflexivity).
      replace ((k <=? u) && (u <=? k)) with false by (destruct (Nat.leb_spec k u), (Nat.leb_spec u k); simpl; lia).
      apply IH; auto. left. split; [reflexivity|]. intros Hk. apply Hn. right. exact Hk.
    + injection E as -> ->. rewrite Nat.leb_refl, (proj2 (Nat.leb_le _ _) Ha). apply IH; auto.
    + apply IH; auto. destruct (Nat.leb_spec k u), (Nat.leb_spec (fst acc) k); simpl; lia.
Qed.

Lemma tm_tempo_set_above t v m u : u < t -> tm_tempo (tm_set t v m) u = tm_tempo m u.
Proof.
  intros Hu. unfold tm_tempo, tm_set. fold (tm_step u). destruct (tm_has t m).
  - f_equal. symmetry. apply tm_fold_skip. induction m as [|[k w] m IH]; simpl; constructor; [|exact IH].
    destruct (Nat.eqb_spec k t) as [->|]; [right; simpl; lia | left; reflexivity].
  - rewrite fold_left_app. simpl. unfold tm_step at 1. simpl. rewrite (proj2 (Nat.leb_gt t u) Hu). reflexivity.
Qed.

Lemma tm_has_keys t m : tm_has t m = existsb (fun k => Nat.eqb k t) (map fst m).
Proof. induction m as [|[k w] m IH]; simpl; [reflexivity|]. rewrite IH. reflexivity. Qed.

Lemma tm_set_fst t v (m : list (nat * Q)) :
  map fst (map (fun p => if Nat.eqb (fst p) t then (t, v) else p) m) = map fst m.
Proof. rewrite map_map. apply map_ext. intros [k w]. simpl. destruct (Nat.eqb_spec k t); simpl; congruence. Qed.

Lemma tm_has_set t v m k : tm_has k (tm_set t v m) = tm_has k m || Nat.eqb k t.
Proof.
  unfold tm_set. destruct (tm_has t m) eqn:E.
  - rewrite tm_has_keys, tm_set_fst, <- tm_has_keys.
    destruct (Nat.eqb_spec k t) as [->|]; [rewrite E; reflexivity | rewrite orb_false_r; reflexivity].
  - unfold tm_has. rewrite existsb_app. simpl. rewrite orb_false_r. f_equal. apply Nat.eqb_sym.
Qed.

(** Events have distinct ticks. *)
Definition tm_keys_ok (m : list (nat * Q)) : Prop := NoDup (map fst m).

Lemma tm_has_false t m : tm_has t m = false -> ~ In t (map fst m).
Proof.
  unfold tm_has. intros E Hin. apply in_map_iff in Hin as [[k w] [Ek Hin]]. simpl in Ek. subst k.
  assert (existsb (fun p => Nat.eqb (fst p) t) m = true) by (apply existsb_exists; exists (t, w); simpl; auto using Nat.eqb_refl).
  congruence.
Qed.

Lemma tm_set_keys_ok t v m : tm_keys_ok m -> tm_keys_ok (tm_set t v m).
Proof.
  unfold tm_keys_ok, tm_set. destruct (tm_has t m) eqn:E; intros H.
  - rewrite tm_set_fst. exact H.
  - rewrite map_app. simpl. apply NoDup_app; [exact H | constructor; [intros []|constructor] |].
    intros k Hk [<-|[]]. exact (tm_has_false t m E Hk).
Qed.

Lemma tm_set_in t v m : In (t, v) (tm_set t v m).
Proof.
  unfold tm_set. destruct (tm_has t m) eqn:E; [|apply in_or_app; right; left; reflexivity].
  unfold tm_has in E. apply existsb_exists in E as [[k w] [Hin Ek]]. simpl in Ek. apply Nat.eqb_eq in Ek. subst k.
  apply in_map_iff. exists (t, w). simpl. rewrite Nat.eqb_refl. auto.
Qed.

(** After [setTempo(t, v)], [tempo(t)] is [v]. *)
Lemma tm_tempo_set_eq t v m : tm_keys_ok m -> tm_tempo (tm_set t v m) t = v.
Proof.
  intros Hk. rewrite tm_tempo_step. apply tm_fold_hit; [exact (tm_set_keys_ok t v m Hk) | simpl; lia |].
  right. apply tm_set_in.
Qed.



Lemma tm_apply_keys_ok m c : tm_keys_ok m -> tm_keys_ok (tm_apply m c).
Proof.
  destruct c as [t v|t p]; simpl; [apply tm_set_keys_ok|]. destruct (tm_has t m) eqn:E; [auto|].
  unfold tm_keys_ok. rewrite map_app. simpl. intros H. apply NoDup_app; [exact H | constructor; [intros []|constructor] |].
  intros k Hk [<-|[]]. exact (tm_has_false t m E Hk).
Qed.

Lemma tm_interp_keys_ok calls : tm_keys_ok (tm_interp calls).
Proof.
  unfold tm_interp. assert (H : forall m, tm_keys_ok m -> tm_keys_ok (fold_left tm_apply calls m)).
  { induction calls as [|c calls IH]; intros m Hm; simpl; [exact Hm | apply IH, tm_apply_keys_ok, Hm]. }
  apply H. constructor.
Qed.

Lemma tm_tempo_in m u v : tm_keys_ok m -> In (u, v) m -> tm_tempo m u = v.
Proof. intros Hk Hin. rewrite tm_tempo_step. apply tm_fold_hit; [exact Hk | simpl; lia | right; exact Hin]. Qed.

Lemma tm_set_in_other t v m p : In p m -> fst p <> t -> In p (tm_set t v m).
Proof.
  intros Hin Hne. unfold tm_set. destruct (tm_has t m); [|apply in_or_app; left; exact Hin].
  apply in_map_iff. exists p. split; [|exact Hin]. rewrite (proj2 (Nat.eqb_neq _ _) Hne). reflexivity.
Qed.

(** The element whose articulations stretch the tempo: the first one at
    which the running maximum of [timeStretch()] is neither 0 nor 1. *)
Fixpoint first_stretch (els : list (option CR)) (stretch : Q) : option (CR * Q) :=
  match els with
  | [] => None
  | None :: rest => first_stretch rest stretch
  | Some cr :: rest =>
      let s := fold_left (fun s a => qMax a s) (timeStretches cr) stretch in
      if negb (Qeq_bool s 0) && negb (Qeq_bool s 1) then Some (cr, s) else first_stretch rest s
  end.

(** C35. The tempo change of a stretched articulation: in a chord-rest
    segment at tick [tk], when some element's articulations stretch time
    by [s] (neither 0 nor 1), the tempo in force at [tk] becomes the
    tempo the map gave there divided by [s], and at the element's last
    tick, when the map had no event there, the old tempo is restored;
    without such an element the tempo map is left alone. *)
Theorem stretch_loop_tempo tk els st tmap :
  match first_stretch els st with
  | None => stretch_loop tk els st tmap = tmap
  | Some (cr, s) =>
      let o := tm_tempo (tm_interp tmap) tk in
      let m' := tm_interp (stretch_loop tk els st tmap) in
      tm_tempo m' tk = (o / s)%Q /\
      (tk < tk + actualTicks cr - 1 -> tm_has (tk + actualTicks cr - 1) (tm_interp tmap) = false ->
       tm_tempo m' (tk + actualTicks cr - 1) = o)
  end.
Proof.
  revert st. induction els as [|[cr|] rest IH]; intros st; simpl; [reflexivity| |apply IH].
  set (s := fold_left (fun s a => qMax a s) (timeStretches cr) st).
  destruct (negb (Qeq_bool s 0) && negb (Qeq_bool s 1)); [|apply IH].
  set (o := tm_tempo (tm_interp tmap) tk). set (e := tk + actualTicks cr - 1).
  pose proof (tm_interp_keys_ok tmap) as Hk.
  assert (Hin : In (tk, (o / s)%Q) (tm_interp (tmap ++ [SetTempo tk ((o / s)%Q)])))
    by (rewrite tm_interp_snoc; apply tm_set_in).
  destruct (tm_has e (tm_interp (tmap ++ [SetTempo tk ((o / s)%Q)]))) eqn:Eh.
  - split; [apply tm_tempo_in; [apply tm_interp_keys_ok | exact Hin]|].
    intros He Hno. rewrite tm_interp_snoc in Eh. simpl in Eh. rewrite tm_has_set, Hno in Eh.
    apply Nat.eqb_eq in Eh. lia.
  - rewrite tm_interp_snoc. simpl. split.
    + apply tm_tempo_in; [apply tm_set_keys_ok, tm_interp_keys_ok|].
      apply tm_set_in_other; [exact Hin|]. simpl. intros Ee.
      rewrite Ee in Eh. rewrite tm_interp_snoc in Eh. simpl in Eh. rewrite tm_has_set, Nat.eqb_refl, orb_true_r in Eh. discriminate.
    + intros _ _. apply tm_tempo_set_eq. apply tm_interp_keys_ok.
Qed.

End MeasureTicks.

Import MeasureTicks.

Definition wit_44 : Fraction := mkFraction 4 4.
Definition wit_34 : Fraction := mkFraction 3 4.
Definition wit_measure (f : Fraction) (t : nat) : Measure := mkMeasure f f t 0 false 0 [].

Lemma layoutTicks_sigmap_witness :
  let '(lc', ts) := layoutTicks true None [Meas (wit_measure wit_44 1920); Meas (wit_measure wit_34 1440)]
                                (mkLC 0 (mkFraction 0 1) [] [] []) in
  forall k m t, nth_error [Meas (wit_measure wit_44 1920); Meas (wit_measure wit_34 1440)] k = Some (Meas m) ->
  nth_error ts k = Some t -> sig_ok (sigmap lc') t (len m).
Proof.
  apply (layoutTicks_sigmap (wit_measure wit_44 1920) [Meas (wit_measure wit_34 1440)]).
  intros m [E|[E|[]]]; injection E as <-; simpl; lia.
Defined.

(** A score whose first [MeasureBase] is a title frame: the maps are not
    cleared, so an event of an earlier layout (a 3/4 change at 1920,
    since deleted) stays and is in force at the second 4/4 measure. *)
Example layoutTicks_frame_first_stale :
  let '(lc', ts) := layoutTicks true None [Box; Meas (wit_measure wit_44 1920); Meas (wit_measure wit_44 1920)]
                                (mkLC 0 (mkFraction 0 1) [(1920, mkSigEvent wit_34 wit_34 2)] [] []) in
  ts = [0; 0; 1920] /\ sig_at (sigmap lc') 1920 = Some (1920, mkSigEvent wit_34 wit_34 2).
Proof. split; reflexivity. Qed.

Lemma stretch_loop_tempo_witness :
  match first_stretch [Some (mkCR 480 [2%Q])] 0 with
  | None => stretch_loop 0 [Some (mkCR 480 [2%Q])] 0 [SetTempo 0 2] = [SetTempo 0 2]
  | Some (cr, s) =>
      let o := tm_tempo (tm_interp [SetTempo 0 2]) 0 in
      let m' := tm_interp (stretch_loop 0 [Some (mkCR 480 [2%Q])] 0 [SetTempo 0 2]) in
      tm_tempo m' 0 = (o / s)%Q /\
      (0 < 0 + actualTicks cr - 1 -> tm_has (0 + actualTicks cr - 1) (tm_interp [SetTempo 0 2]) = false ->
       tm_tempo m' (0 + actualTicks cr - 1) = o)
  end.
Proof. exact (stretch_loop_tempo 0 [Some (mkCR 480 [2%Q])] 0 [SetTempo 0 2]). Defined.

(** The stretch reads the tempo map [getNextMeasure] has just cleared (the
    code's own comment at line 2898): a score whose first quarter note
    has an articulation stretching time by 2 under a tempo of 1.5 set
    before the layout gets tempo 1 on the note and 2.0 (not 1.5) after
    it. *)
Example layoutTicks_stretch_default_tempo :
  let lc' := fst (layoutTicks true None
                    [Meas (mkMeasure wit_44 wit_44 1920 0 false 0 [SChordRest 0 [Some (mkCR 480 [2%Q])]])]
                    (mkLC 0 (mkFraction 0 1) [] [SetTempo 0 (3 # 2)] [])) in
  (tm_tempo (tm_interp (tempomap lc')) 0 == 1)%Q /\ (tm_tempo (tm_interp (tempomap lc')) 479 == 2)%Q.
Proof. vm_compute. split; reflexivity. Qed.
