(* ===== verification/ConnectTies.v ===== *)
(** * Rebuilding tie, glissando and tremolo connections ([Score::connectTies])

    [connectTies(silent)] (layout.cpp 1595-1680) walks every chord of the
    score, track by track, and for each note: connects a tie that has no
    end note to the note [searchTieNote] finds (or, unless [silent],
    deletes it); reconnects an old-format glissando that has no start
    note to the note [Glissando::guessInitialNote] finds (or deletes it);
    deletes the spanners that have no end element.  A two-note tremolo
    without a second chord is then given the next chord of the track.

    The score is an arena: notes, chords, ties, spanners and tremolos are
    stdpp [gmap]s from handles to records, and every pointer of the code
    is a handle, so the aliasing of the code (a tie seen from its start
    and its end note, one tremolo shared by two chords) is that of the
    store.  The two loops over [n->spannerBack()] and [n->spannerFor()]
    erase from the vector they iterate: they are modelled by index, with
    the end fixed when the loop starts, reading the live vector of the
    store; a read past its live end is undefined behaviour, [None]. *)

From Stdlib Require Import ZArith List Lia Bool Arith.
From stdpp Require Import base gmap.
From S2P Require Import Prelude.
Import ListNotations.
Open Scope nat_scope.

Module ConnectTies.

(** [Tie]: its start note and, once connected, its end note. *)
Record Tie := mkTie { startNote : nat; endNote : option nat }.

(** What [connectTies] reads and writes of a [Spanner]. *)
Record Spanner := mkSpanner {
  isGlissando : bool; startElement : option nat; endElement : option nat;
  sp_tick : Z; sp_tick2 : Z; sp_track : nat; sp_track2 : nat; sp_parent : option nat }.

(** [Note]: its chord, its ties and the spanners that start and end at it. *)
Record Note := mkNote {
  chord : nat; tieFor : option nat; tieBack : option nat;
  spannerFor : list nat; spannerBack : list nat }.

(** [Chord]: its notes, tick, track, measure and tremolo. *)
Record Chord := mkChord { notes : list nat; c_tick : Z; c_track : nat; measure : nat; tremolo : option nat }.

(** [Tremolo]: [twoNotes()] and the chords [setChords] gives it. *)
Record Tremolo := mkTremolo { twoNotes : bool; chord1 : option nat; chord2 : option nat }.

(** [s->element(i)] of a chord-rest segment: a chord or a rest. *)
Inductive Elem := EChord (c : nat) | ERest.

(** A chord-rest segment: its element at each track. *)
Record Segment := mkSegment { elements : list (option Elem) }.

(** The arena. *)
Record Score := mkScore {
  note_of : gmap nat Note; chord_of : gmap nat Chord; tie_of : gmap nat Tie;
  spanner_of : gmap nat Spanner; tremolo_of : gmap nat Tremolo }.

(** ** Updates of the arena *)

Definition set_notes (f : gmap nat Note -> gmap nat Note) (st : Score) : Score :=
  mkScore (f (note_of st)) (chord_of st) (tie_of st) (spanner_of st) (tremolo_of st).
Definition set_chords (f : gmap nat Chord -> gmap nat Chord) (st : Score) : Score :=
  mkScore (note_of st) (f (chord_of st)) (tie_of st) (spanner_of st) (tremolo_of st).
Definition set_ties (f : gmap nat Tie -> gmap nat Tie) (st : Score) : Score :=
  mkScore (note_of st) (chord_of st) (f (tie_of st)) (spanner_of st) (tremolo_of st).
Definition set_spanners (f : gmap nat Spanner -> gmap nat Spanner) (st : Score) : Score :=
  mkScore (note_of st) (chord_of st) (tie_of st) (f (spanner_of st)) (tremolo_of st).
Definition set_tremolos (f : gmap nat Tremolo -> gmap nat Tremolo) (st : Score) : Score :=
  mkScore (note_of st) (chord_of st) (tie_of st) (spanner_of st) (f (tremolo_of st)).

(** [n->setTieFor(t)], [n->setTieBack(t)]. *)
Definition setTieFor (t : option nat) (N : Note) : Note :=
  mkNote (chord N) t (tieBack N) (spannerFor N) (spannerBack N).
Definition setTieBack (t : option nat) (N : Note) : Note :=
  mkNote (chord N) (tieFor N) t (spannerFor N) (spannerBack N).

(** [std::vector::erase] of the first element equal to [x] ([remove] of
    [Note::removeSpannerFor] and [removeSpannerBack]). *)
Fixpoint remove_first (x : nat) (l : list nat) : list nat :=
  match l with
  | [] => []
  | y :: l' => if Nat.eqb x y then l' else y :: remove_first x l'
  end.

(** [n->removeSpannerBack(s)], [n->removeSpannerFor(s)], and
    [Note::add(s)] for a glissando: it starts at the note. *)
Definition removeSpannerBack (s : nat) (N : Note) : Note :=
  mkNote (chord N) (tieFor N) (tieBack N) (spannerFor N) (remove_first s (spannerBack N)).
Definition removeSpannerFor (s : nat) (N : Note) : Note :=
  mkNote (chord N) (tieFor N) (tieBack N) (remove_first s (spannerFor N)) (spannerBack N).
Definition addSpannerFor (s : nat) (N : Note) : Note :=
  mkNote (chord N) (tieFor N) (tieBack N) (spannerFor N ++ [s]) (spannerBack N).

(** [tie->setEndNote(nn)]. *)
Definition setEndNote (nn : nat) (T : Tie) : Tie := mkTie (startNote T) (Some nn).

(** [c->setTremolo(t)] / [c->remove(tremolo)], and [tremolo->setChords(c, nc)]. *)
Definition setTremolo (t : option nat) (C : Chord) : Chord :=
  mkChord (notes C) (c_tick C) (c_track C) (measure C) t.
Definition setChords (c nc : nat) (T : Tremolo) : Tremolo := mkTremolo (twoNotes T) (Some c) (Some nc).

(** A range-for over a vector held in the store whose body may erase
    the current element: the end is the one of the vector when the loop
    starts, each turn reads the live vector at the next index. *)
Fixpoint erase_loop {St : Type} (get : St -> list nat) (body : nat -> St -> St) (fuel i : nat) (st : St) : option St :=
  match fuel with
  | O => Some st
  | S fuel' =>
      match nth_error (get st) i with
      | None => None
      | Some a => erase_loop get body fuel' (S i) (body a st)
      end
  end.

Definition range_for {St : Type} (get : St -> list nat) (body : nat -> St -> St) (st : St) : option St :=
  erase_loop get body (length (get st)) 0 st.

(** [n->chord()->tick()] and [n->track()] (the track of its chord). *)
Definition note_tick (st : Score) (n : nat) : Z :=
  match note_of st !! n ≫= fun N => chord_of st !! chord N with Some C => c_tick C | None => 0%Z end.
Definition note_track (st : Score) (n : nat) : nat :=
  match note_of st !! n ≫= fun N => chord_of st !! chord N with Some C => c_track C | None => 0 end.

(** The live vectors [n->spannerBack()] and [n->spannerFor()]. *)
Definition back_of (n : nat) (st : Score) : list nat :=
  match note_of st !! n with Some N => spannerBack N | None => [] end.
Definition for_of (n : nat) (st : Score) : list nat :=
  match note_of st !! n with Some N => spannerFor N | None => [] end.

Section Connect.

(** [silent], [_mscVersion], the searches of [note.cpp] and
    [glissando.cpp] (they read pitches and chords, which [connectTies]
    does not change), and [nstaves() * VOICES]. *)
Variable silent : bool.
Variable mscVersion : Z.
Variable searchTieNote114 searchTieNote : nat -> option nat.
Variable guessInitialNote : nat -> option nat.
Variable tracks : nat.

(** Lines 1609-1628: a tie without end note. *)
Definition connect_tie (n : nat) (st : Score) : Score :=
  match note_of st !! n with
  | Some N =>
      match tieFor N with
      | Some t =>
          match tie_of st !! t with
          | Some T =>
              match endNote T with
              | None =>
                  let nnote := if (mscVersion <=? 114)%Z then searchTieNote114 n else searchTieNote n in
                  match nnote with
                  | None => if silent then st else set_notes (alter (setTieFor None) n) (set_ties (delete t) st)
                  | Some nn => set_notes (alter (setTieBack (Some t)) nn) (set_ties (<[t := setEndNote nn T]>) st)
                  end
              | Some _ => st
              end
          | None => st
          end
      | None => st
      end
  | None => st
  end.

(** Lines 1629-1648: one spanner of [n->spannerBack()]. *)
Definition gliss_body (n sp : nat) (st : Score) : Score :=
  match spanner_of st !! sp with
  | Some Sp =>
      if isGlissando Sp && negb (bool_decide (is_Some (startElement Sp))) then
        let initial := note_of st !! n ≫= fun N => guessInitialNote (chord N) in
        let st1 := set_notes (alter (removeSpannerBack sp) n) st in
        match initial with
        | Some inote =>
            let Sp' := mkSpanner (isGlissando Sp) (Some inote) (Some n) (note_tick st inote) (note_tick st n)
                                (note_track st n) (note_track st n) (Some inote) in
            set_notes (alter (addSpannerFor sp) inote) (set_spanners (<[sp := Sp']>) st1)
        | None => set_spanners (delete sp) st1
        end
      else st
  | None => st
  end.

(** Lines 1649-1655: one spanner of [n->spannerFor()]. *)
Definition dangling_body (n sp : nat) (st : Score) : Score :=
  match spanner_of st !! sp with
  | Some Sp =>
      match endElement Sp with
      | None => set_spanners (delete sp) (set_notes (alter (removeSpannerFor sp) n) st)
      | Some _ => st
      end
  | None => st
  end.

(** Lines 1608-1656: the body of the loop over [c->notes()]. *)
Definition note_body (n : nat) (st : Score) : option Score :=
  range_for (back_of n) (gliss_body n) (connect_tie n st) ≫= range_for (for_of n) (dangling_body n).

Fixpoint notes_loop (ns : list nat) (st : Score) : option Score :=
  match ns with
  | [] => Some st
  | n :: ns' => note_body n st ≫= notes_loop ns'
  end.

(** The first of the later segments with an element at track [i]. *)
Fixpoint next_elem (i : nat) (later : list Segment) : option Elem :=
  match later with
  | [] => None
  | s :: later' => match nth_error (elements s) i with Some (Some e) => Some e | _ => next_elem i later' end
  end.

(** Lines 1657-1677: a two-note tremolo without second chord. *)
Definition connect_tremolo (i c : nat) (later : list Segment) (st : Score) : Score :=
  match chord_of st !! c with
  | Some C =>
      match tremolo C with
      | Some t =>
          match tremolo_of st !! t with
          | Some T =>
              if twoNotes T && negb (bool_decide (is_Some (chord2 T))) then
                match next_elem i later with
                | Some (EChord nc) =>
                    let st1 := set_tremolos (<[t := setChords c nc T]>) (set_chords (alter (setTremolo (Some t)) nc) st) in
                    let cross := match chord_of st !! nc with Some NC => negb (Nat.eqb (measure C) (measure NC)) | None => false end in
                    if cross then set_chords (alter (setTremolo None) c) st1 else st1
                | _ => st
                end
              else st
          | None => st
          end
      | None => st
      end
  | None => st
  end.

(** Lines 1603-1678 for one track [i] of a segment. *)
Definition track_body (s : Segment) (later : list Segment) (i : nat) (st : Score) : option Score :=
  match nth_error (elements s) i with
  | Some (Some (EChord c)) =>
      match chord_of st !! c with
      | Some C => notes_loop (notes C) st ≫= fun st1 => Some (connect_tremolo i c later st1)
      | None => Some st
      end
  | _ => Some st
  end.

Fixpoint tracks_loop (s : Segment) (later : list Segment) (ids : list nat) (st : Score) : option Score :=
  match ids with
  | [] => Some st
  | i :: ids' => track_body s later i st ≫= tracks_loop s later ids'
  end.

Fixpoint segs_loop (segs : list Segment) (st : Score) : option Score :=
  match segs with
  | [] => Some st
  | s :: later => tracks_loop s later (seq 0 tracks) st ≫= segs_loop later
  end.

(** [Score::connectTies(silent)] over the chord-rest segments of the
    score from its first measure on ([m->first(st)], [next1(st)]); an
    empty score is left as it is. *)
Definition connectTies (segs : list Segment) (st : Score) : option Score := segs_loop segs st.

End Connect.

(** ** Well-formed arenas

    Every handle a note or a chord holds is live and points back: a
    note's forward tie starts at it, its back tie ends at it, a spanner
    it starts (ends) has it as start (end) element, each spanner list
    holds a spanner once, and a chord's tremolo is live. *)
Definition ties_ok (st : Score) : Prop :=
  (forall n N t, note_of st !! n = Some N -> tieFor N = Some t ->
     exists T, tie_of st !! t = Some T /\ startNote T = n) /\
  (forall n N t, note_of st !! n = Some N -> tieBack N = Some t ->
     exists T, tie_of st !! t = Some T /\ endNote T = Some n).

Definition spans_ok (st : Score) : Prop :=
  (forall n N s, note_of st !! n = Some N -> In s (spannerFor N) ->
     exists Sp, spanner_of st !! s = Some Sp /\ startElement Sp = Some n) /\
  (forall n N s, note_of st !! n = Some N -> In s (spannerBack N) ->
     exists Sp, spanner_of st !! s = Some Sp /\ endElement Sp = Some n) /\
  (forall n N, note_of st !! n = Some N -> NoDup (spannerFor N) /\ NoDup (spannerBack N)).

Definition trem_ok (st : Score) : Prop :=
  forall c C t, chord_of st !! c = Some C -> tremolo C = Some t -> is_Some (tremolo_of st !! t).

Record wf (st : Score) : Prop := { wf_ties : ties_ok st; wf_spans : spans_ok st; wf_trem : trem_ok st }.

(** An executable check of [wf] (see [wf_check_wf]). *)
Definition note_check (st : Score) (n : nat) (N : Note) : bool :=
  match tieFor N with Some t => bool_decide (option_map startNote (tie_of st !! t) = Some n) | None => true end &&
  match tieBack N with Some t => bool_decide (option_map endNote (tie_of st !! t) = Some (Some n)) | None => true end &&
  forallb (fun s => bool_decide (option_map startElement (spanner_of st !! s) = Some (Some n))) (spannerFor N) &&
  forallb (fun s => bool_decide (option_map endElement (spanner_of st !! s) = Some (Some n))) (spannerBack N) &&
  bool_decide (NoDup (spannerFor N)) && bool_decide (NoDup (spannerBack N)).

Definition wf_check (st : Score) : bool :=
  forallb (fun '(n, N) => note_check st n N) (map_to_list (note_of st)) &&
  forallb (fun '(c, C) => match tremolo C with Some t => bool_decide (is_Some (tremolo_of st !! t)) | None => true end)
          (map_to_list (chord_of st)).

(** ** Invariance of well-formedness *)

Lemma erase_loop_inv {St : Type} (P : St -> Prop) (get : St -> list nat) (body : nat -> St -> St) :
  (forall a st, P st -> In a (get st) -> P (body a st)) ->
  forall fuel i st st', P st -> erase_loop get body fuel i st = Some st' -> P st'.
Proof.
  intros Hb fuel. induction fuel as [|fuel IH]; intros i st st' Hp E; simpl in E; [congruence|].
  destruct (nth_error (get st) i) as [a|] eqn:Ea; [|discriminate].
  eapply IH; [|exact E]. apply Hb; [exact Hp | eapply nth_error_In; exact Ea].
Qed.

Lemma range_for_inv {St : Type} (P : St -> Prop) (get : St -> list nat) (body : nat -> St -> St) st st' :
  (forall a st, P st -> In a (get st) -> P (body a st)) ->
  P st -> range_for get body st = Some st' -> P st'.
Proof. intros Hb. apply (erase_loop_inv P get body Hb). Qed.

(** *** A range-for that erases from its own vector

    The elements the body erases are the [bad] ones: the body erases
    the current element exactly when it is bad, and changes the badness
    of no other element.  Then the loop is defined exactly when no bad
    element comes before the last position, and leaves no bad element. *)

Lemma in_remove_first a x l : In x (remove_first a l) -> In x l.
Proof. induction l as [|y l IH]; simpl; [auto|]. destruct (Nat.eqb_spec a y); simpl; intuition. Qed.

Lemma nodup_remove_first a l : NoDup l -> NoDup (remove_first a l).
Proof.
  rewrite !NoDup_ListNoDup. induction 1 as [|y l Hy Hl IH]; simpl; [constructor|].
  destruct (Nat.eqb_spec a y); [exact Hl|]. constructor; [|exact IH]. intros H. apply Hy, (in_remove_first a), H.
Qed.

Lemma remove_first_gone a l : NoDup l -> ~ In a (remove_first a l).
Proof.
  rewrite NoDup_ListNoDup. induction 1 as [|y l Hy Hl IH]; simpl; [auto|].
  destruct (Nat.eqb_spec a y) as [->|Hne]; [exact Hy|]. intros [E|H]; [congruence | exact (IH H)].
Qed.

Lemma in_remove_first_ne a x l : NoDup l -> In x (remove_first a l) -> x <> a.
Proof. intros Hl H ->. exact (remove_first_gone a l Hl H). Qed.

Lemma nodup_snoc (l : list nat) s : NoDup l -> ~ In s l -> NoDup (l ++ [s]).
Proof.
  rewrite !NoDup_ListNoDup. induction 1 as [|y l Hy Hl IH]; simpl; intros Hs; [repeat constructor; auto|].
  constructor; [|apply IH; tauto]. rewrite in_app_iff. simpl. intuition.
Qed.

Lemma length_remove_first a l : In a l -> length (remove_first a l) = length l - 1.
Proof.
  induction l as [|y l IH]; simpl; [intros []|]. intros Hin.
  destruct (Nat.eqb_spec a y) as [->|Hne]; [lia|].
  destruct Hin as [->|Hin]; [congruence|]. simpl. rewrite IH by exact Hin. destruct l; [destruct Hin | simpl; lia].
Qed.

Lemma length_remove_first_le a l : length (remove_first a l) <= length l.
Proof. induction l as [|y l IH]; simpl; [lia|]. destruct (Nat.eqb a y); simpl; lia. Qed.

Lemma nodup_nth_error_inj (l : list nat) i j a : NoDup l -> nth_error l i = Some a -> nth_error l j = Some a -> i = j.
Proof. rewrite NoDup_ListNoDup, NoDup_nth_error. intros H Ei Ej. apply H; [apply nth_error_Some; congruence | congruence]. Qed.

Lemma in_removelast_nth (a : nat) l : In a (removelast l) <-> exists j, S j < length l /\ nth_error l j = Some a.
Proof.
  induction l as [|x l IH]; simpl; [split; [intros [] | intros (j & Hj & _); lia]|].
  destruct l as [|y l]; simpl.
  - split; [intros [] | intros (j & Hj & _); lia].
  - change (match l with [] => [] | _ :: _ => y :: removelast l end) with (removelast (y :: l)).
    rewrite IH. simpl. split.
    + intros [<-|(j & Hj & Ej)]; [exists 0; split; [lia | reflexivity] | exists (S j); split; [lia | exact Ej]].
    + intros ([|j] & Hj & Ej); simpl in Ej; [left; injection Ej; auto | right; exists j; split; [lia | exact Ej]].
Qed.

Section EraseLoop.
Context {St : Type} (I : St -> Prop) (get : St -> list nat) (body : nat -> St -> St) (bad : nat -> St -> bool).
Hypothesis body_inv : forall a st, I st -> In a (get st) -> I (body a st).
Hypothesis body_get : forall a st, I st -> In a (get st) ->
  get (body a st) = if bad a st then remove_first a (get st) else get st.
Hypothesis body_bad : forall a b st, I st -> In a (get st) -> b <> a -> bad b (body a st) = bad b st.
Hypothesis body_keep : forall a st, I st -> In a (get st) -> bad a st = false -> bad a (body a st) = false.
Hypothesis get_nodup : forall st, I st -> NoDup (get st).

Lemma body_length a st : I st -> In a (get st) -> length (get (body a st)) <= length (get st).
Proof. intros Hi Ha. rewrite body_get by assumption. destruct (bad a st); [apply length_remove_first_le | lia]. Qed.

Lemma erase_loop_overrun fuel : forall i st, I st -> 0 < fuel -> length (get st) < i + fuel ->
  erase_loop get body fuel i st = None.
Proof.
  induction fuel as [|f IH]; intros i st Hi Hf Hl; [lia|]. simpl.
  destruct (nth_error (get st) i) as [a|] eqn:Ea; [|reflexivity].
  assert (Hin : In a (get st)) by (eapply nth_error_In; exact Ea).
  assert (i < length (get st)) by (apply nth_error_Some; congruence).
  pose proof (body_length a st Hi Hin). apply IH; [apply body_inv; assumption | lia | lia].
Qed.

(** The loop is undefined exactly when a bad element comes before the last position. *)
Lemma erase_loop_bad_none fuel : forall i st j a, I st -> i + fuel = length (get st) -> i <= j ->
  S j < length (get st) -> nth_error (get st) j = Some a -> bad a st = true ->
  erase_loop get body fuel i st = None.
Proof.
  induction fuel as [|f IH]; intros i st j a Hi Hf Hij Hj Ea Hb; [lia|]. simpl.
  destruct (nth_error (get st) i) as [b|] eqn:Eb; [|reflexivity].
  assert (Hin : In b (get st)) by (eapply nth_error_In; exact Eb).
  destruct (bad b st) eqn:Hbb.
  - apply erase_loop_overrun; [apply body_inv; assumption | lia |].
    rewrite body_get, Hbb, length_remove_first by assumption. lia.
  - assert (i <> j) by (intros ->; congruence).
    assert (b <> a) by (intros ->; apply H; eapply nodup_nth_error_inj; eauto).
    apply (IH (S i) _ j a); [apply body_inv; assumption | rewrite body_get, Hbb by assumption; lia | lia
      | rewrite body_get, Hbb by assumption; lia | rewrite body_get, Hbb by assumption; exact Ea
      | rewrite body_bad by auto; exact Hb].
Qed.

Lemma erase_loop_defined fuel : forall i st, I st -> i + fuel = length (get st) ->
  (forall j a, i <= j -> S j < length (get st) -> nth_error (get st) j = Some a -> bad a st = false) ->
  is_Some (erase_loop get body fuel i st).
Proof.
  induction fuel as [|f IH]; intros i st Hi Hf Hgood; simpl; [eexists; reflexivity|].
  destruct (nth_error (get st) i) as [b|] eqn:Eb; [|apply nth_error_None in Eb; lia].
  assert (Hin : In b (get st)) by (eapply nth_error_In; exact Eb).
  destruct (bad b st) eqn:Hbb.
  - destruct f; [simpl; eexists; reflexivity|]. exfalso.
    assert (S i < length (get st)) by lia. specialize (Hgood i b (le_n _) H Eb). congruence.
  - apply IH; [apply body_inv; assumption | rewrite body_get, Hbb by assumption; lia |].
    intros j a Hij Hj Ea. rewrite body_get, Hbb in Hj, Ea by assumption.
    assert (b <> a) by (intros ->; assert (i = j) by (eapply nodup_nth_error_inj; eauto); lia).
    rewrite body_bad by auto. apply (Hgood j a); [lia | lia | exact Ea].
Qed.

(** The loop is undefined exactly when a bad element is not the last one. *)
Lemma range_for_none st : I st ->
  range_for get body st = None <-> existsb (fun a => bad a st) (removelast (get st)) = true.
Proof.
  intros Hi. unfold range_for. rewrite existsb_exists. split.
  - intros E. destruct (existsb (fun a => bad a st) (removelast (get st))) eqn:Ex.
    + apply existsb_exists in Ex. exact Ex.
    + exfalso. destruct (erase_loop_defined (length (get st)) 0 st Hi eq_refl) as [x Ex']; [|congruence].
      intros j a _ Hj Ea. destruct (bad a st) eqn:E'; [|reflexivity].
      assert (In a (removelast (get st))) by (apply in_removelast_nth; eauto).
      assert (existsb (fun a => bad a st) (removelast (get st)) = true) by (apply existsb_exists; eauto).
      congruence.
  - intros (a & Ha & Hb). apply in_removelast_nth in Ha as (j & Hj & Ea).
    apply (erase_loop_bad_none _ 0 st j a); auto; lia.
Qed.

Lemma erase_loop_good fuel : forall i st st', I st -> i + fuel = length (get st) ->
  (forall j b, j < i -> nth_error (get st) j = Some b -> bad b st = false) ->
  erase_loop get body fuel i st = Some st' -> forall b, In b (get st') -> bad b st' = false.
Proof.
  induction fuel as [|f IH]; intros i st st' Hi Hf Hgood E b Hb; simpl in E.
  - injection E as <-. apply In_nth_error in Hb as (j & Ej).
    assert (j < length (get st)) by (apply nth_error_Some; congruence). apply (Hgood j); [lia | exact Ej].
  - destruct (nth_error (get st) i) as [a|] eqn:Ea; [|discriminate].
    assert (Hin : In a (get st)) by (eapply nth_error_In; exact Ea).
    pose proof (get_nodup st Hi) as Hnd.
    destruct (bad a st) eqn:Hba.
    + destruct f as [|f].
      * injection E as <-. rewrite body_get, Hba in Hb by assumption.
        assert (Hne : b <> a) by exact (in_remove_first_ne _ _ _ Hnd Hb).
        apply in_remove_first, In_nth_error in Hb as (j & Ej).
        assert (j <> i) by (intros ->; congruence).
        assert (j < length (get st)) by (apply nth_error_Some; congruence).
        rewrite body_bad by assumption. apply (Hgood j); [lia | exact Ej].
      * rewrite erase_loop_overrun in E; [discriminate | apply body_inv; assumption | lia |].
        rewrite body_get, Hba, length_remove_first by assumption. lia.
    + refine (IH (S i) (body a st) st' _ _ _ E b Hb); [apply body_inv; assumption | rewrite body_get, Hba by assumption; lia |].
      intros j c Hj Ec. rewrite body_get, Hba in Ec by assumption.
      destruct (Nat.eq_dec j i) as [->|Hji].
      * rewrite Ea in Ec. injection Ec as <-. apply body_keep; assumption.
      * assert (c <> a) by (intros ->; apply Hji; eapply nodup_nth_error_inj; eauto).
        rewrite body_bad by assumption. apply (Hgood j); [lia | exact Ec].
Qed.

(** A defined loop leaves no bad element. *)
Lemma range_for_good st st' : I st -> range_for get body st = Some st' -> forall b, In b (get st') -> bad b st' = false.
Proof. intros Hi. apply (erase_loop_good _ 0 st st' Hi eq_refl). intros; lia. Qed.

End EraseLoop.

(** Cases of a lookup in an updated map. *)
Ltac map_cases :=
  repeat match goal with
  | H : alter _ _ _ !! _ = Some _ |- _ => apply lookup_alter_Some in H as [(<- & ? & ? & ->) | [? ?]]
  | H : <[_ := _]> _ !! _ = Some _ |- _ => apply lookup_insert_Some in H as [[<- <-] | [? ?]]
  | H : delete _ _ !! _ = Some _ |- _ => apply lookup_delete_Some in H as [? ?]
  end.

(** Each note of an updated map comes from one of the old map, related
    to it by [R] when the update is [alter f] with [f] related to the
    identity by [R]. *)
Lemma alter_rel (R : Note -> Note -> Prop) (f : Note -> Note) n (m : gmap nat Note) k N' :
  (forall N, R N N) -> (forall N, R (f N) N) -> alter f n m !! k = Some N' -> exists N, m !! k = Some N /\ R N' N.
Proof. intros Hr Hf E. apply lookup_alter_Some in E as [(<- & N & HN & ->) | [_ HN]]; eauto. Qed.

Definition same_spans (N' N : Note) : Prop := spannerFor N' = spannerFor N /\ spannerBack N' = spannerBack N.
Definition same_ties (N' N : Note) : Prop := tieFor N' = tieFor N /\ tieBack N' = tieBack N.

Lemma spans_ok_transfer st st' :
  spanner_of st' = spanner_of st ->
  (forall n N', note_of st' !! n = Some N' -> exists N, note_of st !! n = Some N /\ same_spans N' N) ->
  spans_ok st -> spans_ok st'.
Proof.
  intros Hs Hn (W3 & W4 & W5). unfold spans_ok; rewrite Hs.
  split; [|split]; [intros k N' ? Hk | intros k N' ? Hk | intros k N' Hk];
    destruct (Hn _ _ Hk) as (N & HN & E1 & E2); rewrite ?E1, ?E2; eauto.
Qed.

Lemma ties_ok_transfer st st' :
  tie_of st' = tie_of st ->
  (forall n N', note_of st' !! n = Some N' -> exists N, note_of st !! n = Some N /\ same_ties N' N) ->
  ties_ok st -> ties_ok st'.
Proof.
  intros Ht Hn (W1 & W2). unfold ties_ok; rewrite Ht.
  split; intros k N' ? Hk; destruct (Hn _ _ Hk) as (N & HN & E1 & E2); rewrite ?E1, ?E2; eauto.
Qed.

Lemma trem_ok_transfer st st' :
  chord_of st' = chord_of st -> tremolo_of st' = tremolo_of st -> trem_ok st -> trem_ok st'.
Proof. intros Hc Ht W. unfold trem_ok; rewrite Hc, Ht. exact W. Qed.

#[local] Hint Unfold same_spans same_ties : core.

(** Tie steps only move ties. *)
Lemma spans_ok_tie_step st f n g :
  (forall N, same_spans (f N) N) -> spans_ok st -> spans_ok (set_notes (alter f n) (set_ties g st)).
Proof.
  intros Hf. apply spans_ok_transfer; [reflexivity|]. intros k N' Hk.
  eapply alter_rel; [| exact Hf | exact Hk]. intros; split; reflexivity.
Qed.

Lemma wf_connect_tie silent v s114 s n st : wf st -> wf (connect_tie silent v s114 s n st).
Proof.
  intros [[W1 W2] Ws Wt]. unfold connect_tie.
  destruct (note_of st !! n) as [N|] eqn:EN; [|constructor; [split|..]; assumption].
  destruct (tieFor N) as [t|] eqn:Et; [|constructor; [split|..]; assumption].
  destruct (tie_of st !! t) as [T|] eqn:ET; [|constructor; [split|..]; assumption].
  destruct (endNote T) as [e|] eqn:Ee; [constructor; [split|..]; assumption|].
  destruct (W1 _ _ _ EN Et) as (T0 & HT0 & HS0).
  destruct (if (v <=? 114)%Z then s114 n else s n) as [nn|].
  - constructor; [split | apply spans_ok_tie_step; [intros; split; reflexivity | exact Ws] | exact Wt];
      simpl; intros k K x Hk Hx; map_cases; simpl in Hx.
    + destruct (W1 _ _ _ H Hx) as (T' & HT' & <-). destruct (decide (x = t)) as [->|Hne].
      * rewrite lookup_insert_eq. eexists; split; [reflexivity|]. simpl. congruence.
      * rewrite lookup_insert_ne by congruence. eauto.
    + destruct (W1 _ _ _ H0 Hx) as (T' & HT' & <-). destruct (decide (x = t)) as [->|Hne].
      * rewrite lookup_insert_eq. eexists; split; [reflexivity|]. simpl. congruence.
      * rewrite lookup_insert_ne by congruence. eauto.
    + injection Hx as <-. rewrite lookup_insert_eq. eauto.
    + destruct (W2 _ _ _ H0 Hx) as (T' & HT' & HE). destruct (decide (x = t)) as [->|Hne]; [congruence|].
      rewrite lookup_insert_ne by congruence. eauto.
  - destruct silent; [constructor; [split|..]; assumption|].
    constructor; [split | apply spans_ok_tie_step; [intros; split; reflexivity | exact Ws] | exact Wt];
      simpl; intros k K x Hk Hx; map_cases; simpl in Hx; try discriminate.
    + destruct (W1 _ _ _ H0 Hx) as (T' & HT' & <-). rewrite lookup_delete_ne; [eauto | congruence].
    + destruct (W2 _ _ _ H Hx) as (T' & HT' & HE). rewrite lookup_delete_ne; [eauto | congruence].
    + destruct (W2 _ _ _ H0 Hx) as (T' & HT' & HE). rewrite lookup_delete_ne; [eauto | congruence].
Qed.

(** ** The spanner steps *)

(** A spanner without start element is in no note's [spannerFor]. *)
Lemma not_in_for st sp Sp k K :
  spans_ok st -> spanner_of st !! sp = Some Sp -> startElement Sp = None ->
  note_of st !! k = Some K -> ~ In sp (spannerFor K).
Proof. intros (W3 & _) E Hs Hk H. destruct (W3 _ _ _ Hk H) as (Sp' & E' & Hs'). congruence. Qed.

(** A spanner without end element is in no note's [spannerBack]. *)
Lemma not_in_back st sp Sp k K :
  spans_ok st -> spanner_of st !! sp = Some Sp -> endElement Sp = None ->
  note_of st !! k = Some K -> ~ In sp (spannerBack K).
Proof. intros (_ & W4 & _) E Hs Hk H. destruct (W4 _ _ _ Hk H) as (Sp' & E' & Hs'). congruence. Qed.

(** A spanner is in the [spannerBack] of one note only (its end). *)
Lemma back_unique st sp n N k K :
  spans_ok st -> note_of st !! n = Some N -> In sp (spannerBack N) ->
  note_of st !! k = Some K -> In sp (spannerBack K) -> k = n.
Proof.
  intros (_ & W4 & _) Hn H Hk H'. destruct (W4 _ _ _ Hn H) as (? & E & ?), (W4 _ _ _ Hk H') as (? & E' & ?).
  congruence.
Qed.

(** ... and in the [spannerFor] of one note only (its start). *)
Lemma for_unique st sp n N k K :
  spans_ok st -> note_of st !! n = Some N -> In sp (spannerFor N) ->
  note_of st !! k = Some K -> In sp (spannerFor K) -> k = n.
Proof.
  intros (W3 & _ & _) Hn H Hk H'. destruct (W3 _ _ _ Hn H) as (? & E & ?), (W3 _ _ _ Hk H') as (? & E' & ?).
  congruence.
Qed.

Lemma same_ties_alter f n (m : gmap nat Note) k N' :
  (forall N, same_ties (f N) N) -> alter f n m !! k = Some N' -> exists N, m !! k = Some N /\ same_ties N' N.
Proof. apply alter_rel. intros; split; reflexivity. Qed.

Lemma back_of_in n sp st : In sp (back_of n st) -> exists N, note_of st !! n = Some N /\ In sp (spannerBack N).
Proof. unfold back_of. destruct (note_of st !! n); [eauto | intros []]. Qed.

Lemma for_of_in n sp st : In sp (for_of n st) -> exists N, note_of st !! n = Some N /\ In sp (spannerFor N).
Proof. unfold for_of. destruct (note_of st !! n); [eauto | intros []]. Qed.

(** [x] is not the spanner [sp] of the step: [sp] has no start
    (no end) element, or is listed at the note the step read it from. *)
Ltac not_sp st sp Ws ES Hs k K Hk Hx :=
  intros ->; first
  [ exact (not_in_for st sp _ k K Ws ES Hs Hk Hx)
  | exact (not_in_back st sp _ k K Ws ES Hs Hk Hx)
  | match goal with
    | EN : note_of st !! ?n = Some ?N, HN : In sp (spannerBack ?N) |- _ =>
        pose proof (back_unique st sp n N k K Ws EN HN Hk Hx); congruence
    | EN : note_of st !! ?n = Some ?N, HN : In sp (spannerFor ?N) |- _ =>
        pose proof (for_unique st sp n N k K Ws EN HN Hk Hx); congruence
    end ].

(** The cases of [spans_ok] after a spanner step that removes [sp]
    from the list of the note it was read from, and replaces or
    deletes it in the store. *)
Ltac spans_case st sp Ws ES Hs :=
  let W3 := fresh "W3" in let W4 := fresh "W4" in let W5 := fresh "W5" in
  pose proof Ws as (W3 & W4 & W5);
  let ne_sp := rewrite ?lookup_insert_ne, ?lookup_delete_ne by congruence in
  match goal with
  | Hx : In ?x (spannerFor ?K ++ [sp]) |- _ =>
      apply in_app_or in Hx as [Hx|[<-|[]]];
      [spans_case st sp Ws ES Hs | rewrite lookup_insert_eq; eexists; split; reflexivity]
  | Hk : note_of st !! ?k = Some ?K, Hx : In ?x (remove_first sp (spannerFor ?K)) |- _ =>
      assert (x <> sp) by exact (in_remove_first_ne _ _ _ (proj1 (W5 _ _ Hk)) Hx);
      ne_sp; destruct (W3 _ _ _ Hk (in_remove_first _ _ _ Hx)) as (? & ? & ?); eauto
  | Hk : note_of st !! ?k = Some ?K, Hx : In ?x (remove_first sp (spannerBack ?K)) |- _ =>
      assert (x <> sp) by exact (in_remove_first_ne _ _ _ (proj2 (W5 _ _ Hk)) Hx);
      ne_sp; destruct (W4 _ _ _ Hk (in_remove_first _ _ _ Hx)) as (? & ? & ?); eauto
  | Hk : note_of st !! ?k = Some ?K, Hx : In ?x (spannerFor ?K) |- _ =>
      assert (x <> sp) by not_sp st sp Ws ES Hs k K Hk Hx;
      ne_sp; destruct (W3 _ _ _ Hk Hx) as (? & ? & ?); eauto
  | Hk : note_of st !! ?k = Some ?K, Hx : In ?x (spannerBack ?K) |- _ =>
      assert (x <> sp) by not_sp st sp Ws ES Hs k K Hk Hx;
      ne_sp; destruct (W4 _ _ _ Hk Hx) as (? & ? & ?); eauto
  | Hk : note_of st !! ?k = Some ?K |- NoDup _ /\ NoDup _ =>
      destruct (W5 _ _ Hk);
      split; try apply nodup_remove_first; try apply nodup_snoc; eauto; eapply not_in_for; eauto
  end.

Lemma wf_gliss_body gi n sp st : wf st -> In sp (back_of n st) -> wf (gliss_body gi n sp st).
Proof.
  intros [Wt Ws Wr] Hin. destruct (back_of_in _ _ _ Hin) as (N & EN & HN). unfold gliss_body.
  destruct (spanner_of st !! sp) as [Sp|] eqn:ES; [|constructor; assumption].
  destruct (isGlissando Sp && negb (bool_decide (is_Some (startElement Sp)))) eqn:Eg; [|constructor; assumption].
  apply andb_true_iff in Eg as [_ Eg]. apply negb_true_iff, bool_decide_eq_false in Eg.
  assert (Hst : startElement Sp = None) by (destruct (startElement Sp); [exfalso; apply Eg; eexists; reflexivity | reflexivity]).
  destruct (note_of st !! n ≫= (λ N0, gi (chord N0))) as [inote|]; constructor; try exact Wr.
  - apply ties_ok_transfer with st; [reflexivity | | exact Wt]. intros k K Hk. simpl in Hk.
    destruct (same_ties_alter (addSpannerFor sp) _ _ _ _ (fun N => conj eq_refl eq_refl) Hk) as (K1 & Hk1 & E1).
    destruct (same_ties_alter (removeSpannerBack sp) _ _ _ _ (fun N => conj eq_refl eq_refl) Hk1) as (K0 & Hk0 & E0).
    exists K0; split; [exact Hk0|]. destruct E1, E0; split; congruence.
  - split; [|split]; simpl; [intros k K x Hk Hx | intros k K x Hk Hx | intros k K Hk]; map_cases; simpl in *;
      spans_case st sp Ws ES Hst.
  - apply ties_ok_transfer with st; [reflexivity | | exact Wt]. intros k K Hk. simpl in Hk.
    exact (same_ties_alter (removeSpannerBack sp) _ _ _ _ (fun N => conj eq_refl eq_refl) Hk).
  - split; [|split]; simpl; [intros k K x Hk Hx | intros k K x Hk Hx | intros k K Hk]; map_cases; simpl in *;
      spans_case st sp Ws ES Hst.
Qed.

Lemma wf_dangling_body n sp st : wf st -> In sp (for_of n st) -> wf (dangling_body n sp st).
Proof.
  intros [Wt Ws Wr] Hin. destruct (for_of_in _ _ _ Hin) as (N & EN & HN). unfold dangling_body.
  destruct (spanner_of st !! sp) as [Sp|] eqn:ES; [|constructor; assumption].
  destruct (endElement Sp) as [e|] eqn:He; [constructor; assumption|]. constructor; try exact Wr.
  - apply ties_ok_transfer with st; [reflexivity | | exact Wt]. intros k K Hk. simpl in Hk.
    exact (same_ties_alter (removeSpannerFor sp) _ _ _ _ (fun N => conj eq_refl eq_refl) Hk).
  - split; [|split]; simpl; [intros k K x Hk Hx | intros k K x Hk Hx | intros k K Hk]; map_cases; simpl in *;
      spans_case st sp Ws ES He.
Qed.

(** ** The tremolo step and the loops *)

Lemma wf_connect_tremolo i c later st : wf st -> wf (connect_tremolo i c later st).
Proof.
  intros W. unfold connect_tremolo.
  destruct (chord_of st !! c) as [C|] eqn:EC; [|exact W].
  destruct (tremolo C) as [t|] eqn:Et; [|exact W].
  destruct (tremolo_of st !! t) as [T|] eqn:ET; [|exact W].
  destruct (twoNotes T && negb (bool_decide (is_Some (chord2 T)))); [|exact W].
  destruct (next_elem i later) as [[nc|]|]; [|exact W | exact W].
  destruct W as [Wt Ws Wr].
  assert (Hr : trem_ok (set_tremolos (<[t := setChords c nc T]>) (set_chords (alter (setTremolo (Some t)) nc) st))).
  { intros k K x Hk Hx. simpl in *. map_cases; simpl in Hx.
    - injection Hx as <-. rewrite lookup_insert_eq. eauto.
    - apply lookup_insert_is_Some'. right. eapply Wr; eauto. }
  destruct (match chord_of st !! nc with Some NC => negb (Nat.eqb (measure C) (measure NC)) | None => false end);
    constructor; try exact Wt; try exact Ws; try exact Hr.
  intros k K x Hk Hx. simpl in Hk.
  apply lookup_alter_Some in Hk as [(<- & ? & ? & ->) | [_ Hk]]; [discriminate | exact (Hr _ _ _ Hk Hx)].
Qed.

Lemma wf_note_body silent v s114 s gi n st st' :
  wf st -> note_body silent v s114 s gi n st = Some st' -> wf st'.
Proof.
  unfold note_body. intros W E. apply bind_Some in E as (st1 & E1 & E2).
  refine (range_for_inv wf _ _ st1 st' _ _ E2); [intros; apply wf_dangling_body; assumption|].
  refine (range_for_inv wf _ _ _ st1 _ _ E1); [intros; apply wf_gliss_body; assumption|].
  apply wf_connect_tie, W.
Qed.

Lemma wf_notes_loop silent v s114 s gi ns : forall st st',
  wf st -> notes_loop silent v s114 s gi ns st = Some st' -> wf st'.
Proof.
  induction ns as [|n ns IH]; simpl; intros st st' W E; [congruence|].
  apply bind_Some in E as (st1 & E1 & E2). eapply IH; [eapply wf_note_body|]; eassumption.
Qed.

Lemma wf_tracks_loop silent v s114 s gi sg later ids : forall st st',
  wf st -> tracks_loop silent v s114 s gi sg later ids st = Some st' -> wf st'.
Proof.
  induction ids as [|i ids IH]; simpl; intros st st' W E; [congruence|].
  apply bind_Some in E as (st1 & E1 & E2). eapply IH; [|exact E2].
  unfold track_body in E1. destruct (nth_error (elements sg) i) as [[[c|]|]|]; try congruence.
  destruct (chord_of st !! c) as [C|]; [|congruence].
  apply bind_Some in E1 as (st2 & E2' & E3). injection E3 as <-.
  apply wf_connect_tremolo. eapply wf_notes_loop; eassumption.
Qed.

Lemma wf_segs_loop silent v s114 s gi tracks segs : forall st st',
  wf st -> segs_loop silent v s114 s gi tracks segs st = Some st' -> wf st'.
Proof.
  induction segs as [|sg segs IH]; simpl; intros st st' W E; [congruence|].
  apply bind_Some in E as (st1 & E1 & E2). eapply IH; [eapply wf_tracks_loop|]; eassumption.
Qed.

(** ** The two loops that erase from their vector *)

(** The spanners the loops erase: a glissando without start element
    (loop over [spannerBack]) and a spanner without end element (loop
    over [spannerFor]). *)
Definition loose_gliss (sp : nat) (st : Score) : bool :=
  match spanner_of st !! sp with
  | Some Sp => isGlissando Sp && negb (bool_decide (is_Some (startElement Sp)))
  | None => false
  end.

Definition dangling (sp : nat) (st : Score) : bool :=
  match spanner_of st !! sp with
  | Some Sp => negb (bool_decide (is_Some (endElement Sp)))
  | None => false
  end.

Lemma wf_nodup_back n st : wf st -> NoDup (back_of n st).
Proof.
  intros [_ (_ & _ & W5) _]. unfold back_of. destruct (note_of st !! n) eqn:E; [exact (proj2 (W5 _ _ E)) | constructor].
Qed.

Lemma wf_nodup_for n st : wf st -> NoDup (for_of n st).
Proof.
  intros [_ (_ & _ & W5) _]. unfold for_of. destruct (note_of st !! n) eqn:E; [exact (proj1 (W5 _ _ E)) | constructor].
Qed.

Lemma gliss_get gi n sp st : wf st -> In sp (back_of n st) ->
  back_of n (gliss_body gi n sp st) = if loose_gliss sp st then remove_first sp (back_of n st) else back_of n st.
Proof.
  intros _ Hin. destruct (back_of_in _ _ _ Hin) as (N & EN & _).
  unfold gliss_body, loose_gliss. destruct (spanner_of st !! sp) as [Sp|]; [|reflexivity].
  destruct (isGlissando Sp && _); [|reflexivity].
  unfold back_of. destruct (note_of st !! n ≫= _) as [inote|]; simpl.
  - destruct (decide (inote = n)) as [->|Hne].
    + rewrite !lookup_alter_eq, EN. reflexivity.
    + rewrite lookup_alter_ne, lookup_alter_eq, EN by exact Hne. reflexivity.
  - rewrite lookup_alter_eq, EN. reflexivity.
Qed.

Lemma gliss_bad gi n sp b st : b <> sp -> loose_gliss b (gliss_body gi n sp st) = loose_gliss b st.
Proof.
  intros Hb. unfold gliss_body. destruct (spanner_of st !! sp) as [Sp|]; [|reflexivity].
  destruct (isGlissando Sp && _); [|reflexivity].
  destruct (note_of st !! n ≫= _); unfold loose_gliss; simpl;
    rewrite ?lookup_insert_ne, ?lookup_delete_ne by congruence; reflexivity.
Qed.

Lemma gliss_keep gi n sp st : loose_gliss sp st = false -> loose_gliss sp (gliss_body gi n sp st) = false.
Proof.
  unfold loose_gliss, gliss_body. destruct (spanner_of st !! sp) as [Sp|] eqn:E; [|rewrite E; reflexivity].
  intros H. rewrite H, E. exact H.
Qed.

Lemma dangling_get n sp st : wf st -> In sp (for_of n st) ->
  for_of n (dangling_body n sp st) = if dangling sp st then remove_first sp (for_of n st) else for_of n st.
Proof.
  intros _ Hin. destruct (for_of_in _ _ _ Hin) as (N & EN & _).
  unfold dangling_body, dangling. destruct (spanner_of st !! sp) as [Sp|]; [|reflexivity].
  destruct (endElement Sp); simpl; [reflexivity|].
  unfold for_of. simpl. rewrite lookup_alter_eq, EN. reflexivity.
Qed.

Lemma dangling_bad n sp b st : b <> sp -> dangling b (dangling_body n sp st) = dangling b st.
Proof.
  intros Hb. unfold dangling_body. destruct (spanner_of st !! sp) as [Sp|]; [|reflexivity].
  destruct (endElement Sp); [reflexivity|]. unfold dangling. simpl. rewrite lookup_delete_ne by congruence. reflexivity.
Qed.

Lemma dangling_keep n sp st : dangling sp st = false -> dangling sp (dangling_body n sp st) = false.
Proof.
  unfold dangling, dangling_body. destruct (spanner_of st !! sp) as [Sp|] eqn:E; [|rewrite E; reflexivity].
  destruct (endElement Sp) eqn:He; [rewrite E, He; auto | simpl; discriminate].
Qed.

Lemma dangling_loop_good n st st' : wf st -> range_for (for_of n) (dangling_body n) st = Some st' ->
  forall b, In b (for_of n st') -> dangling b st' = false.
Proof.
  apply (range_for_good wf (for_of n) (dangling_body n) dangling);
    intros; first [apply wf_dangling_body | apply dangling_get | apply dangling_bad | apply dangling_keep | apply wf_nodup_for]; assumption.
Qed.

Lemma gliss_loop_good gi n st st' : wf st -> range_for (back_of n) (gliss_body gi n) st = Some st' ->
  forall b, In b (back_of n st') -> loose_gliss b st' = false.
Proof.
  apply (range_for_good wf (back_of n) (gliss_body gi n) loose_gliss);
    intros; first [apply wf_gliss_body | apply gliss_get | apply gliss_bad | apply gliss_keep | apply wf_nodup_back]; assumption.
Qed.

(** ** What the walk leaves at each note *)

(** A note is clean when its forward tie (unless [silent]) has an end
    note, no spanner it starts lacks an end element, and no glissando
    that ends at it lacks a start element. *)
Definition tie_clean (silent : bool) (st : Score) (n : nat) : Prop :=
  forall N, note_of st !! n = Some N -> silent = false ->
    forall t T, tieFor N = Some t -> tie_of st !! t = Some T -> is_Some (endNote T).

Definition span_clean (st : Score) (n : nat) : Prop :=
  forall N, note_of st !! n = Some N ->
    (forall s, In s (spannerFor N) -> dangling s st = false) /\
    (forall s, In s (spannerBack N) -> loose_gliss s st = false).

Definition note_clean (silent : bool) (st : Score) (n : nat) : Prop := tie_clean silent st n /\ span_clean st n.

Lemma span_clean_transfer st st' n :
  spanner_of st' = spanner_of st ->
  (forall N', note_of st' !! n = Some N' -> exists N, note_of st !! n = Some N /\ same_spans N' N) ->
  span_clean st n -> span_clean st' n.
Proof.
  intros Hs Hn Hc N' HN'. destruct (Hn _ HN') as (N & HN & E1 & E2). unfold dangling, loose_gliss. rewrite Hs, E1, E2.
  exact (Hc _ HN).
Qed.

Lemma tie_clean_transfer silent st st' n :
  tie_of st' = tie_of st ->
  (forall N', note_of st' !! n = Some N' -> exists N, note_of st !! n = Some N /\ same_ties N' N) ->
  tie_clean silent st n -> tie_clean silent st' n.
Proof.
  intros Ht Hn Hc N' HN'. destruct (Hn _ HN') as (N & HN & E1 & E2). rewrite Ht, E1. exact (Hc _ HN).
Qed.

Lemma clean_connect_tie silent v s114 s m st n :
  wf st -> note_clean silent st n -> note_clean silent (connect_tie silent v s114 s m st) n.
Proof.
  intros [[W1 W2] _ _] [Ht Hs]. unfold connect_tie.
  destruct (note_of st !! m) as [M|] eqn:EM; [|split; assumption].
  destruct (tieFor M) as [t|] eqn:Et; [|split; assumption].
  destruct (tie_of st !! t) as [T|] eqn:ET; [|split; assumption].
  destruct (endNote T) as [e|] eqn:Ee; [split; assumption|].
  destruct (W1 _ _ _ EM Et) as (T0 & HT0 & HS0).
  destruct (if (v <=? 114)%Z then s114 m else s m) as [nn|]; [|destruct silent; [split; assumption|]]; split.
  - intros N' HN' Hsil x X Hx HX. simpl in *.
    assert (Hx' : exists N, note_of st !! n = Some N /\ tieFor N = Some x)
      by (apply lookup_alter_Some in HN' as [(<- & N & HN & ->) | [_ HN]]; eauto).
    destruct Hx' as (N & HN & HxN).
    destruct (decide (x = t)) as [->|Hne]; [rewrite lookup_insert_eq in HX; injection HX as <-; simpl; eauto|].
    rewrite lookup_insert_ne in HX by congruence. eapply Ht; eauto.
  - apply span_clean_transfer with st; [reflexivity | | exact Hs]. intros N' HN'. simpl in HN'.
    eapply alter_rel; [| | exact HN']; intros; split; reflexivity.
  - intros N' HN' Hsil x X Hx HX. simpl in *.
    apply lookup_alter_Some in HN' as [(<- & N & HN & ->) | [_ HN]]; [discriminate|].
    apply lookup_delete_Some in HX as [_ HX]. eapply Ht; eauto.
  - apply span_clean_transfer with st; [reflexivity | | exact Hs]. intros N' HN'. simpl in HN'.
    eapply alter_rel; [| | exact HN']; intros; split; reflexivity.
Qed.

Lemma gliss_spanner_ne gi m sp b st : b <> sp -> spanner_of (gliss_body gi m sp st) !! b = spanner_of st !! b.
Proof.
  intros Hb. unfold gliss_body. destruct (spanner_of st !! sp) as [Sp|]; [|reflexivity].
  destruct (isGlissando Sp && _); [|reflexivity].
  destruct (note_of st !! m ≫= _); simpl; rewrite ?lookup_insert_ne, ?lookup_delete_ne by congruence; reflexivity.
Qed.

Lemma dangling_spanner_ne m sp b st : b <> sp -> spanner_of (dangling_body m sp st) !! b = spanner_of st !! b.
Proof.
  intros Hb. unfold dangling_body. destruct (spanner_of st !! sp) as [Sp|]; [|reflexivity].
  destruct (endElement Sp); [reflexivity|]. simpl. rewrite lookup_delete_ne by congruence. reflexivity.
Qed.

(** The lists of a note after a glissando step: [sp] may be appended
    to [spannerFor] and removed from [spannerBack]. *)
Lemma gliss_lists gi m sp st n N' :
  note_of (gliss_body gi m sp st) !! n = Some N' ->
  exists N, note_of st !! n = Some N /\ same_ties N' N /\
    (forall x, In x (spannerFor N') -> In x (spannerFor N) \/ x = sp) /\
    (forall x, In x (spannerBack N') -> In x (spannerBack N)).
Proof.
  unfold gliss_body. destruct (spanner_of st !! sp) as [Sp|]; [|intros; eexists; repeat split; eauto].
  destruct (isGlissando Sp && _); [|intros; eexists; repeat split; eauto].
  destruct (note_of st !! m ≫= _); simpl; intros Hk; map_cases; eexists; (split; [eassumption|]);
    (split; [split; reflexivity|]); simpl;
    split; intros y Hy; rewrite ?in_app_iff in Hy; simpl in Hy; intuition (eauto using in_remove_first).
Qed.

Lemma gliss_noop gi m sp st : loose_gliss sp st = false -> gliss_body gi m sp st = st.
Proof. unfold loose_gliss, gliss_body. destruct (spanner_of st !! sp); [|reflexivity]. intros ->. reflexivity. Qed.

(** After its step, a spanner that ends at the note has both ends or
    is deleted. *)
Lemma gliss_done gi m sp st : wf st -> In sp (back_of m st) ->
  dangling sp (gliss_body gi m sp st) = false /\ loose_gliss sp (gliss_body gi m sp st) = false.
Proof.
  intros [_ (_ & W4 & _) _] Hin. destruct (back_of_in _ _ _ Hin) as (M & EM & HM).
  destruct (W4 _ _ _ EM HM) as (Sp & ES & He).
  destruct (loose_gliss sp st) eqn:Hl.
  - unfold loose_gliss in Hl. unfold gliss_body. rewrite ES in *.
    rewrite Hl. destruct (note_of st !! m ≫= _); unfold dangling, loose_gliss; simpl;
      rewrite ?lookup_insert_eq, ?lookup_delete_eq; [|split; reflexivity].
    rewrite !bool_decide_eq_true_2 by (eexists; reflexivity). rewrite andb_false_r. split; reflexivity.
  - rewrite gliss_noop by exact Hl. split; [|exact Hl]. unfold dangling. rewrite ES, He. reflexivity.
Qed.

Lemma tie_clean_gliss_body silent gi m sp st n :
  tie_clean silent st n -> tie_clean silent (gliss_body gi m sp st) n.
Proof.
  apply tie_clean_transfer; [|intros N' HN'; destruct (gliss_lists _ _ _ _ _ _ HN') as (N & ? & ? & _); eauto].
  unfold gliss_body. destruct (spanner_of st !! sp); [|reflexivity]. destruct (_ && _); [|reflexivity].
  destruct (note_of st !! m ≫= _); reflexivity.
Qed.

Lemma clean_gliss_body silent gi m sp st n :
  wf st -> In sp (back_of m st) -> note_clean silent st n -> note_clean silent (gliss_body gi m sp st) n.
Proof.
  intros W Hin [Ht Hs]. split; [apply tie_clean_gliss_body, Ht|].
  intros N' HN'. destruct (gliss_lists _ _ _ _ _ _ HN') as (N & HN & _ & Hf & Hb).
  destruct (Hs _ HN) as [Hsf Hsb]. pose proof (gliss_done gi m sp st W Hin) as [Hd Hl].
  split; intros x Hx; (destruct (decide (x = sp)) as [->|Hne]; [assumption|]).
  - destruct (Hf _ Hx) as [Hx'|]; [|congruence].
    unfold dangling. rewrite gliss_spanner_ne by exact Hne. apply Hsf, Hx'.
  - unfold loose_gliss. rewrite gliss_spanner_ne by exact Hne. apply Hsb, Hb, Hx.
Qed.

Lemma dangling_lists m sp st n N' :
  note_of (dangling_body m sp st) !! n = Some N' ->
  exists N, note_of st !! n = Some N /\ same_ties N' N /\
    (forall x, In x (spannerFor N') -> In x (spannerFor N)) /\ spannerBack N' = spannerBack N.
Proof.
  unfold dangling_body. destruct (spanner_of st !! sp) as [Sp|]; [|intros; eexists; repeat split; eauto].
  destruct (endElement Sp); [intros; eexists; repeat split; eauto|].
  simpl; intros Hk; map_cases; eexists; (split; [eassumption|]); repeat split; simpl; eauto using in_remove_first.
Qed.

Lemma dangling_noop m sp st : dangling sp st = false -> dangling_body m sp st = st.
Proof.
  unfold dangling, dangling_body. destruct (spanner_of st !! sp) as [Sp|]; [|reflexivity].
  destruct (endElement Sp); [reflexivity | discriminate].
Qed.

Lemma dangling_deleted m sp st : dangling sp st = true -> spanner_of (dangling_body m sp st) !! sp = None.
Proof.
  unfold dangling, dangling_body. destruct (spanner_of st !! sp) as [Sp|]; [|discriminate].
  destruct (endElement Sp); [discriminate|]. intros _. apply lookup_delete_eq.
Qed.

Lemma tie_clean_dangling_body silent m sp st n :
  tie_clean silent st n -> tie_clean silent (dangling_body m sp st) n.
Proof.
  apply tie_clean_transfer; [|intros N' HN'; destruct (dangling_lists _ _ _ _ _ HN') as (N & ? & ? & _); eauto].
  unfold dangling_body. destruct (spanner_of st !! sp); [|reflexivity]. destruct (endElement _); reflexivity.
Qed.

(** A spanner step never brings back a loose glissando at a note. *)
Lemma back_clean_dangling_body m sp st n :
  (forall b, In b (back_of n st) -> loose_gliss b st = false) ->
  forall b, In b (back_of n (dangling_body m sp st)) -> loose_gliss b (dangling_body m sp st) = false.
Proof.
  intros Hs. destruct (dangling sp st) eqn:Hd; [|rewrite dangling_noop by exact Hd; exact Hs].
  intros b Hb. unfold back_of in Hb. destruct (note_of (dangling_body m sp st) !! n) as [N'|] eqn:HN'; [|destruct Hb].
  destruct (dangling_lists _ _ _ _ _ HN') as (N & HN & _ & _ & Eb).
  destruct (decide (b = sp)) as [->|Hne]; [unfold loose_gliss; rewrite dangling_deleted by exact Hd; reflexivity|].
  unfold loose_gliss. rewrite dangling_spanner_ne by exact Hne. apply Hs. unfold back_of. rewrite HN, <- Eb. exact Hb.
Qed.

Lemma clean_dangling_body silent m sp st n :
  note_clean silent st n -> note_clean silent (dangling_body m sp st) n.
Proof.
  intros Hc. destruct (dangling sp st) eqn:Hd; [|rewrite dangling_noop by exact Hd; exact Hc].
  destruct Hc as [Ht Hs]. split; [apply tie_clean_dangling_body, Ht|].
  intros N' HN'. destruct (dangling_lists _ _ _ _ _ HN') as (N & HN & _ & Hf & Hb).
  destruct (Hs _ HN) as [Hsf Hsb]. pose proof (dangling_deleted m sp st Hd) as Hdel.
  split; intros x Hx; (destruct (decide (x = sp)) as [->|Hne];
    [unfold dangling, loose_gliss; rewrite Hdel; reflexivity|]).
  - unfold dangling. rewrite dangling_spanner_ne by exact Hne. apply Hsf, Hf, Hx.
  - unfold loose_gliss. rewrite dangling_spanner_ne by exact Hne. apply Hsb. rewrite <- Hb. exact Hx.
Qed.

Lemma clean_connect_tremolo silent i c later st n :
  note_clean silent st n -> note_clean silent (connect_tremolo i c later st) n.
Proof.
  unfold connect_tremolo. intros Hc.
  destruct (chord_of st !! c) as [C|]; [|exact Hc]. destruct (tremolo C) as [t|]; [|exact Hc].
  destruct (tremolo_of st !! t) as [T|]; [|exact Hc]. destruct (_ && _); [|exact Hc].
  destruct (next_elem i later) as [[nc|]|]; [|exact Hc | exact Hc].
  destruct (match chord_of st !! nc with Some NC => _ | None => false end); exact Hc.
Qed.

(** [connect_tie] leaves the note's forward tie with an end note (unless [silent]). *)
Lemma connect_tie_self silent v s114 s m st : tie_clean silent (connect_tie silent v s114 s m st) m.
Proof.
  unfold connect_tie. intros N' HN' Hsil x X Hx HX.
  destruct (note_of st !! m) as [M|] eqn:EM; [|congruence].
  destruct (tieFor M) as [t|] eqn:Et; [|congruence].
  destruct (tie_of st !! t) as [T|] eqn:ET; [|congruence].
  destruct (endNote T) as [e|] eqn:Ee; [assert (X = T) as -> by congruence; rewrite Ee; eexists; reflexivity|].
  destruct (if (v <=? 114)%Z then s114 m else s m) as [nn|]; simpl in *.
  - assert (x = t) as ->.
    { apply lookup_alter_Some in HN' as [(<- & N & HN & ->) | [_ HN]]; simpl in Hx; congruence. }
    rewrite lookup_insert_eq in HX. injection HX as <-. eexists; reflexivity.
  - subst silent. simpl in HN'. rewrite lookup_alter_eq, EM in HN'. injection HN' as <-. discriminate.
Qed.

(** The body for note [m] leaves [m] clean and keeps every clean note clean. *)
Lemma note_body_clean silent v s114 s gi m st st' :
  wf st -> note_body silent v s114 s gi m st = Some st' ->
  note_clean silent st' m /\ (forall n, note_clean silent st n -> note_clean silent st' n).
Proof.
  unfold note_body. intros W E. apply bind_Some in E as (st1 & E1 & E2).
  pose proof (wf_connect_tie silent v s114 s m st W) as W0.
  assert (W1 : wf st1) by (refine (range_for_inv wf _ _ _ st1 _ W0 E1); intros; apply wf_gliss_body; assumption).
  split.
  - assert (H1 : tie_clean silent st1 m /\ forall b, In b (back_of m st1) -> loose_gliss b st1 = false).
    { split; [|exact (gliss_loop_good gi m _ _ W0 E1)].
      refine (range_for_inv (fun st => tie_clean silent st m) _ _ _ st1 _ (connect_tie_self _ _ _ _ _ _) E1).
      intros; apply tie_clean_gliss_body; assumption. }
    assert (H2 : wf st' /\ tie_clean silent st' m /\ forall b, In b (back_of m st') -> loose_gliss b st' = false).
    { refine (range_for_inv (fun st => wf st /\ tie_clean silent st m /\ _) _ _ st1 st' _ (conj W1 H1) E2).
      intros a x (Wx & Tx & Bx) Ha. split; [apply wf_dangling_body; assumption|].
      split; [apply tie_clean_dangling_body, Tx | apply back_clean_dangling_body, Bx]. }
    destruct H2 as (W2 & T2 & B2). split; [exact T2|].
    intros N HN. split.
    + intros x Hx. apply (dangling_loop_good m st1 st' W1 E2). unfold for_of. rewrite HN. exact Hx.
    + intros x Hx. apply B2. unfold back_of. rewrite HN. exact Hx.
  - intros n Hn.
    assert (C1 : wf st1 /\ note_clean silent st1 n).
    { refine (range_for_inv (fun st => wf st /\ note_clean silent st n) _ _ _ st1 _
                (conj W0 (clean_connect_tie silent v s114 s m st n W Hn)) E1).
      intros a x (Wx & Cx) Ha. split; [apply wf_gliss_body | apply clean_gliss_body]; assumption. }
    refine (range_for_inv (fun st => note_clean silent st n) _ _ st1 st' _ (proj2 C1) E2).
    intros; apply clean_dangling_body; assumption.
Qed.

(** ** The walk *)

(** Every chord keeps its notes. *)
Definition chords_kept (st st' : Score) : Prop :=
  forall c C, chord_of st !! c = Some C -> exists C', chord_of st' !! c = Some C' /\ notes C' = notes C.

Lemma chords_kept_refl st : chords_kept st st.
Proof. intros c C H. eauto. Qed.

Lemma chords_kept_trans st1 st2 st3 : chords_kept st1 st2 -> chords_kept st2 st3 -> chords_kept st1 st3.
Proof.
  intros H1 H2 c C H. destruct (H1 _ _ H) as (C' & H' & E'). destruct (H2 _ _ H') as (C'' & H'' & E'').
  exists C''. split; congruence.
Qed.

Lemma chords_kept_eq st st' : chord_of st' = chord_of st -> chords_kept st st'.
Proof. intros E c C H. rewrite E. eauto. Qed.

Lemma chord_of_note_body silent v s114 s gi m st st' :
  note_body silent v s114 s gi m st = Some st' -> chord_of st' = chord_of st.
Proof.
  unfold note_body. intros E. apply bind_Some in E as (st1 & E1 & E2).
  assert (chord_of (connect_tie silent v s114 s m st) = chord_of st).
  { unfold connect_tie. repeat (case_match; try reflexivity). }
  refine (range_for_inv (fun x => chord_of x = chord_of st) _ _ st1 st' _ _ E2).
  { intros a x Hx _. rewrite <- Hx. unfold dangling_body. repeat (case_match; try reflexivity). }
  refine (range_for_inv (fun x => chord_of x = chord_of st) _ _ _ st1 _ H E1).
  intros a x Hx _. rewrite <- Hx. unfold gliss_body. repeat (case_match; try reflexivity).
Qed.

Lemma chords_kept_tremolo i c later st : chords_kept st (connect_tremolo i c later st).
Proof.
  unfold connect_tremolo. repeat (case_match; try apply chords_kept_refl); intros k K Hk; simpl;
    rewrite ?lookup_alter; repeat (case_decide; subst; simpl); rewrite ?Hk; simpl; eauto.
Qed.

Lemma notes_loop_clean silent v s114 s gi ns : forall st st',
  wf st -> notes_loop silent v s114 s gi ns st = Some st' ->
  (forall n, In n ns -> note_clean silent st' n) /\ (forall n, note_clean silent st n -> note_clean silent st' n) /\
  chord_of st' = chord_of st.
Proof.
  induction ns as [|m ns IH]; simpl; intros st st' W E.
  - injection E as <-. split; [intros _ []|]. split; auto.
  - apply bind_Some in E as (st1 & E1 & E2).
    destruct (note_body_clean _ _ _ _ _ _ _ _ W E1) as [Hm Hk].
    destruct (IH st1 st' (wf_note_body _ _ _ _ _ _ _ _ W E1) E2) as (Hns & Hk' & Hc).
    split; [intros n [<-|Hn]; auto|]. split; [auto|]. rewrite Hc. exact (chord_of_note_body _ _ _ _ _ _ _ _ E1).
Qed.

(** The notes of the chord at track [i] of segment [sg]. *)
Definition walked (st : Score) (sg : Segment) (i n : nat) : Prop :=
  exists c C, nth_error (elements sg) i = Some (Some (EChord c)) /\ chord_of st !! c = Some C /\ In n (notes C).

Lemma walked_kept st st' sg i n : chords_kept st st' -> walked st sg i n -> walked st' sg i n.
Proof. intros Hk (c & C & E & HC & Hn). destruct (Hk _ _ HC) as (C' & HC' & EN). exists c, C'. rewrite EN. auto. Qed.

Lemma track_body_clean silent v s114 s gi sg later i st st' :
  wf st -> track_body silent v s114 s gi sg later i st = Some st' ->
  (forall n, walked st sg i n -> note_clean silent st' n) /\
  (forall n, note_clean silent st n -> note_clean silent st' n) /\ chords_kept st st'.
Proof.
  intros W E. unfold track_body in E.
  destruct (nth_error (elements sg) i) as [[[c|]|]|] eqn:Ei;
    try (injection E as <-; split; [intros n (c' & C' & Ec & _); congruence | split; [auto | apply chords_kept_refl]]).
  destruct (chord_of st !! c) as [C|] eqn:EC;
    [|injection E as <-; split; [intros n (c' & C' & Ec & HC & _); congruence | split; [auto | apply chords_kept_refl]]].
  apply bind_Some in E as (st1 & E1 & E2). injection E2 as <-.
  destruct (notes_loop_clean _ _ _ _ _ _ _ _ W E1) as (Hns & Hk & Hc).
  split; [|split; [intros n Hn; apply clean_connect_tremolo, Hk, Hn|]].
  - intros n (c' & C' & Ec & HC & Hn). rewrite Ei in Ec. injection Ec as <-. rewrite EC in HC. injection HC as <-.
    apply clean_connect_tremolo, Hns, Hn.
  - eapply chords_kept_trans; [apply chords_kept_eq, Hc | apply chords_kept_tremolo].
Qed.

Lemma tracks_loop_clean silent v s114 s gi sg later ids : forall st st',
  wf st -> tracks_loop silent v s114 s gi sg later ids st = Some st' ->
  (forall i n, In i ids -> walked st sg i n -> note_clean silent st' n) /\
  (forall n, note_clean silent st n -> note_clean silent st' n) /\ chords_kept st st'.
Proof.
  induction ids as [|i ids IH]; simpl; intros st st' W E.
  - injection E as <-. split; [intros _ _ []|]. split; [auto | apply chords_kept_refl].
  - apply bind_Some in E as (st1 & E1 & E2).
    destruct (track_body_clean _ _ _ _ _ _ _ _ _ _ W E1) as (Hi & Hk & Hc).
    assert (W1 : wf st1) by (apply (wf_tracks_loop silent v s114 s gi sg later [i] st st1 W); cbn [tracks_loop]; rewrite E1; reflexivity).
    destruct (IH _ _ W1 E2) as (Hi' & Hk' & Hc').
    split; [|split; [auto | eapply chords_kept_trans; eassumption]].
    intros j n [<-|Hj] Hw; [apply Hk', Hi, Hw | apply (Hi' j n Hj), (walked_kept st), Hw; exact Hc].
Qed.

Lemma segs_loop_clean silent v s114 s gi tracks segs : forall st st',
  wf st -> segs_loop silent v s114 s gi tracks segs st = Some st' ->
  (forall sg i n, In sg segs -> i < tracks -> walked st sg i n -> note_clean silent st' n) /\
  (forall n, note_clean silent st n -> note_clean silent st' n) /\ chords_kept st st'.
Proof.
  induction segs as [|sg segs IH]; simpl; intros st st' W E.
  - injection E as <-. split; [intros _ _ _ []|]. split; [auto | apply chords_kept_refl].
  - apply bind_Some in E as (st1 & E1 & E2).
    destruct (tracks_loop_clean _ _ _ _ _ _ _ _ _ _ W E1) as (Hi & Hk & Hc).
    destruct (IH _ _ (wf_tracks_loop _ _ _ _ _ _ _ _ _ _ W E1) E2) as (Hi' & Hk' & Hc').
    split; [|split; [auto | eapply chords_kept_trans; eassumption]].
    intros sg' i n [<-|Hs] Hi_lt Hw.
    + apply Hk', (Hi i); [apply in_seq; lia | exact Hw].
    + apply (Hi' sg' i n Hs Hi_lt), (walked_kept st), Hw; exact Hc.
Qed.

(** ** The properties of [connectTies] *)

(** C21. [connectTies] keeps the arena well formed: started on a score
    whose ties, spanners and tremolos are linked both ways, every tie,
    spanner and tremolo a note or chord refers to after the walk is
    live and points back to it, and no spanner list holds a spanner
    twice, although the walk deletes ties and spanners and erases from
    the lists it iterates. *)
Theorem connectTies_wf silent v s114 s gi tracks segs st st' :
  wf st -> connectTies silent v s114 s gi tracks segs st = Some st' -> wf st'.
Proof. apply wf_segs_loop. Qed.

(** C22. After [connectTies] every note of every chord on the walked
    tracks is clean: unless [silent], its forward tie has an end note
    (it was connected, or deleted with the link to it); no spanner it
    starts lacks an end element, and no glissando that ends at it lacks
    a start element. *)
Theorem connectTies_clean silent v s114 s gi tracks segs st st' :
  wf st -> connectTies silent v s114 s gi tracks segs st = Some st' ->
  forall sg i c C n, In sg segs -> i < tracks -> nth_error (elements sg) i = Some (Some (EChord c)) ->
    chord_of st !! c = Some C -> In n (notes C) -> note_clean silent st' n.
Proof.
  intros W E sg i c C n Hs Hi Ec HC Hn.
  apply (proj1 (segs_loop_clean _ _ _ _ _ _ _ _ _ W E) sg i n Hs Hi). exists c, C. auto.
Qed.

(** C40. The loop over [n->spannerFor()] erases the spanners without end
    element from the vector it iterates: its behaviour is undefined
    exactly when such a spanner is not the last of the list, since the
    loop then skips the next one and reads past the live end. *)
Theorem spannerFor_loop_undefined n st :
  wf st ->
  range_for (for_of n) (dangling_body n) st = None <->
  existsb (fun sp => dangling sp st) (removelast (for_of n st)) = true.
Proof.
  apply (range_for_none wf (for_of n) (dangling_body n) dangling);
    intros; first [apply wf_dangling_body | apply dangling_get | apply dangling_bad | apply dangling_keep | apply wf_nodup_for]; assumption.
Qed.

Lemma option_map_Some {A B} (f : A -> B) o b : option_map f o = Some b -> exists a, o = Some a /\ f a = b.
Proof. destruct o; simpl; [intros H; injection H as <-; eauto | discriminate]. Qed.

Lemma wf_check_wf st : wf_check st = true -> wf st.
Proof.
  unfold wf_check. rewrite andb_true_iff, !forallb_forall. intros [Hn Hc].
  assert (HN : forall n N, note_of st !! n = Some N -> note_check st n N = true).
  { intros n N E. apply (Hn (n, N)), list_elem_of_In, elem_of_map_to_list, E. }
  constructor; [split | split; [|split] |]; intros k K; [intros x Hk Hx ..| intros Hk | intros x Hk Hx];
    try (pose proof (HN _ _ Hk) as Hch; unfold note_check in Hch; rewrite ?andb_true_iff, ?forallb_forall in Hch;
         destruct Hch as (((((H1 & H2) & H3) & H4) & H5) & H6)).
  - rewrite Hx in H1. apply bool_decide_eq_true, option_map_Some in H1. exact H1.
  - rewrite Hx in H2. apply bool_decide_eq_true, option_map_Some in H2. exact H2.
  - apply H3, bool_decide_eq_true, option_map_Some in Hx. exact Hx.
  - apply H4, bool_decide_eq_true, option_map_Some in Hx. exact Hx.
  - apply bool_decide_eq_true in H5, H6. split; assumption.
  - pose proof (Hc (k, K) (proj1 (list_elem_of_In _ _) (proj2 (elem_of_map_to_list _ _ _) Hk))) as H.
    simpl in H. rewrite Hx in H. apply bool_decide_eq_true in H. exact H.
Qed.

(** C39. The tremolo step: a two-note tremolo of chord [c] without second
    chord is given the next chord [nc] of the track (shared by both, with
    [c] and [nc] as its chords); [c] keeps it only when [nc] is in the
    same measure, while [nc] keeps it in any case.  When the next element
    of the track is a rest, or there is none, nothing changes. *)
Theorem connect_tremolo_spec i c later st C t T :
  chord_of st !! c = Some C -> tremolo C = Some t -> tremolo_of st !! t = Some T ->
  twoNotes T = true -> chord2 T = None ->
  match next_elem i later with
  | Some (EChord nc) =>
      forall NC, nc <> c -> chord_of st !! nc = Some NC ->
      tremolo_of (connect_tremolo i c later st) !! t = Some (mkTremolo true (Some c) (Some nc)) /\
      option_map tremolo (chord_of (connect_tremolo i c later st) !! nc) = Some (Some t) /\
      option_map tremolo (chord_of (connect_tremolo i c later st) !! c) =
        Some (if Nat.eqb (measure C) (measure NC) then Some t else None)
  | _ => connect_tremolo i c later st = st
  end.
Proof.
  intros EC Et ET H2 Hc2. unfold connect_tremolo. rewrite EC, Et, ET, H2, Hc2.
  rewrite bool_decide_eq_false_2 by (intros [? E]; discriminate E). simpl.
  destruct (next_elem i later) as [[nc|]|]; [|reflexivity | reflexivity].
  intros NC Hne ENC. rewrite ENC.
  destruct (Nat.eqb (measure C) (measure NC)); simpl.
  - rewrite lookup_insert_eq, lookup_alter_eq, lookup_alter_ne, ENC, EC by congruence. simpl.
    unfold setChords. rewrite H2, Et. auto.
  - rewrite lookup_insert_eq, lookup_alter_ne, lookup_alter_eq, lookup_alter_eq, lookup_alter_ne, ENC, EC by congruence.
    simpl. unfold setChords. rewrite H2. auto.
Qed.

End ConnectTies.

Import ConnectTies.

(** A score of two chords of one note each on track 0, in one measure:
    note 1 has a tie without end note and a spanner without end element
    (left by a paste); note 2 ends an old-format glissando without start
    note; chord 100 has a two-note tremolo without second chord. *)
Definition wit_score : Score := mkScore
  (<[1 := mkNote 100 (Some 10) None [21] []]> (<[2 := mkNote 101 None None [] [20]]> ∅))
  (<[100 := mkChord [1] 0 0 0 (Some 30)]> (<[101 := mkChord [2] 480 0 0 None]> ∅))
  (<[10 := mkTie 1 None]> ∅)
  (<[20 := mkSpanner true None (Some 2) 0 0 0 0 None]> (<[21 := mkSpanner false (Some 1) None 0 0 0 0 None]> ∅))
  (<[30 := mkTremolo true None None]> ∅).

Definition wit_segs : list Segment := [mkSegment [Some (EChord 100)]; mkSegment [Some (EChord 101)]].

(** [searchTieNote] finds note 2 for note 1; [guessInitialNote] finds
    note 1 for chord 101. *)
Definition wit_search (n : nat) : option nat := if Nat.eqb n 1 then Some 2 else None.
Definition wit_guess (c : nat) : option nat := if Nat.eqb c 101 then Some 1 else None.

Lemma connectTies_wf_witness :
  exists st', connectTies false 300 (fun _ => None) wit_search wit_guess 4 wit_segs wit_score = Some st' /\ wf st'.
Proof.
  eexists. split; [vm_compute; reflexivity|].
  apply (connectTies_wf false 300 (fun _ => None) wit_search wit_guess 4 wit_segs wit_score);
    [apply wf_check_wf; vm_compute; reflexivity | vm_compute; reflexivity].
Defined.

Lemma connectTies_clean_witness :
  exists st', connectTies false 300 (fun _ => None) wit_search wit_guess 4 wit_segs wit_score = Some st' /\
    note_clean false st' 2.
Proof.
  eexists. split; [vm_compute; reflexivity|].
  refine (connectTies_clean false 300 (fun _ => None) wit_search wit_guess 4 wit_segs wit_score _
            (wf_check_wf wit_score ltac:(vm_compute; reflexivity)) _ (mkSegment [Some (EChord 101)]) 0 101 (mkChord [2] 480 0 0 None) 2 _ _ _ _ _);
    [vm_compute; reflexivity | simpl; auto | lia | reflexivity | reflexivity | left; reflexivity].
Defined.

(** Two spanners without end element at one note: the loop erases the
    first, skips the second and reads past the live end. *)
Definition wit_paste : Score := mkScore
  (<[5 := mkNote 100 None None [21; 22] []]> ∅) (<[100 := mkChord [5] 0 0 0 None]> ∅) ∅
  (<[21 := mkSpanner false (Some 5) None 0 0 0 0 None]> (<[22 := mkSpanner false (Some 5) None 0 0 0 0 None]> ∅)) ∅.

Lemma spannerFor_loop_undefined_witness :
  wf wit_paste /\
  (range_for (for_of 5) (dangling_body 5) wit_paste = None <->
   existsb (fun sp => dangling sp wit_paste) (removelast (for_of 5 wit_paste)) = true).
Proof.
  assert (W : wf wit_paste) by (apply wf_check_wf; vm_compute; reflexivity).
  split; [exact W | exact (spannerFor_loop_undefined 5 wit_paste W)].
Defined.

Example spannerFor_loop_undefined_example :
  range_for (for_of 5) (dangling_body 5) wit_paste = None /\
  connectTies false 300 (fun _ => None) (fun _ => None) (fun _ => None) 4 [mkSegment [Some (EChord 100)]] wit_paste = None.
Proof. split; vm_compute; reflexivity. Qed.

Lemma connect_tremolo_spec_witness :
  match next_elem 0 [mkSegment [Some (EChord 101)]] with
  | Some (EChord nc) =>
      forall NC, nc <> 100 -> chord_of wit_score !! nc = Some NC ->
      tremolo_of (connect_tremolo 0 100 [mkSegment [Some (EChord 101)]] wit_score) !! 30
        = Some (mkTremolo true (Some 100) (Some nc)) /\
      option_map tremolo (chord_of (connect_tremolo 0 100 [mkSegment [Some (EChord 101)]] wit_score) !! nc) = Some (Some 30) /\
      option_map tremolo (chord_of (connect_tremolo 0 100 [mkSegment [Some (EChord 101)]] wit_score) !! 100) =
        Some (if Nat.eqb (measure (mkChord [1] 0 0 0 (Some 30))) (measure NC) then Some 30 else None)
  | _ => connect_tremolo 0 100 [mkSegment [Some (EChord 101)]] wit_score = wit_score
  end.
Proof.
  apply (connect_tremolo_spec 0 100 [mkSegment [Some (EChord 101)]] wit_score (mkChord [1] 0 0 0 (Some 30)) 30
           (mkTremolo true None None)); reflexivity.
Defined.

(** With [silent] set, a tie whose end note is not found is kept, still
    without end note, and its start note still refers to it. *)
Example connectTies_silent_dangling_tie :
  option_map (fun st => (tie_of st !! 10, option_map tieFor (note_of st !! 1)))
    (connectTies true 300 (fun _ => None) (fun _ => None) wit_guess 4 wit_segs wit_score)
  = Some (Some (mkTie 1 None), Some (Some 10)).
Proof. vm_compute. reflexivity. Qed.

(** A tremolo whose next chord is in the next measure: the first chord
    loses it, the second keeps it, and the tremolo still names the first
    chord as its first chord. *)
Example connectTies_tremolo_cross_measure :
  let st := mkScore (note_of wit_score) (<[101 := mkChord [2] 480 0 1 None]> (chord_of wit_score))
                    (tie_of wit_score) (spanner_of wit_score) (tremolo_of wit_score) in
  option_map (fun st => (option_map tremolo (chord_of st !! 100), option_map tremolo (chord_of st !! 101), tremolo_of st !! 30))
    (connectTies false 300 (fun _ => None) wit_search wit_guess 4 wit_segs st)
  = Some (Some None, Some (Some 30), Some (mkTremolo true (Some 100) (Some 101))).
Proof. vm_compute. reflexivity. Qed.

(** A tremolo followed by a rest on its track keeps no second chord. *)
Example connectTies_tremolo_rest :
  option_map (fun st => tremolo_of st !! 30)
    (connectTies false 300 (fun _ => None) wit_search wit_guess 4 [mkSegment [Some (EChord 100)]; mkSegment [Some ERest]] wit_score)
  = Some (Some (mkTremolo true None None)).
Proof. vm_compute. reflexivity. Qed.
