(* ===== verification/SystemPasses.v ===== *)
(** * The element layout passes of [collectSystem] and [collectPage]

    After placing the measures of a system, [Score::collectSystem]
    (layout.cpp 3460-3520) walks the chord-rest segments of its
    measures: it lays out the beams that [isTopBeam] accepts and adds
    their shapes to the staff shapes, and dispatches the annotations
    (tempo texts set the tempo, visible rehearsal marks and staff texts
    are laid out and shaped, visible dynamics are laid out and, when
    autoplaced and not at an end of a hairpin, autoplaced and shaped).
    It then lays out the spanner segments of the system (3592-3621):
    each spanner overlapping the system's ticks gets a segment, the
    autoplaced volta segments are aligned to one height, and the
    unmanaged spanners in range are laid out.  Before that it computes
    the staff shapes of the measures (3575-3585); after it, it adds the
    spanner segments' shapes to the staff shapes of the measures they
    overlap (3623-3638) and sets the [LayoutContext] flags for the next
    system (3648-3653).  [Score::collectPage]
    (3732-3791) finally walks the page's measures track by track and
    lays out what needs the final vertical positions: the beams
    [notTopBeam] accepts, grace-note beams, ties, spanners starting at
    notes, slurs of grace notes, arpeggios and bar lines.

    The layout functions called are outside src/: the model is the
    sequence of calls each pass makes ([Ev]), with the data the tests
    read.  The chord-rest of [TopBeam.v] is reused, so the two passes
    are composed through [isTopBeam] and [notTopBeam]: every beam is
    laid out exactly once, by its first chord-rest. *)

From Stdlib Require Import QArith Lqa ZArith List Lia Bool Arith.
From S2P Require Import Prelude TopBeam.
Import ListNotations.
Open Scope nat_scope.

Module SystemPasses.

Definition VOICES := 4.

(** A note: its [tieFor()] and [spannerFor()]. *)
Record Note := mkNote { tieFor : option nat; spannerFor : list nat }.

(** A grace chord: its chord-rest (identity and beam), notes and the
    slurs among its elements [el()]. *)
Record Grace := mkGrace { g_cr : TopBeam.ChordRest; g_notes : list Note; g_slurs : list nat }.

(** A chord-rest of a segment: identity and beam, whether it is a chord,
    its grace chords and notes. *)
Record CR := mkCR { cr : TopBeam.ChordRest; isChord : bool; graces : list Grace; notes : list Note }.

(** [segment->element(track)]. *)
Inductive Elem := ECR (c : CR) | EBarLine (b : nat) | EOther.

(** The annotations [collectSystem] dispatches on. *)
Inductive AnnKind := TEMPO_TEXT (tempo : Q) | REHEARSAL_MARK | STAFF_TEXT | DYNAMIC | OTHER_ANN.

Record Ann := mkAnn { ann_id : nat; kind : AnnKind; visible : bool; autoplace : bool; a_staff : nat }.

(** A segment: chord-rest type or not, its tick, its element per track
    and its annotations. *)
Record Segment := mkSegment { isChordRestSeg : bool; s_tick : Z; elems : list (option Elem); anns : list Ann }.

Record Measure := mkMeasure { m_tick : Z; m_endTick : Z; segs : list Segment }.

(** [MeasureBase]: a box or a measure. *)
Inductive MB := Box | Meas (m : Measure).

(** What [findOverlapping(tick, tick)] yields of a spanner for the
    dynamic test: hairpin or not, and [lookupDynamic] of its start and
    end elements. *)
Record HairpinInfo := mkHairpinInfo { isHairpin : bool; startDyn : option nat; endDyn : option nat }.

(** The calls the passes make. *)
Inductive Ev :=
  | BeamLayout (c : nat)          (** [cr->beam()->layout()] from chord-rest [c] *)
  | ShapeAdd (staff e : nat)      (** [staffShape(staff).add(shape of e)] *)
  | SetTempo (t : Z) (v : Q)      (** [setTempo(segment, tempo)] *)
  | AnnLayout (a : nat)           (** [e->layout()] of an annotation *)
  | Autoplace (a : nat)           (** [d->doAutoplace()] *)
  | TieLayout (t : nat)
  | SpannerLayout (sp : nat)
  | SlurLayout (e : nat)
  | Arpeggio2 (c : nat)           (** [c->layoutArpeggio2()] *)
  | BarLineLayout (b : nat)
  | MeasureLayout2 (t : Z)        (** [m->layout2()] *)
  | RebuildBspTree.

(** The elements of a list with their index, from [k]. *)
Fixpoint indexed {A : Type} (k : nat) (l : list A) : list (nat * A) :=
  match l with [] => [] | x :: l' => (k, x) :: indexed (S k) l' end.

(** ** [collectSystem]: beams, annotations (lines 3460-3520) *)

Section SystemPass.

(** [score()->spannerMap().findOverlapping(tick, tick)]. *)
Variable findOverlapping : Z -> list HairpinInfo.

(** Lines 3469-3476: a chord-rest of the segment's [elist()], at track [k]. *)
Definition cr_events (k : nat) (c : CR) : list Ev :=
  if TopBeam.isTopBeam (cr c) then [BeamLayout (TopBeam.cr_id (cr c)); ShapeAdd (k / VOICES) (TopBeam.cr_id (cr c))] else [].

Definition elist_events (es : list (option Elem)) : list Ev :=
  flat_map (fun '(k, e) => match e with Some (ECR c) => cr_events k c | _ => [] end) (indexed 0 es).

Definition is_dyn (o : option nat) (d : nat) : bool := match o with Some x => Nat.eqb x d | None => false end.

(** Lines 3499-3511: no hairpin starting or ending at the dynamic. *)
Definition doAutoplace (tick : Z) (d : nat) : bool :=
  forallb (fun sp => negb (isHairpin sp && (is_dyn (startDyn sp) d || is_dyn (endDyn sp) d)))
          (findOverlapping tick).

(** Lines 3478-3518: one annotation. *)
Definition ann_events (tick : Z) (a : Ann) : list Ev :=
  match kind a with
  | TEMPO_TEXT v => [SetTempo tick v; AnnLayout (ann_id a)] ++ (if visible a then [ShapeAdd (a_staff a) (ann_id a)] else [])
  | REHEARSAL_MARK | STAFF_TEXT => if visible a then [AnnLayout (ann_id a); ShapeAdd (a_staff a) (ann_id a)] else []
  | DYNAMIC =>
      if visible a then
        AnnLayout (ann_id a) ::
          (if autoplace a && doAutoplace tick (ann_id a) then [Autoplace (ann_id a); ShapeAdd (a_staff a) (ann_id a)] else [])
      else []
  | OTHER_ANN => []
  end.

Definition seg_events (s : Segment) : list Ev :=
  if isChordRestSeg s then elist_events (elems s) ++ flat_map (ann_events (s_tick s)) (anns s) else [].

(** Lines 3460-3520: the trace, and [stick]/[etick] of the system
    ([-1] when it has no measure). *)
Fixpoint system_pass (mbs : list MB) (stick etick : Z) : Z * Z * list Ev :=
  match mbs with
  | [] => (stick, etick, [])
  | Box :: rest => system_pass rest stick etick
  | Meas m :: rest =>
      let stick' := if Z.eqb stick (-1) then m_tick m else stick in
      let '(st, et, tr) := system_pass rest stick' (m_endTick m) in
      (st, et, flat_map seg_events (segs m) ++ tr)
  end.

End SystemPass.

(** ** [collectSystem]: the spanner segments of the system (lines 3592-3621) *)

(** What the pass reads of a [Spanner]: identity, ticks, ottava or
    volta, whether the segment it gets is autoplaced, and the segment's
    user offset in y. *)
Record Sp := mkSp { sp_id : nat; sp_tick : Z; sp_tick2 : Z; isOttava : bool; isVolta : bool;
                    sp_autoplace : bool; userOffY : Q }.

Section SpannerPass.

(** [score()->spannerMap().findOverlapping(stick, etick)], the score's
    unmanaged spanners, and [lastMeasure()->endTick()]. *)
Variable findOverlapping2 : Z -> Z -> list Sp.
Variable unmanagedSpanners : list Sp.
Variable lastEndTick : Z.

(** Line 3597. *)
Definition in_system (stick etick : Z) (sp : Sp) : bool := (sp_tick sp <? etick)%Z && (stick <? sp_tick2 sp)%Z.

(** Lines 3598-3601: an ottava of length 0 is extended to the end of the score. *)
Definition fix_ottava (sp : Sp) : Sp :=
  if isOttava sp && Z.eqb (sp_tick2 sp - sp_tick sp) 0
  then mkSp (sp_id sp) (sp_tick sp) lastEndTick (isOttava sp) (isVolta sp) (sp_autoplace sp) (userOffY sp)
  else sp.

(** Lines 3610-3616: [y = qMin(y, userOff().y())] from 0 over the
    autoplaced volta segments, then given to all of them when there are
    two or more. *)
Definition volta_y (ys : list Q) : Q := fold_left qMin ys 0%Q.

Definition is_volta_seg (sp : Sp) : bool := isVolta sp && sp_autoplace sp.

(** The segment each spanner gets ([layoutSystem]), with its final y
    offset. *)
Definition spanner_segments (sps : list Sp) : list (nat * Q) :=
  let vs := map userOffY (filter is_volta_seg sps) in
  let y := volta_y vs in
  map (fun sp => (sp_id sp, if is_volta_seg sp && Nat.ltb 1 (length vs) then y else userOffY sp)) sps.

(** Lines 3617-3621: the unmanaged spanners laid out. *)
Definition unmanaged_layout (stick etick : Z) : list nat :=
  map sp_id (filter (fun sp => negb ((etick <=? sp_tick sp)%Z || (sp_tick2 sp <? stick)%Z)) unmanagedSpanners).

(** Lines 3592-3621: nothing for a system of boxes ([etick <= stick]);
    else the spanners that got a segment (the ottavas extended) with
    their segments, and the unmanaged spanners laid out. *)
Definition spanner_pass (stick etick : Z) : option (list Sp * list (nat * Q) * list nat) :=
  if (stick <? etick)%Z then
    let sps := map fix_ottava (filter (in_system stick etick) (findOverlapping2 stick etick)) in
    Some (sps, spanner_segments sps, unmanaged_layout stick etick)
  else None.

End SpannerPass.

(** ** [collectPage]: the layout that needs the final positions (lines 3732-3791) *)

Section PagePass.

(** [staff(track2staff(track))->show()] and [nstaves() * VOICES]. *)
Variable show : nat -> bool.
Variable tracks : nat.

(** A note: its tie, then the spanners it starts. *)
Definition note_events (n : Note) : list Ev :=
  match tieFor n with Some t => [TieLayout t] | None => [] end ++ map SpannerLayout (spannerFor n).

(** Lines 3756-3770: a grace chord. *)
Definition grace_events (g : Grace) : list Ev :=
  (if TopBeam.beam_start (g_cr g) then [BeamLayout (TopBeam.cr_id (g_cr g))] else [])
  ++ flat_map note_events (g_notes g) ++ map SlurLayout (g_slurs g).

(** Lines 3744-3783: the element of a segment at [track]. *)
Definition page_elem_events (track : nat) (e : option Elem) : list Ev :=
  match e with
  | Some (ECR c) =>
      if show (track / VOICES) then
        (if TopBeam.notTopBeam (cr c) then [BeamLayout (TopBeam.cr_id (cr c))] else [])
        ++ (if isChord c
            then flat_map grace_events (graces c) ++ Arpeggio2 (TopBeam.cr_id (cr c)) :: flat_map note_events (notes c)
            else [])
      else []
  | Some (EBarLine b) => [BarLineLayout b]
  | _ => []
  end.

Definition elem_at (s : Segment) (track : nat) : option Elem :=
  match nth_error (elems s) track with Some e => e | None => None end.

(** Lines 3742-3785 for a measure: track by track, every segment. *)
Definition measure_page_events (m : Measure) : list Ev :=
  flat_map (fun track => flat_map (fun s => page_elem_events track (elem_at s track)) (segs m)) (seq 0 tracks)
  ++ [MeasureLayout2 (m_tick m)].

Definition mb_page_events (mb : MB) : list Ev :=
  match mb with Meas m => measure_page_events m | Box => [] end.

(** Lines 3732-3788, ending with [rebuildBspTree]: the page's systems, each a
    list of [MeasureBase]s ([stick], computed there, is not used). *)
Definition page_pass (systems : list (list MB)) : list Ev :=
  flat_map (flat_map mb_page_events) systems ++ [RebuildBspTree].

End PagePass.

(** ** The volta segments of a system are aligned *)

Section Volta.
Local Open Scope Q_scope.

Lemma volta_y_spec ys : forall a,
  fold_left qMin ys a <= a /\ Forall (fun y => fold_left qMin ys a <= y) ys /\
  (fold_left qMin ys a == a \/ Exists (fun y => fold_left qMin ys a == y) ys).
Proof.
  induction ys as [|y ys IH]; intros a; simpl; [split; [lra | split; [constructor | left; reflexivity]]|].
  destruct (IH (qMin a y)) as (H1 & H2 & H3). pose proof (qMin_le_l a y). pose proof (qMin_le_r a y).
  split; [lra|]. split; [constructor; [lra | exact H2]|].
  destruct H3 as [H3|H3]; [|right; right; exact H3].
  unfold qMin in *. destruct (a <?q y); [left; exact H3 | right; left; exact H3].
Qed.

(** The spanner segments of a system keep their user offsets, except
    the autoplaced volta segments when there are two or more: these all
    get one offset [y], the smallest of 0 and of their offsets. *)
Theorem volta_alignment sps :
  let vs := filter is_volta_seg sps in
  if Nat.ltb 1%nat (length vs) then
    exists y, spanner_segments sps = map (fun sp => (sp_id sp, if is_volta_seg sp then y else userOffY sp)) sps /\
      y <= 0 /\ Forall (fun sp => y <= userOffY sp) vs /\
      (y == 0 \/ Exists (fun sp => y == userOffY sp) vs)
  else spanner_segments sps = map (fun sp => (sp_id sp, userOffY sp)) sps.
Proof.
  cbv zeta. unfold spanner_segments. rewrite length_map.
  destruct (Nat.ltb 1 (length (filter is_volta_seg sps))) eqn:E.
  - exists (volta_y (map userOffY (filter is_volta_seg sps))).
    destruct (volta_y_spec (map userOffY (filter is_volta_seg sps)) 0) as (H1 & H2 & H3).
    split; [apply map_ext; intros sp; rewrite andb_true_r; reflexivity|].
    unfold volta_y. split; [exact H1|]. split; [rewrite Forall_map in H2; exact H2|].
    destruct H3 as [H3|H3]; [left; exact H3 | right; rewrite Exists_map in H3; exact H3].
  - apply map_ext. intros sp. rewrite andb_false_r. reflexivity.
Qed.

End Volta.

(** ** Every beam is laid out by exactly one of the two passes *)

Definition mb_system_events (fo : Z -> list HairpinInfo) (mb : MB) : list Ev :=
  match mb with Meas m => flat_map (seg_events fo) (segs m) | Box => [] end.

Lemma system_pass_trace fo ms : forall st et, snd (system_pass fo ms st et) = flat_map (mb_system_events fo) ms.
Proof.
  induction ms as [|[|m] ms IH]; intros st et; simpl; [reflexivity | apply IH |].
  specialize (IH (if Z.eqb st (-1) then m_tick m else st) (m_endTick m)).
  destruct (system_pass fo ms _ _) as [[? ?] tr]. simpl in *. rewrite IH. reflexivity.
Qed.

Lemma in_indexed {A : Type} (l : list A) : forall j k x, In (k, x) (indexed j l) <-> j <= k /\ nth_error l (k - j) = Some x.
Proof.
  induction l as [|y l IH]; intros j k x; simpl.
  - split; [intros [] | intros [_ H]; destruct (k - j); discriminate].
  - rewrite IH. split.
    + intros [E|[H1 H2]]; [injection E as <- <-; rewrite Nat.sub_diag; auto|].
      split; [lia|]. replace (k - j) with (S (k - S j)) by lia. exact H2.
    + intros [H1 H2]. destruct (Nat.eq_dec k j) as [->|Hne].
      * left. rewrite Nat.sub_diag in H2. injection H2 as ->. reflexivity.
      * right. split; [lia|]. replace (k - j) with (S (k - S j)) in H2 by lia. exact H2.
Qed.

Lemma ann_no_beam fo tick a x : ~ In (BeamLayout x) (ann_events fo tick a).
Proof.
  unfold ann_events. destruct (kind a), (visible a); try destruct (_ && _); simpl; intuition discriminate.
Qed.

Lemma note_no_beam n x : ~ In (BeamLayout x) (note_events n).
Proof.
  unfold note_events. destruct (tieFor n); simpl; rewrite ?in_map_iff; intros H;
    repeat match goal with H : _ \/ _ |- _ => destruct H end; try discriminate;
    destruct H as (? & E & _); discriminate.
Qed.

Lemma cr_events_beam k c x : In (BeamLayout x) (cr_events k c) <-> TopBeam.isTopBeam (cr c) = true /\ TopBeam.cr_id (cr c) = x.
Proof.
  unfold cr_events. destruct (TopBeam.isTopBeam (cr c)); simpl; [|intuition discriminate].
  split; [intros [E|[E|[]]]; [injection E as <-; auto | discriminate] | intros [_ <-]; left; reflexivity].
Qed.

(** The chord-rests of the chord-rest segments of a system, where the
    collecting pass looks. *)
Definition sys_cr (ms : list MB) (k : nat) (c : CR) : Prop :=
  exists m s, In (Meas m) ms /\ In s (segs m) /\ isChordRestSeg s = true /\ nth_error (elems s) k = Some (Some (ECR c)).

Lemma system_trace_beam fo ms x :
  In (BeamLayout x) (flat_map (mb_system_events fo) ms) <->
  exists k c, sys_cr ms k c /\ TopBeam.isTopBeam (cr c) = true /\ TopBeam.cr_id (cr c) = x.
Proof.
  rewrite in_flat_map. split.
  - intros ([|m] & Hm & H); simpl in H; [destruct H|].
    apply in_flat_map in H as (s & Hs & H). unfold seg_events in H.
    destruct (isChordRestSeg s) eqn:Ec; [|destruct H].
    apply in_app_or in H as [H|H]; [|apply in_flat_map in H as (a & _ & H); exfalso; exact (ann_no_beam _ _ _ _ H)].
    apply in_flat_map in H as ([k [[c| |]|]] & Hk & H); try destruct H.
    apply in_indexed in Hk as [_ Hk]. rewrite Nat.sub_0_r in Hk. apply cr_events_beam in H.
    exists k, c. split; [exists m, s; auto | exact H].
  - intros (k & c & (m & s & Hm & Hs & Ec & Hk) & H). exists (Meas m). split; [exact Hm|]. simpl.
    apply in_flat_map. exists s. split; [exact Hs|]. unfold seg_events. rewrite Ec. apply in_or_app. left.
    apply in_flat_map. exists (k, Some (ECR c)). split; [apply in_indexed; rewrite Nat.sub_0_r; split; [lia | exact Hk] | apply cr_events_beam, H].
Qed.

Lemma grace_beam g x : In (BeamLayout x) (grace_events g) <->
  TopBeam.beam_start (g_cr g) = true /\ TopBeam.cr_id (g_cr g) = x.
Proof.
  unfold grace_events. rewrite !in_app_iff, in_flat_map, in_map_iff.
  destruct (TopBeam.beam_start (g_cr g)); simpl; split.
  - intros [[E|[]]|[(n & _ & H)|(? & E & _)]]; [injection E as <-; auto | exfalso; exact (note_no_beam _ _ H) | discriminate].
  - intros [_ <-]. left. left. reflexivity.
  - intros [[]|[(n & _ & H)|(? & E & _)]]; [exfalso; exact (note_no_beam _ _ H) | discriminate].
  - intros [E _]. discriminate.
Qed.

Lemma page_elem_beam show k e x :
  In (BeamLayout x) (page_elem_events show k e) <->
  exists c, e = Some (ECR c) /\ show (k / VOICES) = true /\
    ((TopBeam.notTopBeam (cr c) = true /\ TopBeam.cr_id (cr c) = x) \/
     (isChord c = true /\ exists g, In g (graces c) /\ TopBeam.beam_start (g_cr g) = true /\ TopBeam.cr_id (g_cr g) = x)).
Proof.
  unfold page_elem_events. destruct e as [[c|b|]|];
    [| simpl; split; [intros [E|[]]; discriminate | intros (? & E & _); discriminate]
     | simpl; split; [intros [] | intros (? & E & _); discriminate]
     | simpl; split; [intros [] | intros (? & E & _); discriminate]].
  destruct (show (k / VOICES)) eqn:Es; [|simpl; split; [intros [] | intros (? & E & Hs & _); injection E as <-; congruence]].
  rewrite in_app_iff. split.
  - intros [H|H]; exists c; (split; [reflexivity | split; [reflexivity|]]).
    + left. destruct (TopBeam.notTopBeam (cr c)); simpl in H; [destruct H as [E|[]]; injection E as <-; auto | destruct H].
    + right. destruct (isChord c); [|destruct H]. split; [reflexivity|].
      apply in_app_or in H as [H|[E|H]]; [| discriminate | exfalso; apply in_flat_map in H as (n & _ & H); exact (note_no_beam _ _ H)].
      apply in_flat_map in H as (g & Hg & H). apply grace_beam in H. eauto.
  - intros (c' & E & _ & [[Hn <-]|[Hc (g & Hg & Hb & <-)]]); injection E as <-.
    + left. rewrite Hn. left. reflexivity.
    + right. rewrite Hc. apply in_or_app. left. apply in_flat_map. exists g. split; [exact Hg | apply grace_beam; auto].
Qed.

(** The chord-rests of a page's measures on the tracks [collectPage]
    walks, on shown staves. *)
Definition page_cr (show : nat -> bool) (tracks : nat) (systems : list (list MB)) (k : nat) (c : CR) : Prop :=
  exists sys m s, In sys systems /\ In (Meas m) sys /\ In s (segs m) /\ k < tracks /\
    elem_at s k = Some (ECR c) /\ show (k / VOICES) = true.

Lemma page_trace_beam show tracks systems x :
  In (BeamLayout x) (page_pass show tracks systems) <->
  exists k c, page_cr show tracks systems k c /\
    ((TopBeam.notTopBeam (cr c) = true /\ TopBeam.cr_id (cr c) = x) \/
     (isChord c = true /\ exists g, In g (graces c) /\ TopBeam.beam_start (g_cr g) = true /\ TopBeam.cr_id (g_cr g) = x)).
Proof.
  unfold page_pass. rewrite in_app_iff, in_flat_map. simpl. split.
  - intros [(sys & Hsys & H)|[E|[]]]; [|discriminate].
    apply in_flat_map in H as ([|m] & Hm & H); simpl in H; [destruct H|].
    unfold measure_page_events in H. apply in_app_or in H as [H|[E|[]]]; [|discriminate].
    apply in_flat_map in H as (k & Hk & H). apply in_seq in Hk.
    apply in_flat_map in H as (s & Hs & H). apply page_elem_beam in H as (c & E & Hsh & H).
    exists k, c. split; [exists sys, m, s; repeat split; auto; lia | exact H].
  - intros (k & c & (sys & m & s & Hsys & Hm & Hs & Hk & E & Hsh) & H). left. exists sys. split; [exact Hsys|].
    apply in_flat_map. exists (Meas m). split; [exact Hm|]. simpl. unfold measure_page_events.
    apply in_or_app. left. apply in_flat_map. exists k. split; [apply in_seq; lia|].
    apply in_flat_map. exists s. split; [exact Hs|]. apply page_elem_beam. exists c. auto.
Qed.

(** C7. Composition of [collectSystem] and [collectPage] through
    [isTopBeam] and [notTopBeam]: a chord-rest of a system's chord-rest
    segment, on a track [collectPage] walks and on a shown staff (its
    identity used by no other chord-rest or grace chord of the system),
    has its beam laid out by [collectSystem] exactly when [isTopBeam]
    holds and by [collectPage] exactly when [notTopBeam] holds; so the
    beam is laid out by one of the two passes exactly when the
    chord-rest starts it, and never by both. *)
Theorem beam_layout_one_pass fo show tracks ms m s k c :
  In (Meas m) ms -> In s (segs m) -> isChordRestSeg s = true -> nth_error (elems s) k = Some (Some (ECR c)) ->
  k < tracks -> show (k / VOICES) = true ->
  (forall k' c', sys_cr ms k' c' \/ page_cr show tracks [ms] k' c' ->
     TopBeam.cr_id (cr c') = TopBeam.cr_id (cr c) -> c' = c) ->
  (forall k' c' g, page_cr show tracks [ms] k' c' -> In g (graces c') ->
     TopBeam.cr_id (g_cr g) <> TopBeam.cr_id (cr c)) ->
  let x := BeamLayout (TopBeam.cr_id (cr c)) in
  let sys := snd (system_pass fo ms (-1) (-1)) in
  let page := page_pass show tracks [ms] in
  (In x sys <-> TopBeam.isTopBeam (cr c) = true) /\ (In x page <-> TopBeam.notTopBeam (cr c) = true) /\
  ((In x sys \/ In x page) <-> TopBeam.beam_start (cr c) = true) /\ ~ (In x sys /\ In x page).
Proof.
  intros Hm Hs Ec Hk Ht Hsh Hu Hg x sys page.
  assert (Hsys : In x sys <-> TopBeam.isTopBeam (cr c) = true).
  { unfold sys, x. rewrite system_pass_trace, system_trace_beam. split.
    - intros (k' & c' & H & Htop & Hid). rewrite (Hu k' c' (or_introl H) Hid) in Htop. exact Htop.
    - intros Htop. exists k, c. split; [exists m, s; auto | auto]. }
  assert (Hpage : In x page <-> TopBeam.notTopBeam (cr c) = true).
  { unfold page, x. rewrite page_trace_beam. split.
    - intros (k' & c' & H & [[Hn Hid]|[_ (g & Hgi & _ & Hid)]]).
      + rewrite (Hu k' c' (or_intror H) Hid) in Hn. exact Hn.
      + exfalso. exact (Hg k' c' g H Hgi Hid).
    - intros Hn. exists k, c. split; [|left; auto].
      exists ms, m, s. unfold elem_at. rewrite Hk. repeat split; auto. left. reflexivity. }
  rewrite Hsys, Hpage. destruct (TopBeam.top_beam_exclusive (cr c)) as [E1 E2]. rewrite E1.
  destruct (TopBeam.notTopBeam (cr c)), (TopBeam.beam_start (cr c)); simpl;
    repeat split; intuition (try discriminate; auto).
Qed.

(** ** The staff shapes of [collectSystem] and its end (lines 3575-3585, 3623-3654) *)

(** A spanner segment of the system: its identity, its spanner's ticks
    and staff, whether it is a lyrics line segment, and its position in
    the system. *)
Record SSeg := mkSSeg { ss_id : nat; ss_tick : Z; ss_tick2 : Z; ss_staffIdx : nat;
                        isLyricsLineSegment : bool; ss_pos : Q * Q }.

(** A [MeasureBase] of the system: identity, whether it is a measure,
    its ticks, its position and its segments (identity and position). *)
Record MPos := mkMPos { mp_id : nat; mp_isMeasure : bool; mp_tick : Z; mp_endTick : Z; mp_pos : Q * Q;
                        mp_segs : list (nat * (Q * Q)) }.

(** The calls on a measure's staff shape. *)
Inductive MShape :=
  | ClearShape (m si : nat)                        (** [m->staffShape(si).clear()] *)
  | AddSegmentShape (m si s : nat) (d : Q * Q)     (** [add(s.staffShape(si).translated(s.pos()))] *)
  | AddLinesBBox (m si : nat).                     (** [add(m->mstaff(si)->lines->bbox())] *)

(** Lines 3575-3585: the staff shapes of the system's measures, staff by
    staff. *)
Definition measure_shapes (nstaves : nat) (mbs : list MPos) : list MShape :=
  flat_map (fun si =>
    flat_map (fun m =>
      if mp_isMeasure m then
        [ClearShape (mp_id m) si] ++ map (fun '(s, d) => AddSegmentShape (mp_id m) si s d) (mp_segs m)
        ++ [AddLinesBBox (mp_id m) si]
      else []) mbs) (seq 0 nstaves).

(** [m->staffShape(staffIdx).add(ss->shape().translated(d))]. *)
Inductive SegShape := AddSegShape (m staffIdx ss : nat) (d : Q * Q).

(** Lines 3630-3636: the translation of a segment's shape into the
    measure's coordinates. *)
Definition shape_offset (ss : SSeg) (m : MPos) : Q * Q :=
  if isLyricsLineSegment ss then ((- fst (mp_pos m))%Q, (- snd (mp_pos m))%Q)
  else ((fst (ss_pos ss) - fst (mp_pos m))%Q, (snd (ss_pos ss) - snd (mp_pos m))%Q).

(** Lines 3623-3638: every spanner segment's shape goes to the staff
    shape of each measure its spanner overlaps. *)
Definition spanner_shapes (mbs : list MPos) (sss : list SSeg) : list SegShape :=
  flat_map (fun m =>
    if mp_isMeasure m then
      flat_map (fun ss => if (ss_tick ss <? mp_endTick m)%Z && (mp_tick m <? ss_tick2 ss)%Z
                          then [AddSegShape (mp_id m) (ss_staffIdx ss) (ss_id ss) (shape_offset ss m)] else []) sss
    else []) mbs.

(** The flags of the [LayoutContext] [collectSystem] sets for the next
    system. *)
Record LCFlags := mkLCFlags { firstSystem : bool; startWithLongNames : bool; systemChanged : bool }.

(** Lines 3648-3653: [lm] is [system->lastMeasure()] with its section
    break ([Some] of its [startWithLongNames()]), [oldM] is
    [lc.systemOldMeasure] and [back] the last [MeasureBase] of the
    system. *)
Definition next_flags (layoutFloat : bool) (lc : LCFlags) (lm : option (option bool))
    (oldM back : option nat) : LCFlags :=
  let '(fs, swl) :=
    match lm with
    | Some sb =>
        let fs := match sb with Some _ => negb layoutFloat | None => false end in
        (fs, fs && match sb with Some s => s | None => false end)
    | None => (firstSystem lc, startWithLongNames lc)
    end in
  mkLCFlags fs swl (negb (match oldM, back with
                          | Some a, Some b => Nat.eqb a b
                          | None, None => true
                          | _, _ => false
                          end)).

(** Each shape added belongs to a measure of the system and to a
    segment whose spanner overlaps the measure's ticks, on that
    spanner's staff. *)
Lemma spanner_shapes_in mbs sss m st s d :
  In (AddSegShape m st s d) (spanner_shapes mbs sss) ->
  exists mp ss, In mp mbs /\ In ss sss /\ mp_isMeasure mp = true /\ mp_id mp = m /\ ss_id ss = s /\
    ss_staffIdx ss = st /\ (ss_tick ss < mp_endTick mp)%Z /\ (mp_tick mp < ss_tick2 ss)%Z /\ d = shape_offset ss mp.
Proof.
  unfold spanner_shapes. rewrite in_flat_map. intros [mp [Hmp Hin]].
  destruct (mp_isMeasure mp) eqn:Em; [|destruct Hin].
  rewrite in_flat_map in Hin. destruct Hin as [ss [Hss Hin]].
  destruct ((ss_tick ss <? mp_endTick mp)%Z && (mp_tick mp <? ss_tick2 ss)%Z) eqn:Et; [|destruct Hin].
  apply andb_prop in Et as [E1 E2]. apply Z.ltb_lt in E1, E2.
  destruct Hin as [Hin|[]]. injection Hin as <- <- <- <-. exists mp, ss. repeat split; auto.
Qed.


End SystemPasses.

Import SystemPasses.

(** A system of one measure with two eighths on track 0, beamed, the
    second moved to the staff above: [collectSystem] lays out the beam
    through the first; a second measure whose two eighths are both moved
    up has its beam laid out by [collectPage]. *)
Definition wit_beam1 : TopBeam.Beam := TopBeam.mkBeam [TopBeam.mkBElem 1 0; TopBeam.mkBElem 2 (-1)] false.
Definition wit_beam2 : TopBeam.Beam := TopBeam.mkBeam [TopBeam.mkBElem 3 (-1); TopBeam.mkBElem 4 (-1)] false.
Definition wit_cr (i : nat) (b : TopBeam.Beam) : CR := mkCR (TopBeam.mkChordRest i (Some b)) true [] [mkNote None []].
Definition wit_seg (c : CR) (t : Z) : Segment := mkSegment true t [Some (ECR c)] [].
Definition wit_m1 : Measure := mkMeasure 0 480 [wit_seg (wit_cr 1 wit_beam1) 0; wit_seg (wit_cr 2 wit_beam1) 240].
Definition wit_m2 : Measure := mkMeasure 480 960 [wit_seg (wit_cr 3 wit_beam2) 480; wit_seg (wit_cr 4 wit_beam2) 720].
Definition wit_ms : list MB := [Meas wit_m1; Meas wit_m2].
Definition wit_fo (_ : Z) : list HairpinInfo := [].

(** The identities of a system's chord-rests are distinct, checked on
    the two measures above. *)
Ltac wit_positions :=
  intros k' c' [(m' & s' & Hm & Hs & _ & Hk)|(sys & m' & s' & Hsys & Hm & Hs & _ & Hk & _)];
  [| destruct Hsys as [<-|[]]; unfold elem_at in Hk];
  destruct Hm as [E|[E|[]]]; injection E as <-; simpl in Hs;
  destruct Hs as [<-|[<-|[]]]; destruct k' as [|k']; simpl in Hk; try (destruct k'; discriminate);
  injection Hk as <-; simpl; try discriminate; auto.

Lemma beam_layout_one_pass_witness :
  let x := BeamLayout (TopBeam.cr_id (cr (wit_cr 1 wit_beam1))) in
  let sys := snd (system_pass wit_fo wit_ms (-1) (-1)) in
  let page := page_pass (fun _ => true) 4 [wit_ms] in
  (In x sys <-> TopBeam.isTopBeam (cr (wit_cr 1 wit_beam1)) = true) /\
  (In x page <-> TopBeam.notTopBeam (cr (wit_cr 1 wit_beam1)) = true) /\
  ((In x sys \/ In x page) <-> TopBeam.beam_start (cr (wit_cr 1 wit_beam1)) = true) /\ ~ (In x sys /\ In x page).
Proof.
  apply (beam_layout_one_pass wit_fo (fun _ => true) 4 wit_ms wit_m1 (wit_seg (wit_cr 1 wit_beam1) 0) 0);
    [left; reflexivity | left; reflexivity | reflexivity | reflexivity | lia | reflexivity | wit_positions |].
  intros k' c' g H Hg. exfalso. revert Hg.
  destruct H as (sys & m' & s' & Hsys & Hm & Hs & _ & Hk & _). destruct Hsys as [<-|[]]. unfold elem_at in Hk.
  destruct Hm as [E|[E|[]]]; injection E as <-; simpl in Hs;
    destruct Hs as [<-|[<-|[]]]; destruct k' as [|k']; simpl in Hk; try (destruct k'; discriminate);
    injection Hk as <-; simpl; auto.
Defined.

Example beam_layout_example :
  filter (fun e => match e with BeamLayout _ => true | _ => false end) (snd (system_pass wit_fo wit_ms (-1) (-1)))
    = [BeamLayout 1] /\
  filter (fun e => match e with BeamLayout _ => true | _ => false end) (page_pass (fun _ => true) 4 [wit_ms])
    = [BeamLayout 3].
Proof. split; reflexivity. Qed.

(** A visible, autoplaced dynamic at the start of a hairpin is laid out
    but not autoplaced (the hairpin's layout places it). *)
Example dynamic_at_hairpin_example :
  ann_events (fun _ => [mkHairpinInfo true (Some 7) None]) 0 (mkAnn 7 DYNAMIC true true 0) = [AnnLayout 7] /\
  ann_events (fun _ => [mkHairpinInfo true (Some 8) None]) 0 (mkAnn 7 DYNAMIC true true 0)
    = [AnnLayout 7; Autoplace 7; ShapeAdd 0 7].
Proof. split; reflexivity. Qed.

(** Two voltas at offsets -1 and -3 and a hairpin: both voltas get -3. *)
Example volta_alignment_example :
  spanner_segments [mkSp 1 0 480 false true true (-1)%Q; mkSp 2 0 480 false false true 2%Q;
                    mkSp 3 480 960 false true true (-3)%Q]
    = [(1, (-3)%Q); (2, 2%Q); (3, (-3)%Q)].
Proof. reflexivity. Qed.

(** A spanner that ends where the system starts gets no segment, but
    an unmanaged one ending there is laid out for the system. *)
Example spanner_pass_end_at_start :
  spanner_pass (fun _ _ => [mkSp 1 0 480 false false true 0%Q]) [mkSp 2 0 480 false false true 0%Q] 0 480 960
    = Some ([], [], [2]).
Proof. reflexivity. Qed.

(** A slur from tick 0 to 1920 whose segment is at (12, 3) in a system of
    two measures at x = 10 and x = 50: its shape goes to the first
    measure only (the spanner ends where the second begins), shifted
    into that measure's coordinates. *)
Example spanner_shapes_example :
  SystemPasses.spanner_shapes
    [SystemPasses.mkMPos 1 true 0 1920 (10, 0)%Q []; SystemPasses.mkMPos 2 true 1920 3840 (50, 0)%Q []]
    [SystemPasses.mkSSeg 7 0 1920 0 false (12, 3)%Q] =
  [SystemPasses.AddSegShape 1 0 7 (2, 3)%Q].
Proof. reflexivity. Qed.
