(* ===== verification/SystemTrailer.v ===== *)
(** * Courtesy signatures at the end of a system ([Score::collectSystem], 3279-3384)

    After [collectSystem] has closed a system (outside line mode), the
    last measure [m] of the system gets its courtesy elements for the
    next measure [nm]: a courtesy time signature per staff in [m]'s
    [TimeSigAnnounce] segment when [nm] starts with a time signature that
    shows one, a courtesy key signature per staff in [m]'s
    [KeySigAnnounce] segment when [m->hasCourtesyKeySig()], and the clef
    changes at [m]'s end are hidden when no courtesy clef is wanted.
    [m->setHasSystemTrailer] records whether any courtesy element was
    made, and [computeMinWidth(m->first(), false)] is then called again.

    A segment at the end tick is [None] when [findSegment] finds none,
    else the list of its elements per staff (track [staff * VOICES]).
    The undo commands the code issues ([undoAddElement],
    [undoRemoveElement], [ChangeKeySig]) are recorded in order in a
    trace; [Measure::undoGetSegment] and [TimeSig::setFrom] are outside
    src/ and modelled from their contract: the first creates a missing
    segment (one [undoAddElement]), the second copies the signature. *)

From Stdlib Require Import List Lia Bool ZArith.
From S2P Require Import Prelude SystemHeader.
Import ListNotations.
Open Scope nat_scope.

Module SystemTrailer.

Import SystemHeader.SystemHeader.

(** What the trailer reads and writes of a [TimeSig]: the signature
    [setFrom] copies, [showCourtesySig()] and [generated()]. *)
Record TimeSig := mkTimeSig { sig : Z * Z; showCourtesySig : bool; ts_generated : bool }.

(** A clef at [m]'s end: [showCourtesy()] and whether [clear()] made it
    invisible. *)
Record CClef := mkCClef { cl_showCourtesy : bool; cl_cleared : bool }.

(** The two announce segments the trailer may create. *)
Inductive AnnType := TimeSigAnnounce | KeySigAnnounce.

(** The undo commands, in the order the code issues them. *)
Inductive Undo :=
  | AddSegment (t : AnnType)
  | RemoveSegment (t : AnnType)
  | AddTimeSig (staff : nat)
  | AddKeySig (staff : nat)
  | ChangeKeySigCmd (staff : nat) (k : KeySigEvent)
  | RemoveKeySig (staff : nat).

(** The last measure of the system, as far as the trailer reads and
    writes it: its flags and its segments at [endTick()]. *)
Record Meas := mkMeas {
  hasSystemTrailer : bool;
  isFinalMeasureOfSection : bool;
  repeatEnd : bool;
  hasCourtesyKeySig : bool;
  timeSigAnnounce : option (list (option TimeSig));
  keySigAnnounce : option (list (option KeySig));
  clefSeg : option (list (option CClef)) }.

(** The trailer's result: the measure, the undo trace and whether
    [computeMinWidth] was called again. *)
Record Trailer := mkTrailer { t_meas : Meas; t_undo : list Undo; t_minWidth : bool }.

Definition set_trailer (b : bool) (m : Meas) : Meas :=
  mkMeas b (isFinalMeasureOfSection m) (repeatEnd m) (hasCourtesyKeySig m)
    (timeSigAnnounce m) (keySigAnnounce m) (clefSeg m).
Definition set_tsa (s : option (list (option TimeSig))) (m : Meas) : Meas :=
  mkMeas (hasSystemTrailer m) (isFinalMeasureOfSection m) (repeatEnd m) (hasCourtesyKeySig m)
    s (keySigAnnounce m) (clefSeg m).
Definition set_ksa (s : option (list (option KeySig))) (m : Meas) : Meas :=
  mkMeas (hasSystemTrailer m) (isFinalMeasureOfSection m) (repeatEnd m) (hasCourtesyKeySig m)
    (timeSigAnnounce m) s (clefSeg m).
Definition set_clefs (s : option (list (option CClef))) (m : Meas) : Meas :=
  mkMeas (hasSystemTrailer m) (isFinalMeasureOfSection m) (repeatEnd m) (hasCourtesyKeySig m)
    (timeSigAnnounce m) (keySigAnnounce m) s.

(** [ts->setFrom(nts)]: the courtesy takes the next measure's signature. *)
Definition setFrom (nts ts : TimeSig) : TimeSig := mkTimeSig (sig nts) (showCourtesySig ts) (ts_generated ts).

(** [new TimeSig(this); ts->setGenerated(true)]. *)
Definition newTimeSig : TimeSig := mkTimeSig (4%Z, 4%Z) true true.

(** [new KeySig(this); ks->setKeySigEvent(key2); ks->setGenerated(true)]. *)
Definition newKeySig (key2 : KeySigEvent) : KeySig := mkKeySig key2 true true.

(** [ChangeKeySig(ks, key2, ks->showCourtesy())]. *)
Definition changeKeySig (key2 : KeySigEvent) (ks : KeySig) : KeySig :=
  mkKeySig key2 (ks_generated ks) (showCourtesy ks).

(** [m->undoGetSegment(type, tick)] on the elements of a segment: the
    segment found, or a new empty one (one slot per staff) and its
    [undoAddElement]. *)
Definition undoGetSegment {A} (t : AnnType) (n : nat) (seg : option (list (option A)))
    : list (option A) * list Undo :=
  match seg with
  | Some l => (l, [])
  | None => (repeat None n, [AddSegment t])
  end.

(** [clef->clear()] on a clef. *)
Definition clear (c : CClef) : CClef := mkCClef (cl_showCourtesy c) true.

Section Trailer.

(** [styleB(StyleIdx::genCourtesyTimesig)], [genCourtesyClef] and
    [_layoutMode != LayoutMode::FLOAT]. *)
Variable genCourtesyTimesig genCourtesyClef notFloat : bool.
(** [staff->keySigEvent(tick)] of each staff, in staff order: its
    length is [_staves.size()], that is [nstaves()]. *)
Variable staffKeys : list KeySigEvent.

Definition nstaves : nat := length staffKeys.

(** Lines 3296-3303: whether the next measure's time signature gets a
    courtesy: a [TimeSig] segment, the style, not the end of a section
    (outside float mode), and the first track's signature not turned off. *)
Definition showCourtesySig_of (m : Meas) (tss : option (list (option TimeSig))) : bool :=
  match tss with
  | None => false
  | Some els =>
      genCourtesyTimesig && negb (isFinalMeasureOfSection m && notFloat) &&
      match nth 0 els None with
      | Some ts => showCourtesySig ts
      | None => true
      end
  end.

(** Lines 3309-3324, the loop over the staves from [i] on ([k] staves
    left): a staff whose next time signature exists gets one in [s],
    made (and added) when missing, then set from it. *)
Fixpoint time_loop (k i : nat) (tss s : list (option TimeSig)) (u : list Undo)
    : list (option TimeSig) * list Undo :=
  match k with
  | O => (s, u)
  | S k' =>
      match nth i tss None with
      | None => time_loop k' (S i) tss s u
      | Some nts =>
          let '(ts, u') :=
            match nth i s None with
            | Some ts => (ts, u)
            | None => (newTimeSig, u ++ [AddTimeSig i])
            end in
          time_loop k' (S i) tss (set_nth i (Some (setFrom nts ts)) s) u'
      end
  end.

(** Lines 3289-3331: reset the trailer flag, then make the courtesy time
    signatures or remove the [TimeSigAnnounce] segment. *)
Definition time_part (m : Meas) (tss : option (list (option TimeSig))) : Meas * list Undo :=
  let m := set_trailer false m in
  if showCourtesySig_of m tss then
    let '(s, u) := undoGetSegment TimeSigAnnounce nstaves (timeSigAnnounce m) in
    let '(s', u') := time_loop nstaves 0 (match tss with Some l => l | None => [] end) s u in
    (set_tsa (Some s') (set_trailer true m), u')
  else
    match timeSigAnnounce m with
    | Some _ => (set_tsa None m, [RemoveSegment TimeSigAnnounce])
    | None => (m, [])
    end.

(** Lines 3348-3371, one staff of the key signature loop, on the
    [KeySigAnnounce] segment [s] (found, or made when [show]). *)
Definition key_staff (show : bool) (i : nat) (key2 : KeySigEvent) (m : Meas)
    (s : option (list (option KeySig))) (u : list Undo)
    : Meas * option (list (option KeySig)) * list Undo :=
  if show then
    let m := set_trailer true m in
    let l := match s with Some l => l | None => [] end in
    match nth i l None with
    | None => (m, Some (set_nth i (Some (newKeySig key2)) l), u ++ [AddKeySig i])
    | Some ks =>
        if KeySigEvent_eqb (keySigEvent ks) key2 then (m, s, u)
        else (m, Some (set_nth i (Some (changeKeySig key2 ks)) l), u ++ [ChangeKeySigCmd i key2])
    end
  else
    match s with
    | Some l =>
        match nth i l None with
        | Some _ => (m, Some (set_nth i None l), u ++ [RemoveKeySig i])
        | None => (m, s, u)
        end
    | None => (m, s, u)
    end.

(** Lines 3374-3376: no courtesy clef is due for [c] at the end of [m]. *)
Definition clef_hide (m : Meas) (c : CClef) : bool :=
  negb genCourtesyClef || repeatEnd m || isFinalMeasureOfSection m || negb (cl_showCourtesy c).

(** Lines 3372-3379: the clef at [m]'s end on staff [i] is hidden unless
    a courtesy clef is due. *)
Definition clef_staff (i : nat) (m : Meas) (cs : option (list (option CClef)))
    : option (list (option CClef)) :=
  match cs with
  | Some l =>
      match nth i l None with
      | Some c =>
          if clef_hide m c then Some (set_nth i (Some (clear c)) l) else cs
      | None => cs
      end
  | None => cs
  end.

(** Lines 3344-3380, the staves from [i] on. *)
Fixpoint key_loop (show : bool) (i : nat) (keys : list KeySigEvent) (m : Meas)
    (s : option (list (option KeySig))) (cs : option (list (option CClef))) (u : list Undo)
    : Meas * option (list (option KeySig)) * option (list (option CClef)) * list Undo :=
  match keys with
  | [] => (m, s, cs, u)
  | key2 :: keys' =>
      let '(m', s', u') := key_staff show i key2 m s u in
      key_loop show (S i) keys' m' s' (clef_staff i m' cs) u'
  end.

(** Lines 3333-3380: the courtesy key signatures and the clefs. *)
Definition key_part (m : Meas) (u : list Undo) : Meas * list Undo :=
  let show := hasCourtesyKeySig m in
  let '(s, u0) :=
    if show then
      let '(l, v) := undoGetSegment KeySigAnnounce nstaves (keySigAnnounce m) in (Some l, v)
    else (keySigAnnounce m, []) in
  let '(m', s', cs', u') := key_loop show 0 staffKeys m s (clefSeg m) (u ++ u0) in
  (set_clefs cs' (set_ksa s' m'), u').

(** Lines 3284-3384: the trailer of the system's last measure [m], given
    the next measure's [TimeSig] segment at [m->endTick()] ([None] for
    no next measure: nothing is done). *)
Definition systemTrailer (m : Meas) (nm : option (option (list (option TimeSig)))) : Trailer :=
  match nm with
  | None => mkTrailer m [] false
  | Some tss =>
      let '(m1, u1) := time_part m tss in
      let '(m2, u2) := key_part m1 u1 in
      mkTrailer m2 u2 (hasSystemTrailer m2)
  end.


(** ** Well-formed segments: one slot per staff *)

Definition slots {A} (n : nat) (s : option (list (option A))) : Prop :=
  match s with Some l => length l = n | None => True end.

Definition wf (n : nat) (m : Meas) : Prop :=
  slots n (timeSigAnnounce m) /\ slots n (keySigAnnounce m) /\ slots n (clefSeg m).

(** ** Shared list and record facts *)

Lemma set_nth_some_same {A} i (x : A) l : nth i l None = Some x -> set_nth i (Some x) l = l.
Proof.
  revert i; induction l as [|y l IH]; intros [|i] E; simpl in *; try discriminate.
  - now subst.
  - now rewrite IH.
Qed.

Lemma nth_some_lt {A} i (l : list (option A)) x : nth i l None = Some x -> i < length l.
Proof. intros E. destruct (Nat.lt_ge_cases i (length l)) as [|H]; [assumption|]. rewrite nth_overflow in E; congruence. Qed.

Lemma set_trailer_same m : set_trailer (hasSystemTrailer m) m = m.
Proof. destruct m; reflexivity. Qed.

Lemma set_trailer_twice a b m : set_trailer a (set_trailer b m) = set_trailer a m.
Proof. reflexivity. Qed.

Lemma setFrom_same nts ts : sig ts = sig nts -> setFrom nts ts = ts.
Proof. destruct ts; simpl; intros ->; reflexivity. Qed.

Lemma clear_same c : cl_cleared c = true -> clear c = c.
Proof. destruct c; simpl; intros ->; reflexivity. Qed.

(** ** The time signature loop *)

Lemma time_loop_length k : forall i tss s u, length (fst (time_loop k i tss s u)) = length s.
Proof.
  induction k as [|k IH]; intros i tss s u; simpl; [reflexivity|].
  destruct (nth i tss None) as [nts|]; [|apply IH].
  destruct (nth i s None); rewrite IH; apply length_set_nth.
Qed.

(** Every staff from [i] on whose next time signature exists holds one
    with its signature afterwards; the other slots keep what they held. *)
Lemma time_loop_spec k : forall i tss s u, i + k <= length s ->
  let s' := fst (time_loop k i tss s u) in
  (forall j nts, i <= j < i + k -> nth j tss None = Some nts ->
     exists ts, nth j s' None = Some ts /\ sig ts = sig nts) /\
  (forall j, (j < i \/ i + k <= j \/ nth j tss None = None) -> nth j s' None = nth j s None).
Proof.
  induction k as [|k IH]; intros i tss s u Hlen; simpl.
  { split; [intros; lia | reflexivity]. }
  destruct (nth i tss None) as [nts|] eqn:Ei.
  - set (ts := match nth i s None with Some ts => ts | None => newTimeSig end).
    assert (Hstep : fst (time_loop k (S i) tss (set_nth i (Some (setFrom nts ts)) s)
                    (match nth i s None with Some _ => u | None => u ++ [AddTimeSig i] end))
                    = fst (let '(ts0, u') := match nth i s None with
                                 | Some ts0 => (ts0, u) | None => (newTimeSig, u ++ [AddTimeSig i]) end in
                           time_loop k (S i) tss (set_nth i (Some (setFrom nts ts0)) s) u'))
      by (unfold ts; destruct (nth i s None); reflexivity).
    rewrite <- Hstep.
    destruct (IH (S i) tss (set_nth i (Some (setFrom nts ts)) s)
               (match nth i s None with Some _ => u | None => u ++ [AddTimeSig i] end))
      as [H1 H2]; [rewrite length_set_nth; lia|].
    split.
    + intros j nts' Hj Ej. destruct (Nat.eq_dec j i) as [->|Hne].
      * rewrite Ei in Ej. injection Ej as <-. exists (setFrom nts ts).
        rewrite H2 by lia. rewrite nth_set_nth_eq by lia. split; reflexivity.
      * apply H1; [lia | exact Ej].
    + intros j Hj. rewrite H2.
      * rewrite nth_set_nth_ne; [reflexivity|]. intros <-. destruct Hj as [Hj|[Hj|Hj]]; [lia|lia|congruence].
      * destruct Hj as [Hj|[Hj|Hj]]; [left; lia|right; left; lia|right; right; exact Hj].
  - destruct (IH (S i) tss s u) as [H1 H2]; [lia|]. split.
    + intros j nts' Hj Ej. destruct (Nat.eq_dec j i) as [->|Hne]; [congruence|]. apply H1; [lia|exact Ej].
    + intros j Hj. apply H2. destruct (Nat.eq_dec j i) as [->|Hne]; [right; right; exact Ei|].
      destruct Hj as [Hj|[Hj|Hj]]; [left; lia|right; left; lia|right; right; exact Hj].
Qed.

(** A segment that already holds the next signatures is left as it is,
    and no command is issued. *)
Lemma time_loop_stable k : forall i tss s u,
  (forall j nts, i <= j < i + k -> nth j tss None = Some nts ->
     exists ts, nth j s None = Some ts /\ sig ts = sig nts) ->
  time_loop k i tss s u = (s, u).
Proof.
  induction k as [|k IH]; intros i tss s u Hs; simpl; [reflexivity|].
  destruct (nth i tss None) as [nts|] eqn:Ei.
  - destruct (Hs i nts ltac:(lia) Ei) as [ts [Es Hsig]]. rewrite Es.
    rewrite setFrom_same, set_nth_some_same by assumption.
    apply IH. intros j nts' Hj. apply Hs. lia.
  - apply IH. intros j nts' Hj. apply Hs. lia.
Qed.

(** The courtesy time signatures the time part leaves, as a predicate
    on the measure. *)
Definition time_done (m : Meas) (tss : option (list (option TimeSig))) : Prop :=
  if showCourtesySig_of m tss then
    exists s, timeSigAnnounce m = Some s /\ length s = nstaves /\
      forall j nts, j < nstaves -> nth j (match tss with Some l => l | None => [] end) None = Some nts ->
        exists ts, nth j s None = Some ts /\ sig ts = sig nts
  else timeSigAnnounce m = None.

Lemma showCourtesySig_of_final m m' tss :
  isFinalMeasureOfSection m' = isFinalMeasureOfSection m -> showCourtesySig_of m' tss = showCourtesySig_of m tss.
Proof. unfold showCourtesySig_of. intros ->. reflexivity. Qed.

Lemma showCourtesySig_of_trailer b m tss : showCourtesySig_of (set_trailer b m) tss = showCourtesySig_of m tss.
Proof. reflexivity. Qed.

Lemma time_part_done m tss : slots nstaves (timeSigAnnounce m) -> time_done (fst (time_part m tss)) tss.
Proof.
  unfold time_part, time_done. intros Hsl. rewrite showCourtesySig_of_trailer.
  set (els := match tss with Some l => l | None => [] end).
  destruct (showCourtesySig_of m tss) eqn:Esh.
  - change (timeSigAnnounce (set_trailer false m)) with (timeSigAnnounce m).
    destruct (undoGetSegment TimeSigAnnounce nstaves (timeSigAnnounce m)) as [s u] eqn:Eg.
    assert (Hl : length s = nstaves).
    { unfold undoGetSegment in Eg. destruct (timeSigAnnounce m); injection Eg as <- <-;
        [exact Hsl | apply repeat_length]. }
    destruct (time_loop nstaves 0 els s u) as [s' u'] eqn:El. cbn [fst].
    erewrite (showCourtesySig_of_final m) by reflexivity. rewrite Esh.
    pose proof (time_loop_length nstaves 0 els s u) as HL.
    destruct (time_loop_spec nstaves 0 els s u ltac:(lia)) as [H1 _].
    rewrite El in H1, HL. simpl in H1, HL.
    exists s'. split; [reflexivity|]. split; [lia|]. intros j nts Hj. apply H1. lia.
  - change (timeSigAnnounce (set_trailer false m)) with (timeSigAnnounce m).
    destruct (timeSigAnnounce m) eqn:Et; cbn [fst];
      erewrite (showCourtesySig_of_final m) by reflexivity; rewrite Esh; [reflexivity|exact Et].
Qed.

(** ** The key signature and clef loop *)

Definition kl_meas (r : Meas * option (list (option KeySig)) * option (list (option CClef)) * list Undo) : Meas :=
  fst (fst (fst r)).
Definition kl_keys (r : Meas * option (list (option KeySig)) * option (list (option CClef)) * list Undo) :=
  snd (fst (fst r)).
Definition kl_clefs (r : Meas * option (list (option KeySig)) * option (list (option CClef)) * list Undo) :=
  snd (fst r).

Lemma key_staff_meas show i key2 m s u :
  fst (fst (key_staff show i key2 m s u)) = if show then set_trailer true m else m.
Proof.
  unfold key_staff. destruct show.
  - destruct (nth i _ None) as [ks|]; [destruct (KeySigEvent_eqb _ _)|]; reflexivity.
  - destruct s as [l|]; [destruct (nth i l None)|]; reflexivity.
Qed.

(** The loop changes nothing of the measure but the trailer flag, which
    it sets when it shows a key signature on some staff. *)
Lemma key_loop_meas show keys : forall i m s cs u,
  kl_meas (key_loop show i keys m s cs u) =
  set_trailer (hasSystemTrailer m || (show && Nat.ltb 0 (length keys))) m.
Proof.
  induction keys as [|key2 keys IH]; intros i m s cs u; simpl.
  - rewrite andb_false_r, orb_false_r. symmetry. apply set_trailer_same.
  - pose proof (key_staff_meas show i key2 m s u) as E.
    destruct (key_staff show i key2 m s u) as [[m' s'] u']. simpl in E. subst m'.
    rewrite IH. destruct show; simpl; rewrite ?orb_true_r, ?orb_false_r, ?set_trailer_same; reflexivity.
Qed.

Lemma key_staff_show i key2 m l u : i < length l ->
  exists l', snd (fst (key_staff true i key2 m (Some l) u)) = Some l' /\ length l' = length l /\
    (exists ks, nth i l' None = Some ks /\ keySigEvent ks = key2) /\
    (forall j, j <> i -> nth j l' None = nth j l None).
Proof.
  intros Hi. unfold key_staff. destruct (nth i l None) as [ks|] eqn:E.
  - destruct (KeySigEvent_eqb_spec (keySigEvent ks) key2) as [Ek|Ek]; simpl.
    + exists l. split; [reflexivity|]. split; [reflexivity|]. split; [exists ks; auto | auto].
    + eexists. split; [reflexivity|]. rewrite length_set_nth. split; [reflexivity|].
      split; [exists (changeKeySig key2 ks); rewrite nth_set_nth_eq by lia; auto|].
      intros j Hj. apply nth_set_nth_ne. congruence.
  - simpl. eexists. split; [reflexivity|]. rewrite length_set_nth. split; [reflexivity|].
    split; [exists (newKeySig key2); rewrite nth_set_nth_eq by lia; auto|].
    intros j Hj. apply nth_set_nth_ne. congruence.
Qed.

Lemma key_staff_hide i key2 m l u :
  exists l', snd (fst (key_staff false i key2 m (Some l) u)) = Some l' /\ length l' = length l /\
    nth i l' None = None /\ (forall j, j <> i -> nth j l' None = nth j l None).
Proof.
  unfold key_staff. destruct (nth i l None) as [ks|] eqn:E; simpl.
  - eexists. split; [reflexivity|]. rewrite length_set_nth. split; [reflexivity|].
    split; [apply nth_set_nth_eq; eapply nth_some_lt; eauto|].
    intros j Hj. apply nth_set_nth_ne. congruence.
  - exists l. auto.
Qed.

(** With [show], staff [i + j] ends with a key signature of the [j]-th
    key; the slots before [i] are not touched. *)
Lemma key_loop_show keys : forall i m l cs u, i + length keys <= length l ->
  exists l', kl_keys (key_loop true i keys m (Some l) cs u) = Some l' /\ length l' = length l /\
    (forall j, j < i -> nth j l' None = nth j l None) /\
    (forall j key2, nth_error keys j = Some key2 ->
       exists ks, nth (i + j) l' None = Some ks /\ keySigEvent ks = key2).
Proof.
  induction keys as [|key2 keys IH]; intros i m l cs u Hlen; cbn [key_loop length] in *.
  - exists l. split; [reflexivity|]. split; [reflexivity|]. split; [auto|]. intros [|j]; discriminate.
  - destruct (key_staff_show i key2 m l u ltac:(lia)) as (l1 & E1 & L1 & [ks [Eks Hks]] & O1).
    destruct (key_staff true i key2 m (Some l) u) as [[m1 s1] u1]. simpl in E1. subst s1.
    destruct (IH (S i) m1 l1 (clef_staff i m1 cs) u1 ltac:(lia)) as (l2 & E2 & L2 & O2 & H2).
    exists l2. split; [exact E2|]. split; [lia|]. split.
    + intros j Hj. rewrite O2 by lia. apply O1. lia.
    + intros [|j] k Ej; simpl in Ej.
      * injection Ej as <-. rewrite Nat.add_0_r, O2 by lia. eauto.
      * replace (i + S j) with (S i + j) by lia. eauto.
Qed.

(** Without [show], every slot from [i] on is emptied. *)
Lemma key_loop_hide keys : forall i m s cs u,
  match kl_keys (key_loop false i keys m s cs u), s with
  | None, None => True
  | Some l', Some l => length l' = length l /\ (forall j, j < i -> nth j l' None = nth j l None) /\
      forall j, i <= j < i + length keys -> nth j l' None = None
  | _, _ => False
  end.
Proof.
  induction keys as [|key2 keys IH]; intros i m s cs u; cbn [key_loop length].
  - destruct s; [split; [reflexivity|]; split; [auto | intros; lia] | exact I].
  - destruct s as [l|].
    + destruct (key_staff_hide i key2 m l u) as (l1 & E1 & L1 & N1 & O1).
      destruct (key_staff false i key2 m (Some l) u) as [[m1 s1] u1]. simpl in E1. subst s1.
      specialize (IH (S i) m1 (Some l1) (clef_staff i m1 cs) u1).
      destruct (kl_keys _) as [l2|]; [|contradiction]. destruct IH as (L2 & O2 & N2).
      split; [lia|]. split; [intros j Hj; rewrite O2 by lia; apply O1; lia|].
      intros j Hj. destruct (Nat.eq_dec j i) as [->|Hne]; [rewrite O2 by lia; exact N1 | apply N2; lia].
    + exact (IH (S i) m None (clef_staff i m cs) u).
Qed.

(** What the loop makes of a clef at [m]'s end. *)
Definition clef_after (m : Meas) (c : option CClef) : option CClef :=
  option_map (fun c => if clef_hide m c then clear c else c) c.

Lemma clef_hide_trailer b m c : clef_hide (set_trailer b m) c = clef_hide m c.
Proof. reflexivity. Qed.

Lemma clef_staff_spec i m l :
  exists l', clef_staff i m (Some l) = Some l' /\ length l' = length l /\
    nth i l' None = clef_after m (nth i l None) /\ (forall j, j <> i -> nth j l' None = nth j l None).
Proof.
  unfold clef_staff, clef_after. destruct (nth i l None) as [c|] eqn:E; simpl.
  - destruct (clef_hide m c).
    + eexists. split; [reflexivity|]. rewrite length_set_nth. split; [reflexivity|].
      split; [apply nth_set_nth_eq; eapply nth_some_lt; eauto|]. intros j Hj. apply nth_set_nth_ne. congruence.
    + exists l. auto.
  - exists l. auto.
Qed.

(** Each clef from [i] on is hidden when no courtesy clef is due. *)
Lemma key_loop_clefs show keys : forall i m s l u,
  exists l', kl_clefs (key_loop show i keys m s (Some l) u) = Some l' /\ length l' = length l /\
    (forall j, j < i -> nth j l' None = nth j l None) /\
    (forall j, i <= j < i + length keys -> nth j l' None = clef_after m (nth j l None)).
Proof.
  induction keys as [|key2 keys IH]; intros i m s l u; cbn [key_loop length].
  - exists l. split; [reflexivity|]. split; [reflexivity|]. split; [auto | intros; lia].
  - pose proof (key_staff_meas show i key2 m s u) as Em.
    destruct (key_staff show i key2 m s u) as [[m1 s1] u1]. simpl in Em.
    destruct (clef_staff_spec i m1 l) as (l1 & E1 & L1 & N1 & O1). rewrite E1.
    destruct (IH (S i) m1 s1 l1 u1) as (l2 & E2 & L2 & O2 & H2).
    exists l2. split; [exact E2|]. split; [lia|]. split; [intros j Hj; rewrite O2 by lia; apply O1; lia|].
    assert (Hm : forall c, clef_after m1 c = clef_after m c)
      by (intros [c|]; [|reflexivity]; unfold clef_after; simpl; subst m1; destruct show; reflexivity).
    intros j Hj. destruct (Nat.eq_dec j i) as [->|Hne].
    + rewrite O2, N1 by lia. apply Hm.
    + rewrite H2, O1, Hm by lia. reflexivity.
Qed.

Lemma key_loop_no_clefs show keys : forall i m s u, kl_clefs (key_loop show i keys m s None u) = None.
Proof.
  induction keys as [|key2 keys IH]; intros i m s u; cbn [key_loop]; [reflexivity|].
  destruct (key_staff show i key2 m s u) as [[m1 s1] u1]. apply IH.
Qed.

Definition kl_undo (r : Meas * option (list (option KeySig)) * option (list (option CClef)) * list Undo) :=
  snd r.

(** The key signatures the loop leaves from staff [i] on. *)
Definition keys_done (show : bool) (i : nat) (keys : list KeySigEvent) (s : option (list (option KeySig))) : Prop :=
  if show then
    exists l, s = Some l /\ forall j key2, nth_error keys j = Some key2 ->
      exists ks, nth (i + j) l None = Some ks /\ keySigEvent ks = key2
  else match s with
       | Some l => forall j, j < length keys -> nth (i + j) l None = None
       | None => True
       end.

Lemma keys_done_tail show i key2 keys s :
  keys_done show i (key2 :: keys) s -> keys_done show (S i) keys s.
Proof.
  unfold keys_done. destruct show.
  - intros (l & -> & H). exists l. split; [reflexivity|]. intros j k Ej.
    replace (S i + j) with (i + S j) by lia. apply H. exact Ej.
  - destruct s as [l|]; [|auto]. intros H j Hj. replace (S i + j) with (i + S j) by lia. apply H. simpl. lia.
Qed.

(** On key signatures that are already there, the loop changes none and
    issues no command. *)
Lemma key_loop_stable show keys : forall i m s cs u, keys_done show i keys s ->
  kl_keys (key_loop show i keys m s cs u) = s /\ kl_undo (key_loop show i keys m s cs u) = u.
Proof.
  induction keys as [|key2 keys IH]; intros i m s cs u Hd; cbn [key_loop]; [split; reflexivity|].
  assert (Hs : snd (fst (key_staff show i key2 m s u)) = s /\ snd (key_staff show i key2 m s u) = u).
  { unfold keys_done in Hd. unfold key_staff. destruct show.
    - destruct Hd as (l & -> & H). destruct (H 0 key2 eq_refl) as [ks [E Ek]]. rewrite Nat.add_0_r in E.
      rewrite E. destruct (KeySigEvent_eqb_spec (keySigEvent ks) key2); [split; reflexivity | contradiction].
    - destruct s as [l|]; [|split; reflexivity].
      specialize (Hd 0 ltac:(simpl; lia)). rewrite Nat.add_0_r in Hd. rewrite Hd. split; reflexivity. }
  destruct (key_staff show i key2 m s u) as [[m1 s1] u1]. simpl in Hs. destruct Hs as [-> ->].
  apply IH. eapply keys_done_tail; eauto.
Qed.

(** ** The key part and the whole trailer *)

(** The [KeySigAnnounce] segment the key loop starts from, and the
    command that made it. *)
Definition key_seg (m : Meas) : option (list (option KeySig)) :=
  if hasCourtesyKeySig m then Some (fst (undoGetSegment KeySigAnnounce nstaves (keySigAnnounce m)))
  else keySigAnnounce m.
Definition key_u0 (m : Meas) : list Undo :=
  if hasCourtesyKeySig m then snd (undoGetSegment KeySigAnnounce nstaves (keySigAnnounce m)) else [].

Lemma key_part_eq m u :
  key_part m u =
  (let r := key_loop (hasCourtesyKeySig m) 0 staffKeys m (key_seg m) (clefSeg m) (u ++ key_u0 m) in
   (set_clefs (kl_clefs r) (set_ksa (kl_keys r) (kl_meas r)), kl_undo r)).
Proof.
  unfold key_part, key_seg, key_u0. destruct (hasCourtesyKeySig m);
    [destruct (undoGetSegment KeySigAnnounce nstaves (keySigAnnounce m))|];
    destruct (key_loop _ _ _ _ _ _ _) as [[[? ?] ?] ?]; reflexivity.
Qed.

Lemma key_part_meas m u :
  let m2 := fst (key_part m u) in
  hasSystemTrailer m2 = hasSystemTrailer m || (hasCourtesyKeySig m && Nat.ltb 0 nstaves) /\
  isFinalMeasureOfSection m2 = isFinalMeasureOfSection m /\ repeatEnd m2 = repeatEnd m /\
  hasCourtesyKeySig m2 = hasCourtesyKeySig m /\ timeSigAnnounce m2 = timeSigAnnounce m.
Proof. rewrite key_part_eq. simpl. rewrite key_loop_meas. repeat split. Qed.

Lemma time_part_meas m tss :
  let m1 := fst (time_part m tss) in
  hasSystemTrailer m1 = showCourtesySig_of m tss /\
  isFinalMeasureOfSection m1 = isFinalMeasureOfSection m /\ repeatEnd m1 = repeatEnd m /\
  hasCourtesyKeySig m1 = hasCourtesyKeySig m /\ keySigAnnounce m1 = keySigAnnounce m /\
  clefSeg m1 = clefSeg m.
Proof.
  unfold time_part. rewrite showCourtesySig_of_trailer. destruct (showCourtesySig_of m tss) eqn:E.
  - destruct (undoGetSegment _ _ _) as [s u]. destruct (time_loop _ _ _ _ _) as [s' u']. repeat split.
  - destruct (timeSigAnnounce (set_trailer false m)); repeat split.
Qed.

Lemma key_seg_length m : slots nstaves (keySigAnnounce m) -> hasCourtesyKeySig m = true ->
  exists l, key_seg m = Some l /\ length l = nstaves.
Proof.
  unfold key_seg, slots. intros Hs ->. destruct (keySigAnnounce m) as [l|]; simpl; eexists; split; eauto.
  apply repeat_length.
Qed.

Lemma key_part_keys m u : slots nstaves (keySigAnnounce m) ->
  let s := keySigAnnounce (fst (key_part m u)) in
  keys_done (hasCourtesyKeySig m) 0 staffKeys s /\ slots nstaves s.
Proof.
  intros Hs. rewrite key_part_eq. cbn zeta. simpl. unfold keys_done.
  destruct (hasCourtesyKeySig m) eqn:Eh.
  - destruct (key_seg_length m Hs Eh) as (l & El & Ll). rewrite El.
    destruct (key_loop_show staffKeys 0 m l (clefSeg m) (u ++ key_u0 m) ltac:(unfold nstaves in Ll; lia))
      as (l' & E' & L' & _ & H'). rewrite E'. split; [exists l'; split; [reflexivity | exact H'] | simpl; lia].
  - unfold key_seg. rewrite Eh.
    pose proof (key_loop_hide staffKeys 0 m (keySigAnnounce m) (clefSeg m) (u ++ key_u0 m)) as H.
    destruct (kl_keys _) as [l'|], (keySigAnnounce m) as [l|]; try contradiction; [|split; exact I].
    destruct H as (L & _ & N). split; [intros j Hj; apply N; lia | simpl in *; unfold nstaves in *; lia].
Qed.

Lemma key_part_clefs m u : slots nstaves (clefSeg m) ->
  match clefSeg m with
  | None => clefSeg (fst (key_part m u)) = None
  | Some l => exists l', clefSeg (fst (key_part m u)) = Some l' /\ length l' = length l /\
      forall j, j < nstaves -> nth j l' None = clef_after m (nth j l None)
  end.
Proof.
  intros _. rewrite key_part_eq. cbn zeta. simpl. destruct (clefSeg m) as [l|].
  - destruct (key_loop_clefs (hasCourtesyKeySig m) staffKeys 0 m (key_seg m) l (u ++ key_u0 m))
      as (l' & E' & L' & _ & H'). exists l'. split; [exact E'|]. split; [exact L'|].
    intros j Hj. apply H'. unfold nstaves in Hj. lia.
  - apply key_loop_no_clefs.
Qed.

(** ** The second run finds nothing to do *)

Lemma time_part_stable m tss : time_done m tss ->
  time_part m tss = (set_trailer (showCourtesySig_of m tss) m, []).
Proof.
  unfold time_done, time_part. rewrite showCourtesySig_of_trailer. destruct (showCourtesySig_of m tss).
  - intros (s & Es & Ls & H). change (timeSigAnnounce (set_trailer false m)) with (timeSigAnnounce m).
    rewrite Es. simpl. rewrite time_loop_stable by (intros j nts Hj; apply H; lia).
    destruct m; simpl in *; subst; reflexivity.
  - intros Es. change (timeSigAnnounce (set_trailer false m)) with (timeSigAnnounce m). rewrite Es. reflexivity.
Qed.

(** Clefs already hidden where no courtesy clef is due. *)
Definition clefs_done (m : Meas) : Prop :=
  match clefSeg m with
  | Some l => forall j, j < nstaves -> clef_after m (nth j l None) = nth j l None
  | None => True
  end.

Lemma clef_after_idem m c : clef_after m (clef_after m c) = clef_after m c.
Proof.
  destruct c as [c|]; [|reflexivity]. unfold clef_after; simpl.
  destruct (clef_hide m c) eqn:E; simpl; [|rewrite E; reflexivity].
  replace (clef_hide m (clear c)) with true by (rewrite <- E; reflexivity). reflexivity.
Qed.

Lemma key_part_stable m u :
  keys_done (hasCourtesyKeySig m) 0 staffKeys (keySigAnnounce m) -> wf nstaves m -> clefs_done m ->
  key_part m u = (set_trailer (hasSystemTrailer m || (hasCourtesyKeySig m && Nat.ltb 0 nstaves)) m, u).
Proof.
  intros Hk (_ & _ & Hcl) Hc. rewrite key_part_eq. cbn zeta.
  assert (Hseg : key_seg m = keySigAnnounce m /\ key_u0 m = []).
  { unfold key_seg, key_u0, keys_done in *. destruct (hasCourtesyKeySig m); [|auto].
    destruct Hk as (l & -> & _). auto. }
  destruct Hseg as [-> ->]. rewrite app_nil_r.
  destruct (key_loop_stable (hasCourtesyKeySig m) staffKeys 0 m (keySigAnnounce m) (clefSeg m) u Hk) as [Ek Eu].
  rewrite Ek, Eu, key_loop_meas.
  assert (Ec : kl_clefs (key_loop (hasCourtesyKeySig m) 0 staffKeys m (keySigAnnounce m) (clefSeg m) u) = clefSeg m).
  { unfold clefs_done, slots in *. destruct (clefSeg m) as [l|]; [|apply key_loop_no_clefs].
    destruct (key_loop_clefs (hasCourtesyKeySig m) staffKeys 0 m (keySigAnnounce m) l u) as (l' & E' & L' & _ & H').
    rewrite E'. f_equal. apply nth_ext with None None; [exact L'|].
    intros j Hj. rewrite H' by (unfold nstaves in *; lia). apply Hc. lia. }
  rewrite Ec. destruct m; reflexivity.
Qed.

Lemma systemTrailer_eq m tss :
  systemTrailer m (Some tss) =
  mkTrailer (fst (key_part (fst (time_part m tss)) (snd (time_part m tss))))
            (snd (key_part (fst (time_part m tss)) (snd (time_part m tss))))
            (hasSystemTrailer (fst (key_part (fst (time_part m tss)) (snd (time_part m tss))))).
Proof. unfold systemTrailer. destruct (time_part m tss) as [m1 u1]. simpl. destruct (key_part m1 u1). reflexivity. Qed.

Lemma time_done_congr m m' tss :
  isFinalMeasureOfSection m' = isFinalMeasureOfSection m -> timeSigAnnounce m' = timeSigAnnounce m ->
  time_done m tss -> time_done m' tss.
Proof. unfold time_done. intros Hf Ht. rewrite (showCourtesySig_of_final m m' tss Hf), Ht. auto. Qed.

Lemma time_done_slots m tss : time_done m tss -> slots nstaves (timeSigAnnounce m).
Proof.
  unfold time_done. destruct (showCourtesySig_of m tss).
  - intros (s & -> & L & _). exact L.
  - intros ->. exact I.
Qed.

Lemma clef_after_congr m m' c :
  repeatEnd m' = repeatEnd m -> isFinalMeasureOfSection m' = isFinalMeasureOfSection m ->
  clef_after m' c = clef_after m c.
Proof. intros Hr Hf. unfold clef_after, clef_hide. rewrite Hr, Hf. reflexivity. Qed.

(** What one run of the trailer leaves: the courtesy time and key
    signatures due, the clefs hidden, one slot per staff, the flag
    recording them, and the measure's other flags untouched. *)
Lemma systemTrailer_done m tss : wf nstaves m ->
  let m2 := t_meas (systemTrailer m (Some tss)) in
  time_done m2 tss /\ keys_done (hasCourtesyKeySig m2) 0 staffKeys (keySigAnnounce m2) /\
  wf nstaves m2 /\ clefs_done m2 /\
  hasSystemTrailer m2 = showCourtesySig_of m tss || (hasCourtesyKeySig m && Nat.ltb 0 nstaves) /\
  isFinalMeasureOfSection m2 = isFinalMeasureOfSection m /\ repeatEnd m2 = repeatEnd m /\
  hasCourtesyKeySig m2 = hasCourtesyKeySig m.
Proof.
  intros (Ht & Hk & Hc). rewrite systemTrailer_eq. cbn [t_meas].
  set (m1 := fst (time_part m tss)). set (u1 := snd (time_part m tss)).
  destruct (time_part_meas m tss) as (T1 & T2 & T3 & T4 & T5 & T6); fold m1 in T1, T2, T3, T4, T5, T6.
  destruct (key_part_meas m1 u1) as (K1 & K2 & K3 & K4 & K5).
  pose proof (time_part_done m tss Ht) as Td; fold m1 in Td.
  assert (Td2 : time_done (fst (key_part m1 u1)) tss)
    by (apply (time_done_congr m1); [exact K2 | exact K5 | exact Td]).
  destruct (key_part_keys m1 u1 ltac:(rewrite T5; exact Hk)) as [Kd Ks].
  pose proof (key_part_clefs m1 u1 ltac:(rewrite T6; exact Hc)) as Kc.
  rewrite K4, T4 in *. split; [exact Td2|]. split; [exact Kd|]. split.
  { split; [exact (time_done_slots _ _ Td2)|]. split; [exact Ks|].
    unfold slots in *. rewrite T6 in Kc. destruct (clefSeg m) as [l|].
    - destruct Kc as (l' & -> & L & _). lia.
    - rewrite Kc. exact I. }
  split.
  { unfold clefs_done. rewrite T6 in Kc. destruct (clefSeg m) as [l|]; [|rewrite Kc; exact I].
    destruct Kc as (l' & -> & L & H). intros j Hj. rewrite H by exact Hj.
    rewrite (clef_after_congr m1 (fst (key_part m1 u1))) by assumption. apply clef_after_idem. }
  rewrite K1, T1. split; [reflexivity|]. split; [congruence|]. split; congruence.
Qed.

Lemma systemTrailer_flag m tss :
  t_minWidth (systemTrailer m (Some tss)) = hasSystemTrailer (t_meas (systemTrailer m (Some tss))).
Proof. rewrite systemTrailer_eq. reflexivity. Qed.

(** C13. Courtesy elements: after the trailer of a measure whose
    segments have one slot per staff, followed by a measure whose
    [TimeSig] segment is [tss], every staff with a next time signature
    holds a courtesy time signature of that signature when one is due
    (and the [TimeSigAnnounce] segment is gone when none is), every
    staff holds a courtesy key signature of its key at the end tick when
    [hasCourtesyKeySig] (and none when not), and each clef at the end of
    the measure is hidden exactly when no courtesy clef is due. *)
Theorem systemTrailer_courtesy m tss : wf nstaves m ->
  let m2 := t_meas (systemTrailer m (Some tss)) in
  time_done m2 tss /\ keys_done (hasCourtesyKeySig m) 0 staffKeys (keySigAnnounce m2) /\
  (forall l, clefSeg m = Some l -> exists l', clefSeg m2 = Some l' /\
     forall j, j < nstaves -> nth j l' None = clef_after m (nth j l None)).
Proof.
  intros Hwf. destruct (systemTrailer_done m tss Hwf) as (Td & Kd & _ & _ & _ & _ & _ & Hh).
  rewrite Hh in Kd. split; [exact Td|]. split; [exact Kd|].
  intros l El. destruct Hwf as (_ & _ & Hc). rewrite systemTrailer_eq. cbn [t_meas].
  destruct (time_part_meas m tss) as (_ & _ & _ & _ & _ & T6).
  pose proof (key_part_clefs (fst (time_part m tss)) (snd (time_part m tss)) ltac:(rewrite T6; exact Hc)) as Kc.
  rewrite T6, El in Kc. destruct Kc as (l' & E' & _ & H'). exists l'. split; [exact E'|].
  intros j Hj. rewrite H' by exact Hj. apply clef_after_congr; apply time_part_meas.
Qed.

(** C15. The trailer flag: [computeMinWidth] is called again, and
    [hasSystemTrailer] set, exactly when a courtesy time signature is due
    or courtesy key signatures are shown on at least one staff; without
    a next measure nothing is done at all. *)
Theorem systemTrailer_minWidth m nm :
  match nm with
  | None => systemTrailer m nm = mkTrailer m [] false
  | Some tss =>
      t_minWidth (systemTrailer m nm) = hasSystemTrailer (t_meas (systemTrailer m nm)) /\
      t_minWidth (systemTrailer m nm) = showCourtesySig_of m tss || (hasCourtesyKeySig m && Nat.ltb 0 nstaves)
  end.
Proof.
  destruct nm as [tss|]; [|reflexivity].
  split; [apply systemTrailer_flag|].
  rewrite systemTrailer_eq. cbn [t_minWidth]. rewrite (proj1 (key_part_meas _ _)), (proj1 (time_part_meas _ _)).
  f_equal. f_equal. apply time_part_meas.
Qed.

(** C14. Stability under re-layout: on a measure with one slot per staff,
    running the trailer a second time with the same next measure changes
    nothing and issues no undo command. *)
Theorem systemTrailer_idempotent m nm : wf nstaves m ->
  let r := systemTrailer m nm in systemTrailer (t_meas r) nm = mkTrailer (t_meas r) [] (t_minWidth r).
Proof.
  intros Hwf. destruct nm as [tss|]; [|reflexivity]. cbn zeta.
  destruct (systemTrailer_done m tss Hwf) as (Td & Kd & Hw & Hc & Hh & Hf & Hr & Hk).
  set (m2 := t_meas (systemTrailer m (Some tss))) in *.
  rewrite systemTrailer_flag. fold m2.
  rewrite (systemTrailer_eq m2 tss), (time_part_stable m2 tss Td). cbn [fst snd].
  rewrite (key_part_stable (set_trailer (showCourtesySig_of m2 tss) m2) [] Kd Hw Hc). cbn [fst snd].
  rewrite set_trailer_twice. simpl hasSystemTrailer. rewrite (showCourtesySig_of_final m m2 tss Hf).
  change (hasCourtesyKeySig (set_trailer (showCourtesySig_of m tss) m2)) with (hasCourtesyKeySig m2).
  rewrite Hk, <- Hh, set_trailer_same. reflexivity.
Qed.

End Trailer.

End SystemTrailer.

(** Witnesses: two staves in C and G major; the last measure already has
    a stale courtesy time signature 2/4 on staff 1 and a clef change on
    staff 0 without courtesy; the next measure starts with 3/4 on both
    staves. *)
Definition wit_keys : list SystemHeader.SystemHeader.KeySigEvent :=
  [SystemHeader.SystemHeader.mkKSE 0 false false; SystemHeader.SystemHeader.mkKSE 1 false false].
Definition wit_ts (a b : Z) : SystemTrailer.TimeSig := SystemTrailer.mkTimeSig (a, b) true false.
Definition wit_meas : SystemTrailer.Meas :=
  SystemTrailer.mkMeas false false false true
    (Some [None; Some (wit_ts 2 4)]) None
    (Some [Some (SystemTrailer.mkCClef false false); None]).
Definition wit_next : option (list (option SystemTrailer.TimeSig)) := Some [Some (wit_ts 3 4); Some (wit_ts 3 4)].

Lemma systemTrailer_courtesy_witness :
  SystemTrailer.wf (SystemTrailer.nstaves wit_keys) wit_meas /\
  (let m2 := SystemTrailer.t_meas (SystemTrailer.systemTrailer true true false wit_keys wit_meas (Some wit_next)) in
   SystemTrailer.time_done true false wit_keys m2 wit_next /\
   SystemTrailer.keys_done (SystemTrailer.hasCourtesyKeySig wit_meas) 0 wit_keys (SystemTrailer.keySigAnnounce m2) /\
   (forall l, SystemTrailer.clefSeg wit_meas = Some l -> exists l', SystemTrailer.clefSeg m2 = Some l' /\
      forall j, j < SystemTrailer.nstaves wit_keys ->
        nth j l' None = SystemTrailer.clef_after true wit_meas (nth j l None))).
Proof.
  split; [vm_compute; repeat split|].
  apply SystemTrailer.systemTrailer_courtesy. vm_compute; repeat split.
Defined.

Lemma systemTrailer_idempotent_witness :
  SystemTrailer.wf (SystemTrailer.nstaves wit_keys) wit_meas /\
  (let r := SystemTrailer.systemTrailer true true false wit_keys wit_meas (Some wit_next) in
   SystemTrailer.systemTrailer true true false wit_keys (SystemTrailer.t_meas r) (Some wit_next) =
   SystemTrailer.mkTrailer (SystemTrailer.t_meas r) [] (SystemTrailer.t_minWidth r)).
Proof.
  split; [vm_compute; repeat split|].
  apply SystemTrailer.systemTrailer_idempotent. vm_compute; repeat split.
Defined.

(** A staff without a time signature in the next measure keeps the
    courtesy time signature a previous layout left there: the stale 2/4
    stays on staff 1 beside the new 3/4 of staff 0. *)
Example systemTrailer_stale_timesig :
  SystemTrailer.timeSigAnnounce
    (SystemTrailer.t_meas (SystemTrailer.systemTrailer true true false wit_keys wit_meas
       (Some (Some [Some (wit_ts 3 4); None])))) =
  Some [Some (SystemTrailer.mkTimeSig (3%Z, 4%Z) true true); Some (wit_ts 2 4)].
Proof. vm_compute. reflexivity. Qed.

(** The trace of the first run: the courtesy time signature of staff 0
    is created, the key signature segment and both courtesy key
    signatures are added. *)
Example systemTrailer_trace :
  SystemTrailer.t_undo (SystemTrailer.systemTrailer true true false wit_keys wit_meas (Some wit_next)) =
  [SystemTrailer.AddTimeSig 0; SystemTrailer.AddSegment SystemTrailer.KeySigAnnounce;
   SystemTrailer.AddKeySig 0; SystemTrailer.AddKeySig 1].
Proof. vm_compute. reflexivity. Qed.
